(* ===== verification/_CoqProject ===== *)
-Q . S2P
Prelude.v
GoErrors.v
Config.v
Values.v
Conc.v
Provider.v
Utf8.v
Strconv.v
SqsOptions.v
SqsSender.v
SqsSafety.v
PubSub.v
Routes.v
SqsClient.v
Samples.v
Sqs.v
PubSubSafety.v
PubSubSend.v
PubSubClient.v
Context.v
Flags.v
DotEnv.v
LoadConfig.v
Sql.v
Routing.v
RoutingSpec.v
Select.v
Stats.v
FailureLogger.v
Watchdog.v
Metrics.v
Health.v
App.v
Db.v
Dlq.v
Backlog.v
Notify.v
Listener.v
Processor.v
ProcessorSafety.v
Relay.v
Sends.v
Fleet.v
Loop.v
Process.v
Init.v
Run.v
Shutdown.v
