(* ===== verification/Prelude.v ===== *)
(** * Outboxer: a verification development

    Outboxer is a relay for the transactional outbox pattern.  Producers insert rows into an event
    table in their own transactions; the relay selects rows in batches, sends them to Google
    Pub/Sub or AWS SQS, deletes those that are finished and dead-letters those that can never be
    sent.  This library models the Go code under [internal/outboxer] and proves what makes it
    correct.  All paths below are relative to [src/internal/outboxer].

    ** How the code is modelled

    - Go values: [any] is the inductive [Values.value]; [int] and [int64] are integers of [Z] whose
      wrap-around is written out with [wrap64] where the code does arithmetic on them that can
      leave the range; strings and byte slices are byte strings; maps are [gmap]s, and ranging
      over one goes through [MapRange], which may give any order.
    - Errors are the trees of [GoErrors.v] with [errors.Is], [errors.As] and [errors.Join];
      fallible pure functions return [error + A].
    - Effects: a function that talks to a queue, the database, the clock or the context is a
      program of [Conc.v], a tree of actions whose results it receives.  [exec m tr a] is the set of
      its executions, with the actions it performed and their results; the branches of a group of
      goroutines interleave freely.  [run] is one schedule, used to evaluate programs on concrete
      inputs.  [wp] and [only] are the rules properties of all executions are proved with.
    - Loops over slices are structural.  The processing loop runs forever, so [processEvents] takes
      the number of turns; its theorems hold for every number and, where they speak of a moment,
      for every prefix of an execution, so they cover a relay that never stops and one that is
      killed between two actions.
    - What the relay only calls (JSON, time layouts, base64, SHA-256, URL syntax, identifier
      quoting, the SDKs) is a parameter: the operations of the classes [GoRuntime], [Pgx] and
      [MapRange], and the results of actions.  [Samples.v] gives concrete functions, for the
      witnesses.

    ** Files

    - [Prelude], [GoErrors], [Config] ([config.go]), [Values] ([events.go], [provider/event.go]),
      [Conc] ([provider/concurrent.go]), [Provider] ([provider/sender.go], [provider/log.go]) and
      [Samples]: the shared basis.  [Provider.Provider] is the interface between the relay and
      its senders: confirmations only for acknowledged messages.
    - [Utf8], [SqsOptions] ([sqs/options.go]), [SqsSender] ([sqs/sender.go]), [SqsSafety] and [Sqs]:
      the SQS sender.  [Sqs.sqs_provider] is its instance of the interface.
    - [PubSub] ([pubsub/validation.go], [pubsub/sender.go]), [PubSubSafety] and [PubSubSend]: the
      Pub/Sub sender, with the instance [pubsub_provider].
    - [Routes] ([providers.go], [config_validate.go]): provider routes and configuration rules.
    - [Sql], [Routing] ([db.go], [backlog.go]): the exact text of the queries, and the routing
      expressions as an abstract syntax with SQL's three-valued semantics; [RoutingSpec]: the
      routing rules, and that text and expressions follow them.
    - [Select]: what the collection and backlog queries return for a table; [batchDrained].
    - [Stats] ([stats.go]), [FailureLogger] ([failure_logger.go]).
    - [App]: the actions of the relay; [Db] ([db.go]), [Dlq] ([dlq.go]), [Backlog] ([backlog.go]),
      [Notify] ([notify.go]) and [Processor] ([processor.go]): its programs.
    - [Context]: contexts as the moment they are done, [WithTimeout] ([provider/sender.go]) and the
      deadlines of the calls; [Listener]: [wait] and [drainNotifications] ([notify.go]) in time,
      against the class [Listener.Connection] of what the driver promises.
    - [ProcessorSafety]: the rules of those programs; [Relay]: the database under the relay's
      statements and the producers' inserts; [Sends]: what is sent comes from the open
      transaction's selection; [Loop]: how the loop ends and what it holds.
    - [Fleet]: any number of relays on one table, with their row locks, and the abstract outbox
      they refine.
    - [Strconv]: the parsers of [strconv] the configuration uses; [Flags] ([config_flags.go],
      [config.go]): the flags, the environment, the [flag] package's command line and the loaders;
      [DotEnv] ([dotenv.go]); [LoadConfig]: what a loaded configuration is.
    - [Watchdog] ([watchdog.go]), [Metrics] ([metrics.go]), [Health] ([http.go]): what runs beside
      the loop.
    - [SqsClient] ([sqs/client.go]), [PubSubClient] ([pubsub/client.go]): the adapters between the
      senders and the SDKs.
    - [Process] ([logging.go], [openDB] of [db.go]): the actions of the process, which contain
      those of the relay, and the start-up both verbs share; [Init] ([init.go]): provisioning;
      [Run] ([run.go], the builders of [providers.go], [cmd/outboxer/main.go]): the relay's process
      from [main] to its exit status; [Shutdown]: the goroutine that serves the health endpoint
      ([http.go]) and the one that logs the statistics ([stats.go]) beside it.

    ** What is shown

    - The relay: no row is lost at whatever moment it stops ([Relay.at_least_once]); only
      justified transactions are committed; finished events are deleted; counters add up; the loop
      only stops for a cancelled context or a fatal error; one listener connection; waiting for a
      notification ends in bounded time and misses none ([Listener.wait_wakes]).
    - Several relays: they refine an outbox in which each row is finished once, by one relay
      ([Fleet.fleet_refines_outbox]), and never send a row another one holds.  They may send to
      one route at the same time ([Fleet.row_locks_leave_routes_shared]).
    - The senders: an id is confirmed only after the queue accepted its message; a nil error means
      every event was resolved; order within message groups and ordering keys; requests within the
      limits that are checked, which the client passes on unchanged (the length of a type name is
      not checked: [Sqs.long_type_name_is_sent]); requests in flight within the capacity of the one
      semaphore, its channel behaving as Go's do ([Sqs.channels]); poison only for documented
      reasons, a rejection by Pub/Sub only when a message alone in its bundle is rejected again.
    - Collection: the routing SQL means the routing rules; the query is a fair scan of the table in
      id order; shares, bounds and drained batches; literals cannot escape their quotes; scanning
      reads back what was selected.
    - Startup checks and configuration: each accepts exactly what its specification says.
    - Statistics and failure log: over interleaved atomic operations the log lines are the differences
      of the counters between moments, consecutive intervals when their calls do not overlap (and
      [Stats.overtaken_interval_is_negative] when they do); the backlog gauge is exact or reported
      as a floor; the rate limit is exact.
    - Configuration: which of command line, environment, file and default each setting comes from,
      and what holds of every loaded configuration, down to the entries of its lists.
    - The process: whatever fails, resources are closed in reverse order and nothing is done after
      the first close; a relay process is start-up, then exactly an execution of the loop the
      theorems above are about, then shutdown ([Run.process_lifecycle]).  A cancelled context ends
      it within one more transaction, however the goroutines beside it interleave
      ([Shutdown.cancellation_ends_the_relay]).  Provisioning is all or nothing and its printed form
      shows no password.
    - Beside the loop: the watchdog ends the process exactly on a stall; the metrics text reads back
      as the statistics; the health endpoint follows the commits; one publisher per topic.

    ** What is assumed of the environment

    The database answers as [Relay.db_step] says: the collection query returns what
    [Select.select_events] gives for the committed rows, deletion removes the rows whose ids are
    listed, a commit that reports an error may have been applied or not, and producers only insert
    rows with new ids.  Ids are compared by [eventIDKey], which is injective on the kinds of value
    an id column delivers.  With several relays ([Fleet.fleet_step]) a query answers from the table
    at some earlier moment, waits for the rows others have locked and skips those that are gone, as
    [FOR UPDATE] does; the locks of a transaction last until it ends, and a lost connection ends it
    at some moment.  Shutdown assumes that a statement of a cancelled relay returns, which its
    deadline ([Context.queryCtx]) and the driver see to.

    ** What is not modelled

    Debug and info log lines and latencies that are only logged.  Programs have no clock of their
    own: a deadline that passes shows as a failed action, and [Context] and [Listener] say when it
    can.  The watchdog is not interleaved with the process of [Run]: it may end it after any prefix
    of an execution.  What the SDKs and [net/http] do is outside the model.  The driver of the
    end-to-end tests under [test/cloud] is not modelled: it is test code that runs [gcloud],
    [kubectl] and the cloud SDKs against a deployed stack. *)
From Stdlib Require Export Ascii.
From stdpp Require Export base tactics gmap strings list pretty sorting.
From Stdlib Require Export ZArith Lia.

#[global] Set Warnings "-register-all,-clear-no-such-hyp".

(** ** Notations: Go's [(value, error)] returns as sums *)

Declare Scope go_scope.
Delimit Scope go_scope with go.

Notation "'let?' x ':=' m 'in' k" :=
  (match m with inl err => inl err | inr x => k end)
  (at level 10, x pattern, m at level 100, k at level 200) : go_scope.

(** ** The hint database of the development *)

Create HintDb outbox.
Create Rewrite HintDb outbox.

(** ** Machine integers: Go's [int], [int64] and [time.Duration] *)

Definition two63 : Z := 9223372036854775808%Z.
Definition two64 : Z := 18446744073709551616%Z.
Definition max_int64 : Z := 9223372036854775807%Z.
Definition min_int64 : Z := (-9223372036854775808)%Z.

(** The value an [int64] holds after an operation whose exact result is [z]. *)
Definition wrap64 (z : Z) : Z := ((z + two63) mod two64 - two63)%Z.

Definition in_int64 (z : Z) : Prop := (min_int64 <= z <= max_int64)%Z.

Lemma wrap64_in (z : Z) : in_int64 (wrap64 z).
Proof.
  unfold in_int64, wrap64, min_int64, max_int64, two63, two64.
  pose proof (Z.mod_pos_bound (z + 9223372036854775808) 18446744073709551616 eq_refl). lia.
Qed.

Lemma wrap64_id (z : Z) : in_int64 z -> wrap64 z = z.
Proof.
  unfold in_int64, wrap64, min_int64, max_int64, two63, two64; intros Hz.
  rewrite Z.mod_small; lia.
Qed.

#[export] Hint Resolve wrap64_in wrap64_id : outbox.

(** ** Go's [strings] package on byte strings

    A Go string and a [[]byte] are both a Rocq [string], one [ascii] per byte. *)

Definition strings_HasPrefix (s prefix : string) : bool := String.prefix prefix s.

Definition strings_HasSuffix (s suffix : string) : bool :=
  String.prefix (String.rev suffix) (String.rev s).

Fixpoint strings_Contains (s substr : string) : bool :=
  String.prefix substr s ||
  match s with EmptyString => false | String _ s' => strings_Contains s' substr end.

Fixpoint string_existsb (p : ascii -> bool) (s : string) : bool :=
  match s with EmptyString => false | String c s' => p c || string_existsb p s' end.

Fixpoint string_forallb (p : ascii -> bool) (s : string) : bool :=
  match s with EmptyString => true | String c s' => p c && string_forallb p s' end.

Definition ascii_eqb (a b : ascii) : bool := bool_decide (a = b).

Fixpoint string_elem (c : ascii) (s : string) : bool :=
  match s with EmptyString => false | String c' s' => ascii_eqb c c' || string_elem c s' end.

Definition strings_ContainsAny (s chars : string) : bool :=
  string_existsb (fun c => string_elem c chars) s.

Fixpoint strings_Join (elems : list string) (sep : string) : string :=
  match elems with
  | [] => ""
  | [e] => e
  | e :: es => e +:+ sep +:+ strings_Join es sep
  end.

(** [strings.Split] on a one-byte separator. *)
Fixpoint strings_Split (s : string) (sep : ascii) : list string :=
  match s with
  | EmptyString => [""]
  | String c s' =>
      if ascii_eqb c sep then "" :: strings_Split s' sep
      else match strings_Split s' sep with
           | [] => [String c EmptyString]
           | w :: ws => String c w :: ws
           end
  end.

(** [strings.Cut] on a one-byte separator: before, after, found. *)
Fixpoint strings_Cut (s : string) (sep : ascii) : string * string * bool :=
  match s with
  | EmptyString => ("", "", false)
  | String c s' =>
      if ascii_eqb c sep then ("", s', true)
      else let '(b, a, found) := strings_Cut s' sep in (String c b, a, found)
  end.

(** [strings.ReplaceAll] of a one-byte pattern. *)
Fixpoint strings_ReplaceAll (s : string) (old : ascii) (new : string) : string :=
  match s with
  | EmptyString => EmptyString
  | String c s' =>
      (if ascii_eqb c old then new else String c EmptyString) +:+ strings_ReplaceAll s' old new
  end.

(** A byte string from its byte values. *)
Fixpoint bytes_of (bs : list N) : string :=
  match bs with [] => EmptyString | b :: bs => String (ascii_of_N b) (bytes_of bs) end.

(** [strings.ToLower] as far as the relay looks at the result, which it compares with ASCII words:
    the ASCII letters, and the two other runes with an ASCII lower case, U+0130 and U+212A. *)
Definition ascii_lower (c : ascii) : ascii :=
  let n := N_of_ascii c in
  if ((65 <=? n) && (n <=? 90))%N then ascii_of_N (n + 32) else c.

Definition capital_i_dot : string := bytes_of [196; 176]%N.
Definition kelvin_sign : string := bytes_of [226; 132; 170]%N.

Fixpoint strings_ToLower (s : string) : string :=
  match s with
  | EmptyString => EmptyString
  | String c s' =>
      match s' with
      | String c1 s1 =>
          if bool_decide (String c (String c1 "") = capital_i_dot) then String "i" (strings_ToLower s1)
          else match s1 with
               | String c2 s2 =>
                   if bool_decide (String c (String c1 (String c2 "")) = kelvin_sign)
                   then String "k" (strings_ToLower s2)
                   else String (ascii_lower c) (strings_ToLower s')
               | EmptyString => String (ascii_lower c) (strings_ToLower s')
               end
      | EmptyString => String (ascii_lower c) (strings_ToLower s')
      end
  end.

(** The UTF-8 encodings of the runes [unicode.IsSpace] accepts. *)
Definition space_runes : list string :=
  map bytes_of
    ([[9]; [10]; [11]; [12]; [13]; [32]; [194; 133]; [194; 160]; [225; 154; 128];
      [226; 128; 168]; [226; 128; 169]; [226; 128; 175]; [226; 129; 159]; [227; 128; 128]]
     ++ ((fun b => [226; 128; b]) <$> [128; 129; 130; 131; 132; 133; 134; 135; 136; 137; 138]))%N.

(** The length of the first member of [encodings] that [s] starts with, or 0. *)
Fixpoint leading_rune (encodings : list string) (s : string) : nat :=
  match encodings with
  | [] => 0
  | e :: es => if String.prefix e s then String.length e else leading_rune es s
  end.

(** Drops [skip] bytes and then the leading runes of [encodings]. *)
Fixpoint trim_prefixes (encodings : list string) (skip : nat) (s : string) : string :=
  match s with
  | EmptyString => EmptyString
  | String _ s' =>
      match skip with
      | S k => trim_prefixes encodings k s'
      | 0 => match leading_rune encodings s with
             | 0 => s
             | S k => trim_prefixes encodings k s'
             end
      end
  end.

Definition strings_TrimSpace (s : string) : string :=
  let left := trim_prefixes space_runes 0 s in
  String.rev (trim_prefixes (map String.rev space_runes) 0 (String.rev left)).

(** [len(s)] of a string or byte slice. *)
Definition len (s : string) : Z := Z.of_nat (String.length s).

(** [String.append] does not simplify by itself; these are its equations. *)
Lemma string_app_nil (s : string) : "" +:+ s = s.
Proof. done. Qed.

Lemma string_app_cons (c : ascii) (a b : string) : String c a +:+ b = String c (a +:+ b).
Proof. done. Qed.

Lemma string_app_assoc (a b c : string) : (a +:+ b) +:+ c = a +:+ b +:+ c.
Proof. induction a as [|x a IH]; [done|]. by rewrite !string_app_cons, IH. Qed.

Lemma string_app_nil_r (a : string) : a +:+ "" = a.
Proof. induction a as [|x a IH]; [done|]. by rewrite string_app_cons, IH. Qed.

Lemma string_length_app (a b : string) :
  String.length (a +:+ b) = String.length a + String.length b.
Proof. induction a as [|x a IH]; [done|]. rewrite string_app_cons. simpl. by rewrite IH. Qed.

Lemma string_forallb_app p (a b : string) :
  string_forallb p (a +:+ b) = string_forallb p a && string_forallb p b.
Proof.
  induction a as [|x a IH]; [done|]. rewrite string_app_cons. simpl.
  by rewrite IH, andb_assoc.
Qed.

Lemma string_forallb_impl (p q : ascii -> bool) (s : string) :
  (forall c, p c = true -> q c = true) -> string_forallb p s = true -> string_forallb q s = true.
Proof.
  intros Hpq. induction s as [|c s IH]; [done|]. simpl. rewrite !andb_true_iff.
  intros [Hc Hs]. auto.
Qed.

Lemma string_elem_app c (a b : string) : string_elem c (a +:+ b) = string_elem c a || string_elem c b.
Proof. induction a as [|x a IH]; [done|]. rewrite string_app_cons. simpl. by rewrite IH, orb_assoc. Qed.

Lemma ascii_eqb_eq a b : ascii_eqb a b = true <-> a = b.
Proof. unfold ascii_eqb. apply bool_decide_eq_true. Qed.

Lemma ascii_eqb_neq a b : ascii_eqb a b = false <-> a <> b.
Proof. unfold ascii_eqb. apply bool_decide_eq_false. Qed.

Lemma strings_Cut_found name c v :
  string_elem c name = false -> strings_Cut (name +:+ String c v) c = (name, v, true).
Proof.
  induction name as [|x name IH]; simpl.
  - intros _. by rewrite (proj2 (ascii_eqb_eq c c)).
  - rewrite ?string_app_cons. simpl. destruct (ascii_eqb c x) eqn:Hx; [done|]. simpl. intros Hn.
    rewrite (proj2 (ascii_eqb_neq x c)) by (apply ascii_eqb_neq in Hx; congruence). by rewrite IH.
Qed.

Lemma strings_Cut_absent name c : string_elem c name = false -> strings_Cut name c = (name, "", false).
Proof.
  induction name as [|x name IH]; simpl; [done|].
  destruct (ascii_eqb c x) eqn:Hx; [done|]. simpl. intros Hn.
  rewrite (proj2 (ascii_eqb_neq x c)) by (apply ascii_eqb_neq in Hx; congruence). by rewrite IH.
Qed.

Lemma strings_Cut_inv s c b a found :
  strings_Cut s c = (b, a, found) ->
  string_elem c b = false /\ s = if found then b +:+ String c a else b.
Proof.
  revert b a found. induction s as [|x s IH]; intros b a found; simpl; [by intros [= <- <- <-]|].
  destruct (ascii_eqb x c) eqn:Hx.
  - intros [= <- <- <-]. apply ascii_eqb_eq in Hx as ->. done.
  - destruct (strings_Cut s c) as [[b' a'] f'] eqn:Hs. intros [= <- <- <-].
    destruct (IH _ _ _ eq_refl) as [Hb ->]. simpl.
    rewrite (proj2 (ascii_eqb_neq c x)) by (apply ascii_eqb_neq in Hx; congruence).
    split; [done|]. by destruct f'.
Qed.

Lemma strings_Split_app l sep rest :
  string_elem sep l = false -> strings_Split (l +:+ String sep rest) sep = l :: strings_Split rest sep.
Proof.
  induction l as [|x l IH]; simpl.
  - intros _. by rewrite (proj2 (ascii_eqb_eq sep sep)).
  - destruct (ascii_eqb sep x) eqn:Hx; [done|]. simpl. intros Hl.
    rewrite ?string_app_cons. simpl.
    rewrite (proj2 (ascii_eqb_neq x sep)) by (apply ascii_eqb_neq in Hx; congruence). by rewrite IH.
Qed.

Lemma strings_Split_none sep s : string_elem sep s = false -> strings_Split s sep = [s].
Proof.
  induction s as [|c s IH]; [done|]. simpl. rewrite orb_false_iff. intros [Hc Hs].
  rewrite (proj2 (ascii_eqb_neq c sep)) by (apply ascii_eqb_neq in Hc; congruence).
  by rewrite (IH Hs).
Qed.

(** The parts contain no separator, and joined give the string back. *)
Lemma strings_Split_parts sep s :
  Forall (fun p => string_elem sep p = false) (strings_Split s sep)
  /\ strings_Join (strings_Split s sep) (String sep EmptyString) = s.
Proof.
  induction s as [|c s [IHf IHj]]; [by repeat constructor|]. simpl.
  destruct (ascii_eqb c sep) eqn:Hc.
  - apply bool_decide_eq_true in Hc as ->. split; [by constructor|].
    destruct (strings_Split s sep) as [|w ws] eqn:Hs; [by destruct s as [|c s]; simpl in Hs;
      [|destruct (ascii_eqb c sep); [|destruct (strings_Split s sep)]]|].
    by rewrite <- IHj.
  - apply bool_decide_eq_false in Hc.
    destruct (strings_Split s sep) as [|w ws]; simpl in *.
    + subst. split; [|done]. constructor; [|done]. simpl. rewrite orb_false_r.
      apply bool_decide_eq_false. congruence.
    + apply Forall_cons in IHf as [Hw Hws]. split.
      * constructor; [|done]. simpl. rewrite Hw, orb_false_r. apply bool_decide_eq_false. congruence.
      * destruct ws as [|w' ws]; [by rewrite IHj|]. by rewrite string_app_cons, IHj.
Qed.
(** *** Trimming *)

Lemma string_rev_app_acc (a b : string) : String.rev_app a b = String.rev a +:+ b.
Proof.
  unfold String.rev. revert b. induction a as [|c a IH]; intros b; simpl; [done|].
  by rewrite IH, (IH (String c EmptyString)), string_app_assoc.
Qed.

Lemma string_rev_cons c (a : string) : String.rev (String c a) = String.rev a +:+ String c EmptyString.
Proof. exact (string_rev_app_acc a (String c EmptyString)). Qed.

Lemma string_rev_append (a b : string) : String.rev (a +:+ b) = String.rev b +:+ String.rev a.
Proof.
  induction a as [|c a IH]; [by rewrite string_app_nil_r|].
  by rewrite string_app_cons, !string_rev_cons, IH, string_app_assoc.
Qed.

Lemma string_rev_involutive (a : string) : String.rev (String.rev a) = a.
Proof. induction a as [|c a IH]; [done|]. by rewrite string_rev_cons, string_rev_append, IH. Qed.

Lemma string_prefix_app (a b : string) : String.prefix a (a +:+ b) = true.
Proof. induction a as [|c a IH]; [by destruct b|]. simpl. by destruct (Ascii.ascii_dec c c). Qed.

(** A string with no leading rune of the encodings starts with none of them. *)
Lemma leading_rune_none encodings s e rest :
  "" ∉ encodings -> leading_rune encodings s = 0 -> e ∈ encodings -> s <> e +:+ rest.
Proof.
  induction encodings as [|e' es IH]; [set_solver|]. simpl. intros Hne Hs He ->.
  destruct (String.prefix e' (e +:+ rest)) eqn:Hp; [destruct e'; [set_solver|done]|].
  apply elem_of_cons in He as [->|He]; [by rewrite string_prefix_app in Hp|].
  apply IH; [set_solver|done..].
Qed.

(** What is left has no leading rune, and is the end of the string. *)
Lemma trim_prefixes_spec encodings skip s :
  "" ∉ encodings ->
  leading_rune encodings (trim_prefixes encodings skip s) = 0
  /\ exists dropped, s = dropped +:+ trim_prefixes encodings skip s.
Proof.
  intros Hne. revert skip. induction s as [|c s IH]; intros skip.
  - split; [|by exists ""]. simpl. induction encodings as [|[|] es IHe]; simpl; [done|set_solver|].
    apply IHe. set_solver.
  - cbn [trim_prefixes]. destruct skip as [|k]; [destruct (leading_rune encodings (String c s)) as [|k] eqn:Hl|].
    + split; [done|by exists ""].
    + destruct (IH k) as [? [d Hd]]. split; [done|]. exists (String c d). by rewrite string_app_cons, <- Hd.
    + destruct (IH k) as [? [d Hd]]. split; [done|]. exists (String c d). by rewrite string_app_cons, <- Hd.
Qed.

(** A trimmed string neither starts nor ends with a space. *)
Definition trimmed (s : string) : Prop :=
  forall space rest, space ∈ space_runes -> s <> space +:+ rest /\ s <> rest +:+ space.

(** [strings.TrimSpace] gives a trimmed part of its argument. *)
Lemma strings_TrimSpace_spec s :
  trimmed (strings_TrimSpace s) /\ exists before after, s = before +:+ strings_TrimSpace s +:+ after.
Proof.
  unfold strings_TrimSpace. set (left := trim_prefixes space_runes 0 s).
  set (right := trim_prefixes (map String.rev space_runes) 0 (String.rev left)).
  assert (Hl : "" ∉ space_runes) by (apply (bool_decide_unpack (_ ∉ _)); vm_compute; exact I).
  assert (Hr : "" ∉ map String.rev space_runes) by (apply (bool_decide_unpack (_ ∉ _)); vm_compute; exact I).
  destruct (trim_prefixes_spec space_runes 0 s Hl) as [Hleft [before Hbefore]].
  destruct (trim_prefixes_spec (map String.rev space_runes) 0 (String.rev left) Hr) as [Hright [dropped Hdropped]].
  fold left in Hleft, Hbefore. fold right in Hright, Hdropped.
  assert (Hleft' : left = String.rev right +:+ String.rev dropped).
  { by rewrite <- string_rev_append, <- Hdropped, string_rev_involutive. }
  split; [|by exists before, (String.rev dropped); rewrite <- Hleft']. intros space rest Hin. split; intros Heq.
  - apply (leading_rune_none _ _ space (rest +:+ String.rev dropped) Hl Hleft Hin).
    by rewrite Hleft', Heq, string_app_assoc.
  - apply (leading_rune_none _ _ (String.rev space) (String.rev rest) Hr Hright); [by apply list_elem_of_fmap_2|].
    by rewrite <- string_rev_append, <- Heq, string_rev_involutive.
Qed.

(** ** Lists shared by the components *)

Lemma prefix_sublist {A} (l k : list A) : l `prefix_of` k -> l `sublist_of` k.
Proof. intros [m ->]. by apply sublist_inserts_r. Qed.

Lemma split_at {X} (l : list X) n x : l !! n = Some x -> l = take n l ++ x :: drop (S n) l.
Proof. intros Hx. symmetry. by apply take_drop_middle. Qed.

Lemma elem_of_concat {A} (x : A) (ls : list (list A)) :
  x ∈ concat ls <-> exists l, l ∈ ls /\ x ∈ l.
Proof. rewrite list_elem_of_In, in_concat. by setoid_rewrite list_elem_of_In. Qed.

Section lists.
Context {A B : Type}.
Implicit Types (l : list A).

Lemma NoDup_fmap_inj (f : A -> B) l x y :
  NoDup (f <$> l) -> x ∈ l -> y ∈ l -> f x = f y -> x = y.
Proof.
  induction l as [|z l IH]; [set_solver|].
  rewrite fmap_cons, NoDup_cons. intros [Hnin Hnd] Hx Hy Heq.
  apply elem_of_cons in Hx as [->|Hx], Hy as [->|Hy]; auto.
  - contradict Hnin. rewrite Heq. by apply list_elem_of_fmap_2.
  - contradict Hnin. rewrite <- Heq. by apply list_elem_of_fmap_2.
Qed.

Lemma NoDup_fmap_filter (f : A -> B) (P : A -> Prop) `{!∀ x, Decision (P x)} l :
  NoDup (f <$> l) -> NoDup (f <$> filter P l).
Proof.
  induction l as [|x l IH]; [done|].
  rewrite fmap_cons, NoDup_cons, filter_cons. intros [Hnin Hnd].
  case_decide; [|auto]. rewrite fmap_cons, NoDup_cons. split; [|auto].
  contradict Hnin. apply list_elem_of_fmap in Hnin as (y & -> & Hy).
  apply list_elem_of_filter in Hy as [_ Hy]. by apply list_elem_of_fmap_2.
Qed.

End lists.

(** ** Grouping into a map of slices

    [m[key] = append(m[key], x)] over a slice, and the keys in the order of first insertion. *)
Section grouping.
Context {T : Type} (key : T -> string).

Definition group_append (groups : gmap string (list T)) (x : T) : gmap string (list T) :=
  <[key x := default [] (groups !! key x) ++ [x]]> groups.

Definition group_by (xs : list T) : gmap string (list T) := foldl group_append ∅ xs.

Definition group_order_append (acc : gmap string (list T) * list string) (x : T) :=
  let '(groups, order) := acc in
  (group_append groups x,
   match groups !! key x with Some _ => order | None => order ++ [key x] end).

Definition group_by_order (xs : list T) : gmap string (list T) * list string :=
  foldl group_order_append (∅, []) xs.

Lemma group_by_app xs x : group_by (xs ++ [x]) = group_append (group_by xs) x.
Proof. unfold group_by. by rewrite foldl_app. Qed.

Lemma group_by_lookup xs k :
  group_by xs !! k
  = match filter (fun x => key x = k) xs with [] => None | ys => Some ys end.
Proof.
  induction xs as [|x xs IH] using rev_ind; [done|].
  rewrite group_by_app, filter_app. unfold group_append.
  destruct (decide (key x = k)) as [<-|Hne].
  - rewrite lookup_insert_eq, IH, filter_cons, filter_nil, decide_True by done.
    by destruct (filter _ xs).
  - rewrite lookup_insert_ne, filter_cons, filter_nil, decide_False, app_nil_r by done. apply IH.
Qed.

Lemma group_by_default xs k : default [] (group_by xs !! k) = filter (fun x => key x = k) xs.
Proof. rewrite group_by_lookup. by destruct (filter _ xs). Qed.

Lemma group_by_order_spec xs :
  (group_by_order xs).1 = group_by xs
  /\ NoDup (group_by_order xs).2
  /\ forall k, k ∈ (group_by_order xs).2 <-> is_Some (group_by xs !! k).
Proof.
  induction xs as [|x xs (IH1 & IH2 & IH3)] using rev_ind.
  { split_and!; [done|constructor|]. intros k. split; [by intros ?%not_elem_of_nil|by intros []]. }
  unfold group_by_order in *. rewrite foldl_app, group_by_app. simpl.
  destruct (foldl group_order_append (∅, []) xs) as [groups order]. simpl in *. subst groups.
  split; [done|]. unfold group_append.
  destruct (group_by xs !! key x) as [ys|] eqn:Hx; split.
  - done.
  - intros k. rewrite IH3, lookup_insert. case_decide; naive_solver.
  - rewrite NoDup_app. split_and!; [done| |apply NoDup_singleton].
    intros k Hk ->%list_elem_of_singleton. apply IH3 in Hk as [? ?]. congruence.
  - intros k. rewrite elem_of_app, list_elem_of_singleton, IH3, lookup_insert.
    case_decide; naive_solver.
Qed.

End grouping.

(** ** Ranging over a Go map

    The iteration order is the runtime's: any order, with every entry once. *)
Class MapRange := {
  range : forall {V : Type}, gmap string V -> list (string * V);
  range_Permutation : forall {V : Type} (m : gmap string V), range m ≡ₚ map_to_list m;
}.

Lemma elem_of_range `{MapRange} {V} (m : gmap string V) k v : (k, v) ∈ range m <-> m !! k = Some v.
Proof. by rewrite range_Permutation, elem_of_map_to_list. Qed.

Lemma NoDup_range `{MapRange} {V} (m : gmap string V) : NoDup (range m).*1.
Proof. rewrite range_Permutation. apply NoDup_fst_map_to_list. Qed.

#[export] Hint Resolve NoDup_fmap_filter : outbox.
