(* ===== verification/GoErrors.v ===== *)
(** * Go error values

    Errors as trees: a package-level sentinel, a formatted text with none, one or several
    wrapped errors, the value of [errors.Join], and an error of a provider SDK of which the
    relay observes the text, an AWS [ErrorCode()], a Google API code, a gRPC status code and
    the error it wraps.  [errors.Is] and [errors.As] are the pre-order searches of the
    standard library.  On top of them, the error helpers of [processor.go]
    ([fmtDBError], [countJoinedErrors], [firstLeafError]). *)
From S2P Require Import Prelude.
Local Open Scope go_scope.

Record foreign := Foreign {
  foreign_text : string;
  foreign_error_code : option string;
  foreign_google_code : option Z;
  foreign_grpc_code : option Z;
}.

Inductive error : Type :=
| ErrSentinel (text : string)
| ErrText (text : string)
| ErrWrap (text : string) (inner : error)
| ErrWraps (text : string) (inners : list error)
| ErrJoined (errs : list error)
| ErrForeign (info : foreign) (inner : option error).

(** ** The sentinels the code compares with *)

Definition errDatabaseBatch : error := ErrSentinel "database batch error".
Definition ErrFatalAfterCommit : error := ErrSentinel "fatal after commit".
Definition errFatalAfterCommit : error := ErrFatalAfterCommit.
Definition ErrMalformedOptions : error := ErrSentinel "malformed event options".
Definition context_DeadlineExceeded : error := ErrSentinel "context deadline exceeded".
Definition context_Canceled : error := ErrSentinel "context canceled".

(** [fmt.Errorf("%w: <text>", ErrMalformedOptions)] *)
Definition malformed (text : string) : error :=
  ErrWrap ("malformed event options: " +:+ text) ErrMalformedOptions.

(** ** [Error()], [errors.Is], [errors.As], [errors.Join] *)

Fixpoint error_text (e : error) : string :=
  match e with
  | ErrSentinel t | ErrText t | ErrWrap t _ | ErrWraps t _ => t
  | ErrJoined es => strings_Join (map error_text es) (String "010" EmptyString)
  | ErrForeign i _ => foreign_text i
  end.

Definition is_sentinel (name : string) (e : error) : bool :=
  match e with ErrSentinel t => bool_decide (t = name) | _ => false end.

(** The pre-order search behind [errors.As]: the first node [f] accepts. *)
Fixpoint errors_As {X : Type} (f : error -> option X) (e : error) : option X :=
  match f e with
  | Some x => Some x
  | None =>
      let fix first (es : list error) : option X :=
        match es with
        | [] => None
        | e :: es => match errors_As f e with Some x => Some x | None => first es end
        end in
      match e with
      | ErrWrap _ e' | ErrForeign _ (Some e') => errors_As f e'
      | ErrWraps _ es | ErrJoined es => first es
      | _ => None
      end
  end.

Definition errors_As_list {X : Type} (f : error -> option X) : list error -> option X :=
  fix first (es : list error) : option X :=
    match es with
    | [] => None
    | e :: es => match errors_As f e with Some x => Some x | None => first es end
    end.

(** [errors.Is(err, target)] for a sentinel target; a nil [err] matches nothing. *)
Definition errors_Is (e : option error) (target : error) : bool :=
  match e, target with
  | Some e, ErrSentinel name =>
      match errors_As (fun x => if is_sentinel name x then Some tt else None) e with
      | Some _ => true
      | None => false
      end
  | _, _ => false
  end.

Definition errors_Join (errs : list (option error)) : option error :=
  match omap id errs with
  | [] => None
  | es => Some (ErrJoined es)
  end.

(** ** The helpers of [processor.go] *)

Definition fmtDBError (err : error) : option error :=
  errors_Join [Some errDatabaseBatch; Some err].

(** [Unwrap() []error] is implemented by [errors.Join] and by [fmt.Errorf] with several [%w]. *)
Fixpoint countJoined (e : error) : nat :=
  match e with
  | ErrWraps _ es | ErrJoined es => sum_list (map countJoined es)
  | _ => 1
  end.

Definition countJoinedErrors (e : option error) : nat :=
  match e with None => 0 | Some e => countJoined e end.

Fixpoint firstLeafError (e : error) : error :=
  match e with
  | ErrWraps _ (e' :: _) | ErrJoined (e' :: _) => firstLeafError e'
  | _ => e
  end.

(** The accumulation [joined = errors.Join(joined, err)] over a list of errors. *)
Definition join_all (errs : list error) : option error :=
  foldl (fun joined err => errors_Join [joined; Some err]) None errs.

(** ** Laws *)

Lemma errors_As_unfold {X} (f : error -> option X) (e : error) :
  errors_As f e =
  match f e with
  | Some x => Some x
  | None =>
      match e with
      | ErrWrap _ e' | ErrForeign _ (Some e') => errors_As f e'
      | ErrWraps _ es | ErrJoined es => errors_As_list f es
      | _ => None
      end
  end.
Proof. destruct e; reflexivity. Qed.

Lemma errors_Is_joined (es : list error) (name : string) :
  errors_Is (Some (ErrJoined es)) (ErrSentinel name)
  = existsb (fun e => errors_Is (Some e) (ErrSentinel name)) es.
Proof.
  unfold errors_Is. rewrite errors_As_unfold. simpl.
  induction es as [|e es IH]; [done|]. simpl in *. by destruct (errors_As _ e).
Qed.

Lemma errors_Is_Join (errs : list (option error)) (name : string) :
  errors_Is (errors_Join errs) (ErrSentinel name)
  = existsb (fun e => errors_Is e (ErrSentinel name)) errs.
Proof.
  assert (existsb (fun e => errors_Is e (ErrSentinel name)) errs
          = existsb (fun e => errors_Is (Some e) (ErrSentinel name)) (omap id errs)) as ->.
  { induction errs as [|[e|] errs IH]; simpl; [done|by rewrite IH|done]. }
  unfold errors_Join. rewrite <- errors_Is_joined. by destruct (omap id errs).
Qed.

Lemma errors_Join_None (errs : list (option error)) :
  errors_Join errs = None <-> Forall (fun e => e = None) errs.
Proof.
  unfold errors_Join. induction errs as [|[e|] errs IH]; simpl.
  - split; auto.
  - split; [done|]. by inversion 1.
  - rewrite IH, Forall_cons. tauto.
Qed.

Lemma countJoinedErrors_Join (errs : list (option error)) :
  countJoinedErrors (errors_Join errs) = sum_list (map countJoinedErrors errs).
Proof.
  assert (sum_list (map countJoinedErrors errs) = sum_list (map countJoined (omap id errs))) as ->.
  { induction errs as [|[e|] errs IH]; simpl; try rewrite IH; done. }
  unfold errors_Join. by destruct (omap id errs).
Qed.

Lemma foldl_join_all (errs : list error) (acc : option error) :
  countJoinedErrors (foldl (fun joined err => errors_Join [joined; Some err]) acc errs)
    = countJoinedErrors acc + sum_list (map countJoined errs)
  /\ (forall name,
      errors_Is (foldl (fun joined err => errors_Join [joined; Some err]) acc errs) (ErrSentinel name)
      = errors_Is acc (ErrSentinel name)
        || existsb (fun e => errors_Is (Some e) (ErrSentinel name)) errs)
  /\ (foldl (fun joined err => errors_Join [joined; Some err]) acc errs = None
      <-> acc = None /\ errs = []).
Proof.
  revert acc. induction errs as [|e errs IH]; intros acc; simpl.
  - split_and!; [lia| |by split; [|intros []]]. intros name. by rewrite orb_false_r.
  - destruct (IH (errors_Join [acc; Some e])) as (Hc & Hi & Hn).
    split_and!.
    + rewrite Hc, countJoinedErrors_Join. simpl. lia.
    + intros name. rewrite Hi, errors_Is_Join. simpl.
      by rewrite orb_false_r, orb_assoc.
    + rewrite Hn, errors_Join_None, !Forall_cons. split; [intros [(_ & ? & _) _]; done|intros []; done].
Qed.

Lemma countJoinedErrors_join_all (errs : list error) :
  countJoinedErrors (join_all errs) = sum_list (map countJoined errs).
Proof. apply (foldl_join_all errs None). Qed.

Lemma errors_Is_join_all (errs : list error) (name : string) :
  errors_Is (join_all errs) (ErrSentinel name)
  = existsb (fun e => errors_Is (Some e) (ErrSentinel name)) errs.
Proof. apply (foldl_join_all errs None). Qed.

Lemma join_all_None (errs : list error) : join_all errs = None <-> errs = [].
Proof. destruct (foldl_join_all errs None) as (_ & _ & H). rewrite <- (and_True (errs = [])). tauto. Qed.

Lemma fmtDBError_is_db (err : error) : errors_Is (fmtDBError err) errDatabaseBatch = true.
Proof. unfold fmtDBError, errDatabaseBatch. by rewrite errors_Is_Join. Qed.

Lemma fmtDBError_Is (err : error) (name : string) :
  name <> "database batch error" ->
  errors_Is (fmtDBError err) (ErrSentinel name) = errors_Is (Some err) (ErrSentinel name).
Proof.
  intros Hne. unfold fmtDBError, errDatabaseBatch. rewrite errors_Is_Join. simpl.
  rewrite bool_decide_eq_false_2 by congruence. simpl. by rewrite orb_false_r.
Qed.

#[export] Hint Resolve fmtDBError_is_db : outbox.
#[export] Hint Rewrite errors_Is_Join errors_Is_join_all countJoinedErrors_Join
  countJoinedErrors_join_all : outbox.
