(* ===== verification/Config.v ===== *)
(** * Relay configuration

    [config.go]: the [appConfig] record with the fields of the Go struct in its order, the
    fixed internal settings, the derived notification channel, the built-in defaults and the
    comma-separated list parser.  Durations are nanoseconds ([time.Duration]). *)
From S2P Require Import Prelude.

Definition nanosecond : Z := 1.
Definition millisecond : Z := 1000000.
Definition second : Z := 1000000000.
Definition minute : Z := 60000000000.
Definition hour : Z := 3600000000000.

Record appConfig := AppConfig {
  EventTable : string;
  cfgEventID : string;
  EventTimestamp : string;
  EventPayload : string;
  EventTarget : string;
  EventDestination : string;
  EventOptions : string;

  CollectBatchTarget : Z;
  BacklogCountLimit : Z;
  SQSSendConcurrency : Z;
  DLQTable : string;
  NotifyChannel : string;

  LogLevel : string;
  LogFormat : string;

  WatchdogInterval : Z;
  HealthPort : Z;
  HealthStaleAfter : Z;
  PubSubEnabled : bool;
  SQSEnabled : bool;
  DefaultPubSubTopic : string;
  DefaultSQSQueueURL : string;
  PubSubDestinations : list string;
  SQSDestinations : list string;
  PubSubProjectID : string;
  PubSubAPIEndpoint : string;
  SQSAPIEndpoint : string;
  ErrorCooldown : Z;
  PublishTimeout : Z;
  PublishResultGrace : Z;
  MaxEventAge : Z;
  StatsInterval : Z;

  PGHost : string;
  PGPort : Z;
  PGUser : string;
  PGPassword : string;
  PGDatabase : string;
  PGSchema : string;
  PGSSL : bool;
  PGSSLRejectUnauthorized : bool;
  PGSSLRootCert : string;
  PGConnectTimeout : Z;
  PGQueryTimeout : Z;

  PGInitUser : string;
  PGInitPassword : string;
  PGProducerRoles : list string;

  AWSRegion : string;
  AWSRoleARN : string;
  AWSRoleSessionName : string;
  AWSRoleDuration : Z;
  AWSCredentialRefreshWindow : Z;
  AWSWebIdentityProvider : string;
  AWSWebIdentityAudience : string;
}.

(** ** Fixed internal settings *)

Definition disableSentinel : string := "disabled".
Definition sqsSendConcurrency : Z := 128.
Definition backlogCountLimit : Z := 100000.
Definition errorCooldown : Z := 5 * second.
Definition publishResultGrace : Z := 5 * second.
Definition statsInterval : Z := 10 * second.
Definition pgConnectTimeout : Z := 10 * second.
Definition awsRoleDuration : Z := hour.
Definition awsCredentialRefreshWindow : Z := 5 * minute.
Definition pollInterval : Z := second.
Definition healthStaleAfter : Z := 5 * minute.
Definition watchdogInterval : Z := 10 * minute.
Definition notifyChannelPrefix : string := "outboxer_".
Definition notifyChannelMaxBytes : nat := 63.

(** [channel[:notifyChannelMaxBytes]] when it is longer. *)
Definition deriveNotifyChannel (eventTable : string) : string :=
  let channel := notifyChannelPrefix +:+ eventTable in
  if (notifyChannelMaxBytes <? String.length channel)%nat
  then String.substring 0 notifyChannelMaxBytes channel
  else channel.

Definition parseStringList (value : string) : list string :=
  filter (fun trimmed => trimmed <> "") (strings_TrimSpace <$> strings_Split value ",").

Definition defaultConfig : appConfig := {|
  EventTable := "events";
  cfgEventID := "id";
  EventTimestamp := "timestamp";
  EventPayload := "payload";
  EventTarget := "target";
  EventDestination := "destination";
  EventOptions := "options";
  CollectBatchTarget := 10000;
  BacklogCountLimit := backlogCountLimit;
  SQSSendConcurrency := sqsSendConcurrency;
  DLQTable := "";
  NotifyChannel := deriveNotifyChannel "events";
  LogLevel := "info";
  LogFormat := "text";
  WatchdogInterval := watchdogInterval;
  HealthPort := 0;
  HealthStaleAfter := healthStaleAfter;
  PubSubEnabled := false;
  SQSEnabled := false;
  DefaultPubSubTopic := "default";
  DefaultSQSQueueURL := "";
  PubSubDestinations := [];
  SQSDestinations := [];
  PubSubProjectID := "";
  PubSubAPIEndpoint := "";
  SQSAPIEndpoint := "";
  ErrorCooldown := errorCooldown;
  PublishTimeout := 30 * second;
  PublishResultGrace := publishResultGrace;
  MaxEventAge := 0;
  StatsInterval := statsInterval;
  PGHost := "localhost";
  PGPort := 5432;
  PGUser := "postgres";
  PGPassword := "";
  PGDatabase := "postgres";
  PGSchema := "public";
  PGSSL := false;
  PGSSLRejectUnauthorized := true;
  PGSSLRootCert := "";
  PGConnectTimeout := pgConnectTimeout;
  PGQueryTimeout := 30 * second;
  PGInitUser := "";
  PGInitPassword := "";
  PGProducerRoles := [];
  AWSRegion := "";
  AWSRoleARN := "";
  AWSRoleSessionName := "outboxer";
  AWSRoleDuration := awsRoleDuration;
  AWSCredentialRefreshWindow := awsCredentialRefreshWindow;
  AWSWebIdentityProvider := "";
  AWSWebIdentityAudience := "";
|}.

(** ** Laws *)

Lemma substring_length (n : nat) (s : string) :
  n <= String.length s -> String.length (String.substring 0 n s) = n.
Proof.
  revert s. induction n as [|n IH]; intros [|c s] Hn; simpl in *; try lia.
  rewrite IH; lia.
Qed.

Lemma prefix_substring (p s : string) (n : nat) :
  String.length p <= n -> String.prefix p s = true ->
  String.prefix p (String.substring 0 n s) = true.
Proof.
  revert s n. induction p as [|c p IH]; intros s n Hn Hp; [by destruct (String.substring 0 n s)|].
  destruct s as [|c' s]; [done|]. destruct n as [|n]; simpl in *; [lia|].
  destruct (Ascii.ascii_dec c c'); [|done]. apply IH; [lia|done].
Qed.

Lemma deriveNotifyChannel_bound (t : string) :
  String.length (deriveNotifyChannel t) <= 63
  /\ strings_HasPrefix (deriveNotifyChannel t) notifyChannelPrefix = true.
Proof.
  unfold deriveNotifyChannel, strings_HasPrefix, notifyChannelMaxBytes.
  destruct (Nat.ltb_spec 63 (String.length (notifyChannelPrefix +:+ t))).
  - rewrite substring_length by lia. split; [lia|].
    apply prefix_substring; [vm_compute; lia|apply string_prefix_app].
  - split; [lia|apply string_prefix_app].
Qed.

(** An entry of a list: not empty, no space before or after it, no comma in it. *)
Record list_entry (s : string) : Prop := {
  entry_nonempty : s <> "";
  entry_trimmed : trimmed s;
  entry_single : string_elem "," s = false;
}.

Lemma parseStringList_entries (v : string) : Forall list_entry (parseStringList v).
Proof.
  rewrite Forall_forall. unfold parseStringList. intros s [Hne Hs]%list_elem_of_filter.
  apply list_elem_of_fmap in Hs as (part & -> & Hpart).
  destruct (strings_TrimSpace_spec part) as [Htrim (before & after & Heq)]. split; [done..|].
  pose proof (proj1 (Forall_forall _ _) (proj1 (strings_Split_parts "," v)) part Hpart) as Hno. simpl in Hno.
  rewrite Heq, !string_elem_app, !orb_false_iff in Hno. tauto.
Qed.

#[export] Hint Resolve parseStringList_entries : outbox.

Example parseStringList_ex :
  parseStringList " a, ,b ,c" = ["a"; "b"; "c"].
Proof. reflexivity. Qed.
