(* ===== verification/Values.v ===== *)
(** * Values, events and their options

    Go's [any] as far as the relay meets it: database values, decoded JSON and literals.  On
    it, [events.go] (option parsing, value conversions, timestamps, the provider view of a
    row), [provider/event.go] ([Options], [Event]) and [fmt]'s rendering of an event id.

    The parts of the Go standard library whose text formats the relay only passes through
    (JSON, time layouts, base64, SHA-256, URL syntax) are the operations of the class
    [GoRuntime]; no law is assumed of them here. *)
From Stdlib Require Import Floats.SpecFloat.
From S2P Require Import Prelude GoErrors Config.
Local Open Scope go_scope.

(** ** Dynamic values *)

Inductive int_kind := KInt | KInt32 | KInt64.

#[export] Instance int_kind_eq_dec : EqDecision int_kind.
Proof. solve_decision. Defined.

Inductive value : Type :=
| VNil
| VBool (b : bool)
| VInt (k : int_kind) (z : Z)
| VFloat64 (f : spec_float)
| VString (s : string)
| VBytes (s : string)
| VTime (ns : Z)
| VObject (m : gmap string value)
| VArray (l : list value).

Abbreviation object := (gmap string value).

Record url := URL { url_Scheme : string; url_Host : string; url_Path : string }.

Class GoRuntime := {
  json_Unmarshal : string -> error + value;
  json_Marshal : object -> error + string;
  time_Parse : string -> string -> option Z;
  time_Format : Z -> string;
  base64_DecodeString : string -> error + string;
  sha256_Sum256 : string -> string;
  url_Parse : string -> option url;
  fmt_other : value -> string;
  strconv_Quote : string -> string;
  duration_String : Z -> string;
}.

Section values.
Context `{GoRuntime}.

(** [map[key]] of a possibly nil map of interfaces: an absent key reads as nil. *)
Definition map_get (m : object) (key : string) : value := default VNil (m !! key).

(** [value == nil] *)
Definition is_nil (v : value) : bool := match v with VNil => true | _ => false end.

(** ** [fmt]: the verbs [%T] and [%v] *)

Definition fmt_T (v : value) : string :=
  match v with
  | VNil => "<nil>"
  | VBool _ => "bool"
  | VInt KInt _ => "int"
  | VInt KInt32 _ => "int32"
  | VInt KInt64 _ => "int64"
  | VFloat64 _ => "float64"
  | VString _ => "string"
  | VBytes _ => "[]uint8"
  | VTime _ => "time.Time"
  | VObject _ => "map[string]interface {}"
  | VArray _ => "[]interface {}"
  end.

Fixpoint fmt_bytes (s : string) : list string :=
  match s with EmptyString => [] | String c s' => pretty (N_of_ascii c) :: fmt_bytes s' end.

Definition fmt_Sprint (v : value) : string :=
  match v with
  | VNil => "<nil>"
  | VBool b => if b then "true" else "false"
  | VInt _ z => pretty z
  | VString s => s
  | VBytes s => "[" +:+ strings_Join (fmt_bytes s) " " +:+ "]"
  | _ => fmt_other v
  end.

(** [eventIDKey] of [processor.go]. *)
Definition eventIDKey (id : value) : string := fmt_T id +:+ ":" +:+ fmt_Sprint id.

(** ** [provider/event.go] *)

Record Options := MkOptions { Values : object }.

Definition Options_String (o : Options) (key : string) : error + string :=
  match Values o !! key with
  | None | Some VNil => inr ""
  | Some (VString s) => inr s
  | Some _ => inl (malformed (key +:+ " must be a string"))
  end.

Definition Object (v : value) : option object :=
  match v with VObject m => Some m | _ => None end.

(** The [nil] map is [None]: the callers distinguish it from an empty object. *)
Definition Options_Object (o : Options) (key : string) : error + option object :=
  match Values o !! key with
  | None | Some VNil => inr None
  | Some v =>
      match Object v with
      | Some m => inr (Some m)
      | None => inl (malformed (key +:+ " must be an object"))
      end
  end.

Record Event := MkEvent {
  ID : value;
  Payload : string;
  Timestamp : Z;
  Destination : string;
  EvtOptions : Options;
}.

(** ** [events.go] *)

Record eventRoute := EventRoute { target : string; destination : string }.

#[export] Instance eventRoute_eq_dec : EqDecision eventRoute.
Proof. solve_decision. Defined.

#[export] Instance eventRoute_countable : Countable eventRoute.
Proof.
  refine {| encode r := encode (target r, destination r);
            decode p := (fun x => EventRoute x.1 x.2) <$> decode (A := string * string) p |}.
  by intros []; rewrite decode_encode.
Defined.

Record event := MkEvt { columns : object; route : eventRoute; options : Options }.

Definition no_options : Options := MkOptions ∅.

Definition parseOptionsJSON (content : string) : error + object :=
  if bool_decide (content = "") then inr ∅
  else match json_Unmarshal content with
       | inl err =>
           inl (ErrWraps ("malformed event options: " +:+ error_text err) [ErrMalformedOptions; err])
       | inr VNil => inr ∅
       | inr (VObject m) => inr m
       | inr _ => inl (malformed "options column must be an object")
       end.

Definition optionsRoot (v : value) : error + object :=
  match v with
  | VNil => inr ∅
  | VObject m => inr m
  | VBytes s => parseOptionsJSON s
  | VString s => parseOptionsJSON s
  | _ => inl (malformed "options column must be an object")
  end.

Definition eventOptions (raw : value) (tgt : string) : error + Options :=
  let? root := optionsRoot raw in
  match root !! tgt with
  | None | Some VNil => inr no_options
  | Some section =>
      match Object section with
      | Some values => inr (MkOptions values)
      | None => inl (malformed (tgt +:+ " section must be an object"))
      end
  end.

Definition eventValue (evt : event) (column : string) : value := map_get (columns evt) column.

Definition withParsedOptions (e : event) (cfg : appConfig) : error + event :=
  let? opts := eventOptions (eventValue e (EventOptions cfg)) (target (route e)) in
  inr (MkEvt (columns e) (route e) opts).

Definition valueString (v : value) : string :=
  match v with
  | VNil => ""
  | VString s | VBytes s => s
  | VTime t => time_Format t
  | _ => fmt_Sprint v
  end.

Definition valueBytes (v : value) : string :=
  match v with
  | VNil => ""
  | VBytes s | VString s => s
  | _ => fmt_Sprint v
  end.

(** [time.Time{}], 1 January of year 1, as nanoseconds from the Unix epoch. *)
Definition zero_time : Z := (-62135596800) * second.

Definition RFC3339Nano : string := "2006-01-02T15:04:05.999999999Z07:00".

Definition parseTimestampString (s : string) : option Z :=
  if bool_decide (s = "") then None
  else match time_Parse RFC3339Nano s with
       | Some t => Some t
       | None =>
           match time_Parse "2006-01-02 15:04:05.999999999" s with
           | Some t => Some t
           | None => time_Parse "2006-01-02 15:04:05" s
           end
       end.

Definition eventTimestamp (v : value) : option Z :=
  match v with
  | VTime t => Some t
  | VString s | VBytes s => parseTimestampString s
  | _ => None
  end.

Definition providerEvent (evt : event) (cfg : appConfig) : Event := {|
  ID := eventValue evt (cfgEventID cfg);
  Payload := valueBytes (eventValue evt (EventPayload cfg));
  Timestamp := default zero_time (eventTimestamp (eventValue evt (EventTimestamp cfg)));
  Destination := destination (route evt);
  EvtOptions := options evt;
|}.

Definition providerEvents (events : list event) (cfg : appConfig) : list Event :=
  (fun evt => providerEvent evt cfg) <$> events.

(** ** Event ids

    The kinds of value the driver delivers for an id column ([bigint], [text], [uuid]). *)
Definition id_kind (v : value) : bool :=
  match v with VInt _ _ | VString _ => true | _ => false end.

(** ** Laws *)

Lemma eventIDKey_inj (v w : value) :
  id_kind v = true -> id_kind w = true -> eventIDKey v = eventIDKey w -> v = w.
Proof.
  destruct v as [| |[] z| |s| | | |], w as [| |[] z'| |s'| | | |]; try done;
    intros _ _ Heq; unfold eventIDKey in Heq; simpl in Heq; simplify_eq; try done;
    by apply (inj pretty) in Heq as ->.
Qed.

Lemma Options_String_ok (o : Options) (key s : string) :
  Options_String o key = inr s ->
  Values o !! key = Some (VString s) \/ s = "" /\ (Values o !! key = None \/ Values o !! key = Some VNil).
Proof. unfold Options_String. destruct (Values o !! key) as [[]|]; naive_solver. Qed.

(** A row without an options column, with a null one, or with a null or absent section has the
    empty options; anything the parser accepts has an object for a section. *)
Lemma eventOptions_ok (raw : value) (tgt : string) (o : Options) :
  eventOptions raw tgt = inr o ->
  exists root, optionsRoot raw = inr root
    /\ (root !! tgt = Some (VObject (Values o))
        \/ o = no_options /\ (root !! tgt = None \/ root !! tgt = Some VNil)).
Proof.
  unfold eventOptions. destruct (optionsRoot raw) as [|root]; [done|]. intros Ho.
  exists root; split; [done|]. destruct (root !! tgt) as [[]|]; naive_solver.
Qed.

Lemma valueString_Bytes (s : string) : valueString (VBytes s) = valueString (VString s).
Proof. done. Qed.

Lemma providerEvents_ids (events : list event) (cfg : appConfig) :
  ID <$> providerEvents events cfg = (fun evt => eventValue evt (cfgEventID cfg)) <$> events.
Proof. unfold providerEvents. by rewrite <- list_fmap_compose. Qed.

End values.
