(* ===== verification/Conc.v ===== *)
(** * Goroutines as resumable programs

    The senders are concurrent: [provider.RunConcurrent] runs one goroutine per item, waits for
    all of them and joins their errors in the order they arrive.  A goroutine is a program that
    performs actions (calls of an external client, callbacks, semaphore operations), receives
    their results, and may itself run a group of goroutines.

    [exec m tr a] holds when [m] can perform the actions of the trace [tr], in that order, with
    the results [tr] records, and return [a].  The actions of the branches of a group interleave
    freely, and their results arrive in any order.  [run] is the schedule that runs branches one
    after the other, against an oracle that answers the actions. *)
From S2P Require Import Prelude GoErrors.

(** ** Interleavings of the branches of a group *)

Inductive interleave {X : Type} : list (list X) -> list X -> Prop :=
| interleave_nil n : interleave (replicate n []) []
| interleave_cons ls1 x l ls2 t :
    interleave (ls1 ++ l :: ls2) t -> interleave (ls1 ++ (x :: l) :: ls2) (x :: t).

Section programs.
Context {C : Type} {R : C -> Type} {E : Type}.

Inductive io (A : Type) : Type :=
| Ret (a : A)
| Act (c : C) (k : R c -> io A)
| Par (branches : list (io E)) (k : list E -> io A).

#[local] Arguments Ret {A} a.
#[local] Arguments Act {A} c k.
#[local] Arguments Par {A} branches k.

(** An action with the result it got. *)
Definition action : Type := { c : C & R c }.

Fixpoint bind {A B} (m : io A) (f : A -> io B) : io B :=
  match m with
  | Ret a => f a
  | Act c k => Act c (fun r => bind (k r) f)
  | Par ps k => Par ps (fun rs => bind (k rs) f)
  end.

Definition perform (c : C) : io (R c) := Act c (fun r => Ret r).

Fixpoint exec {A} (m : io A) {struct m} : list action -> A -> Prop :=
  match m with
  | Ret a => fun tr b => tr = [] /\ b = a
  | Act c k => fun tr b => exists r tr', tr = existT c r :: tr' /\ exec (k r) tr' b
  | Par ps k => fun tr b =>
      let fix branches (ps : list (io E)) (trs : list (list action)) (rs : list E) : Prop :=
        match ps, trs, rs with
        | [], [], [] => True
        | p :: ps, t :: trs, r :: rs => exec p t r /\ branches ps trs rs
        | _, _, _ => False
        end in
      exists trs rs arrival t tr',
        branches ps trs rs /\ interleave trs t /\ arrival ≡ₚ rs
        /\ tr = t ++ tr' /\ exec (k arrival) tr' b
  end.

(** ** Unfolding *)

Fixpoint exec_branches (ps : list (io E)) (trs : list (list action)) (rs : list E) : Prop :=
  match ps, trs, rs with
  | [], [], [] => True
  | p :: ps, t :: trs, r :: rs => exec p t r /\ exec_branches ps trs rs
  | _, _, _ => False
  end.

Lemma exec_Par {A} (ps : list (io E)) (k : list E -> io A) tr b :
  exec (Par ps k) tr b <->
  exists trs rs arrival t tr',
    exec_branches ps trs rs /\ interleave trs t /\ arrival ≡ₚ rs
    /\ tr = t ++ tr' /\ exec (k arrival) tr' b.
Proof. done. Qed.

Lemma exec_Act {A} c (k : R c -> io A) tr b :
  exec (Act c k) tr b <-> exists r tr', tr = existT c r :: tr' /\ exec (k r) tr' b.
Proof. done. Qed.

Lemma exec_Ret {A} (a : A) tr b : exec (Ret a) tr b <-> tr = [] /\ b = a.
Proof. done. Qed.

Lemma exec_branches_alt ps trs rs :
  exec_branches ps trs rs <->
  length trs = length ps /\ length rs = length ps
  /\ forall i p, ps !! i = Some p ->
       exists t r, trs !! i = Some t /\ rs !! i = Some r /\ exec p t r.
Proof.
  revert trs rs. induction ps as [|p ps IH]; intros [|t trs] [|r rs]; simpl;
    try (split; [done|intros (?&?&_); lia]).
  rewrite IH. split.
  - intros (He & Hl1 & Hl2 & Hb). split_and!; [lia|lia|].
    intros [|i] q Hq; simplify_eq/=; [eauto|auto].
  - intros (Hl1 & Hl2 & Hb). split_and!; [|lia|lia|].
    + destruct (Hb 0 p eq_refl) as (t' & r' & ? & ? & ?). by simplify_eq/=.
    + intros i q Hq. exact (Hb (S i) q Hq).
Qed.

Lemma exec_bind {A B} (m : io A) (f : A -> io B) tr b :
  exec (bind m f) tr b <->
  exists tr1 tr2 a, tr = tr1 ++ tr2 /\ exec m tr1 a /\ exec (f a) tr2 b.
Proof.
  revert f tr b. induction m as [A a|A c k IH|A ps k IH]; intros f tr b.
  - simpl. split; [intros He; by exists [], tr, a|].
    by intros (tr1 & tr2 & a' & -> & [-> ->] & He).
  - simpl. split.
    + intros (r & tr' & -> & He). apply IH in He as (tr1 & tr2 & a & -> & H1 & H2).
      exists (existT c r :: tr1), tr2, a. split_and!; eauto.
    + intros (tr1 & tr2 & a & -> & (r & tr' & -> & H1) & H2).
      exists r, (tr' ++ tr2). split; [done|]. apply IH. by exists tr', tr2, a.
  - cbn [bind]. rewrite exec_Par. setoid_rewrite exec_Par. split.
    + intros (trs & rs & arr & t & tr' & Hb & Hi & Hp & -> & He).
      apply IH in He as (tr1 & tr2 & a & -> & H1 & H2).
      exists (t ++ tr1), tr2, a. rewrite <- (assoc_L (++)). split_and!; eauto 10.
    + intros (tr1 & tr2 & a & -> & (trs & rs & arr & t & tr' & Hb & Hi & Hp & -> & H1) & H2).
      exists trs, rs, arr, t, (tr' ++ tr2). rewrite <- (assoc_L (++)). split_and!; [done..|].
      apply IH. by exists tr', tr2, a.
Qed.

Lemma exec_perform (c : C) tr r : exec (perform c) tr r <-> tr = [existT c r].
Proof.
  unfold perform. simpl. split.
  - by intros (r' & tr' & -> & -> & ->).
  - intros ->. by exists r, [].
Qed.

(** The schedule that runs the branches of a group one after the other, the oracle answering
    each action from what was performed before: all actions so far, and the result. *)
Context (oracle : list action -> forall c, R c).

Fixpoint run {A} (m : io A) (past : list action) {struct m} : list action * A :=
  match m with
  | Ret a => (past, a)
  | Act c k => let r := oracle past c in run (k r) (past ++ [existT c r])
  | Par ps k =>
      let fix branches (ps : list (io E)) (past : list action) : list action * list E :=
        match ps with
        | [] => (past, [])
        | p :: ps =>
            let '(past, r) := run p past in
            let '(past, rs) := branches ps past in (past, r :: rs)
        end in
      let '(past, rs) := branches ps past in run (k rs) past
  end.

Fixpoint run_branches (ps : list (io E)) (past : list action) : list action * list E :=
  match ps with
  | [] => (past, [])
  | p :: ps =>
      let '(past, r) := run p past in
      let '(past, rs) := run_branches ps past in (past, r :: rs)
  end.

End programs.

Arguments io {C} R E A.
Arguments Ret {C R E A} a.
Arguments Act {C R E A} c k.
Arguments Par {C R E A} branches k.
Arguments action {C} R.

(** ** [for] loops

    The body continues with a new loop state ([inl]) or leaves the function ([inr]). *)
Fixpoint for_loop {C} {R : C -> Type} {E T S B} (xs : list T) (body : S -> T -> io R E (S + B))
    (s : S) : io R E (S + B) :=
  match xs with
  | [] => Ret (inl s)
  | x :: xs =>
      bind (body s x) (fun r =>
        match r with inl s' => for_loop xs body s' | inr b => Ret (inr b) end)
  end.

(** A loop whose body never leaves the function. *)
Fixpoint for_each {C} {R : C -> Type} {E T S} (xs : list T) (body : S -> T -> io R E S)
    (s : S) : io R E S :=
  match xs with
  | [] => Ret s
  | x :: xs => bind (body s x) (fun s' => for_each xs body s')
  end.

(** ** [provider.RunConcurrent] (concurrent.go)

    Only non-nil errors are sent on the channel; the join folds them in arrival order. *)
Definition RunConcurrent {C} {R : C -> Type} {T} (items : list T)
    (f : T -> io R (option error) (option error)) : io R (option error) (option error) :=
  Par (f <$> items) (fun errs => Ret (join_all (omap id errs))).

(** ** Interleaving lemmas *)

Section interleaving.
Context {X : Type}.
Implicit Types (ls : list (list X)) (t l : list X).

Lemma interleave_Permutation ls t : interleave ls t -> t ≡ₚ concat ls.
Proof.
  induction 1 as [n|ls1 x l ls2 t _ IH].
  - induction n; simpl; auto.
  - rewrite IH, !concat_app. simpl. by rewrite Permutation_middle.
Qed.

Lemma interleave_concat ls : interleave ls (concat ls).
Proof.
  induction ls as [|l ls IH]; [apply (interleave_nil 0)|]. simpl.
  induction l as [|x l IHl]; simpl.
  - clear -IH. induction IH as [n|ls1 x l ls2 t _ IH]; [apply (interleave_nil (S n))|].
    by apply (interleave_cons ([] :: ls1)).
  - by apply (interleave_cons []).
Qed.

(** A prefix of an interleaving is made of prefixes of the branches. *)
Lemma interleave_prefix ls t1 t2 :
  interleave ls (t1 ++ t2) ->
  exists ls1, Forall2 (fun l1 l => l1 `prefix_of` l) ls1 ls /\ t1 ≡ₚ concat ls1.
Proof.
  intros Hi. remember (t1 ++ t2) as t eqn:Ht. revert t1 Ht.
  induction Hi as [n|ls1 x l ls2 t Hi IH]; intros t1 Ht.
  - destruct t1; [|done]. exists (replicate n []). split; [|induction n; simpl; auto].
    apply Forall2_same_length_lookup. split; [done|]. intros i x y Hx Hy. by simplify_eq.
  - destruct t1 as [|y t1]; simplify_eq/=.
    + exists (replicate (length (ls1 ++ (x :: l) :: ls2)) []). split.
      * apply Forall2_same_length_lookup. rewrite length_replicate. split; [done|].
        intros i u v [-> _]%lookup_replicate_1 _. apply prefix_nil.
      * generalize (length (ls1 ++ (x :: l) :: ls2)). intros n. induction n; simpl; auto.
    + destruct (IH t1 eq_refl) as (lsa & Hf & Hp).
      apply Forall2_app_inv_r in Hf as (a1 & a2 & Hf1 & Hf2 & ->).
      apply Forall2_cons_inv_r in Hf2 as (b & a3 & Hb & Hf2 & ->).
      exists (a1 ++ (y :: b) :: a3). split.
      * apply Forall2_app; [done|]. constructor; [by apply prefix_cons|done].
      * rewrite Hp, !concat_app. simpl. by rewrite Permutation_middle.
Qed.

Lemma interleave_sublist ls t l : interleave ls t -> l ∈ ls -> l `sublist_of` t.
Proof.
  intros Hi. revert l. induction Hi as [n|ls1 x l0 ls2 t Hi IH]; intros l Hl.
  - apply elem_of_replicate in Hl as [-> _]. apply sublist_nil_l.
  - apply elem_of_app in Hl as [Hl|Hl]; [|apply elem_of_cons in Hl as [->|Hl]].
    + constructor. apply IH. set_solver.
    + apply sublist_skip. apply IH. set_solver.
    + constructor. apply IH. set_solver.
Qed.

(** *** Insertions

    [extends P l t]: [t] is [l] with elements that satisfy [P] inserted. *)
Inductive extends (P : X -> Prop) : list X -> list X -> Prop :=
| extends_nil : extends P [] []
| extends_keep x l t : extends P l t -> extends P (x :: l) (x :: t)
| extends_insert x l t : P x -> extends P l t -> extends P l (x :: t).

#[local] Hint Constructors extends : core.

Lemma extends_refl P l : extends P l l.
Proof. induction l; auto. Qed.

Lemma extends_app P l l' t t' : extends P l t -> extends P l' t' -> extends P (l ++ l') (t ++ t').
Proof. induction 1; simpl; auto. Qed.

Lemma extends_impl (P Q : X -> Prop) l t : (forall x, P x -> Q x) -> extends P l t -> extends Q l t.
Proof. intros HPQ. induction 1; auto. Qed.

Lemma extends_sublist P l t : extends P l t -> l `sublist_of` t.
Proof. induction 1; by constructor. Qed.

Lemma extends_elem P l t x : extends P l t -> x ∈ t -> x ∈ l \/ P x.
Proof. induction 1; set_solver. Qed.

(** An element that was there stays, with what is around it. *)
Lemma extends_split P l1 x l2 t :
  extends P (l1 ++ x :: l2) t -> exists t1 t2, t = t1 ++ x :: t2 /\ extends P l1 t1 /\ extends P l2 t2.
Proof.
  remember (l1 ++ x :: l2) as l eqn:Hl. intros He. revert l1 Hl.
  induction He as [|y l t He IH|y l t Hy He IH]; intros l1 Hl; [by destruct l1| |].
  - destruct l1 as [|z l1]; simplify_eq/=; [by exists [], t; auto|].
    destruct (IH l1 eq_refl) as (t1 & t2 & -> & H1 & H2). exists (z :: t1), t2. auto.
  - destruct (IH l1 Hl) as (t1 & t2 & -> & H1 & H2). exists (y :: t1), t2. auto.
Qed.

(** An element that cannot have been inserted was there. *)
Lemma extends_cut P l t1 x t2 :
  extends P l (t1 ++ x :: t2) -> ~ P x ->
  exists l1 l2, l = l1 ++ x :: l2 /\ extends P l1 t1 /\ extends P l2 t2.
Proof.
  remember (t1 ++ x :: t2) as t eqn:Ht. intros He Hx. revert t1 Ht.
  induction He as [|y l t He IH|y l t Hy He IH]; intros t1 Ht; [by destruct t1| |].
  - destruct t1 as [|z t1]; simplify_eq/=; [by exists [], l; auto|].
    destruct (IH t1 eq_refl) as (l1 & l2 & -> & H1 & H2). exists (z :: l1), l2. auto.
  - destruct t1 as [|z t1]; simplify_eq/=; [done|].
    destruct (IH t1 eq_refl) as (l1 & l2 & -> & H1 & H2). exists l1, l2. auto.
Qed.

(** What precedes an element in the interleaving: what precedes it in its branch, and elements of
    the other branches. *)
Lemma interleave_extends ls t t1 x t2 :
  interleave ls t -> t = t1 ++ x :: t2 ->
  exists i l1 l2, ls !! i = Some (l1 ++ x :: l2)
    /\ extends (fun y => exists j l, j <> i /\ ls !! j = Some l /\ y ∈ l) l1 t1.
Proof.
  intros Hi. revert t1. induction Hi as [n|ls1 y l ls2 t Hi IH]; intros t1 Ht; [by destruct t1|].
  assert (Hgrow : forall j l', (ls1 ++ l :: ls2) !! j = Some l' ->
    exists l'', (ls1 ++ (y :: l) :: ls2) !! j = Some l'' /\ l' ⊆ l'').
  { intros j l' Hj. destruct (decide (j = length ls1)) as [->|Hne].
    - rewrite list_lookup_middle in Hj by done. injection Hj as <-.
      exists (y :: l). rewrite list_lookup_middle by done. split; [done|set_solver].
    - exists l'. split; [|done]. rewrite <- Hj, !lookup_app. destruct (ls1 !! j) eqn:Hlt; [done|].
      apply lookup_ge_None in Hlt. destruct (j - length ls1) eqn:Hm; [lia|done]. }
  destruct t1 as [|z t1]; simplify_eq/=.
  { exists (length ls1), [], l. rewrite list_lookup_middle by done. auto. }
  destruct (IH t1 eq_refl) as (i & l1 & l2 & Hl & He).
  assert (He' : extends (fun u => exists j l', j <> i /\ (ls1 ++ (z :: l) :: ls2) !! j = Some l' /\ u ∈ l') l1 t1).
  { eapply extends_impl; [|exact He]. intros u (j & l' & Hj & Hl' & Hu).
    destruct (Hgrow j l' Hl') as (l'' & Hl'' & Hsub). exists j, l''. auto. }
  destruct (decide (i = length ls1)) as [->|Hne].
  - rewrite list_lookup_middle in Hl by done. injection Hl as ->.
    exists (length ls1), (z :: l1), l2. rewrite list_lookup_middle by done. auto.
  - exists i, l1, l2. split.
    + rewrite <- Hl, !lookup_app. destruct (ls1 !! i) eqn:Hlt; [done|].
      apply lookup_ge_None in Hlt. destruct (i - length ls1) eqn:Hm; [lia|done].
    + apply extends_insert; [|done]. exists (length ls1), (z :: l).
      rewrite list_lookup_middle by done. set_solver.
Qed.

(** *** History-dependent safety

    [justified J h t]: every element of [t] satisfies [J] with respect to what precedes it,
    [h] being what precedes [t]. *)
Definition justified (J : X -> list X -> Prop) (h t : list X) : Prop :=
  forall t1 x t2, t = t1 ++ x :: t2 -> J x (h ++ t1).

Definition history_monotone (J : X -> list X -> Prop) : Prop :=
  forall x h h', J x h -> h `sublist_of` h' -> J x h'.

Context (J : X -> list X -> Prop).

Lemma justified_nil h : justified J h [].
Proof. intros t1 x t2 Ht. by destruct t1. Qed.

Lemma justified_cons h x t : justified J h (x :: t) <-> J x h /\ justified J (h ++ [x]) t.
Proof.
  split.
  - intros Hj. split; [rewrite <- (app_nil_r h); by apply (Hj [] x t)|].
    intros t1 y t2 ->. rewrite <- (assoc_L (++)). by apply (Hj (x :: t1) y t2).
  - intros [Hx Hj] [|z t1] y t2 Ht; simplify_eq/=; [by rewrite app_nil_r|].
    specialize (Hj t1 y t2 eq_refl). by rewrite <- (assoc_L (++)) in Hj.
Qed.

Lemma justified_app h t u : justified J h (t ++ u) <-> justified J h t /\ justified J (h ++ t) u.
Proof.
  revert h. induction t as [|x t IH]; intros h; simpl.
  - rewrite app_nil_r. split; [|tauto]. intros Hj; split; [apply justified_nil|done].
  - rewrite !justified_cons, IH, <- (assoc_L (++)). simpl. tauto.
Qed.

Lemma justified_monotone h h' t :
  history_monotone J -> h `sublist_of` h' -> justified J h t -> justified J h' t.
Proof.
  intros HJ Hs Hj t1 x t2 ->. eapply HJ; [by apply (Hj t1 x t2)|]. by apply sublist_app.
Qed.

(** Branches that are justified each in its own way: what justifies an action in its branch has to
    justify it when actions of the other branches come in between. *)
Lemma justified_interleave_by (Js : nat -> X -> list X -> Prop) h ls t :
  interleave ls t -> (forall i l, ls !! i = Some l -> justified (Js i) h l) ->
  (forall i x l1 t1, is_Some (ls !! i) -> Js i x (h ++ l1) ->
     extends (fun y => exists j h', j <> i /\ is_Some (ls !! j) /\ Js j y h') l1 t1 -> J x (h ++ t1)) ->
  justified J h t.
Proof.
  intros Hi Hls Hlift t1 x t2 ->.
  destruct (interleave_extends _ _ _ _ _ Hi eq_refl) as (i & l1 & l2 & Hl & He).
  eapply (Hlift i); [by eexists|by apply (Hls i _ Hl l1 x l2)|].
  eapply extends_impl; [|exact He]. intros y (j & l & Hj & Hlj & Hy).
  apply list_elem_of_split in Hy as (u1 & u2 & ->). exists j, (h ++ u1). split_and!; [done|by eexists|].
  by apply (Hls j _ Hlj u1 y u2).
Qed.

(** *** Running balances

    [dips_at_most d w t]: no prefix of [t] has a total weight below [-d]. *)
Definition weight (w : X -> Z) (t : list X) : Z := foldr (fun x s => w x + s)%Z 0%Z t.

Definition dips_at_most (d : nat) (w : X -> Z) (t : list X) : Prop :=
  forall t1 t2, t = t1 ++ t2 -> (- Z.of_nat d <= weight w t1)%Z.

Context (w : X -> Z).

Lemma weight_app t u : weight w (t ++ u) = (weight w t + weight w u)%Z.
Proof. induction t; simpl; lia. Qed.

#[export] Instance weight_Permutation : Proper ((≡ₚ) ==> (=)) (weight w).
Proof. induction 1; simpl; lia. Qed.

Lemma dips_at_most_nil d : dips_at_most d w [].
Proof. intros [|] ? Ht; simplify_eq/=. lia. Qed.

Lemma dips_at_most_app d t u :
  dips_at_most d w t -> weight w t = 0%Z -> dips_at_most d w u -> dips_at_most d w (t ++ u).
Proof.
  intros Ht H0 Hu t1 t2 Heq. apply app_eq_inv in Heq as [(k & -> & ->)|(k & -> & ->)].
  - by apply (Ht t1 k).
  - rewrite weight_app. pose proof (Hu k t2 eq_refl). lia.
Qed.

Lemma dips_at_most_interleave ls t :
  interleave ls t -> Forall (dips_at_most 0 w) ls -> dips_at_most 0 w t.
Proof.
  intros Hi Hls t1 t2 ->. apply interleave_prefix in Hi as (ls1 & Hf & ->).
  clear t1 t2. induction Hf as [|l1 l ls1 ls [k ->] Hf IH]; simpl; [done|].
  rewrite weight_app. apply Forall_cons in Hls as [Hl Hls].
  specialize (IH Hls). pose proof (Hl l1 k eq_refl). simpl in *. lia.
Qed.

End interleaving.

#[export] Hint Resolve justified_nil dips_at_most_nil dips_at_most_app : outbox.

(** ** Safety of programs

    [wp env J h m Q]: started after the history [h], in every execution whose actions get
    results [env] allows, [m] performs only actions that [J] justifies by what precedes them,
    and [Q] holds of the final history and the result. *)
Section wp.
Context {C : Type} {R : C -> Type} (env : action R -> Prop) (J : action R -> list (action R) -> Prop).

Definition wp {E A} (h : list (action R)) (m : io R E A)
    (Q : list (action R) -> A -> Prop) : Prop :=
  forall tr a, exec m tr a -> Forall env tr -> justified J h tr /\ Q (h ++ tr) a.

Lemma wp_ret {E A} h (a : A) (Q : _ -> A -> Prop) : Q h a -> wp h (Ret (E := E) a) Q.
Proof. intros HQ tr b [-> ->] _. rewrite app_nil_r. auto with outbox. Qed.

Lemma wp_act {E A} h c (k : R c -> io R E A) Q :
  (forall r, env (existT c r) -> J (existT c r) h /\ wp (h ++ [existT c r]) (k r) Q) ->
  wp h (Act c k) Q.
Proof.
  intros Hk tr a (r & tr' & -> & He)%exec_Act [Hr Htr]%Forall_cons.
  destruct (Hk r Hr) as [HJ Hw]. destruct (Hw tr' a He Htr) as [Hj HQ].
  rewrite <- (assoc_L (++)) in HQ. split; [by apply justified_cons|done].
Qed.

Lemma wp_bind {E A B} h (m : io R E A) (f : A -> io R E B) Q :
  wp h m (fun h' a => wp h' (f a) Q) -> wp h (bind m f) Q.
Proof.
  intros Hm tr b (tr1 & tr2 & a & -> & H1 & H2)%exec_bind [Ht1 Ht2]%Forall_app.
  destruct (Hm _ _ H1 Ht1) as [Hj Hf]. destruct (Hf _ _ H2 Ht2) as [Hj' HQ].
  split; [by apply justified_app|by rewrite (assoc_L (++))].
Qed.

Lemma wp_mono {E A} h (m : io R E A) (Q Q' : _ -> A -> Prop) :
  wp h m Q -> (forall h' a, h `prefix_of` h' -> Q h' a -> Q' h' a) -> wp h m Q'.
Proof.
  intros Hm HQ tr a He Ht. destruct (Hm tr a He Ht). split; [done|].
  apply HQ; [by apply prefix_app_r|done].
Qed.

Lemma wp_perform {E} h c (Q : _ -> R c -> Prop) :
  (forall r, env (existT c r) -> J (existT c r) h /\ Q (h ++ [existT c r]) r) ->
  wp h (perform (E := E) c) Q.
Proof. intros Hr. apply wp_act. intros r He. split; [by apply Hr|]. apply wp_ret. by apply Hr. Qed.

(** Loop rules: the invariant speaks of the items done and the items left. *)
Lemma wp_for_loop {E T S B} (xs : list T) (body : S -> T -> io R E (S + B))
    (I : list T -> list T -> list (action R) -> S -> Prop) (Q : list (action R) -> S + B -> Prop)
    h s :
  I [] xs h s ->
  (forall done x rest h s, xs = done ++ x :: rest -> I done (x :: rest) h s ->
    wp h (body s x) (fun h' r =>
      match r with inl s' => I (done ++ [x]) rest h' s' | inr b => Q h' (inr b) end)) ->
  (forall h s, I xs [] h s -> Q h (inl s)) ->
  wp h (for_loop xs body s) Q.
Proof.
  intros HI Hbody HQ.
  assert (Hgen : forall rest done h s, xs = done ++ rest -> I done rest h s ->
    wp h (for_loop rest body s) Q); [|by apply (Hgen xs [])].
  clear HI h s. induction rest as [|x rest IH]; intros done h s Hxs HI; simpl.
  - apply wp_ret, HQ. by rewrite app_nil_r in Hxs; subst.
  - apply wp_bind. eapply wp_mono; [by eapply Hbody|].
    intros h' [s'|b] _ Hr; [|by apply wp_ret].
    eapply (IH (done ++ [x])); [|done]. by rewrite <- (assoc_L (++)).
Qed.

Lemma wp_for_each {E T S} (xs : list T) (body : S -> T -> io R E S)
    (I : list T -> list T -> list (action R) -> S -> Prop) (Q : list (action R) -> S -> Prop) h s :
  I [] xs h s ->
  (forall done x rest h s, xs = done ++ x :: rest -> I done (x :: rest) h s ->
    wp h (body s x) (fun h' s' => I (done ++ [x]) rest h' s')) ->
  (forall h s, I xs [] h s -> Q h s) ->
  wp h (for_each xs body s) Q.
Proof.
  intros HI Hbody HQ.
  assert (Hgen : forall rest done h s, xs = done ++ rest -> I done rest h s ->
    wp h (for_each rest body s) Q); [|by apply (Hgen xs [])].
  clear HI h s. induction rest as [|x rest IH]; intros done h s Hxs HI; simpl.
  - apply wp_ret, HQ. by rewrite app_nil_r in Hxs; subst.
  - apply wp_bind. eapply wp_mono; [by eapply Hbody|].
    intros h' s' _ Hr. eapply (IH (done ++ [x])); [|done]. by rewrite <- (assoc_L (++)).
Qed.

End wp.

Section concurrent.
Context {C : Type} {R : C -> Type} (env : action R -> Prop) (J : action R -> list (action R) -> Prop).

(** The branches of a group start from the same history; what the group adds to it is an
    interleaving of what they add.  Each branch is justified in its own way. *)
Lemma wp_RunConcurrent_by {T} (Js : T -> action R -> list (action R) -> Prop) h (items : list T) f
    (P : T -> list (action R) -> option error -> Prop) :
  (forall i x a l1 t1, items !! i = Some x -> Js x a (h ++ l1) ->
     extends (fun y => exists j x' h', j <> i /\ items !! j = Some x' /\ Js x' y h') l1 t1 -> J a (h ++ t1)) ->
  (forall x, x ∈ items -> wp env (Js x) h (f x) (P x)) ->
  wp env J h (RunConcurrent items f) (fun h' e =>
    exists trs rs t, h' = h ++ t /\ interleave trs t /\ length trs = length items
      /\ length rs = length items
      /\ (forall i x, items !! i = Some x ->
            exists r ti, rs !! i = Some r /\ trs !! i = Some ti /\ P x (h ++ ti) r)
      /\ exists arrival, arrival ≡ₚ rs /\ e = join_all (omap id arrival)).
Proof.
  intros Hlift Hf tr e (trs & rs & arr & t & tr' & Hb & Hi & Hp & -> & [-> ->])%exec_Par Henv.
  rewrite app_nil_r in Henv |- *.
  apply exec_branches_alt in Hb as (Hl1 & Hl2 & Hb). rewrite length_fmap in Hl1, Hl2.
  assert (Hbr : forall i x, items !! i = Some x -> exists ti r,
    trs !! i = Some ti /\ rs !! i = Some r /\ exec (f x) ti r /\ Forall env ti).
  { intros i x Hx. destruct (Hb i (f x)) as (ti & r & Ht & Hr & He).
    { by rewrite list_lookup_fmap, Hx. }
    assert (ti `sublist_of` t).
    { eapply interleave_sublist; [done|]. by apply list_elem_of_lookup_2 in Ht. }
    exists ti, r. split_and!; [done..|]. rewrite Forall_forall in Henv |- *.
    intros y Hy. by eapply Henv, elem_of_sublist. }
  assert (Hitem : forall i ti, trs !! i = Some ti -> exists x, items !! i = Some x).
  { intros i ti Hti. apply lookup_lt_is_Some_2. rewrite <- Hl1. by eapply lookup_lt_Some. }
  split.
  - eapply (justified_interleave_by _ (fun i a h => exists x, items !! i = Some x /\ Js x a h)); [done| |].
    + intros i ti Hti. destruct (Hitem i ti Hti) as [x Hx].
      destruct (Hbr i x Hx) as (ti' & r & Ht' & Hr & He & Hf'). simplify_eq.
      destruct (Hf x ltac:(by eapply list_elem_of_lookup_2) ti r He Hf') as [Hj _].
      intros t1 a t2 Heq. exists x. split; [done|]. by apply (Hj t1 a t2).
    + intros i a l1 t1 _ (x & Hx & Ha) He. eapply Hlift; [done..|].
      eapply extends_impl; [|exact He]. intros y (j & h' & Hj & _ & x' & Hx' & Hy). eauto 10.
  - exists trs, rs, t. split_and!; [done..| |eauto].
    intros i x Hx. destruct (Hbr i x Hx) as (ti & r & Ht' & Hr & He & Hf').
    exists r, ti. split_and!; [done..|].
    eapply Hf; [by eapply list_elem_of_lookup_2|done..].
Qed.

Lemma wp_RunConcurrent_interleaved {T} h (items : list T) f
    (P : T -> list (action R) -> option error -> Prop) :
  history_monotone J ->
  (forall x, x ∈ items -> wp env J h (f x) (P x)) ->
  wp env J h (RunConcurrent items f) (fun h' e =>
    exists trs rs t, h' = h ++ t /\ interleave trs t /\ length trs = length items
      /\ length rs = length items
      /\ (forall i x, items !! i = Some x ->
            exists r ti, rs !! i = Some r /\ trs !! i = Some ti /\ P x (h ++ ti) r)
      /\ exists arrival, arrival ≡ₚ rs /\ e = join_all (omap id arrival)).
Proof.
  intros HJ Hf. apply (wp_RunConcurrent_by (fun _ => J)); [|done].
  intros i x a l1 t1 _ Ha He. eapply HJ; [exact Ha|].
  apply sublist_app; [done|by eapply extends_sublist].
Qed.

(** In particular, each branch ends in a sub-history of what the group leaves. *)
Lemma wp_RunConcurrent {T} h (items : list T) f (P : T -> list (action R) -> option error -> Prop) :
  history_monotone J ->
  (forall x, x ∈ items -> wp env J h (f x) (P x)) ->
  wp env J h (RunConcurrent items f) (fun h' e =>
    h `sublist_of` h' /\
    exists rs, length rs = length items
      /\ (forall i x, items !! i = Some x ->
            exists r hi, rs !! i = Some r /\ hi `sublist_of` h' /\ P x hi r)
      /\ exists arrival, arrival ≡ₚ rs /\ e = join_all (omap id arrival)).
Proof.
  intros HJ Hf. eapply wp_mono; [by apply wp_RunConcurrent_interleaved|].
  intros h' e _ (trs & rs & t & -> & Hi & Hl1 & Hl2 & Hbr & Harr).
  split; [by apply sublist_inserts_r|]. exists rs. split_and!; [done| |done].
  intros i x Hx. destruct (Hbr i x Hx) as (r & ti & Hr & Hti & HP). exists r, (h ++ ti).
  split_and!; [done| |done]. apply sublist_app; [done|].
  eapply interleave_sublist; [done|]. by eapply list_elem_of_lookup_2.
Qed.

(** A group whose branches perform only actions that need no justification: each branch ends
    with a property of its own trace and result. *)
Lemma wp_Par {E A} h (ps : list (io R E E)) (k : list E -> io R E A)
    (P : nat -> list (action R) -> E -> Prop) (Q : list (action R) -> A -> Prop) :
  (forall i p, ps !! i = Some p -> forall tr r, exec p tr r -> Forall env tr ->
     Forall (fun a => forall h, J a h) tr /\ P i tr r) ->
  (forall t trs rs arrival, interleave trs t -> length trs = length ps -> length rs = length ps ->
     (forall i p, ps !! i = Some p -> exists ti r, trs !! i = Some ti /\ rs !! i = Some r
        /\ ti `sublist_of` t /\ P i ti r) ->
     arrival ≡ₚ rs -> wp env J (h ++ t) (k arrival) Q) ->
  wp env J h (Par ps k) Q.
Proof.
  intros Hps Hk tr a (trs & rs & arr & t & tr' & Hb & Hi & Hp & -> & He)%exec_Par [Ht Htr']%Forall_app.
  apply exec_branches_alt in Hb as (Hl1 & Hl2 & Hb).
  assert (Hbr : forall i p, ps !! i = Some p -> exists ti r, trs !! i = Some ti /\ rs !! i = Some r
      /\ ti `sublist_of` t /\ Forall (fun a => forall h, J a h) ti /\ P i ti r).
  { intros i p Hpi. destruct (Hb i p Hpi) as (ti & r & Hti & Hr & Hex).
    assert (Hs : ti `sublist_of` t).
    { eapply interleave_sublist; [done|]. by apply list_elem_of_lookup_2 in Hti. }
    destruct (Hps i p Hpi ti r Hex) as [Hj HP].
    { rewrite Forall_forall in Ht |- *. intros y Hy. by eapply Ht, elem_of_sublist. }
    exists ti, r. done. }
  destruct (Hk t trs rs arr Hi Hl1 Hl2) with (tr := tr') (a := a) as [Hj HQ]; [|done..|].
  { intros i p Hpi. destruct (Hbr i p Hpi) as (ti & r & ? & ? & ? & _ & ?). eauto 10. }
  split; [|by rewrite (assoc_L (++))]. apply justified_app. split; [|done].
  intros t1 x t2 Heq. assert (Hx : x ∈ concat trs).
  { rewrite <- (interleave_Permutation _ _ Hi), Heq. set_solver. }
  apply elem_of_concat in Hx as (ti & Hti & Hx). apply list_elem_of_lookup in Hti as [i Hti].
  destruct (lookup_lt_is_Some_2 ps i) as [p Hpi]; [rewrite <- Hl1; by eapply lookup_lt_Some|].
  destruct (Hbr i p Hpi) as (ti' & r & Hti' & _ & _ & Hf & _). simplify_eq.
  rewrite Forall_forall in Hf. by apply Hf.
Qed.

End concurrent.

(** A group returns no error only when none of its branches does. *)
Lemma concurrent_none {X T} (items : list T) (P : T -> list X -> Prop) (h' : list X) err :
  (forall x h h', h `sublist_of` h' -> P x h -> P x h') ->
  (exists rs, length rs = length items
     /\ (forall i x, items !! i = Some x ->
          exists r hi, rs !! i = Some r /\ hi `sublist_of` h' /\ (r = None -> P x hi))
     /\ exists arrival, arrival ≡ₚ rs /\ err = join_all (omap id arrival)) ->
  err = None -> forall x, x ∈ items -> P x h'.
Proof.
  intros HP (rs & Hlen & Hbr & arrival & Hperm & ->) Hnone x Hx.
  apply list_elem_of_lookup in Hx as [i Hi]. destruct (Hbr i x Hi) as (r & hi & Hr & Hs & HPx).
  eapply HP; [done|]. apply HPx. destruct r as [e|]; [|done].
  apply join_all_None in Hnone. exfalso.
  assert (e ∈ omap id arrival) as Hin.
  { apply list_elem_of_omap. exists (Some e). split; [|done]. rewrite Hperm.
    by eapply list_elem_of_lookup_2. }
  rewrite Hnone in Hin. by apply elem_of_nil in Hin.
Qed.

(** Balances of programs: every execution keeps the balance above [-d] and ends at 0. *)
Definition balanced {C} {R : C -> Type} {E A} (d : nat) (w : action R -> Z) (m : io R E A) : Prop :=
  forall tr a, exec m tr a -> dips_at_most d w tr /\ weight w tr = 0%Z.

Section balanced.
Context {C : Type} {R : C -> Type} (d : nat) (w : action R -> Z).

Lemma balanced_ret {E A} (a : A) : balanced d w (Ret (E := E) a).
Proof. intros tr b [-> ->]. auto with outbox. Qed.

Lemma balanced_bind {E A B} (m : io R E A) (f : A -> io R E B) :
  balanced d w m -> (forall a, balanced d w (f a)) -> balanced d w (bind m f).
Proof.
  intros Hm Hf tr b (tr1 & tr2 & a & -> & H1 & H2)%exec_bind.
  destruct (Hm _ _ H1) as [Hn Hz]. destruct (Hf _ _ _ H2) as [Hn' Hz'].
  split; [auto with outbox|]. rewrite weight_app. lia.
Qed.

Lemma balanced_act0 {E A} c (k : R c -> io R E A) :
  (forall r, w (existT c r) = 0%Z) -> (forall r, balanced d w (k r)) -> balanced d w (Act c k).
Proof.
  intros Hc Hk. change (Act c k) with (bind (perform (E := E) c) k).
  apply balanced_bind; [|done]. intros tr r ->%exec_perform. simpl. rewrite Hc. split; [|done].
  intros [|x t1] t2 Ht; simplify_eq/=; [lia|]. destruct t1; simplify_eq/=. rewrite Hc. lia.
Qed.

Lemma balanced_perform0 {E} c :
  (forall r, w (existT c r) = 0%Z) -> balanced d w (perform (E := E) c).
Proof. intros Hc. apply balanced_act0; [done|]. intros r. apply balanced_ret. Qed.

Lemma balanced_for_loop {E T S B} (xs : list T) (body : S -> T -> io R E (S + B)) s :
  (forall s x, balanced d w (body s x)) -> balanced d w (for_loop xs body s).
Proof.
  intros Hb. revert s. induction xs as [|x xs IH]; intros s; simpl; [apply balanced_ret|].
  apply balanced_bind; [done|]. intros [s'|b]; [done|apply balanced_ret].
Qed.

Lemma balanced_for_each {E T S} (xs : list T) (body : S -> T -> io R E S) s :
  (forall s x, balanced d w (body s x)) -> balanced d w (for_each xs body s).
Proof.
  intros Hb. revert s. induction xs as [|x xs IH]; intros s; simpl; [apply balanced_ret|].
  by apply balanced_bind.
Qed.

End balanced.

(** A group of branches none of which goes below zero does not either. *)
Lemma balanced_RunConcurrent {C} {R : C -> Type} (w : action R -> Z) {T} (items : list T) f :
  (forall x, x ∈ items -> balanced 0 w (f x)) -> balanced 0 w (RunConcurrent items f).
Proof.
  intros Hf tr e (trs & rs & arr & t & tr' & Hb & Hi & Hp & -> & [-> ->])%exec_Par.
  rewrite app_nil_r.
  apply exec_branches_alt in Hb as (Hl1 & Hl2 & Hb). rewrite length_fmap in Hl1, Hl2.
  assert (Hall : Forall (fun ti => dips_at_most 0 w ti /\ weight w ti = 0%Z) trs).
  { apply Forall_lookup. intros i ti Hti.
    destruct (lookup_lt_is_Some_2 items i) as [x Hx].
    { rewrite <- Hl1. by eapply lookup_lt_Some. }
    destruct (Hb i (f x)) as (ti' & r & Ht' & Hr & He); [by rewrite list_lookup_fmap, Hx|].
    simplify_eq. eapply Hf; [by eapply list_elem_of_lookup_2|done]. }
  split.
  - eapply dips_at_most_interleave; [done|]. eapply Forall_impl; [exact Hall|]. by intros ti [? _].
  - rewrite (interleave_Permutation _ _ Hi). clear -Hall.
    induction Hall as [|ti trs [_ Hti] _ IH]; simpl; [done|]. rewrite weight_app. lia.
Qed.

#[export] Hint Resolve wp_ret balanced_ret balanced_bind balanced_act0 balanced_perform0
  balanced_RunConcurrent balanced_for_loop balanced_for_each : outbox.

(** ** Programs that perform only some actions *)

Definition only {C} {R : C -> Type} {E A} (P : action R -> Prop) (m : io R E A) : Prop :=
  forall tr a, exec m tr a -> Forall P tr.

Section only.
Context {C : Type} {R : C -> Type} {E : Type} (P : action R -> Prop).

Lemma only_ret {A} (a : A) : only P (Ret (E := E) a).
Proof. by intros tr b [-> _]. Qed.

Lemma only_bind {A B} (m : io R E A) (f : A -> io R E B) :
  only P m -> (forall a, only P (f a)) -> only P (bind m f).
Proof.
  intros Hm Hf tr b (tr1 & tr2 & a & -> & H1 & H2)%exec_bind. apply Forall_app. split; [by eapply Hm|by eapply Hf].
Qed.

Lemma only_perform c : (forall r, P (existT c r)) -> only P (perform (E := E) c).
Proof. intros Hc tr r ->%exec_perform. by apply Forall_singleton. Qed.

Lemma only_for_loop {T S B} (xs : list T) (body : S -> T -> io R E (S + B)) s :
  (forall s x, only P (body s x)) -> only P (for_loop xs body s).
Proof.
  intros Hb. revert s. induction xs as [|x xs IH]; intros s; simpl; [apply only_ret|].
  apply only_bind; [done|]. intros [s'|b]; [done|apply only_ret].
Qed.

Lemma only_for_each {T S} (xs : list T) (body : S -> T -> io R E S) s :
  (forall s x, only P (body s x)) -> only P (for_each xs body s).
Proof.
  intros Hb. revert s. induction xs as [|x xs IH]; intros s; simpl; [apply only_ret|].
  by apply only_bind.
Qed.

Lemma only_Par {A} (ps : list (io R E E)) (k : list E -> io R E A) :
  (forall p, p ∈ ps -> only P p) -> (forall rs, only P (k rs)) -> only P (Par ps k).
Proof.
  intros Hps Hk tr a (trs & rs & arr & t & tr' & Hb & Hi & _ & -> & He)%exec_Par.
  apply exec_branches_alt in Hb as (Hl1 & _ & Hb). apply Forall_app. split; [|by eapply Hk].
  rewrite (interleave_Permutation _ _ Hi). apply Forall_concat, Forall_lookup. intros i ti Hti.
  destruct (lookup_lt_is_Some_2 ps i) as [p Hp]; [rewrite <- Hl1; by eapply lookup_lt_Some|].
  destruct (Hb i p Hp) as (ti' & r & Hti' & _ & Hex). simplify_eq.
  eapply (Hps p); [by eapply list_elem_of_lookup_2|done].
Qed.

Lemma wp_only (env : action R -> Prop) (J : action R -> list (action R) -> Prop) {A} h (m : io R E A)
    (Q : list (action R) -> A -> Prop) :
  only P m -> (forall a h, P a -> J a h) ->
  (forall tr a, exec m tr a -> Forall env tr -> Forall P tr -> Q (h ++ tr) a) -> wp env J h m Q.
Proof.
  intros Hm HJ HQ tr a He Henv. pose proof (Hm tr a He) as Hp. split; [|by apply HQ].
  intros t1 x t2 ->. apply HJ. rewrite Forall_forall in Hp. apply Hp. set_solver.
Qed.

End only.

#[export] Hint Resolve only_ret only_bind only_perform only_for_loop only_for_each : outbox.

(** ** The sequential schedule is an execution *)

Section run.
Context {C : Type} {R : C -> Type} {E : Type} (oracle : list (action R) -> forall c, R c).

Definition run_sound {A} (m : io R E A) : Prop :=
  forall past, exists tr, (run oracle m past).1 = past ++ tr /\ exec m tr (run oracle m past).2.

Fixpoint run_exec {A} (m : io R E A) {struct m} : run_sound m.
Proof.
  destruct m as [a|c k|ps k]; intros past.
  - exists []. by rewrite app_nil_r.
  - simpl. set (r := oracle past c).
    destruct (run_exec A (k r) (past ++ [existT c r])) as (tr & Htr & He).
    exists (existT c r :: tr). rewrite Htr, <- (assoc_L (++)). split; [done|eauto].
  - assert (Hbr : forall past, exists trs,
      (run_branches oracle ps past).1 = past ++ concat trs
      /\ exec_branches ps trs (run_branches oracle ps past).2).
    { clear past. generalize ps. fix IH 1. intros [|p ps'] past; simpl.
      - exists []. by rewrite app_nil_r.
      - pose proof (run_exec E p past) as (t & Ht & He).
        destruct (run oracle p past) as [past1 r]; simpl in *. subst past1.
        destruct (IH ps' (past ++ t)) as (trs & Htrs & Hes).
        destruct (run_branches oracle ps' (past ++ t)) as [past2 rs]; simpl in *. subst past2.
        exists (t :: trs). simpl. by rewrite (assoc_L (++)). }
    destruct (Hbr past) as (trs & Htrs & Hes).
    assert (Heq : run oracle (Par ps k) past =
      (let '(past, rs) := run_branches oracle ps past in run oracle (k rs) past)) by done.
    rewrite Heq. destruct (run_branches oracle ps past) as [past2 rs]; simpl in *. subst past2.
    destruct (run_exec A (k rs) (past ++ concat trs)) as (tr & Htr & He).
    exists (concat trs ++ tr). rewrite Htr, (assoc_L (++)). split; [done|].
    apply exec_Par. exists trs, rs, rs, (concat trs), tr. split_and!; eauto using interleave_concat.
Defined.

Lemma run_exec_nil {A} (m : io R E A) : exec m (run oracle m []).1 (run oracle m []).2.
Proof. destruct (run_exec m []) as (tr & -> & He). exact He. Qed.

(** Every action of the schedule is answered by the oracle. *)
Definition answered (a : action R) : Prop := exists past c, a = existT c (oracle past c).

Definition run_answers {A} (m : io R E A) : Prop :=
  forall past, Forall answered past -> Forall answered (run oracle m past).1.

Fixpoint run_answered {A} (m : io R E A) {struct m} : run_answers m.
Proof.
  destruct m as [a|c k|ps k]; intros past Hpast; [done| |].
  - refine (run_answered _ (k _) _ _). apply Forall_app. split; [done|]. apply Forall_singleton. by exists past, c.
  - assert (Hbr : forall past, Forall answered past ->
      Forall answered (run_branches oracle ps past).1).
    { clear past Hpast. generalize ps. fix IH 1. intros [|p ps'] past Hpast; simpl; [done|].
      pose proof (run_answered E p past Hpast) as Hp.
      destruct (run oracle p past) as [past1 r]. simpl in Hp.
      specialize (IH ps' past1 Hp).
      by destruct (run_branches oracle ps' past1) as [past2 rs]. }
    assert (Heq : run oracle (Par ps k) past =
      (let '(past, rs) := run_branches oracle ps past in run oracle (k rs) past)) by done.
    rewrite Heq. specialize (Hbr past Hpast). destruct (run_branches oracle ps past) as [past2 rs].
    exact (run_answered _ (k rs) past2 Hbr).
Defined.

End run.
