(* ===== verification/Provider.v ===== *)
(** * The contract between the relay and its providers

    [provider/sender.go], [provider/log.go] and [provider/concurrent.go]: a sender is a program
    ([Conc.v]) whose actions are the callbacks of the relay and the calls of its own client.
    The class [Provider] is what the relay relies on: a confirmation is only reported for an
    event the queue acknowledged. *)
From S2P Require Import Prelude GoErrors Values Conc.
Local Open Scope go_scope.

(** ** Callbacks *)

Inductive callback :=
| CbConfirm (id : value)
| CbPoison (id : value) (reason : string)
| CbProgress
| CbLogFailure (message signature : string).

(** The optional members of [provider.Callbacks]: whether each is wired. *)
Record Callbacks := MkCallbacks { hasMarkProgress : bool; hasLogFailure : bool }.

Section callbacks.
Context {X : Type} (RX : X -> Type).

(** The actions of a sender: a callback, or a call of the provider's own client. *)
Definition resp (c : callback + X) : Type :=
  match c with inl _ => unit | inr x => RX x end.

Definition prog (A : Type) : Type := io resp (option error) A.

Definition AddConfirmedID (id : value) : prog unit := perform (R := resp) (inl (CbConfirm id)).

Definition AddPoisonID (id : value) (reason : string) : prog unit :=
  perform (R := resp) (inl (CbPoison id reason)).

Definition Progress (c : Callbacks) : prog unit :=
  if hasMarkProgress c then perform (R := resp) (inl CbProgress) else Ret tt.

Definition ReportFailure (c : Callbacks) (message signature : string) : prog unit :=
  if hasLogFailure c then perform (R := resp) (inl (CbLogFailure message signature)) else Ret tt.

Definition RejectMalformedOptions (c : Callbacks) (tgt : string) (evt : Event)
    (field : string) (err : error) : prog unit :=
  bind (AddPoisonID (ID evt) (error_text err)) (fun _ =>
  ReportFailure c "Failed to send event"
    (tgt +:+ "|" +:+ Destination evt +:+ "|" +:+ field +:+ "|malformed-options")).

End callbacks.

Arguments AddConfirmedID {X RX} id.
Arguments AddPoisonID {X RX} id reason.
Arguments Progress {X RX} c.
Arguments ReportFailure {X RX} c message signature.
Arguments RejectMalformedOptions {X RX} c tgt evt field err.

(** The callbacks of a trace, in order. *)
Definition callback_of {X} {RX : X -> Type} (a : action (resp RX)) : option callback :=
  match projT1 a with inl cb => Some cb | inr _ => None end.

Definition callbacks_of {X} {RX : X -> Type} (tr : list (action (resp RX))) : list callback :=
  omap callback_of tr.

(** [bind] with Go's statement order. *)
Notation "'do!' x <- m ; k" := (bind m (fun x => k))
  (at level 100, x name, m at level 99, k at level 100, right associativity) : go_scope.
Notation "'run!' m ; k" := (bind m (fun _ => k))
  (at level 100, m at level 99, k at level 100, right associativity) : go_scope.

(** ** [provider.NewPublishLog]

    The fields a publish is logged with; the latency, a difference with the wall clock that is
    only printed, is left out. *)
Record PublishLog := MkPublishLog {
  log_ID : value;
  log_Timestamp : option Z;
  log_PayloadSize : Z;
  log_OrderingKey : string;
  log_Target : string;
  log_Destination : string;
}.

Definition NewPublishLog (evt : Event) (tgt : string) : PublishLog := {|
  log_ID := ID evt;
  log_Timestamp := if bool_decide (Timestamp evt = zero_time) then None else Some (Timestamp evt);
  log_PayloadSize := len (Payload evt);
  log_OrderingKey := "";
  log_Target := tgt;
  log_Destination := Destination evt;
|}.

(** [PublishLog{}]: what a Go map returns for an entry id it does not hold. *)
Definition zero_log : PublishLog := MkPublishLog VNil None 0 "" "" "".

(** ** The contract

    [Send events callbacks acked err]: a call of [Send] on [events] can report [callbacks] in
    this order and return [err], the queue having acknowledged the messages of [acked]. *)
Class Provider := {
  Send : list Event -> list callback -> list Event -> option error -> Prop;
  Send_acked_selected :
    forall evs cbs acked err, Send evs cbs acked err -> forall evt, evt ∈ acked -> evt ∈ evs;
  Send_confirm_acked :
    forall evs cbs acked err, Send evs cbs acked err ->
    forall id, CbConfirm id ∈ cbs -> exists evt, evt ∈ acked /\ ID evt = id;
  Send_poison_selected :
    forall evs cbs acked err, Send evs cbs acked err ->
    forall id reason, CbPoison id reason ∈ cbs -> exists evt, evt ∈ evs /\ ID evt = id;
}.

(** ** Laws of the callbacks *)

Lemma callbacks_of_app {X} {RX : X -> Type} (tr1 tr2 : list (action (resp RX))) :
  callbacks_of (tr1 ++ tr2) = callbacks_of tr1 ++ callbacks_of tr2.
Proof. unfold callbacks_of. apply omap_app. Qed.

Lemma elem_of_callbacks_of {X} {RX : X -> Type} cb (tr : list (action (resp RX))) :
  cb ∈ callbacks_of tr <-> exists r, existT (inl cb) r ∈ tr.
Proof.
  unfold callbacks_of. rewrite list_elem_of_omap. split.
  - intros ([[cb'|x] r] & Hin & Heq); unfold callback_of in Heq; simplify_eq/=. by exists r.
  - intros [r Hr]. by exists (existT (inl cb) r).
Qed.

Lemma callbacks_of_split {X} {RX : X -> Type} cb (tr : list (action (resp RX))) :
  cb ∈ callbacks_of tr -> exists t1 t2, tr = t1 ++ existT (inl cb) tt :: t2.
Proof. intros [[] Hr]%elem_of_callbacks_of. by apply list_elem_of_split in Hr. Qed.

(** ** Rules for the actions of a sender *)

Section rules.
Context {X : Type} {RX : X -> Type} (env : action (resp RX) -> Prop).
Context (J : action (resp RX) -> list (action (resp RX)) -> Prop) (h : list (action (resp RX))).

Definition did (cb : callback) : action (resp RX) := existT (inl cb) tt.

Lemma wp_callback cb (Q : _ -> unit -> Prop) :
  J (did cb) h -> Q (h ++ [did cb]) tt ->
  wp env J h (perform (R := resp RX) (inl cb) : prog RX unit) Q.
Proof.
  intros HJ HQ. apply (wp_perform (R := resp RX) env J h (inl cb) Q). intros [] _. by split.
Qed.

Lemma wp_command (c : X) (Q : _ -> RX c -> Prop) :
  (forall r, env (existT (inr c) r) -> J (existT (inr c) r) h /\ Q (h ++ [existT (inr c) r]) r) ->
  wp env J h (perform (R := resp RX) (inr c) : prog RX (RX c)) Q.
Proof. intros HQ. apply (wp_perform (R := resp RX) env J h (inr c) Q), HQ. Qed.

(** An optional callback that needs no justification. *)
Lemma wp_optional (wired : bool) cb (Q : _ -> unit -> Prop) :
  J (did cb) h -> (forall t, (forall a, a ∈ t -> a = did cb) -> Q (h ++ t) tt) ->
  wp env J h (if wired then perform (R := resp RX) (inl cb) else Ret tt : prog RX unit) Q.
Proof.
  intros HJ HQ. destruct wired.
  - apply wp_callback; [done|]. apply HQ. by intros a ->%list_elem_of_singleton.
  - apply wp_ret. rewrite <- (app_nil_r h). apply HQ. by intros a ?%elem_of_nil.
Qed.

End rules.
