(* ===== verification/Utf8.v ===== *)
(** * Go's UTF-8 decoder ([unicode/utf8])

    The decoder behind [utf8.Valid] and [range string], with its rejection of overlong forms,
    surrogates and values past U+10FFFF, and the proof that it is exact: it accepts the
    encodings of scalar values and nothing else. *)
From S2P Require Import Prelude.

(** ** UTF-8 ([unicode/utf8]) *)

Definition cont (b : N) : bool := ((128 <=? b) && (b <=? 191))%N.

Definition between (lo hi b : N) : bool := ((lo <=? b) && (b <=? hi))%N.

(** The runes of a byte string, or [None] when it is not valid UTF-8. *)
Fixpoint utf8_decode (s : string) : option (list N) :=
  match s with
  | EmptyString => Some []
  | String c0 s0 =>
      let b0 := N_of_ascii c0 in
      if (b0 <? 128)%N then cons b0 <$> utf8_decode s0
      else match s0 with
      | EmptyString => None
      | String c1 s1 =>
          let b1 := N_of_ascii c1 in
          if between 194 223 b0 then
            if cont b1 then cons ((b0 - 192) * 64 + (b1 - 128))%N <$> utf8_decode s1 else None
          else match s1 with
          | EmptyString => None
          | String c2 s2 =>
              let b2 := N_of_ascii c2 in
              if between 224 239 b0 then
                if (if (b0 =? 224)%N then between 160 191 b1
                    else if (b0 =? 237)%N then between 128 159 b1 else cont b1) && cont b2
                then cons ((b0 - 224) * 4096 + (b1 - 128) * 64 + (b2 - 128))%N <$> utf8_decode s2
                else None
              else match s2 with
              | EmptyString => None
              | String c3 s3 =>
                  let b3 := N_of_ascii c3 in
                  if between 240 244 b0
                     && (if (b0 =? 240)%N then between 144 191 b1
                         else if (b0 =? 244)%N then between 128 143 b1 else cont b1)
                     && cont b2 && cont b3
                  then cons ((b0 - 240) * 262144 + (b1 - 128) * 4096 + (b2 - 128) * 64
                             + (b3 - 128))%N <$> utf8_decode s3
                  else None
              end
          end
      end
  end.

(** A Unicode scalar value and its UTF-8 encoding. *)
Definition scalar (r : N) : Prop := (r < 55296 \/ (57344 <= r /\ r <= 1114111))%N.

Definition utf8_encode1 (r : N) : string :=
  (if (r <? 128)%N then bytes_of [r]
   else if (r <? 2048)%N then bytes_of [192 + r / 64; 128 + r mod 64]
   else if (r <? 65536)%N then bytes_of [224 + r / 4096; 128 + r / 64 mod 64; 128 + r mod 64]
   else bytes_of [240 + r / 262144; 128 + r / 4096 mod 64; 128 + r / 64 mod 64; 128 + r mod 64])%N.

Fixpoint utf8_encode (rs : list N) : string :=
  match rs with [] => EmptyString | r :: rs => utf8_encode1 r +:+ utf8_encode rs end.

(** ** UTF-8 *)

Section utf8.
Local Ltac Zify.zify_post_hook ::= Z.to_euclidean_division_equations.

Local Ltac split_tests :=
  repeat match goal with
    | Hd : context [if ?b then _ else _] |- _ => destruct b eqn:?; try discriminate Hd
    end;
  unfold between, cont in *;
  rewrite ?andb_true_iff, ?andb_false_iff, ?N.leb_le, ?N.leb_gt, ?N.ltb_lt, ?N.ltb_ge,
    ?N.eqb_eq, ?N.eqb_neq in *.

Lemma byte_bound (c : ascii) : (N_of_ascii c < 256)%N.
Proof. apply N_ascii_bounded. Qed.

Lemma bytes_of_cons (c : ascii) (b : N) (s : list N) :
  b = N_of_ascii c -> bytes_of (b :: s) = String c (bytes_of s).
Proof. intros ->. simpl. by rewrite ascii_N_embedding. Qed.

Lemma utf8_decode_sound (s : string) (rs : list N) :
  utf8_decode s = Some rs -> s = utf8_encode rs /\ Forall scalar rs.
Proof.
  remember (String.length s) as n eqn:Hn. revert s rs Hn.
  induction n as [n IH] using lt_wf_ind. intros s rs -> Hd.
  destruct s as [|c0 s0]; [by simplify_eq/=|]. cbn [utf8_decode] in Hd.
  assert (Hrec : forall s' f, utf8_decode s' ≫= (fun x => Some (f :: x)) = Some rs ->
    (String.length s' < String.length (String c0 s0)) ->
    scalar f -> utf8_encode1 f +:+ s' = String c0 s0 ->
    String c0 s0 = utf8_encode rs /\ Forall scalar rs).
  { intros s' f Hs Hlt Hf <-. apply bind_Some in Hs as (x & Hx & [= <-]).
    destruct (IH _ Hlt s' x eq_refl Hx) as [-> Hall]. split; [done|by constructor]. }
  assert (Hmap : forall s' f, cons f <$> utf8_decode s' = utf8_decode s' ≫= (fun x => Some (f :: x))).
  { intros s' f. by destruct (utf8_decode s'). }
  pose proof (byte_bound c0).
  destruct (N_of_ascii c0 <? 128)%N eqn:E0.
  { apply N.ltb_lt in E0 as E0'. rewrite Hmap in Hd. eapply Hrec; [done|simpl; lia|unfold scalar; lia|].
    unfold utf8_encode1. rewrite E0. by rewrite (bytes_of_cons c0). }
  destruct s0 as [|c1 s1]; [done|]. pose proof (byte_bound c1). rewrite ?Hmap in Hd.
  destruct (between 194 223 (N_of_ascii c0)) eqn:E1.
  { split_tests. eapply Hrec; [done|simpl; lia|unfold scalar; lia|].
    unfold utf8_encode1. rewrite (proj2 (N.ltb_ge _ _)), (proj2 (N.ltb_lt _ _)) by lia.
    rewrite (bytes_of_cons c0), (bytes_of_cons c1) by lia. done. }
  destruct s1 as [|c2 s2]; [done|]. pose proof (byte_bound c2). rewrite ?Hmap in Hd.
  destruct (between 224 239 (N_of_ascii c0)) eqn:E2.
  { split_tests; (eapply Hrec; [done|simpl; lia|unfold scalar; lia|];
    unfold utf8_encode1; rewrite !(proj2 (N.ltb_ge _ _)) by lia;
    rewrite (proj2 (N.ltb_lt _ _)) by lia;
    rewrite (bytes_of_cons c0), (bytes_of_cons c1), (bytes_of_cons c2) by lia; done). }
  destruct s2 as [|c3 s3]; [done|]. pose proof (byte_bound c3). rewrite ?Hmap in Hd.
  split_tests; (eapply Hrec; [done|simpl; lia|unfold scalar; lia|];
    unfold utf8_encode1; rewrite !(proj2 (N.ltb_ge _ _)) by lia;
    rewrite (bytes_of_cons c0), (bytes_of_cons c1), (bytes_of_cons c2), (bytes_of_cons c3) by lia; done).
Qed.

Local Ltac resolve_test b :=
  let T := fresh "T" in
  destruct b eqn:T; unfold between, cont in T;
  rewrite ?andb_true_iff, ?andb_false_iff, ?N.leb_le, ?N.leb_gt, ?N.ltb_lt, ?N.ltb_ge,
    ?N.eqb_eq, ?N.eqb_neq in T; try (exfalso; lia).

Local Ltac resolve_tests :=
  repeat match goal with
    | |- context [if (?a =? ?b)%N then _ else _] => resolve_test (a =? b)%N
    end;
  repeat match goal with
    | |- context [if ?b then _ else _] => resolve_test b
    end.

Lemma utf8_decode_encode1 (r : N) (s : string) :
  scalar r -> utf8_decode (utf8_encode1 r +:+ s) = cons r <$> utf8_decode s.
Proof.
  unfold scalar, utf8_encode1. intros Hr.
  destruct (r <? 128)%N eqn:E0; [|destruct (r <? 2048)%N eqn:E1; [|destruct (r <? 65536)%N eqn:E2]];
    rewrite ?N.ltb_lt, ?N.ltb_ge in *; cbn [bytes_of]; rewrite !string_app_cons, !string_app_nil;
    cbn [utf8_decode];
    rewrite !N_ascii_embedding by lia; resolve_tests;
    destruct (utf8_decode s); simpl; (done || (do 2 f_equal; lia)).
Qed.

Lemma utf8_decode_complete (rs : list N) :
  Forall scalar rs -> utf8_decode (utf8_encode rs) = Some rs.
Proof.
  induction 1 as [|r rs Hr _ IH]; [done|]. cbn [utf8_encode].
  by rewrite utf8_decode_encode1, IH.
Qed.

Lemma utf8_decode_Some (s : string) (rs : list N) :
  utf8_decode s = Some rs <-> s = utf8_encode rs /\ Forall scalar rs.
Proof.
  split; [apply utf8_decode_sound|]. intros [-> Hrs]. by apply utf8_decode_complete.
Qed.

End utf8.
