(* ===== verification/Strconv.v ===== *)
(** * Numbers and quoted strings as text ([strconv], and [strings.EqualFold])

    The parsers of Go's standard library that stand behind the flags and the [.env] file:
    [ParseUint] and [ParseInt] with their base prefixes, underscores and range errors,
    [ParseBool], [Unquote], and case folding against an ASCII word. *)
From S2P Require Import Prelude Utf8.
Local Open Scope go_scope.

Inductive num_error := ErrSyntax | ErrRange.

Definition num_error_text (e : num_error) : string :=
  match e with ErrSyntax => "invalid syntax" | ErrRange => "value out of range" end.

(** ** Digits *)

Definition is_digit (c : ascii) : bool := let n := N_of_ascii c in ((48 <=? n) && (n <=? 57))%N.

Definition is_letter (c : ascii) : bool :=
  let n := N_of_ascii (ascii_lower c) in ((97 <=? n) && (n <=? 122))%N.

(** The value of a digit or letter; a byte that is neither has none. *)
Definition digit_value (c : ascii) : option Z :=
  if is_digit c then Some (Z.of_N (N_of_ascii c) - 48)%Z
  else if is_letter c then Some (Z.of_N (N_of_ascii (ascii_lower c)) - 97 + 10)%Z
  else None.

Definition underscore : ascii := "_"%char.

(** The digit loop of [ParseUint]: the number and whether an underscore was seen. *)
Fixpoint parse_digits (base0 : bool) (base maxVal : Z) (s : string) (n : Z) (underscores : bool) :
    num_error + Z * bool :=
  match s with
  | EmptyString => inr (n, underscores)
  | String c s' =>
      if base0 && ascii_eqb c underscore then parse_digits base0 base maxVal s' n true
      else match digit_value c with
           | None => inl ErrSyntax
           | Some d =>
               if (base <=? d)%Z then inl ErrSyntax
               else if (maxVal <? n * base + d)%Z then inl ErrRange
               else parse_digits base0 base maxVal s' (n * base + d)%Z underscores
           end
  end.

(** [underscoreOK]: the previous byte is a digit, an underscore or something else. *)
Inductive previous := PreviousNone | PreviousDigit | PreviousUnderscore | PreviousOther.

Fixpoint underscores_ok (hex : bool) (i : previous) (s : string) : bool :=
  match s with
  | EmptyString => match i with PreviousUnderscore => false | _ => true end
  | String c s' =>
      let digit := is_digit c || (hex && is_letter c && ((N_of_ascii (ascii_lower c)) <=? 102)%N) in
      if digit then underscores_ok hex PreviousDigit s'
      else if ascii_eqb c underscore
      then match i with PreviousDigit => underscores_ok hex PreviousUnderscore s' | _ => false end
      else match i with PreviousUnderscore => false | _ => underscores_ok hex PreviousOther s' end
  end.

(** A base prefix: its letter in lower case, and the text after it. *)
Definition base_letter (s : string) : option (ascii * string) :=
  match s with
  | String z (String c rest) =>
      let l := ascii_lower c in
      if ascii_eqb z "0" && (ascii_eqb l "b" || ascii_eqb l "o" || ascii_eqb l "x") then Some (l, rest)
      else None
  | _ => None
  end.

Definition underscoreOK (s : string) : bool :=
  let s := match s with
           | String c s' => if ascii_eqb c "-" || ascii_eqb c "+" then s' else s
           | EmptyString => s
           end in
  match base_letter s with
  | Some (l, rest) => underscores_ok (ascii_eqb l "x") PreviousDigit rest
  | None => underscores_ok false PreviousNone s
  end.

(** The base and the digits of a number whose base is given by its prefix. *)
Definition detect_base (s : string) : Z * string :=
  match s with
  | String z s' =>
      if ascii_eqb z "0" then
        match base_letter s with
        | Some (l, String c rest) =>
            (if ascii_eqb l "b" then 2 else if ascii_eqb l "o" then 8 else 16, String c rest)%Z
        | _ => (8, s')%Z
        end
      else (10, s)%Z
  | EmptyString => (10, s)%Z
  end.

(** [strconv.ParseUint(s, base, bitSize)] for a base from 2 to 36, or 0. *)
Definition ParseUint (s : string) (base bitSize : Z) : num_error + Z :=
  if bool_decide (s = "") then inl ErrSyntax
  else
    let base0 := (base =? 0)%Z in
    let '(base', digits) := if base0 then detect_base s else (base, s) in
    let? (n, underscores) := parse_digits base0 base' (2 ^ bitSize - 1) digits 0 false in
    if underscores && negb (underscoreOK s) then inl ErrSyntax else inr n.

(** [strconv.ParseInt(s, base, 64)] *)
Definition ParseInt (s : string) (base : Z) : num_error + Z :=
  if bool_decide (s = "") then inl ErrSyntax
  else
    let '(neg, s') :=
      match s with
      | String c rest => if ascii_eqb c "+" then (false, rest) else if ascii_eqb c "-" then (true, rest) else (false, s)
      | EmptyString => (false, s)
      end in
    match ParseUint s' base 64 with
    | inl e => inl e
    | inr un =>
        if negb neg && (two63 <=? un)%Z then inl ErrRange
        else if neg && (two63 <? un)%Z then inl ErrRange
        else inr (if neg then - un else un)%Z
    end.

Definition ParseBool (s : string) : option bool :=
  if bool_decide (s ∈ ["1"; "t"; "T"; "true"; "TRUE"; "True"]) then Some true
  else if bool_decide (s ∈ ["0"; "f"; "F"; "false"; "FALSE"; "False"]) then Some false
  else None.

(** ** [strings.EqualFold] with an ASCII word

    Two runes are equal under simple folding when their lower cases are; besides the ASCII
    letters, U+017F folds to [s] and U+212A to [k]. *)
Definition fold_long_s : string := bytes_of [197; 191]%N.

Fixpoint strings_EqualFold (s word : string) : bool :=
  match word with
  | EmptyString => bool_decide (s = "")
  | String w word' =>
      match s with
      | EmptyString => false
      | String c s' =>
          if ascii_eqb (ascii_lower c) (ascii_lower w) then strings_EqualFold s' word'
          else match s' with
          | String c1 s1 =>
              if ascii_eqb (ascii_lower w) "s" && bool_decide (String c (String c1 "") = fold_long_s)
              then strings_EqualFold s1 word'
              else match s1 with
                   | String c2 s2 =>
                       if ascii_eqb (ascii_lower w) "k" && bool_decide (String c (String c1 (String c2 "")) = kelvin_sign)
                       then strings_EqualFold s2 word'
                       else false
                   | EmptyString => false
                   end
          | EmptyString => false
          end
      end
  end.

(** ** [strconv.Unquote]

    Go's path for text without escapes is an optimisation; the loop below is the general one. *)
Definition backslash : ascii := "\"%char.
Definition double_quote : ascii := ascii_of_N 34.
Definition single_quote : ascii := ascii_of_N 39.
Definition back_quote : ascii := "`"%char.
Definition newline : ascii := ascii_of_N 10.
Definition nl : string := String newline "".
Definition carriage_return : ascii := ascii_of_N 13.

Fixpoint string_drop (n : nat) (s : string) : string :=
  match n, s with S n, String _ s => string_drop n s | _, _ => s end.

(** [utf8.DecodeRuneInString] of a non-empty string: the first rune, or U+FFFD for one byte that
    starts no valid encoding, and the text after it. *)
Definition decode_rune (s : string) : N * string :=
  let first n := match utf8_decode (String.substring 0 n s) with Some [r] => Some (r, string_drop n s) | _ => None end in
  match first 1, first 2, first 3, first 4 with
  | Some p, _, _, _ | None, Some p, _, _ | None, None, Some p, _ | None, None, None, Some p => p
  | None, None, None, None => (65533%N, string_drop 1 s)
  end.

(** [n] digits of a base, most significant first. *)
Fixpoint read_number (base : Z) (n : nat) (s : string) (v : Z) : option (Z * string) :=
  match n, s with
  | O, _ => Some (v, s)
  | S _, EmptyString => None
  | S n, String c s' =>
      match digit_value c with
      | Some d => if (d <? base)%Z then read_number base n s' (v * base + d)%Z else None
      | None => None
      end
  end.

Definition one_byte (n : Z) : string := String (ascii_of_N (Z.to_N n)) "".

Definition valid_rune (v : Z) : bool := ((v <? 55296) || ((57343 <? v) && (v <=? 1114111)))%Z.

(** What an escape stands for, after the backslash. *)
Definition unquote_escape (e : ascii) (s : string) (q : ascii) : option (string * string) :=
  let number base n v (ok : Z -> bool) enc :=
    match read_number base n s v with
    | Some (v, rest) => if ok v then Some (enc v, rest) else None
    | None => None
    end in
  match e with
  | "a" => Some (one_byte 7, s)
  | "b" => Some (one_byte 8, s)
  | "f" => Some (one_byte 12, s)
  | "n" => Some (one_byte 10, s)
  | "r" => Some (one_byte 13, s)
  | "t" => Some (one_byte 9, s)
  | "v" => Some (one_byte 11, s)
  | "x" => number 16%Z 2 0%Z (fun _ => true) one_byte
  | "u" => number 16%Z 4 0%Z valid_rune (fun v => utf8_encode1 (Z.to_N v))
  | "U" => number 16%Z 8 0%Z valid_rune (fun v => utf8_encode1 (Z.to_N v))
  | _ =>
      if is_digit e then
        match digit_value e with
        | Some d => if (d <? 8)%Z then number 8%Z 2 d (fun v => v <=? 255)%Z one_byte else None
        | None => None
        end
      else if ascii_eqb e backslash then Some (String backslash "", s)
      else if (ascii_eqb e single_quote || ascii_eqb e double_quote) && ascii_eqb e q then Some (String e "", s)
      else None
  end%char.

(** [UnquoteChar] and the append of its result: the bytes of one character, and the rest. *)
Definition unquote_char (s : string) (q : ascii) : option (string * string) :=
  match s with
  | EmptyString => None
  | String c s1 =>
      if ascii_eqb c q then None
      else if (128 <=? N_of_ascii c)%N then let '(r, rest) := decode_rune s in Some (utf8_encode1 r, rest)
      else if negb (ascii_eqb c backslash) then Some (String c "", s1)
      else match s1 with
           | EmptyString => None
           | String e s2 => unquote_escape e s2 q
           end
  end.

Fixpoint unquote_body (fuel : nat) (s : string) (q : ascii) (out : string) : option (string * string) :=
  match s, fuel with
  | EmptyString, _ | _, O => None
  | String c s1, S fuel =>
      if ascii_eqb c q then Some (out, s1)
      else if ascii_eqb c newline then None
      else match unquote_char s q with
           | None => None
           | Some (bytes, rest) =>
               if ascii_eqb q single_quote then
                 match rest with
                 | String c' rest' => if ascii_eqb c' q then Some (out +:+ bytes, rest') else None
                 | EmptyString => None
                 end
               else unquote_body fuel rest q (out +:+ bytes)
           end
  end.

Fixpoint string_filter (p : ascii -> bool) (s : string) : string :=
  match s with
  | EmptyString => EmptyString
  | String c s' => if p c then String c (string_filter p s') else string_filter p s'
  end.

Definition Unquote (s : string) : option string :=
  match s with
  | String q (String _ _ as body) =>
      let '(raw, after, found) := strings_Cut body q in
      if negb found then None
      else if ascii_eqb q back_quote then
        if bool_decide (after = "") then Some (string_filter (fun c => negb (ascii_eqb c carriage_return)) raw)
        else None
      else if ascii_eqb q double_quote || ascii_eqb q single_quote then
        match unquote_body (String.length body) body q "" with
        | Some (out, rest) => if bool_decide (rest = "") then Some out else None
        | None => None
        end
      else None
  | _ => None
  end.

(** ** Bounds of the parsers *)

Lemma digit_value_bound c d : digit_value c = Some d -> (0 <= d < 36)%Z.
Proof.
  unfold digit_value, is_letter, is_digit.
  destruct ((48 <=? N_of_ascii c) && (N_of_ascii c <=? 57))%N eqn:Hd.
  { apply andb_true_iff in Hd as [?%N.leb_le ?%N.leb_le]. intros [= <-]. lia. }
  destruct ((97 <=? N_of_ascii (ascii_lower c)) && (N_of_ascii (ascii_lower c) <=? 122))%N eqn:Hl; [|done].
  apply andb_true_iff in Hl as [?%N.leb_le ?%N.leb_le]. intros [= <-]. lia.
Qed.

Lemma parse_digits_bound base0 base maxVal s n u r :
  (0 <= base)%Z -> (0 <= n <= maxVal)%Z -> parse_digits base0 base maxVal s n u = inr r -> (0 <= r.1 <= maxVal)%Z.
Proof.
  intros Hb. revert n u. induction s as [|c s IH]; intros n u Hn; simpl; [by intros [= <-]|].
  destruct (base0 && _); [by apply IH|]. destruct (digit_value c) as [d|] eqn:Hd; [|done].
  apply digit_value_bound in Hd. destruct (Z.leb_spec base d); [done|].
  destruct (Z.ltb_spec maxVal (n * base + d)); [done|]. apply IH. nia.
Qed.

Lemma ParseUint_bound s base bitSize n :
  (0 <= base)%Z -> (0 <= bitSize)%Z -> ParseUint s base bitSize = inr n -> (0 <= n < 2 ^ bitSize)%Z.
Proof.
  unfold ParseUint. intros Hb Hs. case_bool_decide; [done|].
  pose proof (Z.pow_pos_nonneg 2 bitSize ltac:(lia) Hs).
  destruct (if (base =? 0)%Z then detect_base s else (base, s)) as [base' digits] eqn:Hd.
  assert (0 <= base')%Z as Hb'.
  { destruct (base =? 0)%Z; [|by simplify_eq]. unfold detect_base in Hd.
    destruct s; [by simplify_eq|]. destruct (ascii_eqb a "0"); [|by simplify_eq].
    destruct (base_letter _) as [[l [|c r]]|]; simplify_eq; try done. by repeat destruct (ascii_eqb l _). }
  destruct (parse_digits _ _ _ _ _ _) as [|[m u]] eqn:Hp; [done|].
  apply parse_digits_bound in Hp; [|done|lia]. simpl in Hp.
  destruct (u && _); [done|]. intros [= <-]. lia.
Qed.

Lemma ParseInt_in_int64 s base n : (0 <= base)%Z -> ParseInt s base = inr n -> in_int64 n.
Proof.
  unfold ParseInt, in_int64, two63, min_int64, max_int64. intros Hb. case_bool_decide; [done|].
  destruct (match s with EmptyString => _ | _ => _ end) as [neg s'].
  destruct (ParseUint s' base 64) as [|un] eqn:Hu; [done|]. apply ParseUint_bound in Hu; [|done..].
  destruct neg; simpl; destruct (Z.ltb_spec 9223372036854775808 un), (Z.leb_spec 9223372036854775808 un);
    intros [= <-]; lia.
Qed.

Example ParseInt_ex :
  map (fun s => ParseInt s 0) ["0x1_0"; "-12"; "010"; "1__0"; "9223372036854775808"; "+0b11"; "12x"]
  = [inr 16; inr (-12); inr 8; inl ErrSyntax; inl ErrRange; inr 3; inl ErrSyntax]%Z.
Proof. vm_compute. reflexivity. Qed.

Example Unquote_ex :
  map Unquote [bytes_of [34; 97; 92; 110; 98; 34]; bytes_of [39; 97; 39]; bytes_of [39; 97; 98; 39];
               bytes_of [34; 92; 120; 52; 49; 34]; "plain"; "`raw`"; bytes_of [34; 34; 34]]%N
  = [Some (bytes_of [97; 10; 98]%N); Some "a"; None; Some "A"; None; Some "raw"; None].
Proof. vm_compute. reflexivity. Qed.

Example EqualFold_ex :
  map (fun s => strings_EqualFold s "disabled")
    ["DisAbleD"; "disable"; "disabledd"; "di" +:+ fold_long_s +:+ "abled"] = [true; false; false; true].
Proof. vm_compute. reflexivity. Qed.

(** ** Printed numbers are read back *)

Lemma digit_value_pretty_N_char (d : N) :
  (d < 10)%N -> digit_value (pretty_N_char d) = Some (Z.of_N d) /\ is_digit (pretty_N_char d) = true.
Proof.
  intros Hd.
  assert (d = 0 \/ d = 1 \/ d = 2 \/ d = 3 \/ d = 4 \/ d = 5 \/ d = 6 \/ d = 7 \/ d = 8 \/ d = 9)%N as Hc by lia.
  by destruct Hc as [->|[->|[->|[->|[->|[->|[->|[->|[->| ->]]]]]]]]].
Qed.

Lemma parse_digits_pretty_go (n : N) (s : string) maxVal :
  (Z.of_N n <= maxVal)%Z ->
  parse_digits false 10 maxVal (pretty_N_go n s) 0 false = parse_digits false 10 maxVal s (Z.of_N n) false.
Proof.
  revert s. induction (N.lt_wf_0 n) as [n _ IH]. intros s Hn.
  destruct (decide (n = 0)%N) as [->|Hne]; [by rewrite pretty_N_go_0|].
  rewrite pretty_N_go_step by lia.
  assert (n `div` 10 < n)%N as Hlt by (apply N.div_lt; lia).
  pose proof (N.div_mod n 10 ltac:(lia)) as Hdm. pose proof (N.mod_lt n 10 ltac:(lia)) as Hm.
  rewrite IH by lia. destruct (digit_value_pretty_N_char (n mod 10) Hm) as [Hd _].
  cbn [parse_digits andb]. rewrite Hd. rewrite (proj2 (Z.leb_gt _ _)) by lia.
  rewrite (proj2 (Z.ltb_ge _ _)) by lia. f_equal. lia.
Qed.

Lemma pretty_N_go_digits (n : N) (s : string) :
  string_forallb is_digit s = true -> string_forallb is_digit (pretty_N_go n s) = true.
Proof.
  revert s. induction (N.lt_wf_0 n) as [n _ IH]. intros s Hs.
  destruct (decide (n = 0)%N) as [->|Hne]; [by rewrite pretty_N_go_0|].
  rewrite pretty_N_go_step by lia. apply IH; [apply N.div_lt; lia|]. simpl.
  pose proof (N.mod_lt n 10 ltac:(lia)) as Hm.
  destruct (digit_value_pretty_N_char (n mod 10) Hm) as [_ ->]. done.
Qed.

Lemma pretty_N_digits (n : N) : string_forallb is_digit (pretty n) = true /\ pretty n <> "".
Proof.
  unfold pretty, pretty_N. case_decide; [done|]. split; [by apply pretty_N_go_digits|].
  rewrite pretty_N_go_step by lia. intros He.
  assert (forall m s, s <> "" -> pretty_N_go m s <> "") as Hne.
  { intros m. induction (N.lt_wf_0 m) as [m _ IH]. intros s Hs.
    destruct (decide (m = 0)%N) as [->|]; [by rewrite pretty_N_go_0|].
    rewrite pretty_N_go_step by lia. apply IH; [apply N.div_lt; lia|done]. }
  by eapply Hne in He.
Qed.

Lemma ParseUint_pretty (n : N) : (Z.of_N n < two64)%Z -> ParseUint (pretty n) 10 64 = inr (Z.of_N n).
Proof.
  intros Hn. unfold ParseUint. rewrite bool_decide_eq_false_2 by apply pretty_N_digits.
  cbn [Z.eqb]. change (2 ^ 64 - 1)%Z with 18446744073709551615%Z. unfold two64 in Hn.
  unfold pretty, pretty_N. case_decide; [by subst|]. rewrite parse_digits_pretty_go by lia. done.
Qed.

Lemma pretty_Z_nonneg (z : Z) : (0 <= z)%Z -> pretty z = pretty (Z.to_N z).
Proof. intros Hz. destruct z as [|p|p]; [done..|lia]. Qed.

Lemma pretty_Z_neg (z : Z) : (z < 0)%Z -> pretty z = "-" +:+ pretty (Z.to_N (- z)).
Proof. intros Hz. destruct z as [|p|p]; [lia..|done]. Qed.

Lemma digits_no (c : ascii) (s : string) :
  is_digit c = false -> string_forallb is_digit s = true -> string_elem c s = false.
Proof.
  intros Hc. induction s as [|x s IH]; [done|]. simpl. intros [Hx Hs]%andb_true_iff.
  rewrite IH by done. rewrite (proj2 (ascii_eqb_neq c x)); [done|]. intros ->. congruence.
Qed.
