(* ===== verification/SqsOptions.v ===== *)
(** * SQS event options and local validation

    [sqs/options.go] and the constants of [sqs/sender.go]: message attributes, sizes, delays,
    the allowed character set (with Go's UTF-8 decoder), the identifiers derived from event ids
    and the classification of permanent request errors. *)
From Stdlib Require Import Floats.SpecFloat.
From S2P Require Import Prelude GoErrors Values Utf8.
Local Open Scope go_scope.

Definition sqs_Target : string := "sqs".
Definition sqsEventBatchSize : Z := 10.
Definition sqsEventMaxSizeByte : Z := 1024 * 1024.
Definition sqsMaxAttributes : Z := 10.
Definition sqsMaxDelaySeconds : Z := 900.

(** ** Anchored patterns: a class of bytes repeated between two bounds *)

Definition match_class (cls : ascii -> bool) (lo hi : nat) (s : string) : bool :=
  string_forallb cls s && (lo <=? String.length s)%nat && (String.length s <=? hi)%nat.

Definition in_range (lo hi c : ascii) : bool :=
  ((N_of_ascii lo <=? N_of_ascii c) && (N_of_ascii c <=? N_of_ascii hi))%N.

Definition is_alnum (c : ascii) : bool :=
  in_range "A" "Z" c || in_range "a" "z" c || in_range "0" "9" c.

Definition double_quote : ascii := "034"%char.

Definition sqsBatchEntryIDPattern : string -> bool :=
  match_class (fun c => is_alnum c || string_elem c "_-") 1 80.

Definition sqsFIFOIDPattern : string -> bool :=
  match_class (fun c => is_alnum c || ascii_eqb c double_quote
                        || string_elem c "!#$%&'()*+,-./:;<=>?@[\]^_`{|}~") 1 128.

Definition sqsAttributeNameRe : string -> bool :=
  match_class (fun c => is_alnum c || string_elem c "_.-") 1 256.

(** ** Text (the decoder is [Utf8.v]'s) *)

Definition allowed_rune (r : N) : bool :=
  (r =? 9)%N || (r =? 10)%N || (r =? 13)%N
  || between 32 55295 r || between 57344 65533 r || between 65536 1114111 r.

Definition sqsAllowedUnicodeBytes (s : string) : bool :=
  match utf8_decode s with None => false | Some rs => forallb allowed_rune rs end.

(** ** Message attributes *)

Record MessageAttribute := MkAttr {
  DataType : string;
  StringValue : string;
  BinaryValue : string;
  StringListValues : list string;
  BinaryListValues : list string;
  HasStringValue : bool;
  HasBinaryValue : bool;
  HasStringList : bool;
  HasBinaryList : bool;
}.

(** [MessageAttribute{DataType: dataType}], with the two values the code can set. *)
Definition mk_attribute (dataType : string) (str bin : option string) : MessageAttribute := {|
  DataType := dataType;
  StringValue := default "" str;
  BinaryValue := default "" bin;
  StringListValues := [];
  BinaryListValues := [];
  HasStringValue := bool_decide (is_Some str);
  HasBinaryValue := bool_decide (is_Some bin);
  HasStringList := false;
  HasBinaryList := false;
|}.

Definition attribute_size (key : string) (a : MessageAttribute) : Z :=
  (len key + len (DataType a)
   + (if HasStringValue a then len (StringValue a) else 0)
   + (if HasBinaryValue a then len (BinaryValue a) else 0)
   + foldr (fun item s => len item + s) 0 (StringListValues a)
   + foldr (fun item s => len item + s) 0 (BinaryListValues a))%Z.

Definition sqsMessageSize (body : string) (attributes : gmap string MessageAttribute) : Z :=
  map_fold (fun key a size => attribute_size key a + size)%Z (len body) attributes.

(** Values without their flag are empty, as [mk_attribute] leaves them. *)
Record attribute_tidy (a : MessageAttribute) : Prop := {
  tidy_string : HasStringValue a = false -> StringValue a = "";
  tidy_binary : HasBinaryValue a = false -> BinaryValue a = "";
  tidy_strings : HasStringList a = false -> StringListValues a = [];
  tidy_binaries : HasBinaryList a = false -> BinaryListValues a = [];
}.

Lemma mk_attribute_tidy t str bin : attribute_tidy (mk_attribute t str bin).
Proof. by split; simpl; destruct str, bin. Qed.

(** [(value, ok, err)] with [ok] as [Some]. *)
Definition optionalString (o : object) (key : string) : error + option string :=
  match o !! key with
  | None | Some VNil => inr None
  | Some (VString s) => inr (Some s)
  | Some _ => inl (ErrText (key +:+ " must be a string"))
  end.

Definition requiredString (o : object) (key : string) : error + string :=
  let? v := optionalString o key in
  match v with
  | None | Some "" => inl (ErrText (key +:+ " is required"))
  | Some s => inr s
  end.

Section options.
Context `{GoRuntime} `{MapRange}.

Definition optionalBase64 (o : object) (key : string) : error + option string :=
  let? v := optionalString o key in
  match v with
  | None => inr None
  | Some s =>
      match base64_DecodeString s with
      | inl err => inl (ErrWrap (key +:+ " must be base64: " +:+ error_text err) err)
      | inr decoded => inr (Some decoded)
      end
  end.

Definition sqsMessageAttributeValue (v : value) : error + MessageAttribute :=
  match Object v with
  | None => inl (ErrText "must be a MessageAttributeValue object")
  | Some o =>
      let? dataType := requiredString o "DataType" in
      let? stringValue := optionalString o "StringValue" in
      let? binaryValue := optionalBase64 o "BinaryValue" in
      if bool_decide (is_Some (o !! "StringListValues")) then
        inl (ErrText "StringListValues is reserved by SQS and not supported")
      else if bool_decide (is_Some (o !! "BinaryListValues")) then
        inl (ErrText "BinaryListValues is reserved by SQS and not supported")
      else inr (mk_attribute dataType stringValue binaryValue)
  end.

(** The loop of [sqsAttributes] over the object's entries in the order [range] yields. *)
Fixpoint convert_attributes (entries : list (string * value))
    (converted : gmap string MessageAttribute) : error + gmap string MessageAttribute :=
  match entries with
  | [] => inr converted
  | (name, raw) :: rest =>
      match sqsMessageAttributeValue raw with
      | inl err =>
          inl (ErrWraps ("malformed event options: attribute " +:+ name +:+ ": " +:+ error_text err)
                 [ErrMalformedOptions; err])
      | inr attr => convert_attributes rest (<[name := attr]> converted)
      end
  end.

(** A nil map is [None]. *)
Definition sqsAttributes (o : Options) : error + option (gmap string MessageAttribute) :=
  match Values o !! "attributes" with
  | None | Some VNil => inr None
  | Some v =>
      match Object v with
      | None => inl (malformed "attributes must be an object")
      | Some attributes =>
          let? converted := convert_attributes (range attributes) ∅ in inr (Some converted)
      end
  end.

(** ** Delay *)

Definition int32_min : Z := -2147483648.
Definition int32_max : Z := 2147483647.
Definition in_int32 (z : Z) : bool := (int32_min <=? z)%Z && (z <=? int32_max)%Z.

(** [int32(z)] of an integer: the low 32 bits, signed. *)
Definition wrap32 (z : Z) : Z := ((z + 2147483648) mod 4294967296 - 2147483648)%Z.

(** The integer part of a finite float. *)
Definition float_trunc (f : spec_float) : option Z :=
  match f with
  | S754_zero _ => Some 0%Z
  | S754_finite s m e =>
      let a := if (0 <=? e)%Z then (Z.pos m * 2 ^ e)%Z else (Z.pos m / 2 ^ (- e))%Z in
      Some (if s then - a else a)%Z
  | _ => None
  end.

(** [int32(f)]: truncation when the value fits; otherwise the result depends on the
    implementation, which [overflow] stands for. *)
Definition int32_of_float (overflow : spec_float -> Z) (f : spec_float) : Z :=
  match float_trunc f with
  | Some z => if in_int32 z then z else wrap32 (overflow f)
  | None => wrap32 (overflow f)
  end.

(** [float64(z) == f] for an [int32] [z], which a float represents exactly. *)
Definition float_eq_int (f : spec_float) (z : Z) : bool :=
  match f with
  | S754_zero _ => (z =? 0)%Z
  | S754_finite s m e =>
      let a := if s then (- Z.pos m)%Z else Z.pos m in
      if (0 <=? e)%Z then (a * 2 ^ e =? z)%Z else (a =? z * 2 ^ (- e))%Z
  | _ => false
  end.

Definition sqsDelaySeconds (overflow : spec_float -> Z) (o : Options) : error + option Z :=
  match Values o !! "delaySeconds" with
  | None | Some VNil => inr None
  | Some (VInt KInt32 z) => inr (Some z)
  | Some (VInt _ z) =>
      let seconds := wrap32 z in
      if (seconds =? z)%Z then inr (Some seconds)
      else inl (malformed "delaySeconds must be a valid int32")
  | Some (VFloat64 f) =>
      let seconds := int32_of_float overflow f in
      if float_eq_int f seconds then inr (Some seconds)
      else inl (malformed "delaySeconds must be an integer")
  | Some _ => inl (malformed "delaySeconds must be an integer")
  end.

Definition sqsAWSTraceHeader (o : Options) : error + string :=
  match Values o !! "messageSystemAttributes" with
  | None | Some VNil => inr ""
  | Some v =>
      match Object v with
      | None => inl (malformed "messageSystemAttributes must be an object")
      | Some attributes =>
          if (size attributes =? 0)%nat then inr ""
          else if (1 <? size attributes)%nat then
            inl (malformed "only AWSTraceHeader is supported in messageSystemAttributes")
          else if bool_decide (attributes !! "AWSTraceHeader" = None) then
            inl (malformed "only AWSTraceHeader is supported in messageSystemAttributes")
          else match requiredString attributes "AWSTraceHeader" with
               | inl err =>
                   inl (ErrWraps ("malformed event options: " +:+ error_text err)
                          [ErrMalformedOptions; err])
               | inr traceHeader => inr traceHeader
               end
      end
  end.

(** ** Validation *)

Definition validSQSAttributeDataType (dataType : string) : bool :=
  let base := (strings_Cut dataType ".").1.1 in
  bool_decide (base = "String") || bool_decide (base = "Number") || bool_decide (base = "Binary").

Definition validSQSAttribute (key : string) (a : MessageAttribute) : bool :=
  let lower := strings_ToLower key in
  if bool_decide (key = "") || bool_decide (DataType a = "") then false
  else if negb (sqsAttributeNameRe key) then false
  else if strings_HasPrefix lower "aws." || strings_HasPrefix lower "amazon." then false
  else if strings_HasPrefix key "." || strings_HasSuffix key "." || strings_Contains key ".." then false
  else if negb (validSQSAttributeDataType (DataType a)) then false
  else if HasStringList a || HasBinaryList a then false
  else if (if strings_HasPrefix (DataType a) "Binary"
           then negb (HasBinaryValue a) || HasStringValue a
           else negb (HasStringValue a) || HasBinaryValue a
                || bool_decide (StringValue a = "")
                || negb (sqsAllowedUnicodeBytes (StringValue a))) then false
  else if HasBinaryValue a && bool_decide (BinaryValue a = "") then false
  else true.

Definition validSQSAttributes (attributes : gmap string MessageAttribute) : bool :=
  if (sqsMaxAttributes <? Z.of_nat (size attributes))%Z then false
  else forallb (fun '(key, a) => validSQSAttribute key a) (range attributes).

Definition isSQSPoison (body : string) (attributes : gmap string MessageAttribute)
    (orderingKey deduplicationID : string) (delaySeconds : option Z) : bool :=
  if bool_decide (body = "") || negb (sqsAllowedUnicodeBytes body) then true
  else if (sqsEventMaxSizeByte <? sqsMessageSize body attributes)%Z then true
  else if negb (validSQSAttributes attributes) then true
  else if bool_decide (orderingKey <> "") && negb (sqsFIFOIDPattern orderingKey) then true
  else if bool_decide (deduplicationID <> "") && negb (sqsFIFOIDPattern deduplicationID) then true
  else match delaySeconds with
       | Some d => (d <? 0)%Z || (sqsMaxDelaySeconds <? d)%Z
       | None => false
       end.

(** ** Derived identifiers *)

Definition hex_digit (n : N) : ascii := if (n <? 10)%N then ascii_of_N (48 + n) else ascii_of_N (87 + n).

Fixpoint hex_EncodeToString (s : string) : string :=
  match s with
  | EmptyString => EmptyString
  | String c s' =>
      let b := N_of_ascii c in
      String (hex_digit (b / 16)) (String (hex_digit (b mod 16)) (hex_EncodeToString s'))
  end.

Definition stableDigest (v : string) : string := hex_EncodeToString (sha256_Sum256 v).

Definition syntheticFIFOGroupID (eventID : string) : string := "outboxer-" +:+ stableDigest eventID.

Definition providerSafeID (v : string) (pattern : string -> bool) : string :=
  if pattern v then v else stableDigest v.

(** [strings.Trim(path, "/") != ""] *)
Definition non_slash (path : string) : bool := string_existsb (fun c => negb (ascii_eqb c "/")) path.

Definition sqs_blanks : string :=
  String " " (String "009" (String "013" (String "010" EmptyString))).

Definition validSQSQueueURL (queueURL : string) : bool :=
  if bool_decide (queueURL = "") || strings_ContainsAny queueURL sqs_blanks then false
  else match url_Parse queueURL with
       | None => false
       | Some parsed =>
           if bool_decide (url_Scheme parsed = "") then true
           else (bool_decide (url_Scheme parsed = "http") || bool_decide (url_Scheme parsed = "https"))
                && bool_decide (url_Host parsed <> "") && non_slash (url_Path parsed)
       end.

End options.

Definition permanent_codes : list string :=
  ["InvalidMessageContents"; "BatchRequestTooLong"; "InvalidBatchEntryId";
   "BatchEntryIdsNotDistinct"; "TooManyEntriesInBatchRequest"].

Definition error_code_of (e : error) : option string :=
  match e with ErrForeign i _ => foreign_error_code i | _ => None end.

Definition isSQSPermanentRequestError (err : error) : bool :=
  match errors_As error_code_of err with
  | None => false
  | Some code => bool_decide (code ∈ permanent_codes)
  end.

(** ** Specifications *)

(** The text limits SQS documents: runes of the XML 1.0 set. *)
Definition sqs_text (s : string) : Prop :=
  exists rs, s = utf8_encode rs /\ Forall (fun r => scalar r /\ allowed_rune r = true) rs.

(** 1 to 128 printable ASCII characters other than the blank. *)
Definition sqs_fifo_id (s : string) : Prop :=
  1 <= String.length s <= 128
  /\ string_forallb (fun c => between 33 126 (N_of_ascii c)) s = true.

(** What a delay option denotes: an integer of any numeric kind. *)
Definition denotes_int (v : value) (z : Z) : Prop :=
  match v with
  | VInt _ z' => z = z'
  | VFloat64 f => float_eq_int f z = true
  | _ => False
  end.

(** ** Laws *)

Lemma sqsAllowedUnicodeBytes_iff (s : string) : sqsAllowedUnicodeBytes s = true <-> sqs_text s.
Proof.
  unfold sqsAllowedUnicodeBytes, sqs_text. split.
  - destruct (utf8_decode s) as [rs|] eqn:Hd; [|done]. intros Ha.
    apply utf8_decode_Some in Hd as [Hs Hrs]. exists rs. split; [done|].
    rewrite forallb_forall in Ha. rewrite Forall_forall in Hrs |- *.
    intros r Hr. split; [auto|]. by apply Ha, list_elem_of_In.
  - intros (rs & -> & Hrs). rewrite utf8_decode_complete.
    + apply forallb_forall. intros r Hr%list_elem_of_In.
      rewrite Forall_forall in Hrs. by apply Hrs.
    + eapply Forall_impl; [done|]. by intros r [? _].
Qed.


(** *** Identifiers *)

Lemma fifo_class_printable (c : ascii) :
  (is_alnum c || ascii_eqb c double_quote
   || string_elem c "!#$%&'()*+,-./:;<=>?@[\]^_`{|}~") = between 33 126 (N_of_ascii c).
Proof. destruct c as [[] [] [] [] [] [] [] []]; vm_compute; reflexivity. Qed.

Lemma string_forallb_ext (p q : ascii -> bool) (s : string) :
  (forall c, p c = q c) -> string_forallb p s = string_forallb q s.
Proof. intros Hpq. induction s as [|c s IH]; simpl; [done|]. by rewrite Hpq, IH. Qed.

Lemma match_class_iff (cls : ascii -> bool) (lo hi : nat) (s : string) :
  match_class cls lo hi s = true
  <-> lo <= String.length s <= hi /\ string_forallb cls s = true.
Proof. unfold match_class. rewrite !andb_true_iff, !Nat.leb_le. tauto. Qed.

Lemma sqsFIFOIDPattern_iff (s : string) : sqsFIFOIDPattern s = true <-> sqs_fifo_id s.
Proof.
  unfold sqsFIFOIDPattern, sqs_fifo_id. rewrite match_class_iff.
  by rewrite (string_forallb_ext _ _ s fifo_class_printable).
Qed.

Lemma hex_digit_alnum (n : N) : (n < 16)%N -> is_alnum (hex_digit n) = true.
Proof.
  intros Hn. unfold hex_digit.
  destruct (N.ltb_spec n 10); unfold is_alnum, in_range; rewrite N_ascii_embedding by lia.
  - rewrite !orb_true_iff. right. apply andb_true_iff. rewrite !N.leb_le.
    change (N_of_ascii "0") with 48%N. change (N_of_ascii "9") with 57%N. lia.
  - rewrite !orb_true_iff. left. right. apply andb_true_iff. rewrite !N.leb_le.
    change (N_of_ascii "a") with 97%N. change (N_of_ascii "z") with 122%N. lia.
Qed.

Lemma hex_EncodeToString_ok (s : string) :
  string_forallb is_alnum (hex_EncodeToString s) = true
  /\ String.length (hex_EncodeToString s) = 2 * String.length s.
Proof.
  induction s as [|c s [IH1 IH2]]; [done|]. simpl. pose proof (N_ascii_bounded c).
  rewrite IH1, IH2, !hex_digit_alnum; [split; [done|lia]| |].
  - apply N.mod_lt. lia.
  - apply N.Div0.div_lt_upper_bound. lia.
Qed.

(** Every name the sender derives is valid where it is used: a batch entry id, a
    deduplication id, a synthetic message group. *)
Section derived.
Context `{GoRuntime} (sha256_32 : forall s, String.length (sha256_Sum256 s) = 32).

Lemma stableDigest_ok (v : string) :
  string_forallb is_alnum (stableDigest v) = true /\ String.length (stableDigest v) = 64.
Proof.
  unfold stableDigest. destruct (hex_EncodeToString_ok (sha256_Sum256 v)) as [H1 H2].
  rewrite sha256_32 in H2. split; [done|lia].
Qed.

Lemma providerSafeID_ok (v : string) (pattern : string -> bool) :
  (forall d, string_forallb is_alnum d = true -> String.length d = 64 -> pattern d = true) ->
  pattern (providerSafeID v pattern) = true.
Proof.
  intros Hp. unfold providerSafeID. destruct (pattern v) eqn:E; [done|].
  apply Hp; apply stableDigest_ok.
Qed.

Lemma entry_id_ok (v : string) :
  sqsBatchEntryIDPattern (providerSafeID v sqsBatchEntryIDPattern) = true.
Proof.
  apply providerSafeID_ok. intros d Hd Hl. apply match_class_iff. split; [lia|].
  eapply string_forallb_impl; [|exact Hd]. intros c Hc. by rewrite Hc.
Qed.

Lemma deduplication_id_ok (v : string) : sqs_fifo_id (providerSafeID v sqsFIFOIDPattern).
Proof.
  apply sqsFIFOIDPattern_iff, providerSafeID_ok. intros d Hd Hl. apply match_class_iff.
  split; [lia|]. eapply string_forallb_impl; [|exact Hd]. intros c Hc. by rewrite Hc.
Qed.

Lemma syntheticFIFOGroupID_ok (v : string) : sqs_fifo_id (syntheticFIFOGroupID v).
Proof.
  destruct (stableDigest_ok v) as [H1 H2]. unfold sqs_fifo_id, syntheticFIFOGroupID.
  rewrite string_length_app, string_forallb_app, H2. split; [simpl; lia|].
  apply andb_true_iff. split; [done|]. eapply string_forallb_impl; [|exact H1].
  intros c Hc. rewrite <- fifo_class_printable. by rewrite Hc.
Qed.

End derived.

(** *** Delays *)

Lemma wrap32_eqb (z : Z) : (wrap32 z =? z)%Z = in_int32 z.
Proof.
  unfold wrap32, in_int32, int32_min, int32_max.
  pose proof (Z.mod_pos_bound (z + 2147483648) 4294967296 eq_refl).
  destruct (Z.eqb_spec ((z + 2147483648) mod 4294967296 - 2147483648) z) as [He|Hne].
  - symmetry. apply andb_true_iff. rewrite !Z.leb_le. lia.
  - symmetry. apply andb_false_iff. rewrite !Z.leb_gt.
    destruct (Z.lt_ge_cases z (-2147483648)); [tauto|].
    destruct (Z.lt_ge_cases 2147483647 z); [tauto|]. contradict Hne.
    rewrite Z.mod_small; lia.
Qed.

Lemma wrap32_in (z : Z) : in_int32 (wrap32 z) = true.
Proof.
  unfold wrap32, in_int32, int32_min, int32_max.
  pose proof (Z.mod_pos_bound (z + 2147483648) 4294967296 eq_refl).
  apply andb_true_iff. rewrite !Z.leb_le. lia.
Qed.

(** A float that equals an integer truncates to it. *)
Lemma float_eq_int_trunc (f : spec_float) (z : Z) :
  float_eq_int f z = true -> float_trunc f = Some z.
Proof.
  destruct f as [s|s| |s m e]; simpl; [|done|done|].
  - rewrite Z.eqb_eq. by intros ->.
  - destruct (Z.leb_spec 0 e) as [He|He]; rewrite Z.eqb_eq; intros Hz; f_equal.
    + destruct s; lia.
    + assert (0 < 2 ^ (- e))%Z by (apply Z.pow_pos_nonneg; lia).
      destruct s.
      * replace (Z.pos m) with ((- z) * 2 ^ (- e))%Z by lia. rewrite Z.div_mul; lia.
      * rewrite Hz, Z.div_mul; lia.
Qed.

(** A number is accepted exactly when it denotes an [int32], whatever the implementation does
    with floats that do not fit. *)
Lemma sqsDelaySeconds_value `{GoRuntime} overflow (o : Options) (v : value) (d : Z) :
  Values o !! "delaySeconds" = Some v ->
  (forall z, v = VInt KInt32 z -> in_int32 z = true) ->
  sqsDelaySeconds overflow o = inr (Some d) <-> denotes_int v d /\ in_int32 d = true.
Proof.
  intros Hv H32. unfold sqsDelaySeconds. rewrite Hv.
  assert (Hint : forall z, (if wrap32 z =? z then inr (Some (wrap32 z))
                    else inl (malformed "delaySeconds must be a valid int32"))%Z = inr (Some d)
                  <-> d = z /\ in_int32 d = true).
  { intros z. rewrite wrap32_eqb. pose proof (wrap32_eqb z) as Hw.
    destruct (in_int32 z) eqn:E; [apply Z.eqb_eq in Hw as ->|].
    - split; [by intros [= <-]|by intros [-> _]].
    - split; [done|intros [-> ?]; congruence]. }
  destruct v as [| |[] z|f| | | | |]; simpl; try (split; [done|tauto]).
  - apply Hint.
  - split; [intros [= <-]; auto|by intros [-> _]].
  - apply Hint.
  - split.
    + destruct (float_eq_int f _) eqn:E; [|done]. intros [= <-]. split; [done|].
      unfold int32_of_float. destruct (float_trunc f) as [z|]; [|apply wrap32_in].
      destruct (in_int32 z) eqn:?; [done|apply wrap32_in].
    + intros [Hf Hd]. unfold int32_of_float. rewrite (float_eq_int_trunc _ _ Hf), Hd, Hf. done.
Qed.

(** *** What the local validation lets through *)

(** What SQS documents of a user attribute, the length of the name of its type apart: the
    validation does not look at that, and [type_name_fits] states it. *)
Record sqs_attribute_ok (key : string) (a : MessageAttribute) : Prop := {
  name_class : string_forallb (fun c => is_alnum c || string_elem c "_.-") key = true;
  name_length : 1 <= String.length key <= 256;
  name_reserved : strings_HasPrefix (strings_ToLower key) "aws." = false
                  /\ strings_HasPrefix (strings_ToLower key) "amazon." = false;
  name_dots : strings_HasPrefix key "." = false /\ strings_HasSuffix key "." = false
              /\ strings_Contains key ".." = false;
  type_base : (strings_Cut (DataType a) ".").1.1 ∈ ["String"; "Number"; "Binary"];
  no_lists : HasStringList a = false /\ HasBinaryList a = false;
  typed_value :
    if strings_HasPrefix (DataType a) "Binary"
    then HasBinaryValue a = true /\ BinaryValue a <> "" /\ HasStringValue a = false
    else HasStringValue a = true /\ StringValue a <> "" /\ sqs_text (StringValue a)
         /\ HasBinaryValue a = false;
}.

(** The name of a type has at most 256 characters, the custom label that may follow the base type
    included. *)
Definition type_name_fits (a : MessageAttribute) : Prop :=
  match utf8_decode (DataType a) with Some runes => length runes | None => String.length (DataType a) end <= 256.

#[global] Instance type_name_fits_dec a : Decision (type_name_fits a).
Proof. unfold type_name_fits. apply _. Defined.

Record sqs_acceptable (body : string) (attributes : gmap string MessageAttribute)
    (orderingKey deduplicationID : string) (delaySeconds : option Z) : Prop := {
  body_text : body <> "" /\ sqs_text body;
  total_size : (sqsMessageSize body attributes <= 1048576)%Z;
  attribute_count : size attributes <= 10;
  attributes_ok : map_Forall sqs_attribute_ok attributes;
  group_ok : orderingKey = "" \/ sqs_fifo_id orderingKey;
  dedup_ok : deduplicationID = "" \/ sqs_fifo_id deduplicationID;
  delay_ok : forall d, delaySeconds = Some d -> (0 <= d <= 900)%Z;
}.

Lemma if_false_iff (b c : bool) : (if b then false else c) = true <-> b = false /\ c = true.
Proof. destruct b; naive_solver. Qed.

Lemma if_true_iff (b c : bool) : (if b then true else c) = false <-> b = false /\ c = false.
Proof. destruct b; naive_solver. Qed.

Lemma validSQSAttributeDataType_iff (t : string) :
  validSQSAttributeDataType t = true <-> (strings_Cut t ".").1.1 ∈ ["String"; "Number"; "Binary"].
Proof.
  unfold validSQSAttributeDataType. rewrite !orb_true_iff, !bool_decide_eq_true.
  rewrite !elem_of_cons, list_elem_of_singleton || rewrite !elem_of_cons. set_solver.
Qed.

Lemma validSQSAttribute_iff (key : string) (a : MessageAttribute) :
  validSQSAttribute key a = true <-> sqs_attribute_ok key a.
Proof.
  unfold validSQSAttribute. rewrite !if_false_iff, !orb_false_iff, !negb_false_iff,
    !bool_decide_eq_false, validSQSAttributeDataType_iff.
  unfold sqsAttributeNameRe. rewrite match_class_iff. split.
  - intros ([Hk Ht] & [Hl Hc] & [Ha Hm] & [[Hp Hs] Hd] & Hb & [Hsl Hbl] & Hv & Hbin & _).
    split; try done. destruct (strings_HasPrefix (DataType a) "Binary").
    + apply orb_false_iff in Hv as [Hv1%negb_false_iff Hv2]. rewrite Hv1 in Hbin. simpl in Hbin.
      apply bool_decide_eq_false in Hbin. done.
    + rewrite !orb_false_iff, !negb_false_iff, bool_decide_eq_false in Hv.
      destruct Hv as [[[? ?] ?] Ht'%sqsAllowedUnicodeBytes_iff]. done.
  - intros [Hc Hl [Ha Hm] (Hp & Hs & Hd) Hb [Hsl Hbl] Hv]. split_and!; try done; try lia.
    + intros ->. simpl in Hl. lia.
    + intros Ht. rewrite Ht in Hb. simpl in Hb. set_solver.
    + destruct (strings_HasPrefix (DataType a) "Binary").
      * destruct Hv as (-> & _ & ->). done.
      * destruct Hv as (-> & Hne & Ht & ->). apply sqsAllowedUnicodeBytes_iff in Ht as ->.
        by rewrite bool_decide_eq_false_2.
    + destruct (strings_HasPrefix (DataType a) "Binary").
      * destruct Hv as (-> & Hne & _). by rewrite bool_decide_eq_false_2.
      * destruct Hv as (_ & _ & _ & ->). done.
Qed.

Lemma validSQSAttributes_iff `{MapRange} (attributes : gmap string MessageAttribute) :
  validSQSAttributes attributes = true
  <-> size attributes <= 10 /\ map_Forall sqs_attribute_ok attributes.
Proof.
  unfold validSQSAttributes. rewrite if_false_iff, Z.ltb_ge, forallb_forall.
  unfold sqsMaxAttributes. split.
  - intros [Hs Ha]. split; [lia|]. intros k a Hk. apply validSQSAttribute_iff.
    apply (Ha (k, a)), list_elem_of_In, elem_of_range, Hk.
  - intros [Hs Ha]. split; [lia|]. intros [k a] Hin%list_elem_of_In%elem_of_range.
    by apply validSQSAttribute_iff, Ha.
Qed.

Lemma optional_id_iff (s : string) :
  bool_decide (s <> "") && negb (sqsFIFOIDPattern s) = false <-> s = "" \/ sqs_fifo_id s.
Proof.
  rewrite andb_false_iff, negb_false_iff, sqsFIFOIDPattern_iff, bool_decide_eq_false.
  destruct (decide (s = "")); naive_solver.
Qed.

Lemma isSQSPoison_acceptable `{MapRange} body attributes okey dedup delay :
  isSQSPoison body attributes okey dedup delay = false
  <-> sqs_acceptable body attributes okey dedup delay.
Proof.
  unfold isSQSPoison. rewrite !if_true_iff, !optional_id_iff, !orb_false_iff, !negb_false_iff,
    bool_decide_eq_false, sqsAllowedUnicodeBytes_iff, validSQSAttributes_iff, Z.ltb_ge.
  unfold sqsEventMaxSizeByte. split.
  - intros ([Hb Ht] & Hs & [Hn Ha] & Hk & Hd & Hdel). split; try done.
    intros d ->. apply orb_false_iff in Hdel as [?%Z.ltb_ge ?%Z.ltb_ge].
    unfold sqsMaxDelaySeconds in *. lia.
  - intros [[Hb Ht] Hs Hn Ha Hk Hd Hdel]. split_and!; try done.
    destruct delay as [d|]; [|done]. specialize (Hdel d eq_refl).
    unfold sqsMaxDelaySeconds. apply orb_false_iff. rewrite !Z.ltb_ge. lia.
Qed.

(** *** The iteration order of the attributes object does not matter *)

Section range_order.
Context `{GoRuntime}.

Lemma convert_attributes_app l1 l2 acc :
  convert_attributes (l1 ++ l2) acc
  = match convert_attributes l1 acc with inl e => inl e | inr m => convert_attributes l2 m end.
Proof.
  revert acc. induction l1 as [|[n v] l1 IH]; intros acc; simpl; [done|].
  destruct (sqsMessageAttributeValue v); [done|apply IH].
Qed.

Lemma convert_attributes_ok l acc :
  (exists m, convert_attributes l acc = inr m)
  <-> Forall (fun e => exists a, sqsMessageAttributeValue e.2 = inr a) l.
Proof.
  revert acc. induction l as [|[n v] l IH]; intros acc; simpl.
  - split; [done|eauto].
  - rewrite Forall_cons. simpl. destruct (sqsMessageAttributeValue v) as [err|a].
    + split; [by intros []|by intros [[] _]].
    + rewrite IH. split; [eauto|by intros [_ ?]].
Qed.

Lemma convert_attributes_lookup l acc m :
  NoDup l.*1 -> (forall k, k ∈ l.*1 -> acc !! k = None) ->
  convert_attributes l acc = inr m ->
  forall k a, m !! k = Some a <->
    acc !! k = Some a \/ exists v, (k, v) ∈ l /\ sqsMessageAttributeValue v = inr a.
Proof.
  revert acc. induction l as [|[n v] l IH]; intros acc Hnd Hacc Hc k a; simpl in *.
  - simplify_eq. set_solver.
  - apply NoDup_cons in Hnd as [Hn Hnd].
    destruct (sqsMessageAttributeValue v) as [err|b] eqn:Hv; [done|].
    assert (Hacc' : forall j, j ∈ l.*1 -> <[n:=b]> acc !! j = None).
    { intros j Hj. rewrite lookup_insert_ne; [set_solver|]. by intros ->. }
    rewrite (IH _ Hnd Hacc' Hc k a). specialize (Hacc n (list_elem_of_here _ _)).
    destruct (decide (k = n)) as [->|Hne].
    + rewrite lookup_insert_eq, Hacc. split.
      * intros [[= <-]|(w & Hw & _)]; [right; exists v; split; [set_solver|done]|].
        contradict Hn. by apply (list_elem_of_fmap_2 fst) in Hw.
      * intros [?|(w & Hw & Hwa)]; [done|]. left. f_equal.
        apply elem_of_cons in Hw as [[= ->]|Hw]; [congruence|].
        contradict Hn. by apply (list_elem_of_fmap_2 fst) in Hw.
    + rewrite lookup_insert_ne by done. set_solver.
Qed.

Lemma convert_attributes_tidy entries m m' :
  map_Forall (fun _ => attribute_tidy) m -> convert_attributes entries m = inr m' ->
  map_Forall (fun _ => attribute_tidy) m'.
Proof.
  revert m. induction entries as [|[name raw] entries IH]; intros m Hm; simpl; [by intros [= <-]|].
  destruct (sqsMessageAttributeValue raw) as [e|a] eqn:Ha; [done|]. apply IH, map_Forall_insert_2; [|done].
  unfold sqsMessageAttributeValue in Ha. repeat case_match; simplify_eq; apply mk_attribute_tidy.
Qed.

Lemma sqsAttributes_tidy `{MapRange} o attributes :
  sqsAttributes o = inr attributes -> map_Forall (fun _ => attribute_tidy) (default ∅ attributes).
Proof.
  unfold sqsAttributes. intros Ha. assert (Hempty : map_Forall (fun (_ : string) => attribute_tidy) ∅) by apply map_Forall_empty.
  repeat case_match; simplify_eq/=; try done. by eapply convert_attributes_tidy.
Qed.

Lemma sqsAttributes_order (R1 R2 : MapRange) (o : Options) :
  (forall m, sqsAttributes (H0 := R1) o = inr m <-> sqsAttributes (H0 := R2) o = inr m).
Proof.
  assert (Hone : forall (R1 R2 : MapRange) m,
    sqsAttributes (H0 := R1) o = inr m -> sqsAttributes (H0 := R2) o = inr m);
    [|intros m; split; apply Hone].
  clear. intros R1 R2 m. unfold sqsAttributes.
  destruct (Values o !! "attributes") as [v|]; [|done].
  destruct v as [| | | | | | |obj|]; simpl; try done.
  intros Hm. destruct (convert_attributes (range (MapRange := R1) obj) ∅) as [|m1] eqn:E1; [done|].
  destruct (convert_attributes_ok (range (MapRange := R2) obj) ∅) as [_ Hok].
  destruct Hok as [m2 E2].
  { destruct (convert_attributes_ok (range (MapRange := R1) obj) ∅) as [Hok _].
    specialize (Hok (ex_intro _ _ E1)). rewrite Forall_forall in Hok |- *.
    intros [k v] Hin. apply (Hok (k, v)). apply elem_of_range. by apply elem_of_range in Hin. }
  rewrite E2. simplify_eq. do 2 f_equal. apply map_eq. intros k. apply option_eq. intros a.
  rewrite (convert_attributes_lookup _ _ _ (NoDup_range obj) (fun _ _ => lookup_empty _) E2 k a).
  rewrite (convert_attributes_lookup _ _ _ (NoDup_range obj) (fun _ _ => lookup_empty _) E1 k a).
  setoid_rewrite elem_of_range. done.
Qed.

End range_order.
