(* ===== verification/SqsSender.v ===== *)
(** * The SQS sender ([sqs/sender.go])

    [Send] groups the events by queue, then sends each queue's events concurrently: standard
    queues in chunks of at most ten entries, FIFO queues one message at a time in each message
    group.  Every client call holds a slot of the semaphore, a buffered channel that [Send] makes and
    passes down; channels are numbered.  A call of
    [publisher.SendBatch] is two actions, the request and its answer, so that what is in flight
    between them is visible in a trace.  Debug and publish log lines are left out. *)
From Stdlib Require Import Floats.SpecFloat.
From S2P Require Import Prelude GoErrors Values Conc Provider SqsOptions.
Local Open Scope go_scope.

Record BatchEntry := MkEntry {
  entry_ID : string;
  MessageBody : string;
  Attributes : option (gmap string MessageAttribute);
  MessageGroupID : string;
  DeduplicationID : string;
  DelaySeconds : option Z;
  AWSXRayTraceHeader : string;
}.

Record BatchSuccess := MkSuccess { success_ID : string; MessageID : string }.
Record BatchFailure := MkFailure {
  failure_ID : string; Code : string; Message : string; SenderFault : bool }.
Record BatchResponse := MkResponse { Successful : list BatchSuccess; Failed : list BatchFailure }.

(** The part of [Config] the sender uses. *)
Record Config := MkConfig { SendConcurrency : Z }.

Inductive sqs_cmd :=
| MakeSem (capacity : Z)
| SemAcquire (sem : nat)
| SemRelease (sem : nat)
| BatchCall (queue : string) (entries : list BatchEntry)
| BatchReturn (queue : string) (entries : list BatchEntry).

(** [make] answers the channel, acquiring [None], or the error of a context that was done first. *)
Definition sqs_resp (c : sqs_cmd) : Type :=
  match c with
  | MakeSem _ => nat
  | SemAcquire _ => option error
  | SemRelease _ => unit
  | BatchCall _ _ => unit
  | BatchReturn _ _ => error + BatchResponse
  end.

Abbreviation sqs_prog := (prog sqs_resp).
Abbreviation sqs_action := (action (resp sqs_resp)).

Definition call (c : sqs_cmd) : sqs_prog (sqs_resp c) := perform (R := resp sqs_resp) (inr c).

Record sqsCandidateEvent := MkCandidate { evt : Event; orderingKey : string }.

Record sqsPreparedEvent := MkPrepared { log : PublishLog; messageSize : Z; entry : BatchEntry }.

Record sqsQueueEvents := MkQueueEvents { queue : string; events : list Event }.

Section sender.
Context `{GoRuntime} `{MapRange} (overflow : spec_float -> Z) (callbacks : Callbacks).

Definition fifoGroupID (c : sqsCandidateEvent) : string :=
  if bool_decide (orderingKey c <> "") then orderingKey c
  else syntheticFIFOGroupID (fmt_Sprint (ID (evt c))).

(** ** Preparing events *)

Definition parseSQSCandidate (e : Event) : sqs_prog (option sqsCandidateEvent) :=
  match Options_String (EvtOptions e) "messageGroupId" with
  | inl err =>
      run! RejectMalformedOptions callbacks sqs_Target e "messageGroupId" err;
      Ret None
  | inr okey => Ret (Some (MkCandidate e okey))
  end.

Definition prepared_entry (candidate : sqsCandidateEvent) (isFIFO : bool)
    (attributes : option (gmap string MessageAttribute)) (deduplicationID traceHeader : string)
    (delaySeconds : option Z) : BatchEntry :=
  let eventID := fmt_Sprint (ID (evt candidate)) in
  {| entry_ID := providerSafeID eventID sqsBatchEntryIDPattern;
     MessageBody := Payload (evt candidate);
     Attributes := attributes;
     MessageGroupID := if isFIFO then fifoGroupID candidate else orderingKey candidate;
     DeduplicationID :=
       if isFIFO then
         if bool_decide (deduplicationID <> "") then deduplicationID
         else providerSafeID eventID sqsFIFOIDPattern
       else "";
     DelaySeconds := if isFIFO then None else delaySeconds;
     AWSXRayTraceHeader := traceHeader |}.

Definition prepared_log (candidate : sqsCandidateEvent) : PublishLog :=
  let l := NewPublishLog (evt candidate) sqs_Target in
  MkPublishLog (log_ID l) (log_Timestamp l) (log_PayloadSize l) (orderingKey candidate)
    (log_Target l) (log_Destination l).

Definition prepareSQSEvent (candidate : sqsCandidateEvent) (queueURL : string) (isFIFO : bool)
    : sqs_prog (option sqsPreparedEvent) :=
  let options := EvtOptions (evt candidate) in
  let reject field err :=
    run! RejectMalformedOptions callbacks sqs_Target (evt candidate) field err; Ret None in
  match sqsAttributes options with
  | inl err => reject "attributes" err
  | inr attributes =>
  match Options_String options "messageDeduplicationId" with
  | inl err => reject "messageDeduplicationId" err
  | inr deduplicationID =>
  match sqsDelaySeconds overflow options with
  | inl err => reject "delaySeconds" err
  | inr delaySeconds =>
  match sqsAWSTraceHeader options with
  | inl err => reject "messageSystemAttributes" err
  | inr traceHeader =>
      let data := Payload (evt candidate) in
      if isSQSPoison data (default ∅ attributes) (orderingKey candidate) deduplicationID delaySeconds
      then
        run! AddPoisonID (ID (evt candidate)) "Event is invalid for SQS";
        run! ReportFailure callbacks "Failed to send event"
          (sqs_Target +:+ "|" +:+ queueURL +:+ "|" +:+ orderingKey candidate +:+ "|local-poison");
        Ret None
      else
        Ret (Some {| log := prepared_log candidate;
                     messageSize := sqsMessageSize data (default ∅ attributes);
                     entry := prepared_entry candidate isFIFO attributes deduplicationID
                                traceHeader delaySeconds |})
  end end end end.

(** ** Sending a batch request *)

Definition logs_by_entry (events : list sqsPreparedEvent) : gmap string PublishLog :=
  foldl (fun m e => <[entry_ID (entry e) := log e]> m) ∅ events.

Definition entry_log (logs : gmap string PublishLog) (id : string) : PublishLog :=
  default zero_log (logs !! id).

(** The two loops over a response. *)
Definition report_success (logs : gmap string PublishLog) (anyDone : bool) (s : BatchSuccess)
    : sqs_prog bool :=
  run! AddConfirmedID (log_ID (entry_log logs (success_ID s)));
  Ret true.

Definition report_failure (queueURL : string) (logs : gmap string PublishLog)
    (st : bool * option error) (f : BatchFailure) : sqs_prog (bool * option error) :=
  let '(anyDone, rejected) := st in
  let entryLog := entry_log logs (failure_ID f) in
  let reason := Code f +:+ ": " +:+ Message f in
  do! st' <-
    (if SenderFault f then
       run! AddPoisonID (log_ID entryLog) reason;
       Ret (true, rejected)
     else
       Ret (anyDone,
            errors_Join [rejected;
              Some (ErrText ("entry " +:+ fmt_Sprint (log_ID entryLog) +:+ " rejected: " +:+ reason))]));
  run! ReportFailure callbacks "Failed to send event"
    (sqs_Target +:+ "|" +:+ queueURL +:+ "|" +:+ Code f +:+ "|" +:+ Message f);
  Ret st'.

(** [sendSQSBatch] with the isolation of a permanently failing request left open: a request of
    one event never isolates, so the recursion is at most two calls deep. *)
Definition sendSQSBatch_with
    (isolated : string -> list sqsPreparedEvent -> sqs_prog (bool * option error))
    (queueURL : string) (events : list sqsPreparedEvent) : sqs_prog (bool * option error) :=
  match events with
  | [] => Ret (false, None)
  | first :: rest =>
      let entries := entry <$> events in
      let logs := logs_by_entry events in
      do! result <-
        (run! call (BatchCall queueURL entries);
         do! response <- call (BatchReturn queueURL entries);
         match response with
         | inl err =>
             if isSQSPermanentRequestError err then
               match rest with
               | [] =>
                   run! AddPoisonID (log_ID (log first)) (error_text err);
                   run! ReportFailure callbacks "Failed to send event"
                     (sqs_Target +:+ "|" +:+ queueURL +:+ "|" +:+ error_text err);
                   Ret (true, None)
               | _ => isolated queueURL events
               end
             else
               run! ReportFailure callbacks "Failed to send event batch"
                 (sqs_Target +:+ "|" +:+ queueURL +:+ "|" +:+ error_text err);
               Ret (false, Some err)
         | inr r =>
             do! anyDone <- for_each (Successful r) (report_success logs) false;
             for_each (Failed r) (report_failure queueURL logs) (anyDone, None)
         end);
      run! Progress callbacks;
      Ret result
  end.

(** The body of the isolation loop, over the call it makes for each event. *)
Definition isolated_with (send : string -> list sqsPreparedEvent -> sqs_prog (bool * option error))
    (queueURL : string) (events : list sqsPreparedEvent) : sqs_prog (bool * option error) :=
  for_each events (fun st e =>
    let '(anyDone, joined) := st in
    do! r <- send queueURL [e];
    Ret (anyDone || r.1,
         match r.2 with Some err => errors_Join [joined; Some err] | None => joined end))
    (false, None).

Definition sendSQSBatchIsolated : string -> list sqsPreparedEvent -> sqs_prog (bool * option error) :=
  isolated_with (sendSQSBatch_with (fun _ _ => Ret (false, None))).

Definition sendSQSBatch : string -> list sqsPreparedEvent -> sqs_prog (bool * option error) :=
  sendSQSBatch_with sendSQSBatchIsolated.

Definition sendSQSBatchWithSemaphore (sem : nat) (queueURL : string) (events : list sqsPreparedEvent)
    : sqs_prog (bool * option error) :=
  do! acquired <- call (SemAcquire sem);
  match acquired with
  | Some err => Ret (false, Some err)
  | None =>
      do! r <- sendSQSBatch queueURL events;
      run! call (SemRelease sem);
      Ret r
  end.

(** ** Standard queues: chunks *)

Record chunking := MkChunking {
  chunks : list (list sqsPreparedEvent); current : list sqsPreparedEvent; currentSize : Z }.

Definition chunk_step (st : chunking) (e : sqsPreparedEvent) : chunking :=
  let size := messageSize e in
  let st :=
    if bool_decide (current st <> [])
       && ((sqsEventBatchSize <=? Z.of_nat (length (current st)))
           || (sqsEventMaxSizeByte <? currentSize st + size))%Z
    then MkChunking (chunks st ++ [current st]) [] 0
    else st in
  MkChunking (chunks st) (current st ++ [e]) (currentSize st + size).

Definition chunkSQSStandardEvents (events : list sqsPreparedEvent) : list (list sqsPreparedEvent) :=
  let st := foldl chunk_step (MkChunking [] [] 0) events in
  if bool_decide (current st <> []) then chunks st ++ [current st] else chunks st.

Definition sendSQSStandardEvents (sem : nat) (queueURL : string) (queueEvents : list sqsPreparedEvent)
    : sqs_prog (option error) :=
  RunConcurrent (chunkSQSStandardEvents queueEvents) (fun chunk =>
    do! r <- sendSQSBatchWithSemaphore sem queueURL chunk;
    Ret r.2).

(** ** FIFO queues: one message in flight per group *)

Definition send_fifo_event (sem : nat) (queueURL : string) (_ : unit) (candidate : sqsCandidateEvent)
    : sqs_prog (unit + option error) :=
  do! prepared <- prepareSQSEvent candidate queueURL true;
  match prepared with
  | None => Ret (inl tt)
  | Some p =>
      do! r <- sendSQSBatchWithSemaphore sem queueURL [p];
      match r.2 with
      | Some err => Ret (inr (Some err))
      | None => if r.1 then Ret (inl tt) else Ret (inr None)
      end
  end.

Definition send_fifo_group (sem : nat) (queueURL : string) (groupEvents : list sqsCandidateEvent)
    : sqs_prog (option error) :=
  do! r <- for_loop groupEvents (send_fifo_event sem queueURL) tt;
  match r with inl _ => Ret None | inr err => Ret err end.

Definition sendSQSFIFOEvents (sem : nat) (queueURL : string) (queueEvents : list sqsCandidateEvent)
    : sqs_prog (option error) :=
  let '(groups, groupOrder) := group_by_order fifoGroupID queueEvents in
  RunConcurrent groupOrder (fun groupID => send_fifo_group sem queueURL (default [] (groups !! groupID))).

(** ** A queue, and the whole batch *)

Definition collect_some {A B} (f : A -> sqs_prog (option B)) (xs : list A) : sqs_prog (list B) :=
  for_each xs (fun acc x =>
    do! r <- f x;
    Ret (match r with Some y => acc ++ [y] | None => acc end)) [].

Definition sendSQSQueueEvents (sem : nat) (q : sqsQueueEvents) : sqs_prog (option error) :=
  if negb (validSQSQueueURL (queue q)) then
    run! for_each (events q) (fun _ e =>
      AddPoisonID (ID e) "SQS queue URL is syntactically invalid") tt;
    run! ReportFailure callbacks "Failed to send event batch"
      (sqs_Target +:+ "|" +:+ queue q +:+ "|invalid-queue-url");
    Ret None
  else
    do! candidates <- collect_some parseSQSCandidate (events q);
    if strings_HasSuffix (queue q) ".fifo" then sendSQSFIFOEvents sem (queue q) candidates
    else
      do! prepared <- collect_some (fun c => prepareSQSEvent c (queue q) false) candidates;
      sendSQSStandardEvents sem (queue q) prepared.

Definition sendSQSEventsWithCallbacks (cfg : Config) (evts : list Event) : sqs_prog (option error) :=
  let queueGroups := (fun '(q, es) => MkQueueEvents q es) <$> range (group_by Destination evts) in
  do! sem <- call (MakeSem (SendConcurrency cfg));
  RunConcurrent queueGroups (sendSQSQueueEvents sem).

End sender.
