(* ===== verification/SqsSafety.v ===== *)
(** * What a send to SQS does, and why

    One invariant of every execution of [sendSQSEventsWithCallbacks], [sqs_justified], says of
    each action what must have preceded it: a confirmation, an answer of the queue that accepts
    the entry; a poison report, one of the documented reasons; a request, well-formed entries
    within the limits, and in a FIFO queue the resolution of every earlier event of the group.
    It is proved once, by the rules of [Conc.v], against the contract of the queue. *)
From Stdlib Require Import Floats.SpecFloat.
From S2P Require Import Prelude GoErrors Values Conc Provider SqsOptions SqsSender.
Local Open Scope go_scope.

(** ** Chunks *)

Section chunk_lemmas.
Implicit Types (ps : list sqsPreparedEvent).

Definition chunk_size ps : Z := foldr (fun p n => messageSize p + n)%Z 0%Z ps.

Lemma chunk_size_app ps qs : chunk_size (ps ++ qs) = (chunk_size ps + chunk_size qs)%Z.
Proof. induction ps; simpl; lia. Qed.

(** A chunk as a request may carry it. *)
Definition chunk_ok ps : Prop :=
  1 <= length ps <= 10 /\ (chunk_size ps <= sqsEventMaxSizeByte)%Z.

Definition chunking_ok (st : chunking) : Prop :=
  Forall chunk_ok (chunks st) /\ currentSize st = chunk_size (current st)
  /\ (current st = [] \/ chunk_ok (current st)).

Lemma chunk_step_ok st p :
  (messageSize p <= sqsEventMaxSizeByte)%Z -> chunking_ok st -> chunking_ok (chunk_step st p).
Proof.
  intros Hp (Hc & Hs & Hcur). unfold chunk_step, chunking_ok, chunk_ok, sqsEventBatchSize in *.
  rewrite Hs. destruct (bool_decide_reflect (current st <> [])) as [Hne|He]; simpl.
  - destruct Hcur as [?|Hok]; [done|].
    destruct (Z.leb_spec 10 (Z.of_nat (length (current st)))); simpl;
      [|destruct (Z.ltb_spec sqsEventMaxSizeByte (chunk_size (current st) + messageSize p))]; simpl;
      rewrite ?chunk_size_app, ?length_app, ?Forall_app, ?Forall_singleton; simpl;
      split_and!; try done; try lia; right; split; lia.
  - apply dec_stable in He. rewrite He. simpl. rewrite Hs, He. simpl. split_and!; [done|lia|right; split; lia].
Qed.

Lemma chunk_step_concat st p :
  concat (chunks (chunk_step st p)) ++ current (chunk_step st p)
  = (concat (chunks st) ++ current st) ++ [p].
Proof.
  unfold chunk_step. destruct (_ && _); simpl; [|by rewrite <- (assoc_L (++))].
  rewrite concat_app. simpl. by rewrite app_nil_r, <- !(assoc_L (++)).
Qed.

Lemma chunks_of_foldl ps st :
  Forall (fun p => messageSize p <= sqsEventMaxSizeByte)%Z ps -> chunking_ok st ->
  let st' := foldl chunk_step st ps in
  chunking_ok st' /\ concat (chunks st') ++ current st' = (concat (chunks st) ++ current st) ++ ps.
Proof.
  intros Hps. revert st. induction Hps as [|p ps Hp _ IH]; intros st Hst; simpl.
  - by rewrite app_nil_r.
  - destruct (IH _ (chunk_step_ok _ _ Hp Hst)) as [Hok Hcat]. split; [done|].
    by rewrite Hcat, chunk_step_concat, <- (assoc_L (++)).
Qed.

Lemma chunkSQSStandardEvents_chunks ps :
  Forall (fun p => messageSize p <= sqsEventMaxSizeByte)%Z ps ->
  concat (chunkSQSStandardEvents ps) = ps /\ Forall chunk_ok (chunkSQSStandardEvents ps).
Proof.
  intros Hps. destruct (chunks_of_foldl ps (MkChunking [] [] 0) Hps) as [(Hc & _ & Hcur) Hcat];
    [by split_and!; try left|].
  unfold chunkSQSStandardEvents. simpl in *.
  destruct (bool_decide_reflect (current (foldl chunk_step (MkChunking [] [] 0) ps) <> []))
    as [Hne|He].
  - rewrite concat_app, Forall_app, Forall_singleton. simpl. rewrite app_nil_r.
    by destruct Hcur.
  - apply dec_stable in He. by rewrite He, app_nil_r in Hcat.
Qed.

(** No chunk is closed early: it is full, or the next event would not have fitted. *)
Definition tight (c1 c2 : list sqsPreparedEvent) : Prop :=
  length c1 = 10 \/ exists p rest, c2 = p :: rest /\ (sqsEventMaxSizeByte < chunk_size c1 + messageSize p)%Z.

Definition chunking_tight (st : chunking) : Prop :=
  Sorted tight (chunks st)
  /\ forall c, last (chunks st) = Some c -> current st = [] \/ tight c (current st).

Lemma Sorted_last {X} (R : X -> X -> Prop) l x :
  Sorted R l -> (forall y, last l = Some y -> R y x) -> Sorted R (l ++ [x]).
Proof.
  intros Hl Hx. apply Sorted_snoc; [done|]. destruct l as [|y l] using rev_ind; [constructor|].
  constructor. apply Hx. by rewrite last_snoc.
Qed.

Lemma tight_snoc c l p : l <> [] -> tight c l -> tight c (l ++ [p]).
Proof.
  intros Hl [Hc|(q & rest & -> & Hq)]; [by left|]. right. by exists q, (rest ++ [p]).
Qed.

Lemma chunk_step_tight st p :
  chunking_ok st -> (current st = [] -> chunks st = []) -> chunking_tight st ->
  chunking_tight (chunk_step st p).
Proof.
  intros (_ & Hs & Hcur) Hfirst [Hsort Hlast]. unfold chunk_step, chunking_tight, sqsEventBatchSize.
  destruct (bool_decide_reflect (current st <> [])) as [Hne|He]; simpl.
  - destruct Hcur as [?|[Hlen _]]; [done|].
    destruct (Z.leb_spec 10 (Z.of_nat (length (current st)))); simpl;
      [|destruct (Z.ltb_spec sqsEventMaxSizeByte (currentSize st + messageSize p))]; simpl.
    + split; [apply Sorted_last; [done|]; intros c Hc; by destruct (Hlast c Hc)|].
      intros c. rewrite last_snoc. intros [= <-]. right. left. lia.
    + split; [apply Sorted_last; [done|]; intros c Hc; by destruct (Hlast c Hc)|].
      intros c. rewrite last_snoc. intros [= <-]. right. right. exists p, []. split; [done|lia].
    + split; [done|]. intros c Hc. right. apply tight_snoc; [done|]. by destruct (Hlast c Hc).
  - apply dec_stable in He. rewrite (Hfirst He). simpl. split; [constructor|done].
Qed.

Lemma chunkSQSStandardEvents_tight ps :
  Forall (fun p => messageSize p <= sqsEventMaxSizeByte)%Z ps ->
  Sorted tight (chunkSQSStandardEvents ps).
Proof.
  intros Hps.
  assert (Hgen : forall st, chunking_ok st -> (current st = [] -> chunks st = []) ->
    chunking_tight st -> chunking_tight (foldl chunk_step st ps)).
  { induction Hps as [|p ps Hp _ IH]; intros st Hok Hfirst Ht; simpl; [done|]. apply IH.
    - by apply chunk_step_ok.
    - unfold chunk_step. simpl. by intros [_ ?]%app_nil.
    - by apply chunk_step_tight. }
  destruct (Hgen (MkChunking [] [] 0)) as [Hs Hl]; [by split_and!; try left|done|by split|].
  unfold chunkSQSStandardEvents.
  destruct (bool_decide_reflect (current (foldl chunk_step (MkChunking [] [] 0) ps) <> []))
    as [Hne|He]; [|done].
  apply Sorted_last; [done|]. intros c Hc. by destruct (Hl c Hc).
Qed.

End chunk_lemmas.

(** ** The isolation of a failing request is at most two calls deep *)

Section isolation.
Context `{GoRuntime} (callbacks : Callbacks).

Lemma sendSQSBatch_single iso queue p :
  sendSQSBatch_with callbacks iso queue [p] = sendSQSBatch callbacks queue [p].
Proof. done. Qed.

Lemma sendSQSBatchIsolated_unfold :
  sendSQSBatchIsolated callbacks = isolated_with (sendSQSBatch callbacks).
Proof. done. Qed.

End isolation.

(** ** The contract of the queue, and the invariant *)

Section contract.
Context `{GoRuntime}.

Definition sqs_entry_id (e : Event) : string :=
  providerSafeID (fmt_Sprint (ID e)) sqsBatchEntryIDPattern.

Definition called (queue : string) (es : list BatchEntry) : sqs_action :=
  existT (inr (BatchCall queue es)) tt.

Definition returned (queue : string) (es : list BatchEntry) (r : error + BatchResponse) : sqs_action :=
  existT (inr (BatchReturn queue es)) r.

Definition reported (cb : callback) : sqs_action := did cb.

(** SQS reports the outcome of every entry of an accepted request individually, under the id the
    entry was given. *)
Definition reports_entries (es : list BatchEntry) (r : BatchResponse) : Prop :=
  forall id, id ∈ entry_ID <$> es <->
    id ∈ success_ID <$> Successful r \/ id ∈ failure_ID <$> Failed r.

Definition sqs_contract (a : sqs_action) : Prop :=
  match projT1 a as c return resp sqs_resp c -> Prop with
  | inr (BatchReturn queue es) => fun r =>
      match r with inl _ => True | inr r => reports_entries es r end
  | _ => fun _ => True
  end (projT2 a).

(** The entry sent for an event: its payload and attributes, a valid batch entry id, attributes,
    group, deduplication id and delay within the limits that are checked. *)
Record entry_for (queue : string) (e : Event) (b : BatchEntry) : Prop := {
  ef_id : entry_ID b = sqs_entry_id e;
  ef_id_valid : sqsBatchEntryIDPattern (entry_ID b) = true;
  ef_body : MessageBody b = Payload e;
  ef_acceptable : sqs_acceptable (MessageBody b) (default ∅ (Attributes b)) (MessageGroupID b)
                    (DeduplicationID b) (DelaySeconds b);
  ef_fifo : if strings_HasSuffix queue ".fifo"
            then sqs_fifo_id (MessageGroupID b) /\ sqs_fifo_id (DeduplicationID b)
                 /\ DelaySeconds b = None
            else DeduplicationID b = "";
  ef_attributes : forall R : MapRange, sqsAttributes (EvtOptions e) = inr (Attributes b);
  ef_tidy : map_Forall (fun _ => attribute_tidy) (default ∅ (Attributes b));
}.

Definition entry_size (b : BatchEntry) : Z := sqsMessageSize (MessageBody b) (default ∅ (Attributes b)).

Definition request_size (es : list BatchEntry) : Z := foldr (fun b n => entry_size b + n)%Z 0%Z es.

Definition resolved (h : list sqs_action) (id : value) : Prop :=
  reported (CbConfirm id) ∈ h \/ exists reason, reported (CbPoison id reason) ∈ h.

Context (evts : list Event).

Record request_ok (queue : string) (es : list BatchEntry) : Prop := {
  rq_url : validSQSQueueURL queue = true;
  rq_count : 1 <= length es <= 10;
  rq_size : (request_size es <= 1048576)%Z;
  rq_entries : forall b, b ∈ es -> exists e, e ∈ evts /\ Destination e = queue /\ entry_for queue e b;
  rq_fifo : strings_HasSuffix queue ".fifo" = true -> length es = 1;
}.

(** The queue accepted the entry of an event. *)
Definition accepted (h : list sqs_action) (e : Event) : Prop :=
  exists es r b, returned (Destination e) es (inr r) ∈ h
    /\ b ∈ es /\ entry_ID b ∈ success_ID <$> Successful r
    /\ entry_for (Destination e) e b.

(** The documented reasons to report an event as poison. *)
Inductive poison_reason `{MapRange} (overflow : spec_float -> Z) (h : list sqs_action) (e : Event)
    : string -> Prop :=
| poison_url :
    validSQSQueueURL (Destination e) = false ->
    poison_reason overflow h e "SQS queue URL is syntactically invalid"
| poison_options err :
    Options_String (EvtOptions e) "messageGroupId" = inl err
    \/ sqsAttributes (EvtOptions e) = inl err
    \/ Options_String (EvtOptions e) "messageDeduplicationId" = inl err
    \/ sqsDelaySeconds overflow (EvtOptions e) = inl err
    \/ sqsAWSTraceHeader (EvtOptions e) = inl err ->
    poison_reason overflow h e (error_text err)
| poison_local okey attributes dedup delay :
    Options_String (EvtOptions e) "messageGroupId" = inr okey ->
    sqsAttributes (EvtOptions e) = inr attributes ->
    Options_String (EvtOptions e) "messageDeduplicationId" = inr dedup ->
    sqsDelaySeconds overflow (EvtOptions e) = inr delay ->
    ~ sqs_acceptable (Payload e) (default ∅ attributes) okey dedup delay ->
    poison_reason overflow h e "Event is invalid for SQS"
| poison_request b err :
    returned (Destination e) [b] (inl err) ∈ h -> entry_for (Destination e) e b ->
    isSQSPermanentRequestError err = true ->
    poison_reason overflow h e (error_text err)
| poison_entry es r f :
    returned (Destination e) es (inr r) ∈ h -> f ∈ Failed r -> SenderFault f = true ->
    failure_ID f = sqs_entry_id e ->
    poison_reason overflow h e (Code f +:+ ": " +:+ Message f).

(** *** Message groups *)

Definition sqs_candidate (e : Event) : option sqsCandidateEvent :=
  match Options_String (EvtOptions e) "messageGroupId" with
  | inl _ => None
  | inr okey => Some (MkCandidate e okey)
  end.

(** The events of a group of a FIFO queue, in the order of the batch. *)
Definition fifo_group (queue group : string) : list sqsCandidateEvent :=
  filter (fun c => fifoGroupID c = group)
    (omap sqs_candidate (filter (fun e => Destination e = queue) evts)).

(** A request to a FIFO queue carries an event whose predecessors in its group are resolved. *)
Definition fifo_turn (h : list sqs_action) (queue : string) (es : list BatchEntry) : Prop :=
  strings_HasSuffix queue ".fifo" = true ->
  exists group before c after b,
    fifo_group queue group = before ++ c :: after
    /\ es = [b] /\ MessageGroupID b = group /\ entry_for queue (evt c) b
    /\ forall c', c' ∈ before -> resolved h (ID (evt c')).

Definition sqs_justified `{MapRange} (overflow : spec_float -> Z) (a : sqs_action)
    (h : list sqs_action) : Prop :=
  match projT1 a with
  | inl (CbConfirm id) => exists e, e ∈ evts /\ ID e = id /\ accepted h e
  | inl (CbPoison id reason) => exists e, e ∈ evts /\ ID e = id /\ poison_reason overflow h e reason
  | inl _ => True
  | inr (BatchCall queue es) => request_ok queue es /\ fifo_turn h queue es
  | inr (BatchReturn queue es) => called queue es ∈ h
  | inr _ => True
  end.

(** *** Everything the invariant asks of the history is still true later *)

Lemma resolved_mono h h' id : h `sublist_of` h' -> resolved h id -> resolved h' id.
Proof.
  intros Hs [Hc|[reason Hp]]; [left|right; exists reason]; by eapply elem_of_sublist.
Qed.

Lemma sqs_justified_mono `{MapRange} overflow : history_monotone (sqs_justified overflow).
Proof.
  intros [[[id|id reason| |]|[cap|sem|sem|queue es|queue es]] r] h h' HJ Hs;
    unfold sqs_justified in *; simpl in *; try done.
  - destruct HJ as (e & He & Hid & es & rs & b & Hr & Hb). exists e. split_and!; [done..|].
    exists es, rs, b. split; [by eapply elem_of_sublist|done].
  - destruct HJ as (e & He & Hid & Hr). exists e. split_and!; [done..|].
    destruct Hr; [by constructor 1|by constructor 2|by econstructor 3|..].
    + eapply poison_request; [by eapply elem_of_sublist|done..].
    + eapply poison_entry; [by eapply elem_of_sublist|done..].
  - destruct HJ as [Hok Ht]. split; [done|]. intros Hf.
    destruct (Ht Hf) as (g & before & c & after & b & Hg & -> & Hgid & Hb & Hres).
    exists g, before, c, after, b. split_and!; [done..|].
    intros c' Hc'. eapply resolved_mono; [done|auto].
  - by eapply elem_of_sublist.
Qed.

End contract.

(** ** The proof, operation by operation *)

Section safety.
Context `{GoRuntime} `{MapRange} (overflow : spec_float -> Z) (callbacks : Callbacks).
Context (evts : list Event) (sha256_32 : forall s, String.length (sha256_Sum256 s) = 32).

Abbreviation swp := (wp sqs_contract (sqs_justified evts overflow)).

Implicit Types (h : list sqs_action) (queue : string) (e : Event) (p : sqsPreparedEvent).

Lemma resolved_prefix h h' id : h `prefix_of` h' -> resolved h id -> resolved h' id.
Proof. intros [k ->]. apply resolved_mono. by apply sublist_inserts_r. Qed.

Lemma in_prefix h h' (a : sqs_action) : h `prefix_of` h' -> a ∈ h -> a ∈ h'.
Proof. intros [k ->] ?. set_solver. Qed.

(** *** Actions *)

Lemma wp_call h (c : sqs_cmd) (Q : _ -> sqs_resp c -> Prop) :
  (forall r, sqs_contract (existT (inr c) r) ->
     sqs_justified evts overflow (existT (inr c) r) h /\ Q (h ++ [existT (inr c) r]) r) ->
  swp h (call c) Q.
Proof. apply wp_command. Qed.

(** *** Callbacks *)

Lemma wp_poison h e reason (Q : _ -> unit -> Prop) :
  e ∈ evts -> poison_reason overflow h e reason ->
  (forall h', h `prefix_of` h' -> resolved h' (ID e) -> Q h' tt) ->
  swp h (AddPoisonID (ID e) reason) Q.
Proof.
  intros He Hr HQ. apply wp_callback; [by exists e|].
  apply HQ; [by apply prefix_app_r|]. right. exists reason. set_solver.
Qed.

Lemma wp_confirm h e (Q : _ -> unit -> Prop) :
  e ∈ evts -> accepted h e ->
  (forall h', h `prefix_of` h' -> resolved h' (ID e) -> Q h' tt) ->
  swp h (AddConfirmedID (ID e)) Q.
Proof.
  intros He Ha HQ. apply wp_callback; [by exists e|].
  apply HQ; [by apply prefix_app_r|]. left. set_solver.
Qed.

Lemma wp_ReportFailure h message signature (Q : _ -> unit -> Prop) :
  (forall h', h `prefix_of` h' -> Q h' tt) ->
  swp h (ReportFailure callbacks message signature) Q.
Proof.
  intros HQ. apply wp_optional; [done|]. intros t _. apply HQ. by apply prefix_app_r.
Qed.

Lemma wp_Progress h (Q : _ -> unit -> Prop) :
  (forall h', h `prefix_of` h' -> Q h' tt) -> swp h (Progress callbacks) Q.
Proof.
  intros HQ. apply wp_optional; [done|]. intros t _. apply HQ. by apply prefix_app_r.
Qed.

Lemma wp_RejectMalformedOptions h e field err (Q : _ -> unit -> Prop) :
  e ∈ evts -> poison_reason overflow h e (error_text err) ->
  (forall h', resolved h' (ID e) -> Q h' tt) ->
  swp h (RejectMalformedOptions callbacks sqs_Target e field err) Q.
Proof.
  intros He Hr HQ. apply wp_bind. apply wp_poison; [done..|].
  intros h1 _ Hres. apply wp_ReportFailure. intros h2 Hp. apply HQ. by eapply resolved_prefix.
Qed.

(** *** [collect_some] *)

Lemma wp_collect_some {A B} (f : A -> sqs_prog (option B)) (P : A -> list sqs_action -> option B -> Prop)
    xs h :
  (forall x h h' r, h `prefix_of` h' -> P x h r -> P x h' r) ->
  (forall x h, x ∈ xs -> swp h (f x) (P x)) ->
  swp h (collect_some f xs) (fun h' ys =>
    exists rs, Forall2 (fun x r => P x h' r) xs rs /\ ys = omap id rs).
Proof.
  intros HP Hf. unfold collect_some.
  apply (wp_for_each _ _ _ _ (fun done _ h' ys =>
    exists rs, Forall2 (fun x r => P x h' r) done rs /\ ys = omap id rs)).
  - exists []. done.
  - intros done x rest h1 ys -> (rs & Hrs & ->). apply wp_bind.
    eapply wp_mono; [apply Hf; set_solver|]. intros h2 r Hpre Hr. apply wp_ret.
    exists (rs ++ [r]). split.
    + apply Forall2_app; [|by constructor].
      eapply Forall2_impl; [done|]. intros y s. by apply HP.
    + rewrite omap_app. destruct r; [done|]. by rewrite app_nil_r.
  - done.
Qed.

(** *** Preparing events *)

Lemma wp_parseSQSCandidate e h :
  e ∈ evts ->
  swp h (parseSQSCandidate callbacks e) (fun h' r =>
    r = sqs_candidate e /\ (r = None -> resolved h' (ID e))).
Proof.
  intros He. unfold parseSQSCandidate, sqs_candidate.
  destruct (Options_String (EvtOptions e) "messageGroupId") as [err|okey] eqn:Ho.
  - apply wp_bind, wp_RejectMalformedOptions; [done|by apply poison_options; left|].
    intros h' Hr. by apply wp_ret.
  - by apply wp_ret.
Qed.

(** A prepared event and the event it was made from. *)
Record prepared_for queue e p : Prop := {
  pf_entry : entry_for queue e (entry p);
  pf_log : log_ID (log p) = ID e;
  pf_size : messageSize p = entry_size (entry p);
}.

Lemma prepared_size queue e p : prepared_for queue e p -> (messageSize p <= sqsEventMaxSizeByte)%Z.
Proof.
  intros [[_ _ _ Ha _ _ _] _ ->]. unfold entry_size, sqsEventMaxSizeByte.
  destruct Ha. lia.
Qed.

Lemma entry_of_prepared queue c attributes dedup trace delay :
  sqs_acceptable (Payload (evt c)) (default ∅ attributes) (orderingKey c) dedup delay ->
  sqsAttributes (EvtOptions (evt c)) = inr attributes ->
  entry_for queue (evt c)
    (prepared_entry c (strings_HasSuffix queue ".fifo") attributes dedup trace delay).
Proof.
  intros [Hb Hs Hn Ha Hg Hd Hdel] Hattr. unfold prepared_entry.
  assert (Hgroup : sqs_fifo_id (fifoGroupID c)).
  { unfold fifoGroupID. case_bool_decide; [by destruct Hg|]. by apply syntheticFIFOGroupID_ok. }
  assert (Hdedup : sqs_fifo_id (if bool_decide (dedup <> "") then dedup
                                else providerSafeID (fmt_Sprint (ID (evt c))) sqsFIFOIDPattern)).
  { case_bool_decide; [by destruct Hd|]. by apply deduplication_id_ok. }
  split; simpl; [done|by apply entry_id_ok|done| | | |by eapply sqsAttributes_tidy].
  - split; try done; destruct (strings_HasSuffix _ _); auto; done.
  - by destruct (strings_HasSuffix _ _).
  - intros R. exact (proj1 (sqsAttributes_order _ R _ _) Hattr).
Qed.

Lemma wp_prepareSQSEvent c queue h :
  evt c ∈ evts -> sqs_candidate (evt c) = Some c ->
  swp h (prepareSQSEvent overflow callbacks c queue (strings_HasSuffix queue ".fifo")) (fun h' r =>
    match r with
    | Some p => prepared_for queue (evt c) p
                /\ (strings_HasSuffix queue ".fifo" = true -> MessageGroupID (entry p) = fifoGroupID c)
    | None => resolved h' (ID (evt c))
    end).
Proof.
  intros He Hc. unfold prepareSQSEvent.
  assert (Hreject : forall field err (Q : _ -> option sqsPreparedEvent -> Prop),
    poison_reason overflow h (evt c) (error_text err) ->
    (forall h', resolved h' (ID (evt c)) -> Q h' None) ->
    swp h (bind (RejectMalformedOptions callbacks sqs_Target (evt c) field err)
             (fun _ => Ret None)) Q).
  { intros field err Q Hr HQ. apply wp_bind, wp_RejectMalformedOptions; [done..|].
    intros h' Hres. by apply wp_ret, HQ. }
  unfold sqs_candidate in Hc.
  destruct (Options_String (EvtOptions (evt c)) "messageGroupId") as [|okey] eqn:Ho; [done|].
  assert (orderingKey c = okey) as <- by by destruct c; simplify_eq/=.
  destruct (sqsAttributes (EvtOptions (evt c))) as [err|attributes] eqn:Ha.
  { apply Hreject; [apply poison_options; tauto|done]. }
  destruct (Options_String (EvtOptions (evt c)) "messageDeduplicationId") as [err|dedup] eqn:Hd.
  { apply Hreject; [apply poison_options; tauto|done]. }
  destruct (sqsDelaySeconds overflow (EvtOptions (evt c))) as [err|delay] eqn:Hdel.
  { apply Hreject; [apply poison_options; tauto|done]. }
  destruct (sqsAWSTraceHeader (EvtOptions (evt c))) as [err|trace] eqn:Ht.
  { apply Hreject; [apply poison_options; tauto|done]. }
  destruct (isSQSPoison _ _ _ _ _) eqn:Hp.
  - apply wp_bind, wp_poison; [done| |].
    { eapply poison_local; [done..|]. rewrite <- isSQSPoison_acceptable. by rewrite Hp. }
    intros h1 _ Hres. apply wp_bind, wp_ReportFailure. intros h2 Hpre. apply wp_ret.
    by eapply resolved_prefix.
  - apply isSQSPoison_acceptable in Hp. apply wp_ret. split; [split|]; simpl.
    + by apply entry_of_prepared.
    + done.
    + done.
    + by intros ->.
Qed.

(** *** A batch request *)

Lemma entry_log_spec (ps : list sqsPreparedEvent) id :
  id ∈ entry_ID <$> (entry <$> ps) ->
  exists p, p ∈ ps /\ entry_ID (entry p) = id /\ entry_log (logs_by_entry ps) id = log p.
Proof.
  unfold entry_log, logs_by_entry. generalize (∅ : gmap string PublishLog).
  induction ps as [|q ps IH] using rev_ind; intros m Hid; [by apply elem_of_nil in Hid|].
  rewrite foldl_snoc. destruct (decide (id = entry_ID (entry q))) as [->|Hne].
  - exists q. rewrite lookup_insert_eq. set_solver.
  - rewrite lookup_insert_ne by done. destruct (IH m) as (p & Hp & Hpid & Hlog).
    { rewrite !fmap_app in Hid. set_solver. }
    exists p. set_solver.
Qed.

Definition ready h queue (ps : list sqsPreparedEvent) : Prop :=
  request_ok evts queue (entry <$> ps) /\ fifo_turn evts h queue (entry <$> ps)
  /\ forall p, p ∈ ps -> exists e, e ∈ evts /\ Destination e = queue /\ prepared_for queue e p.

Definition batch_done (ps : list sqsPreparedEvent) h (r : bool * option error) : Prop :=
  r.2 = None -> r.1 = true /\ forall p, p ∈ ps -> exists p', p' ∈ ps
    /\ entry_ID (entry p') = entry_ID (entry p) /\ resolved h (log_ID (log p')).

(** The entries of a response, looked up in the request. *)
Definition entry_done (ps : list sqsPreparedEvent) h (id : string) : Prop :=
  resolved h (log_ID (entry_log (logs_by_entry ps) id)).

Lemma entry_done_prefix ps h h' id :
  h `prefix_of` h' -> entry_done ps h id -> entry_done ps h' id.
Proof. apply resolved_prefix. Qed.

Lemma wp_successes queue ps r h :
  ready h queue ps -> reports_entries (entry <$> ps) r ->
  returned queue (entry <$> ps) (inr r) ∈ h ->
  swp h (for_each (Successful r) (report_success (logs_by_entry ps)) false) (fun h' any =>
    h `prefix_of` h' /\ (Successful r <> [] -> any = true)
    /\ forall s, s ∈ Successful r -> entry_done ps h' (success_ID s)).
Proof.
  intros (_ & _ & Hps) Hrep Hret.
  apply (wp_for_each _ _ _ _ (fun done _ h' any => h `prefix_of` h'
    /\ (done <> [] -> any = true) /\ forall s, s ∈ done -> entry_done ps h' (success_ID s))); [set_solver| |done].
  intros done s rest h1 any Hr (Hpre & _ & Hdone). unfold report_success.
  assert (Hs : success_ID s ∈ entry_ID <$> (entry <$> ps)).
  { apply Hrep. left. apply list_elem_of_fmap_2. rewrite Hr. set_solver. }
  destruct (entry_log_spec ps _ Hs) as (p & Hp & Hpid & Hlog).
  destruct (Hps p Hp) as (e & He & Hq & [Hentry Hid Hsize]).
  rewrite Hlog, Hid. apply wp_bind, wp_confirm; [done| |].
  - exists (entry <$> ps), r, (entry p). subst queue. split_and!; [by eapply in_prefix| | |done].
    + by apply list_elem_of_fmap_2.
    + rewrite Hpid. apply list_elem_of_fmap_2. rewrite Hr. set_solver.
  - intros h2 Hpre2 Hres. apply wp_ret. split_and!; [by trans h1|done|].
    intros s' [Hs'| ->%list_elem_of_singleton]%elem_of_app.
    + eapply entry_done_prefix; [done|auto].
    + unfold entry_done. by rewrite Hlog, Hid.
Qed.

Lemma wp_failures queue ps r h any :
  ready h queue ps -> reports_entries (entry <$> ps) r ->
  returned queue (entry <$> ps) (inr r) ∈ h ->
  swp h (for_each (Failed r) (report_failure callbacks queue (logs_by_entry ps)) (any, None))
    (fun h' st => h `prefix_of` h' /\
      (st.2 = None -> (any = true \/ Failed r <> [] -> st.1 = true)
        /\ forall f, f ∈ Failed r -> entry_done ps h' (failure_ID f))).
Proof.
  intros (_ & _ & Hps) Hrep Hret.
  apply (wp_for_each _ _ _ _ (fun done _ h' st => h `prefix_of` h'
    /\ (st.2 = None -> (any = true \/ done <> [] -> st.1 = true)
         /\ forall f, f ∈ done -> entry_done ps h' (failure_ID f)))); [set_solver| |done].
  intros done f rest h1 [any1 rejected] Hr [Hpre Hdone]. unfold report_failure.
  assert (Hf : failure_ID f ∈ entry_ID <$> (entry <$> ps)).
  { apply Hrep. right. apply list_elem_of_fmap_2. rewrite Hr. set_solver. }
  destruct (entry_log_spec ps _ Hf) as (p & Hp & Hpid & Hlog).
  destruct (Hps p Hp) as (e & He & Hq & [Hentry Hid Hsize]).
  apply wp_bind. destruct (SenderFault f) eqn:Hfault.
  - apply wp_bind. rewrite Hlog, Hid. apply wp_poison; [done| |].
    { subst queue. eapply poison_entry; [by eapply in_prefix|rewrite Hr; set_solver|done|].
      rewrite <- Hpid. by destruct Hentry. }
    intros h2 Hpre2 Hres. apply wp_ret, wp_bind, wp_ReportFailure. intros h3 Hpre3.
    apply wp_ret. split; [by trans h1; [|trans h2]|]. simpl in *.
    intros Hnone. split; [done|]. intros f' [Hf'| ->%list_elem_of_singleton]%elem_of_app.
    + eapply entry_done_prefix; [by trans h2|]. by apply Hdone.
    + unfold entry_done. rewrite Hlog, Hid. by eapply resolved_prefix.
  - apply wp_ret, wp_bind, wp_ReportFailure. intros h2 Hpre2. apply wp_ret.
    split; [by trans h1|]. simpl. intros Hnone%errors_Join_None.
    apply Forall_cons in Hnone as [_ Hnone]. by apply Forall_cons in Hnone as [? _].
Qed.

Lemma batch_done_sublist ps h h' r : h `sublist_of` h' -> batch_done ps h r -> batch_done ps h' r.
Proof.
  intros Hs Hd Hnone. destruct (Hd Hnone) as [Hany Hps]. split; [done|]. intros p Hp.
  destruct (Hps p Hp) as (p' & ? & ? & ?). exists p'. split_and!; [done..|]. by eapply resolved_mono.
Qed.

Lemma batch_done_prefix ps h h' r : h `prefix_of` h' -> batch_done ps h r -> batch_done ps h' r.
Proof. intros [k ->]. apply batch_done_sublist. by apply sublist_inserts_r. Qed.

Lemma ready_prefix h h' queue ps : h `prefix_of` h' -> ready h queue ps -> ready h' queue ps.
Proof.
  intros Hpre (Hok & Hturn & Hps). split_and!; [done| |done].
  intros Hf. destruct (Hturn Hf) as (g & before & c & after & b & ? & ? & ? & ? & Hres).
  exists g, before, c, after, b. split_and!; [done..|]. intros c' Hc'.
  eapply resolved_prefix; eauto.
Qed.

(** A response that answers every entry. *)
Lemma wp_answered queue ps r h first :
  ready h queue ps -> reports_entries (entry <$> ps) r -> first ∈ ps ->
  returned queue (entry <$> ps) (inr r) ∈ h ->
  swp h (do! anyDone <- for_each (Successful r) (report_success (logs_by_entry ps)) false;
         for_each (Failed r) (report_failure callbacks queue (logs_by_entry ps)) (anyDone, None)) (batch_done ps).
Proof.
  intros Hready Hrep Hfirst Hret. apply wp_bind. eapply wp_mono; [by apply (wp_successes queue ps r)|].
  intros h3 any _ (Hpre3 & Hany & Hsucc). eapply wp_mono.
  { apply (wp_failures queue ps r); [by eapply ready_prefix|exact Hrep|by eapply in_prefix]. }
  intros h4 st _ [Hpre4 Hfail] Hnone. destruct (Hfail Hnone) as [Htrue Hfailed].
  assert (Hanswer : forall p, p ∈ ps -> entry_ID (entry p) ∈ entry_ID <$> (entry <$> ps)).
  { intros p Hp. by do 2 apply list_elem_of_fmap_2. }
  split.
  - apply Htrue. destruct (proj1 (Hrep (entry_ID (entry first))) (Hanswer _ Hfirst)) as [Hs|Hs].
    + left. apply Hany. intros Hnil. rewrite Hnil in Hs. by apply elem_of_nil in Hs.
    + right. intros Hnil. rewrite Hnil in Hs. by apply elem_of_nil in Hs.
  - intros p Hp. destruct (entry_log_spec ps _ (Hanswer p Hp)) as (p' & Hp' & Hpid & Hlog).
    exists p'. split_and!; [done..|]. rewrite <- Hlog. change (entry_done ps h4 (entry_ID (entry p))).
    destruct (proj1 (Hrep (entry_ID (entry p))) (Hanswer p Hp)) as [Hin|Hin].
    + apply list_elem_of_fmap in Hin as (s & -> & Hs). eapply entry_done_prefix; [done|auto].
    + apply list_elem_of_fmap in Hin as (f & -> & Hf). by apply Hfailed.
Qed.

Lemma wp_sendSQSBatch_with iso queue ps h :
  ready h queue ps ->
  (2 <= length ps -> forall h', h `prefix_of` h' ->
     swp h' (iso queue ps) (fun h2 r => batch_done ps h2 r)) ->
  swp h (sendSQSBatch_with callbacks iso queue ps) (batch_done ps).
Proof.
  intros Hready Hiso. destruct ps as [|first rest].
  { by destruct Hready as [[_ [Hc _]] _]; simpl in Hc; lia. }
  set (ps := first :: rest) in *. unfold sendSQSBatch_with. cbv zeta. fold ps.
  apply wp_bind. eapply wp_mono with (Q := batch_done ps).
  2:{ intros h' r Hpre Hr. apply wp_bind, wp_Progress. intros h2 Hpre2. apply wp_ret.
      by eapply batch_done_prefix. }
  apply wp_bind, wp_call. intros [] _. split; [by destruct Hready as (? & ? & _)|].
  apply wp_bind, wp_call. intros response Hrep. split.
  { unfold sqs_justified. simpl. set_solver. }
  set (h2 := (_ ++ _) ++ _). assert (Hret : returned queue (entry <$> ps) response ∈ h2)
    by (unfold h2; set_solver).
  assert (Hpre : h `prefix_of` h2) by (unfold h2; rewrite <- (assoc_L (++)); by apply prefix_app_r).
  pose proof (ready_prefix _ _ _ _ Hpre Hready) as Hready2.
  clearbody h2. destruct response as [err|r].
  - destruct (isSQSPermanentRequestError err) eqn:Hperm.
    + destruct rest as [|second rest']; [|apply Hiso; [simpl; lia|done]].
      destruct Hready2 as (_ & _ & Hps).
      destruct (Hps first) as (e & He & Hq & [Hentry Hid Hsize]); [set_solver|].
      rewrite Hid. subst queue. apply wp_bind, wp_poison;
        [done|by apply (poison_request _ _ _ (entry first))|].
      intros h3 Hpre3 Hres. apply wp_bind, wp_ReportFailure. intros h4 Hpre4.
      apply wp_ret. intros _. split; [done|]. intros p ->%list_elem_of_singleton. exists first. rewrite Hid.
      split_and!; [set_solver|done|]. by eapply resolved_prefix.
    + apply wp_bind, wp_ReportFailure. intros h3 Hpre3. by apply wp_ret.
  - by apply (wp_answered queue ps r h2 first); [done..|set_solver|].
Qed.

Lemma ready_single h queue ps p :
  2 <= length ps -> p ∈ ps -> ready h queue ps -> forall h', ready h' queue [p].
Proof.
  intros Hlen Hp ([Hurl Hcount Hsize Hentries Hfifo] & _ & Hps) h'.
  assert (Hf : strings_HasSuffix queue ".fifo" = false).
  { destruct (strings_HasSuffix queue ".fifo"); [|done].
    rewrite length_fmap in Hfifo. specialize (Hfifo eq_refl). lia. }
  destruct (Hps p Hp) as (e & He & Hq & Hpf). split_and!.
  - split; [done|simpl; lia| |intros b Hb; apply Hentries; set_solver|by rewrite Hf].
    simpl. pose proof (prepared_size _ _ _ Hpf) as Hs. destruct Hpf as [_ _ Hsz].
    rewrite Hsz in Hs. unfold sqsEventMaxSizeByte in Hs. lia.
  - intros Hf'. congruence.
  - intros p' ->%list_elem_of_singleton. by exists e.
Qed.

Lemma wp_sendSQSBatch queue ps h :
  ready h queue ps -> swp h (sendSQSBatch callbacks queue ps) (batch_done ps).
Proof.
  intros Hready. apply wp_sendSQSBatch_with; [done|].
  intros Hlen h' Hpre. unfold sendSQSBatchIsolated, isolated_with.
  apply (wp_for_each _ _ _ _ (fun done _ h' st =>
    st.2 = None -> (done <> [] -> st.1 = true) /\ forall p, p ∈ done -> resolved h' (log_ID (log p)))).
  - set_solver.
  - intros done p rest h1 [any joined] Hps Hdone. apply wp_bind. eapply wp_mono.
    { apply wp_sendSQSBatch_with; [|simpl; lia].
      eapply (ready_single h queue ps); [done|rewrite Hps; set_solver|done]. }
    intros h2 r Hpre2 Hr. apply wp_ret. simpl. intros Hnone.
    assert (r.2 = None /\ joined = None) as [Hr2 Hj].
    { destruct r.2; [|done]. exfalso. apply errors_Join_None in Hnone.
      apply Forall_cons in Hnone as [_ Hnone]. by apply Forall_cons in Hnone as [? _]. }
    destruct (Hr Hr2) as [Hany Hsent]. rewrite Hany, orb_true_r. split; [done|].
    intros p' [Hp'| ->%list_elem_of_singleton]%elem_of_app.
    + eapply resolved_prefix; [done|]. by apply Hdone.
    + destruct (Hsent p) as (p2 & ->%list_elem_of_singleton & _ & Hres); [set_solver|done].
  - intros h2 r Hr Hnone. destruct (Hr Hnone) as [Hany Hps]. split.
    { apply Hany. by destruct ps; simpl in *; [lia|]. }
    intros p Hp. exists p. auto.
Qed.

Lemma wp_sendSQSBatchWithSemaphore sem queue ps h :
  ready h queue ps ->
  swp h (sendSQSBatchWithSemaphore callbacks sem queue ps) (batch_done ps).
Proof.
  intros Hready. apply wp_bind, wp_call. intros acquired _. split; [done|].
  destruct acquired as [err|]; [apply wp_ret; intros [=]|].
  apply wp_bind. eapply wp_mono; [apply wp_sendSQSBatch; eapply ready_prefix; [|done]; by apply prefix_app_r|].
  intros h1 r Hpre Hr. apply wp_bind, wp_call. intros [] _. split; [done|]. apply wp_ret.
  eapply batch_done_prefix; [|exact Hr]. by apply prefix_app_r.
Qed.

(** *** Queues *)

(** Every event of [es] is resolved, up to events that share its batch entry id. *)
Definition all_done (es : list Event) h : Prop :=
  forall e, e ∈ es -> exists e', e' ∈ es /\ sqs_entry_id e' = sqs_entry_id e /\ resolved h (ID e').

Lemma chunk_request queue chunk :
  validSQSQueueURL queue = true -> strings_HasSuffix queue ".fifo" = false ->
  (forall p, p ∈ chunk -> exists e, e ∈ evts /\ Destination e = queue /\ prepared_for queue e p) ->
  chunk_ok chunk -> forall h, ready h queue chunk.
Proof.
  intros Hurl Hf Hps [Hlen Hsize] h. split_and!; [|intros ?; congruence|done].
  assert (request_size (entry <$> chunk) = chunk_size chunk) as Heq.
  { clear -Hps. unfold request_size, chunk_size. induction chunk as [|p chunk IH]; csimpl; [done|].
    rewrite IH by set_solver.
    destruct (Hps p) as (e & _ & _ & [_ _ Hs]); [set_solver|]. by rewrite Hs. }
  split; [done|by rewrite length_fmap|by rewrite Heq| |congruence].
  intros b (p & -> & Hp)%list_elem_of_fmap. destruct (Hps p Hp) as (e & ? & ? & [? _ _]). by exists e.
Qed.

Lemma wp_sendSQSStandardEvents sem queue ps h :
  validSQSQueueURL queue = true -> strings_HasSuffix queue ".fifo" = false ->
  (forall p, p ∈ ps -> exists e, e ∈ evts /\ Destination e = queue /\ prepared_for queue e p) ->
  swp h (sendSQSStandardEvents callbacks sem queue ps) (fun h' err => h `sublist_of` h'
    /\ (err = None -> forall p, p ∈ ps -> exists p', p' ∈ ps
         /\ entry_ID (entry p') = entry_ID (entry p) /\ resolved h' (log_ID (log p')))).
Proof.
  intros Hurl Hf Hps.
  destruct (chunkSQSStandardEvents_chunks ps) as [Hcat Hok].
  { apply Forall_forall. intros p Hp. destruct (Hps p Hp) as (e & _ & _ & Hpf).
    by eapply prepared_size. }
  unfold sendSQSStandardEvents. eapply wp_mono.
  { apply (wp_RunConcurrent _ _ _ _ _ (fun chunk h err =>
      err = None -> batch_done chunk h (true, None))); [apply sqs_justified_mono|].
    intros chunk Hchunk. apply wp_bind. eapply wp_mono.
    { apply wp_sendSQSBatchWithSemaphore, chunk_request; [done..| |].
      - intros p Hp. apply Hps. rewrite <- Hcat. apply elem_of_concat. by exists chunk.
      - by eapply Forall_forall in Hok. }
    intros h' r _ Hr. apply wp_ret. intros Hnone _. split; [done|]. by apply Hr. }
  intros h' err _ [Hsub Hall]. split; [done|]. intros Hnone p Hp.
  rewrite <- Hcat in Hp. apply elem_of_concat in Hp as (chunk & Hchunk & Hp).
  assert (Hdone : batch_done chunk h' (true, None)).
  { eapply (concurrent_none _ (fun chunk h => batch_done chunk h (true, None)));
      [|exact Hall|done|done].
    intros c h1 h2. apply batch_done_sublist. }
  destruct Hdone as [_ Hdone]; [done|]. destruct (Hdone p Hp) as (p' & Hp' & Hid & Hres). exists p'. split_and!; [|done..].
  rewrite <- Hcat. apply elem_of_concat. by exists chunk.
Qed.

Lemma wp_send_fifo_group sem queue group h :
  validSQSQueueURL queue = true -> strings_HasSuffix queue ".fifo" = true ->
  swp h (send_fifo_group overflow callbacks sem queue (fifo_group evts queue group))
    (fun h' err => err = None -> forall c, c ∈ fifo_group evts queue group -> resolved h' (ID (evt c))).
Proof.
  intros Hurl Hf. apply wp_bind.
  assert (Hgroup : forall c, c ∈ fifo_group evts queue group ->
    evt c ∈ evts /\ Destination (evt c) = queue /\ sqs_candidate (evt c) = Some c
    /\ fifoGroupID c = group).
  { intros c (Hg & (e & (Hq & He)%list_elem_of_filter & Hc)%list_elem_of_omap)%list_elem_of_filter.
    unfold sqs_candidate in *. destruct (Options_String (EvtOptions e) _) eqn:Ho; simplify_eq/=.
    rewrite Ho. done. }
  apply (wp_for_loop _ _ _ _ (fun done _ h' _ => forall c, c ∈ done -> resolved h' (ID (evt c)))).
  { set_solver. }
  2:{ intros h' [] Hr. by apply wp_ret. }
  intros done c rest h1 [] Hsplit Hdone. unfold send_fifo_event.
  destruct (Hgroup c) as (He & Hq & Hcand & Hg); [rewrite Hsplit; set_solver|].
  apply wp_bind. eapply wp_mono.
  { pose proof (wp_prepareSQSEvent c queue h1 He Hcand) as Hprep. rewrite Hf in Hprep. exact Hprep. }
  intros h2 [p|] Hpre2 Hp.
  2:{ apply wp_ret. intros c' [Hc'| ->%list_elem_of_singleton]%elem_of_app; [|done].
      eapply resolved_prefix; eauto. }
  destruct Hp as [Hpf Hgid]. apply wp_bind. eapply wp_mono.
  { apply (wp_sendSQSBatchWithSemaphore sem queue [p]). split_and!.
    - split; [done|simpl; lia| | |done].
      + simpl. pose proof (prepared_size _ _ _ Hpf) as Hs. destruct Hpf as [_ _ Hsz].
        rewrite Hsz in Hs. unfold sqsEventMaxSizeByte in Hs. lia.
      + intros b ->%list_elem_of_singleton. exists (evt c). by destruct Hpf.
    - intros _. exists group, done, c, rest, (entry p). split_and!; [done|done| | |].
      + by rewrite Hgid.
      + by destruct Hpf.
      + intros c' Hc'. eapply resolved_prefix; eauto.
    - intros p' ->%list_elem_of_singleton. by exists (evt c). }
  intros h3 [any [err|]] Hpre3 Hr; simpl; [by apply wp_ret, wp_ret|].
  destruct (Hr eq_refl) as [Hany Hsent]. simpl in Hany. subst any. apply wp_ret.
  intros c' [Hc'| ->%list_elem_of_singleton]%elem_of_app.
  - eapply resolved_prefix; [by trans h2|auto].
  - destruct (Hsent p) as (p' & ->%list_elem_of_singleton & _ & Hres); [set_solver|].
    destruct Hpf as [_ Hlog _]. by rewrite <- Hlog.
Qed.

Lemma wp_sendSQSFIFOEvents sem queue h :
  validSQSQueueURL queue = true -> strings_HasSuffix queue ".fifo" = true ->
  swp h (sendSQSFIFOEvents overflow callbacks sem queue
           (omap sqs_candidate (filter (fun e => Destination e = queue) evts)))
    (fun h' err => h `sublist_of` h' /\ (err = None ->
       forall e, e ∈ evts -> Destination e = queue -> sqs_candidate e <> None -> resolved h' (ID e))).
Proof.
  intros Hurl Hf. set (cands := omap _ _). unfold sendSQSFIFOEvents.
  pose proof (group_by_order_spec fifoGroupID cands) as Hspec.
  destruct (group_by_order fifoGroupID cands) as [groups order] eqn:Hg.
  destruct Hspec as (Hgroups & Hnodup & Horder). simpl in Hgroups, Hnodup, Horder.
  assert (Hgrp : forall g, default [] (groups !! g) = fifo_group evts queue g).
  { intros g. rewrite Hgroups. apply group_by_default. }
  eapply wp_mono.
  { apply (wp_RunConcurrent _ _ _ _ _ (fun g h' err => err = None ->
      forall c, c ∈ fifo_group evts queue g -> resolved h' (ID (evt c)))); [apply sqs_justified_mono|].
    intros g _. rewrite Hgrp. by apply wp_send_fifo_group. }
  intros h' err _ [Hsub Hall]. split; [done|]. intros Hnone e He Hq Hc.
  destruct (sqs_candidate e) as [c|] eqn:Hcand; [|done].
  assert (Hce : evt c = e).
  { unfold sqs_candidate in Hcand. destruct (Options_String _ _); by simplify_eq/=. }
  assert (Hin : c ∈ cands).
  { apply list_elem_of_omap. exists e. split; [|done]. by apply list_elem_of_filter. }
  rewrite <- Hce. eapply (concurrent_none order (fun g h =>
    forall c, c ∈ fifo_group evts queue g -> resolved h (ID (evt c))) _ _) with (x := fifoGroupID c);
    [|exact Hall|done| |].
  - intros g h1 h2 Hs Hr c' Hc'. eapply resolved_mono; eauto.
  - apply Horder. rewrite group_by_lookup. assert (Hin2 : c ∈ filter (fun x => fifoGroupID x = fifoGroupID c) cands)
      by by apply list_elem_of_filter.
    destruct (filter _ cands); [by apply elem_of_nil in Hin2|by eexists].
  - by apply list_elem_of_filter.
Qed.

(** A queue whose URL is invalid: every event is rejected. *)
Lemma wp_invalid_queue sem queue es h :
  validSQSQueueURL queue = false -> (forall e, e ∈ es -> e ∈ evts /\ Destination e = queue) ->
  swp h (sendSQSQueueEvents overflow callbacks sem (MkQueueEvents queue es)) (fun h' err =>
    h `sublist_of` h' /\ (err = None -> all_done es h')).
Proof.
  intros Hurl Hes. unfold sendSQSQueueEvents. simpl. rewrite Hurl. simpl. apply wp_bind.
  apply (wp_mono _ _ _ _ (fun h' _ => forall e, e ∈ es -> resolved h' (ID e))).
  { apply (wp_for_each _ _ _ _ (fun done _ h' _ => forall e, e ∈ done -> resolved h' (ID e)));
      [set_solver| |done].
    intros done e rest h1 [] Hsplit Hdone. destruct (Hes e) as [He Hq]; [rewrite Hsplit; set_solver|].
    apply wp_poison; [done|apply poison_url; by rewrite Hq|]. intros h2 Hpre Hres.
    intros e' [He'| ->%list_elem_of_singleton]%elem_of_app; [|done].
    eapply resolved_prefix; eauto. }
  intros h1 _ Hpre1 Hdone. apply wp_bind, wp_ReportFailure. intros h2 Hpre2. apply wp_ret.
  split; [by apply prefix_sublist; trans h1|]. intros _ e He. exists e.
  split_and!; [done..|]. eapply resolved_prefix; eauto.
Qed.

(** The candidates of a list of events come from its events. *)
Lemma candidate_of_event (es : list Event) c :
  c ∈ omap sqs_candidate es -> evt c ∈ es /\ sqs_candidate (evt c) = Some c.
Proof.
  intros (e & He & Hce)%list_elem_of_omap. unfold sqs_candidate in *.
  destruct (Options_String (EvtOptions e) _) eqn:Ho; simplify_eq/=. by rewrite Ho.
Qed.

Lemma candidate_evt e c : sqs_candidate e = Some c -> evt c = e.
Proof. unfold sqs_candidate. destruct (Options_String _ _); by intros; simplify_eq/=. Qed.

(** Every candidate was prepared, or its event rejected. *)
Definition prepared_or_done (queue : string) (c : sqsCandidateEvent) (h : list sqs_action)
    (r : option sqsPreparedEvent) : Prop :=
  match r with Some p => prepared_for queue (evt c) p | None => resolved h (ID (evt c)) end.

(** When the prepared events are done, the events are. *)
Lemma standard_done queue (es : list Event) rs h h' :
  Forall2 (fun c r => prepared_or_done queue c h r) (omap sqs_candidate es) rs -> h `sublist_of` h' ->
  (forall e, e ∈ es -> sqs_candidate e = None -> resolved h' (ID e)) ->
  (forall p, p ∈ omap id rs -> exists p', p' ∈ omap id rs
     /\ entry_ID (entry p') = entry_ID (entry p) /\ resolved h' (log_ID (log p'))) ->
  all_done es h'.
Proof.
  intros Hrs Hsub Hrej Hdone e He. destruct (sqs_candidate e) as [c|] eqn:Hce; [|exists e; by auto].
  assert (Hcin : c ∈ omap sqs_candidate es) by by apply list_elem_of_omap; exists e.
  apply candidate_evt in Hce as Hev. apply list_elem_of_lookup in Hcin as [i Hi].
  destruct (Forall2_lookup_l _ _ _ _ _ Hrs Hi) as ([p|] & Hri & Hpc).
  2: { exists e. split_and!; [done..|]. simpl in Hpc. rewrite Hev in Hpc. eapply resolved_mono; eauto. }
  destruct (Hdone p) as (p' & Hp' & Hid & Hres).
  { apply list_elem_of_omap. exists (Some p). split; [|done]. by eapply list_elem_of_lookup_2. }
  apply list_elem_of_omap in Hp' as (r' & Hr' & Hrp'). unfold id in Hrp'. subst r'.
  apply list_elem_of_lookup in Hr' as [j Hj].
  destruct (Forall2_lookup_r _ _ _ _ _ Hrs Hj) as (c' & Hcj & Hpc').
  apply list_elem_of_lookup_2, candidate_of_event in Hcj as [Hce' _].
  exists (evt c'). destruct Hpc as [Hef Hlog _], Hpc' as [Hef' Hlog' _].
  rewrite <- Hlog'. split_and!; [done| |done].
  rewrite <- (ef_id _ _ _ Hef'), <- Hev, <- (ef_id _ _ _ Hef). done.
Qed.

(** The standard queue: prepare, then send in chunks. *)
Lemma wp_standard_queue sem queue (es : list Event) h :
  validSQSQueueURL queue = true -> strings_HasSuffix queue ".fifo" = false ->
  (forall e, e ∈ es -> e ∈ evts /\ Destination e = queue) ->
  (forall e, e ∈ es -> sqs_candidate e = None -> resolved h (ID e)) ->
  swp h (do! prepared <- collect_some (fun c => prepareSQSEvent overflow callbacks c queue false) (omap sqs_candidate es);
         sendSQSStandardEvents callbacks sem queue prepared)
    (fun h' err => h `sublist_of` h' /\ (err = None -> all_done es h')).
Proof.
  intros Hurl Hf Hes Hrej. apply wp_bind. eapply wp_mono.
  { apply (wp_collect_some _ (prepared_or_done queue)).
    - intros c ha hb [p|] Hpre; [done|]. by apply resolved_prefix.
    - intros c ha [Hce Hcand]%candidate_of_event. eapply wp_mono.
      + pose proof (wp_prepareSQSEvent c queue ha) as Hprep. rewrite Hf in Hprep.
        apply Hprep; [by apply Hes|done].
      + intros hb [p|] _; [by intros [? _]|done]. }
  intros h2 prepared Hpre2 (rs & Hrs & ->). eapply wp_mono.
  { apply (wp_sendSQSStandardEvents sem queue); [done..|]. intros p (r & Hr & Hrp)%list_elem_of_omap.
    apply list_elem_of_lookup in Hr as [i Hi].
    destruct (Forall2_lookup_r _ _ _ _ _ Hrs Hi) as (c & Hci & Hpc). unfold id in Hrp. subst r.
    apply list_elem_of_lookup_2, candidate_of_event in Hci as [Hce _].
    exists (evt c). split_and!; [by apply Hes..|done]. }
  intros h3 err Hpre3 [Hsub Hdone]. split; [apply prefix_sublist; by trans h2|].
  intros Hnone. eapply standard_done; [exact Hrs|done| |by apply Hdone].
  intros e He Hno. eapply resolved_prefix; [by trans h2|auto].
Qed.

Lemma wp_sendSQSQueueEvents sem queue es h :
  es = filter (fun e => Destination e = queue) evts ->
  swp h (sendSQSQueueEvents overflow callbacks sem (MkQueueEvents queue es)) (fun h' err =>
    h `sublist_of` h' /\ (err = None -> all_done es h')).
Proof.
  intros ->. set (es := filter _ evts).
  assert (Hes : forall e, e ∈ es -> e ∈ evts /\ Destination e = queue).
  { intros e [? ?]%list_elem_of_filter. done. }
  destruct (validSQSQueueURL queue) eqn:Hurl; [|by apply wp_invalid_queue].
  unfold sendSQSQueueEvents. simpl. rewrite Hurl. simpl. apply wp_bind. eapply wp_mono.
  { apply (wp_collect_some _ (fun e h' r => r = sqs_candidate e /\ (r = None -> resolved h' (ID e)))).
    - intros e h1 h2 r Hpre [-> Hr]. split; [done|]. intros Hnone. eapply resolved_prefix; eauto.
    - intros e h1 He. apply wp_parseSQSCandidate. by apply Hes. }
  intros h1 cands Hpre1 (rs & Hrs & ->).
  assert (Hcands : omap id rs = omap sqs_candidate es).
  { clear -Hrs. induction Hrs as [|e r es rs [-> _] _ IH]; csimpl; [done|].
    rewrite IH. by destruct (sqs_candidate e). }
  assert (Hrejected : forall e, e ∈ es -> sqs_candidate e = None -> resolved h1 (ID e)).
  { intros e [i Hi]%list_elem_of_lookup Hnone.
    destruct (Forall2_lookup_l _ _ _ _ _ Hrs Hi) as (r & _ & -> & Hr). auto. }
  rewrite Hcands. destruct (strings_HasSuffix queue ".fifo") eqn:Hf.
  - eapply wp_mono; [by apply wp_sendSQSFIFOEvents|]. intros h2 err Hpre2 [Hsub Hdone].
    split; [by apply prefix_sublist; trans h1|]. intros Hnone e He. exists e. split_and!; [done..|].
    destruct (sqs_candidate e) as [c|] eqn:Hc.
    + apply Hdone; [done|by apply Hes..|by rewrite Hc].
    + eapply resolved_prefix; eauto.
  - eapply wp_mono; [by apply wp_standard_queue|]. intros h2 err Hpre2 [Hsub Hdone].
    split; [by apply prefix_sublist; trans h1|done].
Qed.

Lemma wp_sendSQSEventsWithCallbacks cfg h :
  swp h (sendSQSEventsWithCallbacks overflow callbacks cfg evts) (fun h' err =>
    err = None -> all_done evts h').
Proof.
  unfold sendSQSEventsWithCallbacks.
  set (groups := (fun '(q, es) => MkQueueEvents q es) <$> range (group_by Destination evts)).
  assert (Hgroups : forall g, g ∈ groups <->
    exists e, e ∈ evts /\ g = MkQueueEvents (Destination e)
                              (filter (fun e' => Destination e' = Destination e) evts)).
  { intros g. unfold groups. rewrite list_elem_of_fmap. split.
    - intros ([q es] & -> & Hq). apply elem_of_range in Hq. rewrite group_by_lookup in Hq.
      destruct (filter _ evts) as [|e es'] eqn:Hfe; [done|]. simplify_eq.
      assert (e ∈ filter (fun e => Destination e = q) evts) as [<- He]%list_elem_of_filter
        by (rewrite Hfe; set_solver).
      exists e. by rewrite Hfe.
    - intros (e & He & ->).
      exists (Destination e, filter (fun e' => Destination e' = Destination e) evts).
      split; [done|]. apply elem_of_range. rewrite group_by_lookup.
      assert (e ∈ filter (fun e' => Destination e' = Destination e) evts) as Hin
        by by apply list_elem_of_filter.
      destruct (filter _ evts); [by apply elem_of_nil in Hin|done]. }
  apply wp_bind, wp_call. intros sem _. split; [done|]. eapply wp_mono.
  { apply (wp_RunConcurrent _ _ _ _ _ (fun g h' err => err = None -> all_done (events g) h'));
      [apply sqs_justified_mono|].
    intros g (e & He & ->)%Hgroups. eapply wp_mono; [by apply wp_sendSQSQueueEvents|].
    by intros h' err _ [_ ?]. }
  intros h' err _ [Hsub Hall] Hnone e He.
  assert (Hd : all_done (filter (fun e' => Destination e' = Destination e) evts) h').
  { refine (concurrent_none groups (fun g h => all_done (events g) h) h' err _ Hall Hnone
      (MkQueueEvents (Destination e) _) _).
    - intros g h1 h2 Hs Hd e1 He1. destruct (Hd e1 He1) as (e2 & ? & ? & ?). exists e2.
      split_and!; [done..|]. by eapply resolved_mono.
    - apply Hgroups. eauto. }
  destruct (Hd e) as (e' & [_ He']%list_elem_of_filter & ? & ?);
    [by apply list_elem_of_filter|]. by exists e'.
Qed.

End safety.
