(* ===== verification/PubSub.v ===== *)
(** * The Pub/Sub sender ([pubsub/validation.go], [pubsub/sender.go])

    [Send] publishes the events without an ordering key together and awaits their results, then
    sends each ordering group concurrently, one message at a time.  A publish is two actions:
    [Publish] starts it and returns its result object, [Get] waits for the outcome of that
    message; between them the client has to be flushed.  Log lines and latencies are left out. *)
From Stdlib Require Import Floats.SpecFloat.
From S2P Require Import Prelude GoErrors Values Conc Provider SqsOptions.
Local Open Scope go_scope.

Definition pubsub_Target : string := "pubsub".
Definition pubsubMaxMessageDataBytes : Z := 10000000.
Definition pubsubMaxAttributes : Z := 100.
Definition pubsubMaxAttributeKeyBytes : Z := 256.
Definition pubsubMaxAttributeValueBytes : Z := 1024.
Definition pubsubPermanentBackendErrorCode : Z := 400.

Record Message := MkMessage {
  Topic : string;
  Data : string;
  OrderingKey : string;
  msg_Attributes : option (gmap string string);
}.

(** ** Validation *)

Definition pubsubTopicIDPattern (s : string) : bool :=
  match s with
  | EmptyString => false
  | String c rest =>
      (in_range "A" "Z" c || in_range "a" "z" c)
      && match_class (fun c => is_alnum c || string_elem c "._~+%-") 2 254 rest
  end.

(** The kept string attributes, and the dropped ones. *)
Definition sanitizeStringAttributes (attributes : option object)
    : option (gmap string string) * option object :=
  match attributes with
  | None => (None, None)
  | Some m =>
      (Some (omap (fun v => match v with VString s => Some s | _ => None end) m),
       Some (omap (fun v => match v with VString _ => None | v => Some v end) m))
  end.

Definition validPubSubTopicID (topicID : string) : bool :=
  negb (strings_HasPrefix (strings_ToLower topicID) "goog") && pubsubTopicIDPattern topicID.

Definition validPubSubTopic (topic : string) : bool :=
  match strings_Split topic "/" with
  | [p0; p1; p2; p3] =>
      bool_decide (p0 = "projects") && bool_decide (p1 <> "") && bool_decide (p2 = "topics")
      && validPubSubTopicID p3
  | _ => if strings_Contains topic "/" then false else validPubSubTopicID topic
  end.

Section validation.
Context `{MapRange}.

Definition valid_attribute (key v : string) : bool :=
  if bool_decide (key = "") then false
  else if ((pubsubMaxAttributeKeyBytes <? len key) || (pubsubMaxAttributeValueBytes <? len v))%Z
  then false
  else negb (strings_HasPrefix (strings_ToLower key) "goog").

Definition validPubSubAttributes (attributes : gmap string string) : bool :=
  if (pubsubMaxAttributes <? Z.of_nat (size attributes))%Z then false
  else forallb (fun '(key, v) => valid_attribute key v) (range attributes).

Definition pubsubPoisonReason (message : Message) : option string :=
  let attributes := default ∅ (msg_Attributes message) in
  if (pubsubMaxMessageDataBytes <? len (Data message))%Z
  then Some "Pub/Sub message data exceeds 10 MB"
  else if bool_decide (len (Data message) = 0%Z) && bool_decide (size attributes = 0)
          && bool_decide (OrderingKey message = "")
  then Some "Pub/Sub message has no data, attributes, or ordering key"
  else if negb (validPubSubAttributes attributes)
  then Some "Pub/Sub attributes exceed provider limits"
  else if negb (validPubSubTopic (Topic message))
  then Some "Pub/Sub topic name is syntactically invalid"
  else None.

End validation.

Definition google_code_of (e : error) : option Z :=
  match e with ErrForeign i _ => foreign_google_code i | _ => None end.

Definition grpc_code_of (e : error) : option Z :=
  match e with ErrForeign i _ => foreign_grpc_code i | _ => None end.

Definition codes_Unknown : Z := 2.
Definition codes_InvalidArgument : Z := 3.
Definition codes_OutOfRange : Z := 11.

Definition isPubSubPermanentBackendError (err : error) : bool :=
  bool_decide (errors_As google_code_of err = Some pubsubPermanentBackendErrorCode)
  || let code := default codes_Unknown (errors_As grpc_code_of err) in
     bool_decide (code = codes_InvalidArgument) || bool_decide (code = codes_OutOfRange).

(** ** The sender *)

Inductive pubsub_cmd :=
| Publish (message : Message)
| Flush (topic : string)
| ResumePublish (topic orderingKey : string)
| Get (result : nat) (message : Message).

(** [Publish] returns its result object; [Get] a message id, or an error. *)
Definition pubsub_resp (c : pubsub_cmd) : Type :=
  match c with
  | Publish _ => nat
  | Flush _ => unit
  | ResumePublish _ _ => unit
  | Get _ _ => error + string
  end.

Abbreviation pubsub_prog := (prog pubsub_resp).
Abbreviation pubsub_action := (action (resp pubsub_resp)).

Definition call (c : pubsub_cmd) : pubsub_prog (pubsub_resp c) := perform (R := resp pubsub_resp) (inr c).

Record pubsubPreparedEvent := MkPrepared { log : PublishLog; message : Message }.
Record pubsubCandidateEvent := MkCandidate { evt : Event; orderingKey : string }.
Record pubsubPendingPublish := MkPending { prepared : pubsubPreparedEvent; result : nat }.

Section sender.
Context `{GoRuntime} `{MapRange} (callbacks : Callbacks).

Definition parsePubsubCandidate (e : Event) : pubsub_prog (option pubsubCandidateEvent) :=
  match Options_String (EvtOptions e) "orderingKey" with
  | inl err =>
      run! RejectMalformedOptions callbacks pubsub_Target e "orderingKey" err;
      Ret None
  | inr okey => Ret (Some (MkCandidate e okey))
  end.

Definition prepared_event (candidate : pubsubCandidateEvent) (attributes : option object)
    : pubsubPreparedEvent :=
  let l := NewPublishLog (evt candidate) pubsub_Target in
  {| log := MkPublishLog (log_ID l) (log_Timestamp l) (log_PayloadSize l) (orderingKey candidate)
              (log_Target l) (log_Destination l);
     message := {| Topic := Destination (evt candidate);
                   Data := Payload (evt candidate);
                   OrderingKey := orderingKey candidate;
                   msg_Attributes := (sanitizeStringAttributes attributes).1 |} |}.

Definition preparePubsubEvent (candidate : pubsubCandidateEvent)
    : pubsub_prog (option pubsubPreparedEvent) :=
  match Options_Object (EvtOptions (evt candidate)) "attributes" with
  | inl err =>
      run! RejectMalformedOptions callbacks pubsub_Target (evt candidate) "attributes" err;
      Ret None
  | inr attributes =>
      let p := prepared_event candidate attributes in
      match pubsubPoisonReason (message p) with
      | Some reason =>
          run! AddPoisonID (ID (evt candidate)) reason;
          Ret None
      | None => Ret (Some p)
      end
  end.

Definition publishPubsubEvent (p : pubsubPreparedEvent) : pubsub_prog nat := call (Publish (message p)).

Definition markPubsubDone (p : pubsubPreparedEvent) (messageID : string) : pubsub_prog unit :=
  AddConfirmedID (log_ID (log p)).

Definition logPubsubFailure (p : pubsubPreparedEvent) (err : error) : pubsub_prog unit :=
  ReportFailure callbacks "Failed to send event"
    (pubsub_Target +:+ "|" +:+ Topic (message p) +:+ "|" +:+ OrderingKey (message p) +:+ "|"
     +:+ error_text err).

Definition awaitPubsubResult (p : pubsubPreparedEvent) (res : nat) : pubsub_prog (error + string) :=
  do! r <- call (Get res (message p));
  run! Progress callbacks;
  Ret r.

Definition resume (p : pubsubPreparedEvent) : pubsub_prog unit :=
  call (ResumePublish (Topic (message p)) (OrderingKey (message p))).

Definition deadline (err : error) : bool := errors_Is (Some err) context_DeadlineExceeded.

Definition sendPubsubIsolated (p : pubsubPreparedEvent) (ordered : bool)
    : pubsub_prog (bool * option error) :=
  do! res <- publishPubsubEvent p;
  run! call (Flush (Topic (message p)));
  do! r <- awaitPubsubResult p res;
  match r with
  | inr messageID =>
      run! markPubsubDone p messageID;
      Ret (true, None)
  | inl err =>
      run! (if ordered && negb (deadline err) then resume p else Ret tt);
      if deadline err && ordered then
        run! logPubsubFailure p err;
        Ret (false, errors_Join [Some ErrFatalAfterCommit; Some err])
      else if isPubSubPermanentBackendError err then
        run! AddPoisonID (log_ID (log p)) (error_text err);
        run! logPubsubFailure p err;
        Ret (true, None)
      else
        run! logPubsubFailure p err;
        Ret (false, Some err)
  end.

(** ** Events without an ordering key *)

Definition publish_unordered (st : list pubsubPendingPublish * gmap string unit)
    (candidate : pubsubCandidateEvent) : pubsub_prog (list pubsubPendingPublish * gmap string unit) :=
  let '(pending, topics) := st in
  do! p <- preparePubsubEvent candidate;
  match p with
  | None => Ret (pending, topics)
  | Some p =>
      do! res <- publishPubsubEvent p;
      Ret (pending ++ [MkPending p res], <[Topic (message p) := tt]> topics)
  end.

Definition await_unordered (joined : option error) (pp : pubsubPendingPublish)
    : pubsub_prog (option error) :=
  do! r <- awaitPubsubResult (prepared pp) (result pp);
  match r with
  | inr messageID =>
      run! markPubsubDone (prepared pp) messageID;
      Ret joined
  | inl err =>
      if deadline err then
        run! logPubsubFailure (prepared pp) err;
        Ret (errors_Join [joined; Some err])
      else if isPubSubPermanentBackendError err then
        do! d <- sendPubsubIsolated (prepared pp) false;
        let joined := if d.1 then joined else errors_Join [joined; Some err] in
        Ret (errors_Join [joined; d.2])
      else
        run! logPubsubFailure (prepared pp) err;
        Ret (errors_Join [joined; Some err])
  end.

Definition sendPubsubUnorderedEvents (events : list pubsubCandidateEvent) : pubsub_prog (option error) :=
  do! st <- for_each events publish_unordered ([], ∅);
  run! for_each (range st.2) (fun _ '(topic, _) => call (Flush topic)) tt;
  for_each st.1 await_unordered None.

(** ** Ordering groups *)

Definition send_ordered_event (_ : unit) (candidate : pubsubCandidateEvent)
    : pubsub_prog (unit + option error) :=
  do! p <- preparePubsubEvent candidate;
  match p with
  | None => Ret (inl tt)
  | Some p =>
      do! res <- publishPubsubEvent p;
      run! call (Flush (Topic (message p)));
      do! r <- awaitPubsubResult p res;
      match r with
      | inr messageID =>
          run! markPubsubDone p messageID;
          Ret (inl tt)
      | inl err =>
          if deadline err then
            run! logPubsubFailure p err;
            Ret (inr (errors_Join [Some ErrFatalAfterCommit; Some err]))
          else if isPubSubPermanentBackendError err then
            run! resume p;
            do! d <- sendPubsubIsolated p true;
            match d.2 with
            | Some isolateErr => Ret (inr (Some isolateErr))
            | None => if d.1 then Ret (inl tt) else Ret (inr (Some err))
            end
          else
            run! resume p;
            run! logPubsubFailure p err;
            Ret (inr (Some err))
      end
  end.

Definition sendPubsubOrderedGroup (events : list pubsubCandidateEvent) : pubsub_prog (option error) :=
  do! r <- for_loop events send_ordered_event tt;
  match r with inl _ => Ret None | inr err => Ret err end.

(** ** The batch *)

Definition pubsub_groupID (c : pubsubCandidateEvent) : string :=
  Destination (evt c) +:+ String "000" (orderingKey c).

Record split_events := MkSplit {
  unordered : list pubsubCandidateEvent;
  orderedByGroup : gmap string (list pubsubCandidateEvent);
  groupOrder : list string;
}.

Definition split_event (st : split_events) (e : Event) : pubsub_prog split_events :=
  do! c <- parsePubsubCandidate e;
  Ret (match c with
       | None => st
       | Some c =>
           if bool_decide (orderingKey c = "")
           then MkSplit (unordered st ++ [c]) (orderedByGroup st) (groupOrder st)
           else
             let '(groups, order) :=
               group_order_append pubsub_groupID (orderedByGroup st, groupOrder st) c in
             MkSplit (unordered st) groups order
       end).

Definition sendPubsubEventsWithCallbacks (events : list Event) : pubsub_prog (option error) :=
  do! st <- for_each events split_event (MkSplit [] ∅ []);
  do! unorderedErr <- sendPubsubUnorderedEvents (unordered st);
  do! orderedErr <- RunConcurrent (groupOrder st) (fun groupID =>
    sendPubsubOrderedGroup (default [] (orderedByGroup st !! groupID)));
  Ret (errors_Join [unorderedErr; orderedErr]).

End sender.
