(* ===== verification/Routes.v ===== *)
(** * Provider routes and configuration validation

    [providers.go] (the registry [providerSpecs], [configuredProviderRoutes], the provider
    configurations) and [config_validate.go]. *)
From S2P Require Import Prelude GoErrors Config Values SqsOptions PubSub.
Local Open Scope go_scope.

Definition WebIdentityProviderGoogle : string := "google".
Definition awsWebIdentityProviderGoogle : string := WebIdentityProviderGoogle.
Definition eventTargetPubSub : string := pubsub_Target.
Definition eventTargetSQS : string := sqs_Target.

Record providerRoute := ProviderRoute {
  route_target : string;
  defaultDestination : string;
  ownedDestinations : list string;
}.

(** The registry entries, less the constructors of the SDK clients. *)
Record providerSpec := ProviderSpec {
  spec_target : string;
  spec_enabled : appConfig -> bool;
  spec_route : appConfig -> providerRoute;
}.

Definition providerSpecs : list providerSpec := [
  ProviderSpec eventTargetPubSub PubSubEnabled (fun cfg =>
    ProviderRoute eventTargetPubSub (DefaultPubSubTopic cfg) (PubSubDestinations cfg));
  ProviderSpec eventTargetSQS SQSEnabled (fun cfg =>
    ProviderRoute eventTargetSQS (DefaultSQSQueueURL cfg) (SQSDestinations cfg))
].

Definition configuredProviderRoutes (cfg : appConfig) : list providerRoute :=
  foldl (fun routes spec => if spec_enabled spec cfg then routes ++ [spec_route spec cfg] else routes)
    [] providerSpecs.

Definition providerTargets (routes : list providerRoute) : list string := route_target <$> routes.

(** ** [config_validate.go] *)

Inductive configValidationMode := configValidationRelay | configValidationInit | unknownMode (n : Z).

Definition err {A} (text : string) : error + A := inl (ErrText text).

Section validation.
Context `{GoRuntime}.

(** The duplicate-column loop: the labels seen so far, by column name. *)
Fixpoint check_columns (seen : gmap string string) (columns : list (string * string)) : error + unit :=
  match columns with
  | [] => inr tt
  | (value, label) :: columns =>
      if bool_decide (value = "") then check_columns seen columns
      else match seen !! value with
           | Some previous =>
               err (previous +:+ " and " +:+ label +:+ " both resolve to the same column name "
                    +:+ strconv_Quote value)
           | None => check_columns (<[value := label]> seen) columns
           end
  end.

Definition validateStorage (cfg : appConfig) : error + unit :=
  if bool_decide (EventTable cfg = "") then err "an event table is required: set EVENT_TABLE"
  else if bool_decide (cfgEventID cfg = "") then err "an id column is required: set EVENT_ID"
  else if bool_decide (EventPayload cfg = "") then err "a payload column is required: set EVENT_PAYLOAD"
  else if bool_decide (PGSchema cfg = "") then err "a PostgreSQL schema is required: set PG_SCHEMA"
  else if bool_decide (DLQTable cfg <> "") && bool_decide (DLQTable cfg = EventTable cfg)
  then err "DLQ_TABLE must not equal EVENT_TABLE"
  else check_columns ∅
    [ (cfgEventID cfg, "EVENT_ID"); (EventPayload cfg, "EVENT_PAYLOAD"); (EventTarget cfg, "EVENT_TARGET");
      (EventDestination cfg, "EVENT_DESTINATION"); (EventTimestamp cfg, "EVENT_TIMESTAMP");
      (EventOptions cfg, "EVENT_OPTIONS") ].

Fixpoint check_destinations (cfg : appConfig) (routes : list providerRoute) : error + unit :=
  match routes with
  | [] => inr tt
  | route :: routes =>
      if bool_decide (defaultDestination route = "") && bool_decide (EventDestination cfg = "")
      then err ("provider " +:+ strconv_Quote (route_target route)
                +:+ " needs a destination: set EVENT_DESTINATION or its default destination")
      else check_destinations cfg routes
  end.

Fixpoint check_ownership (cfg : appConfig) (specs : list providerSpec) : error + unit :=
  match specs with
  | [] => inr tt
  | spec :: specs =>
      if negb (spec_enabled spec cfg) && negb (bool_decide (ownedDestinations (spec_route spec cfg) = []))
      then err ("destination ownership for provider " +:+ strconv_Quote (route_target (spec_route spec cfg))
                +:+ " requires that provider to be enabled")
      else check_ownership cfg specs
  end.

Definition check_web_identity (cfg : appConfig) : error + unit :=
  if bool_decide (AWSWebIdentityProvider cfg <> "") then
    if bool_decide (AWSWebIdentityProvider cfg <> awsWebIdentityProviderGoogle)
    then err ("unsupported AWS_WEB_IDENTITY_PROVIDER " +:+ strconv_Quote (AWSWebIdentityProvider cfg)
              +:+ ": the only supported value is " +:+ strconv_Quote awsWebIdentityProviderGoogle)
    else if bool_decide (AWSRoleARN cfg = "")
    then err "AWS_WEB_IDENTITY_PROVIDER requires AWS_ROLE_ARN (the role to assume with the web identity token)"
    else if bool_decide (AWSWebIdentityAudience cfg = "")
    then err "AWS_WEB_IDENTITY_PROVIDER requires AWS_WEB_IDENTITY_AUDIENCE"
    else inr tt
  else inr tt.

Definition validateRuntime (cfg : appConfig) : error + unit :=
  let routes := configuredProviderRoutes cfg in
  if bool_decide (routes = []) then err "no publishing provider enabled"
  else if (1 <? length routes)%nat && bool_decide (EventTarget cfg = "")
  then err "a target column is required when multiple providers are enabled: set EVENT_TARGET"
  else
    let? _ := check_destinations cfg routes in
    let? _ := check_ownership cfg providerSpecs in
    if (CollectBatchTarget cfg <=? 0)%Z
    then err ("batch collection target (" +:+ pretty (CollectBatchTarget cfg)
              +:+ ") must be positive: set COLLECT_BATCH_TARGET")
    else if (PublishTimeout cfg <=? 0)%Z
    then err ("publish timeout (" +:+ duration_String (PublishTimeout cfg)
              +:+ ") must be positive: set PUBLISH_TIMEOUT_MS")
    else if (MaxEventAge cfg <? 0)%Z
    then err ("max event age (" +:+ duration_String (MaxEventAge cfg)
              +:+ ") must not be negative: set MAX_EVENT_AGE_MS")
    else if (0 <? MaxEventAge cfg)%Z && bool_decide (EventTimestamp cfg = "")
    then err "MAX_EVENT_AGE_MS requires an event timestamp column: set EVENT_TIMESTAMP"
    else check_web_identity cfg.

Definition validate (cfg : appConfig) (mode : configValidationMode) : error + unit :=
  let? _ := validateStorage cfg in
  match mode with
  | configValidationInit => inr tt
  | configValidationRelay => validateRuntime cfg
  | unknownMode n => err ("unknown configuration validation mode " +:+ pretty n)
  end.

(** ** What an accepted configuration satisfies *)

Definition column_names (cfg : appConfig) : list string :=
  filter (fun c => c <> "")
    [cfgEventID cfg; EventPayload cfg; EventTarget cfg; EventDestination cfg; EventTimestamp cfg;
     EventOptions cfg].

Record storage_ok (cfg : appConfig) : Prop := {
  so_table : EventTable cfg <> "";
  so_id : cfgEventID cfg <> "";
  so_payload : EventPayload cfg <> "";
  so_schema : PGSchema cfg <> "";
  so_dlq : DLQTable cfg <> EventTable cfg;
  so_columns : NoDup (column_names cfg);
}.

Record runtime_ok (cfg : appConfig) : Prop := {
  ro_provider : PubSubEnabled cfg = true \/ SQSEnabled cfg = true;
  ro_target : PubSubEnabled cfg = true -> SQSEnabled cfg = true -> EventTarget cfg <> "";
  ro_destination : forall r, r ∈ configuredProviderRoutes cfg ->
                     defaultDestination r <> "" \/ EventDestination cfg <> "";
  ro_owned : (PubSubDestinations cfg <> [] -> PubSubEnabled cfg = true)
             /\ (SQSDestinations cfg <> [] -> SQSEnabled cfg = true);
  ro_batch : (0 < CollectBatchTarget cfg)%Z;
  ro_timeout : (0 < PublishTimeout cfg)%Z;
  ro_age : (0 <= MaxEventAge cfg)%Z /\ (MaxEventAge cfg <> 0%Z -> EventTimestamp cfg <> "");
  ro_identity : AWSWebIdentityProvider cfg <> "" ->
                AWSWebIdentityProvider cfg = "google" /\ AWSRoleARN cfg <> ""
                /\ AWSWebIdentityAudience cfg <> "";
}.

Definition accepted {A} (r : error + A) : Prop := exists a, r = inr a.

Lemma accepted_if {A} (b : bool) (t : string) (r : error + A) :
  accepted (if b then err t else r) <-> b = false /\ accepted r.
Proof. destruct b; split; [by intros []|by intros [? _]|done|by intros [_ ?]]. Qed.

Lemma accepted_unit (r : error + unit) : accepted r <-> r = inr tt.
Proof. split; [by intros [[] ->]|intros ->; by exists tt]. Qed.

Lemma check_columns_iff seen columns :
  accepted (check_columns seen columns)
  <-> NoDup (filter (fun c => c <> "") columns.*1)
      /\ forall c, c ∈ filter (fun c => c <> "") columns.*1 -> seen !! c = None.
Proof.
  revert seen. induction columns as [|[v l] columns IH]; intros seen; simpl.
  - rewrite filter_nil. split; [|intros _; by exists tt]. intros _. split; [constructor|set_solver].
  - case_bool_decide as Hv.
    + rewrite filter_cons_False by (intros Hn; done). apply IH.
    + rewrite filter_cons_True by done. destruct (seen !! v) as [previous|] eqn:Hs.
      * split; [by intros []|]. intros [_ Hall]. rewrite (Hall v) in Hs by set_solver. done.
      * rewrite IH, NoDup_cons. split.
        -- intros [Hnd Hall]. split_and!; [|done|].
           ++ intros Hin. specialize (Hall v Hin). by rewrite lookup_insert_eq in Hall.
           ++ intros c [->|Hc]%elem_of_cons; [done|].
              specialize (Hall c Hc). by apply lookup_insert_None in Hall as [? _].
        -- intros [[Hnin Hnd] Hall]. split; [done|]. intros c Hc.
           rewrite lookup_insert_ne by (by intros ->). apply Hall. set_solver.
Qed.

Lemma validateStorage_iff cfg : validateStorage cfg = inr tt <-> storage_ok cfg.
Proof.
  rewrite <- accepted_unit. unfold validateStorage. rewrite !accepted_if, check_columns_iff,
    !bool_decide_eq_false, andb_false_iff, !bool_decide_eq_false.
  fold (column_names cfg). split.
  - intros (Ht & Hi & Hp & Hs & Hd & Hnd & _). split; try done.
    intros Heq. destruct Hd as [Hd|Hd]; [|done]. apply dec_stable in Hd. congruence.
  - intros [Ht Hi Hp Hs Hd Hnd]. split_and!; try done. by right.
Qed.

Lemma configuredProviderRoutes_eq cfg :
  configuredProviderRoutes cfg =
    (if PubSubEnabled cfg
     then [ProviderRoute eventTargetPubSub (DefaultPubSubTopic cfg) (PubSubDestinations cfg)] else [])
    ++ (if SQSEnabled cfg
        then [ProviderRoute eventTargetSQS (DefaultSQSQueueURL cfg) (SQSDestinations cfg)] else []).
Proof.
  unfold configuredProviderRoutes. simpl. destruct (PubSubEnabled cfg), (SQSEnabled cfg); done.
Qed.

Lemma accepted_seq (r : error + unit) {A} (k : error + A) :
  accepted (let? _ := r in k) <-> accepted r /\ accepted k.
Proof.
  destruct r as [e|[]]; simpl; split; try by intros [].
  - by intros [[] _].
  - intros Hk. split; [by exists tt|done].
Qed.

Lemma check_destinations_iff cfg routes :
  accepted (check_destinations cfg routes)
  <-> forall r, r ∈ routes -> defaultDestination r <> "" \/ EventDestination cfg <> "".
Proof.
  induction routes as [|r routes IH]; simpl.
  - split; [set_solver|intros _; by exists tt].
  - rewrite accepted_if, IH, andb_false_iff, !bool_decide_eq_false. set_solver.
Qed.

Lemma check_ownership_iff cfg specs :
  accepted (check_ownership cfg specs)
  <-> forall s, s ∈ specs -> ownedDestinations (spec_route s cfg) <> [] -> spec_enabled s cfg = true.
Proof.
  induction specs as [|s specs IH]; simpl.
  - split; [set_solver|intros _; by exists tt].
  - rewrite accepted_if, IH, andb_false_iff, !negb_false_iff, bool_decide_eq_true. split.
    + intros [Hs Hr] s' [->|Hs']%elem_of_cons Ho; [|auto]. by destruct Hs.
    + intros Hall. split; [|set_solver].
      destruct (decide (ownedDestinations (spec_route s cfg) = [])); [by right|left].
      apply Hall; set_solver.
Qed.

Lemma check_web_identity_iff cfg :
  accepted (check_web_identity cfg)
  <-> (AWSWebIdentityProvider cfg <> "" ->
       AWSWebIdentityProvider cfg = "google" /\ AWSRoleARN cfg <> "" /\ AWSWebIdentityAudience cfg <> "").
Proof.
  unfold check_web_identity. case_bool_decide as Hp.
  - rewrite !accepted_if, !bool_decide_eq_false. split.
    + intros (Hg & Ha & Hau & _) _. apply dec_stable in Hg. done.
    + intros Hall. destruct (Hall Hp) as (Hg & Ha & Hau). split_and!; [tauto|done|done|by exists tt].
  - split; [done|intros _; by exists tt].
Qed.

Lemma validateRuntime_iff cfg : validateRuntime cfg = inr tt <-> runtime_ok cfg.
Proof.
  rewrite <- accepted_unit. unfold validateRuntime.
  rewrite !accepted_if, !accepted_seq, check_destinations_iff, check_ownership_iff, !accepted_if,
    check_web_identity_iff, !andb_false_iff, !bool_decide_eq_false, !Z.leb_gt, !Z.ltb_ge, Nat.ltb_ge.
  split.
  - intros (Hne & Hlen & Hdest & Hown & Hb & Ht & Ha & Hts & Hid). split; try done.
    + rewrite configuredProviderRoutes_eq in Hne.
      destruct (PubSubEnabled cfg), (SQSEnabled cfg); tauto.
    + intros Hp Hs. rewrite configuredProviderRoutes_eq, Hp, Hs in Hlen. simpl in Hlen.
      destruct Hlen; [lia|done].
    + split; intros Ho.
      * apply (Hown (ProviderSpec eventTargetPubSub PubSubEnabled (fun cfg =>
          ProviderRoute eventTargetPubSub (DefaultPubSubTopic cfg) (PubSubDestinations cfg))));
          [left|done].
      * apply (Hown (ProviderSpec eventTargetSQS SQSEnabled (fun cfg =>
          ProviderRoute eventTargetSQS (DefaultSQSQueueURL cfg) (SQSDestinations cfg))));
          [right; left|done].
    + split; [done|]. intros Hne0. destruct Hts; [lia|done].
  - intros [Hp Hmt Hd [Ho1 Ho2] Hb Ht [Ha Hts] Hid]. split_and!; try done.
    + rewrite configuredProviderRoutes_eq.
      destruct Hp as [->| ->]; [done|]. by destruct (PubSubEnabled cfg).
    + rewrite configuredProviderRoutes_eq.
      destruct (PubSubEnabled cfg), (SQSEnabled cfg); simpl; (try by left; lia); right; by apply Hmt.
    + intros s Hs Ho. unfold providerSpecs in Hs.
      apply elem_of_cons in Hs as [->|[->|Hs]%elem_of_cons]; [auto|auto|by apply elem_of_nil in Hs].
    + destruct (decide (MaxEventAge cfg = 0%Z)) as [->|Hne]; [left; lia|right; by apply Hts].
Qed.

(** C34. Configuration validation accepts a relay configuration exactly when the storage rules
    (tables, schema, distinct columns, a dead-letter table that is not the event table) and the
    runtime rules (an enabled provider, a target column for several, a destination for each,
    ownership only for enabled ones, positive limits, a timestamp column when events expire, a
    complete web identity) all hold; provisioning needs the storage rules only. *)
Theorem validate_exact (cfg : appConfig) :
  (validate cfg configValidationRelay = inr tt <-> storage_ok cfg /\ runtime_ok cfg)
  /\ (validate cfg configValidationInit = inr tt <-> storage_ok cfg).
Proof.
  rewrite <- validateStorage_iff, <- validateRuntime_iff. unfold validate.
  destruct (validateStorage cfg) as [e|[]]; simpl; split; try tauto; split; try done; by intros [].
Qed.

End validation.
