(* ===== verification/SqsClient.v ===== *)
(** * The SQS client ([sqs/client.go])

    The adapter between the sender and the AWS SDK: how the client is configured, and the
    conversion of batch entries and responses.  What the SDK does (loading the default
    configuration, sending a request, asking the metadata server) is an argument.  A pointer of
    the SDK's types is an [option]. *)
From S2P Require Import Prelude GoErrors Config SqsOptions SqsSender Routes Strconv.
Local Open Scope go_scope.

(** [sqs.Config] *)
Record sqs_config := SqsConfig {
  sqs_SendConcurrency : Z;
  sqs_PublishTimeout : Z;
  sqs_APIEndpoint : string;
  sqs_AWSRegion : string;
  sqs_AWSRoleARN : string;
  sqs_AWSRoleSessionName : string;
  sqs_AWSRoleDuration : Z;
  sqs_AWSCredentialRefreshWindow : Z;
  sqs_AWSWebIdentityProvider : string;
  sqs_AWSWebIdentityAudience : string;
}.

(** ** The client *)

(** The options of [http.Transport] that [NewClient] changes. *)
Record transport := Transport { MaxIdleConnsPerHost : Z; MaxIdleConns : Z }.

(** Where the credentials come from; the last number is the expiry window of their cache. *)
Inductive credentials :=
| DefaultCredentials
| WebIdentityRole (role audience session : string) (duration expiryWindow : Z)
| AssumedRole (role session : string) (duration expiryWindow : Z).

Record sqs_client := SqsClient {
  client_transport : transport;
  client_region : option string;
  client_credentials : credentials;
  client_endpoint : option string;
}.

Definition pool_transport (cfg : sqs_config) (defaults : transport) : transport :=
  Transport (Z.max (MaxIdleConnsPerHost defaults) (sqs_SendConcurrency cfg))
    (Z.max (MaxIdleConns defaults) (sqs_SendConcurrency cfg)).

Definition nonempty_option (s : string) : option string := if bool_decide (s = "") then None else Some s.

Definition choose_credentials (cfg : sqs_config) : credentials :=
  if bool_decide (sqs_AWSWebIdentityProvider cfg = WebIdentityProviderGoogle)
  then WebIdentityRole (sqs_AWSRoleARN cfg) (sqs_AWSWebIdentityAudience cfg) (sqs_AWSRoleSessionName cfg)
         (sqs_AWSRoleDuration cfg) (sqs_AWSCredentialRefreshWindow cfg)
  else if bool_decide (sqs_AWSRoleARN cfg <> "")
  then AssumedRole (sqs_AWSRoleARN cfg) (sqs_AWSRoleSessionName cfg) (sqs_AWSRoleDuration cfg)
         (sqs_AWSCredentialRefreshWindow cfg)
  else DefaultCredentials.

(** [NewClient]: [loaded] is the result of [config.LoadDefaultConfig] with the region option. *)
Definition NewClient (cfg : sqs_config) (defaults : transport) (loaded : option string -> option error) :
    error + sqs_client :=
  let region := nonempty_option (sqs_AWSRegion cfg) in
  match loaded region with
  | Some err => inl err
  | None => inr (SqsClient (pool_transport cfg defaults) region (choose_credentials cfg)
                   (nonempty_option (sqs_APIEndpoint cfg)))
  end.

(** ** The Google identity token *)

Definition googleIDTokenTimeout : Z := 10 * second.

Definition hex_digit (n : N) : ascii := if (n <? 10)%N then ascii_of_N (48 + n) else ascii_of_N (55 + n).

(** [url.QueryEscape] *)
Fixpoint QueryEscape (s : string) : string :=
  match s with
  | EmptyString => ""
  | String c s' =>
      (if is_alnum c || string_elem c "-_.~" then String c ""
       else if ascii_eqb c " " then "+"
       else String "%" (String (hex_digit (N_of_ascii c / 16)) (String (hex_digit (N_of_ascii c mod 16)) "")))
      +:+ QueryEscape s'
  end.

Definition identity_path (audience : string) : string :=
  "instance/service-accounts/default/identity?audience=" +:+ QueryEscape audience +:+ "&format=full".

(** [get] is [metadata.GetWithContext]. *)
Definition GetIdentityToken (audience : string) (get : string -> error + string) : error + string :=
  match get (identity_path audience) with
  | inl err => inl (ErrWrap ("fetch Google ID token from metadata server: " +:+ error_text err) err)
  | inr token => inr token
  end.

(** ** Requests and responses *)

Record aws_attribute := AwsAttribute {
  aws_DataType : option string;
  aws_StringValue : option string;
  aws_BinaryValue : option string;
  aws_StringListValues : option (list string);
  aws_BinaryListValues : option (list string);
}.

Record aws_entry := AwsEntry {
  aws_Id : option string;
  aws_MessageBody : option string;
  aws_MessageAttributes : option (gmap string aws_attribute);
  aws_DelaySeconds : Z;
  aws_MessageGroupId : option string;
  aws_MessageDeduplicationId : option string;
  aws_MessageSystemAttributes : option (gmap string aws_attribute);
}.

Record aws_success := AwsSuccess { aws_success_Id : option string; aws_success_MessageId : option string }.
Record aws_failure := AwsFailure {
  aws_failure_Id : option string;
  aws_failure_Code : option string;
  aws_failure_Message : option string;
  aws_failure_SenderFault : bool;
}.
Record aws_response := AwsResponse { aws_Successful : list aws_success; aws_Failed : list aws_failure }.

Definition convert_attribute (value : MessageAttribute) : aws_attribute :=
  AwsAttribute (Some (DataType value))
    (if HasStringValue value then Some (StringValue value) else None)
    (if HasBinaryValue value then Some (BinaryValue value) else None)
    (if HasStringList value then Some (StringListValues value) else None)
    (if HasBinaryList value then Some (BinaryListValues value) else None).

Definition convertAttributesToAWSSQS (attributes : option (gmap string MessageAttribute)) :
    option (gmap string aws_attribute) :=
  match attributes with None => None | Some attributes => Some (convert_attribute <$> attributes) end.

Definition convert_entry (entry : BatchEntry) : aws_entry :=
  AwsEntry (Some (entry_ID entry)) (Some (MessageBody entry)) (convertAttributesToAWSSQS (Attributes entry))
    (match DelaySeconds entry with Some delay => delay | None => 0%Z end)
    (nonempty_option (MessageGroupID entry)) (nonempty_option (DeduplicationID entry))
    (if bool_decide (AWSXRayTraceHeader entry = "") then None
     else Some {["AWSTraceHeader" := AwsAttribute (Some "String") (Some (AWSXRayTraceHeader entry)) None None None]}).

(** [aws.ToString] *)
Definition ToString (s : option string) : string := default "" s.

Definition convert_response (response : aws_response) : BatchResponse :=
  MkResponse
    ((fun e => MkSuccess (ToString (aws_success_Id e)) (ToString (aws_success_MessageId e)))
       <$> aws_Successful response)
    ((fun e => MkFailure (ToString (aws_failure_Id e)) (ToString (aws_failure_Code e))
                 (ToString (aws_failure_Message e)) (aws_failure_SenderFault e)) <$> aws_Failed response).

(** [SendBatch]: [send] is [client.SendMessageBatch]. *)
Definition SendBatch (send : string -> list aws_entry -> error + aws_response) (queueURL : string)
    (entries : list BatchEntry) : error + BatchResponse :=
  match send queueURL (convert_entry <$> entries) with
  | inl err => inl err
  | inr response => inr (convert_response response)
  end.

(** ** What a request says *)

Definition read_attribute (a : aws_attribute) : MessageAttribute := {|
  DataType := ToString (aws_DataType a);
  StringValue := ToString (aws_StringValue a);
  BinaryValue := ToString (aws_BinaryValue a);
  StringListValues := default [] (aws_StringListValues a);
  BinaryListValues := default [] (aws_BinaryListValues a);
  HasStringValue := bool_decide (is_Some (aws_StringValue a));
  HasBinaryValue := bool_decide (is_Some (aws_BinaryValue a));
  HasStringList := bool_decide (is_Some (aws_StringListValues a));
  HasBinaryList := bool_decide (is_Some (aws_BinaryListValues a));
|}.

(** The entry a service reads out of a request; no delay and a delay of zero are the same. *)
Definition read_entry (e : aws_entry) : BatchEntry :=
  MkEntry (ToString (aws_Id e)) (ToString (aws_MessageBody e))
    (fmap (M := option) (fun m : gmap string aws_attribute => read_attribute <$> m) (aws_MessageAttributes e))
    (ToString (aws_MessageGroupId e)) (ToString (aws_MessageDeduplicationId e))
    (if bool_decide (aws_DelaySeconds e = 0%Z) then None else Some (aws_DelaySeconds e))
    (match aws_MessageSystemAttributes e with
     | Some m => match m !! "AWSTraceHeader" with Some a => ToString (aws_StringValue a) | None => "" end
     | None => ""
     end).

Lemma read_convert_attribute a : attribute_tidy a -> read_attribute (convert_attribute a) = a.
Proof.
  destruct a as [t s b ss bs [] [] [] []]; intros [Hs Hb Hss Hbs]; unfold read_attribute, convert_attribute; simpl in *;
    rewrite ?Hs, ?Hb, ?Hss, ?Hbs by done; done.
Qed.

Lemma ToString_nonempty_option s : ToString (nonempty_option s) = s.
Proof. unfold nonempty_option. case_bool_decide; by subst. Qed.

(** A delay of zero and none are the same to the service. *)
Definition undelayed (e : BatchEntry) : BatchEntry :=
  MkEntry (entry_ID e) (MessageBody e) (Attributes e) (MessageGroupID e) (DeduplicationID e)
    (if bool_decide (DelaySeconds e = Some 0%Z) then None else DelaySeconds e) (AWSXRayTraceHeader e).

(** Nothing of an entry is lost on the way. *)
Lemma read_convert_entry e :
  map_Forall (fun _ => attribute_tidy) (default ∅ (Attributes e)) -> read_entry (convert_entry e) = undelayed e.
Proof.
  destruct e as [id body attrs group dedup delay trace]; simpl. intros Ha.
  unfold read_entry, convert_entry, undelayed; simpl. rewrite !ToString_nonempty_option. f_equal.
  - destruct attrs as [m|]; [|done]. simpl. f_equal. rewrite <- map_fmap_compose.
    rewrite <- (map_fmap_id m) at 2. apply map_fmap_ext. intros k a Hk. apply read_convert_attribute.
    by apply (Ha k).
  - destruct delay as [d|]; [|done]. repeat case_bool_decide; congruence.
  - case_bool_decide; [by subst|]. by rewrite lookup_singleton_eq.
Qed.

(** The connection pool holds at least one connection per concurrent sender. *)
Lemma pool_fits_concurrency cfg defaults loaded client :
  NewClient cfg defaults loaded = inr client ->
  (sqs_SendConcurrency cfg <= MaxIdleConnsPerHost (client_transport client))%Z
  /\ (sqs_SendConcurrency cfg <= MaxIdleConns (client_transport client))%Z.
Proof.
  unfold NewClient. destruct (loaded _); [done|]. intros [= <-]. simpl. split; lia.
Qed.
