(* ===== verification/Samples.v ===== *)
(** * Sample runtime

    Concrete functions for the parts of the Go runtime the model leaves open ([GoRuntime],
    [MapRange]), so that the witnesses of the theorems can be evaluated.  They are not models of
    [encoding/json], [time], [encoding/base64], [net/url] or [crypto/sha256]: a digest has the
    right length, a URL is split where [net/url] splits it, an object is written without its
    contents, and only a few documents are read. *)
From Stdlib Require Import Floats.SpecFloat.
From S2P Require Import Prelude GoErrors Config Values.

Definition sample_padding : string := "xxxxxxxxxxxxxxxxxxxxxxxxxxxxxxxx".

Definition sample_digest (s : string) : string := String.substring 0 32 (s +:+ sample_padding).

Lemma sample_digest_32 s : String.length (sample_digest s) = 32.
Proof.
  unfold sample_digest. apply substring_length. rewrite string_length_app.
  change (String.length sample_padding) with 32. lia.
Qed.

Definition sample_url (s : string) : option url :=
  if strings_HasPrefix s "https://" then
    let '(host, path, _) := strings_Cut (String.substring 8 (String.length s) s) "/" in
    Some (URL "https" host ("/" +:+ path))
  else Some (URL "" "" s).

Definition sample_json (s : string) : error + value :=
  if bool_decide (s = "{}") then inr (VObject ∅)
  else if bool_decide (s = "[]") then inr (VArray [])
  else if bool_decide (s = "null") then inr VNil
  else inl (ErrText "invalid character").

#[export] Instance sample_runtime : GoRuntime := {|
  json_Unmarshal := sample_json;
  json_Marshal := fun _ => inr "{}";
  time_Parse := fun _ _ => None;
  time_Format := fun t => pretty t;
  base64_DecodeString := fun s => inr s;
  sha256_Sum256 := sample_digest;
  url_Parse := sample_url;
  fmt_other := fun v => fmt_T v;
  strconv_Quote := fun s => "'" +:+ s +:+ "'";
  duration_String := fun d => pretty d +:+ "ns";
|}.

#[export] Instance sample_range : MapRange.
Proof. refine {| range := fun V (m : gmap string V) => map_to_list m |}. done. Defined.

Definition sample_overflow (_ : spec_float) : Z := 0.
