(* ===== verification/Sqs.v ===== *)
(** * The promises of the SQS sender

    The theorems about [Send] of the SQS provider: what it confirms, what it poisons, what it
    requests and in which order, when it may report success, how many requests are in flight, given
    how channels work; and the contract [Provider] the relay relies on. *)
From Stdlib Require Import Floats.SpecFloat.
From S2P Require Import Prelude GoErrors Config Values Conc Provider SqsOptions SqsSender SqsSafety SqsClient Samples.
Local Open Scope go_scope.

(** ** Slots *)

(** The weight of an action: a slot taken from the semaphore [sem] counts 1, a request in flight -b. *)
Definition slots (sem : nat) (b : Z) (a : sqs_action) : Z :=
  match projT1 a as c return resp sqs_resp c -> Z with
  | inr (MakeSem _) => fun _ => 0
  | inr (SemAcquire s) => fun r => match r with None => if decide (s = sem) then 1 else 0 | Some _ => 0 end
  | inr (SemRelease s) => fun _ => if decide (s = sem) then -1 else 0
  | inr (BatchCall _ _) => fun _ => - b
  | inr (BatchReturn _ _) => fun _ => b
  | inl _ => fun _ => 0
  end%Z (projT2 a).

(** Slots taken, and requests in flight, after a trace. *)
Definition held (sem : nat) (tr : list sqs_action) : Z := weight (slots sem 0) tr.

Definition flight (a : sqs_action) : Z :=
  match projT1 a with inr (BatchCall _ _) => 1 | inr (BatchReturn _ _) => -1 | _ => 0 end%Z.

Definition in_flight (tr : list sqs_action) : Z := weight flight tr.

Lemma slots_flight sem a : slots sem 1 a = (slots sem 0 a - flight a)%Z.
Proof. destruct a as [[cb|[]] r]; unfold slots, flight; simpl; try destruct r; try case_decide; done. Qed.

Lemma held_in_flight sem tr : weight (slots sem 1) tr = (held sem tr - in_flight tr)%Z.
Proof.
  unfold held, in_flight. induction tr as [|a tr IH]; simpl; [done|].
  rewrite slots_flight. unfold weight in *. lia.
Qed.

Section slots.
Context `{GoRuntime} `{MapRange} (overflow : spec_float -> Z) (callbacks : Callbacks).
Context (sem : nat) (b : Z) (Hb : (0 <= b <= 1)%Z).

Abbreviation calm := (balanced 1 (slots sem b)).

Lemma calm_callback d cb : balanced d (slots sem b) (perform (R := resp sqs_resp) (inl cb) : sqs_prog unit).
Proof. by apply (balanced_perform0 (R := resp sqs_resp) d (slots sem b) (inl cb)). Qed.

Lemma calm_Report d m s : balanced d (slots sem b) (ReportFailure (RX := sqs_resp) callbacks m s).
Proof.
  unfold ReportFailure. destruct (hasLogFailure callbacks); [apply calm_callback|apply balanced_ret].
Qed.

Lemma calm_Progress d : balanced d (slots sem b) (Progress (RX := sqs_resp) callbacks).
Proof.
  unfold Progress. destruct (hasMarkProgress callbacks); [apply calm_callback|apply balanced_ret].
Qed.

Lemma calm_Poison d id reason : balanced d (slots sem b) (AddPoisonID (RX := sqs_resp) id reason).
Proof. apply calm_callback. Qed.

Lemma calm_Confirm d id : balanced d (slots sem b) (AddConfirmedID (RX := sqs_resp) id).
Proof. apply calm_callback. Qed.

Lemma calm_Reject d tgt e f err :
  balanced d (slots sem b) (RejectMalformedOptions (RX := sqs_resp) callbacks tgt e f err).
Proof. apply balanced_bind; [apply calm_Poison|]. intros _. apply calm_Report. Qed.

#[local] Hint Resolve calm_Report calm_Progress calm_Poison calm_Confirm calm_Reject : outbox.

Lemma slots_call queue es r : slots sem b (existT (inr (BatchCall queue es)) r) = (- b)%Z.
Proof. done. Qed.

Lemma slots_return queue es r : slots sem b (existT (inr (BatchReturn queue es)) r) = b.
Proof. done. Qed.

Lemma slots_acquire : slots sem b (existT (inr (SemAcquire sem)) None) = 1%Z.
Proof. unfold slots. simpl. by rewrite decide_True. Qed.

Lemma slots_release r : slots sem b (existT (inr (SemRelease sem)) r) = (-1)%Z.
Proof. unfold slots. simpl. by rewrite decide_True. Qed.

Lemma exec_call (c : sqs_cmd) tr r : exec (call c) tr r <-> tr = [existT (inr c) r].
Proof. apply (exec_perform (R := resp sqs_resp) (inr c)). Qed.

(** A request: sent from a balance of at least 1, answered before anything else happens. *)
Lemma calm_request {A} queue es (k : error + BatchResponse -> sqs_prog A) :
  (forall r, calm (k r)) ->
  calm (run! call (BatchCall queue es); do! r <- call (BatchReturn queue es); k r).
Proof.
  intros Hk tr a (tr1 & tr2 & [] & -> & ->%exec_call & Hrest)%exec_bind.
  apply exec_bind in Hrest as (tr3 & tr4 & r & -> & ->%exec_call & He).
  destruct (Hk r tr4 a He) as [Hd Hw]. simpl. rewrite slots_call, slots_return, Hw. split; [|lia].
  intros [|x t1] t2 Ht; simplify_eq/=; [lia|]. destruct t1 as [|y t1]; simplify_eq/=.
  { rewrite slots_call. lia. }
  specialize (Hd t1 t2 eq_refl). rewrite slots_call, slots_return. lia.
Qed.

Lemma calm_sendSQSBatch_with iso queue ps :
  (forall ps, calm (iso queue ps)) -> calm (sendSQSBatch_with callbacks iso queue ps).
Proof.
  intros Hiso. destruct ps as [|first rest]; [apply balanced_ret|]. unfold sendSQSBatch_with.
  apply balanced_bind; [|intros r; apply balanced_bind; eauto with outbox].
  apply calm_request. intros [err|r].
  - destruct (isSQSPermanentRequestError err); [destruct rest; [|done]|];
      repeat (apply balanced_bind; [eauto with outbox|intros ?]); eauto with outbox.
  - apply balanced_bind.
    + apply balanced_for_each. intros ? s. apply balanced_bind; eauto with outbox.
    + intros any. apply balanced_for_each. intros [x y] f. unfold report_failure.
      apply balanced_bind; [destruct (SenderFault f)|intros ?]; try apply balanced_bind;
        eauto with outbox.
Qed.

Lemma calm_sendSQSBatch queue ps : calm (sendSQSBatch callbacks queue ps).
Proof.
  apply calm_sendSQSBatch_with. intros ps'. apply balanced_for_each. intros [x y] p.
  apply balanced_bind; [|eauto with outbox]. apply calm_sendSQSBatch_with. eauto with outbox.
Qed.

(** The slot a request needs is held while it is in flight, and is given back. *)
Lemma balanced_sendSQSBatchWithSemaphore queue ps :
  balanced 0 (slots sem b) (sendSQSBatchWithSemaphore callbacks sem queue ps).
Proof.
  intros tr a (tr1 & tr2 & acquired & -> & ->%exec_call & Hrest)%exec_bind.
  destruct acquired as [err|].
  { destruct Hrest as [-> ->]. simpl. split; [|done].
    intros [|x t1] t2 Ht; simplify_eq/=; [done|]. by destruct t1; simplify_eq/=. }
  apply exec_bind in Hrest as (tr3 & tr4 & r & -> & Hbatch & Hrest).
  apply exec_bind in Hrest as (tr5 & tr6 & [] & -> & ->%exec_call & [-> ->]).
  destruct (calm_sendSQSBatch _ _ _ _ Hbatch) as [Hd Hw]. simpl.
  rewrite weight_app, Hw. simpl. rewrite slots_acquire, slots_release. split; [|done].
  intros [|x t1] t2 Ht; [done|]. injection Ht as <- Ht. simpl. rewrite slots_acquire.
  apply app_eq_inv in Ht as [(k & -> & Hk)|(k & -> & Hk)].
  - specialize (Hd _ _ eq_refl). lia.
  - rewrite weight_app, Hw. destruct k as [|y k]; [done|].
    injection Hk as <- Hk. destruct k; [|done]. simpl. rewrite slots_release. done.
Qed.

Lemma calm_collect_some {A B} d (f : A -> sqs_prog (option B)) xs :
  (forall x, balanced d (slots sem b) (f x)) -> balanced d (slots sem b) (collect_some f xs).
Proof.
  intros Hf. apply balanced_for_each. intros acc x. apply balanced_bind; eauto with outbox.
Qed.

Lemma calm_parseSQSCandidate d e : balanced d (slots sem b) (parseSQSCandidate callbacks e).
Proof.
  unfold parseSQSCandidate. destruct (Options_String _ _); [apply balanced_bind|]; eauto with outbox.
Qed.

Lemma calm_prepareSQSEvent d c queue isFIFO :
  balanced d (slots sem b) (prepareSQSEvent overflow callbacks c queue isFIFO).
Proof.
  unfold prepareSQSEvent.
  repeat match goal with
  | |- balanced _ _ (match ?x with inl _ => _ | inr _ => _ end) => destruct x
  | |- balanced _ _ (if ?x then _ else _) => destruct x
  | |- balanced _ _ (bind _ _) => apply balanced_bind; [eauto with outbox|intros []]
  end; eauto with outbox.
Qed.

#[local] Hint Resolve calm_collect_some calm_parseSQSCandidate calm_prepareSQSEvent
  balanced_sendSQSBatchWithSemaphore : outbox.

Lemma balanced_sendSQSQueueEvents q :
  balanced 0 (slots sem b) (sendSQSQueueEvents overflow callbacks sem q).
Proof.
  unfold sendSQSQueueEvents. destruct (validSQSQueueURL _); simpl.
  - apply balanced_bind; [eauto with outbox|]. intros cands.
    destruct (strings_HasSuffix _ _).
    + unfold sendSQSFIFOEvents. destruct (group_by_order fifoGroupID cands) as [groups order].
      apply balanced_RunConcurrent. intros g _. apply balanced_bind.
      * apply balanced_for_loop. intros [] c. apply balanced_bind; [eauto with outbox|].
        intros [p|]; [|apply balanced_ret].
        apply balanced_bind; [eauto with outbox|]. intros [any [err|]]; [apply balanced_ret|].
        destruct any; apply balanced_ret.
      * intros [[]|err]; apply balanced_ret.
    + apply balanced_bind; [eauto with outbox|]. intros prepared.
      apply balanced_RunConcurrent. intros chunk _. apply balanced_bind; eauto with outbox.
  - apply balanced_bind; [|intros []; apply balanced_bind; eauto with outbox].
    apply balanced_for_each. intros [] e. eauto with outbox.
Qed.

Lemma balanced_queues qs : balanced 0 (slots sem b) (RunConcurrent qs (sendSQSQueueEvents overflow callbacks sem)).
Proof. apply balanced_RunConcurrent. intros q _. apply balanced_sendSQSQueueEvents. Qed.

End slots.

#[export] Hint Resolve calm_Report calm_Progress calm_Poison calm_Confirm calm_Reject : outbox.

(** ** Channels

    Buffered channels as Go has them: the capacity of each channel made so far, in the order they
    were made, and the number of elements in it.  A make needs a capacity that is not negative; a
    send waits until there is room, and a receive until there is an element. *)
Definition channels : Type := list (Z * Z).

Definition channel_step (chs : channels) (a : sqs_action) : option channels :=
  match projT1 a as c return resp sqs_resp c -> option channels with
  | inr (MakeSem cap) => fun sem =>
      if (0 <=? cap)%Z && bool_decide (sem = length chs) then Some (chs ++ [(cap, 0%Z)]) else None
  | inr (SemAcquire sem) => fun r =>
      match r, chs !! sem with
      | Some _, _ => Some chs
      | None, Some (cap, n) => if (n <? cap)%Z then Some (<[sem := (cap, (n + 1)%Z)]> chs) else None
      | None, None => None
      end
  | inr (SemRelease sem) => fun _ =>
      match chs !! sem with
      | Some (cap, n) => if (0 <? n)%Z then Some (<[sem := (cap, (n - 1)%Z)]> chs) else None
      | None => None
      end
  | _ => fun _ => Some chs
  end (projT2 a).

(** The channels after a trace, if channels allow it. *)
Fixpoint channels_after (chs : channels) (tr : list sqs_action) : option channels :=
  match tr with
  | [] => Some chs
  | a :: tr => match channel_step chs a with Some chs => channels_after chs tr | None => None end
  end.

Lemma channels_after_app chs t1 t2 :
  channels_after chs (t1 ++ t2) = match channels_after chs t1 with Some chs => channels_after chs t2 | None => None end.
Proof. revert chs. induction t1 as [|a t1 IH]; intros chs; simpl; [done|]. by destruct (channel_step chs a). Qed.

(** A channel holds what was sent and not received, and never more than its capacity. *)
Lemma channel_step_spec chs a chs' sem cap n :
  channel_step chs a = Some chs' -> chs !! sem = Some (cap, n) -> (0 <= n <= cap)%Z ->
  chs' !! sem = Some (cap, (n + slots sem 0 a)%Z) /\ (0 <= n + slots sem 0 a <= cap)%Z.
Proof.
  destruct a as [[cb|[cap'|s|s|q es|q es]] r]; unfold channel_step, slots; simpl; intros Hs Hsem Hn;
    try (injection Hs as <-; rewrite Z.add_0_r; by split).
  - destruct (_ && _); [|done]. injection Hs as <-. rewrite Z.add_0_r. by split; [apply lookup_app_l_Some|].
  - destruct r as [e|]; [injection Hs as <-; rewrite Z.add_0_r; by split|].
    destruct (chs !! s) as [[cap' n']|] eqn:Hc; [|done]. destruct (Z.ltb_spec n' cap'); [|done]. injection Hs as <-.
    destruct (decide (s = sem)) as [->|Hne]; [|rewrite Z.add_0_r; split; [|done]; rewrite <- Hsem; by apply list_lookup_insert_ne].
    rewrite Hsem in Hc. injection Hc as <- <-. split; [|lia].
    apply list_lookup_insert_eq. by eapply lookup_lt_Some.
  - destruct (chs !! s) as [[cap' n']|] eqn:Hc; [|done]. destruct (Z.ltb_spec 0 n'); [|done]. injection Hs as <-.
    destruct (decide (s = sem)) as [->|Hne]; [|rewrite Z.add_0_r; split; [|done]; rewrite <- Hsem; by apply list_lookup_insert_ne].
    rewrite Hsem in Hc. injection Hc as <- <-. split; [|lia].
    apply list_lookup_insert_eq. by eapply lookup_lt_Some.
Qed.

Lemma channels_after_spec tr chs chs' sem cap n :
  channels_after chs tr = Some chs' -> chs !! sem = Some (cap, n) -> (0 <= n <= cap)%Z ->
  chs' !! sem = Some (cap, (n + held sem tr)%Z) /\ (0 <= n + held sem tr <= cap)%Z.
Proof.
  revert chs n. induction tr as [|a tr IH]; intros chs n; simpl; [intros [= ->]|].
  { unfold held. simpl. rewrite Z.add_0_r. done. }
  destruct (channel_step chs a) as [chs1|] eqn:Hs; [|done]. intros Ha Hsem Hn.
  destruct (channel_step_spec _ _ _ _ _ _ Hs Hsem Hn) as [Hsem1 Hn1].
  unfold held in *. simpl. rewrite Z.add_assoc. by eapply IH.
Qed.

(** ** Properties *)

(** An execution of [Send] against a queue that keeps its contract. *)
Definition sqs_execution `{GoRuntime} `{MapRange} (overflow : spec_float -> Z)
    (callbacks : Callbacks) (cfg : Config) (evts : list Event) (tr : list sqs_action) (err : option error) : Prop :=
  exec (sendSQSEventsWithCallbacks overflow callbacks cfg evts) tr err /\ Forall sqs_contract tr.

Definition digest_is_32_bytes `{GoRuntime} : Prop := forall s, String.length (sha256_Sum256 s) = 32.

(** The attributes the options of an event ask for have types whose names are not too long. *)
Definition short_type_names `{GoRuntime} (e : Event) : Prop :=
  forall (R : MapRange) attributes, sqsAttributes (EvtOptions e) = inr attributes ->
  map_Forall (fun _ => type_name_fits) (default ∅ attributes).

Section properties.
Context `{GoRuntime} `{MapRange} (overflow : spec_float -> Z) (callbacks : Callbacks) (cfg : Config).
Context (evts : list Event) (tr : list sqs_action) (err : option error).

Lemma sqs_execution_justified t1 a t2 :
  digest_is_32_bytes -> sqs_execution overflow callbacks cfg evts tr err -> tr = t1 ++ a :: t2 ->
  sqs_justified evts overflow a t1.
Proof.
  intros H32 [He Hc] Heq.
  destruct (wp_sendSQSEventsWithCallbacks overflow callbacks evts H32 cfg [] tr err He Hc) as [Hj _].
  exact (Hj t1 a t2 Heq).
Qed.

(** C2. Whenever the sender confirms an event id, the event is one of the batch and the queue
    has, before that, accepted an entry that carries its payload: no event is ever confirmed,
    and so deleted from the table, that the queue did not take. *)
Theorem sqs_confirms_only_accepted t1 id t2 :
  digest_is_32_bytes -> sqs_execution overflow callbacks cfg evts tr err ->
  tr = t1 ++ reported (CbConfirm id) :: t2 ->
  exists e, e ∈ evts /\ ID e = id /\ accepted t1 e.
Proof. apply sqs_execution_justified. Qed.

(** An event is reported as poison only for a documented reason: an invalid queue URL,
    options that do not parse, a message outside the limits of SQS, a request of this entry
    alone that fails permanently, or a sender fault the queue reports for its entry. *)
Lemma sqs_poison_has_reason t1 id reason t2 :
  digest_is_32_bytes -> sqs_execution overflow callbacks cfg evts tr err ->
  tr = t1 ++ reported (CbPoison id reason) :: t2 ->
  exists e, e ∈ evts /\ ID e = id /\ poison_reason overflow t1 e reason.
Proof. apply sqs_execution_justified. Qed.

(** C18. Every request goes to a valid queue URL with one to ten entries of at most 1 MiB
    together, each the entry of an event of the batch for that queue, with a valid entry id and
    every field within the limits the sender checks; a FIFO queue gets one entry at a time.  The
    one documented limit it does not check is on the name of an attribute's type: when the types
    the events ask for have names of at most 256 characters, so have those of the request, and its
    attributes are within every documented limit ([long_type_name_is_sent]: otherwise a longer name
    is sent).  The request the client builds for the SDK loses nothing: its entries read back as
    those entries. *)
Theorem sqs_requests_within_limits t1 queue es t2 :
  digest_is_32_bytes -> sqs_execution overflow callbacks cfg evts tr err ->
  tr = t1 ++ called queue es :: t2 ->
  request_ok evts queue es
  /\ (Forall short_type_names evts ->
      Forall (fun b => map_Forall (fun key a => sqs_attribute_ok key a /\ type_name_fits a)
                         (default ∅ (Attributes b))) es)
  /\ read_entry <$> (convert_entry <$> es) = undelayed <$> es.
Proof.
  intros H32 He Ht. pose proof (proj1 (sqs_execution_justified _ _ _ H32 He Ht)) as Hok.
  split_and!; [exact Hok| |].
  - rewrite !Forall_forall. intros Hshort b Hb key a Ha.
    destruct (rq_entries _ _ _ Hok b Hb) as (e & He' & _ & Hef). split; [by eapply ef_acceptable|].
    by apply (Hshort e He' _ _ (ef_attributes _ _ _ Hef _) key).
  - rewrite <- list_fmap_compose. apply list_fmap_ext. intros i b Hb%list_elem_of_lookup_2.
    destruct (rq_entries _ _ _ Hok b Hb) as (e & _ & _ & Hef). apply read_convert_entry, Hef.
Qed.

(** C5. In a FIFO queue an event is requested only once every earlier event of its message group
    has been confirmed or reported as poison: no event overtakes another of its group. *)
Theorem sqs_fifo_in_order t1 queue es t2 :
  digest_is_32_bytes -> sqs_execution overflow callbacks cfg evts tr err ->
  tr = t1 ++ called queue es :: t2 -> strings_HasSuffix queue ".fifo" = true ->
  exists group before c after b,
    fifo_group evts queue group = before ++ c :: after
    /\ es = [b] /\ MessageGroupID b = group /\ entry_for queue (evt c) b
    /\ forall c', c' ∈ before -> resolved t1 (ID (evt c')).
Proof. intros H32 He Ht. by apply (sqs_execution_justified _ _ _ H32 He Ht). Qed.

(** When [Send] returns no error, every event of the batch has been confirmed or reported as
    poison, provided ids that differ give batch entry ids that differ. *)
Lemma sqs_nil_error_resolves_all :
  digest_is_32_bytes -> sqs_execution overflow callbacks cfg evts tr err -> err = None ->
  (forall e1 e2, e1 ∈ evts -> e2 ∈ evts -> sqs_entry_id e1 = sqs_entry_id e2 -> ID e1 = ID e2) ->
  forall e, e ∈ evts -> resolved tr (ID e).
Proof.
  intros H32 [He Hc] Hnone Hinj e Hin.
  destruct (wp_sendSQSEventsWithCallbacks overflow callbacks evts H32 cfg [] tr err He Hc) as [_ Hd].
  destruct (Hd Hnone e Hin) as (e' & Hin' & Hid & Hres).
  by rewrite <- (Hinj e' e Hin' Hin Hid).
Qed.

(** C14. The outcomes of [Send].  An event is reported as poison only for a documented reason: an
    invalid queue URL, options that do not parse, a message outside the limits of SQS, a request of
    this entry alone that fails permanently, or a sender fault the queue reports for its entry.
    And when [Send] returns no error, every event of the batch has been confirmed or reported as
    poison, provided ids that differ give batch entry ids that differ. *)
Theorem sqs_outcomes :
  digest_is_32_bytes -> sqs_execution overflow callbacks cfg evts tr err ->
  (forall t1 id reason t2, tr = t1 ++ reported (CbPoison id reason) :: t2 ->
     exists e, e ∈ evts /\ ID e = id /\ poison_reason overflow t1 e reason)
  /\ (err = None ->
      (forall e1 e2, e1 ∈ evts -> e2 ∈ evts -> sqs_entry_id e1 = sqs_entry_id e2 -> ID e1 = ID e2) ->
      forall e, e ∈ evts -> resolved tr (ID e)).
Proof.
  intros H32 He. split; [intros t1 id reason t2; by apply sqs_poison_has_reason|].
  by apply sqs_nil_error_resolves_all.
Qed.

(** C19. The semaphore bounds the requests in flight.  [Send] makes one channel of capacity
    [SendConcurrency], and every request of every queue is made while it has an element of its own
    in it; so, as channels work, no more than [SendConcurrency] requests are in flight at any
    moment, whatever the interleaving of the goroutines.  When [Send] returns none is in flight and
    the channel is empty. *)
Theorem sqs_in_flight_bounded chs :
  exec (sendSQSEventsWithCallbacks overflow callbacks cfg evts) tr err ->
  channels_after [] tr = Some chs ->
  (forall t1 t2, tr = t1 ++ t2 -> (in_flight t1 <= SendConcurrency cfg)%Z)
  /\ in_flight tr = 0%Z /\ chs !! 0 = Some (SendConcurrency cfg, 0%Z).
Proof.
  intros (tr1 & rest & sem & -> & ->%exec_call & He)%exec_bind Hchs.
  simpl in Hchs. unfold channel_step in Hchs. simpl in Hchs.
  destruct (Z.leb_spec 0 (SendConcurrency cfg)) as [Hcap|]; [|done].
  destruct (bool_decide _) eqn:Hsem in Hchs; [|done]. apply bool_decide_eq_true in Hsem as ->. simpl in Hchs.
  destruct (balanced_queues overflow callbacks 0 1 ltac:(lia) _ rest err He) as [Hd Hw].
  destruct (balanced_queues overflow callbacks 0 0 ltac:(lia) _ rest err He) as [_ Hw0].
  assert (Hstart : [(SendConcurrency cfg, 0%Z)] !! 0 = Some (SendConcurrency cfg, 0%Z)) by done.
  rewrite held_in_flight in Hw. change (held 0 rest = 0%Z) in Hw0. split_and!.
  - intros [|a t1] t2 Ht; [done|]. injection Ht as <- ->. change (in_flight (existT _ _ :: t1)) with (in_flight t1).
    specialize (Hd t1 t2 eq_refl). rewrite held_in_flight in Hd.
    rewrite channels_after_app in Hchs. destruct (channels_after _ t1) as [chs1|] eqn:H1; [|done].
    destruct (channels_after_spec _ _ _ _ _ _ H1 Hstart ltac:(lia)). lia.
  - change (in_flight rest = 0%Z). lia.
  - destruct (channels_after_spec _ _ _ _ _ _ Hchs Hstart ltac:(lia)) as [-> _]. by rewrite Hw0.
Qed.

End properties.

(** C26. A standard queue's events are cut into consecutive chunks of one to ten events and at
    most 1 MiB, losing and reordering nothing, and no chunk is closed while the next event would
    still fit. *)
Theorem chunkSQSStandardEvents_correct (ps : list sqsPreparedEvent) :
  Forall (fun p => messageSize p <= sqsEventMaxSizeByte)%Z ps ->
  concat (chunkSQSStandardEvents ps) = ps
  /\ Forall chunk_ok (chunkSQSStandardEvents ps)
  /\ Sorted tight (chunkSQSStandardEvents ps).
Proof.
  intros Hps. destruct (chunkSQSStandardEvents_chunks ps Hps).
  split_and!; [done..|]. by apply chunkSQSStandardEvents_tight.
Qed.

(** ** The provider *)

Section provider.
Context `{GoRuntime} `{MapRange} (overflow : spec_float -> Z) (callbacks : Callbacks) (cfg : Config).
Context (sha256_32 : digest_is_32_bytes).

(** The queue reported success for the entry id of the event. *)
Definition acked_by (e : Event) (a : sqs_action) : bool :=
  match projT1 a as c return resp sqs_resp c -> bool with
  | inr (BatchReturn queue es) => fun r =>
      match r with
      | inl _ => false
      | inr r => bool_decide (queue = Destination e)
                 && bool_decide (sqs_entry_id e ∈ success_ID <$> Successful r)
      end
  | _ => fun _ => false
  end (projT2 a).

Definition sqs_acked (tr : list sqs_action) (evts : list Event) : list Event :=
  filter (fun e => existsb (acked_by e) tr = true) evts.

Definition sqs_Send (evts : list Event) (cbs : list callback) (acked : list Event)
    (err : option error) : Prop :=
  exists tr, sqs_execution overflow callbacks cfg evts tr err
    /\ cbs = callbacks_of tr /\ acked = sqs_acked tr evts.

Lemma accepted_acked tr t1 t2 e : tr = t1 ++ t2 -> accepted t1 e -> existsb (acked_by e) tr = true.
Proof.
  intros -> (es & r & b & Hr & Hb & Hs & Hef). apply existsb_exists.
  exists (returned (Destination e) es (inr r)). split; [apply list_elem_of_In; set_solver|].
  unfold acked_by. simpl. rewrite <- (ef_id _ _ _ Hef). by rewrite !bool_decide_eq_true_2.
Qed.

#[refine] Instance sqs_provider : Provider := {| Send := sqs_Send |}.
Proof.
  - intros evs cbs acked err (tr & _ & _ & ->) e [_ He]%list_elem_of_filter. done.
  - intros evs cbs acked err (tr & Hx & -> & ->) id Hid.
    apply callbacks_of_split in Hid as (t1 & t2 & ->).
    destruct (sqs_execution_justified _ _ _ _ _ _ _ _ _ sha256_32 Hx eq_refl) as (e & He & Hid & Ha).
    exists e. split; [|done]. apply list_elem_of_filter. split; [|done]. by eapply accepted_acked.
  - intros evs cbs acked err (tr & Hx & -> & ->) id reason Hid.
    apply callbacks_of_split in Hid as (t1 & t2 & ->).
    destruct (sqs_execution_justified _ _ _ _ _ _ _ _ _ sha256_32 Hx eq_refl) as (e & He & Hid & Ha).
    by exists e.
Defined.

End provider.

(** ** Witnesses

    A batch with two events for one message group of a FIFO queue, one for a standard queue and
    one for a queue whose URL is invalid, against a queue that accepts every entry and one that
    reports a sender fault for every entry. *)

Definition sample_event (id : Z) (payload queue : string) (options : object) : Event :=
  MkEvent (VInt KInt64 id) payload zero_time queue (MkOptions options).

Definition fifo_queue : string := "https://sqs.local/1/orders.fifo".
Definition standard_queue : string := "https://sqs.local/1/mail".

Definition sample_batch : list Event :=
  [ sample_event 1 "first" fifo_queue {["messageGroupId" := VString "g"]};
    sample_event 2 "second" fifo_queue {["messageGroupId" := VString "g"]};
    sample_event 3 "hello" standard_queue ∅;
    sample_event 4 "lost" "not a queue" ∅ ].

Definition accepting (past : list sqs_action) (c : callback + sqs_cmd) : resp sqs_resp c :=
  match c with
  | inl _ => tt
  | inr (MakeSem _) => 0
  | inr (SemAcquire _) => None
  | inr (SemRelease _) => tt
  | inr (BatchCall _ _) => tt
  | inr (BatchReturn _ es) => inr (MkResponse ((fun b => MkSuccess (entry_ID b) "m") <$> es) [])
  end.

Definition faulting (past : list sqs_action) (c : callback + sqs_cmd) : resp sqs_resp c :=
  match c with
  | inl _ => tt
  | inr (MakeSem _) => 0
  | inr (SemAcquire _) => None
  | inr (SemRelease _) => tt
  | inr (BatchCall _ _) => tt
  | inr (BatchReturn _ es) =>
      inr (MkResponse [] ((fun b => MkFailure (entry_ID b) "InvalidMessageContents" "bad" true) <$> es))
  end.

Definition all_callbacks : Callbacks := MkCallbacks true true.

(** A semaphore with one slot. *)
Definition one_request : Config := MkConfig 1.

Definition sample_run (oracle : list sqs_action -> forall c, resp sqs_resp c) (evts : list Event) :=
  run oracle (sendSQSEventsWithCallbacks sample_overflow all_callbacks one_request evts) [].

Lemma accepting_execution evts :
  sqs_execution sample_overflow all_callbacks one_request evts (sample_run accepting evts).1
    (sample_run accepting evts).2.
Proof.
  split; [apply run_exec_nil|]. eapply Forall_impl; [by apply run_answered|].
  intros a (past & c & ->). destruct c as [cb|[cap|s|s|q es|q es]]; try done. simpl. intros id.
  unfold sqs_contract. simpl. rewrite <- list_fmap_compose.
  split; [intros Hid; by left|by intros [?|?%elem_of_nil]].
Qed.

Lemma faulting_execution evts :
  sqs_execution sample_overflow all_callbacks one_request evts (sample_run faulting evts).1
    (sample_run faulting evts).2.
Proof.
  split; [apply run_exec_nil|]. eapply Forall_impl; [by apply run_answered|].
  intros a (past & c & ->). destruct c as [cb|[cap|s|s|q es|q es]]; try done. simpl. intros id.
  unfold sqs_contract. simpl. rewrite <- list_fmap_compose.
  split; [intros Hid; by right|by intros [?%elem_of_nil|?]].
Qed.

Definition accepted_trace : list sqs_action := (sample_run accepting sample_batch).1.
Definition faulted_trace : list sqs_action := (sample_run faulting sample_batch).1.

Lemma sqs_confirms_only_accepted_witness :
  accepted_trace !! 6 = Some (reported (CbConfirm (VInt KInt64 1)))
  /\ exists e, e ∈ sample_batch /\ ID e = VInt KInt64 1 /\ accepted (take 6 accepted_trace) e.
Proof.
  split; [vm_compute; reflexivity|].
  eapply (sqs_confirms_only_accepted sample_overflow all_callbacks one_request sample_batch accepted_trace);
    [exact sample_digest_32|apply accepting_execution|].
  apply split_at. vm_compute; reflexivity.
Defined.

(** The request of event 2. *)
Definition second_entry : BatchEntry :=
  MkEntry "2" "second" None "g" "2" None "".

(** An event with one attribute, of the given type. *)
Definition typed_event (t : string) : Event :=
  sample_event 5 "hello" standard_queue
    {["attributes" := VObject {["a" := VObject {["DataType" := VString t; "StringValue" := VString "v"]}]}]}.

Definition typed_entry (t : string) : BatchEntry :=
  MkEntry "5" "hello" (Some {["a" := mk_attribute t (Some "v") None]}) "" "" None "".

Lemma sqs_requests_within_limits_witness :
  let trace := (sample_run accepting [typed_event "String.id"]).1 in
  let entry := typed_entry "String.id" in
  trace !! 2 = Some (called standard_queue [entry])
  /\ request_ok [typed_event "String.id"] standard_queue [entry]
  /\ type_name_fits (mk_attribute "String.id" (Some "v") None)
  /\ read_entry (convert_entry entry) = undelayed entry.
Proof.
  cbv zeta. split; [vm_compute; reflexivity|].
  destruct (sqs_requests_within_limits sample_overflow all_callbacks one_request [typed_event "String.id"]
    (sample_run accepting [typed_event "String.id"]).1 (sample_run accepting [typed_event "String.id"]).2
    (take 2 (sample_run accepting [typed_event "String.id"]).1) standard_queue [typed_entry "String.id"]
    (drop 3 (sample_run accepting [typed_event "String.id"]).1)) as (Hok & Hfits & Hread);
    [exact sample_digest_32|apply accepting_execution|apply split_at; vm_compute; reflexivity|].
  split; [exact Hok|]. split; [|exact (f_equal (List.hd (typed_entry "String.id")) Hread)].
  assert (Hshort : Forall short_type_names [typed_event "String.id"]).
  { constructor; [|constructor]. intros R attributes. intros Ha.
    apply (sqsAttributes_order R sample_range) in Ha as [= <-]. apply map_Forall_singleton. vm_compute. lia. }
  exact (proj2 (proj1 (Forall_singleton _ _) (Hfits Hshort) "a" _ eq_refl)).
Defined.

Lemma sqs_fifo_in_order_witness :
  accepted_trace !! 10 = Some (called fifo_queue [second_entry])
  /\ exists group before c after b,
    fifo_group sample_batch fifo_queue group = before ++ c :: after
    /\ [second_entry] = [b] /\ MessageGroupID b = group /\ entry_for fifo_queue (evt c) b
    /\ forall c', c' ∈ before -> resolved (take 10 accepted_trace) (ID (evt c')).
Proof.
  split; [vm_compute; reflexivity|].
  eapply (sqs_fifo_in_order sample_overflow all_callbacks one_request sample_batch accepted_trace);
    [exact sample_digest_32|apply accepting_execution| |vm_compute; reflexivity].
  apply split_at. vm_compute; reflexivity.
Defined.

Lemma sqs_outcomes_witness :
  ((sample_run accepting sample_batch).2 = None
   /\ forall e, e ∈ sample_batch -> resolved accepted_trace (ID e))
  /\ faulted_trace !! 6 = Some (reported (CbPoison (VInt KInt64 1) "InvalidMessageContents: bad"))
  /\ exists e, e ∈ sample_batch /\ ID e = VInt KInt64 1
      /\ poison_reason sample_overflow (take 6 faulted_trace) e "InvalidMessageContents: bad".
Proof.
  split; (split; [vm_compute; reflexivity|]).
  - apply (sqs_outcomes sample_overflow all_callbacks one_request sample_batch accepted_trace
      (sample_run accepting sample_batch).2);
      [exact sample_digest_32|apply accepting_execution|vm_compute; reflexivity|].
    intros e1 e2 H1 H2. unfold sample_batch in *.
    repeat (apply elem_of_cons in H1 as [->|H1]); try by apply elem_of_nil in H1.
    all: repeat (apply elem_of_cons in H2 as [->|H2]); try (by apply elem_of_nil in H2);
      vm_compute; congruence.
  - destruct (sqs_outcomes sample_overflow all_callbacks one_request sample_batch faulted_trace
      (sample_run faulting sample_batch).2) as [Hp _];
      [exact sample_digest_32|apply faulting_execution|].
    eapply Hp. apply split_at. vm_compute; reflexivity.
Defined.

Lemma sqs_in_flight_bounded_witness :
  (forall t1 t2, accepted_trace = t1 ++ t2 -> (in_flight t1 <= 1)%Z)
  /\ in_flight accepted_trace = 0%Z /\ in_flight (take 5 accepted_trace) = 1%Z.
Proof.
  destruct (sqs_in_flight_bounded sample_overflow all_callbacks one_request sample_batch accepted_trace
    (sample_run accepting sample_batch).2 [(1, 0)%Z]) as (Hb & H0 & _);
    [apply accepting_execution|vm_compute; reflexivity|].
  split_and!; [exact Hb|exact H0|vm_compute; reflexivity].
Defined.

Definition sample_prepared (size : Z) : sqsPreparedEvent := MkPrepared zero_log size second_entry.

Lemma chunkSQSStandardEvents_correct_witness :
  length <$> chunkSQSStandardEvents (sample_prepared <$> [600000; 500000; 3; 4]%Z) = [1; 3]
  /\ Forall chunk_ok (chunkSQSStandardEvents (sample_prepared <$> [600000; 500000; 3; 4]%Z)).
Proof.
  split; [vm_compute; reflexivity|].
  apply (chunkSQSStandardEvents_correct (sample_prepared <$> [600000; 500000; 3; 4]%Z)).
  repeat constructor; vm_compute; congruence.
Defined.

(** *** A limit the sender does not check *)

Definition long_type : string :=
  "String." +:+ String.concat "" (replicate 8 sample_padding).

(** An attribute whose type has a name of 263 characters is sent. *)
Lemma long_type_name_is_sent :
  exists tr err es b a,
    sqs_execution sample_overflow all_callbacks one_request [typed_event long_type] tr err
    /\ called standard_queue es ∈ tr /\ b ∈ es
    /\ default ∅ (Attributes b) !! "a" = Some a /\ ~ type_name_fits a.
Proof.
  eexists _, _, _, _, _. split; [apply accepting_execution|]. split.
  { eapply (list_elem_of_lookup_2 _ 2). vm_compute. reflexivity. }
  split; [apply list_elem_of_here|]. split; [reflexivity|].
  apply (bool_decide_unpack (~ type_name_fits _)). vm_compute. exact I.
Qed.
