(* ===== verification/PubSubSafety.v ===== *)
(** * What a send to Pub/Sub does, and why

    The limits the validation enforces, and one invariant of every execution of
    [sendPubsubEventsWithCallbacks], [pubsub_justified]: what must have preceded a confirmation, a
    poison report, the publish of a message and the wait for its result. *)
From S2P Require Import Prelude GoErrors Values Conc Provider SqsOptions PubSub.
Local Open Scope go_scope.

(** ** Limits *)

Definition topic_char (c : ascii) : bool := is_alnum c || string_elem c "._~+%-".

Record topic_id_ok (id : string) : Prop := {
  ti_letter : exists c rest, id = String c rest /\ (in_range "A" "Z" c || in_range "a" "z" c) = true;
  ti_chars : string_forallb topic_char id = true;
  ti_length : 3 <= String.length id <= 255;
  ti_reserved : strings_HasPrefix (strings_ToLower id) "goog" = false;
}.

Definition topic_ok (topic : string) : Prop :=
  topic_id_ok topic \/
  exists project id, topic = "projects/" +:+ project +:+ "/topics/" +:+ id
    /\ project <> "" /\ string_elem "/" project = false /\ topic_id_ok id.

Record pubsub_attribute_ok (key v : string) : Prop := {
  pa_key : 1 <= String.length key <= 256;
  pa_value : String.length v <= 1024;
  pa_reserved : strings_HasPrefix (strings_ToLower key) "goog" = false;
}.

Record message_ok (m : Message) : Prop := {
  mo_data : (len (Data m) <= 10000000)%Z;
  mo_something : Data m <> "" \/ default ∅ (msg_Attributes m) <> ∅ \/ OrderingKey m <> "";
  mo_count : size (default ∅ (msg_Attributes m)) <= 100;
  mo_attributes : map_Forall pubsub_attribute_ok (default ∅ (msg_Attributes m));
  mo_topic : topic_ok (Topic m);
}.

Lemma letter_topic_char c : in_range "A" "Z" c || in_range "a" "z" c = true -> topic_char c = true.
Proof. unfold topic_char, is_alnum. by intros ->. Qed.

Lemma pubsubTopicIDPattern_iff id :
  pubsubTopicIDPattern id = true <->
  (exists c rest, id = String c rest /\ in_range "A" "Z" c || in_range "a" "z" c = true)
  /\ string_forallb topic_char id = true /\ 3 <= String.length id <= 255.
Proof.
  unfold pubsubTopicIDPattern. destruct id as [|c rest].
  { split; [done|by intros [(? & ? & ? & _) _]]. }
  rewrite andb_true_iff, match_class_iff. simpl. rewrite andb_true_iff.
  change (fun c => is_alnum c || string_elem c "._~+%-") with topic_char. split.
  - intros (Hc & Hl & Hr). split; [eauto|]. split; [|lia].
    split; [by apply letter_topic_char|done].
  - intros ((c' & rest' & Heq & Hc) & [_ Hr] & Hl). simplify_eq. split; [done|]. split; [lia|done].
Qed.

Lemma validPubSubTopicID_iff id : validPubSubTopicID id = true <-> topic_id_ok id.
Proof.
  unfold validPubSubTopicID. rewrite andb_true_iff, negb_true_iff, pubsubTopicIDPattern_iff.
  split; [by intros (? & ? & ? & ?)|by intros []].
Qed.

(** *** Splitting at slashes *)


Lemma strings_Contains_char c s : strings_Contains s (String c EmptyString) = string_elem c s.
Proof.
  induction s as [|d s IH]; [done|]. cbn [strings_Contains string_elem]. rewrite <- IH. f_equal.
  simpl. unfold ascii_eqb. destruct (ascii_dec c d) as [->|Hne].
  - destruct s; by rewrite bool_decide_eq_true_2.
  - by rewrite bool_decide_eq_false_2.
Qed.

Lemma topic_id_no_slash id : topic_id_ok id -> string_elem "/" id = false.
Proof.
  intros [_ Hc _ _]. induction id as [|c id IH]; [done|]. simpl in *.
  apply andb_true_iff in Hc as [Hc Hid]. rewrite (IH Hid), orb_false_r.
  apply bool_decide_eq_false. by intros <-.
Qed.

Lemma validPubSubTopic_iff topic : validPubSubTopic topic = true <-> topic_ok topic.
Proof.
  unfold validPubSubTopic, topic_ok. rewrite strings_Contains_char.
  destruct (strings_Split_parts "/" topic) as [Hparts Hjoin].
  assert (Hid : (if string_elem "/" topic then false else validPubSubTopicID topic) = true
                <-> topic_id_ok topic).
  { rewrite <- validPubSubTopicID_iff. destruct (string_elem "/" topic) eqn:Hs; [|done].
    split; [done|]. intros H%validPubSubTopicID_iff%topic_id_no_slash. congruence. }
  assert (Hfull : forall project id, string_elem "/" project = false -> topic_id_ok id ->
    strings_Split ("projects/" +:+ project +:+ "/topics/" +:+ id) "/"
    = ["projects"; project; "topics"; id]).
  { intros project id Hp Hi.
    change ("projects/" +:+ project +:+ "/topics/" +:+ id)
      with ("projects" +:+ String "/" (project +:+ String "/" ("topics" +:+ String "/" id))).
    rewrite !strings_Split_app by done. by rewrite (strings_Split_none _ _ (topic_id_no_slash id Hi)). }
  split.
  - destruct (strings_Split topic "/") as [|p0 [|p1 [|p2 [|p3 [|p4 ps]]]]];
      try (intros Ht; left; by apply Hid).
    rewrite !andb_true_iff, !bool_decide_eq_true, validPubSubTopicID_iff.
    intros [[[-> Hp1] ->] Hp3]. right. exists p1, p3. simpl in Hjoin. split_and!; [|done| |done].
    + rewrite <- Hjoin. simpl. by rewrite !string_app_cons.
    + by apply Forall_cons in Hparts as [_ [? _]%Forall_cons].
  - intros [Ht|(project & id & -> & Hne & Hp & Hi)].
    + pose proof (topic_id_no_slash topic Ht) as Hs. rewrite (strings_Split_none _ _ Hs).
      by apply Hid.
    + rewrite (Hfull project id Hp Hi). by rewrite !andb_true_iff, !bool_decide_eq_true,
        validPubSubTopicID_iff.
Qed.

(** *** Messages *)

Lemma pubsub_attribute_iff key v : valid_attribute key v = true <-> pubsub_attribute_ok key v.
Proof.
  unfold valid_attribute, pubsubMaxAttributeKeyBytes, pubsubMaxAttributeValueBytes, len.
  rewrite !if_false_iff, orb_false_iff, !Z.ltb_ge, bool_decide_eq_false, negb_true_iff. split.
  - intros (Hne & [Hk Hv] & Hg). split; [|lia|done]. destruct key; [done|simpl in *; lia].
  - intros [Hk Hv Hg]. split_and!; [|lia|lia|done]. intros ->. simpl in Hk. lia.
Qed.

Lemma validPubSubAttributes_iff `{MapRange} attributes :
  validPubSubAttributes attributes = true
  <-> size attributes <= 100 /\ map_Forall pubsub_attribute_ok attributes.
Proof.
  unfold validPubSubAttributes, pubsubMaxAttributes. rewrite if_false_iff, Z.ltb_ge, forallb_forall.
  split.
  - intros [Hs Ha]. split; [lia|]. intros k v Hk. apply pubsub_attribute_iff.
    apply (Ha (k, v)), list_elem_of_In, elem_of_range, Hk.
  - intros [Hs Ha]. split; [lia|]. intros [k v] Hin%list_elem_of_In%elem_of_range.
    by apply pubsub_attribute_iff, Ha.
Qed.

Lemma pubsubPoisonReason_ok `{MapRange} m : pubsubPoisonReason m = None <-> message_ok m.
Proof.
  unfold pubsubPoisonReason. split.
  - destruct (Z.ltb_spec pubsubMaxMessageDataBytes (len (Data m))) as [|Hd]; [done|].
    destruct (_ && _) eqn:He; [done|].
    destruct (validPubSubAttributes _) eqn:Ha; [|done].
    destruct (validPubSubTopic _) eqn:Ht; [|done]. intros _.
    apply validPubSubAttributes_iff in Ha as [Hs Ha]. apply validPubSubTopic_iff in Ht.
    split; try done. rewrite !andb_false_iff, !bool_decide_eq_false in He.
    destruct He as [[He|He]|He]; [left; intros Hn; rewrite Hn in He; done| |by right; right].
    right. left. by rewrite map_size_empty_iff in He.
  - intros [Hd Hs Hn Ha Ht]. unfold pubsubMaxMessageDataBytes.
    destruct (Z.ltb_spec 10000000 (len (Data m))); [lia|].
    assert (bool_decide (len (Data m) = 0%Z) && bool_decide (size (default ∅ (msg_Attributes m)) = 0)
            && bool_decide (OrderingKey m = "") = false) as ->.
    { rewrite !andb_false_iff, !bool_decide_eq_false, map_size_empty_iff.
      destruct Hs as [Hs|[Hs|Hs]]; [|tauto..]. left. left. unfold len.
      destruct (Data m); [done|]. simpl. lia. }
    assert (validPubSubAttributes (default ∅ (msg_Attributes m)) = true) as ->
      by by apply validPubSubAttributes_iff.
    by assert (validPubSubTopic (Topic m) = true) as -> by by apply validPubSubTopic_iff.
Qed.

(** ** The contract of the client, and the invariant *)

Section contract.
Context `{GoRuntime}.

Definition published (m : Message) (res : nat) : pubsub_action := existT (inr (Publish m)) res.
Definition flushed (topic : string) : pubsub_action := existT (inr (Flush topic)) tt.
Definition got (res : nat) (m : Message) (r : error + string) : pubsub_action :=
  existT (inr (Get res m)) r.
Definition reported (cb : callback) : pubsub_action := did cb.

Definition fatal (err : option error) : bool := errors_Is err ErrFatalAfterCommit.

Lemma fatal_Join errs : fatal (errors_Join errs) = existsb fatal errs.
Proof. apply errors_Is_Join. Qed.

(** The client does not return the relay's own sentinel. *)
Definition pubsub_contract (a : pubsub_action) : Prop :=
  match projT1 a as c return resp pubsub_resp c -> Prop with
  | inr (Get _ _) => fun r =>
      match r with inl err => fatal (Some err) = false | inr _ => True end
  | _ => fun _ => True
  end (projT2 a).

(** The message of an event: its payload to its topic, with its ordering key and its string
    attributes. *)
Definition message_for (e : Event) (m : Message) : Prop :=
  exists okey attributes,
    Options_String (EvtOptions e) "orderingKey" = inr okey
    /\ Options_Object (EvtOptions e) "attributes" = inr attributes
    /\ m = message (prepared_event (MkCandidate e okey) attributes).

Definition resolved (h : list pubsub_action) (id : value) : Prop :=
  reported (CbConfirm id) ∈ h \/ exists reason, reported (CbPoison id reason) ∈ h.

(** The client confirmed a publish of the event's message. *)
Definition accepted (h : list pubsub_action) (e : Event) : Prop :=
  exists m res messageID, message_for e m
    /\ [published m res; got res m (inr messageID)] `sublist_of` h.

(** The client collects messages in a bundle for each topic and ordering key, and a flush of the
    topic sends them. *)
Definition same_bundle (m m' : Message) : Prop := Topic m = Topic m' /\ OrderingKey m = OrderingKey m'.

(** The message is alone in its bundle: of what the history has before its publish nothing is left to
    flush, and between its publish and its wait, [between], it is flushed and nothing else
    joins it. *)
Record alone (m : Message) (before between : list pubsub_action) : Prop := {
  al_nothing_pending : forall b1 m' res' b2, before = b1 ++ published m' res' :: b2 -> same_bundle m' m ->
    flushed (Topic m) ∈ b2;
  al_flushed : flushed (Topic m) ∈ between;
  al_nothing_joins : forall m' res', published m' res' ∈ between -> ~ same_bundle m' m;
}.

(** The documented reasons to report an event as poison.  A rejection by the backend is one when it
    is permanent twice, the second time for the message alone. *)
Inductive poison_reason (h : list pubsub_action) (e : Event) : string -> Prop :=
| poison_options err :
    Options_String (EvtOptions e) "orderingKey" = inl err
    \/ Options_Object (EvtOptions e) "attributes" = inl err ->
    poison_reason h e (error_text err)
| poison_local m reason :
    message_for e m -> ~ message_ok m -> poison_reason h e reason
| poison_backend m res1 err1 res2 err2 before between after :
    message_for e m ->
    h = before ++ published m res2 :: between ++ got res2 m (inl err2) :: after ->
    [published m res1; got res1 m (inl err1)] `sublist_of` before ->
    alone m before between ->
    isPubSubPermanentBackendError err1 = true -> isPubSubPermanentBackendError err2 = true ->
    poison_reason h e (error_text err2).

Context (evts : list Event).

Definition pubsub_candidate (e : Event) : option pubsubCandidateEvent :=
  match Options_String (EvtOptions e) "orderingKey" with
  | inl _ => None
  | inr okey => Some (MkCandidate e okey)
  end.

(** The events of an ordering group, in the order of the batch. *)
Definition ordered_group (group : string) : list pubsubCandidateEvent :=
  filter (fun c => pubsub_groupID c = group)
    (filter (fun c => orderingKey c <> "") (omap pubsub_candidate evts)).

Definition pubsub_turn (h : list pubsub_action) (m : Message) : Prop :=
  OrderingKey m <> "" ->
  exists group before c after,
    ordered_group group = before ++ c :: after /\ message_for (evt c) m
    /\ orderingKey c = OrderingKey m
    /\ forall c', c' ∈ before -> resolved h (ID (evt c')).

(** The events of a goroutine are those whose messages are in its [scope]. *)
Definition known (scope : Message -> Prop) (e : Event) : Prop :=
  e ∈ evts /\ forall m, message_for e m -> scope m.

Definition pubsub_justified (scope : Message -> Prop) (a : pubsub_action) (h : list pubsub_action) : Prop :=
  match projT1 a with
  | inl (CbConfirm id) => exists e, e ∈ evts /\ ID e = id /\ accepted h e
  | inl (CbPoison id reason) => exists e, known scope e /\ ID e = id /\ poison_reason h e reason
  | inl _ => True
  | inr (Publish m) =>
      message_ok m /\ (exists e, known scope e /\ message_for e m) /\ pubsub_turn h m
  | inr (Get res m) => [published m res; flushed (Topic m)] `sublist_of` h
  | inr _ => True
  end.

Lemma pubsub_resolved_mono h h' id : h `sublist_of` h' -> resolved h id -> resolved h' id.
Proof.
  intros Hs [Hc|[reason Hp]]; [left|right; exists reason]; by eapply elem_of_sublist.
Qed.

Lemma pubsub_turn_mono h h' m : h `sublist_of` h' -> pubsub_turn h m -> pubsub_turn h' m.
Proof.
  intros Hs Ht Hk. destruct (Ht Hk) as (g & before & c & after & Hg & Hm & Ho & Hres).
  exists g, before, c, after. split_and!; [done..|]. intros c' Hc'. eapply pubsub_resolved_mono; eauto.
Qed.

(** Nothing that is inserted publishes in the bundle. *)
Lemma alone_extends (P : pubsub_action -> Prop) m before before' between between' :
  (forall m' res', P (published m' res') -> ~ same_bundle m' m) ->
  extends P before before' -> extends P between between' -> alone m before between -> alone m before' between'.
Proof.
  intros HP Hb Hbt [Hpend Hfl Hjoin]. split.
  - intros b1 m' res' b2 -> Hsame. apply extends_cut in Hb as (c1 & c2 & -> & _ & Hc2); [|by intros HPm; apply (HP _ _ HPm)].
    eapply elem_of_sublist; [by eapply Hpend|by eapply extends_sublist].
  - eapply elem_of_sublist; [done|by eapply extends_sublist].
  - intros m' res' Hin. destruct (extends_elem _ _ _ _ Hbt Hin); [by eapply Hjoin|by eapply HP].
Qed.

Lemma poison_reason_extends (P : pubsub_action -> Prop) h h' e reason :
  (forall m m' res', message_for e m -> P (published m' res') -> ~ same_bundle m' m) ->
  extends P h h' -> poison_reason h e reason -> poison_reason h' e reason.
Proof.
  intros HP He [err Herr|m reason' Hm Hbad|m res1 err1 res2 err2 before between after Hm -> Hfirst Hal H1 H2];
    [by constructor 1|by econstructor 2|].
  apply extends_split in He as (before' & rest & -> & Hb & Hrest).
  apply extends_split in Hrest as (between' & after' & -> & Hbt & _).
  apply (poison_backend _ _ m res1 err1 res2 err2 before' between' after'); [done|done| | |done|done].
  - trans before; [done|by eapply extends_sublist].
  - eapply alone_extends; [|done..]. intros m' res'. by apply HP.
Qed.

(** What justifies an action of a goroutine justifies it when actions of goroutines with other scopes
    come in between. *)
Lemma pubsub_justified_extends (scope : Message -> Prop) (P : pubsub_action -> Prop) a h h' :
  (forall m m' res', scope m -> P (published m' res') -> ~ same_bundle m' m) ->
  extends P h h' -> pubsub_justified scope a h -> pubsub_justified (fun _ => True) a h'.
Proof.
  intros HP He. pose proof (extends_sublist _ _ _ He) as Hs. destruct a as [[[id|id reason| |]|[m|topic|topic key|res m]] r];
    unfold pubsub_justified; simpl; try done.
  - intros (e & Hin & Hid & m & res & mid & Hm & Hsub). exists e. split_and!; [done..|].
    exists m, res, mid. split; [done|]. by trans h.
  - intros (e & [Hin Hsc] & Hid & Hr). exists e. split_and!; [by split|done|].
    eapply poison_reason_extends; [|done..]. intros m m' res' Hm. by apply HP, Hsc.
  - intros (Hok & (e & [Hin _] & Hm) & Ht). split_and!; [done|exists e; by split|by eapply pubsub_turn_mono].
  - intros Hsub. by trans h.
Qed.

(** A wait for an ordered message that timed out: its outcome is unknown. *)
Definition ordered_timeout (a : pubsub_action) : Prop :=
  match projT1 a as c return resp pubsub_resp c -> Prop with
  | inr (Get _ m) => fun r =>
      match r with inl err => OrderingKey m <> "" /\ deadline err = true | inr _ => False end
  | _ => fun _ => False
  end (projT2 a).

(** Every publish is flushed. *)
Definition settled (h : list pubsub_action) : Prop :=
  forall h1 m res h2, h = h1 ++ published m res :: h2 -> flushed (Topic m) ∈ h2.

Lemma settled_nil : settled [].
Proof. by intros []. Qed.

Lemma settled_app h t : settled h -> settled t -> settled (h ++ t).
Proof.
  intros Hh Ht h1 m res h2 Heq. apply app_eq_inv in Heq as [(k & -> & Heq)|(k & -> & ->)].
  - destruct k as [|x k]; simplify_eq/=; [by eapply (Ht [])|]. apply elem_of_app. left. by eapply Hh.
  - by eapply Ht.
Qed.

Lemma settled_snoc a : (forall m res, a <> published m res) -> settled [a].
Proof. intros Ha [|x h1] m res h2 Heq; simplify_eq/=; [by destruct (Ha m res)|by destruct h1]. Qed.

(** An action that the result need not tell of: no publish, and no timeout of an ordered message. *)
Definition tame (a : pubsub_action) : Prop :=
  ~ ordered_timeout a /\ forall m res, a <> published m res.

(** What one step of a sender may add to the history without the result telling. *)
Definition calm_step (h h' : list pubsub_action) : Prop :=
  exists t, h' = h ++ t /\ (forall a, a ∈ t -> ~ ordered_timeout a) /\ settled t.

Lemma calm_refl h : calm_step h h.
Proof. exists []. split_and!; [by rewrite app_nil_r|set_solver|apply settled_nil]. Qed.

Lemma calm_trans h1 h2 h3 : calm_step h1 h2 -> calm_step h2 h3 -> calm_step h1 h3.
Proof.
  intros (t1 & -> & H1 & S1) (t2 & -> & H2 & S2). exists (t1 ++ t2).
  split_and!; [by rewrite (assoc_L (++))| |by apply settled_app].
  intros a [?|?]%elem_of_app; auto.
Qed.

Lemma calm_sublist h h' : calm_step h h' -> h `sublist_of` h'.
Proof. intros (t & -> & _). by apply sublist_inserts_r. Qed.

Lemma calm_snoc h a : tame a -> calm_step h (h ++ [a]).
Proof.
  intros [Ha Hp]. exists [a]. split_and!; [done| |by apply settled_snoc].
  by intros b ->%list_elem_of_singleton.
Qed.

Lemma calm_settled h h' : calm_step h h' -> settled h -> settled h'.
Proof. intros (t & -> & _ & Ht) Hh. by apply settled_app. Qed.

(** A publish and the flush that follows it. *)
Lemma calm_flushed h m res : calm_step h (h ++ [published m res; flushed (Topic m)]).
Proof.
  exists [published m res; flushed (Topic m)]. split_and!; [done| |].
  - by intros a [->|[->|[]%not_elem_of_nil]%elem_of_cons]%elem_of_cons [].
  - intros [|x [|y h1]] m' res' h2 Heq; simplify_eq/=; [apply list_elem_of_here|by destruct h1].
Qed.

(** Every ordered timeout since [h] is reported as fatal, and fatal means there was one. *)
Definition fatal_iff_timeout (h h' : list pubsub_action) (err : option error) : Prop :=
  exists t, h' = h ++ t
    /\ (fatal err = true <-> exists a, a ∈ t /\ ordered_timeout a).

Lemma calm_fatal h h' err :
  calm_step h h' -> fatal err = false -> fatal_iff_timeout h h' err.
Proof.
  intros (t & -> & Ht & _) He. exists t. split; [done|]. rewrite He. split; [done|].
  intros (a & Ha & Hto). by destruct (Ht a Ha).
Qed.

Lemma calm_then_fatal h h1 h2 err :
  calm_step h h1 -> fatal_iff_timeout h1 h2 err -> fatal_iff_timeout h h2 err.
Proof.
  intros (t1 & -> & H1 & _) (t2 & -> & H2). exists (t1 ++ t2). split; [by rewrite (assoc_L (++))|].
  rewrite H2. split; intros (a & Ha & Hto); exists a; [set_solver|].
  apply elem_of_app in Ha as [Ha|Ha]; [by destruct (H1 a Ha)|done].
Qed.

Lemma timeout_then_calm h a h' err :
  ordered_timeout a -> calm_step (h ++ [a]) h' -> fatal err = true -> fatal_iff_timeout h h' err.
Proof.
  intros Ha (t & -> & _) He. exists (a :: t). rewrite <- (assoc_L (++)). split; [done|].
  rewrite He. split; [|done]. intros _. exists a. set_solver.
Qed.

End contract.

(** ** The proof, operation by operation *)

Section safety.
Context `{GoRuntime} `{MapRange} (callbacks : Callbacks) (evts : list Event) (scope : Message -> Prop).

Abbreviation swp := (wp pubsub_contract (pubsub_justified evts scope)).
Abbreviation known := (known evts scope).

Implicit Types (h : list pubsub_action) (e : Event) (p : pubsubPreparedEvent).

Lemma wp_ps_call h (c : pubsub_cmd) (Q : _ -> pubsub_resp c -> Prop) :
  (forall r, pubsub_contract (existT (inr c) r) ->
     pubsub_justified evts scope (existT (inr c) r) h /\ Q (h ++ [existT (inr c) r]) r) ->
  swp h (call c) Q.
Proof. apply wp_command. Qed.

Lemma tame_callback cb : tame (reported cb).
Proof. split; [by intros []|done]. Qed.

Lemma calm_ps_callback h t cb : (forall a, a ∈ t -> a = did cb) -> calm_step h (h ++ t).
Proof.
  intros Ht. exists t. split_and!; [done| |].
  - intros a ->%Ht. apply tame_callback.
  - intros t1 m res t2 ->. by specialize (Ht (published m res) ltac:(set_solver)).
Qed.

Lemma wp_ps_poison h e reason (Q : _ -> unit -> Prop) :
  known e -> poison_reason h e reason ->
  (forall h', calm_step h h' -> resolved h' (ID e) -> Q h' tt) ->
  swp h (AddPoisonID (ID e) reason) Q.
Proof.
  intros He Hr HQ. apply wp_callback; [by exists e|].
  apply HQ; [apply calm_snoc, tame_callback|]. right. exists reason. set_solver.
Qed.

Lemma wp_ps_confirm h e (Q : _ -> unit -> Prop) :
  known e -> accepted h e ->
  (forall h', calm_step h h' -> resolved h' (ID e) -> Q h' tt) ->
  swp h (AddConfirmedID (ID e)) Q.
Proof.
  intros [He _] Ha HQ. apply wp_callback; [by exists e|].
  apply HQ; [apply calm_snoc, tame_callback|]. left. set_solver.
Qed.

Lemma wp_ps_ReportFailure h message signature (Q : _ -> unit -> Prop) :
  (forall h', calm_step h h' -> Q h' tt) ->
  swp h (ReportFailure callbacks message signature) Q.
Proof. intros HQ. apply wp_optional; [done|]. intros t Ht. apply HQ. by eapply calm_ps_callback. Qed.

Lemma wp_ps_Progress h (Q : _ -> unit -> Prop) :
  (forall h', calm_step h h' -> Q h' tt) -> swp h (Progress callbacks) Q.
Proof. intros HQ. apply wp_optional; [done|]. intros t Ht. apply HQ. by eapply calm_ps_callback. Qed.

Lemma wp_ps_RejectMalformedOptions h e field err (Q : _ -> unit -> Prop) :
  known e -> poison_reason h e (error_text err) ->
  (forall h', calm_step h h' -> resolved h' (ID e) -> Q h' tt) ->
  swp h (RejectMalformedOptions callbacks pubsub_Target e field err) Q.
Proof.
  intros He Hr HQ. apply wp_bind. apply wp_ps_poison; [done..|].
  intros h1 Hc Hres. apply wp_ps_ReportFailure. intros h2 Hc2.
  apply HQ; [by eapply calm_trans|]. eapply pubsub_resolved_mono; [by apply calm_sublist|done].
Qed.

(** *** Preparing events *)

Lemma wp_parsePubsubCandidate e h :
  known e ->
  swp h (parsePubsubCandidate callbacks e) (fun h' r =>
    calm_step h h' /\ r = pubsub_candidate e /\ (r = None -> resolved h' (ID e))).
Proof.
  intros He. unfold parsePubsubCandidate, pubsub_candidate.
  destruct (Options_String (EvtOptions e) "orderingKey") as [err|okey] eqn:Ho.
  - apply wp_bind, wp_ps_RejectMalformedOptions; [done|by apply poison_options; left|].
    intros h' Hc Hr. by apply wp_ret.
  - apply wp_ret. split; [apply calm_refl|done].
Qed.

(** A prepared event and the event it was made from. *)
Record prepared_for e p : Prop := {
  pf_message : message_for e (message p);
  pf_ok : message_ok (message p);
  pf_log : log_ID (log p) = ID e;
}.

Lemma wp_preparePubsubEvent c h :
  known (evt c) -> pubsub_candidate (evt c) = Some c ->
  swp h (preparePubsubEvent callbacks c) (fun h' r => calm_step h h' /\
    match r with
    | Some p => prepared_for (evt c) p /\ OrderingKey (message p) = orderingKey c
    | None => resolved h' (ID (evt c))
    end).
Proof.
  intros He Hc. unfold preparePubsubEvent.
  unfold pubsub_candidate in Hc.
  destruct (Options_String (EvtOptions (evt c)) "orderingKey") as [|okey] eqn:Ho; [done|].
  assert (Hcc : c = MkCandidate (evt c) okey) by congruence.
  destruct (Options_Object (EvtOptions (evt c)) "attributes") as [err|attributes] eqn:Ha.
  { apply wp_bind, wp_ps_RejectMalformedOptions; [done|by apply poison_options; right|].
    intros h' Hcalm Hr. by apply wp_ret. }
  assert (Hm : message_for (evt c) (message (prepared_event c attributes))).
  { exists okey, attributes. split_and!; [done..|]. by rewrite <- Hcc. }
  destruct (pubsubPoisonReason _) as [reason|] eqn:Hp.
  - apply wp_bind, wp_ps_poison; [done| |].
    { eapply poison_local; [done|]. rewrite <- pubsubPoisonReason_ok. by rewrite Hp. }
    intros h1 Hcalm Hres. by apply wp_ret.
  - apply pubsubPoisonReason_ok in Hp. apply wp_ret. split; [apply calm_refl|].
    split; [by split|done].
Qed.

(** *** Publishing and waiting *)

Lemma wp_publishPubsubEvent e p h (Q : _ -> nat -> Prop) :
  known e -> prepared_for e p -> pubsub_turn evts h (message p) ->
  (forall res, Q (h ++ [published (message p) res]) res) ->
  swp h (publishPubsubEvent p) Q.
Proof.
  intros He [Hm Hok _] Ht HQ. apply (wp_ps_call h (Publish (message p)) Q).
  intros res _. split; [|apply HQ].
  split_and!; [done|by exists e|done].
Qed.

Lemma tame_flushed topic : tame (flushed topic).
Proof. split; [by intros []|done]. Qed.

Lemma tame_got res m r : ~ ordered_timeout (got res m r) -> tame (got res m r).
Proof. by split. Qed.

Lemma sublist_snoc {X} (l h : list X) x : l `sublist_of` h -> l ++ [x] `sublist_of` h ++ [x].
Proof. intros Hl. by apply sublist_app. Qed.

Lemma wp_awaitPubsubResult p res h (Q : _ -> error + string -> Prop) :
  [published (message p) res; flushed (Topic (message p))] `sublist_of` h ->
  (forall r h', pubsub_contract (got res (message p) r) ->
     calm_step (h ++ [got res (message p) r]) h' -> Q h' r) ->
  swp h (awaitPubsubResult callbacks p res) Q.
Proof.
  intros Hsub HQ. apply wp_bind, (wp_ps_call h (Get res (message p))). intros r Hr. split; [exact Hsub|].
  apply wp_bind, wp_ps_Progress. intros h' Hc. apply wp_ret. by apply HQ.
Qed.

(** A message published, flushed and awaited: what the history then holds. *)
Record exchange h h' (m : Message) (res : nat) (r : error + string) : Prop := {
  ex_calm : exists h1, calm_step h h1 /\ calm_step (h1 ++ [got res m r]) h';
  ex_apart : exists after, h' = h ++ published m res :: [flushed (Topic m)] ++ got res m r :: after;
  ex_contract : pubsub_contract (got res m r);
}.

Lemma exchange_calm h h' m res r :
  exchange h h' m res r -> ~ ordered_timeout (got res m r) -> calm_step h h'.
Proof.
  intros [(h1 & Hc1 & Hc2) _ _] Hnot. eapply calm_trans; [done|].
  eapply calm_trans; [by apply calm_snoc, tame_got|done].
Qed.

Lemma exchange_fatal h h' h2 m res r err :
  exchange h h' m res r -> ordered_timeout (got res m r) -> calm_step h' h2 -> fatal err = true ->
  fatal_iff_timeout h h2 err.
Proof.
  intros [(h1 & Hc1 & Hc2) _ _] Hto Hc3 He. eapply calm_then_fatal; [done|].
  eapply timeout_then_calm; [done|by eapply calm_trans|done].
Qed.

Lemma exchange_sublist h h' m res r : exchange h h' m res r -> h `sublist_of` h'.
Proof.
  intros [_ (after & ->) _]. by apply sublist_inserts_r.
Qed.

Lemma exchange_pair h h' m res r : exchange h h' m res r -> [published m res; got res m r] `sublist_of` h'.
Proof.
  intros [_ (after & ->) _]. apply sublist_inserts_l, sublist_skip, sublist_cons, sublist_skip, sublist_nil_l.
Qed.

(** Nothing else joins the bundle of an exchange. *)
Lemma settled_alone h m : settled h -> alone m h [flushed (Topic m)].
Proof.
  intros Hs. split.
  - intros b1 m' res' b2 Heq [<- _]. by eapply Hs.
  - apply list_elem_of_here.
  - by intros m' res' [= ?]%list_elem_of_singleton.
Qed.

Lemma wp_send_one {A} e p h (k : nat -> error + string -> pubsub_prog A) (Q : _ -> A -> Prop) :
  known e -> prepared_for e p -> pubsub_turn evts h (message p) ->
  (forall h' res r, exchange h h' (message p) res r -> swp h' (k res r) Q) ->
  swp h (do! res <- publishPubsubEvent p;
         run! call (Flush (Topic (message p)));
         do! r <- awaitPubsubResult callbacks p res;
         k res r) Q.
Proof.
  intros He Hp Ht Hk. apply wp_bind. eapply wp_publishPubsubEvent; [done..|]. intros res.
  apply wp_bind, (wp_ps_call _ (Flush (Topic (message p)))). intros [] _. split; [done|].
  apply wp_bind, wp_awaitPubsubResult.
  { rewrite <- (assoc_L (++)). by apply sublist_inserts_l. }
  intros r h' Hr Hc. rewrite <- (assoc_L (++) h) in Hc. apply Hk. split; [| |done].
  - eexists. split; [|exact Hc]. apply calm_flushed.
  - destruct Hc as (after & -> & _). exists after. by rewrite <- !(assoc_L (++)).
Qed.

Lemma wp_markPubsubDone e p mid h h' res (Q : _ -> unit -> Prop) :
  known e -> prepared_for e p -> exchange h h' (message p) res (inr mid) ->
  (forall h2, calm_step h h2 -> resolved h2 (ID e) -> Q h2 tt) ->
  swp h' (markPubsubDone p mid) Q.
Proof.
  intros He Hp Hx HQ. unfold markPubsubDone. rewrite (pf_log _ _ Hp). apply wp_ps_confirm; [done| |].
  - exists (message p), res, mid. split; [apply Hp|].
    by eapply exchange_pair.
  - intros h2 Hc Hres. apply HQ; [|done]. eapply calm_trans; [|done].
    eapply exchange_calm; [done|]. by intros [].
Qed.

Lemma resume_calm p h : calm_step h (h ++ [existT (inr (ResumePublish (Topic (message p)) (OrderingKey (message p)))) tt : pubsub_action]).
Proof. apply calm_snoc. split; [by intros []|done]. Qed.

Lemma wp_resume p h (Q : _ -> unit -> Prop) :
  (forall h', calm_step h h' -> Q h' tt) -> swp h (resume p) Q.
Proof.
  intros HQ. apply (wp_ps_call h (ResumePublish _ _) Q). intros [] _. split; [done|].
  apply HQ, resume_calm.
Qed.

(** What a send of one event leaves: fatal exactly when its own wait timed out in an ordering
    group, and the event resolved unless there is an error. *)
Definition one_done e p h h' (r : bool * option error) : Prop :=
  fatal_iff_timeout h h' r.2
  /\ (OrderingKey (message p) = "" -> calm_step h h' /\ fatal r.2 = false)
  /\ (r.2 = None -> r.1 = true /\ calm_step h h' /\ resolved h' (ID e)).

Lemma wp_sendPubsubIsolated e p h ordered res1 err1 :
  known e -> prepared_for e p -> pubsub_turn evts h (message p) -> settled h ->
  ordered = bool_decide (OrderingKey (message p) <> "") ->
  [published (message p) res1; got res1 (message p) (inl err1)] `sublist_of` h ->
  isPubSubPermanentBackendError err1 = true ->
  swp h (sendPubsubIsolated callbacks p ordered) (one_done e p h).
Proof.
  intros He Hp Ht Hsettled Hord Hfirst Hperm1. apply (wp_send_one e); [done..|]. intros h1 res r Hx.
  destruct r as [err|mid].
  2:{ apply wp_bind. eapply wp_markPubsubDone; [done..|]. intros h2 Hc Hres. apply wp_ret.
      split_and!; [by apply calm_fatal|done|done]. }
  pose proof (ex_contract _ _ _ _ _ Hx) as Herr. unfold pubsub_contract in Herr. simpl in Herr.
  apply wp_bind. eapply wp_mono with (Q := fun h2 _ => calm_step h1 h2).
  { destruct (ordered && negb (deadline err)); [by apply wp_resume|]. apply wp_ret, calm_refl. }
  intros h2 [] _ Hc2. destruct (deadline err && ordered) eqn:Hfatal.
  - apply andb_true_iff in Hfatal as [Hd ->]. symmetry in Hord. apply bool_decide_eq_true in Hord.
    apply wp_bind, wp_ps_ReportFailure. intros h3 Hc3. apply wp_ret. split_and!; [|done|done].
    eapply exchange_fatal; [done|done|by eapply calm_trans|]. cbn [snd]. by rewrite fatal_Join.
  - assert (Hcalm : calm_step h h2).
    { eapply calm_trans; [|done]. eapply exchange_calm; [done|]. intros [Hk Hd].
      rewrite Hd, Hord in Hfatal. by rewrite bool_decide_eq_true_2 in Hfatal. }
    destruct (isPubSubPermanentBackendError err) eqn:Hperm.
    + apply wp_bind. rewrite (pf_log _ _ Hp). apply wp_ps_poison; [done| |].
      { destruct (ex_apart _ _ _ _ _ Hx) as (after & ->), Hc2 as (t & -> & _).
        eapply (poison_backend _ _ (message p) res1 err1 res err h [flushed (Topic (message p))] (after ++ t));
          [apply Hp| |done|by apply settled_alone|done|done].
        by rewrite <- (assoc_L (++)). }
      intros h3 Hc3 Hres. apply wp_bind, wp_ps_ReportFailure. intros h4 Hc4. apply wp_ret.
      assert (calm_step h h4) by (eapply calm_trans; [done|by eapply calm_trans]).
      split_and!; [by apply calm_fatal|done|].
      * intros _. split_and!; [done..|]. apply (pubsub_resolved_mono h3); [by apply calm_sublist|done].
    + apply wp_bind, wp_ps_ReportFailure. intros h3 Hc3. apply wp_ret.
      assert (calm_step h h3) by by eapply calm_trans.
      split_and!; [by apply calm_fatal|done|done].
Qed.

(** *** Ordering groups *)

(** The events of an ordered group. *)
Lemma ordered_group_events group c :
  c ∈ ordered_group evts group -> evt c ∈ evts /\ pubsub_candidate (evt c) = Some c /\ orderingKey c <> "".
Proof.
  intros (_ & (Hk & (e & He & Hc)%list_elem_of_omap)%list_elem_of_filter)%list_elem_of_filter.
  unfold pubsub_candidate in *. destruct (Options_String (EvtOptions e) _) eqn:Ho; simplify_eq/=.
  by rewrite Ho.
Qed.

(** One event of the group, after those before it were resolved. *)
Lemma wp_send_ordered_event group done c rest h h1 :
  ordered_group evts group = done ++ c :: rest -> known (evt c) -> settled h -> calm_step h h1 ->
  (forall c', c' ∈ done -> resolved h1 (ID (evt c'))) ->
  swp h1 (send_ordered_event callbacks tt c) (fun h' r =>
    match r with
    | inl _ => calm_step h h' /\ forall c', c' ∈ done ++ [c] -> resolved h' (ID (evt c'))
    | inr err => fatal_iff_timeout h h' err /\ err <> None
    end).
Proof.
  intros Hsplit Hknown Hsettled Hc1 Hdone. unfold send_ordered_event.
  destruct (ordered_group_events group c) as (He & Hcand & Hkey); [rewrite Hsplit; set_solver|].
  apply wp_bind. eapply wp_mono; [by apply wp_preparePubsubEvent|].
  intros h2 [p|] _ [Hc2 Hp].
  2:{ apply wp_ret. split; [by eapply calm_trans|].
      intros c' [Hc'| ->%list_elem_of_singleton]%elem_of_app; [|done].
      eapply pubsub_resolved_mono; [by apply calm_sublist|auto]. }
  destruct Hp as [Hp Hpk].
  assert (Hnext : forall h3, calm_step h h3 -> h2 `sublist_of` h3 -> resolved h3 (ID (evt c)) ->
    calm_step h h3 /\ forall c', c' ∈ done ++ [c] -> resolved h3 (ID (evt c'))).
  { intros h3 Hc3 Hs Hres. split; [done|].
    intros c' [Hc'| ->%list_elem_of_singleton]%elem_of_app; [|done].
    eapply pubsub_resolved_mono; [|by apply Hdone]. trans h2; [by apply calm_sublist|done]. }
  assert (Hturn : forall h3, h2 `sublist_of` h3 -> pubsub_turn evts h3 (message p)).
  { intros h3 Hs _. exists group, done, c, rest. split_and!; [done|apply Hp|done|].
    intros c' Hc'. eapply pubsub_resolved_mono; [|by apply Hdone]. trans h2; [by apply calm_sublist|done]. }
  assert (Hc02 : calm_step h h2) by by eapply calm_trans.
  apply (wp_send_one (evt c)); [done|done|by apply Hturn|]. intros h3 res r Hx.
  destruct r as [err|mid].
  2:{ apply wp_bind. eapply wp_markPubsubDone; [done..|]. intros h4 Hc4 Hres. apply wp_ret.
      apply Hnext; [by eapply calm_trans|by apply calm_sublist|done]. }
  pose proof (ex_contract _ _ _ _ _ Hx) as Herr. unfold pubsub_contract in Herr. simpl in Herr.
  destruct (deadline err) eqn:Hd.
  { apply wp_bind, wp_ps_ReportFailure. intros h4 Hc4. apply wp_ret. split; [|done].
    eapply calm_then_fatal; [done|]. eapply exchange_fatal; [done| |done|by rewrite fatal_Join].
    split; [by rewrite Hpk|done]. }
  assert (Hc23 : calm_step h2 h3).
  { eapply exchange_calm; [done|]. intros [_ Hd']. congruence. }
  destruct (isPubSubPermanentBackendError err) eqn:Hperm.
  - apply wp_bind, wp_resume. intros h4 Hc4. apply wp_bind.
    assert (Hc24 : calm_step h2 h4) by by eapply calm_trans.
    eapply wp_mono.
    { apply (wp_sendPubsubIsolated (evt c) p h4 true res err); [done|done| | | | |done].
      - apply Hturn. by apply calm_sublist.
      - apply (calm_settled h); [by eapply calm_trans|done].
      - symmetry. apply bool_decide_eq_true. by rewrite Hpk.
      - trans h3; [by eapply exchange_pair|by apply calm_sublist]. }
    intros h5 [any [ierr|]] Hpre (Hf & _ & Hok).
    { apply wp_ret. split; [|done]. eapply calm_then_fatal; [|done]. by eapply calm_trans. }
    destruct (Hok eq_refl) as (Hany & Hcalm & Hres). simpl in Hany. subst any. apply wp_ret.
    apply Hnext; [|by trans h4; [apply calm_sublist|apply prefix_sublist]|done].
    eapply calm_trans; [done|]. by eapply calm_trans, Hcalm.
  - apply wp_bind, wp_resume. intros h4 Hc4. apply wp_bind, wp_ps_ReportFailure. intros h5 Hc5.
    apply wp_ret. split; [|done]. apply calm_fatal; [|done].
    eapply calm_trans; [done|]. eapply calm_trans; [done|]. by eapply calm_trans.
Qed.

Lemma wp_sendPubsubOrderedGroup group h :
  (forall c, c ∈ ordered_group evts group -> known (evt c)) -> settled h ->
  swp h (sendPubsubOrderedGroup callbacks (ordered_group evts group)) (fun h' err =>
    fatal_iff_timeout h h' err
    /\ (err = None -> forall c, c ∈ ordered_group evts group -> resolved h' (ID (evt c)))).
Proof.
  intros Hknown Hsettled. apply wp_bind. apply (wp_for_loop _ _ _ _ (fun done _ h' _ => calm_step h h'
    /\ forall c, c ∈ done -> resolved h' (ID (evt c)))).
  { split; [apply calm_refl|set_solver]. }
  2:{ intros h' [] [Hc Hr]. apply wp_ret. split; [by apply calm_fatal|done]. }
  intros done c rest h1 [] Hsplit [Hc1 Hdone].
  eapply wp_mono.
  { apply (wp_send_ordered_event group done c rest h); [done| |done..]. apply Hknown. rewrite Hsplit. set_solver. }
  intros h2 [[]|err] _ H2; [done|]. apply wp_ret. split; [apply H2|]. intros Hnone. by destruct H2.
Qed.

(** *** Events without an ordering key *)

Definition pending_ok h (pp : pubsubPendingPublish) : Prop :=
  exists e, known e /\ prepared_for e (prepared pp) /\ OrderingKey (message (prepared pp)) = ""
    /\ published (message (prepared pp)) (result pp) ∈ h.

Lemma pending_ok_mono h h' pp : h `sublist_of` h' -> pending_ok h pp -> pending_ok h' pp.
Proof.
  intros Hs (e & He & Hp & Hk & Hpub). exists e. split_and!; [done..|]. by eapply elem_of_sublist.
Qed.

(** A step that may leave messages of [topics] to be flushed. *)
Definition open_step (topics : gmap string unit) (h h' : list pubsub_action) : Prop :=
  exists t, h' = h ++ t /\ (forall a, a ∈ t -> ~ ordered_timeout a)
    /\ forall t1 m res t2, t = t1 ++ published m res :: t2 ->
         flushed (Topic m) ∈ t2 \/ topics !! Topic m = Some tt.

Lemma calm_open topics h1 h2 h3 : open_step topics h1 h2 -> calm_step h2 h3 -> open_step topics h1 h3.
Proof.
  intros (t1 & -> & H1 & O1) (t2 & -> & H2 & S2). exists (t1 ++ t2).
  split_and!; [by rewrite (assoc_L (++))|intros a [?|?]%elem_of_app; auto|].
  intros u1 m res u2 Heq. apply app_eq_inv in Heq as [(k & -> & Heq)|(k & -> & ->)].
  - destruct k as [|x k]; simplify_eq/=; [left; by eapply (S2 [])|].
    destruct (O1 _ _ _ _ eq_refl); [left; set_solver|by right].
  - left. by eapply S2.
Qed.

Lemma open_publish topics h h' m res :
  open_step topics h h' -> open_step (<[Topic m := tt]> topics) h (h' ++ [published m res]).
Proof.
  intros (t & -> & Ht & Ho). exists (t ++ [published m res]). split_and!; [by rewrite (assoc_L (++))| |].
  - intros a [?| ->%list_elem_of_singleton]%elem_of_app; [auto|by intros []].
  - intros t1 m' res' t2 Heq. rewrite lookup_insert. case_decide; [by right|].
    apply app_eq_inv in Heq as [(k & -> & Heq)|(k & -> & Heq)].
    + destruct k as [|x k]; simplify_eq/=. destruct (Ho _ _ _ _ eq_refl); [left; set_solver|by right].
    + exfalso. destruct k as [|x k]; simplify_eq/=. by destruct k.
Qed.

Lemma open_sublist topics h h' : open_step topics h h' -> h `sublist_of` h'.
Proof. intros (t & -> & _). by apply sublist_inserts_r. Qed.

(** Flushing the topics closes it. *)
Lemma open_flushed topics h h' t :
  open_step topics h h' -> (forall a, a ∈ t -> tame a) -> settled t ->
  (forall topic, topics !! topic = Some tt -> flushed topic ∈ t) -> calm_step h (h' ++ t).
Proof.
  intros (u & -> & Hu & Ho) Ht Hs Hfl. exists (u ++ t). split_and!; [by rewrite (assoc_L (++))| |].
  - intros a [?|Ha]%elem_of_app; [auto|]. by apply Ht.
  - intros t1 m res t2 Heq. apply app_eq_inv in Heq as [(k & -> & Heq)|(k & -> & ->)].
    + destruct k as [|x k]; simplify_eq/=; [by eapply (Hs [])|]. apply elem_of_app.
      destruct (Ho _ _ _ _ eq_refl); [by left|right; by apply Hfl].
    + by eapply Hs.
Qed.

Lemma wp_publish_unordered (cands : list pubsubCandidateEvent) h :
  (forall c, c ∈ cands -> known (evt c) /\ pubsub_candidate (evt c) = Some c /\ orderingKey c = "") ->
  swp h (for_each cands (publish_unordered callbacks) ([], ∅)) (fun h' st => open_step st.2 h h'
    /\ (forall pp, pp ∈ st.1 -> pending_ok h' pp /\ st.2 !! Topic (message (prepared pp)) = Some tt)
    /\ (forall c, c ∈ cands -> resolved h' (ID (evt c))
          \/ exists pp, pp ∈ st.1 /\ log_ID (log (prepared pp)) = ID (evt c))).
Proof.
  intros Hcands. apply (wp_for_each _ _ _ _ (fun done _ h' st => open_step st.2 h h'
    /\ (forall pp, pp ∈ st.1 -> pending_ok h' pp /\ st.2 !! Topic (message (prepared pp)) = Some tt)
    /\ (forall c, c ∈ done -> resolved h' (ID (evt c))
          \/ exists pp, pp ∈ st.1 /\ log_ID (log (prepared pp)) = ID (evt c)))).
  { split_and!; [|set_solver|set_solver]. exists []. split_and!; [by rewrite app_nil_r|set_solver|by intros []]. }
  2:{ done. }
  intros done c rest h1 [pending topics] Hsplit (Hc1 & Hpend & Hdone). unfold publish_unordered.
  destruct (Hcands c) as (He & Hcand & Hkey); [rewrite Hsplit; set_solver|].
  apply wp_bind. eapply wp_mono; [by apply wp_preparePubsubEvent|].
  intros h2 [p|] _ [Hc2 Hp].
  2:{ apply wp_ret. split_and!; [by eapply calm_open| |].
      - intros pp Hpp. destruct (Hpend pp Hpp) as [Hpp' ?]. split; [|done].
        eapply pending_ok_mono; [by apply calm_sublist|done].
      - intros c' [Hc'| ->%list_elem_of_singleton]%elem_of_app; [|by left].
        destruct (Hdone c' Hc'); [left|by right]. eapply pubsub_resolved_mono; [by apply calm_sublist|done]. }
  destruct Hp as [Hp Hpk]. apply wp_bind. eapply wp_publishPubsubEvent; [done..| |].
  { intros Hne. by rewrite Hpk in Hne. }
  intros res. set (h3 := h2 ++ _). apply wp_ret. cbn [fst snd].
  assert (Hs3 : h1 `sublist_of` h3) by (trans h2; [by apply calm_sublist|by apply sublist_inserts_r]).
  split_and!; [by eapply open_publish, calm_open| |].
  - intros pp [Hpp| ->%list_elem_of_singleton]%elem_of_app.
    + destruct (Hpend pp Hpp) as [Hpp' Ht]. split; [by eapply pending_ok_mono|].
      rewrite lookup_insert. case_decide; done.
    + split; [|by rewrite lookup_insert_eq]. exists (evt c). simpl.
      split_and!; [done|done|by rewrite Hpk|]. unfold h3. set_solver.
  - intros c' [Hc'| ->%list_elem_of_singleton]%elem_of_app.
    + destruct (Hdone c' Hc') as [Hr|(pp & Hpp & Hid)]; [left; by eapply pubsub_resolved_mono|].
      right. exists pp. set_solver.
    + right. exists (MkPending p res). split; [set_solver|]. apply Hp.
Qed.

(** The loop over the topics flushes each and does nothing else. *)
Definition flushes (topics : list (string * unit)) : list pubsub_action := (fun '(topic, _) => flushed topic) <$> topics.

Lemma wp_flush_all (topics : gmap string unit) h :
  swp h (for_each (range topics) (fun _ '(topic, _) => call (Flush topic)) tt) (fun h' _ =>
    h' = h ++ flushes (range topics)).
Proof.
  apply (wp_for_each _ _ _ _ (fun done _ h' _ => h' = h ++ flushes done)).
  - by rewrite app_nil_r.
  - intros done [topic []] rest h1 [] Hr ->. apply (wp_ps_call _ (Flush topic)).
    intros [] _. split; [done|]. unfold flushes. by rewrite fmap_app, (assoc_L (++)).
  - done.
Qed.

Lemma flushes_spec (topics : gmap string unit) :
  (forall a, a ∈ flushes (range topics) -> tame a) /\ settled (flushes (range topics))
  /\ forall topic, topics !! topic = Some tt -> flushed topic ∈ flushes (range topics).
Proof.
  assert (Hall : forall a, a ∈ flushes (range topics) -> tame a).
  { intros a ([topic []] & -> & _)%list_elem_of_fmap. apply tame_flushed. }
  split_and!; [done| |].
  - intros t1 m res t2 Heq. destruct (Hall (published m res)) as [_ Hnot]; [rewrite Heq; set_solver|by destruct (Hnot m res)].
  - intros topic Ht. apply list_elem_of_fmap. exists (topic, tt). split; [done|]. by apply elem_of_range.
Qed.

(** What is known while the pending publishes are awaited. *)
Definition awaited (h : list pubsub_action) (done : list pubsubPendingPublish) (h' : list pubsub_action)
    (joined : option error) : Prop :=
  calm_step h h' /\ fatal joined = false
  /\ (joined = None -> forall pp, pp ∈ done -> resolved h' (log_ID (log (prepared pp)))).

Lemma wp_await_one done pp h h1 joined :
  pending_ok h pp ->
  [published (message (prepared pp)) (result pp); flushed (Topic (message (prepared pp)))] `sublist_of` h ->
  settled h -> awaited h done h1 joined ->
  swp h1 (await_unordered callbacks joined pp) (fun h' joined => awaited h (done ++ [pp]) h' joined).
Proof.
  intros (e & He & Hp & Hk & Hpub) Hsub Hsettled (Hc1 & Hnf & Hdone). unfold await_unordered.
  set (p := prepared pp) in *. set (m := message p) in *.
  apply wp_bind, wp_awaitPubsubResult; [by trans h; [|apply calm_sublist]|].
  intros r h2 Hr Hc2.
  assert (Hc12 : calm_step h1 h2).
  { eapply calm_trans; [|done]. apply calm_snoc, tame_got. destruct r; [|by intros []]. by intros [? _]. }
  assert (Hgot : [published m (result pp); got (result pp) m r] `sublist_of` h2).
  { trans (h1 ++ [got (result pp) m r]); [|by apply calm_sublist].
    apply (sublist_snoc [_]), singleton_sublist_l. eapply elem_of_sublist; [done|by apply calm_sublist]. }
  assert (Hold : forall h3, calm_step h2 h3 -> joined = None ->
    resolved h3 (ID e) -> forall q, q ∈ done ++ [pp] -> resolved h3 (log_ID (log (prepared q)))).
  { intros h3 Hc3 Hnone Hres q [Hq| ->%list_elem_of_singleton]%elem_of_app;
      [|fold p; by rewrite (pf_log _ _ Hp)].
    apply (pubsub_resolved_mono h1); [|by apply Hdone]. trans h2; by apply calm_sublist. }
  assert (Hc02 : calm_step h h2) by by eapply calm_trans.
  destruct r as [err|mid].
  2:{ apply wp_bind. unfold markPubsubDone. rewrite (pf_log _ _ Hp). apply wp_ps_confirm; [done| |].
      - exists m, (result pp), mid. split; [apply Hp|done].
      - intros h3 Hc3 Hres. apply wp_ret. split_and!; [by eapply calm_trans|done|].
        intros Hnone. by apply Hold. }
  assert (Hjoin : fatal (errors_Join [joined; Some err]) = false).
  { rewrite fatal_Join. simpl. rewrite Hnf. unfold pubsub_contract in Hr. simpl in Hr. by rewrite Hr. }
  assert (Hnone : errors_Join [joined; Some err] = None -> False).
  { intros Hn. apply errors_Join_None, Forall_cons in Hn as [_ Hn]. by apply Forall_cons in Hn as [? _]. }
  assert (Hfail : swp h2 (bind (logPubsubFailure callbacks p err)
      (fun _ => Ret (errors_Join [joined; Some err]))) (awaited h (done ++ [pp]))).
  { apply wp_bind, wp_ps_ReportFailure. intros h3 Hc3. apply wp_ret.
    split_and!; [by eapply calm_trans|done|intros Hn; by destruct (Hnone Hn)]. }
  destruct (deadline err); [done|].
  destruct (isPubSubPermanentBackendError err) eqn:Hperm; [|done].
  apply wp_bind. eapply wp_mono.
  { apply (wp_sendPubsubIsolated e p h2 false (result pp) err); [done|done| | | |done|done].
    - intros Hne. by destruct Hne.
    - by apply (calm_settled h).
    - symmetry. apply bool_decide_eq_false. intros Hne. by destruct Hne. }
  intros h3 [any ierr] _ (_ & Hcalm & Hok). destruct (Hcalm Hk) as [Hc3 Hif]. apply wp_ret.
  cbn [fst snd]. simpl in Hif, Hok. split_and!; [by eapply calm_trans| |].
  - rewrite fatal_Join. simpl. rewrite Hif, orb_false_r. by destruct any; rewrite ?Hjoin, ?Hnf.
  - intros Hn. apply errors_Join_None, Forall_cons in Hn as [Hj Hn].
    apply Forall_cons in Hn as [Hierr _]. destruct (Hok Hierr) as (-> & _ & Hres). by apply Hold.
Qed.

Lemma wp_await_unordered (pending : list pubsubPendingPublish) h :
  (forall pp, pp ∈ pending -> pending_ok h pp
     /\ [published (message (prepared pp)) (result pp); flushed (Topic (message (prepared pp)))]
          `sublist_of` h) ->
  settled h ->
  swp h (for_each pending (await_unordered callbacks) None) (awaited h pending).
Proof.
  intros Hpend Hsettled. apply (wp_for_each _ _ _ _ (fun done _ h' joined => awaited h done h' joined)).
  { split_and!; [apply calm_refl|done|set_solver]. }
  2: done.
  intros done pp rest h1 joined Hsplit Hdone. destruct (Hpend pp) as [Hok Hsub]; [rewrite Hsplit; set_solver|].
  by apply wp_await_one.
Qed.

Lemma wp_sendPubsubUnorderedEvents cands h :
  (forall c, c ∈ cands -> known (evt c) /\ pubsub_candidate (evt c) = Some c /\ orderingKey c = "") ->
  settled h ->
  swp h (sendPubsubUnorderedEvents callbacks cands) (fun h' err =>
    calm_step h h' /\ fatal err = false
    /\ (err = None -> forall c, c ∈ cands -> resolved h' (ID (evt c)))).
Proof.
  intros Hcands Hsettled. apply wp_bind. eapply wp_mono; [by apply wp_publish_unordered|].
  intros h1 [pending topics] _ (Ho1 & Hpend & Hall). cbn [fst snd] in *.
  apply wp_bind. eapply wp_mono; [apply wp_flush_all|]. intros h2 [] _ ->.
  destruct (flushes_spec topics) as (Htame & Hset & Hfl). set (fl := flushes _) in *.
  pose proof (open_flushed _ _ _ _ Ho1 Htame Hset Hfl) as Hc2.
  eapply wp_mono.
  { apply wp_await_unordered; [|by eapply calm_settled]. intros pp Hpp. destruct (Hpend pp Hpp) as [Hok Ht]. split.
    - eapply pending_ok_mono; [by apply sublist_inserts_r|done].
    - destruct Hok as (e & _ & _ & _ & Hpub). apply (sublist_app [_] _ [_]); apply singleton_sublist_l; [done|by apply Hfl]. }
  intros h3 err _ (Hc3 & Hnf & Hdone). split_and!; [by eapply calm_trans|done|].
  intros Hnone c Hc. destruct (Hall c Hc) as [Hr|(pp & Hpp & <-)]; [|by apply Hdone].
  apply (pubsub_resolved_mono h1); [|done].
  trans (h1 ++ fl); [by apply sublist_inserts_r|by apply calm_sublist].
Qed.

End safety.

(** *** The batch *)

Section batch.
Context `{GoRuntime} `{MapRange} (callbacks : Callbacks) (evts : list Event).

Definition anything (_ : Message) : Prop := True.

(** The messages of an ordering group: the goroutine of the group publishes those and no others. *)
Definition group_scope (group : string) (m : Message) : Prop :=
  Topic m +:+ String "000" (OrderingKey m) = group.

Abbreviation swp := (wp pubsub_contract (pubsub_justified evts anything)).

Implicit Types (h : list pubsub_action) (e : Event).

Lemma known_anything e : e ∈ evts -> known evts anything e.
Proof. by split. Qed.

Lemma known_group group c : c ∈ ordered_group evts group -> known evts (group_scope group) (evt c).
Proof.
  intros Hc. destruct (ordered_group_events evts group c Hc) as (He & Hcand & _). split; [done|].
  intros m (okey & attrs & Ho & _ & ->). unfold group_scope. simpl.
  apply list_elem_of_filter in Hc as [<- _]. unfold pubsub_groupID.
  unfold pubsub_candidate in Hcand. rewrite Ho in Hcand. destruct c. by simplify_eq/=.
Qed.

(** What justifies an action of the goroutine of a group justifies it in the batch. *)
Lemma group_justified groups i group a h l1 t1 :
  NoDup groups -> groups !! i = Some group ->
  pubsub_justified evts (group_scope group) a (h ++ l1) ->
  extends (fun y => exists j group' h', j <> i /\ groups !! j = Some group'
    /\ pubsub_justified evts (group_scope group') y h') l1 t1 ->
  pubsub_justified evts anything a (h ++ t1).
Proof.
  intros Hnd Hi Ha He. eapply pubsub_justified_extends; [|by apply extends_app, He; apply extends_refl|done].
  intros m m' res' Hm (j & group' & h' & Hj & Hgj & _ & (e & [_ Hsc] & Hm') & _) [Htopic Hkey].
  apply Hj, (NoDup_lookup groups j i group'); [done..|]. rewrite Hi. f_equal.
  rewrite <- (Hsc m' Hm'), <- Hm. unfold group_scope. by rewrite Htopic, Hkey.
Qed.

Definition split_done (es : list Event) (st : split_events) : Prop :=
  let cands := omap pubsub_candidate es in
  unordered st = filter (fun c => orderingKey c = "") cands
  /\ (orderedByGroup st, groupOrder st)
     = group_by_order pubsub_groupID (filter (fun c => orderingKey c <> "") cands).

Lemma wp_split_events h :
  swp h (for_each evts (split_event callbacks) (MkSplit [] ∅ [])) (fun h' st => calm_step h h'
    /\ split_done evts st
    /\ forall e, e ∈ evts -> pubsub_candidate e = None -> resolved h' (ID e)).
Proof.
  apply (wp_for_each _ _ _ _ (fun done _ h' st => calm_step h h' /\ split_done done st
    /\ forall e, e ∈ done -> pubsub_candidate e = None -> resolved h' (ID e))).
  { split_and!; [apply calm_refl|done|set_solver]. }
  2:{ done. }
  intros done e rest h1 st Hsplit (Hc1 & [Hun Hord] & Hrej). unfold split_event.
  apply wp_bind. eapply wp_mono; [apply wp_parsePubsubCandidate, known_anything; rewrite Hsplit; set_solver|].
  intros h2 r _ (Hc2 & -> & Hr). apply wp_ret. split_and!; [by eapply calm_trans| |].
  - unfold split_done. rewrite omap_app, !filter_app. simpl.
    destruct (pubsub_candidate e) as [c|]; simpl; [|by rewrite !app_nil_r].
    destruct (decide (orderingKey c = "")) as [Hk|Hk].
    + rewrite bool_decide_eq_true_2 by done.
      rewrite filter_cons_True, filter_nil, filter_cons_False, filter_nil, app_nil_r by (by try intros []).
      simpl. by rewrite Hun.
    + rewrite bool_decide_eq_false_2 by done.
      rewrite filter_cons_False, filter_nil, filter_cons_True, filter_nil, app_nil_r by done.
      unfold group_by_order in *. rewrite foldl_snoc, <- Hord. simpl. by rewrite Hun.
  - intros e' [He'| ->%list_elem_of_singleton]%elem_of_app Hn; [|auto].
    apply (pubsub_resolved_mono h1); [by apply calm_sublist|auto].
Qed.

Lemma group_candidates st : split_done evts st -> NoDup (groupOrder st) /\
  (forall g, default [] (orderedByGroup st !! g) = ordered_group evts g)
  /\ forall c, c ∈ omap pubsub_candidate evts -> orderingKey c <> "" ->
       pubsub_groupID c ∈ groupOrder st /\ c ∈ ordered_group evts (pubsub_groupID c).
Proof.
  intros [_ Hord]. set (cands := omap pubsub_candidate evts) in *.
  pose proof (group_by_order_spec pubsub_groupID (filter (fun c => orderingKey c <> "") cands))
    as (Hg & Hnd & Ho). rewrite <- Hord in Hg, Hnd, Ho. simpl in Hg, Hnd, Ho. split_and!; [done| |].
  - intros g. rewrite Hg. apply group_by_default.
  - intros c Hc Hk.
    assert (Hin : c ∈ ordered_group evts (pubsub_groupID c)).
    { apply list_elem_of_filter. split; [done|]. by apply list_elem_of_filter. }
    split; [|done]. apply Ho. rewrite group_by_lookup. unfold ordered_group in Hin. fold cands in Hin.
    destruct (filter _ (filter _ cands)); [by apply elem_of_nil in Hin|by eexists].
Qed.

(** The errors of the groups of one [RunConcurrent]. *)
Lemma fatal_arrival (rs arrival : list (option error)) :
  arrival ≡ₚ rs ->
  (fatal (join_all (omap id arrival)) = true <-> exists r, r ∈ rs /\ fatal r = true).
Proof.
  intros Hp. unfold fatal at 1, ErrFatalAfterCommit. rewrite errors_Is_join_all, existsb_exists. split.
  - intros (e & Hin & He). apply list_elem_of_In, list_elem_of_omap in Hin as (r & Hr & Hre).
    unfold id in Hre. subst r. exists (Some e). by rewrite <- Hp.
  - intros ([e|] & Hr & He); [|done]. exists e. split; [|done].
    apply list_elem_of_In, list_elem_of_omap. exists (Some e). by rewrite Hp.
Qed.

(** The branches of the ordered groups, and what is known of each. *)
Definition ordered_branches (groups : list string) (h2 : list pubsub_action) (trs : list (list pubsub_action))
    (rs : list (option error)) : Prop :=
  length trs = length groups /\ length rs = length groups
  /\ forall i g, groups !! i = Some g -> exists r ti, rs !! i = Some r /\ trs !! i = Some ti
       /\ fatal_iff_timeout h2 (h2 ++ ti) r
       /\ (r = None -> forall c, c ∈ ordered_group evts g -> resolved (h2 ++ ti) (ID (evt c))).

(** A branch is fatal exactly when a wait for an ordered message timed out in some branch. *)
Lemma fatal_branch groups h2 trs rs t :
  ordered_branches groups h2 trs rs -> interleave trs t ->
  (exists r, r ∈ rs /\ fatal r = true) <-> exists a, a ∈ t /\ ordered_timeout a.
Proof.
  intros (Hl1 & Hl2 & Hbr) Hi. split.
  - intros (r & [i Hri]%list_elem_of_lookup & Hf).
    destruct (lookup_lt_is_Some_2 groups i) as [g Hgi].
    { rewrite <- Hl2. by eapply lookup_lt_Some. }
    destruct (Hbr i g Hgi) as (r' & ti & Hr' & Hti & (t' & Heq & Hiff) & _). simplify_eq.
    apply Hiff in Hf as (a & Ha & Hto). exists a. split; [|done].
    eapply elem_of_sublist; [done|]. eapply interleave_sublist; [done|].
    by eapply list_elem_of_lookup_2.
  - intros (a & Ha & Hto). rewrite (interleave_Permutation _ _ Hi) in Ha.
    apply elem_of_concat in Ha as (ti & [i Hti]%list_elem_of_lookup & Ha).
    destruct (lookup_lt_is_Some_2 groups i) as [g Hgi].
    { rewrite <- Hl1. by eapply lookup_lt_Some. }
    destruct (Hbr i g Hgi) as (r & ti' & Hr & Hti' & (t' & Heq & Hiff) & _). simplify_eq.
    exists r. split; [by eapply list_elem_of_lookup_2|]. apply Hiff. by exists a.
Qed.

(** When no branch fails, the events of every group are resolved. *)
Lemma ordered_resolved groups h2 trs rs arrival t g c :
  ordered_branches groups h2 trs rs -> interleave trs t -> arrival ≡ₚ rs ->
  join_all (omap id arrival) = None -> g ∈ groups -> c ∈ ordered_group evts g ->
  resolved (h2 ++ t) (ID (evt c)).
Proof.
  intros (Hl1 & Hl2 & Hbr) Hi Hp Ho Hg Hcg.
  refine (concurrent_none groups (fun g h => forall c, c ∈ ordered_group evts g ->
    resolved h (ID (evt c))) (h2 ++ t) _ _ _ Ho _ Hg c Hcg).
  - intros g' ha hb Hs Hr c' Hc'. eapply pubsub_resolved_mono; eauto.
  - exists rs. split_and!; [done| |by exists arrival]. intros i g' Hgi.
    destruct (Hbr i g' Hgi) as (r & ti & Hr & Hti & _ & Hres). exists r, (h2 ++ ti).
    split_and!; [done| |done]. apply sublist_app; [done|].
    eapply interleave_sublist; [done|]. by eapply list_elem_of_lookup_2.
Qed.

Lemma pubsub_candidate_evt e c : pubsub_candidate e = Some c -> evt c = e.
Proof. unfold pubsub_candidate. destruct (Options_String _ _); by intros; simplify_eq/=. Qed.

Lemma wp_sendPubsubEventsWithCallbacks h :
  settled h ->
  swp h (sendPubsubEventsWithCallbacks callbacks evts) (fun h' err =>
    fatal_iff_timeout h h' err /\ (err = None -> forall e, e ∈ evts -> resolved h' (ID e))).
Proof.
  intros Hsettled. apply wp_bind. eapply wp_mono; [apply wp_split_events|].
  intros h1 st _ (Hc1 & Hsplit & Hrej). destruct (group_candidates st Hsplit) as (Hnd & Hgroup & Hmember).
  destruct Hsplit as [Hun _].
  apply wp_bind. eapply wp_mono.
  { apply wp_sendPubsubUnorderedEvents; [|by eapply calm_settled]. rewrite Hun.
    intros c [Hk (e & He & Hc)%list_elem_of_omap]%list_elem_of_filter.
    apply pubsub_candidate_evt in Hc as Hev. rewrite Hev. split_and!; [by apply known_anything|done..]. }
  intros h2 uerr _ (Hc2 & Huf & Hudone).
  apply wp_bind. eapply wp_mono.
  { apply (wp_RunConcurrent_by _ _ (fun g => pubsub_justified evts (group_scope g)) _ _ _ (fun g h' err => fatal_iff_timeout h2 h' err
      /\ (err = None -> forall c, c ∈ ordered_group evts g -> resolved h' (ID (evt c))))).
    - intros i g a l1 t1. by apply group_justified.
    - intros g _. rewrite Hgroup. apply wp_sendPubsubOrderedGroup; [apply known_group|].
      apply (calm_settled h1); [done|]. by apply (calm_settled h). }
  intros h3 oerr _ (trs & rs & t & -> & Hi & Hl1 & Hl2 & Hbr & arrival & Hp & ->).
  assert (Hbs : ordered_branches (groupOrder st) h2 trs rs) by done.
  apply wp_ret. split.
  - eapply calm_then_fatal; [by eapply calm_trans|]. exists t. split; [done|].
    rewrite fatal_Join. cbn [existsb]. rewrite Huf, orb_false_r, orb_false_l, (fatal_arrival rs arrival Hp).
    by eapply fatal_branch.
  - intros Hnone. apply errors_Join_None, Forall_cons in Hnone as [Hu Hnone].
    apply Forall_cons in Hnone as [Ho _]. intros e He.
    destruct (pubsub_candidate e) as [c|] eqn:Hc.
    2: { apply (pubsub_resolved_mono h1); [|by auto]. trans h2; [by apply calm_sublist|by apply sublist_inserts_r]. }
    assert (Hin : c ∈ omap pubsub_candidate evts) by by apply list_elem_of_omap; exists e.
    rewrite <- (pubsub_candidate_evt _ _ Hc). destruct (decide (orderingKey c = "")) as [Hk|Hk].
    + apply (pubsub_resolved_mono h2); [by apply sublist_inserts_r|]. apply Hudone; [done|].
      rewrite Hun. by apply list_elem_of_filter.
    + destruct (Hmember c Hin Hk) as [Hg Hcg]. by eapply ordered_resolved.
Qed.

End batch.
