(* ===== verification/PubSubSend.v ===== *)
(** * The promises of the Pub/Sub sender

    The theorems about [Send] of the Pub/Sub provider: what it confirms, what it poisons, what it
    publishes and in which order, when it gives up the process, when it may report success; and
    the contract [Provider] the relay relies on. *)
From S2P Require Import Prelude GoErrors Config Values Conc Provider SqsOptions PubSub PubSubSafety Samples.
Local Open Scope go_scope.

(** An execution of [Send] against the client. *)
Definition pubsub_execution `{GoRuntime} `{MapRange} (callbacks : Callbacks) (evts : list Event)
    (tr : list pubsub_action) (err : option error) : Prop :=
  exec (sendPubsubEventsWithCallbacks callbacks evts) tr err /\ Forall pubsub_contract tr.

Section properties.
Context `{GoRuntime} `{MapRange} (callbacks : Callbacks).
Context (evts : list Event) (tr : list pubsub_action) (err : option error).

Lemma pubsub_execution_justified t1 a t2 :
  pubsub_execution callbacks evts tr err -> tr = t1 ++ a :: t2 -> pubsub_justified evts anything a t1.
Proof.
  intros [He Hc] Heq.
  destruct (wp_sendPubsubEventsWithCallbacks callbacks evts [] settled_nil tr err He Hc) as [Hj _].
  exact (Hj t1 a t2 Heq).
Qed.

(** C3. Whenever the sender confirms an event id, the event is one of the batch and, before
    that, a publish of its message was awaited successfully. *)
Theorem pubsub_confirms_only_accepted t1 id t2 :
  pubsub_execution callbacks evts tr err -> tr = t1 ++ reported (CbConfirm id) :: t2 ->
  exists e, e ∈ evts /\ ID e = id /\ accepted t1 e.
Proof. apply pubsub_execution_justified. Qed.

(** An event is reported as poison only for a documented reason: options that do not parse,
    a message outside the limits of Pub/Sub, or two publishes of its message, the second one
    alone in its bundle, that both failed permanently. *)
Lemma pubsub_poison_has_reason t1 id reason t2 :
  pubsub_execution callbacks evts tr err -> tr = t1 ++ reported (CbPoison id reason) :: t2 ->
  exists e, e ∈ evts /\ ID e = id /\ poison_reason t1 e reason.
Proof.
  intros He Ht. destruct (pubsub_execution_justified _ _ _ He Ht) as (e & [Hin _] & Hid & Hr). by exists e.
Qed.

(** C6. Every published message is that of an event of the batch and within the limits of
    Pub/Sub; one with an ordering key is published only once every earlier event of its topic
    and key has been confirmed or reported as poison.  The sender never waits for a message it has
    not published and flushed: every wait is preceded by the publish it waits for, followed by a
    flush of its topic. *)
Theorem pubsub_publishes_in_order t1 a t2 :
  pubsub_execution callbacks evts tr err -> tr = t1 ++ a :: t2 ->
  (forall m res, a = published m res ->
     message_ok m /\ (exists e, e ∈ evts /\ message_for e m)
     /\ (OrderingKey m <> "" ->
         exists group before c after,
           ordered_group evts group = before ++ c :: after /\ message_for (evt c) m
           /\ orderingKey c = OrderingKey m
           /\ forall c', c' ∈ before -> resolved t1 (ID (evt c'))))
  /\ (forall m res r, a = got res m r -> [published m res; flushed (Topic m)] `sublist_of` t1).
Proof.
  intros He Heq. split; intros; subst a; pose proof (pubsub_execution_justified _ _ _ He Heq) as Hj; [|exact Hj].
  destruct Hj as (Hok & (e & [Hin _] & Hm) & Hturn). split_and!; [done|by exists e|done].
Qed.

(** C23. [Send] asks for the process to end after the commit exactly when the wait for a message
    with an ordering key timed out, so that its outcome is unknown and the client may still
    deliver it. *)
Theorem pubsub_fatal_iff_ordered_timeout :
  pubsub_execution callbacks evts tr err ->
  (errors_Is err ErrFatalAfterCommit = true <-> exists a, a ∈ tr /\ ordered_timeout a).
Proof.
  intros [He Hc].
  destruct (wp_sendPubsubEventsWithCallbacks callbacks evts [] settled_nil tr err He Hc)
    as [_ [(t & Heq & Hf) _]]. simpl in Heq. by subst t.
Qed.

(** When [Send] returns no error, every event of the batch has been confirmed or reported as
    poison. *)
Lemma pubsub_nil_error_resolves_all :
  pubsub_execution callbacks evts tr err -> err = None ->
  forall e, e ∈ evts -> resolved tr (ID e).
Proof.
  intros [He Hc] Hn.
  destruct (wp_sendPubsubEventsWithCallbacks callbacks evts [] settled_nil tr err He Hc) as [_ [_ Hd]].
  by apply Hd.
Qed.

(** C15. The outcomes of [Send].  An event is reported as poison only for a documented reason:
    options that do not parse, a message outside the limits of Pub/Sub, or two publishes of its
    message that both failed permanently.  The second of them is alone in its bundle, however the
    goroutines interleave: every message of its topic and key published before had been flushed,
    and none is published between it and its wait, during which its topic is flushed.  And when
    [Send] returns no error, every event of the batch has been confirmed or reported as poison. *)
Theorem pubsub_outcomes :
  pubsub_execution callbacks evts tr err ->
  (forall t1 id reason t2, tr = t1 ++ reported (CbPoison id reason) :: t2 ->
     exists e, e ∈ evts /\ ID e = id /\ poison_reason t1 e reason)
  /\ (err = None -> forall e, e ∈ evts -> resolved tr (ID e)).
Proof.
  intros He. split; [intros t1 id reason t2; by apply pubsub_poison_has_reason|].
  by apply pubsub_nil_error_resolves_all.
Qed.

End properties.

(** C33. The local validation accepts exactly the messages within the limits of Pub/Sub. *)
Theorem pubsub_validation_exact `{MapRange} (m : Message) :
  pubsubPoisonReason m = None <-> message_ok m.
Proof. apply pubsubPoisonReason_ok. Qed.

(** ** The provider *)

Section provider.
Context `{GoRuntime} `{MapRange} (callbacks : Callbacks).

(** The client confirmed a message with the topic and payload of the event. *)
Definition acked_by (e : Event) (a : pubsub_action) : bool :=
  match projT1 a as c return resp pubsub_resp c -> bool with
  | inr (Get _ m) => fun r =>
      match r with
      | inl _ => false
      | inr _ => bool_decide (Topic m = Destination e) && bool_decide (Data m = Payload e)
      end
  | _ => fun _ => false
  end (projT2 a).

Definition pubsub_acked (tr : list pubsub_action) (evts : list Event) : list Event :=
  filter (fun e => existsb (acked_by e) tr = true) evts.

Definition pubsub_Send (evts : list Event) (cbs : list callback) (acked : list Event)
    (err : option error) : Prop :=
  exists tr, pubsub_execution callbacks evts tr err
    /\ cbs = callbacks_of tr /\ acked = pubsub_acked tr evts.

Lemma pubsub_accepted_acked tr t1 t2 e : tr = t1 ++ t2 -> accepted t1 e -> existsb (acked_by e) tr = true.
Proof.
  intros -> (m & res & mid & (okey & attrs & _ & _ & ->) & Hs). apply existsb_exists.
  eexists. split; [apply list_elem_of_In; eapply elem_of_sublist;
    [apply list_elem_of_further, list_elem_of_here|trans t1; [exact Hs|by apply sublist_inserts_r]]|].
  unfold acked_by. simpl. by rewrite !bool_decide_eq_true_2.
Qed.

#[refine] Instance pubsub_provider : Provider := {| Send := pubsub_Send |}.
Proof.
  - intros evs cbs acked err (tr & _ & _ & ->) e [_ He]%list_elem_of_filter. done.
  - intros evs cbs acked err (tr & Hx & -> & ->) id Hid.
    apply callbacks_of_split in Hid as (t1 & t2 & ->).
    destruct (pubsub_execution_justified _ _ _ _ _ _ _ Hx eq_refl) as (e & He & Hid & Ha).
    exists e. split; [|done]. apply list_elem_of_filter. split; [|done]. by eapply pubsub_accepted_acked.
  - intros evs cbs acked err (tr & Hx & -> & ->) id reason Hid.
    apply callbacks_of_split in Hid as (t1 & t2 & ->).
    destruct (pubsub_execution_justified _ _ _ _ _ _ _ Hx eq_refl) as (e & [He _] & Hid & Ha).
    by exists e.
Defined.

End provider.

(** ** Witnesses

    Two messages of one ordering group, one without a key and one without content, against a
    client that publishes everything, and one whose waits time out. *)

Definition sample_event (id : Z) (payload topic : string) (options : object) : Event :=
  MkEvent (VInt KInt64 id) payload zero_time topic (MkOptions options).

Definition topic : string := "projects/shop/topics/orders".

Definition sample_batch : list Event :=
  [ sample_event 1 "first" topic {["orderingKey" := VString "k"]};
    sample_event 2 "second" topic {["orderingKey" := VString "k"]};
    sample_event 3 "hello" "orders" ∅;
    sample_event 4 "" "orders" ∅ ].

Definition publishing (past : list pubsub_action) (c : callback + pubsub_cmd) : resp pubsub_resp c :=
  match c with
  | inl _ => tt
  | inr (Publish _) => length past
  | inr (Flush _) => tt
  | inr (ResumePublish _ _) => tt
  | inr (Get _ _) => inr "id"
  end.

Definition timing_out (past : list pubsub_action) (c : callback + pubsub_cmd) : resp pubsub_resp c :=
  match c with
  | inl _ => tt
  | inr (Publish _) => length past
  | inr (Flush _) => tt
  | inr (ResumePublish _ _) => tt
  | inr (Get _ _) => inl context_DeadlineExceeded
  end.

(** A backend that rejects one message for good. *)
Definition rejection : error := ErrForeign (Foreign "rejected" None (Some pubsubPermanentBackendErrorCode) None) None.

Definition rejecting (past : list pubsub_action) (c : callback + pubsub_cmd) : resp pubsub_resp c :=
  match c with
  | inl _ => tt
  | inr (Publish _) => length past
  | inr (Flush _) => tt
  | inr (ResumePublish _ _) => tt
  | inr (Get _ m) => if bool_decide (Data m = "second") then inl rejection else inr "id"
  end.

Definition all_callbacks : Callbacks := MkCallbacks true true.

Definition sample_run (oracle : list pubsub_action -> forall c, resp pubsub_resp c) (evts : list Event) :=
  run oracle (sendPubsubEventsWithCallbacks all_callbacks evts) [].

Lemma publishing_execution evts :
  pubsub_execution all_callbacks evts (sample_run publishing evts).1 (sample_run publishing evts).2.
Proof.
  split; [apply run_exec_nil|]. eapply Forall_impl; [by apply run_answered|].
  intros a (past & c & ->). by destruct c as [cb|[m|t|t k|res m]].
Qed.

Lemma timing_out_execution evts :
  pubsub_execution all_callbacks evts (sample_run timing_out evts).1 (sample_run timing_out evts).2.
Proof.
  split; [apply run_exec_nil|]. eapply Forall_impl; [by apply run_answered|].
  intros a (past & c & ->). by destruct c as [cb|[m|t|t k|res m]].
Qed.

Lemma rejecting_execution evts :
  pubsub_execution all_callbacks evts (sample_run rejecting evts).1 (sample_run rejecting evts).2.
Proof.
  split; [apply run_exec_nil|]. eapply Forall_impl; [by apply run_answered|].
  intros a (past & c & ->). destruct c as [cb|[m|t|t k|res m]]; [done..|].
  unfold pubsub_contract. simpl. by destruct (bool_decide _).
Qed.

Definition rejected_trace : list pubsub_action := (sample_run rejecting sample_batch).1.

Definition published_trace : list pubsub_action := (sample_run publishing sample_batch).1.

(** The messages of events 2 and 3. *)
Definition second_message : Message := MkMessage topic "second" "k" None.
Definition hello_message : Message := MkMessage "orders" "hello" "" None.

Lemma pubsub_confirms_only_accepted_witness :
  published_trace !! 5 = Some (reported (CbConfirm (VInt KInt64 3)))
  /\ exists e, e ∈ sample_batch /\ ID e = VInt KInt64 3 /\ accepted (take 5 published_trace) e.
Proof.
  split; [vm_compute; reflexivity|].
  eapply (pubsub_confirms_only_accepted all_callbacks sample_batch published_trace);
    [apply publishing_execution|].
  apply split_at. vm_compute; reflexivity.
Defined.

Lemma pubsub_publishes_in_order_witness :
  (published_trace !! 11 = Some (published second_message 11)
   /\ message_ok second_message
   /\ exists group before c after,
        ordered_group sample_batch group = before ++ c :: after /\ message_for (evt c) second_message
        /\ orderingKey c = "k"
        /\ forall c', c' ∈ before -> resolved (take 11 published_trace) (ID (evt c')))
  /\ (published_trace !! 3 = Some (got 0 hello_message (inr "id"))
      /\ [published hello_message 0; flushed "orders"] `sublist_of` take 3 published_trace).
Proof.
  assert (Hat : forall n a, published_trace !! n = Some a ->
    published_trace = take n published_trace ++ a :: drop (S n) published_trace) by apply split_at.
  split; (split; [vm_compute; reflexivity|]).
  - destruct (proj1 (pubsub_publishes_in_order all_callbacks sample_batch published_trace
      (sample_run publishing sample_batch).2 (take 11 published_trace) (published second_message 11)
      (drop 12 published_trace) (publishing_execution _) (Hat 11 _ ltac:(vm_compute; reflexivity)))
      _ _ eq_refl) as (Hok & _ & Ht).
    split; [exact Hok|]. apply Ht. vm_compute. discriminate.
  - exact (proj2 (pubsub_publishes_in_order all_callbacks sample_batch published_trace
      (sample_run publishing sample_batch).2 (take 3 published_trace) (got 0 hello_message (inr "id"))
      (drop 4 published_trace) (publishing_execution _) (Hat 3 _ ltac:(vm_compute; reflexivity)))
      _ _ _ eq_refl).
Defined.

Lemma pubsub_fatal_iff_ordered_timeout_witness :
  errors_Is (sample_run timing_out sample_batch).2 ErrFatalAfterCommit = true
  /\ exists a, a ∈ (sample_run timing_out sample_batch).1 /\ ordered_timeout a.
Proof.
  split; [vm_compute; reflexivity|].
  apply (pubsub_fatal_iff_ordered_timeout all_callbacks sample_batch _
    (sample_run timing_out sample_batch).2); [apply timing_out_execution|vm_compute; reflexivity].
Defined.

Lemma pubsub_outcomes_witness :
  ((sample_run publishing sample_batch).2 = None
   /\ forall e, e ∈ sample_batch -> resolved published_trace (ID e))
  /\ (rejected_trace !! 21 = Some (reported (CbPoison (VInt KInt64 2) "rejected"))
      /\ exists e, e ∈ sample_batch /\ ID e = VInt KInt64 2 /\ poison_reason (take 21 rejected_trace) e "rejected").
Proof.
  destruct (pubsub_outcomes all_callbacks sample_batch published_trace
    (sample_run publishing sample_batch).2 (publishing_execution _)) as [_ Hn].
  destruct (pubsub_outcomes all_callbacks sample_batch rejected_trace
    (sample_run rejecting sample_batch).2 (rejecting_execution _)) as [Hp _].
  split; (split; [vm_compute; reflexivity|]).
  - apply Hn. vm_compute; reflexivity.
  - eapply Hp. apply split_at. vm_compute; reflexivity.
Defined.
