(* ===== verification/PubSubClient.v ===== *)
(** * The Pub/Sub client ([pubsub/client.go])

    [CloudPublisher] keeps one SDK publisher per topic, created on first use under a mutex.  The
    sender's goroutines call it concurrently: a call looks the publisher up in one critical
    section and uses it after the mutex is released, so the state below holds the calls between
    the two.  SDK publishers are numbered in the order of their creation. *)
From S2P Require Import Prelude GoErrors Config PubSub Samples.
Local Open Scope go_scope.

(** [pubsub.Config] *)
Record pubsub_config := PubSubConfig {
  ps_ProjectID : string;
  ps_APIEndpoint : string;
  ps_PublishTimeout : Z;
  ps_PublishResultGrace : Z;
}.

(** The arguments of the SDK's [NewClient]: the project and the endpoint option. *)
Definition NewClient (cfg : pubsub_config) : string * option string :=
  (ps_ProjectID cfg, if bool_decide (ps_APIEndpoint cfg = "") then None else Some (ps_APIEndpoint cfg)).

(** An SDK publisher as [newPublisher] sets it up. *)
Record topic_publisher := TopicPublisher {
  tp_topic : string;
  EnableMessageOrdering : bool;
  tp_Timeout : Z;
}.

Record sdk_message := SdkMessage {
  sdk_Data : string;
  sdk_Attributes : option (gmap string string);
  sdk_OrderingKey : string;
}.

(** The calls of an SDK publisher. *)
Inductive sdk_call := SdkPublish (message : sdk_message) | SdkFlush | SdkResumePublish (key : string) | SdkStop.

(** The calls of a [CloudPublisher]. *)
Inductive publisher_call :=
| CallPublish (message : Message)
| CallFlush (topic : string)
| CallResumePublish (topic orderingKey : string)
| CallClose.

Record CloudPublisher := Cloud {
  config : pubsub_config;
  publishers : gmap string nat;                  (* under the mutex *)
  created : list topic_publisher;                (* SDK publishers, by number *)
  waiting : gmap nat (list (nat * sdk_call));    (* per goroutine: calls it is about to make *)
  calls : list (nat * sdk_call);                 (* calls made *)
}.

Definition NewCloudPublisher (cfg : pubsub_config) : CloudPublisher := Cloud cfg ∅ [] ∅ [].

Definition newPublisher (cfg : pubsub_config) (topic : string) : topic_publisher :=
  TopicPublisher topic true (ps_PublishTimeout cfg).

(** [publisher]: the critical section. *)
Definition publisher (topic : string) (p : CloudPublisher) : nat * CloudPublisher :=
  match publishers p !! topic with
  | Some n => (n, p)
  | None =>
      let n := length (created p) in
      (n, Cloud (config p) (<[topic := n]> (publishers p)) (created p ++ [newPublisher (config p) topic])
            (waiting p) (calls p))
  end.

Definition sdk_message_of (message : Message) : sdk_message :=
  SdkMessage (Data message) (msg_Attributes message) (OrderingKey message).

(** The critical section of a call, and the SDK calls that follow it.  [order] is how Go ranges
    over the map in [Close]. *)
Definition call_plan (order : gmap string nat -> list (string * nat)) (c : publisher_call) (p : CloudPublisher) :
    list (nat * sdk_call) * CloudPublisher :=
  match c with
  | CallPublish message =>
      let '(n, p) := publisher (Topic message) p in ([(n, SdkPublish (sdk_message_of message))], p)
  | CallFlush topic => let '(n, p) := publisher topic p in ([(n, SdkFlush)], p)
  | CallResumePublish topic orderingKey =>
      if bool_decide (orderingKey = "") then ([], p)
      else let '(n, p) := publisher topic p in ([(n, SdkResumePublish orderingKey)], p)
  | CallClose => ((fun kn => (kn.2, SdkStop)) <$> order (publishers p), p)
  end.

(** What the goroutines do: enter a call, or make the next SDK call of the one they are in. *)
Inductive cloud_step `{MapRange} : CloudPublisher -> CloudPublisher -> Prop :=
| step_enter g c p plan p' :
    waiting p !! g = None -> call_plan range c p = (plan, p') ->
    cloud_step p (Cloud (config p') (publishers p') (created p') (<[g := plan]> (waiting p')) (calls p'))
| step_call g call rest p :
    waiting p !! g = Some (call :: rest) ->
    cloud_step p (Cloud (config p) (publishers p) (created p) (<[g := rest]> (waiting p)) (calls p ++ [call]))
| step_return g p :
    waiting p !! g = Some [] ->
    cloud_step p (Cloud (config p) (publishers p) (created p) (delete g (waiting p)) (calls p)).

(** ** Invariant *)

(** A call is on the publisher of its topic: there is one per topic, set up for ordering. *)
Record cloud_ok (p : CloudPublisher) : Prop := {
  co_created : forall topic n, publishers p !! topic = Some n -> created p !! n = Some (newPublisher (config p) topic);
  co_published : forall n tp, created p !! n = Some tp -> publishers p !! tp_topic tp = Some n;
  co_calls : forall n call, (n, call) ∈ calls p -> n < length (created p);
  co_waiting : forall g plan n call, waiting p !! g = Some plan -> (n, call) ∈ plan -> n < length (created p);
}.

Lemma publisher_ok topic p n p' :
  cloud_ok p -> publisher topic p = (n, p') ->
  cloud_ok p' /\ publishers p' !! topic = Some n /\ n < length (created p')
  /\ waiting p' = waiting p /\ created p `prefix_of` created p'.
Proof.
  intros [Hc Hp Hcalls Hw]. unfold publisher. destruct (publishers p !! topic) as [m|] eqn:Ht; intros [= <- <-].
  - split_and!; [by split|done| |done|done]. apply Hc in Ht. by apply lookup_lt_Some in Ht.
  - simpl. split_and!; [|by rewrite lookup_insert_eq|rewrite length_app; simpl; lia|done|by apply prefix_app_r].
    split; simpl.
    + intros t m. destruct (decide (t = topic)) as [->|Hne].
      * rewrite lookup_insert_eq. intros [= <-]. by apply list_lookup_middle.
      * rewrite lookup_insert_ne by done. intros Hm. by apply lookup_app_l_Some, Hc.
    + intros m tp [Hm|[Hlen Hm]]%lookup_app_Some.
      * rewrite lookup_insert_ne; [by apply Hp|]. intros Heq. apply Hp in Hm. congruence.
      * apply list_lookup_singleton_Some in Hm as [Hz <-]. simpl. rewrite lookup_insert_eq. f_equal. lia.
    + intros m call Hin%Hcalls. rewrite length_app. lia.
    + intros g plan m call Hg Hin. rewrite length_app. pose proof (Hw g plan m call Hg Hin). lia.
Qed.

Lemma call_plan_ok `{MapRange} c p plan p' :
  cloud_ok p -> call_plan range c p = (plan, p') ->
  cloud_ok p' /\ waiting p' = waiting p /\ created p `prefix_of` created p'
  /\ forall n call, (n, call) ∈ plan -> n < length (created p').
Proof.
  intros Hp. destruct c as [message|topic|topic key|]; simpl.
  1,2: destruct (publisher _ p) as [n q] eqn:Hq; intros [= <- <-];
    destruct (publisher_ok _ _ _ _ Hp Hq) as (? & _ & ? & ? & ?); split_and!; try done; set_solver.
  - case_bool_decide; [intros [= <- <-]; split_and!; [done|done|done|set_solver]|].
    destruct (publisher topic p) as [n q] eqn:Hq. intros [= <- <-].
    destruct (publisher_ok _ _ _ _ Hp Hq) as (? & _ & ? & ? & ?); split_and!; try done; set_solver.
  - intros [= <- <-]. split_and!; [done|done|done|]. intros n call ((k, m) & [= -> _] & Hm)%list_elem_of_fmap.
    apply elem_of_range, (co_created p Hp) in Hm. by apply lookup_lt_Some in Hm.
Qed.

Lemma cloud_step_ok `{MapRange} p p' : cloud_ok p -> cloud_step p p' -> cloud_ok p'.
Proof.
  intros Hp Hs. destruct Hs as [g c p plan p' Hg Hplan|g call rest p Hg|g p Hg].
  - destruct (call_plan_ok _ _ _ _ Hp Hplan) as ([Hc Hpub Hcalls Hw] & Hwait & _ & Hin). split; simpl; try done.
    intros g' plan' n call. destruct (decide (g' = g)) as [->|Hne].
    + rewrite lookup_insert_eq. intros [= <-]. by apply Hin.
    + rewrite lookup_insert_ne by done. by apply Hw.
  - destruct Hp as [Hc Hpub Hcalls Hw]. split; simpl; try done.
    + intros n c [Hin|Hin%list_elem_of_singleton]%elem_of_app; [by eapply Hcalls|]. subst call.
      apply (Hw g _ n c Hg). set_solver.
    + intros g' plan' n c. destruct (decide (g' = g)) as [->|Hne].
      * rewrite lookup_insert_eq. intros [= <-] Hin. apply (Hw g _ n c Hg). set_solver.
      * rewrite lookup_insert_ne by done. by apply Hw.
  - destruct Hp as [Hc Hpub Hcalls Hw]. split; simpl; try done.
    intros g' plan' n c Hl%lookup_delete_Some. eapply Hw, Hl.
Qed.

Lemma new_cloud_ok cfg : cloud_ok (NewCloudPublisher cfg).
Proof. split; simpl; try done; set_solver. Qed.

(** ** One publisher per topic *)

Lemma config_constant `{MapRange} p p' : cloud_step p p' -> config p' = config p.
Proof.
  assert (Hpub : forall topic p, config (publisher topic p).2 = config p).
  { intros topic q. unfold publisher. by destruct (publishers q !! topic). }
  intros [g c q plan q' _ Hplan|g call rest q _|g q _]; [|done..]. simpl.
  destruct c as [m|topic|topic key|]; simpl in Hplan.
  1,2: destruct (publisher _ q) as [n q1] eqn:Hq; simplify_eq;
    match goal with Hq : publisher ?t ?q0 = _ |- _ => by rewrite <- (Hpub t q0), Hq end.
  - case_bool_decide; [by simplify_eq|]. destruct (publisher topic q) as [n q1] eqn:Hq. simplify_eq.
    by rewrite <- (Hpub topic q), Hq.
  - by simplify_eq.
Qed.

Lemma reachable_ok `{MapRange} cfg p : rtc cloud_step (NewCloudPublisher cfg) p -> cloud_ok p /\ config p = cfg.
Proof.
  intros Hr. remember (NewCloudPublisher cfg) as p0 eqn:Hp0.
  assert (cloud_ok p0 /\ config p0 = cfg) as [Hok Hcfg] by (subst; split; [apply new_cloud_ok|done]).
  clear Hp0. induction Hr as [|p0 p1 p2 Hs _ IH]; [done|].
  apply IH; [by eapply cloud_step_ok|]. by rewrite (config_constant _ _ Hs).
Qed.

(** The topic a call is about. *)
Definition call_topic (c : publisher_call) : option string :=
  match c with
  | CallPublish message => Some (Topic message)
  | CallFlush topic | CallResumePublish topic _ => Some topic
  | CallClose => None
  end.

Lemma plan_on_topic `{MapRange} c p plan p' topic n call :
  cloud_ok p -> call_plan range c p = (plan, p') -> call_topic c = Some topic -> (n, call) ∈ plan ->
  exists tp, created p' !! n = Some tp /\ tp_topic tp = topic.
Proof.
  intros Hp Hplan Ht Hin.
  assert (Hpub : forall q, publisher topic p = (n, q) -> p' = q -> exists tp, created p' !! n = Some tp /\ tp_topic tp = topic).
  { intros q Hq ->. destruct (publisher_ok _ _ _ _ Hp Hq) as (Hq' & Hl & _). eexists.
    split; [by apply (co_created q Hq')|done]. }
  destruct c as [m|t|t key|]; simplify_eq/=.
  1,2: destruct (publisher _ p) as [m' q] eqn:Hq; simplify_eq; apply list_elem_of_singleton in Hin as [= -> _]; by eapply Hpub.
  case_bool_decide; [simplify_eq; by apply elem_of_nil in Hin|].
  destruct (publisher _ p) as [m' q] eqn:Hq; simplify_eq; apply list_elem_of_singleton in Hin as [= -> _]; by eapply Hpub.
Qed.

(** [Close] stops every publisher created so far exactly once. *)
Lemma close_stops_all `{MapRange} p plan p' :
  cloud_ok p -> call_plan range CallClose p = (plan, p') ->
  plan ≡ₚ (fun n => (n, SdkStop)) <$> seq 0 (length (created p)).
Proof.
  intros Hr. simpl. intros [= <- _].
  trans ((fun n => (n, SdkStop)) <$> (range (publishers p)).*2); [by rewrite <- list_fmap_compose|].
  apply fmap_Permutation.
  apply NoDup_Permutation; [|apply NoDup_seq|].
  - apply NoDup_fmap_2_strong; [|apply NoDup_fmap_1 with fst, NoDup_range].
    intros [k n] [k' n'] Hk%elem_of_range Hk'%elem_of_range. simpl. intros <-.
    apply (co_created p Hr) in Hk, Hk'. f_equal. by simplify_eq.
  - intros n. rewrite elem_of_seq, list_elem_of_fmap. split.
    + intros ([k m] & -> & Hk%elem_of_range). apply (co_created p Hr), lookup_lt_Some in Hk. simpl. lia.
    + intros [_ Hn]. destruct (lookup_lt_is_Some_2 (created p) n) as [tp Htp]; [lia|].
      exists (tp_topic tp, n). split; [done|]. by apply elem_of_range, (co_published p Hr).
Qed.

(** ** Property *)

(** C32. However the calls of the goroutines interleave, there is one SDK publisher per topic, set up
    for ordering and with the configured timeout: two publishers of one topic are the same, a call
    goes to the publisher of its topic, and [Close] stops each of them exactly once. *)
Theorem one_publisher_per_topic `{MapRange} (cfg : pubsub_config) (p : CloudPublisher) :
  rtc cloud_step (NewCloudPublisher cfg) p ->
  (forall n m a b, created p !! n = Some a -> created p !! m = Some b -> tp_topic a = tp_topic b -> n = m)
  /\ (forall n a, created p !! n = Some a -> a = newPublisher cfg (tp_topic a))
  /\ (forall c plan p' topic n call,
        call_plan range c p = (plan, p') -> call_topic c = Some topic -> (n, call) ∈ plan ->
        created p `prefix_of` created p' /\ exists tp, created p' !! n = Some tp /\ tp_topic tp = topic)
  /\ (forall plan p', call_plan range CallClose p = (plan, p') ->
        plan ≡ₚ (fun n => (n, SdkStop)) <$> seq 0 (length (created p))).
Proof.
  intros [Hok Hcfg]%reachable_ok. split_and!.
  - intros n m a b Ha Hb Heq. pose proof (co_published p Hok _ _ Ha) as H1.
    pose proof (co_published p Hok _ _ Hb) as H2. rewrite Heq, H2 in H1. by injection H1.
  - intros n a Ha. pose proof (co_created p Hok _ _ (co_published p Hok _ _ Ha)) as Hc.
    rewrite Ha, Hcfg in Hc. by injection Hc.
  - intros c plan p' topic n call Hplan Ht Hin. split; [apply (call_plan_ok c p plan p' Hok Hplan)|].
    by eapply plan_on_topic.
  - intros plan p' Hplan. by eapply close_stops_all.
Qed.

(** Two goroutines publish to the same topic at the same time. *)
Definition hello : Message := {| Topic := "orders"; Data := "hello"; msg_Attributes := None; OrderingKey := "k" |}.

Definition sample_conf : pubsub_config := PubSubConfig "project" "" 30 5.

Lemma one_publisher_per_topic_witness :
  exists p, rtc cloud_step (NewCloudPublisher sample_conf) p
    /\ (length (created p) = 1 /\ length (calls p) = 2 /\ waiting p !! 0 = Some [])
    /\ forall n a, created p !! n = Some a -> a = newPublisher sample_conf (tp_topic a).
Proof.
  assert (exists p, rtc cloud_step (NewCloudPublisher sample_conf) p
    /\ (length (created p) = 1 /\ length (calls p) = 2 /\ waiting p !! 0 = Some [])) as (p & Hr & Hp).
  { eexists. split.
    - eapply rtc_l; [eapply (step_enter 0 (CallPublish hello)); reflexivity|].
      eapply rtc_l; [eapply (step_enter 1 (CallPublish hello)); reflexivity|].
      eapply rtc_l; [eapply (step_call 1); reflexivity|].
      eapply rtc_l; [eapply (step_call 0); reflexivity|]. apply rtc_refl.
    - by split_and!. }
  exists p. split; [exact Hr|]. split; [exact Hp|]. exact (proj1 (proj2 (one_publisher_per_topic sample_conf p Hr))).
Defined.
