(* ===== verification/Context.v ===== *)
(** * Contexts with deadlines ([provider.WithTimeout])

    What a context means for the calls it is passed to: the moment it is done, if ever.  A
    cancellation and a deadline are not told apart, since the code only asks whether the context is
    done.  Times are nanoseconds. *)
From S2P Require Import Prelude GoErrors Config Values Conc Routes SqsClient PubSubClient.
Local Open Scope Z_scope.

(** The moment the context is done; [context.Background()] never is. *)
Definition context : Type := option Z.

Definition Background : context := None.

(** [ctx.Err() != nil] at a moment. *)
Definition ctx_done (ctx : context) (now : Z) : bool :=
  match ctx with None => false | Some d => d <=? now end.

(** [context.WithTimeout] of the standard library: done when the parent is, or the time is over. *)
Definition earlier (parent : context) (deadline : Z) : Z :=
  match parent with None => deadline | Some d => Z.min d deadline end.

Definition context_WithTimeout (parent : context) (now timeout : Z) : context :=
  Some (earlier parent (now + timeout)).

(** [provider.WithTimeout]. *)
Definition WithTimeout (ctx : context) (now timeout : Z) : context :=
  if timeout <=? 0 then ctx else context_WithTimeout ctx now timeout.

(** The contexts of the provider calls: one SQS request, and waiting for a Pub/Sub result. *)
Definition sendCtx (conf : sqs_config) (ctx : context) (now : Z) : context :=
  WithTimeout ctx now (sqs_PublishTimeout conf).

Definition waitCtx (conf : pubsub_config) (ctx : context) (now : Z) : context :=
  WithTimeout ctx now (wrap64 (ps_PublishTimeout conf + ps_PublishResultGrace conf)).

(** That of a statement with the configured timeout. *)
Definition queryCtx (cfg : appConfig) (ctx : context) (now : Z) : context :=
  WithTimeout ctx now (PGQueryTimeout cfg).

(** Those of the cleanups, which do not derive from the relay's: [close] of the listener and
    [shutdownServer]. *)
Definition unlistenTimeout : Z := second.

Definition closeCtx (now : Z) : context := context_WithTimeout Background now unlistenTimeout.

Definition shutdownServerCtx (now : Z) : context := context_WithTimeout Background now (5 * second).

(** ** Laws *)

Lemma ctx_done_mono ctx t t' : t <= t' -> ctx_done ctx t = true -> ctx_done ctx t' = true.
Proof. destruct ctx as [d|]; simpl; [|done]. rewrite !Z.leb_le. lia. Qed.

Lemma context_WithTimeout_done ctx now timeout t :
  ctx_done (context_WithTimeout ctx now timeout) t = ctx_done ctx t || (now + timeout <=? t).
Proof.
  destruct ctx as [d|]; simpl; [|done].
  destruct (Z.leb_spec (Z.min d (now + timeout)) t), (Z.leb_spec d t), (Z.leb_spec (now + timeout) t);
    simpl; try done; lia.
Qed.

Lemma WithTimeout_done ctx now timeout t :
  ctx_done (WithTimeout ctx now timeout) t = ctx_done ctx t || ((0 <? timeout) && (now + timeout <=? t)).
Proof.
  unfold WithTimeout. destruct (Z.leb_spec timeout 0), (Z.ltb_spec 0 timeout); try lia; simpl.
  - by rewrite orb_false_r.
  - apply context_WithTimeout_done.
Qed.

(** With the positive publish timeout that validation asks for, a call of a provider has a
    deadline; for Pub/Sub unless the sum with the grace period leaves the range of a duration. *)
Lemma publish_has_deadline (cfg : appConfig) (sqs : sqs_config) (ps : pubsub_config) (ctx : context) (now t : Z) :
  runtime_ok cfg -> sqs_PublishTimeout sqs = PublishTimeout cfg ->
  ps_PublishTimeout ps = PublishTimeout cfg -> ps_PublishResultGrace ps = PublishResultGrace cfg ->
  0 <= PublishResultGrace cfg -> in_int64 (PublishTimeout cfg + PublishResultGrace cfg) ->
  ctx_done (sendCtx sqs ctx now) t = ctx_done ctx t || (now + PublishTimeout cfg <=? t)
  /\ ctx_done (waitCtx ps ctx now) t
     = ctx_done ctx t || (now + (PublishTimeout cfg + PublishResultGrace cfg) <=? t).
Proof.
  intros [_ _ _ _ _ Hpos _ _] Hs Hp Hg H0 Hin. unfold sendCtx, waitCtx.
  rewrite !WithTimeout_done, Hs, Hp, Hg, wrap64_id by done.
  split; (destruct (Z.ltb_spec 0 (PublishTimeout cfg)); [|lia]).
  - done.
  - destruct (Z.ltb_spec 0 (PublishTimeout cfg + PublishResultGrace cfg)); [done|lia].
Qed.

(** The cleanups are not cut short by the cancellation that made them run, and each has its bound. *)
Lemma cleanup_contexts (now t : Z) :
  ctx_done (closeCtx now) t = (now + second <=? t)
  /\ ctx_done (shutdownServerCtx now) t = (now + 5 * second <=? t).
Proof. by split. Qed.
