(* ===== verification/Flags.v ===== *)
(** * Flags and environment ([config_flags.go], [config.go])

    How the configuration is read: the flag values and their [Set] methods, the table of flags
    with their environment variables, [applyEnv], the flag syntax of Go's [flag] package, the
    retired variables, and [loadConfig] and [loadInitConfig].

    A flag points to the variable it sets.  The variables are the fields of the configuration and
    the local variables of the registration code; [store] holds their values and a pointer is the
    name of one of them.  The configuration is read out of the store at the end. *)
From S2P Require Import Prelude GoErrors Config Values Strconv Routes.
Local Open Scope go_scope.

(** The environment of the process. *)
Abbreviation environment := (gmap string string).

(** ** The variables flags point to *)

Inductive string_ptr :=
| p_EventTable | p_EventID | p_EventTimestamp | p_EventPayload | p_EventTarget | p_EventDestination
| p_EventOptions | p_DLQTable | p_LogLevel | p_LogFormat
| p_PGHost | p_PGUser | p_PGPassword | p_PGDatabase | p_PGSchema | p_PGSSLRootCert
| p_DefaultPubSubTopic | p_pubsubDestinations | p_PubSubProjectID | p_PubSubAPIEndpoint
| p_DefaultSQSQueueURL | p_sqsDestinations | p_SQSAPIEndpoint
| p_AWSRegion | p_AWSRoleARN | p_AWSRoleSessionName | p_AWSWebIdentityProvider | p_AWSWebIdentityAudience
| p_PGInitUser | p_PGInitPassword | p_producerRoles.

Inductive int_ptr :=
| p_CollectBatchTarget | p_publishTimeoutMS | p_maxEventAgeMS | p_HealthPort | p_pgQueryTimeoutMS.

Inductive bool_ptr := p_PGSSL | p_PGSSLRejectUnauthorized | p_PubSubEnabled | p_SQSEnabled | p_apply.

#[export] Instance string_ptr_eq_dec : EqDecision string_ptr.
Proof. solve_decision. Defined.
#[export] Instance int_ptr_eq_dec : EqDecision int_ptr.
Proof. solve_decision. Defined.
#[export] Instance bool_ptr_eq_dec : EqDecision bool_ptr.
Proof. solve_decision. Defined.

Record store := Store {
  strings : string_ptr -> string;
  ints : int_ptr -> Z;
  bools : bool_ptr -> bool;
  pg_port : Z;
}.

Definition update {K V} `{EqDecision K} (f : K -> V) (k : K) (v : V) : K -> V :=
  fun k' => if decide (k' = k) then v else f k'.

Definition set_string (p : string_ptr) (v : string) (st : store) : store :=
  Store (update (strings st) p v) (ints st) (bools st) (pg_port st).
Definition set_int (p : int_ptr) (v : Z) (st : store) : store :=
  Store (strings st) (update (ints st) p v) (bools st) (pg_port st).
Definition set_bool (p : bool_ptr) (v : bool) (st : store) : store :=
  Store (strings st) (ints st) (update (bools st) p v) (pg_port st).
Definition set_port (v : Z) (st : store) : store := Store (strings st) (ints st) (bools st) v.

(** ** Flag values *)

Inductive flagValue :=
| nonEmptyStringValue (value : string_ptr)
| disableableStringValue (value : string_ptr)
| secretStringValue (value : string_ptr)
| uint16Value
| intValue (value : int_ptr)
| boolValue (value : bool_ptr).

(** The variables before registration: fields of [cfg], and locals. *)
Definition store_of (cfg : appConfig) : store := {|
  strings := fun p => match p with
    | p_EventTable => EventTable cfg | p_EventID => cfgEventID cfg
    | p_EventTimestamp => EventTimestamp cfg | p_EventPayload => EventPayload cfg
    | p_EventTarget => EventTarget cfg | p_EventDestination => EventDestination cfg
    | p_EventOptions => EventOptions cfg | p_DLQTable => DLQTable cfg | p_LogLevel => LogLevel cfg
    | p_LogFormat => LogFormat cfg | p_PGHost => PGHost cfg | p_PGUser => PGUser cfg
    | p_PGPassword => PGPassword cfg | p_PGDatabase => PGDatabase cfg | p_PGSchema => PGSchema cfg
    | p_PGSSLRootCert => PGSSLRootCert cfg | p_DefaultPubSubTopic => DefaultPubSubTopic cfg
    | p_pubsubDestinations => "" | p_PubSubProjectID => PubSubProjectID cfg
    | p_PubSubAPIEndpoint => PubSubAPIEndpoint cfg | p_DefaultSQSQueueURL => DefaultSQSQueueURL cfg
    | p_sqsDestinations => "" | p_SQSAPIEndpoint => SQSAPIEndpoint cfg
    | p_AWSRegion => AWSRegion cfg | p_AWSRoleARN => AWSRoleARN cfg
    | p_AWSRoleSessionName => AWSRoleSessionName cfg
    | p_AWSWebIdentityProvider => AWSWebIdentityProvider cfg
    | p_AWSWebIdentityAudience => AWSWebIdentityAudience cfg | p_PGInitUser => PGInitUser cfg
    | p_PGInitPassword => PGInitPassword cfg | p_producerRoles => ""
    end;
  ints := fun p => match p with
    | p_CollectBatchTarget => CollectBatchTarget cfg | p_publishTimeoutMS => 0%Z
    | p_maxEventAgeMS => 0%Z | p_HealthPort => HealthPort cfg | p_pgQueryTimeoutMS => 0%Z
    end;
  bools := fun p => match p with
    | p_PGSSL => PGSSL cfg | p_PGSSLRejectUnauthorized => PGSSLRejectUnauthorized cfg
    | p_PubSubEnabled => PubSubEnabled cfg | p_SQSEnabled => SQSEnabled cfg | p_apply => false
    end;
  pg_port := PGPort cfg;
|}.

(** What the flags set, after [Parse]; a millisecond count becomes an [int64] of nanoseconds. *)
Definition finalize (cfg : appConfig) (st : store) : appConfig := {|
  EventTable := strings st p_EventTable;
  cfgEventID := strings st p_EventID;
  EventTimestamp := strings st p_EventTimestamp;
  EventPayload := strings st p_EventPayload;
  EventTarget := strings st p_EventTarget;
  EventDestination := strings st p_EventDestination;
  EventOptions := strings st p_EventOptions;
  CollectBatchTarget := ints st p_CollectBatchTarget;
  BacklogCountLimit := BacklogCountLimit cfg;
  SQSSendConcurrency := SQSSendConcurrency cfg;
  DLQTable := strings st p_DLQTable;
  NotifyChannel := NotifyChannel cfg;
  LogLevel := strings st p_LogLevel;
  LogFormat := strings st p_LogFormat;
  WatchdogInterval := WatchdogInterval cfg;
  HealthPort := ints st p_HealthPort;
  HealthStaleAfter := HealthStaleAfter cfg;
  PubSubEnabled := bools st p_PubSubEnabled;
  SQSEnabled := bools st p_SQSEnabled;
  DefaultPubSubTopic := strings st p_DefaultPubSubTopic;
  DefaultSQSQueueURL := strings st p_DefaultSQSQueueURL;
  PubSubDestinations := parseStringList (strings st p_pubsubDestinations);
  SQSDestinations := parseStringList (strings st p_sqsDestinations);
  PubSubProjectID := strings st p_PubSubProjectID;
  PubSubAPIEndpoint := strings st p_PubSubAPIEndpoint;
  SQSAPIEndpoint := strings st p_SQSAPIEndpoint;
  ErrorCooldown := ErrorCooldown cfg;
  PublishTimeout := wrap64 (ints st p_publishTimeoutMS * millisecond);
  PublishResultGrace := PublishResultGrace cfg;
  MaxEventAge := wrap64 (ints st p_maxEventAgeMS * millisecond);
  StatsInterval := StatsInterval cfg;
  PGHost := strings st p_PGHost;
  PGPort := pg_port st;
  PGUser := strings st p_PGUser;
  PGPassword := strings st p_PGPassword;
  PGDatabase := strings st p_PGDatabase;
  PGSchema := strings st p_PGSchema;
  PGSSL := bools st p_PGSSL;
  PGSSLRejectUnauthorized := bools st p_PGSSLRejectUnauthorized;
  PGSSLRootCert := strings st p_PGSSLRootCert;
  PGConnectTimeout := PGConnectTimeout cfg;
  PGQueryTimeout := wrap64 (ints st p_pgQueryTimeoutMS * millisecond);
  PGInitUser := strings st p_PGInitUser;
  PGInitPassword := strings st p_PGInitPassword;
  PGProducerRoles := PGProducerRoles cfg;
  AWSRegion := strings st p_AWSRegion;
  AWSRoleARN := strings st p_AWSRoleARN;
  AWSRoleSessionName := strings st p_AWSRoleSessionName;
  AWSRoleDuration := AWSRoleDuration cfg;
  AWSCredentialRefreshWindow := AWSCredentialRefreshWindow cfg;
  AWSWebIdentityProvider := strings st p_AWSWebIdentityProvider;
  AWSWebIdentityAudience := strings st p_AWSWebIdentityAudience;
|}.

Definition deriveConfig (cfg : appConfig) : appConfig :=
  AppConfig
    (EventTable cfg) (cfgEventID cfg) (EventTimestamp cfg) (EventPayload cfg) (EventTarget cfg)
    (EventDestination cfg) (EventOptions cfg) (CollectBatchTarget cfg) (BacklogCountLimit cfg)
    (SQSSendConcurrency cfg) (DLQTable cfg) (deriveNotifyChannel (EventTable cfg)) (LogLevel cfg)
    (LogFormat cfg) (WatchdogInterval cfg) (HealthPort cfg) (HealthStaleAfter cfg)
    (PubSubEnabled cfg) (SQSEnabled cfg) (DefaultPubSubTopic cfg) (DefaultSQSQueueURL cfg)
    (PubSubDestinations cfg) (SQSDestinations cfg) (PubSubProjectID cfg) (PubSubAPIEndpoint cfg)
    (SQSAPIEndpoint cfg) (ErrorCooldown cfg) (PublishTimeout cfg) (PublishResultGrace cfg)
    (MaxEventAge cfg) (StatsInterval cfg) (PGHost cfg) (PGPort cfg) (PGUser cfg) (PGPassword cfg)
    (PGDatabase cfg) (PGSchema cfg) (PGSSL cfg) (PGSSLRejectUnauthorized cfg) (PGSSLRootCert cfg)
    (PGConnectTimeout cfg) (PGQueryTimeout cfg) (PGInitUser cfg) (PGInitPassword cfg)
    (PGProducerRoles cfg) (AWSRegion cfg) (AWSRoleARN cfg) (AWSRoleSessionName cfg)
    (AWSRoleDuration cfg) (AWSCredentialRefreshWindow cfg) (AWSWebIdentityProvider cfg)
    (AWSWebIdentityAudience cfg).

(** [parser.cfg.PGProducerRoles = roles] *)
Definition set_producer_roles (roles : list string) (cfg : appConfig) : appConfig :=
  AppConfig
    (EventTable cfg) (cfgEventID cfg) (EventTimestamp cfg) (EventPayload cfg) (EventTarget cfg)
    (EventDestination cfg) (EventOptions cfg) (CollectBatchTarget cfg) (BacklogCountLimit cfg)
    (SQSSendConcurrency cfg) (DLQTable cfg) (NotifyChannel cfg) (LogLevel cfg) (LogFormat cfg)
    (WatchdogInterval cfg) (HealthPort cfg) (HealthStaleAfter cfg) (PubSubEnabled cfg)
    (SQSEnabled cfg) (DefaultPubSubTopic cfg) (DefaultSQSQueueURL cfg) (PubSubDestinations cfg)
    (SQSDestinations cfg) (PubSubProjectID cfg) (PubSubAPIEndpoint cfg) (SQSAPIEndpoint cfg)
    (ErrorCooldown cfg) (PublishTimeout cfg) (PublishResultGrace cfg) (MaxEventAge cfg)
    (StatsInterval cfg) (PGHost cfg) (PGPort cfg) (PGUser cfg) (PGPassword cfg) (PGDatabase cfg)
    (PGSchema cfg) (PGSSL cfg) (PGSSLRejectUnauthorized cfg) (PGSSLRootCert cfg)
    (PGConnectTimeout cfg) (PGQueryTimeout cfg) (PGInitUser cfg) (PGInitPassword cfg) (roles)
    (AWSRegion cfg) (AWSRoleARN cfg) (AWSRoleSessionName cfg) (AWSRoleDuration cfg)
    (AWSCredentialRefreshWindow cfg) (AWSWebIdentityProvider cfg) (AWSWebIdentityAudience cfg).

Section flags.
Context `{GoRuntime} `{MapRange}.

Definition empty_value : error := ErrText "value must not be empty".

(** [Set] of the flag values; [IntVar] and [BoolVar] are those of the [flag] package, whose
    variables also change when the text is rejected, which nobody can observe. *)
Definition Set_value (v : flagValue) (value : string) (st : store) : error + store :=
  match v with
  | nonEmptyStringValue p | secretStringValue p =>
      if bool_decide (value = "") then inl empty_value else inr (set_string p value st)
  | disableableStringValue p =>
      if bool_decide (value = "")
      then inl (ErrText ("value must not be empty; use " +:+ strconv_Quote disableSentinel +:+ " to omit it"))
      else if strings_EqualFold value disableSentinel then inr (set_string p "" st)
      else inr (set_string p value st)
  | uint16Value =>
      match ParseUint value 10 16 with
      | inl e => inl (ErrText ("strconv.ParseUint: parsing " +:+ strconv_Quote value +:+ ": " +:+ num_error_text e))
      | inr parsed => inr (set_port parsed st)
      end
  | intValue p =>
      match ParseInt value 0 with
      | inl ErrSyntax => inl (ErrText "parse error")
      | inl ErrRange => inl (ErrText "value out of range")
      | inr parsed => inr (set_int p parsed st)
      end
  | boolValue p =>
      match ParseBool value with
      | None => inl (ErrText "parse error")
      | Some parsed => inr (set_bool p parsed st)
      end
  end.

(** [String]: what a usage message may show of the value. *)
Definition String_value (v : flagValue) (st : store) : string :=
  match v with
  | nonEmptyStringValue p => strings st p
  | disableableStringValue p => if bool_decide (strings st p = "") then disableSentinel else strings st p
  | secretStringValue p => if bool_decide (strings st p = "") then "" else "<set>"
  | uint16Value => pretty (pg_port st)
  | intValue p => pretty (ints st p)
  | boolValue p => if bools st p then "true" else "false"
  end.

Definition IsBoolFlag (v : flagValue) : bool := match v with boolValue _ => true | _ => false end.

(** ** Registration *)

Record cliOption := CliOption {
  category : string;
  option_name : string;
  usage : string;
  envVars : list string;
}.

Record flag := Flag { flag_name : string; flag_usage : string; flag_value : flagValue }.

(** [flags] is the [formal] map of the flag set. *)
Record configParser := ConfigParser {
  parser_store : store;
  flags : gmap string flag;
  options : list cliOption;
}.

Definition optionHelp (description envVar defaultValue : string) : string :=
  description +:+ " Env: " +:+ envVar +:+ ". Default: " +:+ defaultValue +:+ ".".

Definition redactDefault (value : string) : string :=
  if bool_decide (value = "") then "" else "<set>".

(** [flags.Var] and the append to the options. *)
Definition register (cat : string) (v : flagValue) (name usage : string) (envVars : list string)
    (p : configParser) : configParser :=
  ConfigParser (parser_store p) (<[name := Flag name usage v]> (flags p))
    (options p ++ [CliOption cat name usage envVars]).

Definition on_store (f : store -> store) (p : configParser) : configParser :=
  ConfigParser (f (parser_store p)) (flags p) (options p).

Definition addStringFlag (cat : string) (destination : string_ptr) (name value description envVar : string)
    (p : configParser) : configParser :=
  register cat (nonEmptyStringValue destination) name (optionHelp description envVar value)
    (parseStringList envVar) (on_store (set_string destination value) p).

Definition addDisableableFlag (cat : string) (destination : string_ptr) (name value description envVar : string)
    (p : configParser) : configParser :=
  let defaultDisplay := if bool_decide (value = "") then disableSentinel else value in
  register cat (disableableStringValue destination) name
    (optionHelp (description +:+ " Set to " +:+ strconv_Quote disableSentinel +:+ " to omit it.") envVar defaultDisplay)
    (parseStringList envVar) (on_store (set_string destination value) p).

Definition addIntFlag (cat : string) (destination : int_ptr) (name : string) (value : Z)
    (description envVar : string) (p : configParser) : configParser :=
  register cat (intValue destination) name (optionHelp description envVar (pretty value))
    (parseStringList envVar) (on_store (set_int destination value) p).

Definition addBoolFlag (cat : string) (destination : bool_ptr) (name : string) (value : bool)
    (description envVar : string) (p : configParser) : configParser :=
  register cat (boolValue destination) name (optionHelp description envVar (if value then "true" else "false"))
    (parseStringList envVar) (on_store (set_bool destination value) p).

Definition addValueFlag (cat : string) (value : flagValue) (name description envVar defaultValue : string)
    (p : configParser) : configParser :=
  register cat value name (optionHelp description envVar defaultValue) (parseStringList envVar) p.

(** [time.Duration] to whole milliseconds, as the scratch variables start. *)
Definition to_ms (d : Z) : Z := Z.quot d millisecond.

Definition config_flags (cfg : appConfig) : list (configParser -> configParser) :=
  let publishTimeoutMS := to_ms (PublishTimeout cfg) in
  let maxEventAgeMS := to_ms (MaxEventAge cfg) in
  let pgQueryTimeoutMS := to_ms (PGQueryTimeout cfg) in
  let pubsubDestinations := strings_Join (PubSubDestinations cfg) "," in
  let sqsDestinations := strings_Join (SQSDestinations cfg) "," in [
  addStringFlag "Event table" p_EventTable "event-table" (EventTable cfg)
    "Outbox table name." "EVENT_TABLE";
  addStringFlag "Event table" p_EventID "event-id" (cfgEventID cfg)
    "Event id column." "EVENT_ID";
  addDisableableFlag "Event table" p_EventTimestamp "event-timestamp" (EventTimestamp cfg)
    "Event timestamp column." "EVENT_TIMESTAMP";
  addStringFlag "Event table" p_EventPayload "event-payload" (EventPayload cfg)
    "Event payload column." "EVENT_PAYLOAD";
  addDisableableFlag "Event table" p_EventTarget "event-target" (EventTarget cfg)
    "Backend selector column. Values pubsub or sqs." "EVENT_TARGET";
  addDisableableFlag "Event table" p_EventDestination "event-destination" (EventDestination cfg)
    "Pub/Sub topic name or SQS queue URL column." "EVENT_DESTINATION";
  addDisableableFlag "Event table" p_EventOptions "event-options" (EventOptions cfg)
    "Backend-specific JSON options column." "EVENT_OPTIONS";
  addIntFlag "Batch processing" p_CollectBatchTarget "collect-batch-target" (CollectBatchTarget cfg)
    "Approximate target rows selected per batch, spread evenly across eligible routes." "COLLECT_BATCH_TARGET";
  addDisableableFlag "Batch processing" p_DLQTable "dlq-table" (DLQTable cfg)
    "Dead letter table for poison events." "DLQ_TABLE";
  addIntFlag "Batch processing" p_publishTimeoutMS "publish-timeout-ms" publishTimeoutMS
    "Timeout for a single publish call in milliseconds. Must be positive." "PUBLISH_TIMEOUT_MS";
  addIntFlag "Batch processing" p_maxEventAgeMS "max-event-age-ms" maxEventAgeMS
    "Maximum selected event age in milliseconds. 0 disables age-based poison." "MAX_EVENT_AGE_MS";
  addIntFlag "HTTP / health" p_HealthPort "health-port" (HealthPort cfg)
    "HTTP health server port. Set to 0 to disable." "HEALTH_PORT, PORT";
  addStringFlag "Logging" p_LogLevel "log-level" (LogLevel cfg)
    "Log level: debug, info, warn, or error." "LOG_LEVEL";
  addStringFlag "Logging" p_LogFormat "log-format" (LogFormat cfg)
    "Log format: text or json." "LOG_FORMAT";
  addStringFlag "PostgreSQL" p_PGHost "pg-host" (PGHost cfg)
    "PostgreSQL host." "PG_HOST";
  addValueFlag "PostgreSQL" uint16Value "pg-port" "PostgreSQL port." "PG_PORT" (pretty (PGPort cfg));
  addStringFlag "PostgreSQL" p_PGUser "pg-user" (PGUser cfg)
    "PostgreSQL user." "PG_USER";
  addValueFlag "PostgreSQL" (secretStringValue p_PGPassword) "pg-password" "PostgreSQL password." "PG_PASSWORD" (redactDefault (PGPassword cfg));
  addStringFlag "PostgreSQL" p_PGDatabase "pg-database" (PGDatabase cfg)
    "PostgreSQL database." "PG_DATABASE";
  addStringFlag "PostgreSQL" p_PGSchema "pg-schema" (PGSchema cfg)
    "PostgreSQL schema containing the outbox objects." "PG_SCHEMA";
  addBoolFlag "PostgreSQL" p_PGSSL "pg-ssl" (PGSSL cfg)
    "Enable PostgreSQL TLS." "PG_SSL";
  addBoolFlag "PostgreSQL" p_PGSSLRejectUnauthorized "pg-ssl-reject-unauthorized" (PGSSLRejectUnauthorized cfg)
    "Verify PostgreSQL TLS certificate and hostname." "PG_SSL_REJECT_UNAUTHORIZED";
  addStringFlag "PostgreSQL" p_PGSSLRootCert "pg-ssl-root-cert" (PGSSLRootCert cfg)
    "Path to a CA certificate (PEM) used to verify the PostgreSQL server." "PG_SSL_ROOT_CERT";
  addIntFlag "PostgreSQL" p_pgQueryTimeoutMS "pg-query-timeout-ms" pgQueryTimeoutMS
    "Timeout for a single database query in milliseconds. 0 disables the timeout." "PG_QUERY_TIMEOUT_MS";
  addBoolFlag "Google Pub/Sub" p_PubSubEnabled "pubsub-enabled" (PubSubEnabled cfg)
    "Enable publishing to Google Pub/Sub." "PUBSUB_ENABLED";
  addDisableableFlag "Google Pub/Sub" p_DefaultPubSubTopic "default-pubsub-topic" (DefaultPubSubTopic cfg)
    "Pub/Sub topic used when an event has no destination." "DEFAULT_PUBSUB_TOPIC";
  addStringFlag "Google Pub/Sub" p_pubsubDestinations "pubsub-destinations" pubsubDestinations
    "Comma-separated Pub/Sub destinations this process owns. Empty means all Pub/Sub destinations." "PUBSUB_DESTINATIONS";
  addStringFlag "Google Pub/Sub" p_PubSubProjectID "pubsub-project-id" (PubSubProjectID cfg)
    "Google Cloud project for Pub/Sub. Detected from ADC when empty." "PUBSUB_PROJECT_ID";
  addStringFlag "Google Pub/Sub" p_PubSubAPIEndpoint "pubsub-api-endpoint" (PubSubAPIEndpoint cfg)
    "Optional Pub/Sub API endpoint override." "PUBSUB_API_ENDPOINT";
  addBoolFlag "AWS SQS" p_SQSEnabled "sqs-enabled" (SQSEnabled cfg)
    "Enable publishing to AWS SQS." "SQS_ENABLED";
  addDisableableFlag "AWS SQS" p_DefaultSQSQueueURL "default-sqs-queue-url" (DefaultSQSQueueURL cfg)
    "SQS queue URL used when an event has no destination." "DEFAULT_SQS_QUEUE_URL";
  addStringFlag "AWS SQS" p_sqsDestinations "sqs-destinations" sqsDestinations
    "Comma-separated SQS destinations this process owns. Empty means all SQS destinations." "SQS_DESTINATIONS";
  addStringFlag "AWS SQS" p_SQSAPIEndpoint "sqs-api-endpoint" (SQSAPIEndpoint cfg)
    "Optional SQS API endpoint override." "SQS_API_ENDPOINT";
  addStringFlag "AWS SQS" p_AWSRegion "aws-region" (AWSRegion cfg)
    "AWS region for SQS and STS." "AWS_REGION";
  addStringFlag "AWS SQS" p_AWSRoleARN "aws-role-arn" (AWSRoleARN cfg)
    "Optional AWS role to assume before publishing to SQS." "AWS_ROLE_ARN";
  addStringFlag "AWS SQS" p_AWSRoleSessionName "aws-role-session-name" (AWSRoleSessionName cfg)
    "AWS assume-role session name." "AWS_ROLE_SESSION_NAME";
  addDisableableFlag "AWS SQS" p_AWSWebIdentityProvider "aws-web-identity-provider" (AWSWebIdentityProvider cfg)
    "Set to 'google' to assume the AWS role with a Google OIDC token (GCP to AWS)." "AWS_WEB_IDENTITY_PROVIDER";
  addStringFlag "AWS SQS" p_AWSWebIdentityAudience "aws-web-identity-audience" (AWSWebIdentityAudience cfg)
    "Audience for the web identity token, matching the AWS IAM OIDC provider." "AWS_WEB_IDENTITY_AUDIENCE"
].

(** [bindConfigFlags], and the parser before [loadInitConfig] adds its own flags. *)
Definition bindConfigFlags (cfg : appConfig) (p : configParser) : configParser :=
  foldl (fun p add => add p) p (config_flags cfg).

Definition newConfigParser : configParser :=
  bindConfigFlags defaultConfig (ConfigParser (store_of defaultConfig) ∅ []).

(** ** Usage *)

Fixpoint usage_lines (currentCategory : string) (options : list cliOption) : string :=
  match options with
  | [] => ""
  | option :: options =>
      (if bool_decide (category option <> currentCategory) then nl +:+ category option +:+ ":" +:+ nl else "")
      +:+ "  --" +:+ option_name option +:+ nl +:+ "      " +:+ usage option +:+ nl
      +:+ usage_lines (category option) options
  end.

Definition printUsage (options : list cliOption) : string :=
  "Usage:" +:+ nl +:+ "  outboxer [options]" +:+ nl +:+ usage_lines "" options.

(** ** The environment *)

Definition retiredEnvVars : gmap string string :=
  list_to_map [
    ("SQS_SEND_CONCURRENCY", "fixed at 128, the fastest measured setting");
    ("BACKLOG_COUNT_LIMIT", "fixed at 100000");
    ("ERROR_COOLDOWN_MS", "fixed at 5s");
    ("PUBLISH_RESULT_GRACE_MS", "fixed at 5s");
    ("WATCHDOG_INTERVAL_MS", "fixed at 10m");
    ("STATS_INTERVAL_MS", "fixed at 10s");
    ("PG_CONNECT_TIMEOUT_MS", "fixed at 10s");
    ("AWS_ROLE_DURATION_SECONDS", "fixed at 1h");
    ("AWS_CREDENTIAL_REFRESH_WINDOW_MS", "fixed at 5m");
    ("HEALTH_STALE_AFTER_MS", "fixed at 5m");
    ("NOTIFY_CHANNEL", "derived from the event table as outboxer_<table>");
    ("POLL_INTERVAL_MS", "fixed at 1s (the wake-up backstop; LISTEN/NOTIFY is the fast path)")
  ].

Fixpoint first_retired (env : environment) (vars : list (string * string)) : option error :=
  match vars with
  | [] => None
  | (name, resolution) :: vars =>
      match env !! name with
      | Some _ => Some (ErrText (name +:+ " was removed and is now " +:+ resolution +:+ "; unset it"))
      | None => first_retired env vars
      end
  end.

Definition rejectRetiredEnv (env : environment) : option error :=
  first_retired env (range retiredEnvVars).

(** [flags.Set] *)
Definition set_flag (flags : gmap string flag) (name value : string) (st : store) : error + store :=
  match flags !! name with
  | None => inl (ErrText ("no such flag -" +:+ name))
  | Some f => Set_value (flag_value f) value st
  end.

(** The inner loop of [applyEnv]: the first variable that is set. *)
Fixpoint first_set (env : environment) (names : list string) : option (string * string) :=
  match names with
  | [] => None
  | name :: names =>
      match env !! name with Some value => Some (name, value) | None => first_set env names end
  end.

Fixpoint applyEnv (env : environment) (flags : gmap string flag) (options : list cliOption) (st : store) :
    error + store :=
  match options with
  | [] => inr st
  | option :: options =>
      match first_set env (envVars option) with
      | None => applyEnv env flags options st
      | Some (name, value) =>
          match set_flag flags (option_name option) value st with
          | inl e => inl (ErrWrap ("invalid " +:+ name +:+ ": " +:+ error_text e) e)
          | inr st => applyEnv env flags options st
          end
      end
  end.

(** ** The command line: Go's [flag] package *)

Definition ErrHelp : error := ErrSentinel "flag: help requested".

Record failure := Failure { failed_with : error; printed : string }.

Inductive cli_arg :=
| ArgPositional
| ArgTerminator
| ArgBadSyntax
| ArgFlag (name : string) (value : option string).

Definition dash : ascii := "-"%char.

(** How [parseOne] reads its first argument: the name of a flag cannot start with a dash or an
    equals sign. *)
Definition read_arg (s : string) : cli_arg :=
  match s with
  | String d (String c rest) =>
      if negb (ascii_eqb d dash) then ArgPositional
      else if ascii_eqb c dash && bool_decide (rest = "") then ArgTerminator
      else
        let name := if ascii_eqb c dash then rest else String c rest in
        match name with
        | EmptyString => ArgBadSyntax
        | String n _ =>
            if ascii_eqb n dash || ascii_eqb n "=" then ArgBadSyntax
            else let '(name, value, hasValue) := strings_Cut name "=" in
                 ArgFlag name (if hasValue : bool then Some value else None)
        end
  | _ => ArgPositional
  end.

Definition failf {A} (options : list cliOption) (message : string) : failure + A :=
  inl (Failure (ErrText message) (message +:+ nl +:+ printUsage options)).

(** [FlagSet.Parse]: the variables and the arguments that are left. *)
Fixpoint parse_args (flags : gmap string flag) (options : list cliOption) (args : list string) (st : store) :
    failure + store * list string :=
  match args with
  | [] => inr (st, [])
  | s :: rest =>
      match read_arg s with
      | ArgPositional => inr (st, args)
      | ArgTerminator => inr (st, rest)
      | ArgBadSyntax => failf options ("bad flag syntax: " +:+ s)
      | ArgFlag name value =>
          match flags !! name with
          | None =>
              if bool_decide (name = "help" \/ name = "h")
              then inl (Failure ErrHelp (printUsage options))
              else failf options ("flag provided but not defined: -" +:+ name)
          | Some f =>
              if IsBoolFlag (flag_value f) then
                match value with
                | Some v =>
                    match Set_value (flag_value f) v st with
                    | inl e => failf options ("invalid boolean value " +:+ strconv_Quote v +:+ " for -"
                                              +:+ name +:+ ": " +:+ error_text e)
                    | inr st => parse_args flags options rest st
                    end
                | None =>
                    match Set_value (flag_value f) "true" st with
                    | inl e => failf options ("invalid boolean flag " +:+ name +:+ ": " +:+ error_text e)
                    | inr st => parse_args flags options rest st
                    end
                end
              else
                match value, rest with
                | None, [] => failf options ("flag needs an argument: -" +:+ name)
                | Some v, _ =>
                    match Set_value (flag_value f) v st with
                    | inl e => failf options ("invalid value " +:+ strconv_Quote v +:+ " for flag -"
                                              +:+ name +:+ ": " +:+ error_text e)
                    | inr st => parse_args flags options rest st
                    end
                | None, v :: rest =>
                    match Set_value (flag_value f) v st with
                    | inl e => failf options ("invalid value " +:+ strconv_Quote v +:+ " for flag -"
                                              +:+ name +:+ ": " +:+ error_text e)
                    | inr st => parse_args flags options rest st
                    end
                end
          end
      end
  end.

(** ** Loading *)

Definition quietly {A} (e : error) : failure + A := inl (Failure e "").

(** [configParser.parse]: the configuration and the variables of the registration code. *)
Definition parse (p : configParser) (env : environment) (args : list string) :
    failure + appConfig * store :=
  match rejectRetiredEnv env with
  | Some e => quietly e
  | None =>
      match applyEnv env (flags p) (options p) (parser_store p) with
      | inl e => quietly e
      | inr st =>
          let? (st, rest) := parse_args (flags p) (options p) args st in
          let cfg := deriveConfig (finalize defaultConfig st) in
          match rest with
          | [] => inr (cfg, st)
          | arg :: _ => quietly (ErrText ("unexpected argument: " +:+ strconv_Quote arg))
          end
      end
  end.

Definition loadConfig (env : environment) (args : list string) : failure + appConfig :=
  let? (cfg, _) := parse newConfigParser env args in inr cfg.

Definition apply_usage : string :=
  "Execute the generated SQL against the database instead of printing it to stdout.".

Definition initConfigParser : configParser :=
  let producerRoles := strings_Join (PGProducerRoles defaultConfig) "," in
  foldl (fun p add => add p) newConfigParser [
    (fun p => register "Provisioning" (boolValue p_apply) "apply" apply_usage []
                (on_store (set_bool p_apply false) p));
    addStringFlag "Provisioning" p_PGInitUser "pg-init-user" (PGInitUser defaultConfig)
      "Provisioning role to connect as for --apply. When set, init also creates and grants to the run role."
      "PG_INIT_USER";
    addValueFlag "Provisioning" (secretStringValue p_PGInitPassword) "pg-init-password"
      "Password for the provisioning role." "PG_INIT_PASSWORD" (redactDefault (PGInitPassword defaultConfig));
    addStringFlag "Provisioning" p_producerRoles "pg-producer-roles" producerRoles
      "Comma-separated existing roles granted SELECT, INSERT on the event table." "PG_PRODUCER_ROLES"
  ].

Definition loadInitConfig (env : environment) (args : list string) : failure + appConfig * bool :=
  let? (cfg, st) := parse initConfigParser env args in
  inr (set_producer_roles (parseStringList (strings st p_producerRoles)) cfg, bools st p_apply).

End flags.
