(* ===== verification/DotEnv.v ===== *)
(** * The [.env] file ([dotenv.go])

    The file is read line by line into the process environment; a variable that exists already
    keeps its value.  The result of [os.ReadFile] is an argument; the environment is a map. *)
From S2P Require Import Prelude Config Strconv Flags.

Definition strings_TrimPrefix (s prefix : string) : string :=
  if strings_HasPrefix s prefix then string_drop (String.length prefix) s else s.

Definition nul : ascii := ascii_of_N 0.

(** [os.Setenv]: the operating system takes no empty name, no equals sign in a name and no zero
    byte; the error is ignored. *)
Definition settable (key value : string) : bool :=
  negb (bool_decide (key = "")) && negb (string_elem "=" key) && negb (string_elem nul key)
  && negb (string_elem nul value).

Definition Setenv (key value : string) (env : environment) : environment :=
  if settable key value then <[key := value]> env else env.

Definition dotenv_line (env : environment) (line : string) : environment :=
  let line := strings_TrimSpace line in
  if bool_decide (line = "") || strings_HasPrefix line "#" then env
  else
    let line := strings_TrimPrefix line "export " in
    let '(key, value, found) := strings_Cut line "=" in
    if negb found then env
    else
      let key := strings_TrimSpace key in
      let value := strings_TrimSpace value in
      if bool_decide (key = "") then env
      else match env !! key with
           | Some _ => env
           | None =>
               let value := match Unquote value with Some unquoted => unquoted | None => value end in
               Setenv key value env
           end.

(** [content] is what [os.ReadFile] gives; [None] is an error. *)
Definition loadDotEnv (content : option string) (env : environment) : environment :=
  match content with
  | None => env
  | Some content => foldl dotenv_line env (strings_Split content newline)
  end.

(** ** What a line binds, and which line counts *)

(** The binding of a line, if it has one that can be set. *)
Definition line_binding (line : string) : option (string * string) :=
  let line := strings_TrimSpace line in
  if bool_decide (line = "") || strings_HasPrefix line "#" then None
  else
    let '(key, value, found) := strings_Cut (strings_TrimPrefix line "export ") "=" in
    let key := strings_TrimSpace key in
    let value := strings_TrimSpace value in
    let value := match Unquote value with Some unquoted => unquoted | None => value end in
    if found && settable key value then Some (key, value) else None.

Fixpoint first_binding (key : string) (lines : list string) : option string :=
  match lines with
  | [] => None
  | line :: lines =>
      match line_binding line with
      | Some (k, v) => if bool_decide (k = key) then Some v else first_binding key lines
      | None => first_binding key lines
      end
  end.

Definition file_binding (content : option string) (key : string) : option string :=
  match content with None => None | Some content => first_binding key (strings_Split content newline) end.

Lemma dotenv_line_binding env line :
  dotenv_line env line
  = match line_binding line with
    | Some (k, v) => match env !! k with Some _ => env | None => <[k := v]> env end
    | None => env
    end.
Proof.
  unfold dotenv_line, line_binding. cbv zeta. destruct (_ || _); [done|].
  destruct (strings_Cut _ _) as [[key value] []]; [|done]. cbn [negb andb].
  unfold Setenv. generalize (match Unquote (strings_TrimSpace value) with Some u => u | None => strings_TrimSpace value end).
  intros v. destruct (settable (strings_TrimSpace key) v) eqn:Hs.
  - case_bool_decide as Hk; [|done]. by rewrite Hk in Hs.
  - case_bool_decide; [done|]. by destruct (env !! _).
Qed.

Lemma foldl_dotenv_lookup lines env k :
  foldl dotenv_line env lines !! k
  = match env !! k with Some v => Some v | None => first_binding k lines end.
Proof.
  revert env. induction lines as [|line lines IH]; intros env; simpl; [by destruct (env !! k)|].
  rewrite IH, dotenv_line_binding. destruct (line_binding line) as [[k' v]|]; [|done].
  case_bool_decide as Hk.
  - subst k'. destruct (env !! k) as [w|] eqn:He; cbv iota; [by rewrite He|]. by rewrite lookup_insert_eq.
  - destruct (env !! k') eqn:He; cbv iota; [done|]. by rewrite lookup_insert_ne.
Qed.

Lemma loadDotEnv_lookup content env k :
  loadDotEnv content env !! k
  = match env !! k with Some v => Some v | None => file_binding content k end.
Proof. destruct content; [apply foldl_dotenv_lookup|]. simpl. by destruct (env !! k). Qed.

Example loadDotEnv_ex :
  let file := "# comment" +:+ nl +:+ " export PORT = 80 " +:+ nl +:+ "EVENT_TABLE=jobs" +:+ nl +:+ "PORT=81" +:+ nl +:+ "broken" in
  (fun k => loadDotEnv (Some file) {["EVENT_TABLE" := "mine"]} !! k) <$> ["PORT"; "EVENT_TABLE"; "broken"]
  = [Some "80"; Some "mine"; None].
Proof. vm_compute. reflexivity. Qed.
