(* ===== verification/LoadConfig.v ===== *)
(** * How the configuration is loaded

    The flags and the environment against a description that does not mention the order of the
    code: what a value means to a flag, which command lines are well formed, and which of the
    command line, the environment and the default wins. *)
From S2P Require Import Prelude GoErrors Config Values Samples Strconv Routes Flags DotEnv.
Local Open Scope go_scope.

(** ** What a flag points to and what a text means to it *)

Inductive ptr := PString (p : string_ptr) | PInt (p : int_ptr) | PBool (p : bool_ptr) | PPort.

#[export] Instance ptr_eq_dec : EqDecision ptr.
Proof. solve_decision. Defined.

Inductive setting := SString (s : string) | SInt (z : Z) | SBool (b : bool).

Definition pointer (v : flagValue) : ptr :=
  match v with
  | nonEmptyStringValue p | disableableStringValue p | secretStringValue p => PString p
  | uint16Value => PPort
  | intValue p => PInt p
  | boolValue p => PBool p
  end.

Definition load (p : ptr) (st : store) : setting :=
  match p with
  | PString p => SString (strings st p)
  | PInt p => SInt (ints st p)
  | PBool p => SBool (bools st p)
  | PPort => SInt (pg_port st)
  end.

(** The value a text stands for, if the flag accepts it. *)
Definition meaning (v : flagValue) (text : string) : option setting :=
  match v with
  | nonEmptyStringValue _ | secretStringValue _ => if bool_decide (text = "") then None else Some (SString text)
  | disableableStringValue _ =>
      if bool_decide (text = "") then None
      else Some (SString (if strings_EqualFold text disableSentinel then "" else text))
  | uint16Value => match ParseUint text 10 16 with inr n => Some (SInt n) | inl _ => None end
  | intValue _ => match ParseInt text 0 with inr n => Some (SInt n) | inl _ => None end
  | boolValue _ => SBool <$> ParseBool text
  end.

(** ** Well-formed command lines: [-name=value], [-name value], [-name] for booleans, with one
    or two dashes, up to [--] or the first argument that is no flag *)

Inductive cli_syntax (flags : gmap string flag) : list string -> list (string * string) -> list string -> Prop :=
| cli_end : cli_syntax flags [] [] []
| cli_terminator args : cli_syntax flags ("--" :: args) [] args
| cli_positional s args :
    s = "-" \/ strings_HasPrefix s "-" = false -> cli_syntax flags (s :: args) [] (s :: args)
| cli_equals d name f value args settings rest :
    d ∈ ["-"; "--"] -> flags !! name = Some f -> cli_syntax flags args settings rest ->
    cli_syntax flags ((d +:+ name +:+ "=" +:+ value) :: args) ((name, value) :: settings) rest
| cli_next d name f value args settings rest :
    d ∈ ["-"; "--"] -> flags !! name = Some f -> IsBoolFlag (flag_value f) = false ->
    cli_syntax flags args settings rest ->
    cli_syntax flags ((d +:+ name) :: value :: args) ((name, value) :: settings) rest
| cli_bool d name f args settings rest :
    d ∈ ["-"; "--"] -> flags !! name = Some f -> IsBoolFlag (flag_value f) = true ->
    cli_syntax flags args settings rest ->
    cli_syntax flags ((d +:+ name) :: args) ((name, "true") :: settings) rest.

(** ** Which text is chosen *)

Fixpoint last_value (name : string) (settings : list (string * string)) : option string :=
  match settings with
  | [] => None
  | (n, v) :: settings =>
      match last_value name settings with
      | Some v' => Some v'
      | None => if bool_decide (n = name) then Some v else None
      end
  end.

Definition env_value (env : environment) (o : cliOption) : option string := snd <$> first_set env (envVars o).

(** The command line wins over the environment. *)
Definition chosen (env : environment) (settings : list (string * string)) (o : cliOption) : option string :=
  match last_value (option_name o) settings with Some v => Some v | None => env_value env o end.

(** ** Sane parsers: one flag per option, names that can be written, one flag per variable *)

Definition good_name (name : string) : bool :=
  match name with
  | EmptyString => false
  | String c _ => negb (ascii_eqb c dash) && negb (string_elem "=" name)
  end.

Record parser_ok (p : configParser) : Prop := {
  ok_domain : forall name f, flags p !! name = Some f ->
    good_name name = true /\ name ∈ option_name <$> options p;
  ok_option : forall o, o ∈ options p -> is_Some (flags p !! option_name o);
  ok_pointers : forall n1 n2 f1 f2, flags p !! n1 = Some f1 -> flags p !! n2 = Some f2 ->
    pointer (flag_value f1) = pointer (flag_value f2) -> n1 = n2;
  ok_names : NoDup (option_name <$> options p);
}.

Definition check_parser (p : configParser) : bool :=
  let table := map_to_list (flags p) in
  forallb (fun nf => good_name nf.1 && bool_decide (nf.1 ∈ option_name <$> options p)) table
  && forallb (fun o => bool_decide (is_Some (flags p !! option_name o))) (options p)
  && bool_decide (NoDup ((fun nf => pointer (flag_value nf.2)) <$> table))
  && bool_decide (NoDup (option_name <$> options p)).

Lemma ok_good p : parser_ok p -> forall name f, flags p !! name = Some f -> good_name name = true.
Proof. intros Hp name f Hf. by apply (ok_domain p) in Hf as [? _]. Qed.

Lemma check_parser_ok p : check_parser p = true -> parser_ok p.
Proof.
  unfold check_parser. rewrite !andb_true_iff, !forallb_forall, !bool_decide_eq_true.
  intros (((Hn & Ho) & Hp) & Hnd). split.
  - intros name f Hf. specialize (Hn (name, f)). rewrite andb_true_iff, bool_decide_eq_true in Hn.
    apply Hn, list_elem_of_In, elem_of_map_to_list, Hf.
  - intros o Hin. apply list_elem_of_In, Ho, bool_decide_eq_true in Hin. done.
  - intros n1 n2 f1 f2 H1 H2 Heq.
    assert ((n1, f1) = (n2, f2)) as [= -> _]; [|done].
    eapply (NoDup_fmap_inj _ _ _ _ Hp); [by apply elem_of_map_to_list..|done].
  - done.
Qed.

(** ** The shape of flag arguments *)

Lemma read_arg_flag d name tail :
  d ∈ ["-"; "--"] -> good_name name = true ->
  read_arg (d +:+ name +:+ tail)
  = let '(n, value, hasValue) := strings_Cut (name +:+ tail) "=" in
    ArgFlag n (if hasValue : bool then Some value else None).
Proof.
  intros Hd Hn. destruct name as [|c name]; [done|]. cbn [good_name] in Hn.
  apply andb_true_iff in Hn as [Hdash Heq]. apply negb_true_iff in Hdash, Heq.
  cbn [string_elem] in Heq. apply orb_false_iff in Heq as [Heq _].
  assert (ascii_eqb c "=" = false) as Hc by (apply ascii_eqb_neq; apply ascii_eqb_neq in Heq; congruence).
  rewrite string_app_cons. apply elem_of_cons in Hd as [->|Hd%list_elem_of_singleton].
  - rewrite string_app_cons, string_app_nil. unfold read_arg.
    rewrite (proj2 (ascii_eqb_eq "-" dash)) by done. cbv zeta. by rewrite Hdash; simpl; rewrite Hdash, Hc.
  - subst d. rewrite !string_app_cons, string_app_nil. unfold read_arg.
    rewrite (proj2 (ascii_eqb_eq "-" dash)) by done. cbn [negb andb].
    rewrite bool_decide_eq_false_2 by done. cbv iota zeta. by rewrite Hdash, Hc.
Qed.

Lemma good_name_no_equals name : good_name name = true -> string_elem "=" name = false.
Proof. destruct name; [done|]. unfold good_name. by intros [_ ?%negb_true_iff]%andb_true_iff. Qed.

Lemma read_arg_equals d name v :
  d ∈ ["-"; "--"] -> good_name name = true -> read_arg (d +:+ name +:+ "=" +:+ v) = ArgFlag name (Some v).
Proof.
  intros Hd Hn. rewrite read_arg_flag by done. change ("=" +:+ v) with (String "=" v).
  by rewrite strings_Cut_found by by apply good_name_no_equals.
Qed.

Lemma read_arg_plain d name :
  d ∈ ["-"; "--"] -> good_name name = true -> read_arg (d +:+ name) = ArgFlag name None.
Proof.
  intros Hd Hn. rewrite <- (string_app_nil_r name) at 1. rewrite read_arg_flag by done.
  rewrite string_app_nil_r. by rewrite strings_Cut_absent by by apply good_name_no_equals.
Qed.

Lemma dash_prefix d s : strings_HasPrefix (String d s) "-" = ascii_eqb d dash.
Proof.
  unfold strings_HasPrefix, ascii_eqb, dash. cbn [String.prefix].
  destruct (Ascii.ascii_dec "-" d) as [<-|Hne]; [by destruct s|].
  rewrite bool_decide_eq_false_2 by congruence. done.
Qed.

(** What an argument looks like when [parseOne] reads it so. *)
Lemma read_arg_inv s :
  match read_arg s with
  | ArgPositional => s = "-" \/ strings_HasPrefix s "-" = false
  | ArgTerminator => s = "--"
  | ArgBadSyntax => True
  | ArgFlag name value =>
      exists d, d ∈ ["-"; "--"]
        /\ s = match value with Some v => d +:+ name +:+ "=" +:+ v | None => d +:+ name end
  end.
Proof.
  unfold read_arg. destruct s as [|d [|c rest]]; [by right| |].
  - rewrite dash_prefix. destruct (ascii_eqb d dash) eqn:Hd; [|by right].
    apply ascii_eqb_eq in Hd as ->. by left.
  - destruct (ascii_eqb d dash) eqn:Hd; cbn [negb].
    2: { right. by rewrite dash_prefix. }
    apply ascii_eqb_eq in Hd as ->. destruct (ascii_eqb c dash) eqn:Hc.
    + apply ascii_eqb_eq in Hc as ->. cbn [andb]. case_bool_decide as Hr; [by subst|].
      destruct rest as [|n rest]; [done|]. destruct (_ || _); [done|].
      destruct (strings_Cut (String n rest) "=") as [[b a] f] eqn:Hs.
      apply strings_Cut_inv in Hs as [_ ->]. exists "--". split; [set_solver|]. by destruct f.
    + cbn [andb]. destruct (_ || _); [done|].
      destruct (strings_Cut (String c rest) "=") as [[b a] f] eqn:Hs.
      apply strings_Cut_inv in Hs as [_ Hs]. exists "-". split; [set_solver|].
      rewrite Hs. by destruct f.
Qed.

Lemma read_arg_positional s :
  s = "-" \/ strings_HasPrefix s "-" = false -> read_arg s = ArgPositional.
Proof.
  intros [->|Hs]; [done|]. destruct s as [|d [|c rest]]; [done|done|].
  rewrite dash_prefix in Hs. unfold read_arg. by rewrite Hs.
Qed.

(** ** [Set] *)

Section loading.
Context `{GoRuntime} `{MapRange}.

Lemma update_eq {K V} `{EqDecision K} (f : K -> V) k v : update f k v k = v.
Proof. unfold update. by rewrite decide_True. Qed.

Lemma update_ne {K V} `{EqDecision K} (f : K -> V) k k' v : k' <> k -> update f k v k' = f k'.
Proof. intros Hne. unfold update. by rewrite decide_False. Qed.

Definition writes (v : flagValue) (x : setting) (st st' : store) : Prop :=
  load (pointer v) st' = x /\ forall p, p <> pointer v -> load p st' = load p st.

Lemma set_string_writes v p s st : pointer v = PString p -> writes v (SString s) st (set_string p s st).
Proof.
  unfold writes. intros ->. split; [simpl; by rewrite update_eq|].
  intros [q|q|q|] Hq; simpl; try done. by rewrite update_ne by congruence.
Qed.

Lemma set_int_writes v p z st : pointer v = PInt p -> writes v (SInt z) st (set_int p z st).
Proof.
  unfold writes. intros ->. split; [simpl; by rewrite update_eq|].
  intros [q|q|q|] Hq; simpl; try done. by rewrite update_ne by congruence.
Qed.

Lemma set_bool_writes v p b st : pointer v = PBool p -> writes v (SBool b) st (set_bool p b st).
Proof.
  unfold writes. intros ->. split; [simpl; by rewrite update_eq|].
  intros [q|q|q|] Hq; simpl; try done. by rewrite update_ne by congruence.
Qed.

Lemma set_port_writes v z st : pointer v = PPort -> writes v (SInt z) st (set_port z st).
Proof. unfold writes. intros ->. split; [done|]. by intros [q|q|q|] Hq. Qed.

Lemma Set_value_meaning v text st :
  match meaning v text with
  | Some x => exists st', Set_value v text st = inr st' /\ writes v x st st'
  | None => exists e, Set_value v text st = inl e
  end.
Proof.
  destruct v as [p|p|p| |p|p]; simpl.
  1-3: case_bool_decide; [by eauto|]; try destruct (strings_EqualFold _ _); eauto using set_string_writes.
  - destruct (ParseUint text 10 16); eauto using set_port_writes.
  - destruct (ParseInt text 0) as [[]|]; eauto using set_int_writes.
  - destruct (ParseBool text); simpl; eauto using set_bool_writes.
Qed.

(** ** Assignments: what the command line and the environment come down to *)

Fixpoint assign (fs : gmap string flag) (settings : list (string * string)) (st : store) : option store :=
  match settings with
  | [] => Some st
  | (name, value) :: settings =>
      match set_flag fs name value st with inr st => assign fs settings st | inl _ => None end
  end.

Lemma set_flag_Some fs name f value st :
  fs !! name = Some f -> set_flag fs name value st = Set_value (flag_value f) value st.
Proof. unfold set_flag. by intros ->. Qed.

Lemma parse_args_syntax fs opts args st st' rest :
  (forall name f, fs !! name = Some f -> good_name name = true) ->
  parse_args fs opts args st = inr (st', rest)
  <-> exists settings, cli_syntax fs args settings rest /\ assign fs settings st = Some st'.
Proof.
  intros Hok. split.
  - remember (length args) as n eqn:Hn. revert args st Hn.
    induction n as [n IH] using lt_wf_ind. intros args st ->.
    destruct args as [|s args]; simpl; [intros [= -> <-]; exists []; split; [constructor|done]|].
    pose proof (read_arg_inv s) as Hs. destruct (read_arg s) as [| | |name value].
    + intros [= -> <-]. exists []. by split; [constructor|].
    + intros [= -> <-]. subst s. exists []. by split; [constructor|].
    + done.
    + destruct (fs !! name) as [f|] eqn:Hf; [|by case_bool_decide]. destruct Hs as (d & Hd & Hs).
      destruct (IsBoolFlag (flag_value f)) eqn:Hb; destruct value as [v|]; subst s;
        [| | |destruct args as [|v args]; [done|]];
        (destruct (Set_value (flag_value f) _ st) as [|st1] eqn:Hset; [done|]);
        intros Hp; (apply (IH (length args)) in Hp as (settings & Hsyn & Ha); [|simpl; lia|done]);
        eexists ((name, _) :: settings);
        (split; [by eauto using cli_equals, cli_bool, cli_next|];
         cbn [assign]; rewrite (set_flag_Some _ _ _ _ _ Hf), Hset; exact Ha).
  - intros (settings & Hsyn & Ha). revert st Ha.
    induction Hsyn as [|args|s args Hs|d name f v args settings rest Hd Hf _ IH
      |d name f v args settings rest Hd Hf Hb _ IH|d name f args settings rest Hd Hf Hb _ IH]; intros st Ha.
    1,2: simpl in *; by simplify_eq.
    { simpl. rewrite read_arg_positional by done. simpl in Ha. by simplify_eq. }
    all: cbn [assign] in Ha; rewrite (set_flag_Some _ _ _ _ _ Hf) in Ha;
      destruct (Set_value _ _ st) as [|st1] eqn:Hset; [done|]; cbn [parse_args];
      rewrite ?read_arg_equals, ?read_arg_plain by eauto; rewrite Hf, ?Hb, ?Hset; try by apply IH.
    destruct (IsBoolFlag _); by apply IH.
Qed.

Lemma last_value_app n a b :
  last_value n (a ++ b) = match last_value n b with Some v => Some v | None => last_value n a end.
Proof.
  induction a as [|[n' v] a IH]; simpl; [by destruct (last_value n b)|].
  rewrite IH. by destruct (last_value n b), (last_value n a).
Qed.

Lemma last_value_In n v settings : last_value n settings = Some v -> (n, v) ∈ settings.
Proof.
  induction settings as [|[n' v'] settings IH]; simpl; [done|].
  destruct (last_value n settings); [set_solver|]. case_bool_decide; [|done]. intros [= ->]. set_solver.
Qed.

Lemma assign_app fs a b st st' :
  assign fs (a ++ b) st = Some st' <-> exists st1, assign fs a st = Some st1 /\ assign fs b st1 = Some st'.
Proof.
  revert st. induction a as [|[n v] a IH]; intros st; simpl; [naive_solver|].
  destruct (set_flag fs n v st); [|apply IH]. split; [done|by intros (? & ? & _)].
Qed.

Definition acceptable (fs : gmap string flag) (nv : string * string) : Prop :=
  exists f, fs !! nv.1 = Some f /\ is_Some (meaning (flag_value f) nv.2).

Lemma set_flag_acceptable fs n v st :
  (exists st', set_flag fs n v st = inr st') <-> acceptable fs (n, v).
Proof.
  unfold set_flag, acceptable. simpl. destruct (fs !! n) as [f|].
  - pose proof (Set_value_meaning (flag_value f) v st) as Hm. destruct (meaning (flag_value f) v) eqn:He.
    + destruct Hm as (st' & -> & _). split; eauto.
    + destruct Hm as [e ->]. split; [by intros []|]. intros (f' & [= <-] & Hs). rewrite He in Hs. by destruct Hs.
  - split; [by intros []|by intros (? & ? & _)].
Qed.

Lemma assign_total fs settings st : (exists st', assign fs settings st = Some st') <-> Forall (acceptable fs) settings.
Proof.
  revert st. induction settings as [|[n v] settings IH]; intros st; simpl.
  - split; [constructor|eauto].
  - rewrite Forall_cons, <- (set_flag_acceptable _ _ _ st). destruct (set_flag fs n v st) as [|st1].
    + split; [by intros []|]. by intros [[] _].
    + rewrite IH. split; [eauto|tauto].
Qed.

Lemma assign_load p settings st st' name f :
  parser_ok p -> assign (flags p) settings st = Some st' -> flags p !! name = Some f ->
  match last_value name settings with
  | Some v => meaning (flag_value f) v = Some (load (pointer (flag_value f)) st')
  | None => load (pointer (flag_value f)) st' = load (pointer (flag_value f)) st
  end.
Proof.
  intros Hp. revert st. induction settings as [|[n v] settings IH]; intros st; simpl; [by intros [= ->]|].
  unfold set_flag. destruct (flags p !! n) as [g|] eqn:Hg; [|done].
  pose proof (Set_value_meaning (flag_value g) v st) as Hm.
  destruct (Set_value (flag_value g) v st) as [|st1]; [done|].
  destruct (meaning (flag_value g) v) as [x|] eqn:Hx; [|by destruct Hm].
  destruct Hm as (st2 & [= <-] & Hw & Hr). intros Ha Hf. specialize (IH _ Ha Hf).
  destruct (last_value name settings); [done|]. case_bool_decide as Hn.
  - subst n. rewrite Hf in Hg. injection Hg as <-. by rewrite IH, Hw.
  - rewrite IH. apply Hr. intros Heq. apply Hn. by eapply (ok_pointers p).
Qed.

Definition env_settings (env : environment) (opts : list cliOption) : list (string * string) :=
  omap (fun o => (fun v => (option_name o, v)) <$> env_value env o) opts.

Lemma env_settings_cons env o opts :
  env_settings env (o :: opts)
  = match env_value env o with
    | Some v => (option_name o, v) :: env_settings env opts
    | None => env_settings env opts
    end.
Proof. unfold env_settings. simpl. by destruct (env_value env o). Qed.

Lemma applyEnv_assign env fs opts st st' :
  applyEnv env fs opts st = inr st' <-> assign fs (env_settings env opts) st = Some st'.
Proof.
  revert st. induction opts as [|o opts IH]; intros st; simpl; [naive_solver|].
  unfold env_settings, env_value in *. simpl. destruct (first_set env (envVars o)) as [[n v]|]; simpl; [|apply IH].
  destruct (set_flag fs (option_name o) v st); [done|apply IH].
Qed.

Lemma env_settings_names env opts n v :
  (n, v) ∈ env_settings env opts -> exists o, o ∈ opts /\ option_name o = n /\ env_value env o = Some v.
Proof.
  unfold env_settings. rewrite list_elem_of_omap. intros (o & Ho & Hv).
  destruct (env_value env o) eqn:He; [|done]. injection Hv as <- <-. eauto.
Qed.

Lemma last_value_env env opts o :
  NoDup (option_name <$> opts) -> o ∈ opts -> last_value (option_name o) (env_settings env opts) = env_value env o.
Proof.
  intros Hnd Ho. destruct (last_value _ _) as [v|] eqn:Hl.
  - apply last_value_In, env_settings_names in Hl as (o' & Ho' & Hn & <-).
    by rewrite (NoDup_fmap_inj _ _ _ _ Hnd Ho' Ho Hn).
  - destruct (env_value env o) as [v|] eqn:Hv; [|done]. exfalso.
    assert (exists w, last_value (option_name o) (env_settings env opts) = Some w) as [w Hw]; [|congruence].
    clear Hl Hnd. induction opts as [|o' opts IH]; [set_solver|].
    rewrite env_settings_cons. apply elem_of_cons in Ho as [<-|Ho].
    + rewrite Hv. simpl. destruct (last_value _ _); [by eexists|]. rewrite bool_decide_eq_true_2 by done. by eexists.
    + destruct (IH Ho) as [w Hw]. destruct (env_value env o'); simpl; rewrite ?Hw; by eexists.
Qed.

Lemma first_retired_None env vars :
  first_retired env vars = None <-> forall n, n ∈ vars.*1 -> env !! n = None.
Proof.
  induction vars as [|[n r] vars IH]; simpl; [split; [set_solver|done]|].
  destruct (env !! n) eqn:Hn; [split; [done|]|].
  - intros Hall. rewrite Hall in Hn by set_solver. done.
  - rewrite IH. set_solver.
Qed.

Lemma rejectRetiredEnv_None env :
  rejectRetiredEnv env = None <-> forall n, n ∈ dom retiredEnvVars -> env !! n = None.
Proof.
  unfold rejectRetiredEnv. rewrite first_retired_None. apply forall_proper. intros n.
  enough (n ∈ (range retiredEnvVars).*1 <-> n ∈ dom retiredEnvVars) as -> by done.
  rewrite elem_of_dom, list_elem_of_fmap. split.
  - intros ([k v] & -> & Hk%elem_of_range). by exists v.
  - intros [v Hv]. exists (n, v). split; [done|]. by apply elem_of_range.
Qed.

(** ** A parser that is sane *)

Lemma parse_assign p env args cfg st :
  parser_ok p ->
  parse p env args = inr (cfg, st)
  <-> rejectRetiredEnv env = None
      /\ (exists settings, cli_syntax (flags p) args settings []
          /\ assign (flags p) (env_settings env (options p) ++ settings) (parser_store p) = Some st)
      /\ cfg = deriveConfig (finalize defaultConfig st).
Proof.
  intros Hp. unfold parse. destruct (rejectRetiredEnv env); [split; [done|by intros [? _]]|].
  setoid_rewrite assign_app. setoid_rewrite <- applyEnv_assign.
  destruct (applyEnv _ _ _ _) as [e|st1] eqn:He.
  { split; [done|]. intros (_ & (settings & _ & st1 & Ha & _) & _). done. }
  destruct (parse_args (flags p) (options p) args st1) as [e|[st2 rest]] eqn:Ha.
  - split; [done|]. intros (_ & (settings & Hsyn & st1' & [= <-] & Has) & _).
    assert (parse_args (flags p) (options p) args st1 = inr (st, [])); [|congruence].
    apply parse_args_syntax; [by apply ok_good|eauto].
  - apply parse_args_syntax in Ha as Ha'; [|by apply ok_good]. destruct Ha' as (settings & Hsyn & Has).
    destruct rest as [|a rest]; cbv zeta; split.
    + intros [= <- <-]. split_and!; [done|eauto|done].
    + intros (_ & (settings' & Hsyn' & st1' & [= <-] & Has') & ->).
      assert (parse_args (flags p) (options p) args st1 = inr (st, [])) as Heq; [|congruence].
      apply parse_args_syntax; [by apply ok_good|eauto].
    + done.
    + intros (_ & (settings' & Hsyn' & st1' & [= <-] & Has') & _).
      assert (parse_args (flags p) (options p) args st1 = inr (st, [])) as Heq; [|congruence].
      apply parse_args_syntax; [by apply ok_good|eauto].
Qed.

Lemma newConfigParser_ok : parser_ok newConfigParser.
Proof. apply check_parser_ok. vm_compute. reflexivity. Qed.

Lemma initConfigParser_ok : parser_ok initConfigParser.
Proof. apply check_parser_ok. vm_compute. reflexivity. Qed.

(** The variable of every option holds what the chosen text means, or its default. *)
Definition reads_chosen (p : configParser) (env : environment) (settings : list (string * string)) (st : store) : Prop :=
  forall o f, o ∈ options p -> flags p !! option_name o = Some f ->
    match chosen env settings o with
    | Some text => meaning (flag_value f) text = Some (load (pointer (flag_value f)) st)
    | None => load (pointer (flag_value f)) st = load (pointer (flag_value f)) (parser_store p)
    end.

(** Every text the environment or the command line gives means something to its flag. *)
Definition all_mean (p : configParser) (env : environment) (settings : list (string * string)) : Prop :=
  forall o f text, o ∈ options p -> flags p !! option_name o = Some f ->
    env_value env o = Some text \/ (option_name o, text) ∈ settings ->
    is_Some (meaning (flag_value f) text).

Lemma parse_reads_chosen p env args cfg st :
  parser_ok p -> parse p env args = inr (cfg, st) ->
  cfg = deriveConfig (finalize defaultConfig st)
  /\ exists settings, cli_syntax (flags p) args settings [] /\ reads_chosen p env settings st.
Proof.
  intros Hp (_ & (settings & Hsyn & Ha) & ->)%parse_assign; [|done]. split; [done|].
  exists settings. split; [done|]. intros o f Ho Hf.
  apply (assign_load p _ _ _ (option_name o) f Hp) in Ha; [|done].
  rewrite last_value_app, (last_value_env _ _ _ (ok_names p Hp) Ho) in Ha. unfold chosen.
  by destruct (last_value _ settings).
Qed.

Lemma cli_syntax_registered fs args settings rest :
  cli_syntax fs args settings rest -> Forall (fun nv => is_Some (fs !! nv.1)) settings.
Proof. induction 1; constructor; simpl; eauto. Qed.

Lemma parse_succeeds p env args :
  parser_ok p ->
  (exists cfg st, parse p env args = inr (cfg, st))
  <-> (forall n, n ∈ dom retiredEnvVars -> env !! n = None)
      /\ exists settings, cli_syntax (flags p) args settings [] /\ all_mean p env settings.
Proof.
  intros Hp. setoid_rewrite parse_assign; [|done]. rewrite <- rejectRetiredEnv_None. split.
  - intros (cfg & st & Hr & (settings & Hsyn & Ha) & _). split; [done|]. exists settings. split; [done|].
    assert (Forall (acceptable (flags p)) (env_settings env (options p) ++ settings)) as Hall
      by by eapply assign_total; eauto.
    rewrite Forall_forall in Hall. intros o f text Ho Hf Ht.
    destruct (Hall (option_name o, text)) as (f' & Hf' & Hm); [|by simplify_eq/=].
    apply elem_of_app. destruct Ht as [He|]; [left|by right]. unfold env_settings.
    apply list_elem_of_omap. exists o. by rewrite He.
  - intros (Hr & settings & Hsyn & Hall).
    destruct (proj2 (assign_total (flags p) (env_settings env (options p) ++ settings) (parser_store p))) as [st Hst].
    { rewrite Forall_forall. intros [n v] Hin. unfold acceptable. simpl.
      apply elem_of_app in Hin as [Hin|Hin].
      - apply env_settings_names in Hin as (o & Ho & <- & Hv).
        destruct (ok_option p Hp o Ho) as [f Hf]. exists f. split; [done|]. eapply Hall; eauto.
      - apply cli_syntax_registered in Hsyn. rewrite Forall_forall in Hsyn.
        destruct (Hsyn _ Hin) as [f Hf]. simpl in Hf. exists f. split; [done|].
        destruct (ok_domain p Hp _ _ Hf) as [_ (o & -> & Ho)%list_elem_of_fmap]. eapply Hall; eauto. }
    eexists _, st. split_and!; eauto.
Qed.

(** ** Well-formed variables and configurations *)

(** The strings that have a default and whose flags reject an empty text. *)
Definition required_strings : list string_ptr :=
  [p_EventTable; p_EventID; p_EventPayload; p_LogLevel; p_LogFormat; p_PGHost; p_PGUser; p_PGDatabase;
   p_PGSchema; p_AWSRoleSessionName].

Record store_ok (st : store) : Prop := {
  store_port : (0 <= pg_port st < 65536)%Z;
  store_ints : forall p, in_int64 (ints st p);
  store_strings : forall p, p ∈ required_strings -> strings st p <> "";
}.

Definition flag_ok (v : flagValue) : bool :=
  match v with disableableStringValue p => bool_decide (p ∉ required_strings) | _ => true end.

Record config_ok (cfg : appConfig) : Prop := {
  config_port : (0 <= PGPort cfg < 65536)%Z;
  config_ints : Forall in_int64 [CollectBatchTarget cfg; HealthPort cfg; PublishTimeout cfg; MaxEventAge cfg;
                  PGQueryTimeout cfg];
  config_strings : Forall (fun s => s <> "") [EventTable cfg; cfgEventID cfg; EventPayload cfg; LogLevel cfg;
                     LogFormat cfg; PGHost cfg; PGUser cfg; PGDatabase cfg; PGSchema cfg; AWSRoleSessionName cfg];
  config_lists : Forall (Forall list_entry) [PubSubDestinations cfg; SQSDestinations cfg; PGProducerRoles cfg];
  config_channel : NotifyChannel cfg = deriveNotifyChannel (EventTable cfg)
                   /\ String.length (NotifyChannel cfg) <= 63;
  config_fixed : BacklogCountLimit cfg = backlogCountLimit /\ SQSSendConcurrency cfg = sqsSendConcurrency
                 /\ WatchdogInterval cfg = watchdogInterval /\ HealthStaleAfter cfg = healthStaleAfter
                 /\ ErrorCooldown cfg = errorCooldown /\ PublishResultGrace cfg = publishResultGrace
                 /\ StatsInterval cfg = statsInterval /\ PGConnectTimeout cfg = pgConnectTimeout
                 /\ AWSRoleDuration cfg = awsRoleDuration
                 /\ AWSCredentialRefreshWindow cfg = awsCredentialRefreshWindow;
}.

Lemma update_all {K V} `{EqDecision K} (P : V -> Prop) (f : K -> V) k v :
  P v -> (forall q, P (f q)) -> forall q, P (update f k v q).
Proof. intros Hv Hf q. unfold update. by case_decide. Qed.

Lemma store_ok_set_string p s st : (p ∈ required_strings -> s <> "") -> store_ok st -> store_ok (set_string p s st).
Proof.
  intros Hs [H1 H2 H3]. split; [done..|]. intros q Hq. simpl. unfold update. case_decide; subst; auto.
Qed.

Lemma store_ok_Set v text st st' :
  flag_ok v = true -> store_ok st -> Set_value v text st = inr st' -> store_ok st'.
Proof.
  intros Hv Hst. destruct v as [p|p|p| |p|p]; simpl in *.
  1-3: destruct (bool_decide (text = "")) eqn:Ht; [done|apply bool_decide_eq_false in Ht];
    try destruct (strings_EqualFold _ _); intros [= <-];
    apply store_ok_set_string; auto; by apply bool_decide_eq_true in Hv.
  - destruct (ParseUint text 10 16) as [|n] eqn:Hn; [done|]. intros [= <-].
    apply ParseUint_bound in Hn; [|done..]. destruct Hst. by split.
  - destruct (ParseInt text 0) as [[]|n] eqn:Hn; [done..|]. intros [= <-].
    apply ParseInt_in_int64 in Hn; [|done]. destruct Hst. split; [done| |done]. by apply update_all.
  - destruct (ParseBool text); [|done]. intros [= <-]. destruct Hst. by split.
Qed.

Lemma store_ok_assign fs settings st st' :
  (forall n f, fs !! n = Some f -> flag_ok (flag_value f) = true) ->
  store_ok st -> assign fs settings st = Some st' -> store_ok st'.
Proof.
  intros Hfs. revert st. induction settings as [|[n v] settings IH]; intros st Hst; simpl; [by intros [= <-]|].
  unfold set_flag. destruct (fs !! n) as [f|] eqn:Hf; [|done].
  destruct (Set_value (flag_value f) v st) as [|st1] eqn:Hs; [done|]. apply IH. eauto using store_ok_Set.
Qed.

Lemma store_ok_config st : store_ok st -> config_ok (deriveConfig (finalize defaultConfig st)).
Proof.
  intros [Hp Hi Hs]. split; simpl; try done.
  - rewrite !Forall_cons, Forall_nil. split_and!; (done || apply Hi || apply wrap64_in).
  - rewrite !Forall_cons. split_and!; (done || (apply Hs; unfold required_strings; set_solver)).
  - rewrite !Forall_cons. split_and!; [apply parseStringList_entries..|constructor|done].
  - split; [done|]. apply deriveNotifyChannel_bound.
Qed.

Definition check_flags (p : configParser) : bool :=
  forallb (fun nf => flag_ok (flag_value nf.2)) (map_to_list (flags p)).

Lemma check_flags_ok p n f : check_flags p = true -> flags p !! n = Some f -> flag_ok (flag_value f) = true.
Proof.
  unfold check_flags. rewrite forallb_forall. intros Hall Hf.
  apply (Hall (n, f)), list_elem_of_In, elem_of_map_to_list, Hf.
Qed.

Definition check_store (st : store) : bool :=
  bool_decide (0 <= pg_port st < 65536)%Z
  && forallb (fun p => bool_decide (min_int64 <= ints st p <= max_int64)%Z)
       [p_CollectBatchTarget; p_publishTimeoutMS; p_maxEventAgeMS; p_HealthPort; p_pgQueryTimeoutMS]
  && forallb (fun p => bool_decide (strings st p <> "")) required_strings.

Lemma check_store_ok st : check_store st = true -> store_ok st.
Proof.
  unfold check_store. rewrite !andb_true_iff, !forallb_forall, bool_decide_eq_true. intros ((Hp & Hi) & Hs).
  split; [done| |].
  - intros p. unfold in_int64. eapply bool_decide_eq_true, Hi. destruct p; simpl; tauto.
  - intros p Hin. eapply bool_decide_eq_true, Hs. by apply list_elem_of_In.
Qed.

Lemma parse_config_ok p env args cfg st :
  parser_ok p -> check_flags p = true -> check_store (parser_store p) = true ->
  parse p env args = inr (cfg, st) -> config_ok cfg.
Proof.
  intros Hp Hf Hs (_ & (settings & _ & Ha) & ->)%parse_assign; [|done]. apply store_ok_config.
  eapply store_ok_assign; [|by apply check_store_ok|exact Ha]. intros n f. by apply check_flags_ok.
Qed.

End loading.

(** ** Properties *)

(** C12. The configuration the relay runs with: a flag on the command line (the last one) wins over
    the first of its environment variables that is set, a variable of the process over the first
    line of the [.env] file that binds it, and all of them over the default, each text read by the
    flag's own rules; and loading succeeds exactly when no retired variable is set, the command
    line is well formed with nothing left over, and every text that was given, used or not, means
    something to its flag.  With nothing given the configuration is the default one. *)
Theorem configuration_precedence `{GoRuntime} `{MapRange} (file : option string) (process : environment)
    (args : list string) :
  let env := loadDotEnv file process in
  (forall name, env !! name = match process !! name with Some v => Some v | None => file_binding file name end)
  /\ (forall cfg, loadConfig env args = inr cfg ->
        exists settings st,
          cli_syntax (flags newConfigParser) args settings []
          /\ reads_chosen newConfigParser env settings st
          /\ cfg = deriveConfig (finalize defaultConfig st))
  /\ ((exists cfg, loadConfig env args = inr cfg)
      <-> (forall n, n ∈ dom retiredEnvVars -> env !! n = None)
          /\ exists settings, cli_syntax (flags newConfigParser) args settings []
               /\ all_mean newConfigParser env settings)
  /\ deriveConfig (finalize defaultConfig (parser_store newConfigParser)) = defaultConfig.
Proof.
  intros env. unfold loadConfig. split_and!.
  - intros name. apply loadDotEnv_lookup.
  - intros cfg. destruct (parse _ _ _) as [|[cfg' st]] eqn:Hp; [done|]. intros [= <-].
    apply parse_reads_chosen in Hp as (-> & settings & Hsyn & Hr); [eauto 10|apply newConfigParser_ok].
  - rewrite <- (parse_succeeds _ _ _ newConfigParser_ok).
    destruct (parse newConfigParser env args) as [|[cfg st]]; [|naive_solver].
    split; [by intros []|by intros (? & ? & ?)].
  - reflexivity.
Qed.

(** C31. The variables of the flags stay well formed: every [Set] that accepts its text keeps the port
    within 16 bits, integers within 64 and required strings non-empty; so every configuration
    that is loaded, for the relay or for provisioning, has that shape, lists whose
    entries are not empty, are trimmed and have no comma, the channel of its event table within 63 bytes, and the fixed settings untouched. *)
Theorem loaded_configuration_well_formed `{GoRuntime} `{MapRange} (env : environment) (args : list string) :
  (forall v text st st', flag_ok v = true -> store_ok st -> Set_value v text st = inr st' -> store_ok st')
  /\ (forall cfg, loadConfig env args = inr cfg -> config_ok cfg)
  /\ (forall cfg apply, loadInitConfig env args = inr (cfg, apply) -> config_ok cfg).
Proof.
  split_and!; [apply store_ok_Set| |].
  - intros cfg. unfold loadConfig. destruct (parse _ _ _) as [|[cfg' st]] eqn:Hp; [done|]. intros [= <-].
    apply (parse_config_ok _ _ _ _ _ newConfigParser_ok) in Hp; [done|vm_compute; reflexivity..].
  - intros cfg apply. unfold loadInitConfig. destruct (parse _ _ _) as [|[cfg' st]] eqn:Hp; [done|].
    intros [= <- _].
    apply (parse_config_ok _ _ _ _ _ initConfigParser_ok) in Hp; [|vm_compute; reflexivity..].
    destruct Hp as [? ? ? Hl ? ?]. split; try done. simpl. rewrite !Forall_cons in *.
    destruct Hl as (? & ? & _). split_and!; try done. apply parseStringList_entries.
Qed.

Definition sample_env : environment := <["PORT" := "8080"]> (<["PG_PORT" := "6000"]> (<["EVENT_TABLE" := "outbox"]> ∅)).
Definition sample_file : option string := Some ("PG_PORT=7000" +:+ nl +:+ "export LOG_LEVEL=debug").

Definition sample_args : list string := ["--event-table"; "jobs"; "-sqs-enabled"; "--pg-port=5433"; "--event-table=late"].

Definition loaded_sample : appConfig :=
  match loadConfig (loadDotEnv sample_file sample_env) sample_args with inr cfg => cfg | inl _ => defaultConfig end.

Lemma configuration_precedence_witness :
  (exists settings st, cli_syntax (flags newConfigParser) sample_args settings []
     /\ reads_chosen newConfigParser (loadDotEnv sample_file sample_env) settings st
     /\ loaded_sample = deriveConfig (finalize defaultConfig st))
  /\ (EventTable loaded_sample, HealthPort loaded_sample, PGPort loaded_sample, SQSEnabled loaded_sample,
      LogLevel loaded_sample) = ("late", 8080%Z, 5433%Z, true, "debug").
Proof.
  split; [|vm_compute; reflexivity].
  apply (proj1 (proj2 (configuration_precedence sample_file sample_env sample_args))). vm_compute. reflexivity.
Defined.

Lemma loaded_configuration_well_formed_witness :
  config_ok loaded_sample.
Proof.
  apply (proj1 (proj2 (loaded_configuration_well_formed (loadDotEnv sample_file sample_env) sample_args))). vm_compute. reflexivity.
Defined.

(** The millisecond settings become nanoseconds of an [int64] without a check: a value that [Atoi]
    accepts can wrap.  A publish timeout of 584 years passes validation as 448384ns. *)
Lemma publish_timeout_wraps :
  exists cfg, loadConfig ∅ ["--sqs-enabled"; "--publish-timeout-ms=18446744073710"] = inr cfg
    /\ PublishTimeout cfg = 448384%Z /\ validate cfg configValidationRelay = inr tt.
Proof. eexists. split_and!; vm_compute; reflexivity. Qed.

(** Within the range of a duration the conversion is exact. *)
Lemma milliseconds_exact (cfg : appConfig) (st : store) :
  (0 <= ints st p_publishTimeoutMS <= 9223372036854)%Z ->
  PublishTimeout (finalize cfg st) = (ints st p_publishTimeoutMS * millisecond)%Z.
Proof. intros Hb. apply wrap64_id. unfold in_int64, min_int64, max_int64, millisecond. lia. Qed.
