(* ===== verification/Sql.v ===== *)
(** * The SQL the relay writes

    Identifiers are quoted by the driver ([pgx.Identifier.Sanitize]), a parameter here; string
    literals by [sqlStringLiteral].  The routing expressions and predicates of the collection
    query are a small language of text expressions: [render] is the text the builders write,
    [eval] and [holds] its meaning, with SQL's NULL and three-valued logic. *)
From S2P Require Import Prelude GoErrors.
Local Open Scope go_scope.

Class Pgx := { Sanitize : list string -> string }.

Definition ident `{Pgx} (name : string) : string := Sanitize [name].
Definition qualifiedIdent `{Pgx} (schema name : string) : string := Sanitize [schema; name].

Definition quote : ascii := "'"%char.
Definition quote_string : string := String quote EmptyString.

Definition sqlStringLiteral (value : string) : string :=
  quote_string +:+ strings_ReplaceAll value quote (quote_string +:+ quote_string) +:+ quote_string.

Definition sqlStringList (values : list string) : string :=
  strings_Join (sqlStringLiteral <$> values) ", ".

Definition columnSQL `{Pgx} (tableAlias name : string) : string :=
  if bool_decide (tableAlias = "") then ident name
  else ident tableAlias +:+ "." +:+ ident name.

(** ** String literals

    The lexer of standard-conforming strings: the value of a literal at the start of the text,
    and the text after it. *)
Fixpoint lex_body (s : string) : option (string * string) :=
  match s with
  | EmptyString => None
  | String c s' =>
      if ascii_eqb c quote then
        match s' with
        | String c' s'' =>
            if ascii_eqb c' quote
            then match lex_body s'' with Some (v, rest) => Some (String quote v, rest) | None => None end
            else Some ("", s')
        | EmptyString => Some ("", "")
        end
      else match lex_body s' with Some (v, rest) => Some (String c v, rest) | None => None end
  end.

Definition lex_literal (s : string) : option (string * string) :=
  match s with
  | String c s' => if ascii_eqb c quote then lex_body s' else None
  | EmptyString => None
  end.

Definition ends_literal (rest : string) : Prop :=
  match rest with String c _ => c <> quote | EmptyString => True end.

Lemma lex_body_escaped v rest :
  ends_literal rest ->
  lex_body (strings_ReplaceAll v quote (quote_string +:+ quote_string) +:+ quote_string +:+ rest)
  = Some (v, rest).
Proof.
  intros Hr. induction v as [|c v IH].
  - change (strings_ReplaceAll "" quote (quote_string +:+ quote_string)) with "".
    rewrite string_app_nil. unfold quote_string. rewrite string_app_cons, string_app_nil.
    simpl. destruct rest as [|c rest]; [done|].
    assert (ascii_eqb c quote = false) as -> by by apply bool_decide_eq_false. done.
  - cbn [strings_ReplaceAll]. destruct (ascii_eqb c quote) eqn:Hc.
    + apply bool_decide_eq_true in Hc as ->. unfold quote_string at 1 2.
      rewrite !string_app_assoc, !string_app_cons, !string_app_nil.
      cbn [lex_body]. change (ascii_eqb quote quote) with true. cbv iota. by rewrite IH.
    + rewrite !string_app_assoc, string_app_cons, string_app_nil. cbn [lex_body]. by rewrite Hc, IH.
Qed.

Lemma lex_literal_sqlStringLiteral v rest :
  ends_literal rest -> lex_literal (sqlStringLiteral v +:+ rest) = Some (v, rest).
Proof.
  intros Hr. unfold sqlStringLiteral. rewrite !string_app_assoc.
  unfold quote_string at 1. rewrite string_app_cons, string_app_nil. by apply lex_body_escaped.
Qed.

(** C24. A string literal written by [sqlStringLiteral] is read back as exactly the configured
    value, and the text after it is untouched: no value of a route, quotes included, can leave
    its literal. *)
Theorem sqlStringLiteral_roundtrip (v rest : string) :
  ends_literal rest -> lex_literal (sqlStringLiteral v +:+ rest) = Some (v, rest).
Proof. apply lex_literal_sqlStringLiteral. Qed.

Lemma sqlStringLiteral_roundtrip_witness :
  lex_literal (sqlStringLiteral "it's' OR 1=1 --" +:+ " END") = Some ("it's' OR 1=1 --", " END").
Proof. apply (sqlStringLiteral_roundtrip "it's' OR 1=1 --" " END"). discriminate. Defined.

(** ** The language of the routing expressions *)

Inductive expr :=
| ENull
| ELit (v : string)
| ECol (alias column : string)
| ERoute (field : string)                       (* routes.resolved_target, ... *)
| ENullIfEmpty (e : expr)                       (* NULLIF(e, '') *)
| ECoalesce (e1 e2 : expr)
| ECase (e : expr) (branches : list (string * string)) (otherwise : string).

Inductive pred :=
| PTrue
| PFalse
| PEq (e1 e2 : expr)
| PNe (e1 e2 : expr)
| PIn (e : expr) (vs : list string)
| PIsNull (e : expr)
| PAnd (ps : list pred)
| POr (p1 p2 : pred)
| PParen (p : pred).

Section render.
Context `{Pgx}.

Fixpoint render (e : expr) : string :=
  match e with
  | ENull => "NULL"
  | ELit v => sqlStringLiteral v
  | ECol alias column => columnSQL alias column
  | ERoute field => "routes." +:+ field
  | ENullIfEmpty e => "NULLIF(" +:+ render e +:+ ", '')"
  | ECoalesce e1 e2 => "COALESCE(" +:+ render e1 +:+ ", " +:+ render e2 +:+ ")"
  | ECase e branches otherwise =>
      "CASE "
      +:+ strings_Join ((fun '(v, d) => "WHEN " +:+ render e +:+ " = " +:+ sqlStringLiteral v
                                        +:+ " THEN " +:+ sqlStringLiteral d) <$> branches) " "
      +:+ " ELSE " +:+ sqlStringLiteral otherwise +:+ " END"
  end.

Fixpoint render_pred (p : pred) : string :=
  match p with
  | PTrue => "TRUE"
  | PFalse => "FALSE"
  | PEq e1 e2 => render e1 +:+ " = " +:+ render e2
  | PNe e1 e2 => render e1 +:+ " <> " +:+ render e2
  | PIn e vs => render e +:+ " IN (" +:+ sqlStringList vs +:+ ")"
  | PIsNull e => render e +:+ " IS NULL"
  | PAnd ps => strings_Join (map render_pred ps) " AND "
  | POr p1 p2 => render_pred p1 +:+ " OR " +:+ render_pred p2
  | PParen p => "(" +:+ render_pred p +:+ ")"
  end.

End render.

(** ** Meaning

    A value is [None] for NULL.  [column] reads the row under consideration, [route] the route a
    candidate is matched with. *)
Section meaning.
Context (column : string -> option string) (route : string -> option string).

Definition nonempty (v : option string) : option string :=
  match v with Some s => if bool_decide (s = "") then None else Some s | None => None end.

Definition coalesce (v w : option string) : option string :=
  match v with Some _ => v | None => w end.

Fixpoint case_of (v : option string) (branches : list (string * string)) (otherwise : string) : string :=
  match branches with
  | [] => otherwise
  | (t, d) :: branches => if bool_decide (v = Some t) then d else case_of v branches otherwise
  end.

Fixpoint eval (e : expr) : option string :=
  match e with
  | ENull => None
  | ELit v => Some v
  | ECol _ name => column name
  | ERoute field => route field
  | ENullIfEmpty e => nonempty (eval e)
  | ECoalesce e1 e2 => coalesce (eval e1) (eval e2)
  | ECase e branches otherwise => Some (case_of (eval e) branches otherwise)
  end.

(** Three-valued logic: [None] is unknown. *)
Definition and3 (a b : option bool) : option bool :=
  match a, b with
  | Some false, _ | _, Some false => Some false
  | Some true, Some true => Some true
  | _, _ => None
  end.

Definition or3 (a b : option bool) : option bool :=
  match a, b with
  | Some true, _ | _, Some true => Some true
  | Some false, Some false => Some false
  | _, _ => None
  end.

Definition lift2 (f : string -> string -> bool) (a b : option string) : option bool :=
  match a, b with Some x, Some y => Some (f x y) | _, _ => None end.

Fixpoint holds (p : pred) : option bool :=
  match p with
  | PTrue => Some true
  | PFalse => Some false
  | PEq e1 e2 => lift2 (fun x y => bool_decide (x = y)) (eval e1) (eval e2)
  | PNe e1 e2 => lift2 (fun x y => bool_decide (x <> y)) (eval e1) (eval e2)
  | PIn e vs => match eval e with Some x => Some (bool_decide (x ∈ vs)) | None => None end
  | PIsNull e => Some (bool_decide (eval e = None))
  | PAnd ps => foldr (fun p acc => and3 (holds p) acc) (Some true) ps
  | POr p1 p2 => or3 (holds p1) (holds p2)
  | PParen p => holds p
  end.

(** [WHERE p]: rows for which [p] is unknown are left out. *)
Definition where_ (p : pred) : bool := bool_decide (holds p = Some true).

Lemma and3_true a b : and3 a b = Some true <-> a = Some true /\ b = Some true.
Proof. destruct a as [[]|], b as [[]|]; simpl; naive_solver. Qed.

Lemma or3_true a b : or3 a b = Some true <-> a = Some true \/ b = Some true.
Proof. destruct a as [[]|], b as [[]|]; simpl; naive_solver. Qed.

Lemma holds_PAnd ps : holds (PAnd ps) = Some true <-> forall p, p ∈ ps -> holds p = Some true.
Proof.
  simpl. induction ps as [|p ps IH]; simpl; [set_solver|]. rewrite and3_true, IH. set_solver.
Qed.

Lemma holds_PEq e1 e2 : holds (PEq e1 e2) = Some true <-> exists v, eval e1 = Some v /\ eval e2 = Some v.
Proof.
  simpl. destruct (eval e1), (eval e2); simpl; try naive_solver.
  split; [intros [= ?%bool_decide_eq_true]; subst; eauto|].
  intros (v & [= ->] & [= ->]). by rewrite bool_decide_eq_true_2.
Qed.

Lemma holds_PNe e1 e2 :
  holds (PNe e1 e2) = Some true <-> exists v w, eval e1 = Some v /\ eval e2 = Some w /\ v <> w.
Proof.
  simpl. destruct (eval e1), (eval e2); simpl; try naive_solver.
  split; [intros [= ?%bool_decide_eq_true]; eauto 10|].
  intros (v & w & [= ->] & [= ->] & Hne). by rewrite bool_decide_eq_true_2.
Qed.

Lemma holds_PIn e vs : holds (PIn e vs) = Some true <-> exists v, eval e = Some v /\ v ∈ vs.
Proof.
  simpl. destruct (eval e); [|naive_solver].
  split; [intros [= ?%bool_decide_eq_true]; eauto|].
  intros (v & [= ->] & Hin). by rewrite bool_decide_eq_true_2.
Qed.

Lemma holds_POr p1 p2 :
  holds (POr p1 p2) = Some true <-> holds p1 = Some true \/ holds p2 = Some true.
Proof. apply or3_true. Qed.

Lemma holds_PIsNull e : holds (PIsNull e) = Some true <-> eval e = None.
Proof. simpl. split; [by intros [= ?%bool_decide_eq_true]|intros ->; done]. Qed.

End meaning.
