(* ===== verification/Routing.v ===== *)
(** * Routing SQL ([db.go], [backlog.go])

    The builders of the collection and backlog queries, as the code writes their text, and the
    expressions and predicates that text denotes: [*_text] theorems say that each builder writes
    the rendering of its expression, and the theorems about meaning are about the expressions. *)
From S2P Require Import Prelude GoErrors Config SqsOptions PubSub Routes Sql.
Local Open Scope go_scope.

Section builders.
Context `{Pgx} (cfg : appConfig).

(** ** The builders *)

Definition resolvedTargetSQL (tableAlias : string) : string * string :=
  match configuredProviderRoutes cfg with
  | [] => ("NULL", "FALSE")
  | [r] =>
      let tgt := sqlStringLiteral (route_target r) in
      if bool_decide (EventTarget cfg = "") then (tgt, "TRUE")
      else
        let targetCol := columnSQL tableAlias (EventTarget cfg) in
        let expr := "COALESCE(NULLIF(" +:+ targetCol +:+ ", ''), " +:+ tgt +:+ ")" in
        (expr, expr +:+ " = " +:+ tgt)
  | routes =>
      if bool_decide (EventTarget cfg = "") then ("NULL", "FALSE")
      else
        let targetCol := columnSQL tableAlias (EventTarget cfg) in
        let expr := "NULLIF(" +:+ targetCol +:+ ", '')" in
        (expr, expr +:+ " IN (" +:+ sqlStringList (providerTargets routes) +:+ ")")
  end.

Definition defaultDestinationSQL (targetExpr : string) : string :=
  let branches := (fun route =>
    "WHEN " +:+ targetExpr +:+ " = " +:+ sqlStringLiteral (route_target route)
    +:+ " THEN " +:+ sqlStringLiteral (defaultDestination route)) <$> configuredProviderRoutes cfg in
  "CASE " +:+ strings_Join branches " " +:+ " ELSE '' END".

Definition resolvedDestinationSQL (tableAlias targetExpr : string) : string :=
  let destinationCol := columnSQL tableAlias (EventDestination cfg) in
  if bool_decide (EventDestination cfg = "") then
    match configuredProviderRoutes cfg with
    | [r] => sqlStringLiteral (defaultDestination r)
    | _ => defaultDestinationSQL targetExpr
    end
  else "COALESCE(NULLIF(" +:+ destinationCol +:+ ", ''), " +:+ defaultDestinationSQL targetExpr +:+ ")".

Definition defaultTargetSQL : string :=
  match configuredProviderRoutes cfg with
  | [r] => sqlStringLiteral (route_target r)
  | _ => "''"
  end.

Definition routeMatchSQL (tableAlias targetExpr destinationExpr : string) : string :=
  let targetMatch :=
    if bool_decide (EventTarget cfg = "") then targetExpr +:+ " = routes.resolved_target"
    else
      let targetCol := columnSQL tableAlias (EventTarget cfg) in
      let defaultTarget := defaultTargetSQL in
      if bool_decide (defaultTarget <> "''")
      then "(NULLIF(" +:+ targetCol +:+ ", '') = routes.resolved_target OR (NULLIF(" +:+ targetCol
           +:+ ", '') IS NULL AND " +:+ defaultTarget +:+ " = routes.resolved_target))"
      else targetCol +:+ " = routes.resolved_target" in
  let destinationMatch :=
    if bool_decide (EventDestination cfg = "") then destinationExpr +:+ " = routes.resolved_destination"
    else
      let destinationCol := columnSQL tableAlias (EventDestination cfg) in
      "(NULLIF(" +:+ destinationCol +:+ ", '') = routes.resolved_destination OR (NULLIF("
      +:+ destinationCol +:+ ", '') IS NULL AND " +:+ defaultDestinationSQL targetExpr
      +:+ " = routes.resolved_destination))" in
  "(" +:+ targetMatch +:+ ") AND (" +:+ destinationMatch +:+ ")".

Definition routeOwnershipSQL (targetExpr destinationExpr : string) : string :=
  let predicates := foldl (fun predicates route =>
    if bool_decide (ownedDestinations route = []) then predicates
    else predicates ++
      ["(" +:+ targetExpr +:+ " <> " +:+ sqlStringLiteral (route_target route) +:+ " OR "
       +:+ destinationExpr +:+ " IN (" +:+ sqlStringList (ownedDestinations route) +:+ "))"])
    [] (configuredProviderRoutes cfg) in
  if bool_decide (predicates = []) then "TRUE" else strings_Join predicates " AND ".

Definition routableSQL (targetExpr destinationExpr targetPredicate : string) : string :=
  let targetPredicate :=
    if bool_decide (targetPredicate = "")
    then targetExpr +:+ " IN (" +:+ sqlStringList (providerTargets (configuredProviderRoutes cfg)) +:+ ")"
    else targetPredicate in
  "(" +:+ targetPredicate +:+ ") AND COALESCE(" +:+ destinationExpr +:+ ", '') <> '' AND "
  +:+ routeOwnershipSQL targetExpr destinationExpr.

Definition selectEventsQuerySQL : string :=
  let table := qualifiedIdent (PGSchema cfg) (EventTable cfg) in
  let idCol := ident (cfgEventID cfg) in
  let sourceAlias := "route_source" in
  let candidateAlias := "candidate" in
  let eventsAlias := "events" in
  let '(sourceTargetExpr, sourceTargetPredicate) := resolvedTargetSQL sourceAlias in
  let sourceDestinationExpr := resolvedDestinationSQL sourceAlias sourceTargetExpr in
  let sourceRoutablePredicate :=
    routableSQL sourceTargetExpr sourceDestinationExpr sourceTargetPredicate in
  let '(candidateTargetExpr, candidateTargetPredicate) := resolvedTargetSQL candidateAlias in
  let candidateDestinationExpr := resolvedDestinationSQL candidateAlias candidateTargetExpr in
  let candidateRoutablePredicate :=
    routableSQL candidateTargetExpr candidateDestinationExpr candidateTargetPredicate in
  let candidateRouteMatchPredicate :=
    routeMatchSQL candidateAlias candidateTargetExpr candidateDestinationExpr in
  let routesCTE :=
    "SELECT resolved_target, resolved_destination, count(*) OVER () AS route_count "
    +:+ "FROM (SELECT DISTINCT " +:+ sourceTargetExpr +:+ " AS resolved_target, "
    +:+ sourceDestinationExpr +:+ " AS resolved_destination FROM " +:+ table +:+ " AS "
    +:+ ident sourceAlias +:+ " WHERE " +:+ sourceRoutablePredicate +:+ ") AS resolved_routes" in
  let pickedLateral :=
    "SELECT " +:+ ident candidateAlias +:+ "." +:+ idCol +:+ " FROM " +:+ table +:+ " AS "
    +:+ ident candidateAlias +:+ " WHERE " +:+ candidateRoutablePredicate +:+ " AND "
    +:+ candidateRouteMatchPredicate +:+ " ORDER BY " +:+ ident candidateAlias +:+ "." +:+ idCol
    +:+ " LIMIT GREATEST(1, (($1::bigint + routes.route_count - 1) / routes.route_count))" in
  let selectedCTE :=
    "SELECT picked." +:+ idCol +:+ " AS id, routes.resolved_target, routes.resolved_destination "
    +:+ "FROM routes CROSS JOIN LATERAL (" +:+ pickedLateral +:+ ") AS picked" in
  "WITH routes AS (" +:+ routesCTE +:+ "), selected AS (" +:+ selectedCTE
  +:+ ") SELECT selected.resolved_target, selected.resolved_destination, " +:+ ident eventsAlias
  +:+ ".* FROM " +:+ table +:+ " AS " +:+ ident eventsAlias +:+ " JOIN selected ON "
  +:+ ident eventsAlias +:+ "." +:+ idCol +:+ " = selected.id ORDER BY " +:+ ident eventsAlias
  +:+ "." +:+ idCol +:+ " FOR UPDATE".

(** The query and its parameters. *)
Definition selectEventsQuery : string * list Z := (selectEventsQuerySQL, [CollectBatchTarget cfg]).

Definition backlogCountSQL : string :=
  let alias := "backlog" in
  let '(targetExpr, targetPredicate) := resolvedTargetSQL alias in
  let destinationExpr := resolvedDestinationSQL alias targetExpr in
  let routablePredicate := routableSQL targetExpr destinationExpr targetPredicate in
  let columns :=
    [columnSQL alias (cfgEventID cfg)]
    ++ (if bool_decide (EventTarget cfg <> "") then [columnSQL alias (EventTarget cfg)] else [])
    ++ (if bool_decide (EventDestination cfg <> "") then [columnSQL alias (EventDestination cfg)] else []) in
  "SELECT count(*) FILTER (WHERE " +:+ routablePredicate +:+ "), count(*) FROM (SELECT "
  +:+ strings_Join columns ", " +:+ " FROM " +:+ qualifiedIdent (PGSchema cfg) (EventTable cfg) +:+ " AS "
  +:+ ident alias +:+ " ORDER BY " +:+ columnSQL alias (cfgEventID cfg) +:+ " LIMIT $1) AS " +:+ ident alias.

(** ** The expressions they denote *)

Definition target_expr (alias : string) : expr * pred :=
  match configuredProviderRoutes cfg with
  | [] => (ENull, PFalse)
  | [r] =>
      if bool_decide (EventTarget cfg = "") then (ELit (route_target r), PTrue)
      else
        let e := ECoalesce (ENullIfEmpty (ECol alias (EventTarget cfg))) (ELit (route_target r)) in
        (e, PEq e (ELit (route_target r)))
  | routes =>
      if bool_decide (EventTarget cfg = "") then (ENull, PFalse)
      else
        let e := ENullIfEmpty (ECol alias (EventTarget cfg)) in
        (e, PIn e (providerTargets routes))
  end.

Definition default_destination_expr (target : expr) : expr :=
  ECase target ((fun r => (route_target r, defaultDestination r)) <$> configuredProviderRoutes cfg) "".

Definition destination_expr (alias : string) (target : expr) : expr :=
  if bool_decide (EventDestination cfg = "") then
    match configuredProviderRoutes cfg with
    | [r] => ELit (defaultDestination r)
    | _ => default_destination_expr target
    end
  else ECoalesce (ENullIfEmpty (ECol alias (EventDestination cfg))) (default_destination_expr target).

Definition owned_pred (target destination : expr) (route : providerRoute) : pred :=
  PParen (POr (PNe target (ELit (route_target route))) (PIn destination (ownedDestinations route))).

Definition ownership_preds (target destination : expr) : list pred :=
  owned_pred target destination <$>
    filter (fun r => ownedDestinations r <> []) (configuredProviderRoutes cfg).

Definition routable_pred (alias : string) : pred :=
  let '(target, targetPredicate) := target_expr alias in
  let destination := destination_expr alias target in
  PAnd [PParen targetPredicate; PNe (ECoalesce destination (ELit "")) (ELit "");
        match ownership_preds target destination with [] => PTrue | ps => PAnd ps end].

(** A column or its default against a column of the route. *)
Definition match_or_default (column default : expr) (field : string) : pred :=
  PParen (POr (PEq (ENullIfEmpty column) (ERoute field))
              (PParen (PAnd [PIsNull (ENullIfEmpty column); PEq default (ERoute field)]))).

Definition target_match (alias : string) : pred :=
  if bool_decide (EventTarget cfg = "") then PEq (target_expr alias).1 (ERoute "resolved_target")
  else
    match configuredProviderRoutes cfg with
    | [r] => match_or_default (ECol alias (EventTarget cfg)) (ELit (route_target r)) "resolved_target"
    | _ => PEq (ECol alias (EventTarget cfg)) (ERoute "resolved_target")
    end.

Definition destination_match (alias : string) : pred :=
  let target := (target_expr alias).1 in
  if bool_decide (EventDestination cfg = "")
  then PEq (destination_expr alias target) (ERoute "resolved_destination")
  else match_or_default (ECol alias (EventDestination cfg)) (default_destination_expr target)
         "resolved_destination".

Definition route_match_pred (alias : string) : pred :=
  PAnd [PParen (target_match alias); PParen (destination_match alias)].

End builders.
