(* ===== verification/RoutingSpec.v ===== *)
(** * What the routing SQL means

    The builders of [Routing.v] write the renderings of their expressions, and those expressions
    mean the routing rules of the relay: which rows it may collect, and where each goes. *)
From S2P Require Import Prelude GoErrors Config Values SqsOptions PubSub Routes Sql Routing.
Local Open Scope go_scope.

Section text.
Context `{Pgx} (cfg : appConfig).

Lemma resolvedTargetSQL_text alias :
  resolvedTargetSQL cfg alias
  = (render (target_expr cfg alias).1, render_pred (target_expr cfg alias).2).
Proof.
  unfold resolvedTargetSQL, target_expr. rewrite configuredProviderRoutes_eq.
  destruct (PubSubEnabled cfg), (SQSEnabled cfg); simpl; try done;
    case_bool_decide; simpl; rewrite ?string_app_assoc; done.
Qed.

Lemma strings_Join_map {A} (f g : A -> string) l sep :
  (forall x, f x = g x) -> strings_Join (f <$> l) sep = strings_Join (g <$> l) sep.
Proof. intros Hfg. f_equal. by apply list_fmap_ext. Qed.

Lemma defaultDestinationSQL_text target :
  defaultDestinationSQL cfg (render target) = render (default_destination_expr cfg target).
Proof.
  unfold defaultDestinationSQL, default_destination_expr. simpl. rewrite <- list_fmap_compose.
  done.
Qed.

Lemma resolvedDestinationSQL_text alias target :
  resolvedDestinationSQL cfg alias (render target) = render (destination_expr cfg alias target).
Proof.
  unfold resolvedDestinationSQL, destination_expr. rewrite defaultDestinationSQL_text.
  case_bool_decide.
  - by destruct (configuredProviderRoutes cfg) as [|r [|]].
  - cbn [render]. by rewrite ?string_app_assoc.
Qed.

Lemma ownership_foldl (routes : list providerRoute) (f : providerRoute -> string) acc :
  foldl (fun predicates route =>
    if bool_decide (ownedDestinations route = []) then predicates else predicates ++ [f route]) acc routes
  = acc ++ (f <$> filter (fun r => ownedDestinations r <> []) routes).
Proof.
  revert acc. induction routes as [|r routes IH]; intros acc; simpl; [by rewrite app_nil_r|].
  rewrite IH. case_bool_decide.
  - rewrite filter_cons_False by (intros Hn; done). done.
  - rewrite filter_cons_True by done. by rewrite <- (assoc_L (++)).
Qed.

Lemma routeOwnershipSQL_text target destination :
  routeOwnershipSQL cfg (render target) (render destination)
  = render_pred (match ownership_preds cfg target destination with [] => PTrue | ps => PAnd ps end).
Proof.
  unfold routeOwnershipSQL, ownership_preds. rewrite ownership_foldl, app_nil_l.
  assert (Hone : forall r, "(" +:+ render target +:+ " <> " +:+ sqlStringLiteral (route_target r) +:+ " OR "
       +:+ render destination +:+ " IN (" +:+ sqlStringList (ownedDestinations r) +:+ "))"
     = render_pred (owned_pred target destination r)).
  { intros r. simpl. by rewrite ?string_app_assoc. }
  generalize (filter (fun r => ownedDestinations r <> []) (configuredProviderRoutes cfg)).
  intros rs. rewrite (list_fmap_ext _ _ rs (fun _ r _ => Hone r)).
  destruct rs as [|r rs]; [done|]. rewrite bool_decide_eq_false_2 by done.
  trans (strings_Join (render_pred <$> (owned_pred target destination <$> (r :: rs))) " AND ");
    [by rewrite <- list_fmap_compose|done].
Qed.

Lemma target_pred_nonempty alias : render_pred (target_expr cfg alias).2 <> "".
Proof.
  pose proof (f_equal snd (resolvedTargetSQL_text alias)) as Ht. cbn [snd] in Ht. rewrite <- Ht.
  unfold resolvedTargetSQL.
  rewrite configuredProviderRoutes_eq.
  destruct (PubSubEnabled cfg), (SQSEnabled cfg); simpl; try done; case_bool_decide; done.
Qed.

Lemma routableSQL_text alias :
  let target := (target_expr cfg alias).1 in
  routableSQL cfg (render target) (render (destination_expr cfg alias target))
    (render_pred (target_expr cfg alias).2)
  = render_pred (routable_pred cfg alias).
Proof.
  cbv zeta. unfold routableSQL. rewrite bool_decide_eq_false_2 by apply target_pred_nonempty.
  rewrite routeOwnershipSQL_text. unfold routable_pred.
  destruct (target_expr cfg alias) as [target tp]. simpl. rewrite ?string_app_assoc. done.
Qed.

Lemma routeMatchSQL_text alias :
  let target := (target_expr cfg alias).1 in
  routeMatchSQL cfg alias (render target) (render (destination_expr cfg alias target))
  = render_pred (route_match_pred cfg alias).
Proof.
  cbv zeta. unfold routeMatchSQL, route_match_pred, target_match, destination_match.
  rewrite defaultDestinationSQL_text.
  unfold defaultTargetSQL. rewrite configuredProviderRoutes_eq.
  destruct (PubSubEnabled cfg), (SQSEnabled cfg); simpl;
    case_bool_decide; case_bool_decide; simpl; rewrite ?string_app_assoc; done.
Qed.

End text.

(** ** The routing rules

    A row as the queries see it: the text of each column, [None] for NULL or no column. *)
Definition row_text `{GoRuntime} (columns : object) (name : string) : option string :=
  match columns !! name with
  | None | Some VNil => None
  | Some v => Some (valueString v)
  end.

Section spec.
Context (cfg : appConfig) (column : string -> option string).

(** The value of an optional role: the column's text, when it is configured and not empty. *)
Definition role_value (name : string) : option string :=
  if bool_decide (name = "") then None else nonempty (column name).

(** The provider of a row: the one its target names; without a target, the only one there is. *)
Definition provider_of : option providerRoute :=
  match role_value (EventTarget cfg), configuredProviderRoutes cfg with
  | None, [r] => Some r
  | None, _ => None
  | Some t, routes => head (filter (fun r => route_target r = t) routes)
  end.

(** The row's own destination, or the provider's default. *)
Definition destination_of (r : providerRoute) : string :=
  default (defaultDestination r) (role_value (EventDestination cfg)).

(** The route of a row this relay may collect: a destination that is not empty and, for a
    provider that owns destinations, one of those. *)
Definition route_of : option eventRoute :=
  match provider_of with
  | None => None
  | Some r =>
      let d := destination_of r in
      if bool_decide (d = "") then None
      else if bool_decide (ownedDestinations r = []) || bool_decide (d ∈ ownedDestinations r)
      then Some (EventRoute (route_target r) d)
      else None
  end.

End spec.

Definition route_fields (r : eventRoute) (field : string) : option string :=
  if bool_decide (field = "resolved_target") then Some (target r) else Some (destination r).

(** ** The expressions follow the rules *)

Section meaning.
Context (cfg : appConfig) (column : string -> option string) (route : string -> option string).

Abbreviation ev := (eval column route).
Abbreviation true_ p := (holds column route p = Some true).

Lemma provider_configured r : provider_of cfg column = Some r -> r ∈ configuredProviderRoutes cfg.
Proof.
  unfold provider_of. destruct (role_value column (EventTarget cfg)) as [t|].
  - intros Hh. apply head_Some_elem_of in Hh. by apply list_elem_of_filter in Hh as [_ ?].
  - destruct (configuredProviderRoutes cfg) as [|r' [|]]; try done. intros [= ->]. set_solver.
Qed.

Lemma routes_distinct r1 r2 :
  r1 ∈ configuredProviderRoutes cfg -> r2 ∈ configuredProviderRoutes cfg ->
  route_target r1 = route_target r2 -> r1 = r2.
Proof.
  rewrite configuredProviderRoutes_eq.
  destruct (PubSubEnabled cfg), (SQSEnabled cfg); simpl; rewrite ?elem_of_cons, ?elem_of_nil;
    intros H1 H2 Heq; naive_solver.
Qed.

(** The target predicate holds exactly for rows with a provider, whose target the expression
    gives. *)
Lemma target_meaning alias :
  (true_ (target_expr cfg alias).2 <-> exists r, provider_of cfg column = Some r)
  /\ forall r, provider_of cfg column = Some r ->
       ev (target_expr cfg alias).1 = Some (route_target r).
Proof.
  unfold target_expr, provider_of, role_value. rewrite configuredProviderRoutes_eq.
  destruct (PubSubEnabled cfg), (SQSEnabled cfg); simpl.
  - case_bool_decide as Ht; simpl; [by split; [split; [|intros []]|]|].
    destruct (nonempty (column (EventTarget cfg))) as [t|]; [|by split; [split; [|intros []]|]].
    rewrite !filter_cons, filter_nil. simpl.
    destruct (decide (eventTargetPubSub = t)) as [<-|Hp]; simpl.
    { split; [split; [eauto|done]|by intros r [= <-]]. }
    destruct (decide (eventTargetSQS = t)) as [<-|Hs]; simpl.
    { split; [split; [eauto|done]|by intros r [= <-]]. }
    split; [split; [|by intros [? ?]]|done].
    intros [= Hin%bool_decide_eq_true]. unfold providerTargets in Hin. simpl in Hin.
    rewrite !elem_of_cons, elem_of_nil in Hin. exfalso. intuition congruence.
  - case_bool_decide as Ht; simpl; [split; [split; [eauto|done]|by intros r [= <-]]|].
    destruct (nonempty (column (EventTarget cfg))) as [t|]; simpl.
    + rewrite filter_cons, filter_nil. simpl. case_decide as Hp; simpl; [subst t|].
      * split; [split; [eauto|done]|by intros r [= <-]].
      * split; [split; [|by intros [? ?]]|done]. intros [= Heq%bool_decide_eq_true]. congruence.
    + split; [split; [eauto|done]|by intros r [= <-]].
  - case_bool_decide as Ht; simpl; [split; [split; [eauto|done]|by intros r [= <-]]|].
    destruct (nonempty (column (EventTarget cfg))) as [t|]; simpl.
    + rewrite filter_cons, filter_nil. simpl. case_decide as Hp; simpl; [subst t|].
      * split; [split; [eauto|done]|by intros r [= <-]].
      * split; [split; [|by intros [? ?]]|done]. intros [= Heq%bool_decide_eq_true]. congruence.
    + split; [split; [eauto|done]|by intros r [= <-]].
  - split; [split; [done|]|]; [intros [r Hr]|intros r Hr]; by repeat case_match.
Qed.

Lemma default_destination_meaning e r :
  r ∈ configuredProviderRoutes cfg -> ev e = Some (route_target r) ->
  ev (default_destination_expr cfg e) = Some (defaultDestination r).
Proof.
  intros Hr He. unfold default_destination_expr. simpl. rewrite He. f_equal.
  pose proof routes_distinct as Hd. revert Hr Hd.
  generalize (configuredProviderRoutes cfg). intros routes Hr Hd.
  induction routes as [|r' routes IH]; [by apply elem_of_nil in Hr|]. simpl.
  case_bool_decide as Heq.
  - assert (r' = r) as ->; [|done]. apply Hd; [set_solver|done|congruence].
  - apply elem_of_cons in Hr as [->|Hr]; [done|]. apply IH; [done|].
    intros r1 r2 H1 H2. apply Hd; set_solver.
Qed.

Lemma destination_meaning alias e r :
  r ∈ configuredProviderRoutes cfg -> ev e = Some (route_target r) ->
  ev (destination_expr cfg alias e) = Some (destination_of cfg column r).
Proof.
  intros Hr He. unfold destination_expr, destination_of, role_value. case_bool_decide.
  - simpl. pose proof (default_destination_meaning e r Hr He) as Hd.
    destruct (configuredProviderRoutes cfg) as [|r' [|]]; [done| |done].
    apply list_elem_of_singleton in Hr as ->. done.
  - cbn [eval]. rewrite (default_destination_meaning e r Hr He).
    by destruct (nonempty _).
Qed.

Lemma owned_meaning e d r :
  true_ (owned_pred e d r)
  <-> true_ (PNe e (ELit (route_target r))) \/ true_ (PIn d (ownedDestinations r)).
Proof. apply (holds_POr column route). Qed.

Lemma ownership_meaning e d r dest :
  r ∈ configuredProviderRoutes cfg -> ev e = Some (route_target r) -> ev d = Some dest ->
  (true_ (match ownership_preds cfg e d with [] => PTrue | ps => PAnd ps end)
   <-> ownedDestinations r = [] \/ dest ∈ ownedDestinations r).
Proof.
  intros Hr He Hd.
  assert (true_ (match ownership_preds cfg e d with [] => PTrue | ps => PAnd ps end)
    <-> true_ (PAnd (ownership_preds cfg e d))) as ->.
  { by destruct (ownership_preds cfg e d). }
  rewrite holds_PAnd. unfold ownership_preds. split.
  - intros Hall. destruct (decide (ownedDestinations r = [])) as [|Ho]; [by left|right].
    assert (Hp : true_ (owned_pred e d r)).
    { apply Hall, list_elem_of_fmap_2, list_elem_of_filter. done. }
    apply owned_meaning in Hp as [Hne|Hin].
    + apply holds_PNe in Hne as (v & w & Hv & Hw & Hne). rewrite He in Hv. simpl in Hw. congruence.
    + apply holds_PIn in Hin as (v & Hv & Hin). congruence.
  - intros Ho p Hp. apply list_elem_of_fmap in Hp as (r' & -> & Hr').
    apply list_elem_of_filter in Hr' as [Hr'o Hr']. apply owned_meaning.
    destruct (decide (route_target r' = route_target r)) as [Heq|Hne].
    + right. apply holds_PIn. exists dest. split; [done|].
      rewrite (routes_distinct r' r Hr' Hr Heq) in *. by destruct Ho.
    + left. apply holds_PNe. exists (route_target r), (route_target r'). done.
Qed.

(** The predicate of the collection query holds exactly for the rows with a route. *)
Lemma routable_meaning alias :
  true_ (routable_pred cfg alias) <-> exists rt, route_of cfg column = Some rt.
Proof.
  unfold routable_pred, route_of. destruct (target_meaning alias) as [Hp Ht].
  destruct (target_expr cfg alias) as [e tp]. simpl in Hp, Ht. rewrite holds_PAnd.
  destruct (provider_of cfg column) as [r|] eqn:Hr.
  - pose proof (provider_configured r Hr) as Hin. specialize (Ht r eq_refl).
    pose proof (destination_meaning alias e r Hin Ht) as Hd.
    pose proof (ownership_meaning e _ r _ Hin Ht Hd) as Ho.
    destruct (bool_decide_reflect (destination_of cfg column r = "")) as [Hempty|Hne].
    + split; [|by intros [? ?]]. intros Hall.
      assert (Hnz : true_ (PNe (ECoalesce (destination_expr cfg alias e) (ELit "")) (ELit "")))
        by (apply Hall; set_solver).
      apply holds_PNe in Hnz as (v & w & Hv & Hw & Hne). simpl in Hv, Hw. rewrite Hd in Hv.
      simpl in Hv. congruence.
    + assert (Hiff : true_ (PAnd [PParen tp; PNe (ECoalesce (destination_expr cfg alias e) (ELit "")) (ELit "");
          match ownership_preds cfg e (destination_expr cfg alias e) with [] => PTrue | ps => PAnd ps end])
        <-> ownedDestinations r = [] \/ destination_of cfg column r ∈ ownedDestinations r).
      { rewrite holds_PAnd, <- Ho. split; [intros Hall; apply Hall; set_solver|].
        intros Hown p Hpin. rewrite !elem_of_cons, elem_of_nil in Hpin.
        destruct Hpin as [->|[->|[->|[]]]]; [by apply Hp; eauto| |done].
        apply holds_PNe. exists (destination_of cfg column r), "". simpl. by rewrite Hd. }
      rewrite <- holds_PAnd, Hiff.
      destruct (bool_decide_reflect (ownedDestinations r = [])) as [Hnil|Hnn]; simpl;
        [by split; [eauto|left]|].
      case_bool_decide; [by split; [eauto|right]|]. split; [by intros []|by intros [? ?]].
  - split; [|by intros [? ?]]. intros Hall.
    assert (Htp : true_ (PParen tp)) by (apply Hall; set_solver).
    apply Hp in Htp as [? ?]. done.
Qed.

(** For such a row the expressions give its route. *)
Lemma route_meaning alias rt :
  route_of cfg column = Some rt ->
  ev (target_expr cfg alias).1 = Some (target rt)
  /\ ev (destination_expr cfg alias (target_expr cfg alias).1) = Some (destination rt).
Proof.
  unfold route_of. destruct (provider_of cfg column) as [r|] eqn:Hr; [|done].
  pose proof (provider_configured r Hr) as Hin. destruct (target_meaning alias) as [_ Ht].
  specialize (Ht r Hr). pose proof (destination_meaning alias _ r Hin Ht) as Hd.
  case_bool_decide; [done|]. destruct (_ || _); [|done]. intros [= <-]. done.
Qed.

Lemma match_or_default_meaning alias name d field :
  true_ (match_or_default (ECol alias name) d field)
  <-> exists v, coalesce (nonempty (column name)) (ev d) = Some v /\ route field = Some v.
Proof.
  unfold match_or_default. cbn [holds eval foldr].
  destruct (nonempty (column name)) as [v|], (ev d) as [w|], (route field) as [u|]; simpl;
    repeat case_bool_decide; naive_solver.
Qed.

Lemma some_some (a b : string) : (exists v, Some a = Some v /\ Some b = Some v) <-> a = b.
Proof. split; [by intros (v & [= <-] & [= ->])|intros ->; eauto]. Qed.

Section matching.
Context (alias : string) (rt r0 : eventRoute) (r : providerRoute).
Context (Hr : provider_of cfg column = Some r) (Htgt : route_target r = target rt).
Context (Hdst : destination_of cfg column r = destination rt).
Context (Hroute : forall f, route f = route_fields r0 f).

Lemma named_target t :
  nonempty (column (EventTarget cfg)) = Some t -> EventTarget cfg <> "" -> t = target rt.
Proof.
  intros Ht Hcol. unfold provider_of, role_value in Hr. rewrite bool_decide_eq_false_2, Ht in Hr by done.
  apply head_Some_elem_of, list_elem_of_filter in Hr as [<- _]. done.
Qed.

Lemma match_column (name : string) (field : string) (v w : string) :
  nonempty (column name) = Some v -> route field = Some w ->
  (true_ (PEq (ECol alias name) (ERoute field)) <-> v = w).
Proof.
  intros Hv Hw. rewrite holds_PEq. cbn [eval]. rewrite Hw. unfold nonempty in Hv.
  destruct (column name) as [s|]; [|done]. case_bool_decide; [done|]. injection Hv as ->. apply some_some.
Qed.

Lemma target_match_meaning : true_ (target_match cfg alias) <-> target rt = target r0.
Proof.
  pose proof (provider_configured r Hr) as Hin.
  destruct (target_meaning alias) as [_ Ht]. specialize (Ht r Hr). rewrite Htgt in Ht.
  assert (Hf : route "resolved_target" = Some (target r0)) by by rewrite Hroute.
  unfold target_match. case_bool_decide as Hcol.
  { rewrite holds_PEq. cbn [eval]. rewrite Ht, Hf. apply some_some. }
  destruct (nonempty (column (EventTarget cfg))) as [t|] eqn:Hne.
  - pose proof (named_target t Hne Hcol) as ->.
    destruct (configuredProviderRoutes cfg) as [|r1 [|r2 rs]]; try by apply match_column.
    rewrite match_or_default_meaning, Hne, Hf. simpl. apply some_some.
  - unfold provider_of, role_value in Hr. rewrite bool_decide_eq_false_2, Hne in Hr by done.
    destruct (configuredProviderRoutes cfg) as [|r1 [|r2 rs]]; try done. simplify_eq.
    rewrite match_or_default_meaning, Hne, Hf, <- Htgt. apply some_some.
Qed.

Lemma destination_match_meaning : true_ (destination_match cfg alias) <-> destination rt = destination r0.
Proof.
  pose proof (provider_configured r Hr) as Hin.
  destruct (target_meaning alias) as [_ Ht]. specialize (Ht r Hr).
  assert (Hf : route "resolved_destination" = Some (destination r0)) by by rewrite Hroute.
  unfold destination_match. case_bool_decide as Hcol.
  - rewrite holds_PEq, (destination_meaning alias _ r Hin Ht), Hdst. cbn [eval]. rewrite Hf. apply some_some.
  - rewrite match_or_default_meaning, (default_destination_meaning _ r Hin Ht), Hf.
    assert (coalesce (nonempty (column (EventDestination cfg))) (Some (defaultDestination r))
            = Some (destination rt)) as ->; [|apply some_some].
    rewrite <- Hdst. unfold destination_of, role_value. rewrite bool_decide_eq_false_2 by done.
    by destruct (nonempty _).
Qed.

End matching.

(** A row with a route matches exactly that route. *)
Lemma match_meaning alias rt r0 :
  route_of cfg column = Some rt ->
  (forall f, route f = route_fields r0 f) ->
  (true_ (route_match_pred cfg alias) <-> rt = r0).
Proof.
  intros Hrt Hroute. unfold route_of in Hrt.
  destruct (provider_of cfg column) as [r|] eqn:Hr; [|done].
  case_bool_decide; [done|]. destruct (_ || _); [|done]. injection Hrt as <-.
  unfold route_match_pred. rewrite holds_PAnd.
  assert (Heq : EventRoute (route_target r) (destination_of cfg column r) = r0
    <-> route_target r = target r0 /\ destination_of cfg column r = destination r0).
  { destruct r0; simpl. naive_solver. }
  set (rt := EventRoute (route_target r) (destination_of cfg column r)) in *.
  pose proof (target_match_meaning alias rt r0 r Hr eq_refl Hroute) as Htm.
  pose proof (destination_match_meaning alias rt r0 r Hr eq_refl Hroute) as Hdm.
  rewrite Heq. cbn [rt target destination] in Htm, Hdm. rewrite <- Htm, <- Hdm. split.
  - intros Hall. split; [apply (Hall (PParen (target_match cfg alias)))
      |apply (Hall (PParen (destination_match cfg alias)))]; set_solver.
  - intros [H1 H2] p Hp. rewrite !elem_of_cons, elem_of_nil in Hp. by destruct Hp as [->|[->|[]]].
Qed.

End meaning.

(** ** Properties *)

(** The builders of the routing SQL write exactly the text of the routing expressions: the
    resolved target and destination, the predicate of the rows the relay may collect and the
    predicate that matches a candidate with its route. *)
Lemma routing_sql_text `{Pgx} (cfg : appConfig) (alias : string) :
  let '(targetExpr, targetPredicate) := resolvedTargetSQL cfg alias in
  let destinationExpr := resolvedDestinationSQL cfg alias targetExpr in
  targetExpr = render (target_expr cfg alias).1
  /\ destinationExpr = render (destination_expr cfg alias (target_expr cfg alias).1)
  /\ routableSQL cfg targetExpr destinationExpr targetPredicate = render_pred (routable_pred cfg alias)
  /\ routeMatchSQL cfg alias targetExpr destinationExpr = render_pred (route_match_pred cfg alias).
Proof.
  rewrite resolvedTargetSQL_text, resolvedDestinationSQL_text.
  split_and!; [done|done|apply routableSQL_text|apply routeMatchSQL_text].
Qed.

(** Under SQL's three-valued logic, the predicate of the collection query holds for exactly the
    rows the routing rules give a route; for those, the resolved expressions evaluate to that
    route, and the match predicate holds for exactly that route. *)
Lemma routing_predicate_correct (cfg : appConfig) (alias : string) (column : string -> option string)
    (r0 : eventRoute) :
  (holds column (route_fields r0) (routable_pred cfg alias) = Some true
     <-> exists rt, route_of cfg column = Some rt)
  /\ forall rt, route_of cfg column = Some rt ->
       eval column (route_fields r0) (target_expr cfg alias).1 = Some (target rt)
       /\ eval column (route_fields r0) (destination_expr cfg alias (target_expr cfg alias).1)
          = Some (destination rt)
       /\ (holds column (route_fields r0) (route_match_pred cfg alias) = Some true <-> rt = r0).
Proof.
  split; [apply routable_meaning|]. intros rt Hrt.
  destruct (route_meaning cfg column (route_fields r0) alias rt Hrt) as [Ht Hd].
  split_and!; [done..|]. by apply match_meaning.
Qed.

(** C10. The routing SQL means the routing rules.  The builders write exactly the text of the routing
    expressions: the resolved target and destination, the predicate of the rows the relay may
    collect and the one that matches a candidate with its route.  Under SQL's three-valued logic
    the predicate holds for exactly the rows the routing rules give a route; for those the resolved
    expressions evaluate to that route, and the match predicate holds for exactly that route. *)
Theorem routing_sql_correct `{Pgx} (cfg : appConfig) (alias : string) (column : string -> option string)
    (r0 : eventRoute) :
  (let '(targetExpr, targetPredicate) := resolvedTargetSQL cfg alias in
   let destinationExpr := resolvedDestinationSQL cfg alias targetExpr in
   targetExpr = render (target_expr cfg alias).1
   /\ destinationExpr = render (destination_expr cfg alias (target_expr cfg alias).1)
   /\ routableSQL cfg targetExpr destinationExpr targetPredicate = render_pred (routable_pred cfg alias)
   /\ routeMatchSQL cfg alias targetExpr destinationExpr = render_pred (route_match_pred cfg alias))
  /\ (holds column (route_fields r0) (routable_pred cfg alias) = Some true
       <-> exists rt, route_of cfg column = Some rt)
  /\ forall rt, route_of cfg column = Some rt ->
       eval column (route_fields r0) (target_expr cfg alias).1 = Some (target rt)
       /\ eval column (route_fields r0) (destination_expr cfg alias (target_expr cfg alias).1)
          = Some (destination rt)
       /\ (holds column (route_fields r0) (route_match_pred cfg alias) = Some true <-> rt = r0).
Proof. split; [apply routing_sql_text|apply routing_predicate_correct]. Qed.

Definition sample_sqs : appConfig := {|
  EventTable := "events"; cfgEventID := "id"; EventTimestamp := ""; EventPayload := "payload";
  EventTarget := "target"; EventDestination := "destination"; EventOptions := "";
  CollectBatchTarget := 4; BacklogCountLimit := 10; SQSSendConcurrency := 2; DLQTable := "dead";
  NotifyChannel := "outboxer_events"; LogLevel := "info"; LogFormat := "text";
  WatchdogInterval := minute; HealthPort := 0; HealthStaleAfter := minute;
  PubSubEnabled := false; SQSEnabled := true; DefaultPubSubTopic := "default";
  DefaultSQSQueueURL := "https://sqs/1/q"; PubSubDestinations := [];
  SQSDestinations := ["https://sqs/1/q"; "https://sqs/1/p"]; PubSubProjectID := "";
  PubSubAPIEndpoint := ""; SQSAPIEndpoint := ""; ErrorCooldown := second;
  PublishTimeout := second; PublishResultGrace := second; MaxEventAge := 0; StatsInterval := second;
  PGHost := "localhost"; PGPort := 5432; PGUser := "postgres"; PGPassword := "";
  PGDatabase := "postgres"; PGSchema := "public"; PGSSL := false; PGSSLRejectUnauthorized := true;
  PGSSLRootCert := ""; PGConnectTimeout := second; PGQueryTimeout := second; PGInitUser := "";
  PGInitPassword := ""; PGProducerRoles := []; AWSRegion := "eu"; AWSRoleARN := "";
  AWSRoleSessionName := ""; AWSRoleDuration := hour; AWSCredentialRefreshWindow := minute;
  AWSWebIdentityProvider := ""; AWSWebIdentityAudience := "";
|}.

Definition sample_column (name : string) : option string :=
  if bool_decide (name = "destination") then Some "https://sqs/1/p" else None.

Lemma routing_sql_correct_witness :
  let rt := EventRoute "sqs" "https://sqs/1/p" in
  route_of sample_sqs sample_column = Some rt
  /\ eval sample_column (route_fields rt) (target_expr sample_sqs "candidate").1 = Some (target rt).
Proof.
  split; [reflexivity|].
  destruct (routing_sql_correct (H := {| Sanitize := fun names => strings_Join names "." |}) sample_sqs "candidate"
    sample_column (EventRoute "sqs" "https://sqs/1/p")) as (_ & _ & Hc).
  destruct (Hc (EventRoute "sqs" "https://sqs/1/p")) as [Ht _]; [reflexivity|exact Ht].
Defined.
