(* ===== verification/Select.v ===== *)
(** * The collection query ([db.go], [backlog.go])

    What the query of [selectEventsQuerySQL] returns for a table, following its three parts
    [routes], [selected] and the final select, with the predicates of [Routing.v]; the scan of
    its result; [batchDrained]; and the count of [backlogCountSQL].

    A table is the list of its rows in id order. *)
From S2P Require Import Prelude GoErrors Config Values Samples Routes Sql Routing RoutingSpec.
Local Open Scope go_scope.

Section query.
Context `{GoRuntime} (cfg : appConfig).

(** What the join on the id column compares: the ids of one column are equal when their keys
    are ([eventIDKey_inj]). *)
Definition row_key (row : object) : string := eventIDKey (map_get row (cfgEventID cfg)).

Definition no_route (field : string) : option string := None.

(** [SELECT DISTINCT target, destination FROM table WHERE routable] *)
Definition source_route (row : object) : option eventRoute :=
  if where_ (row_text row) no_route (routable_pred cfg "route_source") then
    let t := (target_expr cfg "route_source").1 in
    match eval (row_text row) no_route t,
          eval (row_text row) no_route (destination_expr cfg "route_source" t) with
    | Some t, Some d => Some (EventRoute t d)
    | _, _ => None
    end
  else None.

Definition routes_cte (table : list object) : list eventRoute :=
  remove_dups (omap source_route table).

(** [GREATEST(1, ($1 + route_count - 1) / route_count)] *)
Definition route_share (batchTarget route_count : Z) : Z :=
  Z.max 1 (Z.quot (batchTarget + route_count - 1) route_count).

(** The lateral subquery: the oldest candidates of a route. *)
Definition candidate (r : eventRoute) (row : object) : bool :=
  bool_decide (and3 (holds (row_text row) (route_fields r) (routable_pred cfg "candidate"))
                    (holds (row_text row) (route_fields r) (route_match_pred cfg "candidate"))
               = Some true).

Definition picked (table : list object) (share : Z) (r : eventRoute) : list object :=
  take (Z.to_nat share) (filter (fun row => candidate r row = true) table).

Definition selected_cte (table : list object) (batchTarget : Z) : list (string * eventRoute) :=
  let routes := routes_cte table in
  let share := route_share batchTarget (Z.of_nat (length routes)) in
  concat ((fun r => (fun row => (row_key row, r)) <$> picked table share r) <$> routes).

(** The final select: the rows joined with their selection, in id order. *)
Definition select_events (table : list object) (batchTarget : Z) : list event :=
  let selected := selected_cte table batchTarget in
  concat ((fun row => (fun e => MkEvt row e.2 no_options) <$> filter (fun e => e.1 = row_key row) selected)
          <$> table).

(** [batchDrained]; [int] arithmetic wraps, and [/] truncates. *)
Definition perRoute (events : list event) : gmap eventRoute Z :=
  foldl (fun m e => <[route e := (default 0 (m !! route e) + 1)%Z]> m) ∅ events.

Definition batchDrained (events : list event) (batchTarget : Z) : bool :=
  match events with
  | [] => true
  | _ =>
      let counts := perRoute events in
      let n := Z.of_nat (size counts) in
      let share := Z.max 1 (Z.quot (wrap64 (wrap64 (batchTarget + n) - 1)) n) in
      bool_decide (map_Forall (fun _ count => (count < share)%Z) counts)
  end.

(** [backlogCountSQL] over the oldest [limit] rows: the routable ones, and those scanned. *)
Definition backlog_count (table : list object) (limit : Z) : Z * Z :=
  let scanned := take (Z.to_nat limit) table in
  (Z.of_nat (length (filter (fun row =>
     where_ (row_text row) no_route (routable_pred cfg "backlog") = true) scanned)),
   Z.of_nat (length scanned)).

(** ** The expressions of the query, by the routing rules *)

Abbreviation routed row := (route_of cfg (row_text row)).

Lemma source_route_spec row : source_route row = routed row.
Proof.
  unfold source_route, where_. destruct (routed row) as [[t d]|] eqn:Hr.
  - assert (Hrt : holds (row_text row) no_route (routable_pred cfg "route_source") = Some true)
      by (apply routable_meaning; eauto).
    rewrite bool_decide_eq_true_2 by done.
    destruct (route_meaning cfg (row_text row) no_route "route_source" _ Hr) as [-> ->]. done.
  - rewrite bool_decide_eq_false_2; [done|]. intros (rt & Hrt)%routable_meaning. congruence.
Qed.

Lemma candidate_spec r row : candidate r row = true <-> routed row = Some r.
Proof.
  unfold candidate. rewrite bool_decide_eq_true, and3_true, routable_meaning. split.
  - intros [(rt & Hrt) Hm]. rewrite Hrt. f_equal. exact (proj1 (match_meaning cfg (row_text row) (route_fields r) "candidate" rt r Hrt (fun _ => eq_refl)) Hm).
  - intros Hr. split; [by eauto|]. exact (proj2 (match_meaning cfg (row_text row) (route_fields r) "candidate" r r Hr (fun _ => eq_refl)) eq_refl).
Qed.

Lemma routes_cte_spec table r : r ∈ routes_cte table <-> exists row, row ∈ table /\ routed row = Some r.
Proof.
  unfold routes_cte. rewrite elem_of_remove_dups, list_elem_of_omap.
  by setoid_rewrite source_route_spec.
Qed.

Lemma picked_spec table share r :
  picked table share r = take (Z.to_nat share) (filter (fun row => routed row = Some r) table).
Proof. unfold picked. f_equal. apply list_filter_iff. intros row. apply candidate_spec. Qed.

(** ** The fair scan

    The reference for the query: walk the table in id order, and take a row that has a route
    when fewer than [share] rows before it have the same route. *)
Definition pending (r : eventRoute) (rows : list object) : list object :=
  filter (fun row => routed row = Some r) rows.

Fixpoint fair_scan (share : nat) (before rows : list object) : list event :=
  match rows with
  | [] => []
  | row :: rest =>
      match routed row with
      | Some r => if decide (length (pending r before) < share) then [MkEvt row r no_options] else []
      | None => []
      end ++ fair_scan share (before ++ [row]) rest
  end.

Definition batch_share (table : list object) (batchTarget : Z) : nat :=
  Z.to_nat (route_share batchTarget (Z.of_nat (length (routes_cte table)))).

Lemma filter_concat {A} (P : A -> Prop) `{!forall x, Decision (P x)} (ls : list (list A)) :
  filter P (concat ls) = concat (filter P <$> ls).
Proof. induction ls as [|l ls IH]; [done|]. simpl. by rewrite filter_app, IH. Qed.

Lemma filter_none {A} (P : A -> Prop) `{!forall x, Decision (P x)} (l : list A) :
  (forall x, x ∈ l -> ~ P x) -> filter P l = [].
Proof.
  induction l as [|x l IH]; [done|]. intros Hl. rewrite filter_cons_False by (apply Hl; set_solver).
  apply IH. intros y Hy. apply Hl. set_solver.
Qed.

Lemma concat_none {A B} (f : A -> list B) (l : list A) :
  (forall x, x ∈ l -> f x = []) -> concat (f <$> l) = [].
Proof. intros Hf. apply concat_nil_Forall, Forall_fmap, Forall_forall. auto. Qed.

Lemma concat_single {A B} `{EqDecision A} (f : A -> list B) (l : list A) a :
  NoDup l -> a ∈ l -> (forall x, x ∈ l -> x <> a -> f x = []) -> concat (f <$> l) = f a.
Proof.
  intros Hnd. induction Hnd as [|x l Hx Hnd IH]; [by intros ?%elem_of_nil|]. intros Ha Hf.
  simpl. destruct (decide (x = a)) as [->|Hne].
  - rewrite concat_none; [apply app_nil_r|]. intros y Hy. apply Hf; set_solver.
  - rewrite (Hf x) by set_solver. apply IH; [set_solver|]. intros y Hy. apply Hf. set_solver.
Qed.

Section join.
Context (before rest : list object) (row : object).
Context (Hkeys : NoDup (row_key <$> before ++ row :: rest)).

Lemma other_key y : y ∈ before \/ y ∈ rest -> row_key y <> row_key row.
Proof.
  intros Hy Heq. rewrite fmap_app, fmap_cons, NoDup_app, NoDup_cons in Hkeys.
  destruct Hkeys as (_ & Hb & Hr & _). destruct Hy as [Hy|Hy].
  - apply (Hb (row_key y)); [by apply list_elem_of_fmap_2|rewrite Heq; set_solver].
  - apply Hr. rewrite <- Heq. by apply list_elem_of_fmap_2.
Qed.

Lemma join_none (r : eventRoute) (l : list object) :
  (forall y, y ∈ l -> y ∈ before \/ y ∈ rest) ->
  filter (fun e => e.1 = row_key row) ((fun y => (row_key y, r)) <$> l) = [].
Proof.
  intros Hl. apply filter_none. intros e He. apply list_elem_of_fmap in He as (y & -> & Hy).
  by apply other_key, Hl.
Qed.

(** The selections of a route that join with a row: one, when the row has that route and is
    among its first [share]. *)
Lemma join_route (share : nat) (r : eventRoute) :
  filter (fun e => e.1 = row_key row)
    ((fun y => (row_key y, r)) <$> take share (pending r (before ++ row :: rest)))
  = if decide (routed row = Some r /\ length (pending r before) < share)
    then [(row_key row, r)] else [].
Proof.
  unfold pending. rewrite filter_app, filter_cons.
  assert (Hb : forall n y, y ∈ take n (filter (fun row => routed row = Some r) before) -> y ∈ before \/ y ∈ rest).
  { intros n y Hy. apply elem_of_take in Hy as (i & Hi & _). left.
    by apply list_elem_of_lookup_2, list_elem_of_filter in Hi as [_ ?]. }
  assert (Ha : forall n y, y ∈ take n (filter (fun row => routed row = Some r) rest) -> y ∈ before \/ y ∈ rest).
  { intros n y Hy. apply elem_of_take in Hy as (i & Hi & _). right.
    by apply list_elem_of_lookup_2, list_elem_of_filter in Hi as [_ ?]. }
  rewrite take_app, fmap_app, filter_app, join_none by apply Hb. simpl.
  destruct (decide (routed row = Some r)) as [Hr|Hr].
  - destruct (decide (length (filter (fun row => routed row = Some r) before) < share)) as [Hlt|Hge].
    + rewrite decide_True by done.
      destruct (share - _) as [|m] eqn:Hm; [lia|]. simpl.
      rewrite filter_cons_True by done. f_equal. apply join_none, Ha.
    + rewrite decide_False by tauto. replace (share - _) with 0 by lia. done.
  - rewrite decide_False by tauto. apply join_none, Ha.
Qed.

End join.

Lemma fair_scan_join (target : Z) (table before rows : list object) :
  NoDup (row_key <$> table) -> table = before ++ rows ->
  concat ((fun row => (fun e => MkEvt row e.2 no_options)
             <$> filter (fun e => e.1 = row_key row) (selected_cte table target)) <$> rows)
  = fair_scan (batch_share table target) before rows.
Proof.
  intros Hkeys. revert before. induction rows as [|row rest IH]; intros before Htable; [done|].
  rewrite fmap_cons. cbn [concat fair_scan]. rewrite (IH (before ++ [row])) by by rewrite <- (assoc_L (++)). f_equal.
  unfold selected_cte. rewrite filter_concat, <- list_fmap_compose.
  rewrite (list_fmap_ext _ (fun r =>
    if decide (routed row = Some r /\ length (pending r before) < batch_share table target)
    then [(row_key row, r)] else [])).
  2: { intros _ r _. unfold compose. rewrite picked_spec.
       assert (Hk : NoDup (row_key <$> before ++ row :: rest)) by by rewrite <- Htable.
       pose proof (join_route before rest row Hk (batch_share table target) r) as Hj.
       rewrite <- Htable in Hj. exact Hj. }
  destruct (routed row) as [r|] eqn:Hr.
  - rewrite (concat_single _ _ r).
    + case_decide; [|case_decide; [tauto|done]]. rewrite decide_True by tauto. done.
    + apply NoDup_remove_dups.
    + apply routes_cte_spec. exists row. rewrite Htable. set_solver.
    + intros x _ Hne. rewrite decide_False; [done|]. intros [? _]. congruence.
  - rewrite concat_none; [done|]. intros x _. rewrite decide_False; [done|]. by intros [? _].
Qed.

Lemma select_events_scan table batchTarget :
  NoDup (row_key <$> table) ->
  select_events table batchTarget = fair_scan (batch_share table batchTarget) [] table.
Proof. intros Hkeys. by apply fair_scan_join. Qed.

(** ** Laws of the fair scan *)

Lemma pending_cons r row rows :
  pending r (row :: rows)
  = if decide (routed row = Some r) then row :: pending r rows else pending r rows.
Proof. unfold pending. by rewrite filter_cons. Qed.

Lemma pending_snoc r row rows :
  pending r (rows ++ [row]) = pending r rows ++ if decide (routed row = Some r) then [row] else [].
Proof. unfold pending. rewrite filter_app, filter_cons, filter_nil. done. Qed.

Lemma fair_scan_route share r before rows :
  filter (fun e => route e = r) (fair_scan share before rows)
  = (fun row => MkEvt row r no_options)
      <$> take (share - length (pending r before)) (pending r rows).
Proof.
  revert before. induction rows as [|row rows IH]; intros before; [unfold pending; by rewrite !filter_nil, take_nil|].
  cbn [fair_scan]. rewrite filter_app, IH, pending_cons, pending_snoc.
  destruct (decide (routed row = Some r)) as [Hr|Hr].
  - rewrite Hr, length_app. case_decide as Hlt.
    + rewrite filter_cons_True, filter_nil by done. simpl.
      destruct (share - length (pending r before)) as [|m] eqn:Hm; [lia|]. simpl.
      replace (share - (length (pending r before) + 1)) with m by lia. done.
    + rewrite filter_nil. simpl.
      replace (share - (length (pending r before) + 1)) with 0 by lia.
      replace (share - length (pending r before)) with 0 by lia. done.
  - rewrite app_nil_r. destruct (routed row) as [r'|]; [|done].
    case_decide; [|done]. rewrite filter_cons_False by (simpl; congruence). done.
Qed.

Lemma elem_of_fair_scan share before rows e :
  e ∈ fair_scan share before rows ->
  columns e ∈ rows /\ routed (columns e) = Some (route e) /\ options e = no_options.
Proof.
  revert before. induction rows as [|row rows IH]; intros before; [by intros ?%elem_of_nil|].
  cbn [fair_scan]. rewrite elem_of_app. intros [He|He].
  - destruct (routed row) as [r|] eqn:Hr; [|by apply elem_of_nil in He].
    case_decide; [|by apply elem_of_nil in He]. apply list_elem_of_singleton in He as ->.
    split; [apply list_elem_of_here|done].
  - apply IH in He as (? & ? & ?). split_and!; [by apply list_elem_of_further|done..].
Qed.

Lemma fair_scan_sublist share before rows : columns <$> fair_scan share before rows `sublist_of` rows.
Proof.
  revert before. induction rows as [|row rows IH]; intros before; [done|]. cbn [fair_scan].
  destruct (routed row) as [r|]; [case_decide|]; simpl.
  - by apply sublist_skip.
  - by apply sublist_cons.
  - by apply sublist_cons.
Qed.

Lemma length_by_route (n : nat) (rs : list eventRoute) (events : list event) :
  (forall e, e ∈ events -> route e ∈ rs) ->
  (forall r, length (filter (fun e => route e = r) events) <= n) ->
  length events <= length rs * n.
Proof.
  revert events. induction rs as [|r rs IH]; intros events Hin Hlen.
  - destruct events as [|e events]; [done|]. by specialize (Hin e (list_elem_of_here _ _)) as ?%elem_of_nil.
  - rewrite <- (filter_app_complement (fun e => route e = r) events), length_app. simpl.
    apply Nat.add_le_mono; [apply Hlen|]. apply IH.
    + intros e [Hne He]%list_elem_of_filter. apply Hin, elem_of_cons in He as [?|?]; [done|done].
    + intros r'. etrans; [|apply (Hlen r')]. rewrite list_filter_filter, (list_filter_iff _ (fun e => route e <> r /\ route e = r')) by tauto.
      rewrite <- list_filter_filter. apply length_filter.
Qed.


Lemma fair_scan_all share before rows :
  (forall r, length (pending r (before ++ rows)) <= share) ->
  columns <$> fair_scan share before rows = filter (fun row => is_Some (routed row)) rows.
Proof.
  revert before. induction rows as [|row rows IH]; intros before Hlen; [done|].
  cbn [fair_scan]. rewrite fmap_app, IH by by rewrite <- (assoc_L (++)).
  rewrite filter_cons. destruct (routed row) as [r|] eqn:Hr.
  - rewrite (decide_True (P := is_Some _)) by eauto. rewrite decide_True; [done|].
    specialize (Hlen r). unfold pending in Hlen. rewrite filter_app, filter_cons_True, length_app in Hlen by done.
    simpl in Hlen. unfold pending. lia.
  - by rewrite decide_False by by intros [? ?].
Qed.

(** ** Shares and counts *)

Lemma route_share_pos batchTarget n : (1 <= route_share batchTarget n)%Z.
Proof. unfold route_share. lia. Qed.

Lemma route_share_bound batchTarget n :
  (1 <= batchTarget -> 1 <= n -> route_share batchTarget n * n <= batchTarget + n - 1)%Z.
Proof.
  intros Ht Hn. unfold route_share. rewrite Z.quot_div_nonneg by lia.
  destruct (Z.max_spec 1 ((batchTarget + n - 1) / n)) as [[_ ->]|[_ ->]].
  - pose proof (Z.mul_div_le (batchTarget + n - 1) n). lia.
  - lia.
Qed.

Lemma pending_route table row r : row ∈ table -> routed row = Some r -> r ∈ routes_cte table.
Proof. intros Hrow Hr. apply routes_cte_spec. eauto. Qed.

Lemma pending_none table r : pending r table = [] <-> r ∉ routes_cte table.
Proof.
  rewrite routes_cte_spec. split.
  - intros Hp (row & Hrow & Hr). apply (not_elem_of_nil row). rewrite <- Hp.
    by apply list_elem_of_filter.
  - intros Hn. apply filter_none. intros row Hrow Hr. apply Hn. eauto.
Qed.

Lemma perRoute_app events e :
  perRoute (events ++ [e]) = <[route e := (default 0 (perRoute events !! route e) + 1)%Z]> (perRoute events).
Proof. unfold perRoute. by rewrite foldl_app. Qed.

Lemma perRoute_lookup events r :
  perRoute events !! r
  = match filter (fun e => route e = r) events with [] => None | es => Some (Z.of_nat (length es)) end.
Proof.
  induction events as [|e events IH] using rev_ind; [done|].
  rewrite perRoute_app, filter_app. destruct (decide (route e = r)) as [<-|Hne].
  - rewrite lookup_insert_eq, IH, filter_cons_True, filter_nil by done.
    destruct (filter _ events); [done|]. simpl. f_equal. rewrite length_app. simpl. lia.
  - rewrite lookup_insert_ne, IH, filter_cons_False, filter_nil, app_nil_r by done. done.
Qed.

Section batch.
Context (table : list object) (batchTarget : Z) (Hkeys : NoDup (row_key <$> table)).
Let batch := select_events table batchTarget.
Let share := batch_share table batchTarget.

Lemma batch_share_pos : 1 <= share.
Proof. unfold share, batch_share. pose proof (route_share_pos batchTarget (Z.of_nat (length (routes_cte table)))). lia. Qed.

Lemma batch_route r :
  filter (fun e => route e = r) batch = (fun row => MkEvt row r no_options) <$> take share (pending r table).
Proof.
  unfold batch. rewrite select_events_scan by done. rewrite fair_scan_route. simpl. by rewrite Nat.sub_0_r.
Qed.

Lemma batch_route_length r :
  length (filter (fun e => route e = r) batch) = share `min` length (pending r table).
Proof. by rewrite batch_route, length_fmap, length_take. Qed.

Lemma batch_events e : e ∈ batch -> columns e ∈ table /\ routed (columns e) = Some (route e) /\ options e = no_options.
Proof. unfold batch. rewrite select_events_scan by done. apply elem_of_fair_scan. Qed.

Lemma batch_size : (1 <= batchTarget)%Z ->
  (Z.of_nat (length batch) <= batchTarget + Z.of_nat (length (routes_cte table)) - 1)%Z.
Proof.
  intros Ht. assert (Hle : length batch <= length (routes_cte table) * share).
  { apply length_by_route; [|intros r; rewrite batch_route_length; lia].
    intros e (Hin & Hr & _)%batch_events. by eapply pending_route. }
  destruct (length (routes_cte table)) as [|n] eqn:Hn; [lia|].
  pose proof (route_share_bound batchTarget (Z.of_nat (S n)) Ht ltac:(lia)) as Hs.
  pose proof (route_share_pos batchTarget (Z.of_nat (S n))).
  unfold share, batch_share in Hle. rewrite Hn in Hle. nia.
Qed.

Lemma perRoute_batch_dom : dom (perRoute batch) = list_to_set (routes_cte table).
Proof.
  apply set_eq. intros r. rewrite elem_of_dom, elem_of_list_to_set, perRoute_lookup, batch_route.
  pose proof batch_share_pos. destruct (pending r table) as [|row rows] eqn:Hp.
  - rewrite take_nil. split; [by intros []|]. intros Hin. apply pending_none in Hp. done.
  - destruct share as [|s]; [lia|]. simpl. split; [|eauto]. intros _.
    destruct (decide (r ∈ routes_cte table)) as [|Hn]; [done|]. apply pending_none in Hn. congruence.
Qed.

Lemma perRoute_batch_size : size (perRoute batch) = length (routes_cte table).
Proof.
  rewrite <- size_dom, perRoute_batch_dom. apply size_list_to_set, NoDup_remove_dups.
Qed.

Lemma batch_empty : batch = [] -> routes_cte table = [].
Proof.
  intros Hb. pose proof perRoute_batch_size as Hs. rewrite Hb in Hs. by destruct (routes_cte table).
Qed.

Lemma batchDrained_iff :
  (0 <= batchTarget)%Z -> (batchTarget + Z.of_nat (length (routes_cte table)) < 2 ^ 63)%Z ->
  batchDrained batch batchTarget = true <-> forall r, length (pending r table) < share.
Proof.
  intros Ht Hmax. pose proof batch_share_pos as Hpos. unfold batchDrained.
  destruct batch as [|e es] eqn:Hb.
  - split; [|done]. intros _ r. assert (Hp : pending r table = []).
    { apply pending_none. rewrite batch_empty by done. apply not_elem_of_nil. }
    rewrite Hp. simpl. lia.
  - rewrite <- Hb, bool_decide_eq_true, perRoute_batch_size.
    assert (Hn : 1 <= length (routes_cte table)).
    { rewrite <- perRoute_batch_size. assert (Hin : e ∈ batch) by (rewrite Hb; apply list_elem_of_here).
      apply batch_events in Hin as (Hin & Hr & _). pose proof (pending_route _ _ _ Hin Hr) as Hr'.
      rewrite perRoute_batch_size. destruct (routes_cte table); [by apply not_elem_of_nil in Hr'|simpl; lia]. }
    rewrite (wrap64_id (batchTarget + _)) by (unfold in_int64, min_int64, max_int64, two63; lia). rewrite wrap64_id by (unfold in_int64, min_int64, max_int64, two63; lia).
    fold (route_share batchTarget (Z.of_nat (length (routes_cte table)))).
    assert (Hs : Z.of_nat share = route_share batchTarget (Z.of_nat (length (routes_cte table)))).
    { unfold share, batch_share. pose proof (route_share_pos batchTarget (Z.of_nat (length (routes_cte table)))). lia. }
    rewrite <- Hs. split.
    + intros Hall r. destruct (decide (length (pending r table) = 0)) as [|Hne]; [lia|].
      pose proof (batch_route_length r) as Hl. specialize (Hall r).
      rewrite perRoute_lookup in Hall. destruct (filter _ batch) as [|e' es'] eqn:Hf; [simpl in Hl; lia|].
      specialize (Hall _ eq_refl). rewrite Hl in Hall. lia.
    + intros Hall r c Hc. rewrite perRoute_lookup in Hc. specialize (Hall r).
      pose proof (batch_route_length r) as Hl. destruct (filter _ batch); [done|].
      injection Hc as Hc. cbn [length] in *. lia.
Qed.

End batch.

End query.

(** ** Properties *)

(** C7. Collection is a fair scan: the collection query returns exactly the rows a walk of the
    table in id order would take when it takes a row that has a route as long as fewer than the
    route's share of rows before it have the same route. *)
Theorem collection_is_fair_scan `{GoRuntime} (cfg : appConfig) (table : list object) (batchTarget : Z) :
  NoDup (row_key cfg <$> table) ->
  select_events cfg table batchTarget = fair_scan cfg (batch_share cfg table batchTarget) [] table.
Proof. apply select_events_scan. Qed.

(** C17. Collection starves no route and respects the batch target: every route with pending rows
    gets its oldest ones up to the same positive share, in id order, and a batch has fewer rows
    than the batch target plus the number of routes. *)
Theorem collection_fair_and_bounded `{GoRuntime} (cfg : appConfig) (table : list object) (batchTarget : Z) :
  NoDup (row_key cfg <$> table) ->
  let batch := select_events cfg table batchTarget in
  let share := batch_share cfg table batchTarget in
  columns <$> batch `sublist_of` table
  /\ 1 <= share
  /\ (forall r, filter (fun e => route e = r) batch
               = (fun row => MkEvt row r no_options) <$> take share (pending cfg r table))
  /\ ((1 <= batchTarget)%Z ->
      (Z.of_nat (length batch) < batchTarget + Z.of_nat (length (routes_cte cfg table)))%Z).
Proof.
  intros Hkeys. cbv zeta. split_and!.
  - rewrite select_events_scan by done. apply fair_scan_sublist.
  - apply batch_share_pos.
  - intros r. by apply batch_route.
  - intros Ht. pose proof (batch_size cfg table batchTarget Hkeys Ht). lia.
Qed.

(** C20. [batchDrained] answers true exactly when no route of the table has as many pending rows as
    its share; the batch is then every row of the table that has a route. *)
Theorem batchDrained_exact `{GoRuntime} (cfg : appConfig) (table : list object) (batchTarget : Z) :
  NoDup (row_key cfg <$> table) ->
  (0 <= batchTarget)%Z -> (batchTarget + Z.of_nat (length (routes_cte cfg table)) < 2 ^ 63)%Z ->
  let batch := select_events cfg table batchTarget in
  (batchDrained batch batchTarget = true
     <-> forall r, length (pending cfg r table) < batch_share cfg table batchTarget)
  /\ (batchDrained batch batchTarget = true ->
      columns <$> batch = filter (fun row => is_Some (route_of cfg (row_text row))) table).
Proof.
  intros Hkeys Ht Hmax. cbv zeta.
  pose proof (batchDrained_iff cfg table batchTarget Hkeys Ht Hmax) as Hiff. split; [done|].
  intros Hd. rewrite select_events_scan by done. apply fair_scan_all.
  intros r. apply Nat.lt_le_incl. by apply Hiff.
Qed.

(** A table of five rows for [sample_sqs]: four for the default queue and one for the other. *)
Definition sample_row (id : Z) (destination : string) : object :=
  <["id" := VInt KInt64 id]> (<["payload" := VString "{}"]>
    (<["destination" := VString destination]> ∅)).

Definition sample_table : list object :=
  [sample_row 1 ""; sample_row 2 ""; sample_row 3 ""; sample_row 4 "https://sqs/1/p";
   sample_row 5 "https://sqs/1/x"].

Lemma sample_keys : NoDup (row_key sample_sqs <$> sample_table).
Proof. apply (bool_decide_unpack _). vm_compute. exact I. Qed.

Lemma collection_is_fair_scan_witness :
  (fun e => eventValue e "id") <$> fair_scan sample_sqs (batch_share sample_sqs sample_table 4) [] sample_table
    = [VInt KInt64 1; VInt KInt64 2; VInt KInt64 4]
  /\ select_events sample_sqs sample_table 4
     = fair_scan sample_sqs (batch_share sample_sqs sample_table 4) [] sample_table.
Proof. split; [vm_compute; reflexivity|]. apply collection_is_fair_scan. exact sample_keys. Defined.

Lemma collection_fair_and_bounded_witness :
  length (routes_cte sample_sqs sample_table) = 2
  /\ (Z.of_nat (length (select_events sample_sqs sample_table 4)) < 4 + 2)%Z.
Proof.
  split; [vm_compute; reflexivity|].
  pose proof (collection_fair_and_bounded sample_sqs sample_table 4 sample_keys) as (_ & _ & _ & Hb).
  exact (Hb ltac:(lia)).
Defined.

Lemma batchDrained_exact_witness :
  batchDrained (select_events sample_sqs sample_table 4) 4 = false
  /\ columns <$> select_events sample_sqs sample_table 9
     = filter (fun row => is_Some (route_of sample_sqs (row_text row))) sample_table.
Proof.
  split; [vm_compute; reflexivity|].
  destruct (batchDrained_exact sample_sqs sample_table 9 sample_keys) as [_ Hall];
    [lia|vm_compute; reflexivity|].
  apply Hall. vm_compute. reflexivity.
Defined.
