(* ===== verification/Stats.v ===== *)
(** * Statistics ([stats.go])

    The cumulative counters and last-batch gauges of the relay, as [int64] values that wrap, and
    the interval deltas of the periodic log line.  A method is the list of its atomic operations,
    in the order of the code: alone it performs them one after the other, and between goroutines
    they interleave one by one ([logger_step]).  The delta of [intervalSnapshot] is computed in two
    parts, the counters being loaded before the mutex is taken. *)
From stdpp Require Import functions.
From S2P Require Import Prelude Config.
Local Open Scope Z_scope.

(** [time.Duration.Milliseconds] and [time.Time.UnixMilli] (which rounds down). *)
Definition Milliseconds (d : Z) : Z := Z.quot d millisecond.
Definition UnixMilli (t : Z) : Z := Z.div t millisecond.

(** [time.Time.Sub] of two instants: it saturates. *)
Definition time_Sub (t u : Z) : Z := Z.max min_int64 (Z.min max_int64 (t - u)).

Record batchStats := BatchStats {
  b_selected : Z;
  b_sent : Z;
  b_poison : Z;
  b_dlq : Z;
  b_keptForRetry : Z;
  b_senderErrors : Z;
  b_fatalAfterCommitErrors : Z;
  b_oldestEventAge : Z;
  b_publishDuration : Z;
  b_dbDuration : Z;
}.

Definition no_stats : batchStats := BatchStats 0 0 0 0 0 0 0 0 0 0.

Record statsSnapshot := StatsSnapshot {
  s_selected : Z;
  s_sent : Z;
  s_poison : Z;
  s_dlq : Z;
  s_keptForRetry : Z;
  s_batchesProcessed : Z;
  s_batchErrors : Z;
  s_senderErrors : Z;
  s_fatalAfterCommitErrors : Z;
}.

Definition zero_snapshot : statsSnapshot := StatsSnapshot 0 0 0 0 0 0 0 0 0.

Record appStats := AppStats {
  counters : statsSnapshot;

  lastBatchSelected : Z;
  lastBatchKeptForRetry : Z;
  oldestEventAgeMillis : Z;
  lastSuccessUnixMilli : Z;
  lastBatchPublishMillis : Z;
  lastBatchDBMillis : Z;

  backlogEvents : Z;
  backlogFloor : Z;

  lastLogged : statsSnapshot;
}.

Definition newAppStats (now : Z) : appStats := {|
  counters := zero_snapshot;
  lastBatchSelected := 0;
  lastBatchKeptForRetry := 0;
  oldestEventAgeMillis := 0;
  lastSuccessUnixMilli := UnixMilli now;
  lastBatchPublishMillis := 0;
  lastBatchDBMillis := 0;
  backlogEvents := 0;
  backlogFloor := 1;
  lastLogged := zero_snapshot;
|}.

(** ** Atomic operations *)

Inductive counter :=
| SelectedCount
| SentCount
| PoisonCount
| DlqCount
| KeptForRetryCount
| BatchesProcessed
| BatchErrors
| SenderErrors
| FatalAfterCommitErrors.

#[global] Instance counter_eq_dec : EqDecision counter.
Proof. solve_decision. Defined.

Definition counter_value (k : counter) : statsSnapshot -> Z :=
  match k with
  | SelectedCount => s_selected
  | SentCount => s_sent
  | PoisonCount => s_poison
  | DlqCount => s_dlq
  | KeptForRetryCount => s_keptForRetry
  | BatchesProcessed => s_batchesProcessed
  | BatchErrors => s_batchErrors
  | SenderErrors => s_senderErrors
  | FatalAfterCommitErrors => s_fatalAfterCommitErrors
  end.

Inductive gauge :=
| LastBatchSelected
| LastBatchKeptForRetry
| OldestEventAgeMillis
| LastSuccessUnixMilli
| LastBatchPublishMillis
| LastBatchDBMillis
| BacklogEvents
| BacklogFloor.

Inductive atomic :=
| CounterAdd (k : counter) (v : Z)
| GaugeStore (g : gauge) (v : Z).

Definition add_counter (k : counter) (v : Z) (c : statsSnapshot) : statsSnapshot := {|
  s_selected := match k with SelectedCount => wrap64 (s_selected c + v) | _ => s_selected c end;
  s_sent := match k with SentCount => wrap64 (s_sent c + v) | _ => s_sent c end;
  s_poison := match k with PoisonCount => wrap64 (s_poison c + v) | _ => s_poison c end;
  s_dlq := match k with DlqCount => wrap64 (s_dlq c + v) | _ => s_dlq c end;
  s_keptForRetry := match k with KeptForRetryCount => wrap64 (s_keptForRetry c + v) | _ => s_keptForRetry c end;
  s_batchesProcessed := match k with BatchesProcessed => wrap64 (s_batchesProcessed c + v) | _ => s_batchesProcessed c end;
  s_batchErrors := match k with BatchErrors => wrap64 (s_batchErrors c + v) | _ => s_batchErrors c end;
  s_senderErrors := match k with SenderErrors => wrap64 (s_senderErrors c + v) | _ => s_senderErrors c end;
  s_fatalAfterCommitErrors :=
    match k with FatalAfterCommitErrors => wrap64 (s_fatalAfterCommitErrors c + v) | _ => s_fatalAfterCommitErrors c end;
|}.

Definition do_atomic (o : atomic) (s : appStats) : appStats :=
  match o with
  | CounterAdd k v =>
      AppStats (add_counter k v (counters s)) (lastBatchSelected s) (lastBatchKeptForRetry s)
        (oldestEventAgeMillis s) (lastSuccessUnixMilli s) (lastBatchPublishMillis s)
        (lastBatchDBMillis s) (backlogEvents s) (backlogFloor s) (lastLogged s)
  | GaugeStore g v => {|
      counters := counters s;
      lastBatchSelected := match g with LastBatchSelected => v | _ => lastBatchSelected s end;
      lastBatchKeptForRetry := match g with LastBatchKeptForRetry => v | _ => lastBatchKeptForRetry s end;
      oldestEventAgeMillis := match g with OldestEventAgeMillis => v | _ => oldestEventAgeMillis s end;
      lastSuccessUnixMilli := match g with LastSuccessUnixMilli => v | _ => lastSuccessUnixMilli s end;
      lastBatchPublishMillis := match g with LastBatchPublishMillis => v | _ => lastBatchPublishMillis s end;
      lastBatchDBMillis := match g with LastBatchDBMillis => v | _ => lastBatchDBMillis s end;
      backlogEvents := match g with BacklogEvents => v | _ => backlogEvents s end;
      backlogFloor := match g with BacklogFloor => v | _ => backlogFloor s end;
      lastLogged := lastLogged s;
    |}
  end.

Definition do_all (ops : list atomic) (s : appStats) : appStats := foldl (fun s o => do_atomic o s) s ops.

(** ** The methods

    They accept a nil receiver. *)

Definition backlog_ops (events : Z) (floor : bool) : list atomic :=
  [GaugeStore BacklogEvents events; GaugeStore BacklogFloor (if floor then 1 else 0)].

Definition setBacklog (events : Z) (floor : bool) (s : option appStats) : option appStats :=
  do_all (backlog_ops events floor) <$> s.

Definition committed_ops (batch : batchStats) (now : Z) : list atomic :=
  [ CounterAdd SelectedCount (b_selected batch);
    CounterAdd SentCount (b_sent batch);
    CounterAdd PoisonCount (b_poison batch);
    CounterAdd DlqCount (b_dlq batch);
    CounterAdd KeptForRetryCount (b_keptForRetry batch);
    CounterAdd SenderErrors (b_senderErrors batch);
    CounterAdd FatalAfterCommitErrors (b_fatalAfterCommitErrors batch);
    CounterAdd BatchesProcessed 1;
    GaugeStore LastBatchSelected (b_selected batch);
    GaugeStore LastBatchKeptForRetry (b_keptForRetry batch);
    GaugeStore OldestEventAgeMillis (Milliseconds (b_oldestEventAge batch));
    GaugeStore LastSuccessUnixMilli (UnixMilli now);
    GaugeStore LastBatchPublishMillis (Milliseconds (b_publishDuration batch));
    GaugeStore LastBatchDBMillis (Milliseconds (b_dbDuration batch)) ].

Definition addCommittedBatch (batch : batchStats) (now : Z) (s : option appStats) : option appStats :=
  do_all (committed_ops batch now) <$> s.

Definition error_ops : list atomic := [CounterAdd BatchErrors 1].

Definition addBatchError (s : option appStats) : option appStats := do_all error_ops <$> s.

Definition zip_with_snapshot (f : Z -> Z -> Z) (a b : statsSnapshot) : statsSnapshot := {|
  s_selected := f (s_selected a) (s_selected b);
  s_sent := f (s_sent a) (s_sent b);
  s_poison := f (s_poison a) (s_poison b);
  s_dlq := f (s_dlq a) (s_dlq b);
  s_keptForRetry := f (s_keptForRetry a) (s_keptForRetry b);
  s_batchesProcessed := f (s_batchesProcessed a) (s_batchesProcessed b);
  s_batchErrors := f (s_batchErrors a) (s_batchErrors b);
  s_senderErrors := f (s_senderErrors a) (s_senderErrors b);
  s_fatalAfterCommitErrors := f (s_fatalAfterCommitErrors a) (s_fatalAfterCommitErrors b);
|}.

Definition sub (s other : statsSnapshot) : statsSnapshot :=
  zip_with_snapshot (fun a b => wrap64 (a - b)) s other.

(** The snapshot of the values loaded, and the order of the loads. *)
Definition snapshot_of (load : counter -> Z) : statsSnapshot := {|
  s_selected := load SelectedCount;
  s_sent := load SentCount;
  s_poison := load PoisonCount;
  s_dlq := load DlqCount;
  s_keptForRetry := load KeptForRetryCount;
  s_batchesProcessed := load BatchesProcessed;
  s_batchErrors := load BatchErrors;
  s_senderErrors := load SenderErrors;
  s_fatalAfterCommitErrors := load FatalAfterCommitErrors;
|}.

Definition snapshot_loads : list counter :=
  [SelectedCount; SentCount; PoisonCount; DlqCount; KeptForRetryCount; BatchesProcessed; BatchErrors; SenderErrors; FatalAfterCommitErrors].

Definition load_counter (k : counter) (s : appStats) (loaded : counter -> Z) : counter -> Z :=
  <[k := counter_value k (counters s)]> loaded.

Definition nothing_loaded : counter -> Z := fun _ => 0.

Definition snapshot (s : option appStats) : statsSnapshot :=
  match s with
  | None => zero_snapshot
  | Some s => snapshot_of (foldl (fun loaded k => load_counter k s loaded) nothing_loaded snapshot_loads)
  end.

(** The part of [intervalSnapshot] under the mutex, for the counters [current] read before. *)
Definition log_interval (current : statsSnapshot) (s : appStats) : statsSnapshot * appStats :=
  (sub current (lastLogged s),
   AppStats (counters s) (lastBatchSelected s) (lastBatchKeptForRetry s) (oldestEventAgeMillis s)
     (lastSuccessUnixMilli s) (lastBatchPublishMillis s) (lastBatchDBMillis s) (backlogEvents s)
     (backlogFloor s) current).

Definition intervalSnapshot (s : option appStats) : statsSnapshot * option appStats :=
  match s with
  | None => (zero_snapshot, None)
  | Some s => let '(delta, s') := log_interval (snapshot (Some s)) s in (delta, Some s')
  end.

(** [None] is the zero time. *)
Definition lastSuccess (s : option appStats) : option Z :=
  match s with
  | None => None
  | Some s =>
      if bool_decide (lastSuccessUnixMilli s = 0) then None
      else Some (lastSuccessUnixMilli s * millisecond)
  end.

(** [logStats]: the attributes of the line, if there is one, and the statistics after it.
    [cancelled] is [ctx.Err() != nil]. *)
Definition logStats (interval : Z) (cancelled : bool) (s : option appStats) :
    option (list (string * Z)) * option appStats :=
  if cancelled || match s with None => true | Some _ => false end then (None, s)
  else
    let '(snapshot, s) := intervalSnapshot s in
    (Some [("stats_interval_ms", Z.quot interval millisecond);
           ("events_selected", s_selected snapshot);
           ("events_sent", s_sent snapshot);
           ("events_poison", s_poison snapshot);
           ("events_dlq", s_dlq snapshot);
           ("events_kept_for_retry", s_keptForRetry snapshot);
           ("batches_processed", s_batchesProcessed snapshot);
           ("batch_errors", s_batchErrors snapshot);
           ("sender_errors", s_senderErrors snapshot);
           ("fatal_after_commit_errors", s_fatalAfterCommitErrors snapshot)], s).

(** Nine [int64] values. *)
Definition snapshot_ok (s : statsSnapshot) : Prop :=
  zip_with_snapshot (fun a b => wrap64 (a + b)) s zero_snapshot = s.

(** ** Interleaved goroutines

    The processing goroutine calls the methods that update the statistics, and performs their
    atomic operations one at a time.  The ticker goroutine and the flush at shutdown both call
    [intervalSnapshot]: a reader loads the counters one at a time, in the order of [snapshot], and
    then logs under the mutex.  [performed] keeps the operations performed so far, for the
    statements. *)
Inductive stats_call :=
| CallCommitted (batch : batchStats) (now : Z)
| CallError
| CallBacklog (events : Z) (floor : bool).

Definition call_ops (c : stats_call) : list atomic :=
  match c with
  | CallCommitted batch now => committed_ops batch now
  | CallError => error_ops
  | CallBacklog events floor => backlog_ops events floor
  end.

Record reader := Reader { to_load : list counter; loaded : counter -> Z }.

Record loggers := Loggers {
  shared : appStats;
  called : list stats_call;
  running : list atomic;
  performed : list atomic;
  readers : gmap nat reader;
  logged : list statsSnapshot;
}.

Definition no_readers : gmap nat reader := ∅.

Definition starting (now : Z) : loggers := Loggers (newAppStats now) [] [] [] no_readers [].

(** With [overlap] false, a call of [intervalSnapshot] starts only when no other is in progress. *)
Inductive logger_step (overlap : bool) : loggers -> loggers -> Prop :=
| step_call c s cs h r l :
    logger_step overlap (Loggers s cs [] h r l) (Loggers s (cs ++ [c]) (call_ops c) h r l)
| step_atomic o os s cs h r l :
    logger_step overlap (Loggers s cs (o :: os) h r l) (Loggers (do_atomic o s) cs os (h ++ [o]) r l)
| step_start g s cs os h r l :
    r !! g = None -> (overlap = false -> r = ∅) ->
    logger_step overlap (Loggers s cs os h r l) (Loggers s cs os h (<[g := Reader snapshot_loads nothing_loaded]> r) l)
| step_load g k ks f s cs os h r l :
    r !! g = Some (Reader (k :: ks) f) ->
    logger_step overlap (Loggers s cs os h r l) (Loggers s cs os h (<[g := Reader ks (load_counter k s f)]> r) l)
| step_log g f delta s s' cs os h r l :
    r !! g = Some (Reader [] f) -> log_interval (snapshot_of f) s = (delta, s') ->
    logger_step overlap (Loggers s cs os h r l) (Loggers s' cs os h (delete g r) (l ++ [delta])).

(** What a call is there to count. *)
Definition call_amount (k : counter) (c : stats_call) : Z :=
  match c with
  | CallCommitted batch _ =>
      match k with
      | SelectedCount => b_selected batch
      | SentCount => b_sent batch
      | PoisonCount => b_poison batch
      | DlqCount => b_dlq batch
      | KeptForRetryCount => b_keptForRetry batch
      | BatchesProcessed => 1
      | BatchErrors => 0
      | SenderErrors => b_senderErrors batch
      | FatalAfterCommitErrors => b_fatalAfterCommitErrors batch
      end
  | CallError => match k with BatchErrors => 1 | _ => 0 end
  | CallBacklog _ _ => 0
  end.

Definition sum (l : list Z) : Z := foldr Z.add 0 l.

(** What operations add to a counter. *)
Definition amount (k : counter) (o : atomic) : Z :=
  match o with CounterAdd k' v => if decide (k' = k) then v else 0 | GaugeStore _ _ => 0 end.

Definition added (k : counter) (ops : list atomic) : Z := sum (amount k <$> ops).

(** The intervals logged, when the last of them ends at [after]: a moment for each counter, the
    number of operations performed when it was loaded.  An interval is what was added to each
    counter between its previous moment and its new one; when the calls do not overlap the
    moments only advance, so the intervals are consecutive parts of the operations. *)
Inductive intervals (overlap : bool) (ops : list atomic) : (counter -> nat) -> list statsSnapshot -> Prop :=
| intervals_nil : intervals overlap ops (fun _ => 0%nat) []
| intervals_snoc before after l delta :
    intervals overlap ops before l ->
    (forall k, (after k <= length ops)%nat) ->
    (forall k, counter_value k delta = wrap64 (added k (take (after k) ops) - added k (take (before k) ops))) ->
    (overlap = false -> forall k, (before k <= after k)%nat
       /\ counter_value k delta = wrap64 (added k (drop (before k) (take (after k) ops)))) ->
    intervals overlap ops after (l ++ [delta]).

Definition total (deltas : list statsSnapshot) : statsSnapshot :=
  foldr (zip_with_snapshot (fun a b => wrap64 (a + b))) zero_snapshot deltas.

Lemma wrap64_shift a b : wrap64 (wrap64 a + b) = wrap64 (a + b).
Proof.
  unfold wrap64. f_equal.
  replace ((a + two63) mod two64 - two63 + b + two63) with ((a + two63) mod two64 + b) by lia.
  rewrite Zplus_mod_idemp_l. f_equal. lia.
Qed.

Lemma wrap64_shift_r a b : wrap64 (a + wrap64 b) = wrap64 (a + b).
Proof. rewrite Z.add_comm, wrap64_shift. f_equal. lia. Qed.

Lemma wrap64_add_l a b c : wrap64 (a + wrap64 (b + c)) = wrap64 (wrap64 (a + b) + c).
Proof. rewrite wrap64_shift, wrap64_shift_r. f_equal. lia. Qed.

Lemma snapshot_ok_iff s :
  snapshot_ok s <->
  Forall in_int64 [s_selected s; s_sent s; s_poison s; s_dlq s; s_keptForRetry s;
    s_batchesProcessed s; s_batchErrors s; s_senderErrors s; s_fatalAfterCommitErrors s].
Proof.
  assert (Hw : forall z, wrap64 (z + 0) = z <-> in_int64 z).
  { intros z. rewrite Z.add_0_r. split; [intros <-; apply wrap64_in|apply wrap64_id]. }
  unfold snapshot_ok, zip_with_snapshot. destruct s; simpl. rewrite !Forall_cons, <- !Hw. split.
  - intros Heq. injection Heq as H1 H2 H3 H4 H5 H6 H7 H8 H9. split_and!; auto.
  - intros (-> & -> & -> & -> & -> & -> & -> & -> & -> & _). done.
Qed.

Lemma total_snoc deltas d :
  total (deltas ++ [d]) = zip_with_snapshot (fun a b => wrap64 (a + b)) (total deltas) d.
Proof.
  induction deltas as [|e deltas IH]; simpl.
  - unfold zip_with_snapshot. destruct d; simpl. f_equal; f_equal; lia.
  - rewrite IH. unfold zip_with_snapshot. destruct (total deltas), d, e; simpl.
    f_equal; apply wrap64_add_l.
Qed.

(** *** Counters, one by one *)

Lemma snapshot_eq a b : (forall k, counter_value k a = counter_value k b) -> a = b.
Proof.
  intros Hk. destruct a, b. f_equal; [apply (Hk SelectedCount)|apply (Hk SentCount)|apply (Hk PoisonCount)
    |apply (Hk DlqCount)|apply (Hk KeptForRetryCount)|apply (Hk BatchesProcessed)|apply (Hk BatchErrors)
    |apply (Hk SenderErrors)|apply (Hk FatalAfterCommitErrors)].
Qed.

Lemma value_zip k f a b : counter_value k (zip_with_snapshot f a b) = f (counter_value k a) (counter_value k b).
Proof. by destruct k. Qed.

Lemma value_snapshot_of k f : counter_value k (snapshot_of f) = f k.
Proof. by destruct k. Qed.

Lemma snapshot_counters s : snapshot (Some s) = counters s.
Proof. apply snapshot_eq. intros k. by destruct k. Qed.

Lemma value_do_atomic k o s :
  in_int64 (counter_value k (counters s)) ->
  counter_value k (counters (do_atomic o s)) = wrap64 (counter_value k (counters s) + amount k o).
Proof.
  intros Hs. destruct o as [k' v|g v]; unfold amount.
  - destruct (decide (k' = k)) as [->|Hne]; [by destruct k|]. rewrite Z.add_0_r, wrap64_id by done.
    by destruct k', k.
  - by rewrite Z.add_0_r, wrap64_id.
Qed.

Lemma sum_app l1 l2 : sum (l1 ++ l2) = sum l1 + sum l2.
Proof. unfold sum. induction l1 as [|x l1 IH]; simpl; [done|]. rewrite IH. lia. Qed.

Lemma sum_one {A} (f : A -> Z) (x : A) : sum (f <$> [x]) = f x.
Proof. apply Z.add_0_r. Qed.

Lemma added_app k l1 l2 : added k (l1 ++ l2) = added k l1 + added k l2.
Proof. unfold added. by rewrite fmap_app, sum_app. Qed.

Lemma added_one k o : added k [o] = amount k o.
Proof. apply sum_one. Qed.

Lemma added_slice k a b (ops : list atomic) :
  (a <= b)%nat -> added k (drop a (take b ops)) = added k (take b ops) - added k (take a ops).
Proof.
  intros Hab. rewrite <- (take_drop a (take b ops)) at 2. rewrite take_take, Nat.min_l, added_app by done. lia.
Qed.

(** The operations of a call add what the call is there to count. *)
Lemma added_call_ops k c : added k (call_ops c) = call_amount k c.
Proof. destruct c; destruct k; unfold added, sum; simpl; lia. Qed.

(** *** The invariant *)

Lemma intervals_take overlap ops o after l :
  intervals overlap ops after l -> intervals overlap (ops ++ [o]) after l /\ forall k, (after k <= length ops)%nat.
Proof.
  induction 1 as [|before after l delta Hi [IH Hb] Ha Hv Hm]; [split; [constructor|lia]|].
  split; [|done]. apply (intervals_snoc _ _ before); [done|..].
  - intros k. rewrite length_app. specialize (Ha k). lia.
  - intros k. by rewrite (take_app_le _ _ (after k)), (take_app_le _ _ (before k)).
  - intros Ho k. rewrite take_app_le by done. by apply Hm.
Qed.

Lemma intervals_bound overlap ops after l :
  intervals overlap ops after l -> forall k, (after k <= length ops)%nat.
Proof. intros Hi. by apply (intervals_take _ _ (GaugeStore BacklogFloor 0)) in Hi as [_ ?]. Qed.

(** What a reader has loaded: the counter at a moment since the last logged one, or, when calls
    overlap, at any moment. *)
Definition reader_ok (overlap : bool) (ops : list atomic) (last : counter -> nat) (x : reader) : Prop :=
  exists moment, forall k, k ∉ to_load x ->
    (moment k <= length ops)%nat /\ loaded x k = wrap64 (added k (take (moment k) ops))
    /\ (overlap = false -> (last k <= moment k)%nat).

Record loggers_ok (overlap : bool) (l : loggers) (last : counter -> nat) : Prop := {
  ok_counters : forall k, counter_value k (counters (shared l)) = wrap64 (added k (performed l));
  ok_baseline : forall k, counter_value k (lastLogged (shared l)) = wrap64 (added k (take (last k) (performed l)));
  ok_called : forall k, added k (performed l ++ running l) = sum (call_amount k <$> called l);
  ok_intervals : intervals overlap (performed l) last (logged l);
  ok_readers : map_Forall (fun _ => reader_ok overlap (performed l) last) (readers l);
  ok_single : overlap = false -> forall g g', is_Some (readers l !! g) -> is_Some (readers l !! g') -> g = g';
}.

Lemma starting_ok overlap now : loggers_ok overlap (starting now) (fun _ => 0%nat).
Proof.
  split; try (intros k; by destruct k); simpl.
  - constructor.
  - intros _ g g' [x Hx]. unfold no_readers in Hx. by rewrite lookup_empty in Hx.
Qed.

Lemma reader_ok_snoc overlap ops last o x : reader_ok overlap ops last x -> reader_ok overlap (ops ++ [o]) last x.
Proof.
  intros [m Hm]. exists m. intros k Hk. destruct (Hm k Hk) as (Hle & Hv & Hl).
  rewrite take_app_le, length_app by done. split_and!; [lia|done|done].
Qed.

Lemma value_log k current (s s' : appStats) delta :
  log_interval current s = (delta, s') ->
  counter_value k delta = wrap64 (counter_value k current - counter_value k (lastLogged s))
  /\ counters s' = counters s /\ lastLogged s' = current.
Proof. intros [= <- <-]. unfold sub. by rewrite value_zip. Qed.

Lemma wrap64_sub_wrap a b : wrap64 (wrap64 a - wrap64 b) = wrap64 (a - b).
Proof.
  unfold Z.sub at 1. rewrite wrap64_shift. unfold wrap64. f_equal.
  replace (a + - ((b + two63) mod two64 - two63) + two63) with (a + two64 - (b + two63) mod two64) by (unfold two63, two64; lia).
  rewrite Zminus_mod_idemp_r. replace (a + two64 - (b + two63)) with (a - b + two63) by (unfold two63, two64; lia). done.
Qed.

Lemma logger_step_ok overlap l l' last :
  logger_step overlap l l' -> loggers_ok overlap l last -> exists last', loggers_ok overlap l' last'.
Proof.
  intros Hs [Hc Hb Hcl Hi Hr H1]. assert (Hle := intervals_bound _ _ _ _ Hi).
  destruct Hs as [c s cs h r l|o os s cs h r l|g s cs os h r l Hg Hov|g k ks f s cs os h r l Hg|g f delta s s' cs os h r l Hg Hlog];
    simpl in *.
  - exists last. split; simpl; try done. intros k. rewrite app_nil_r in Hcl.
    by rewrite added_app, fmap_app, sum_app, Hcl, added_call_ops, sum_one.
  - exists last. split; simpl; try done.
    + intros k. rewrite value_do_atomic by (rewrite Hc; apply wrap64_in).
      by rewrite Hc, added_app, wrap64_shift, added_one.
    + intros k. rewrite take_app_le by done. rewrite <- Hb. by destruct o.
    + intros k. by rewrite <- (assoc_L (++)).
    + by apply intervals_take.
    + intros g x Hx. apply reader_ok_snoc, (Hr g x Hx).
  - exists last. split; simpl; try done.
    + apply map_Forall_insert_2; [|done]. exists (fun _ => 0%nat). intros k Hk. by destruct k; set_solver.
    + intros Ho. rewrite (Hov Ho). intros g1 g2 [x1 Hx1] [x2 Hx2].
      apply lookup_insert_Some in Hx1 as [[<- _]|[_ ?%lookup_empty_Some]]; [|done].
      by apply lookup_insert_Some in Hx2 as [[<- _]|[_ ?%lookup_empty_Some]].
  - exists last. split; simpl; try done.
    + apply map_Forall_insert_2; [|done]. destruct (Hr g _ Hg) as [m Hm]. exists (<[k := length h]> m).
      intros k' Hk'. unfold load_counter. simpl in *. destruct (decide (k = k')) as [<-|Hne].
      * rewrite !fn_lookup_insert, firstn_all. split_and!; [done|apply Hc|intros _; apply Hle].
      * rewrite !fn_lookup_insert_ne by done. apply Hm. set_solver.
    + intros Ho g1 g2 Hx1 Hx2. apply (H1 Ho); by (apply lookup_insert_is_Some' in Hx1, Hx2; naive_solver).
  - destruct (Hr g _ Hg) as [m Hm]. simpl in Hm.
    assert (Hall : forall k, (m k <= length h)%nat /\ f k = wrap64 (added k (take (m k) h))
      /\ (overlap = false -> (last k <= m k)%nat)) by (intros k; apply Hm, not_elem_of_nil).
    assert (Hv : forall k, counter_value k delta = wrap64 (added k (take (m k) h) - added k (take (last k) h))).
    { intros k. destruct (value_log k _ _ _ _ Hlog) as (-> & _). destruct (Hall k) as (_ & Hf & _).
      by rewrite value_snapshot_of, Hf, Hb, wrap64_sub_wrap. }
    exists m. split; simpl.
    + intros k. by destruct (value_log k _ _ _ _ Hlog) as (_ & -> & _).
    + intros k. destruct (value_log k _ _ _ _ Hlog) as (_ & _ & ->). rewrite value_snapshot_of. apply Hall.
    + done.
    + apply (intervals_snoc _ _ last); [done|apply Hall|done|]. intros Ho k.
      assert (Hlm := proj2 (proj2 (Hall k)) Ho). split; [done|]. by rewrite added_slice.
    + intros g' x [Hne Hx]%lookup_delete_Some. destruct overlap; [|by destruct (Hne (H1 eq_refl g g' ltac:(eauto) ltac:(eauto)))].
      destruct (Hr g' x Hx) as [m' Hm']. exists m'. intros k Hk. by destruct (Hm' k Hk) as (? & ? & _).
    + intros Ho g1 g2 Hx1 Hx2. apply (H1 Ho).
      * destruct Hx1 as [x Hx]. apply lookup_delete_Some in Hx as [_ Hx]. eauto.
      * destruct Hx2 as [x Hx]. apply lookup_delete_Some in Hx as [_ Hx]. eauto.
Qed.

Lemma loggers_reachable overlap now l :
  rtc (logger_step overlap) (starting now) l -> exists last, loggers_ok overlap l last.
Proof.
  intros Hrtc. cut (forall l1, rtc (logger_step overlap) l1 l ->
    (exists last, loggers_ok overlap l1 last) -> exists last, loggers_ok overlap l last).
  { intros Hcut. apply (Hcut _ Hrtc). eexists. apply starting_ok. }
  clear Hrtc. induction 1 as [l|l1 l2 l3 Hs _ IH]; [done|]. intros [last Hok]. apply IH. by eapply logger_step_ok.
Qed.

Lemma intervals_total overlap ops after l k :
  intervals overlap ops after l -> counter_value k (total l) = wrap64 (added k (take (after k) ops)).
Proof.
  induction 1 as [|before after l delta _ IH _ Hv _]; [by destruct k|].
  rewrite total_snoc, value_zip, IH, Hv, wrap64_shift, wrap64_shift_r. f_equal. lia.
Qed.

(** ** Properties *)

(** C39. The interval lines account for the counters, however the readers and the processing
    goroutine interleave.  What the operations add is what the calls are there to count, and each
    counter is what was added to it so far.  The logged deltas are what was added between moments,
    one for each counter and line, and add up to the last logged counters; when the calls do not
    overlap the moments only advance, so the lines are consecutive, non-overlapping intervals.  A call that
    runs alone logs exactly what was added since the last logged moment.  (With overlapping calls
    the moments can go back: [overtaken_interval_is_negative].) *)
Theorem intervalSnapshot_partitions (overlap : bool) (now : Z) (l : loggers) :
  rtc (logger_step overlap) (starting now) l ->
  let ops := performed l in
  (forall k, added k (ops ++ running l) = sum (call_amount k <$> called l))
  /\ (forall k, counter_value k (counters (shared l)) = wrap64 (added k ops))
  /\ exists moment,
       intervals overlap ops moment (logged l)
       /\ total (logged l) = lastLogged (shared l)
       /\ (forall k, counter_value k (lastLogged (shared l)) = wrap64 (added k (take (moment k) ops)))
       /\ exists delta s', intervalSnapshot (Some (shared l)) = (delta, Some s')
            /\ counters s' = counters (shared l) /\ lastLogged s' = counters (shared l)
            /\ forall k, counter_value k delta = wrap64 (added k (drop (moment k) ops)).
Proof.
  intros Hrtc. cbv zeta. destruct (loggers_reachable _ _ _ Hrtc) as [last [Hc Hb Hcl Hi _ _]].
  split_and!; [done..|]. exists last. split_and!; [done| |done|].
  - apply snapshot_eq. intros k. by rewrite (intervals_total _ _ _ _ _ Hi).
  - eexists _, _. split; [reflexivity|]. split_and!; [done|apply snapshot_counters|]. intros k.
    unfold sub. rewrite value_zip, snapshot_counters, Hc, Hb, wrap64_sub_wrap.
    rewrite <- (take_drop (last k) (performed l)) at 1. rewrite added_app. f_equal. lia.
Qed.

(** *** Runs *)

Lemma call_run overlap c s cs h r l :
  rtc (logger_step overlap) (Loggers s cs [] h r l)
    (Loggers (do_all (call_ops c) s) (cs ++ [c]) [] (h ++ call_ops c) r l).
Proof.
  eapply rtc_l; [apply (step_call _ c)|]. generalize (cs ++ [c]) as cs'. generalize (call_ops c) as os. intros os cs'.
  revert s h. induction os as [|o os IH]; intros s h; [rewrite app_nil_r; apply rtc_refl|].
  eapply rtc_l; [apply step_atomic|]. rewrite (app_assoc h [o] os : h ++ o :: os = (h ++ [o]) ++ os). apply IH.
Qed.

Lemma read_run overlap g s cs os h r l :
  r !! g = None -> (overlap = false -> r = ∅) ->
  exists f, rtc (logger_step overlap) (Loggers s cs os h r l) (Loggers s cs os h (<[g := Reader [] f]> r) l)
    /\ snapshot_of f = counters s.
Proof.
  intros Hg Ho. exists (foldl (fun loaded k => load_counter k s loaded) nothing_loaded snapshot_loads).
  split; [|apply snapshot_counters]. eapply rtc_l; [by apply (step_start _ g)|].
  generalize nothing_loaded as f. generalize snapshot_loads as ks. intros ks.
  induction ks as [|k ks IH]; intros f; [apply rtc_refl|].
  eapply rtc_l; [apply (step_load _ g), lookup_insert_eq|]. rewrite insert_insert_eq. apply IH.
Qed.

Lemma interval_run overlap s cs os h l :
  let '(delta, s') := log_interval (counters s) s in
  rtc (logger_step overlap) (Loggers s cs os h no_readers l) (Loggers s' cs os h no_readers (l ++ [delta])).
Proof.
  destruct (log_interval (counters s) s) as [delta s'] eqn:Hlog.
  destruct (read_run overlap 0 s cs os h no_readers l) as (f & Hr & Hf); [done|done|].
  etrans; [exact Hr|]. eapply rtc_l; [apply (step_log _ 0 f); [apply lookup_insert_eq|by rewrite Hf]|].
  rewrite delete_insert_id by done. apply rtc_refl.
Qed.

Definition one_batch : batchStats := BatchStats 3 2 1 0 0 0 0 0 0 0.

Definition one_call : stats_call := CallCommitted one_batch 5.

Definition after_batch : appStats := do_all (call_ops one_call) (newAppStats 0).

Definition flushed : appStats := (log_interval (counters after_batch) after_batch).2.

Definition logged_once : loggers :=
  Loggers flushed [one_call] [] (call_ops one_call) no_readers [(log_interval (counters after_batch) after_batch).1].

(** A batch, and a line that logs it. *)
Lemma intervalSnapshot_partitions_witness :
  total (logged logged_once) = lastLogged (shared logged_once)
  /\ s_sent (total (logged logged_once)) = 2
  /\ exists moment, intervals false (performed logged_once) moment (logged logged_once).
Proof.
  assert (Hrun : rtc (logger_step false) (starting 0) logged_once).
  { etrans; [apply (call_run false one_call)|]. exact (interval_run false after_batch [one_call] [] (call_ops one_call) []). }
  destruct (intervalSnapshot_partitions false 0 logged_once Hrun) as (_ & _ & moment & Hi & Ht & _).
  split_and!; [exact Ht|vm_compute; reflexivity|by exists moment].
Defined.

(** The counters are loaded before the mutex is taken, so a call that was overtaken by another logs
    a negative interval and moves the baseline back: here the ticker loads the counters before a
    batch is committed, and logs after the flush at shutdown, which had logged that batch. *)
Lemma overtaken_interval_is_negative :
  exists l, rtc (logger_step true) (starting 0) l
    /\ s_selected <$> logged l = [3; -3]
    /\ s_selected (total (logged l)) = 0 /\ s_selected (counters (shared l)) = 3.
Proof.
  destruct (read_run true 1 (newAppStats 0) [] [] [] no_readers []) as (f1 & Hr1 & Hf1); [done|done|].
  destruct (read_run true 2 after_batch [one_call] [] (call_ops one_call)
    (<[1%nat := Reader [] f1]> no_readers) []) as (f2 & Hr2 & Hf2); [done|done|].
  eexists. split.
  - etrans; [exact Hr1|]. etrans; [apply (call_run true one_call)|]. etrans; [exact Hr2|].
    eapply rtc_l; [apply (step_log _ 2 f2 (log_interval (counters after_batch) after_batch).1 after_batch flushed);
      [apply lookup_insert_eq|by rewrite Hf2]|].
    apply rtc_once, (step_log _ 1 f1 (log_interval zero_snapshot flushed).1 flushed (log_interval zero_snapshot flushed).2);
      [by rewrite lookup_delete_ne, lookup_insert_ne, lookup_insert_eq|by rewrite Hf1].
  - split_and!; vm_compute; reflexivity.
Qed.
