(* ===== verification/FailureLogger.v ===== *)
(** * The rate-limited failure log ([failure_logger.go])

    One entry per failure signature: when it may be logged again, and how many failures were
    suppressed since.  The clock is an argument of each call. *)
From S2P Require Import Prelude Config.
Local Open Scope Z_scope.

Definition failureLogWindow : Z := minute.

Record failureLogEntry := FailureLogEntry { nextLogAt : Z; suppressed : Z }.

Record failureLogger := FailureLogger { window : Z; entries : gmap string failureLogEntry }.

Definition newFailureLogger (window : Z) : failureLogger :=
  FailureLogger (if bool_decide (window <= 0) then failureLogWindow else window) ∅.

Definition shouldLog (signature : string) (now : Z) (l : failureLogger) : (bool * Z) * failureLogger :=
  match entries l !! signature with
  | None =>
      ((true, 0), FailureLogger (window l) (<[signature := FailureLogEntry (now + window l) 0]> (entries l)))
  | Some entry =>
      if bool_decide (now < nextLogAt entry) then
        ((false, 0),
         FailureLogger (window l)
           (<[signature := FailureLogEntry (nextLogAt entry) (wrap64 (suppressed entry + 1))]> (entries l)))
      else
        ((true, suppressed entry),
         FailureLogger (window l) (<[signature := FailureLogEntry (now + window l) 0]> (entries l)))
  end.

(** A printed line: the message, and the value of [suppressed_count] when there is one. *)
Definition line : Type := string * option Z.

Definition log (message signature : string) (now : Z) (l : failureLogger) : list line * failureLogger :=
  let '((ok, suppressed), l') := shouldLog signature now l in
  (if ok : bool then [(message, if bool_decide (0 < suppressed) then Some suppressed else None)] else [], l').

(** [logFailure] of the app: nothing once the context is cancelled; without a logger every
    failure is printed. *)
Definition logFailure (cancelled : bool) (message signature : string) (now : Z)
    (l : option failureLogger) : list line * option failureLogger :=
  if cancelled then ([], l)
  else match l with
       | None => ([(message, None)], None)
       | Some l => let '(lines, l') := log message signature now l in (lines, Some l')
       end.

(** ** Runs of the logger: each call with what [shouldLog] answered *)

Record call := Call { at_ : Z; sig : string; ok : bool; reported : Z }.

Fixpoint run_calls (l : failureLogger) (past : list call) (calls : list (Z * string)) : list call * failureLogger :=
  match calls with
  | [] => (past, l)
  | (now, signature) :: calls =>
      let '((ok, n), l') := shouldLog signature now l in
      run_calls l' (past ++ [Call now signature ok n]) calls
  end.

Definition of_sig (s : string) (past : list call) : list call := filter (fun c => sig c = s) past.

Definition sum_reported (past : list call) : Z := foldr (fun c n => reported c + n) 0 past.

Definition logged_of (s : string) (past : list call) : list call :=
  filter (fun c => ok c = true) (of_sig s past).

Record tracks (l : failureLogger) (past : list call) : Prop := {
  tracks_window : 0 < window l;
  tracks_logged : forall c, c ∈ past -> ok c = true ->
    exists e, entries l !! sig c = Some e /\ at_ c + window l <= nextLogAt e;
  tracks_entry : forall s e, entries l !! s = Some e ->
    exists c, c ∈ past /\ sig c = s /\ ok c = true /\ nextLogAt e = at_ c + window l;
  tracks_count : forall s, Z.of_nat (length past) < 2 ^ 63 ->
    let pending := default 0 (suppressed <$> entries l !! s) in
    0 <= pending <= Z.of_nat (length past)
    /\ Z.of_nat (length (of_sig s past))
       = Z.of_nat (length (logged_of s past)) + sum_reported (logged_of s past) + pending;
}.

Lemma sum_reported_app a b : sum_reported (a ++ b) = sum_reported a + sum_reported b.
Proof. induction a as [|c a IH]; simpl; [done|]. rewrite IH. lia. Qed.

Lemma of_sig_snoc s past c : of_sig s (past ++ [c]) = of_sig s past ++ if decide (sig c = s) then [c] else [].
Proof. unfold of_sig. rewrite filter_app, filter_cons, filter_nil. done. Qed.

Lemma logged_of_snoc s past c :
  logged_of s (past ++ [c])
  = logged_of s past ++ if decide (sig c = s /\ ok c = true) then [c] else [].
Proof.
  unfold logged_of. rewrite of_sig_snoc, filter_app. f_equal.
  destruct (decide (sig c = s)); simpl.
  - rewrite filter_cons, filter_nil. destruct (decide (ok c = true)), (decide _); try done; tauto.
  - rewrite filter_nil. by rewrite decide_False by tauto.
Qed.

Lemma tracks_new w : tracks (newFailureLogger w) [].
Proof.
  split; simpl.
  - case_bool_decide; unfold failureLogWindow, minute; lia.
  - by intros c ?%elem_of_nil.
  - intros s e He. by rewrite lookup_empty in He.
  - intros s _. rewrite lookup_empty. simpl. lia.
Qed.

(** A failure is logged exactly when no failure of its signature was logged within the window. *)
Lemma shouldLog_answer l past signature now ok' n l' :
  tracks l past -> shouldLog signature now l = ((ok', n), l') ->
  ok' = true <-> forall c, c ∈ past -> sig c = signature -> ok c = true -> at_ c + window l <= now.
Proof.
  intros [Hw Hlog Hent Hcnt] Hs. unfold shouldLog in Hs.
  destruct (entries l !! signature) as [e|] eqn:He.
  - destruct (Hent _ _ He) as (c0 & Hc0 & Hs0 & Hok0 & Hn0). case_bool_decide as Hlt;
      injection Hs as <- <- <-.
    + split; [done|]. intros Hall. specialize (Hall c0 Hc0 Hs0 Hok0). lia.
    + split; [|done]. intros _ c Hc <- Hokc.
      destruct (Hlog c Hc Hokc) as (e' & He' & Hle). simplify_eq. lia.
  - injection Hs as <- <- <-. split; [|done].
    intros _ c Hc <- Hokc. destruct (Hlog c Hc Hokc) as (e' & He' & _). congruence.
Qed.

(** What a logged and a suppressed call do to the entries. *)
Lemma tracks_log l past s now n :
  tracks l past ->
  n = default 0 (suppressed <$> entries l !! s) ->
  (forall e, entries l !! s = Some e -> nextLogAt e <= now) ->
  tracks (FailureLogger (window l) (<[s := FailureLogEntry (now + window l) 0]> (entries l)))
    (past ++ [Call now s true n]).
Proof.
  intros [Hw Hlog Hent Hcnt] -> Hle. split; simpl.
  - done.
  - intros c [Hc| ->%list_elem_of_singleton]%elem_of_app Hok; simpl.
    + destruct (Hlog c Hc Hok) as (e & He & Hn). destruct (decide (sig c = s)) as [<-|Hne].
      * rewrite lookup_insert_eq. eexists. split; [done|]. simpl. specialize (Hle e He). lia.
      * rewrite lookup_insert_ne by done. eauto.
    + rewrite lookup_insert_eq. eexists. split; [done|]. simpl. lia.
  - intros s' e He. destruct (decide (s' = s)) as [->|Hne].
    + rewrite lookup_insert_eq in He. simplify_eq. eexists. split; [apply elem_of_app; right; by apply list_elem_of_singleton|done].
    + rewrite lookup_insert_ne in He by done. destruct (Hent s' e He) as (c & Hc & Hrest).
      exists c. split; [set_solver|done].
  - intros s' Hb. rewrite length_app in Hb |- *. simpl in Hb |- *.
    destruct (Hcnt s') as [Hp Hc]; [lia|]. rewrite of_sig_snoc, logged_of_snoc, !length_app, sum_reported_app.
    simpl. destruct (decide (s = s')) as [->|Hne].
    + rewrite lookup_insert_eq, decide_True by done. simpl. lia.
    + rewrite lookup_insert_ne, decide_False by tauto. simpl. lia.
Qed.

Lemma tracks_suppress l past s now e :
  tracks l past -> entries l !! s = Some e ->
  tracks (FailureLogger (window l)
      (<[s := FailureLogEntry (nextLogAt e) (wrap64 (suppressed e + 1))]> (entries l)))
    (past ++ [Call now s false 0]).
Proof.
  intros [Hw Hlog Hent Hcnt] He. split; simpl.
  - done.
  - intros c [Hc| ->%list_elem_of_singleton]%elem_of_app Hok; simpl; [|done].
    destruct (Hlog c Hc Hok) as (e' & He' & Hn). destruct (decide (sig c = s)) as [<-|Hne].
    + rewrite lookup_insert_eq. eexists. split; [done|]. simpl. by simplify_eq.
    + rewrite lookup_insert_ne by done. eauto.
  - intros s' e' He'. destruct (decide (s' = s)) as [->|Hne].
    + rewrite lookup_insert_eq in He'. simplify_eq. destruct (Hent s e He) as (c & Hc & Hrest).
      exists c. split; [set_solver|done].
    + rewrite lookup_insert_ne in He' by done. destruct (Hent s' e' He') as (c & Hc & Hrest).
      exists c. split; [set_solver|done].
  - intros s' Hb. rewrite length_app in Hb |- *. simpl in Hb |- *.
    destruct (Hcnt s') as [Hp Hc]; [lia|]. rewrite of_sig_snoc, logged_of_snoc, !length_app, sum_reported_app.
    simpl. rewrite (decide_False (P := _ /\ _)) by (intros [_ ?]; done).
    destruct (decide (s = s')) as [->|Hne].
    + rewrite lookup_insert_eq. rewrite He in Hp, Hc. simpl in *.
      rewrite wrap64_id by (unfold in_int64, min_int64, max_int64; lia). lia.
    + rewrite lookup_insert_ne by done. simpl. lia.
Qed.

Lemma shouldLog_tracks l past signature now ok' n l' :
  tracks l past -> shouldLog signature now l = ((ok', n), l') ->
  window l' = window l /\ tracks l' (past ++ [Call now signature ok' n]).
Proof.
  intros Ht Hs. unfold shouldLog in Hs. destruct (entries l !! signature) as [e|] eqn:He;
    [case_bool_decide as Hlt|]; injection Hs as <- <- <-; (split; [done|]).
  - by apply tracks_suppress.
  - apply tracks_log; [done|by rewrite He|]. intros e' He'. simplify_eq. lia.
  - apply tracks_log; [done|by rewrite He|]. intros e' He'. congruence.
Qed.

Lemma run_calls_tracks calls l past past' l' :
  run_calls l past calls = (past', l') -> tracks l past ->
  window l' = window l /\ tracks l' past'.
Proof.
  revert l past. induction calls as [|[now s] calls IH]; intros l past Hrun Ht; simpl in Hrun.
  { by injection Hrun as <- <-. }
  destruct (shouldLog s now l) as [[ok' n] l1] eqn:Hs.
  destruct (shouldLog_tracks _ _ _ _ _ _ _ Ht Hs) as [Hw Ht1].
  destruct (IH _ _ Hrun Ht1) as [Hw' Ht']. split; [congruence|done].
Qed.

(** ** Properties *)

(** C40. After any calls, a failure is logged exactly when every logged failure of its signature is
    at least the window old; and for every signature, the calls are those logged, those the
    logged lines report as suppressed, and those still to be reported. *)
Theorem failure_log_rate_limited (w now : Z) (calls : list (Z * string)) (past : list call)
    (l : failureLogger) (signature : string) :
  run_calls (newFailureLogger w) [] calls = (past, l) ->
  ((shouldLog signature now l).1.1 = true
     <-> forall c, c ∈ past -> sig c = signature -> ok c = true ->
           at_ c + window (newFailureLogger w) <= now)
  /\ (Z.of_nat (length past) < 2 ^ 63 ->
      Z.of_nat (length (of_sig signature past))
      = Z.of_nat (length (logged_of signature past)) + sum_reported (logged_of signature past)
        + default 0 (suppressed <$> entries l !! signature)).
Proof.
  intros Hrun. destruct (run_calls_tracks _ _ _ _ _ Hrun (tracks_new w)) as [Hw Ht]. split.
  - rewrite <- Hw. destruct (shouldLog signature now l) as [[ok' n] l'] eqn:Hs.
    by apply (shouldLog_answer _ _ _ _ _ _ _ Ht Hs).
  - intros Hb. by apply (tracks_count _ _ Ht signature Hb).
Qed.

Lemma failure_log_rate_limited_witness :
  let calls := [(0, "a"); (5, "a"); (7, "b"); (9, "a"); (12, "a")] in
  ok <$> (run_calls (newFailureLogger 10) [] calls).1 = [true; false; true; false; true]
  /\ reported <$> (run_calls (newFailureLogger 10) [] calls).1 = [0; 0; 0; 0; 2]
  /\ (shouldLog "a" 22 (run_calls (newFailureLogger 10) [] calls).2).1.1 = true.
Proof.
  split_and!; [reflexivity..|].
  eapply (failure_log_rate_limited 10 22 [(0, "a"); (5, "a"); (7, "b"); (9, "a"); (12, "a")]);
    [vm_compute; reflexivity|].
  intros c Hc _ _. vm_compute in Hc.
  repeat (apply elem_of_cons in Hc as [->|Hc]; [vm_compute; discriminate|]).
  by apply elem_of_nil in Hc.
Defined.
