(* ===== verification/Watchdog.v ===== *)
(** * The watchdog ([watchdog.go])

    A counter that the processing loop bumps and a goroutine that compares it at every tick.  The
    counter is an atomic [int64]; the goroutine reads it once per tick.  A label is one atomic
    step of the program: a bump, the goroutine's first read, a tick it receives, the close of
    [done], and the receive on [done].  When a tick and [done] are both ready, [select] may take
    either. *)
From S2P Require Import Prelude.
Local Open Scope Z_scope.

Inductive goroutine_state := Starting | Watching (previous : Z) | Returned.

#[export] Instance goroutine_state_eq_dec : EqDecision goroutine_state.
Proof. solve_decision. Defined.

Record watchdog := Watchdog {
  progress : Z;
  goroutine : goroutine_state;
  done_closed : bool;
  stalls : nat;                                  (* calls of [onStall] *)
}.

Inductive label := MarkProgress | FirstLoad | Tick | CloseDone | ReceiveDone.

#[export] Instance label_eq_dec : EqDecision label.
Proof. solve_decision. Defined.

(** [w.progress.Add(1)] *)
Definition mark (w : watchdog) : watchdog :=
  Watchdog (wrap64 (progress w + 1)) (goroutine w) (done_closed w) (stalls w).

(** [start]: the goroutine has been launched and has not run yet. *)
Definition start (progress : Z) : watchdog := Watchdog progress Starting false 0.

(** The branch of a tick. *)
Definition tick (previous : Z) (w : watchdog) : watchdog :=
  let current := progress w in
  if bool_decide (current = previous)
  then Watchdog (progress w) Returned (done_closed w) (S (stalls w))
  else Watchdog (progress w) (Watching current) (done_closed w) (stalls w).

(** One step; [None] when it cannot be taken.  Closing [done] twice would panic. *)
Definition watchdog_step (w : watchdog) (l : label) : option watchdog :=
  match l, goroutine w with
  | MarkProgress, _ => Some (mark w)
  | FirstLoad, Starting => Some (Watchdog (progress w) (Watching (progress w)) (done_closed w) (stalls w))
  | Tick, Watching previous => Some (tick previous w)
  | CloseDone, g => if done_closed w then None else Some (Watchdog (progress w) g true (stalls w))
  | ReceiveDone, Watching _ =>
      if done_closed w then Some (Watchdog (progress w) Returned true (stalls w)) else None
  | _, _ => None
  end.

Fixpoint watchdog_run (w : watchdog) (ls : list label) : option watchdog :=
  match ls with
  | [] => Some w
  | l :: ls => match watchdog_step w l with Some w => watchdog_run w ls | None => None end
  end.

(** ** Invariant *)

Record watchdog_ok (w : watchdog) : Prop := {
  wo_counter : in_int64 (progress w);
  wo_previous : forall previous, goroutine w = Watching previous -> in_int64 previous;
  wo_stalls : (stalls w <= 1)%nat;
  wo_returned : stalls w = 1%nat -> goroutine w = Returned;
}.

Lemma start_ok z : in_int64 z -> watchdog_ok (start z).
Proof. intros Hz. split; simpl; [done|done|lia|lia]. Qed.

Lemma tick_ok previous w : watchdog_ok w -> goroutine w = Watching previous -> watchdog_ok (tick previous w).
Proof.
  intros [Hc Hp Hs Hr] Hg. assert (stalls w <> 1%nat) as Hn by (intros H1; by rewrite Hr in Hg).
  unfold tick. case_bool_decide; split; simpl; auto; try lia; naive_solver.
Qed.

Lemma step_ok w l w' : watchdog_ok w -> watchdog_step w l = Some w' -> watchdog_ok w'.
Proof.
  intros Hw Hl. pose proof Hw as [Hc Hp Hs Hr]. unfold watchdog_step in Hl.
  destruct l; repeat case_match; simplify_eq/=; try by apply tick_ok.
  all: split; simpl; auto using wrap64_in; try (by intros; simplify_eq); naive_solver.
Qed.

Lemma run_ok w ls w' : watchdog_ok w -> watchdog_run w ls = Some w' -> watchdog_ok w'.
Proof.
  revert w. induction ls as [|l ls IH]; intros w Hw; simpl; [by intros [= <-]|].
  destruct (watchdog_step w l) eqn:Hl; [|done]. apply IH. by eapply step_ok.
Qed.

Lemma run_app w a b :
  watchdog_run w (a ++ b) = match watchdog_run w a with Some w' => watchdog_run w' b | None => None end.
Proof.
  revert w. induction a as [|l a IH]; intros w; simpl; [done|]. by destruct (watchdog_step w l).
Qed.

(** ** Counting bumps *)

Lemma run_marks w n :
  in_int64 (progress w) ->
  watchdog_run w (replicate n MarkProgress)
  = Some (Watchdog (wrap64 (progress w + Z.of_nat n)) (goroutine w) (done_closed w) (stalls w)).
Proof.
  revert w. induction n as [|n IH]; intros w Hw; simpl.
  - rewrite Z.add_0_r, wrap64_id by done. by destruct w.
  - rewrite IH by apply wrap64_in. unfold mark; simpl. do 2 f_equal.
    unfold wrap64. f_equal.
    replace ((progress w + 1 + two63) mod two64 - two63 + Z.of_nat n + two63)
      with ((progress w + 1 + two63) mod two64 + Z.of_nat n) by lia.
    rewrite Zplus_mod_idemp_l. f_equal. lia.
Qed.

Lemma wrap64_add_same z n : in_int64 z -> wrap64 (z + n) = z <-> n mod two64 = 0.
Proof.
  unfold in_int64, min_int64, max_int64, wrap64, two63, two64. intros Hz.
  pose proof (Z.mod_pos_bound n 18446744073709551616 eq_refl).
  replace (z + n + 9223372036854775808) with ((z + 9223372036854775808) + n) by lia.
  rewrite <- (Zplus_mod_idemp_r n (z + 9223372036854775808)).
  set (k := n mod 18446744073709551616) in *.
  destruct (Z_lt_ge_dec (z + 9223372036854775808 + k) 18446744073709551616).
  - rewrite Z.mod_small by lia. lia.
  - rewrite <- (Z.mod_unique (z + 9223372036854775808 + k) 18446744073709551616 1
      (z + 9223372036854775808 + k - 18446744073709551616)) by lia. lia.
Qed.

(** After its first read and after a tick that found progress, the goroutine holds the counter. *)
Lemma fresh_after_read w l w' :
  watchdog_step w l = Some w' -> l = FirstLoad \/ l = Tick -> goroutine w' <> Returned ->
  goroutine w' = Watching (progress w').
Proof.
  intros Hs [-> | ->] Hr; unfold watchdog_step in Hs; destruct (goroutine w) as [|previous|]; try done.
  - by simplify_eq.
  - injection Hs as <-. unfold tick in *. by case_bool_decide.
Qed.

(** ** Termination: steps of the goroutine that are left when nothing bumps the counter *)

Definition is_goroutine_step (l : label) : bool :=
  match l with FirstLoad | Tick | ReceiveDone => true | _ => false end.

Definition steps_left (w : watchdog) : nat :=
  match goroutine w with
  | Starting => 2
  | Watching previous => if bool_decide (progress w = previous) then 1 else 2
  | Returned => 0
  end.

Lemma steps_left_tick previous w :
  goroutine w = Watching previous -> (steps_left (tick previous w) + 1 <= steps_left w)%nat.
Proof.
  intros Hg. unfold steps_left at 2, tick. rewrite Hg.
  case_bool_decide; unfold steps_left; simpl; [lia|]. rewrite bool_decide_eq_true_2 by done. lia.
Qed.

Lemma steps_left_decreases w l w' :
  l <> MarkProgress -> watchdog_step w l = Some w' ->
  (steps_left w' + (if is_goroutine_step l then 1 else 0) <= steps_left w)%nat.
Proof.
  intros Hl Hs. unfold watchdog_step in Hs. destruct l; try done; simpl; repeat case_match; simplify_eq/=;
    try by apply steps_left_tick.
  all: unfold steps_left; simpl; repeat case_match; try lia; try done.
  all: rewrite bool_decide_eq_true_2 in * by done; lia || done.
Qed.

Lemma run_steps_left w ls w' :
  MarkProgress ∉ ls -> watchdog_run w ls = Some w' ->
  (steps_left w' + length (filter (fun l => is_goroutine_step l = true) ls) <= steps_left w)%nat.
Proof.
  revert w. induction ls as [|l ls IH]; intros w Hm; simpl; [intros [= <-]; lia|].
  destruct (watchdog_step w l) as [w1|] eqn:Hl; [|done]. intros Hr.
  apply steps_left_decreases in Hl; [|set_solver]. apply IH in Hr; [|set_solver].
  rewrite filter_cons. case_decide as Hg; simpl; [rewrite Hg in Hl; lia|].
  destruct (is_goroutine_step l); [done|lia].
Qed.

(** ** Property *)

(** C29. The watchdog calls [onStall] at most once and then never runs again; a tick calls it exactly
    when the number of bumps since the goroutine's previous read is a multiple of 2^64, none in
    particular; and it ends: once nothing bumps the counter, the goroutine takes at most two more
    steps whatever else happens, and until it has returned it can take one. *)
Theorem watchdog_ends_on_stall (z : Z) (ls : list label) (w : watchdog) :
  in_int64 z -> watchdog_run (start z) ls = Some w ->
  ((stalls w <= 1)%nat /\ (stalls w = 1%nat -> goroutine w = Returned))
  /\ (forall l rest, ls = rest ++ [l] -> l = FirstLoad \/ l = Tick -> goroutine w <> Returned ->
        forall n w', watchdog_run w (replicate n MarkProgress ++ [Tick]) = Some w' ->
          (stalls w' = 1%nat <-> Z.of_nat n mod two64 = 0))
  /\ (forall quiet w', MarkProgress ∉ quiet -> watchdog_run w quiet = Some w' ->
        (length (filter (fun l => is_goroutine_step l = true) quiet) <= 2)%nat
        /\ (goroutine w' = Returned \/ exists l, is_goroutine_step l = true /\ is_Some (watchdog_step w' l))).
Proof.
  intros Hz Hrun. pose proof (run_ok _ _ _ (start_ok z Hz) Hrun) as [Hc Hp Hs Hr]. split_and!; [done|done| |].
  - intros l rest -> Hl Hg n w'. rewrite run_app in Hrun.
    destruct (watchdog_run (start z) rest) as [w0|]; [|done]. simpl in Hrun.
    destruct (watchdog_step w0 l) as [w1|] eqn:Hstep; [|done]. injection Hrun as ->.
    apply fresh_after_read in Hstep; [|done..].
    rewrite run_app, run_marks by done. simpl. rewrite Hstep. intros [= <-]. unfold tick; simpl.
    assert (stalls w = 0%nat) as Hs0 by (destruct (stalls w) as [|[|]]; [done|by rewrite Hr in Hstep|lia]).
    rewrite Hs0, <- (wrap64_add_same (progress w)) by done. case_bool_decide; simpl; split; try done; lia.
  - intros quiet w' Hm Hq. apply run_steps_left in Hq as Hle; [|done]. split.
    + assert (steps_left w <= 2)%nat; [|lia]. unfold steps_left. destruct (goroutine w); try lia.
      case_bool_decide; lia.
    + destruct (goroutine w') as [|previous|] eqn:Hg; [right|right|by left].
      * exists FirstLoad. unfold watchdog_step. rewrite Hg. eauto.
      * exists Tick. unfold watchdog_step. rewrite Hg. eauto.
Qed.

Lemma watchdog_ends_on_stall_witness :
  exists w, watchdog_run (start 0) [FirstLoad; MarkProgress; Tick] = Some w
    /\ (forall n w', watchdog_run w (replicate n MarkProgress ++ [Tick]) = Some w' ->
          (stalls w' = 1%nat <-> Z.of_nat n mod two64 = 0))
    /\ (stalls <$> watchdog_run w [Tick]) = Some 1%nat.
Proof.
  eexists. split; [reflexivity|]. split; [|reflexivity].
  eapply (proj1 (proj2 (watchdog_ends_on_stall 0 [FirstLoad; MarkProgress; Tick] _ _ eq_refl)) Tick
    [FirstLoad; MarkProgress]); [done|by right|done].
  Unshelve. unfold in_int64, min_int64, max_int64; lia.
Defined.
