(* ===== verification/Metrics.v ===== *)
(** * The metrics endpoint ([metrics.go])

    The exposition text [writeMetrics] produces, with the float arithmetic of [formatSeconds]
    written out: conversion of an [int64] to [float64], the division by 1000, and the decimal with
    three digits, each rounded to nearest, ties to even.  A reader of the format gets back the
    counters and gauges. *)
From S2P Require Import Prelude GoErrors Config Strconv Stats.
Local Open Scope Z_scope.

(** ** [float64] *)

(** The integer nearest to [num / den], ties to even. *)
Definition round_half_even (num den : Z) : Z :=
  let q := num / den in
  let r := num mod den in
  if 2 * r <? den then q
  else if den <? 2 * r then q + 1
  else if Z.even q then q else q + 1.

(** A positive finite [float64]: mantissa and exponent. *)
Record float := Float { mantissa : Z; exponent : Z }.

(** [num / den] scaled by [2^-e], as a fraction of integers. *)
Definition scale (num den e : Z) : Z * Z :=
  if 0 <=? e then (num, den * 2 ^ e) else (num * 2 ^ (- e), den).

(** The [float64] nearest to a positive fraction; its exponent is chosen such that the mantissa
    has 53 bits.  The fractions of this file are far from the ends of the range. *)
Definition float_of (num den : Z) : float :=
  let e0 := Z.log2 num - Z.log2 den - 52 in
  let '(n0, d0) := scale num den e0 in
  let e := if n0 / d0 <? 2 ^ 52 then e0 - 1 else e0 in
  let '(n, d) := scale num den e in
  Float (round_half_even n d) e.

(** A float as a fraction. *)
Definition fraction (f : float) : Z * Z :=
  if 0 <=? exponent f then (mantissa f * 2 ^ exponent f, 1) else (mantissa f, 2 ^ (- exponent f)).

Definition float_of_int (z : Z) : float := float_of z 1.

Definition float_div (f : float) (by_ : Z) : float := let '(n, d) := fraction f in float_of n (d * by_).

(** ** [strconv.FormatFloat(x, 'f', 3, 64)] of a non-negative float *)

Definition digit (d : Z) : string := one_byte (48 + d).

Definition three_digits (n : Z) : string := digit (n / 100) +:+ digit (n / 10 mod 10) +:+ digit (n mod 10).

(** A number of thousandths in decimal. *)
Definition decimal3 (n : Z) : string := pretty (n / 1000) +:+ "." +:+ three_digits (n mod 1000).

Definition FormatFloat3 (f : float) : string :=
  let '(n, d) := fraction f in decimal3 (round_half_even (n * 1000) d).

Definition formatSeconds (millis : Z) : string :=
  if millis =? 0 then decimal3 0
  else if 0 <? millis then FormatFloat3 (float_div (float_of_int millis) 1000)
  else "-" +:+ FormatFloat3 (float_div (float_of_int (- millis)) 1000).

(** ** The exposition *)

Definition writeMetric (name help metricType value : string) : string :=
  "# HELP " +:+ name +:+ " " +:+ help +:+ nl +:+ "# TYPE " +:+ name +:+ " " +:+ metricType +:+ nl
  +:+ name +:+ " " +:+ value +:+ nl.

Definition writeCounter (name help : string) (value : Z) : string :=
  writeMetric name help "counter" (pretty value).

Definition writeGauge (name help value : string) : string := writeMetric name help "gauge" value.

(** The text of the writes one after the other. *)
Definition writeAll (writes : list string) : string := foldr String.append "" writes.

Definition writeMetrics (cfg : appConfig) (stats : appStats) : string :=
  let snapshot := snapshot (Some stats) in
  writeAll [
    writeCounter "outboxer_events_selected_total"
      "Events selected from the outbox table by committed batches."
      (s_selected snapshot);
    writeCounter "outboxer_events_sent_total"
      "Events confirmed by a publishing provider and deleted."
      (s_sent snapshot);
    writeCounter "outboxer_events_poison_total"
      "Poison events deleted without a dead-letter table."
      (s_poison snapshot);
    writeCounter "outboxer_events_dlq_total"
      "Poison events written to the dead-letter table."
      (s_dlq snapshot);
    writeCounter "outboxer_events_kept_for_retry_total"
      "Events left pending after their batch, summed per batch: one event retried across N batches counts N times."
      (s_keptForRetry snapshot);
    writeCounter "outboxer_batches_processed_total"
      "Batches committed, including empty ones."
      (s_batchesProcessed snapshot);
    writeCounter "outboxer_batch_errors_total"
      "Batches that failed on a database error and rolled back."
      (s_batchErrors snapshot);
    writeCounter "outboxer_sender_errors_total"
      "Errors returned by publishing providers; the affected events stay pending."
      (s_senderErrors snapshot);
    writeCounter "outboxer_fatal_after_commit_errors_total"
      "Fatal sender errors that stop the relay after committing completed work."
      (s_fatalAfterCommitErrors snapshot);

    writeGauge "outboxer_collect_batch_target"
      "Configured COLLECT_BATCH_TARGET; the last batch is saturated when it selected this many events."
      (pretty (CollectBatchTarget cfg));
    writeGauge "outboxer_last_batch_selected_events"
      "Events selected by the most recent committed batch."
      (pretty (lastBatchSelected stats));
    writeGauge "outboxer_events_pending_retry"
      "Events that failed to send in the most recent committed batch and remain pending."
      (pretty (lastBatchKeptForRetry stats));
    (if bool_decide (EventTimestamp cfg <> "")
     then writeGauge "outboxer_oldest_event_age_seconds"
            "Age of the oldest event selected by the most recent committed batch; 0 when the outbox was empty. This is the outbox lag."
            (formatSeconds (oldestEventAgeMillis stats))
     else "");
    writeGauge "outboxer_last_batch_db_seconds"
      "Database time (select, dead-letter insert, delete) of the most recent committed batch."
      (formatSeconds (lastBatchDBMillis stats));
    writeGauge "outboxer_last_batch_publish_seconds"
      "Provider publish time of the most recent committed batch."
      (formatSeconds (lastBatchPublishMillis stats));
    writeGauge "outboxer_backlog_events"
      "This relay's pending events after the last committed batch: exact when the batch drained every route, otherwise the bounded probe's count."
      (pretty (backlogEvents stats));
    writeGauge "outboxer_backlog_floor"
      "1 when outboxer_backlog_events is only a lower bound (probe hit its scan cap or no batch committed yet)."
      (pretty (backlogFloor stats));
    writeGauge "outboxer_last_successful_batch_timestamp_seconds"
      "Unix time of the last committed batch (startup time until the first one)."
      (formatSeconds (lastSuccessUnixMilli stats))
  ].

(** The handler: the content type and the body. *)
Definition handleMetrics (cfg : appConfig) (stats : appStats) : string * string :=
  ("text/plain; version=0.0.4; charset=utf-8", writeMetrics cfg stats).

(** ** A reader of the format *)

Record sample := Sample { metric : string; help_text : string; metric_type : string; thousandths : Z }.

(** A decimal number, in thousandths: an integer, or an integer part and three digits. *)
Definition read_unsigned (s : string) : option Z :=
  let '(whole, part, found) := strings_Cut s "." in
  match ParseUint whole 10 64 with
  | inl _ => None
  | inr w =>
      if found then
        if bool_decide (String.length part = 3%nat)
        then match ParseUint part 10 64 with inr p => Some (w * 1000 + p) | inl _ => None end
        else None
      else Some (w * 1000)
  end.

Definition read_decimal (s : string) : option Z :=
  match s with
  | String c rest => if ascii_eqb c "-" then Z.opp <$> read_unsigned rest else read_unsigned s
  | EmptyString => None
  end.

Definition strip (prefix s : string) : option string :=
  if String.prefix prefix s then Some (string_drop (String.length prefix) s) else None.

Fixpoint read_lines (lines : list string) : option (list sample) :=
  match lines with
  | help :: type :: value :: rest =>
      match strip "# HELP " help, strip "# TYPE " type with
      | Some help, Some type =>
          let '(name, text, _) := strings_Cut help " " in
          let '(name', kind, _) := strings_Cut type " " in
          let '(name'', number, _) := strings_Cut value " " in
          if bool_decide (name = name') && bool_decide (name = name'') then
            match read_decimal number, read_lines rest with
            | Some n, Some samples => Some (Sample name text kind n :: samples)
            | _, _ => None
            end
          else None
      | _, _ => None
      end
  | [last] => if bool_decide (last = "") then Some [] else None
  | _ => None
  end.

Definition read_exposition (text : string) : option (list sample) := read_lines (strings_Split text newline).

(** ** Rounding *)

Lemma round_half_even_error num den :
  0 < den -> 2 * Z.abs (round_half_even num den * den - num) <= den.
Proof.
  intros Hd. unfold round_half_even. pose proof (Z.div_mod num den ltac:(lia)).
  pose proof (Z.mod_pos_bound num den Hd).
  destruct (Z.ltb_spec (2 * (num mod den)) den); [nia|].
  destruct (Z.ltb_spec den (2 * (num mod den))); [nia|]. destruct (Z.even _); nia.
Qed.

Lemma round_half_even_exact n : round_half_even n 1 = n.
Proof. unfold round_half_even. rewrite Z.mod_1_r, Z.div_1_r. done. Qed.

(** A fraction nearer to [a] than one half is rounded to [a]. *)
Lemma round_half_even_near num den a :
  0 < den -> 2 * Z.abs (num - a * den) < den -> round_half_even num den = a.
Proof.
  intros Hd Hn. pose proof (round_half_even_error num den Hd) as He.
  set (m := round_half_even num den) in *. assert (- den < m * den - a * den < den) by lia. nia.
Qed.

Lemma scale_pos num den e : 0 < num -> 0 < den -> 0 < (scale num den e).1 /\ 0 < (scale num den e).2.
Proof.
  intros Hn Hd. unfold scale. destruct (Z.leb_spec 0 e); simpl;
    pose proof (Z.pow_pos_nonneg 2 e); pose proof (Z.pow_pos_nonneg 2 (- e)); nia.
Qed.

Lemma scale_low num den :
  0 < num -> 0 < den -> let '(n, d) := scale num den (Z.log2 num - Z.log2 den - 52) in 2 ^ 51 * d <= n.
Proof.
  intros Hn Hd. destruct (Z.log2_spec num Hn) as [Hn1 _]. destruct (Z.log2_spec den Hd) as [_ Hd2].
  pose proof (Z.log2_nonneg num). pose proof (Z.log2_nonneg den). unfold scale.
  set (e := Z.log2 num - Z.log2 den - 52) in *. destruct (Z.leb_spec 0 e).
  - apply Z.le_trans with (2 ^ 51 * (2 ^ Z.succ (Z.log2 den) * 2 ^ e)); [pose proof (Z.pow_pos_nonneg 2 e); nia|].
    rewrite <- !Z.pow_add_r by lia. replace (51 + (Z.succ (Z.log2 den) + e)) with (Z.log2 num) by lia. done.
  - apply Z.le_trans with (2 ^ Z.log2 num * 2 ^ (- e)); [|pose proof (Z.pow_pos_nonneg 2 (- e)); nia].
    rewrite <- Z.pow_add_r by lia. replace (Z.log2 num + - e) with (51 + Z.succ (Z.log2 den)) by lia.
    rewrite Z.pow_add_r by lia. nia.
Qed.

Lemma scale_pred num den e :
  0 < den -> let '(n, d) := scale num den e in let '(n', d') := scale num den (e - 1) in n' * d = 2 * n * d'.
Proof.
  intros Hd. unfold scale. destruct (Z.leb_spec 0 e), (Z.leb_spec 0 (e - 1)); try lia.
  - replace e with (Z.succ (e - 1)) at 1 by lia. rewrite Z.pow_succ_r by lia. lia.
  - replace e with 0 by lia. simpl. lia.
  - replace (- (e - 1)) with (Z.succ (- e)) by lia. rewrite Z.pow_succ_r by lia. lia.
Qed.

(** The relative error of a rounded fraction is at most 2^-53. *)
Lemma float_of_error num den :
  0 < num -> 0 < den ->
  let '(n, d) := fraction (float_of num den) in
  0 < d /\ Z.abs (n * den - num * d) * 2 ^ 53 <= num * d.
Proof.
  intros Hn Hd. unfold float_of. pose proof (scale_low num den Hn Hd) as Hlow.
  set (e0 := Z.log2 num - Z.log2 den - 52) in *.
  pose proof (scale_pred num den e0 Hd) as Hpred. pose proof (scale_pos num den e0 Hn Hd) as Hp0.
  destruct (scale num den e0) as [n0 d0] eqn:Hs0. simpl in Hp0.
  assert (exists e, e = (if n0 / d0 <? 2 ^ 52 then e0 - 1 else e0)
    /\ 2 ^ 52 * (scale num den e).2 <= (scale num den e).1) as (e & He & Hq).
  { destruct (Z.ltb_spec (n0 / d0) (2 ^ 52)) as [Hlt|Hge].
    - exists (e0 - 1). split; [done|]. pose proof (scale_pos num den (e0 - 1) Hn Hd).
      destruct (scale num den (e0 - 1)) as [n1 d1]; simpl in *. nia.
    - exists e0. split; [done|]. rewrite Hs0. simpl. pose proof (Z.mul_div_le n0 d0 ltac:(lia)). nia. }
  rewrite <- He. clear He Hlow Hpred Hp0 Hs0 n0 d0. pose proof (scale_pos num den e Hn Hd) as Hp.
  destruct (scale num den e) as [n d] eqn:Hs. simpl in Hp, Hq.
  pose proof (round_half_even_error n d ltac:(lia)) as Hr. set (m := round_half_even n d) in *.
  assert (Z.abs (m * d - n) * 2 ^ 53 <= n) as Hm by nia.
  unfold scale in Hs. unfold fraction. simpl. destruct (Z.leb_spec 0 e); injection Hs as <- <-.
  - split; [lia|]. rewrite Z.mul_1_r. replace (m * 2 ^ e * den - num) with (m * (den * 2 ^ e) - num) by lia. lia.
  - split; [apply Z.pow_pos_nonneg; lia|lia].
Qed.

(** Integers below 2^52 are floats. *)
Lemma float_of_int_exact a :
  0 < a < 2 ^ 52 -> let '(n, d) := fraction (float_of_int a) in 0 < d /\ n = a * d.
Proof.
  intros Ha. unfold float_of_int, float_of. change (Z.log2 1) with 0.
  assert (Z.log2 a < 52) by (apply Z.log2_lt_pow2; lia).
  destruct (scale a 1 (Z.log2 a - 0 - 52)) as [n0 d0].
  set (e := if n0 / d0 <? 2 ^ 52 then _ else _). assert (e < 0) by (subst e; case_match; lia).
  unfold scale, fraction. destruct (Z.leb_spec 0 e); [lia|]. simpl.
  destruct (Z.leb_spec 0 e); [lia|]. rewrite round_half_even_exact.
  split; [apply Z.pow_pos_nonneg; lia|done].
Qed.

Lemma FormatFloat3_exact a : 0 < a < 2 ^ 52 -> FormatFloat3 (float_div (float_of_int a) 1000) = decimal3 a.
Proof.
  intros Ha. pose proof (float_of_int_exact a Ha) as Hi. unfold FormatFloat3, float_div.
  destruct (fraction (float_of_int a)) as [n1 d1]. destruct Hi as [Hd1 ->].
  pose proof (float_of_error (a * d1) (d1 * 1000) ltac:(nia) ltac:(lia)) as Hf.
  destruct (fraction (float_of (a * d1) (d1 * 1000))) as [n d]. destruct Hf as [Hd Hf].
  rewrite (round_half_even_near _ _ a); [done|done|].
  replace (n * (d1 * 1000) - a * d1 * d) with (d1 * (n * 1000 - a * d)) in Hf by lia.
  rewrite Z.abs_mul, (Z.abs_eq d1) in Hf by lia.
  assert (Z.abs (n * 1000 - a * d) * 2 ^ 53 <= a * d) by nia. nia.
Qed.

Lemma formatSeconds_exact ms :
  Z.abs ms < 2 ^ 52 -> formatSeconds ms = if ms <? 0 then "-" +:+ decimal3 (- ms) else decimal3 ms.
Proof.
  intros Hb. unfold formatSeconds. destruct (Z.eqb_spec ms 0) as [->|]; [done|].
  destruct (Z.ltb_spec 0 ms), (Z.ltb_spec ms 0); try lia; rewrite FormatFloat3_exact by lia; done.
Qed.

(** ** Reading numbers *)

Lemma read_unsigned_pretty (n : N) : Z.of_N n < two64 -> read_unsigned (pretty n) = Some (Z.of_N n * 1000).
Proof.
  intros Hn. unfold read_unsigned. rewrite strings_Cut_absent.
  - by rewrite ParseUint_pretty.
  - apply digits_no; [done|apply pretty_N_digits].
Qed.

Lemma digit_spec d : 0 <= d < 10 -> digit_value (ascii_of_N (Z.to_N (48 + d))) = Some d.
Proof.
  intros Hd. assert (d = 0 \/ d = 1 \/ d = 2 \/ d = 3 \/ d = 4 \/ d = 5 \/ d = 6 \/ d = 7 \/ d = 8 \/ d = 9) as Hc by lia.
  by destruct Hc as [->|[->|[->|[->|[->|[->|[->|[->|[->| ->]]]]]]]]].
Qed.

Lemma ParseUint_three_digits m : 0 <= m < 1000 -> ParseUint (three_digits m) 10 64 = inr m.
Proof.
  intros Hm. unfold ParseUint, three_digits, digit, one_byte. rewrite !string_app_cons, !string_app_nil.
  rewrite bool_decide_eq_false_2 by done. cbn [Z.eqb parse_digits andb].
  change (2 ^ 64 - 1) with 18446744073709551615.
  assert (0 <= m / 100 < 10 /\ 0 <= m / 10 mod 10 < 10 /\ 0 <= m mod 10 < 10
    /\ ((m / 100) * 10 + m / 10 mod 10) * 10 + m mod 10 = m) as (H1 & H2 & H3 & H4)
    by (Z.to_euclidean_division_equations; lia).
  rewrite !digit_spec by done.
  repeat (rewrite (proj2 (Z.leb_gt _ _)) by lia; rewrite (proj2 (Z.ltb_ge _ _)) by lia).
  cbn [andb]. f_equal. lia.
Qed.

Lemma read_unsigned_decimal3 n : 0 <= n < two63 -> read_unsigned (decimal3 n) = Some n.
Proof.
  unfold two63. intros Hn. unfold read_unsigned, decimal3. change ("." +:+ ?x) with (String "." x).
  assert (0 <= n / 1000 < two64) by (unfold two64; Z.to_euclidean_division_equations; lia).
  rewrite pretty_Z_nonneg by lia.
  rewrite strings_Cut_found by (apply digits_no; [done|apply pretty_N_digits]).
  rewrite ParseUint_pretty, Z2N.id by lia. rewrite bool_decide_eq_true_2 by done.
  rewrite ParseUint_three_digits by (apply Z.mod_pos_bound; lia). f_equal.
  pose proof (Z.div_mod n 1000 ltac:(lia)). lia.
Qed.

Lemma pretty_no_dash (n : N) : exists c s, pretty n = String c s /\ ascii_eqb c "-" = false.
Proof.
  destruct (pretty_N_digits n) as [Hd Hne]. destruct (pretty n) as [|c s]; [done|].
  exists c, s. split; [done|]. simpl in Hd. apply andb_true_iff in Hd as [Hc _].
  apply ascii_eqb_neq. by intros ->.
Qed.

Lemma read_decimal_pretty z : in_int64 z -> read_decimal (pretty z) = Some (z * 1000).
Proof.
  unfold in_int64, min_int64, max_int64. intros Hz. destruct (Z.ltb_spec z 0).
  - rewrite pretty_Z_neg by done. change ("-" +:+ ?x) with (String "-" x). unfold read_decimal.
    change (ascii_eqb "-" "-") with true. cbv iota.
    rewrite read_unsigned_pretty by (unfold two64; lia). simpl. f_equal. lia.
  - rewrite pretty_Z_nonneg by done. destruct (pretty_no_dash (Z.to_N z)) as (c & s & Hp & Hc).
    unfold read_decimal. rewrite Hp, Hc, <- Hp. rewrite read_unsigned_pretty by (unfold two64; lia). f_equal. lia.
Qed.

Lemma read_decimal_seconds ms : Z.abs ms < 2 ^ 52 -> read_decimal (formatSeconds ms) = Some ms.
Proof.
  intros Hb. rewrite formatSeconds_exact by done. change (2 ^ 52) with 4503599627370496 in Hb.
  destruct (Z.ltb_spec ms 0).
  - change ("-" +:+ ?x) with (String "-" x). unfold read_decimal.
    change (ascii_eqb "-" "-") with true. cbv iota.
    rewrite read_unsigned_decimal3 by (unfold two63; lia). simpl. f_equal. lia.
  - rewrite <- (read_unsigned_decimal3 ms) by (unfold two63; lia).
    assert (0 <= ms / 1000) by (apply Z.div_pos; lia).
    destruct (pretty_no_dash (Z.to_N (ms / 1000))) as (c & s & Hp & Hc).
    unfold read_decimal, decimal3. rewrite pretty_Z_nonneg, Hp by done.
    change (String c s +:+ ?x) with (String c (s +:+ x)). cbv iota. by rewrite Hc.
Qed.

(** ** Reading the text *)

Lemma strip_app a b : strip a (a +:+ b) = Some b.
Proof.
  unfold strip. rewrite string_prefix_app. f_equal.
  induction a as [|c a IH]; [done|]. rewrite string_app_cons. apply IH.
Qed.

Record name_ok (name : string) : Prop := {
  no_space : string_elem " " name = false;
  no_newline : string_elem newline name = false;
}.

Lemma read_metric name help type value n rest samples :
  name_ok name -> string_elem newline help = false -> string_elem newline type = false ->
  string_elem newline value = false -> read_decimal value = Some n ->
  read_exposition rest = Some samples ->
  read_exposition (writeMetric name help type value +:+ rest) = Some (Sample name help type n :: samples).
Proof.
  intros [Hs Hn] Hh Ht Hv Hd Hr.
  assert (writeMetric name help type value +:+ rest
    = ("# HELP " +:+ (name +:+ String " " help)) +:+ String newline
        (("# TYPE " +:+ (name +:+ String " " type)) +:+ String newline
          ((name +:+ String " " value) +:+ String newline rest))) as ->.
  { unfold writeMetric, nl. by rewrite !string_app_assoc. }
  unfold read_exposition in *.
  rewrite !strings_Split_app by (rewrite !string_elem_app, ?Hn; cbn [string_elem]; rewrite ?Hh, ?Ht, ?Hv; reflexivity).
  cbn [read_lines]. rewrite !strip_app, !strings_Cut_found by done.
  rewrite !bool_decide_eq_true_2 by done. cbn [andb]. by rewrite Hd, Hr.
Qed.

(** A text that is a number on one line. *)
Record number (value : string) (n : Z) : Prop := {
  number_line : string_elem newline value = false;
  number_value : read_decimal value = Some n;
}.

Lemma number_pretty z : in_int64 z -> number (pretty z) (z * 1000).
Proof.
  intros Hz. split; [|by apply read_decimal_pretty].
  destruct (Z.ltb_spec z 0); [rewrite pretty_Z_neg by done; rewrite string_elem_app|rewrite pretty_Z_nonneg by done];
    by rewrite (digits_no newline _ eq_refl (proj1 (pretty_N_digits _))).
Qed.

Lemma decimal3_line n : 0 <= n -> string_elem newline (decimal3 n) = false.
Proof.
  intros Hn. assert (0 <= n / 1000) by (apply Z.div_pos; lia).
  unfold decimal3. rewrite pretty_Z_nonneg, !string_elem_app by done.
  rewrite (digits_no newline _ eq_refl (proj1 (pretty_N_digits _))). cbn [orb string_elem].
  pose proof (Z.mod_pos_bound n 1000 eq_refl) as Hm.
  set (m := n mod 1000) in *. unfold three_digits. rewrite !string_elem_app. unfold digit, one_byte.
  assert (forall d, 0 <= d < 10 -> string_elem newline (String (ascii_of_N (Z.to_N (48 + d))) "") = false) as Hd.
  { intros d Hd. simpl. rewrite orb_false_r. apply ascii_eqb_neq. intros He.
    pose proof (digit_spec d Hd) as Hv. rewrite <- He in Hv. discriminate Hv. }
  rewrite !Hd by (Z.to_euclidean_division_equations; lia). done.
Qed.

Lemma number_seconds ms : Z.abs ms < 2 ^ 52 -> number (formatSeconds ms) ms.
Proof.
  intros Hb. split; [|by apply read_decimal_seconds]. rewrite formatSeconds_exact by done.
  destruct (Z.ltb_spec ms 0); rewrite ?string_elem_app, decimal3_line by lia; done.
Qed.

(** The values a scrape is to show: integers times 1000, and milliseconds as they are. *)
Definition reported (cfg : appConfig) (s : appStats) : list (string * string * Z) :=
  let c := counters s in
  [ ("outboxer_events_selected_total", "counter", s_selected c * 1000);
    ("outboxer_events_sent_total", "counter", s_sent c * 1000);
    ("outboxer_events_poison_total", "counter", s_poison c * 1000);
    ("outboxer_events_dlq_total", "counter", s_dlq c * 1000);
    ("outboxer_events_kept_for_retry_total", "counter", s_keptForRetry c * 1000);
    ("outboxer_batches_processed_total", "counter", s_batchesProcessed c * 1000);
    ("outboxer_batch_errors_total", "counter", s_batchErrors c * 1000);
    ("outboxer_sender_errors_total", "counter", s_senderErrors c * 1000);
    ("outboxer_fatal_after_commit_errors_total", "counter", s_fatalAfterCommitErrors c * 1000);
    ("outboxer_collect_batch_target", "gauge", CollectBatchTarget cfg * 1000);
    ("outboxer_last_batch_selected_events", "gauge", lastBatchSelected s * 1000);
    ("outboxer_events_pending_retry", "gauge", lastBatchKeptForRetry s * 1000) ]
  ++ (if bool_decide (EventTimestamp cfg <> "")
      then [("outboxer_oldest_event_age_seconds", "gauge", oldestEventAgeMillis s)] else [])
  ++ [ ("outboxer_last_batch_db_seconds", "gauge", lastBatchDBMillis s);
       ("outboxer_last_batch_publish_seconds", "gauge", lastBatchPublishMillis s);
       ("outboxer_backlog_events", "gauge", backlogEvents s * 1000);
       ("outboxer_backlog_floor", "gauge", backlogFloor s * 1000);
       ("outboxer_last_successful_batch_timestamp_seconds", "gauge", lastSuccessUnixMilli s) ].

(** Integers of 64 bits, times and durations of less than 142,000 years. *)
Record scrapable (cfg : appConfig) (s : appStats) : Prop := {
  scrape_counters : snapshot_ok (counters s);
  scrape_gauges : Forall in_int64 [CollectBatchTarget cfg; lastBatchSelected s; lastBatchKeptForRetry s;
                    backlogEvents s; backlogFloor s];
  scrape_millis : Forall (fun ms => Z.abs ms < 2 ^ 52)
    [oldestEventAgeMillis s; lastBatchDBMillis s; lastBatchPublishMillis s; lastSuccessUnixMilli s];
}.

Lemma read_metric_number name help type value n rest shown :
  name_ok name -> string_elem newline help = false -> string_elem newline type = false -> number value n ->
  fmap (M := list) (fun x => (metric x, metric_type x, thousandths x)) <$> read_exposition rest = Some shown ->
  fmap (M := list) (fun x => (metric x, metric_type x, thousandths x))
    <$> read_exposition (writeMetric name help type value +:+ rest) = Some ((name, type, n) :: shown).
Proof.
  intros Hn Hh Ht [Hl Hv] Hr. apply fmap_Some in Hr as (samples & Hr & ->).
  by erewrite read_metric.
Qed.

Lemma name_ok_check name : negb (string_elem " " name) && negb (string_elem newline name) = true -> name_ok name.
Proof. intros [?%negb_true_iff ?%negb_true_iff]%andb_true_iff. by split. Qed.

(** C28. A scrape shows the statistics: reading the exposition text gives back every counter and gauge
    with its type, in order, the lag only with a timestamp column; seconds are exact to the
    millisecond although they are computed in floating point. *)
Theorem exposition_reads_back (cfg : appConfig) (s : appStats) :
  scrapable cfg s ->
  fmap (M := list) (fun x => (metric x, metric_type x, thousandths x))
    <$> read_exposition (handleMetrics cfg s).2 = Some (reported cfg s).
Proof.
  intros [Hc Hg Hm]. rewrite snapshot_ok_iff, !Forall_cons in Hc.
  rewrite !Forall_cons in Hg, Hm.
  destruct Hc as (?&?&?&?&?&?&?&?&?&_), Hg as (?&?&?&?&Hf), Hm as (?&?&?&?&_).
  apply (proj1 (Forall_singleton _ _)) in Hf.
  unfold handleMetrics, writeMetrics, writeAll, reported, snapshot, writeCounter, writeGauge.
  cbn [snd foldr app]. case_bool_decide; rewrite ?string_app_nil;
    repeat (apply read_metric_number;
      [by apply name_ok_check|reflexivity|reflexivity|by (apply number_pretty || apply number_seconds)|]);
    reflexivity.
Qed.

Lemma exposition_reads_back_witness :
  fmap (M := list) (fun x => (metric x, metric_type x, thousandths x))
    <$> read_exposition (handleMetrics defaultConfig (newAppStats 1700000000123456789)).2
  = Some (reported defaultConfig (newAppStats 1700000000123456789)).
Proof.
  apply exposition_reads_back. split; [reflexivity| |]; rewrite !Forall_cons; split_and!;
    try done; unfold in_int64; split; by vm_compute.
Defined.
