(* ===== verification/Health.v ===== *)
(** * The health endpoint ([http.go])

    The routes of the HTTP server, the answer of [/healthz] and its link to the statistics: the
    endpoint looks at the moment of the last committed batch and at nothing else.  Paths are those
    [http.ServeMux] hands to a handler, which it has cleaned. *)
From S2P Require Import Prelude Config Values Samples Stats Metrics.
Local Open Scope Z_scope.

Definition StatusOK : Z := 200.
Definition StatusServiceUnavailable : Z := 503.

(** [time.Time{}], as nanoseconds since 1970. *)
Definition zero_time : Z := -62135596800 * second.

(** [time.Duration.Round] of [int64] nanoseconds: half away from zero, saturating. *)
Definition duration_Round (d m : Z) : Z :=
  if m <=? 0 then d
  else
    let r := Z.rem d m in
    if d <? 0 then
      let r := - r in
      if 2 * r <? m then d + r
      else let d1 := wrap64 (d - m + r) in if d1 <? d then d1 else min_int64
    else
      if 2 * r <? m then d - r
      else let d1 := wrap64 (d + m - r) in if d <? d1 then d1 else max_int64.

Record http_response := Response { status : Z; body : string }.

Section health.
Context `{GoRuntime} (cfg : appConfig).

(** [now] is the wall clock [time.Since] reads. *)
Definition handleHealthz (stats : option appStats) (now : Z) : http_response :=
  let threshold := HealthStaleAfter cfg in
  if threshold <=? 0 then Response StatusOK "ok (staleness check disabled)"
  else
    let last := lastSuccess stats in
    let age := time_Sub now (default zero_time last) in
    if bool_decide (last = None) || (threshold <? age)
    then Response StatusServiceUnavailable
           ("unhealthy: no committed batch for " +:+ duration_String (duration_Round age second)
            +:+ " (threshold " +:+ duration_String threshold +:+ ")")
    else Response StatusOK
           ("ok: last committed batch " +:+ duration_String (duration_Round age second) +:+ " ago").

Inductive handler := HandleMetrics | HandleHealthz | HandleLiveness.

(** The patterns registered on the mux: the longest one that matches. *)
Definition newHTTPServer (path : string) : handler :=
  if bool_decide (path = "/metrics") then HandleMetrics
  else if bool_decide (path = "/healthz") then HandleHealthz
  else if bool_decide (path = "/health") then HandleHealthz
  else HandleLiveness.

Definition serve (stats : appStats) (now : Z) (path : string) : http_response :=
  match newHTTPServer path with
  | HandleMetrics => Response StatusOK (handleMetrics cfg stats).2
  | HandleHealthz => handleHealthz (Some stats) now
  | HandleLiveness => Response StatusOK "all good"
  end.

Definition server_addr : string := ":" +:+ pretty (HealthPort cfg).
Definition ReadHeaderTimeout : Z := 5 * second.
Definition ReadTimeout : Z := 10 * second.
Definition WriteTimeout : Z := 10 * second.
Definition IdleTimeout : Z := 60 * second.

End health.

(** ** What the relay does to its statistics *)

Inductive stats_op :=
| OpCommit (batch : batchStats) (now : Z)
| OpError
| OpBacklog (events : Z) (floor : bool)
| OpLog (interval : Z) (cancelled : bool).

Definition apply_op (s : option appStats) (op : stats_op) : option appStats :=
  match op with
  | OpCommit batch now => addCommittedBatch batch now s
  | OpError => addBatchError s
  | OpBacklog events floor => setBacklog events floor s
  | OpLog interval cancelled => (logStats interval cancelled s).2
  end.

(** The last commit, or the startup. *)
Fixpoint last_commit (startup : Z) (ops : list stats_op) : Z :=
  match ops with
  | [] => startup
  | OpCommit _ now :: ops => last_commit now ops
  | _ :: ops => last_commit startup ops
  end.

Lemma last_success_ops ops s startup :
  lastSuccessUnixMilli s = UnixMilli startup ->
  exists s', foldl apply_op (Some s) ops = Some s' /\ lastSuccessUnixMilli s' = UnixMilli (last_commit startup ops).
Proof.
  revert s startup. induction ops as [|op ops IH]; intros s startup Hs; [by exists s|].
  simpl. destruct op as [batch now| |events floor|interval []]; apply IH; done.
Qed.

Lemma UnixMilli_floor t : UnixMilli t * millisecond <= t < UnixMilli t * millisecond + millisecond.
Proof.
  unfold UnixMilli, millisecond. pose proof (Z.div_mod t 1000000 ltac:(lia)).
  pose proof (Z.mod_pos_bound t 1000000 eq_refl). lia.
Qed.

(** C30. [/healthz] follows the commits: with a staleness threshold it answers 503 when the last
    committed batch (or the startup) is more than the threshold ago, and 200 when it is at least a
    millisecond less; batches that fail, backlog probes and log lines in between change nothing,
    and so do sender errors of committed batches.  Without a threshold it always answers 200, and
    no other path but its alias answers 503. *)
Theorem healthz_tracks_commits `{GoRuntime} (cfg : appConfig) (startup now : Z) (ops : list stats_op)
    (s : appStats) :
  foldl apply_op (Some (newAppStats startup)) ops = Some s ->
  let last := last_commit startup ops in
  0 < UnixMilli last ->
  (0 < HealthStaleAfter cfg < max_int64 - millisecond ->
     (HealthStaleAfter cfg < now - last -> status (serve cfg s now "/healthz") = StatusServiceUnavailable)
     /\ (now - last <= HealthStaleAfter cfg - millisecond -> status (serve cfg s now "/healthz") = StatusOK))
  /\ (HealthStaleAfter cfg <= 0 -> status (serve cfg s now "/healthz") = StatusOK)
  /\ serve cfg s now "/health" = serve cfg s now "/healthz"
  /\ (forall path, path <> "/healthz" -> path <> "/health" -> status (serve cfg s now path) = StatusOK).
Proof.
  intros Hops last Hlast.
  destruct (last_success_ops ops (newAppStats startup) startup eq_refl) as (s' & Hs' & Hmilli).
  rewrite Hops in Hs'. injection Hs' as <-. fold last in Hmilli.
  assert (lastSuccess (Some s) = Some (UnixMilli last * millisecond)) as Hl.
  { unfold lastSuccess. rewrite bool_decide_eq_false_2 by lia. by rewrite Hmilli. }
  pose proof (UnixMilli_floor last) as Hfl. change (serve cfg s now "/healthz") with (handleHealthz cfg (Some s) now).
  unfold handleHealthz. rewrite Hl. cbn [default id]. split_and!.
  - intros [Ht1 Ht2]. rewrite (proj2 (Z.leb_gt _ _)) by lia. rewrite bool_decide_eq_false_2 by done. cbn [orb].
    unfold time_Sub. unfold max_int64, min_int64, millisecond in *. split; intros Hage.
    + by rewrite (proj2 (Z.ltb_lt _ _)) by lia.
    + by rewrite (proj2 (Z.ltb_ge _ _)) by lia.
  - intros Ht. by rewrite (proj2 (Z.leb_le _ _)) by lia.
  - unfold serve. simpl. unfold handleHealthz. by rewrite Hl.
  - intros path H1 H2. unfold serve, newHTTPServer. case_bool_decide; [done|].
    rewrite !bool_decide_eq_false_2 by done. done.
Qed.

Lemma healthz_tracks_commits_witness :
  let ops := [OpCommit one_batch (10 * second); OpError; OpLog second false] in
  let s := default after_batch (foldl apply_op (Some (newAppStats second)) ops) in
  status (serve defaultConfig s (10 * second + 6 * minute) "/healthz") = StatusServiceUnavailable
  /\ status (serve defaultConfig s (10 * second + 4 * minute) "/healthz") = StatusOK.
Proof.
  intros ops s. split.
  - apply (proj1 (healthz_tracks_commits defaultConfig second (10 * second + 6 * minute) ops s eq_refl eq_refl)
      (conj eq_refl eq_refl)). by vm_compute.
  - apply (proj1 (healthz_tracks_commits defaultConfig second (10 * second + 4 * minute) ops s eq_refl eq_refl)
      (conj eq_refl eq_refl)). by vm_compute.
Defined.
