(* ===== verification/App.v ===== *)
(** * The actions of the relay

    The processing loop ([processor.go], [db.go], [dlq.go], [backlog.go], [notify.go]) is a
    program ([Conc.v]) whose actions are the statements it sends to the database, the calls of
    its senders, the clock, the context and its own counters and logs.  This file declares the
    actions with the type of their results, and the data the parts of the loop pass to each
    other.

    A call of [Send] is one action: its result holds the callbacks it makes, in the order the
    collector's mutex serialises them, its error and, for the statements of [Relay.v], the
    events the queue acknowledged. *)
From S2P Require Import Prelude GoErrors Config Values Conc Provider Stats.
Local Open Scope go_scope.

(** ** Data *)

(** [sql.Rows]: the result of [Columns], what each [Scan] gives, and [Err]. *)
Record Rows := MkRows {
  rows_Columns : error + list string;
  rows_Scan : list (error + list value);
  rows_Err : option error;
}.

Record poisonEvent := PoisonEvent { poison_evt : event; poison_error : string }.

Record senderOutput := SenderOutput { confirmed : list event; poison : list poisonEvent }.

Record senderResult := SenderResult { output : senderOutput; result_err : option error }.

Record batchResult := BatchResult { selected : Z; drained : bool; stats : batchStats }.

Definition no_result : batchResult := BatchResult 0 false no_stats.

Record sent := Sent { callbacks : list callback; acked : list Event; send_err : option error }.

Inductive notification := Notified | WaitOver | WaitFailed (err : error).

Record dlqColumnMetadata := DlqColumn {
  name : string;
  typeName : string;
  notNull : bool;
  defaultExpr : option string;
  identity : string;
  generated : string;
  canInsertColumn : bool;
}.

(** ** Actions *)

Inductive app_cmd :=
| CtxErr
| TimeNow
| BeginTx
| Commit
| Rollback
| QueryEvents (query : string * list Z)
| ExecInsert (query : string) (payloads : list string)
| ExecDelete (query : string) (ids : list value)
| QueryColumns (query : string)
| QueryMetadata (query table : string)
| QueryBacklog (query : string) (limit : Z)
| SendTo (tgt : string) (events : list Event)
| MarkProgress
| SlogError (message : string)
| SlogFailure (message signature : string)
| AddBatchError
| AddCommittedBatch (batch : batchStats) (now : Z)
| SetBacklog (events : Z) (floor : bool)
| Sleep (d : Z)
| DbConn
| ExecListen (query : string)
| ExecUnlisten
| DiscardConn
| CloseConn
| WaitForNotification (timeout : Z)
| DrainNotifications.

Definition app_resp (c : app_cmd) : Type :=
  match c with
  | CtxErr => bool
  | TimeNow => Z
  | BeginTx | Commit | Rollback => option error
  | QueryEvents _ => error + Rows
  | ExecInsert _ _ | ExecDelete _ _ => option error
  | QueryColumns _ => error + list string
  | QueryMetadata _ _ => error + (list (error + (string * bool * dlqColumnMetadata)) * option error)
  | QueryBacklog _ _ => error + (Z * Z)
  | SendTo _ _ => sent
  | DbConn | ExecListen _ | ExecUnlisten => option error
  | WaitForNotification _ => notification
  | _ => unit
  end.

Definition prog (A : Type) : Type := io app_resp senderResult A.

Definition act (c : app_cmd) : prog (app_resp c) := perform c.

Abbreviation step := (action app_resp).

Definition did (c : app_cmd) (r : app_resp c) : step := existT c r.

(** A slice variable and an early return: [for] loops of [Conc.v] return [inr]. *)
Definition finally {S A} (m : prog (S + A)) (k : S -> prog A) : prog A :=
  bind m (fun r => match r with inl s => k s | inr a => Ret a end).

(** [markProgress], and [logFailure] of the app ([FailureLogger.v]): the context check is part of
    the action. *)
Definition markProgress : prog unit := act MarkProgress.

(** [logBatchError]: nothing once the context is cancelled. *)
Definition logBatchError (message : string) : prog unit :=
  do! cancelled <- act CtxErr;
  if cancelled : bool then Ret tt else act (SlogError message).

(** [sleepContext]: the timer or the context, whichever is first. *)
Definition sleepContext (d : Z) : prog unit :=
  if bool_decide (d <= 0)%Z then Ret tt else act (Sleep d).
