(* ===== verification/Db.v ===== *)
(** * The relay's statements on the event table ([db.go])

    The startup check of the columns, the scan of the collection query's result, and the
    statement that deletes finished rows. *)
From S2P Require Import Prelude GoErrors Config Values Samples Conc Provider Stats App Routes Sql Routing.
Local Open Scope go_scope.

Section db.
Context `{GoRuntime} `{Pgx} (cfg : appConfig).

(** ** Startup check *)

Definition required_columns : list string :=
  let required := [cfgEventID cfg; EventPayload cfg] in
  let required := if bool_decide (0 < MaxEventAge cfg)%Z then required ++ [EventTimestamp cfg] else required in
  let routes := configuredProviderRoutes cfg in
  let required := if (1 <? length routes)%nat then required ++ [EventTarget cfg] else required in
  if existsb (fun r => bool_decide (defaultDestination r = "")) routes
  then required ++ [EventDestination cfg] else required.

Definition validateEventColumns (columns : list string) : error + unit :=
  let missing := filter (fun name => name <> "" /\ name ∉ columns) required_columns in
  if bool_decide (missing = []) then inr tt
  else err ("event table " +:+ EventTable cfg +:+ " is missing required columns: " +:+ strings_Join missing ", ").

Definition checkDBWorks : prog (error + unit) :=
  do! r <- act (QueryColumns ("SELECT * FROM " +:+ qualifiedIdent (PGSchema cfg) (EventTable cfg) +:+ " LIMIT 1"));
  Ret (match r with inl e => inl e | inr columns => validateEventColumns columns end).

(** ** Collection *)

(** The copy of a byte slice is the slice's contents. *)
Definition normalizeDBValue (v : value) : value := v.

Definition scan_row (columns : list string) (values : list value) : error + event :=
  let tgt := valueString (normalizeDBValue (default VNil (values !! 0))) in
  if bool_decide (tgt = "") then err "selected event has empty resolved target"
  else
    let dst := valueString (normalizeDBValue (default VNil (values !! 1))) in
    if bool_decide (dst = "") then err "selected event has empty resolved destination"
    else inr (MkEvt (foldl (fun m kv => <[kv.1 := normalizeDBValue kv.2]> m) ∅
                       (zip (drop 2 columns) (drop 2 values)))
                (EventRoute tgt dst) no_options).

Fixpoint scan_rows (columns : list string) (rows : list (error + list value)) (events : list event) :
    error + list event :=
  match rows with
  | [] => inr events
  | inl e :: _ => inl e
  | inr values :: rows =>
      let? evt := scan_row columns values in scan_rows columns rows (events ++ [evt])
  end.

Definition scanEvents (rows : Rows) : error + list event :=
  let? columns := rows_Columns rows in
  if (length columns <? 2)%nat || negb (bool_decide (columns !! 0 = Some "resolved_target"))
     || negb (bool_decide (columns !! 1 = Some "resolved_destination"))
  then err "selected event query did not return resolved route columns"
  else
    let? events := scan_rows columns (rows_Scan rows) [] in
    match rows_Err rows with Some e => inl e | None => inr events end.

Definition selectEvents : prog (error + list event) :=
  do! r <- act (QueryEvents (selectEventsQuery cfg));
  Ret (match r with inl e => inl e | inr rows => scanEvents rows end).

(** ** Deletion *)

Definition deleteEvents (ids : list value) : prog (option error) :=
  if bool_decide (length ids = 0)%nat then Ret None
  else act (ExecDelete ("DELETE FROM " +:+ qualifiedIdent (PGSchema cfg) (EventTable cfg) +:+ " WHERE "
                        +:+ ident (cfgEventID cfg) +:+ " = ANY($1)") ids).

(** ** Reading back a result

    The rows the driver returns for selected events: the route, and the columns of the table in
    the order of the header. *)
Definition row_of (header : list string) (e : event) : list value :=
  VString (target (route e)) :: VString (destination (route e)) :: (map_get (columns e) <$> header).

Definition rows_of (header : list string) (events : list event) : Rows :=
  MkRows (inr ("resolved_target" :: "resolved_destination" :: header))
    (inr <$> (row_of header <$> events)) None.

Record selected_ok (header : list string) (e : event) : Prop := {
  selected_target : target (route e) <> "";
  selected_destination : destination (route e) <> "";
  selected_columns : forall k, is_Some (columns e !! k) <-> k ∈ header;
  selected_options : options e = no_options;
}.

Lemma foldl_insert_lookup (header : list string) (m base : object) k :
  (forall k, k ∈ header -> is_Some (m !! k)) ->
  foldl (fun m kv => <[kv.1 := kv.2]> m) base (zip header (map_get m <$> header)) !! k
  = if decide (k ∈ header) then m !! k else base !! k.
Proof.
  revert base. induction header as [|h header IH]; intros base Hm; [done|]. simpl.
  rewrite IH by (intros k' Hk'; apply Hm; by apply list_elem_of_further).
  destruct (decide (k ∈ header)) as [Hk|Hk].
  - rewrite decide_True; [done|by apply list_elem_of_further].
  - destruct (decide (k = h)) as [->|Hne].
    + rewrite decide_True by apply list_elem_of_here. rewrite lookup_insert_eq. unfold map_get.
      destruct (Hm h (list_elem_of_here _ _)) as [v ->]. done.
    + rewrite lookup_insert_ne by done. rewrite decide_False; [done|]. set_solver.
Qed.

Lemma scan_row_of header e :
  selected_ok header e ->
  scan_row ("resolved_target" :: "resolved_destination" :: header) (row_of header e) = inr e.
Proof.
  intros [Ht Hd Hc Ho]. unfold scan_row, row_of, normalizeDBValue. simpl.
  rewrite !bool_decide_eq_false_2 by done. rewrite !drop_0. f_equal. destruct e as [m [t d] o]; simpl in *. subst o.
  f_equal. apply map_eq. intros k. rewrite foldl_insert_lookup by (intros k' Hk'; by apply Hc).
  case_decide as Hk; [done|]. rewrite lookup_empty. symmetry. apply eq_None_not_Some. by rewrite Hc.
Qed.

Lemma scanEvents_rows_of header events :
  Forall (selected_ok header) events -> scanEvents (rows_of header events) = inr events.
Proof.
  intros Hok. unfold scanEvents, rows_of. simpl.
  assert (Hgen : forall acc,
    scan_rows ("resolved_target" :: "resolved_destination" :: header) (inr <$> (row_of header <$> events)) acc
    = inr (acc ++ events)); [|by rewrite Hgen].
  induction Hok as [|e events He _ IH]; intros acc; simpl; [by rewrite app_nil_r|].
  rewrite scan_row_of by done. simpl. rewrite IH, <- (assoc_L (++)). done.
Qed.

(** A scanned event has a route with both parts, and no options yet. *)
Lemma scan_row_ok columns values e :
  scan_row columns values = inr e ->
  target (route e) <> "" /\ destination (route e) <> "" /\ options e = no_options.
Proof. unfold scan_row. repeat case_bool_decide; try done. by intros [= <-]. Qed.

Lemma scan_rows_ok (P : event -> Prop) columns rows acc events :
  (forall values e, scan_row columns values = inr e -> P e) ->
  scan_rows columns rows acc = inr events -> Forall P acc -> Forall P events.
Proof.
  intros HP. revert acc. induction rows as [|[e|values] rows IH]; intros acc; simpl;
    [by intros [= ->]|done|].
  destruct (scan_row columns values) as [|evt] eqn:Hs; [done|]. simpl. intros Hr Hacc.
  apply (IH _ Hr). apply Forall_app. split; [done|]. apply Forall_singleton. by eapply HP.
Qed.

Lemma scanEvents_ok rows events :
  scanEvents rows = inr events ->
  Forall (fun e => target (route e) <> "" /\ destination (route e) <> "" /\ options e = no_options) events.
Proof.
  unfold scanEvents. destruct (rows_Columns rows) as [|columns]; [done|]. simpl.
  destruct (_ || _); [done|]. destruct (scan_rows columns _ _) as [|evs] eqn:Hs; [done|]. simpl.
  destruct (rows_Err rows); [done|]. intros [= <-].
  eapply scan_rows_ok; [apply scan_row_ok|exact Hs|constructor].
Qed.

Lemma validateEventColumns_iff columns :
  validateEventColumns columns = inr tt
  <-> forall name, name ∈ required_columns -> name <> "" -> name ∈ columns.
Proof.
  unfold validateEventColumns. case_bool_decide as Hm.
  - split; [|done]. intros _ name Hr Hne. destruct (decide (name ∈ columns)) as [|Hn]; [done|].
    exfalso. apply (not_elem_of_nil name). rewrite <- Hm. by apply list_elem_of_filter.
  - split; [done|]. intros Hall. exfalso. apply Hm.
    destruct (filter _ _) as [|name l] eqn:Hf; [done|].
    assert (Hin : name ∈ name :: l) by apply list_elem_of_here. rewrite <- Hf in Hin.
    apply list_elem_of_filter in Hin as [[Hne Hn] Hr]. exfalso. by apply Hn, Hall.
Qed.

End db.

(** ** Properties *)

(** The startup check accepts exactly the tables that have every column the configuration
    depends on: the id, the payload, the timestamp when an age limit is set, the target when there
    are two providers, the destination when a provider has no default. *)
Lemma validateEventColumns_exact `{GoRuntime} (cfg : appConfig) (columns : list string) :
  validateEventColumns cfg columns = inr tt
  <-> forall name, name <> "" ->
      name = cfgEventID cfg \/ name = EventPayload cfg
      \/ (0 < MaxEventAge cfg)%Z /\ name = EventTimestamp cfg
      \/ (PubSubEnabled cfg = true /\ SQSEnabled cfg = true) /\ name = EventTarget cfg
      \/ (PubSubEnabled cfg = true /\ DefaultPubSubTopic cfg = ""
          \/ SQSEnabled cfg = true /\ DefaultSQSQueueURL cfg = "") /\ name = EventDestination cfg ->
      name ∈ columns.
Proof.
  rewrite validateEventColumns_iff. apply forall_proper. intros name.
  assert (Hreq : name ∈ required_columns cfg <->
      name = cfgEventID cfg \/ name = EventPayload cfg
      \/ (0 < MaxEventAge cfg)%Z /\ name = EventTimestamp cfg
      \/ (PubSubEnabled cfg = true /\ SQSEnabled cfg = true) /\ name = EventTarget cfg
      \/ (PubSubEnabled cfg = true /\ DefaultPubSubTopic cfg = ""
          \/ SQSEnabled cfg = true /\ DefaultSQSQueueURL cfg = "") /\ name = EventDestination cfg).
  { unfold required_columns. rewrite configuredProviderRoutes_eq.
    destruct (PubSubEnabled cfg), (SQSEnabled cfg); simpl;
      repeat case_bool_decide; simpl; rewrite ?elem_of_app, ?elem_of_cons, ?elem_of_nil; naive_solver. }
  rewrite Hreq. tauto.
Qed.

(** C37. Scanning reads back what the collection query selected: the rows the driver returns for
    events with a route and exactly the table's columns scan to those events. *)
Theorem scanEvents_roundtrip `{GoRuntime} (header : list string) (events : list event) :
  Forall (selected_ok header) events -> scanEvents (rows_of header events) = inr events.
Proof. apply scanEvents_rows_of. Qed.

Lemma scanEvents_roundtrip_witness :
  let e := MkEvt (<["id" := VInt KInt64 7]> (<["payload" := VBytes "x"]> ∅)) (EventRoute "sqs" "q") no_options in
  scanEvents (rows_of ["payload"; "id"] [e]) = inr [e].
Proof.
  cbv zeta. apply scanEvents_roundtrip. apply Forall_singleton. split; [done|done| |done].
  intros k. simpl. rewrite !elem_of_cons, elem_of_nil.
  destruct (decide (k = "id")) as [->|H1]; [rewrite lookup_insert_eq; split; eauto|].
  rewrite lookup_insert_ne by done.
  destruct (decide (k = "payload")) as [->|H2]; [rewrite lookup_insert_eq; split; eauto|].
  rewrite lookup_insert_ne by done. split; [by intros []|tauto].
Defined.
