(* ===== verification/Dlq.v ===== *)
(** * The dead-letter table ([dlq.go])

    The startup check of the table's catalog entry, the payload of a dead letter, and the
    statement that writes the poison events of a batch. *)
From S2P Require Import Prelude GoErrors Config Values Samples Conc Provider Stats App Routes Sql Routing RoutingSpec Select Db.
Local Open Scope go_scope.

Record dlqTableMetadata := DlqTable {
  relkind : string;
  canInsertTable : bool;
  dlq_columns : list dlqColumnMetadata;
}.

Definition no_metadata : dlqTableMetadata := DlqTable "" false [].

Section dlq.
Context `{GoRuntime} `{Pgx} (cfg : appConfig).

(** ** Startup check *)

Definition dlqMetadataSQL : string :=
  strings_Join [""; "SELECT";
    "    c.relkind::text,";
    "    has_table_privilege(c.oid, 'INSERT') AS can_insert_table,";
    "    a.attname,";
    "    t.typname,";
    "    a.attnotnull,";
    "    pg_get_expr(d.adbin, d.adrelid) AS default_expr,";
    "    a.attidentity::text,";
    "    a.attgenerated::text,";
    "    has_column_privilege(c.oid, a.attname, 'INSERT') AS can_insert_column";
    "FROM pg_catalog.pg_class AS c";
    "JOIN pg_catalog.pg_attribute AS a ON a.attrelid = c.oid";
    "JOIN pg_catalog.pg_type AS t ON t.oid = a.atttypid";
    "LEFT JOIN pg_catalog.pg_attrdef AS d ON d.adrelid = a.attrelid AND d.adnum = a.attnum";
    "WHERE c.oid = to_regclass($1)";
    "  AND a.attnum > 0";
    "  AND NOT a.attisdropped";
    "ORDER BY a.attnum"] (String "010" EmptyString).

(** The scan loop: the table's fields are those of the last row. *)
Fixpoint scan_metadata (rows : list (error + (string * bool * dlqColumnMetadata))) (m : dlqTableMetadata) :
    error + dlqTableMetadata :=
  match rows with
  | [] => inr m
  | inl e :: _ => inl e
  | inr (relkind, can, column) :: rows =>
      scan_metadata rows (DlqTable relkind can (dlq_columns m ++ [column]))
  end.

Definition loadDLQTableMetadata : prog (error + dlqTableMetadata) :=
  do! r <- act (QueryMetadata dlqMetadataSQL (qualifiedIdent (PGSchema cfg) (DLQTable cfg)));
  Ret (match r with
       | inl e => inl e
       | inr (rows, rows_err) =>
           let? m := scan_metadata rows no_metadata in
           match rows_err with Some e => inl e | None => inr m end
       end).

Definition canOmitColumnFromInsert (c : dlqColumnMetadata) : bool :=
  negb (notNull c) || bool_decide (is_Some (defaultExpr c)) || negb (bool_decide (identity c = ""))
  || negb (bool_decide (generated c = "")).

(** [columns[column.name] = column] over the columns. *)
Definition columns_by_name (columns : list dlqColumnMetadata) : gmap string dlqColumnMetadata :=
  foldl (fun m c => <[name c := c]> m) ∅ columns.

Definition blockingColumns (columns : list dlqColumnMetadata) : list dlqColumnMetadata :=
  filter (fun c => name c <> "id" /\ name c <> "event" /\ canOmitColumnFromInsert c = false) columns.

Definition validateDLQTableMetadata (table : string) (metadata : dlqTableMetadata) : error + unit :=
  if bool_decide (length (dlq_columns metadata) = 0)%nat
  then err ("DLQ table " +:+ table +:+ " does not exist or has no columns")
  else if negb (bool_decide (relkind metadata = "r")) && negb (bool_decide (relkind metadata = "p"))
  then err ("DLQ table " +:+ table +:+ " must be an ordinary or partitioned table")
  else if negb (canInsertTable metadata)
  then err ("missing INSERT privilege on DLQ table " +:+ table)
  else
    let columns := columns_by_name (dlq_columns metadata) in
    match columns !! "id" with
    | None => err ("DLQ table " +:+ table +:+ " is missing required column: id")
    | Some id =>
        if negb (canOmitColumnFromInsert id)
        then err ("DLQ table " +:+ table +:+ " column id must be nullable, generated, identity, or have a default")
        else
          match columns !! "event" with
          | None => err ("DLQ table " +:+ table +:+ " is missing required column: event")
          | Some event =>
              if negb (bool_decide (generated event = ""))
              then err ("DLQ table " +:+ table +:+ " column event must accept inserted values")
              else if negb (bool_decide (typeName event = "json")) && negb (bool_decide (typeName event = "jsonb"))
              then err ("DLQ table " +:+ table +:+ " column event must be json or jsonb, got " +:+ typeName event)
              else if negb (canInsertColumn event)
              then err ("missing INSERT privilege on DLQ table " +:+ table +:+ " column event")
              else
                let blocking := blockingColumns (dlq_columns metadata) in
                if bool_decide (blocking = []) then inr tt
                else err ("DLQ table " +:+ table
                          +:+ " has required columns without defaults that Outboxer does not insert: "
                          +:+ strings_Join (name <$> blocking) ", ")
          end
    end.

Definition checkDLQWorks : prog (error + unit) :=
  if bool_decide (DLQTable cfg = "") then Ret (inr tt)
  else do! r <- loadDLQTableMetadata;
       Ret (match r with inl e => inl e | inr m => validateDLQTableMetadata (DLQTable cfg) m end).

(** ** Dead letters *)

Definition eventJSONValue (v : value) : value :=
  match v with
  | VBytes s => match json_Unmarshal s with inr decoded => decoded | inl _ => VString s end
  | _ => v
  end.

Definition originalEventJSON (evt : event) : object := eventJSONValue <$> columns evt.

(** [now] is the wall clock when the payload is built. *)
Definition deadLetterPayload (now : Z) (poisoned : poisonEvent) : object :=
  let evt := poison_evt poisoned in
  let payload : object :=
    <["source_schema" := VString (PGSchema cfg)]>
    (<["source_table" := VString (EventTable cfg)]>
    (<["dead_lettered_at" := VString (time_Format now)]>
    (<["target" := VString (target (route evt))]>
    (<["destination" := VString (destination (route evt))]>
    (<["original_event" := VObject (originalEventJSON evt)]> ∅))))) in
  if bool_decide (poison_error poisoned = "") then payload
  else <["error" := VString (poison_error poisoned)]> payload.

Definition dlq_insert_query : string :=
  "INSERT INTO " +:+ qualifiedIdent (PGSchema cfg) (DLQTable cfg) +:+ " (" +:+ ident "event"
  +:+ ") SELECT unnest($1::text[])::jsonb".

Definition marshal_step (payloads : list string) (poisoned : poisonEvent) :
    prog (list string + option error) :=
  do! now <- act TimeNow;
  Ret (match json_Marshal (deadLetterPayload now poisoned) with
       | inl e => inr (Some e)
       | inr payload => inl (payloads ++ [payload])
       end).

Definition insertDeadLetters (poison : list poisonEvent) : prog (option error) :=
  if bool_decide (DLQTable cfg = "") || bool_decide (length poison = 0)%nat then Ret None
  else
    finally (for_loop poison marshal_step []) (fun payloads =>
    do! r <- act (ExecInsert dlq_insert_query payloads);
    match r with
    | Some e => Ret (Some e)
    | None => run! markProgress; Ret None
    end).

(** ** Laws *)

Lemma columns_by_name_app cs c :
  columns_by_name (cs ++ [c]) = <[name c := c]> (columns_by_name cs).
Proof. unfold columns_by_name. by rewrite foldl_app. Qed.

Lemma columns_by_name_lookup cs n c :
  NoDup (name <$> cs) -> columns_by_name cs !! n = Some c <-> c ∈ cs /\ name c = n.
Proof.
  induction cs as [|c' cs IH] using rev_ind.
  { intros _. unfold columns_by_name. simpl. rewrite lookup_empty. split; [done|]. by intros [?%elem_of_nil _]. }
  rewrite fmap_app, columns_by_name_app, NoDup_app. intros (Hnd & Hdis & _).
  rewrite elem_of_app, list_elem_of_singleton. destruct (decide (name c' = n)) as [<-|Hne].
  - rewrite lookup_insert_eq. split; [intros [= ->]; by auto|]. intros [[Hc| ->] Hn]; [|done].
    exfalso. apply (Hdis (name c)); [by apply list_elem_of_fmap_2|]. rewrite Hn. set_solver.
  - rewrite lookup_insert_ne, IH by done. naive_solver.
Qed.

(** The dead letters this table can hold. *)
Record dlq_ok (metadata : dlqTableMetadata) : Prop := {
  dlq_ok_relation : relkind metadata = "r" \/ relkind metadata = "p";
  dlq_ok_table : canInsertTable metadata = true;
  dlq_ok_event : exists c, c ∈ dlq_columns metadata /\ name c = "event" /\ generated c = ""
                   /\ (typeName c = "json" \/ typeName c = "jsonb") /\ canInsertColumn c = true;
  dlq_ok_id : exists c, c ∈ dlq_columns metadata /\ name c = "id";
  dlq_ok_rest : forall c, c ∈ dlq_columns metadata -> name c <> "event" ->
    notNull c = false \/ is_Some (defaultExpr c) \/ identity c <> "" \/ generated c <> "";
}.

Lemma canOmitColumnFromInsert_iff c :
  canOmitColumnFromInsert c = true
  <-> notNull c = false \/ is_Some (defaultExpr c) \/ identity c <> "" \/ generated c <> "".
Proof.
  unfold canOmitColumnFromInsert.
  rewrite !orb_true_iff, !negb_true_iff, bool_decide_eq_true, !bool_decide_eq_false. tauto.
Qed.

Lemma accepted_guard (b : bool) text (r : error + unit) :
  (if b then err text else r) = inr tt <-> b = false /\ r = inr tt.
Proof. destruct b; split; try done; by intros [? ?]. Qed.

Lemma accepted_lookup {T} (o : option T) text (f : T -> error + unit) :
  match o with None => err text | Some c => f c end = inr tt <-> exists c, o = Some c /\ f c = inr tt.
Proof. destruct o; split; try done; [eauto|intros (c & [= ->] & ?); done|by intros (c & ? & _)]. Qed.

Lemma accepted_else (b : bool) text : (if b then inr tt else err text : error + unit) = inr tt <-> b = true.
Proof. by destruct b. Qed.

Lemma blockingColumns_nil cs :
  blockingColumns cs = []
  <-> forall c, c ∈ cs -> name c <> "id" -> name c <> "event" -> canOmitColumnFromInsert c = true.
Proof.
  unfold blockingColumns. split.
  - intros Hf c Hc Hi He. destruct (canOmitColumnFromInsert c) eqn:Ho; [done|].
    exfalso. apply (not_elem_of_nil c). rewrite <- Hf. by apply list_elem_of_filter.
  - intros Hall. destruct (filter _ cs) as [|c l] eqn:Hl; [done|].
    assert (Hin : c ∈ c :: l) by apply list_elem_of_here. rewrite <- Hl in Hin.
    apply list_elem_of_filter in Hin as [(H1 & H2 & H3) Hin]. rewrite Hall in H3; done.
Qed.

Lemma validateDLQTableMetadata_iff table metadata :
  NoDup (name <$> dlq_columns metadata) ->
  validateDLQTableMetadata table metadata = inr tt <-> dlq_ok metadata.
Proof.
  intros Hnd. unfold validateDLQTableMetadata. cbv zeta.
  rewrite !accepted_guard, accepted_lookup. setoid_rewrite accepted_guard. setoid_rewrite accepted_lookup.
  repeat setoid_rewrite accepted_guard. setoid_rewrite accepted_else.
  setoid_rewrite (columns_by_name_lookup _ _ _ Hnd). setoid_rewrite bool_decide_eq_true.
  setoid_rewrite blockingColumns_nil. setoid_rewrite andb_false_iff. setoid_rewrite negb_false_iff.
  setoid_rewrite bool_decide_eq_true. setoid_rewrite canOmitColumnFromInsert_iff.
  rewrite bool_decide_eq_false. split.
  - intros (_ & Hr & Ht & id & [Hid Hidn] & Hido & ev & [Hev Hevn] & Hg & Hty & Hins & Hall).
    split; [done|done|eauto 10|eauto|]. intros c Hc Hne. destruct (decide (name c = "id")) as [Hci|]; [|auto].
    assert (c = id) as ->; [|done]. apply (NoDup_fmap_inj name (dlq_columns metadata)); congruence.
  - intros [Hr Ht (ev & Hev & Hevn & Hg & Hty & Hins) (id & Hid & Hidn) Hrest].
    split_and!; [|done|done|].
    + intros Hl%length_zero_iff_nil. rewrite Hl in Hid. by apply elem_of_nil in Hid.
    + exists id. split_and!; [done|done|by apply Hrest; [|congruence]|].
      exists ev. split_and!; auto.
Qed.

End dlq.

(** ** Properties *)

(** C38. The startup checks are exact.  The event table is accepted exactly when it has every column
    the configuration depends on: the id, the payload, the timestamp when an age limit is set, the
    target when there are two providers, the destination when a provider has no default.  A
    dead-letter table is accepted exactly when the relay can write to it: an ordinary or
    partitioned table with the INSERT privilege, a json or jsonb column [event] it may insert into,
    an [id], and no other column that an insert of [event] alone would have to fill. *)
Theorem startup_checks_exact `{GoRuntime} (cfg : appConfig) (columns : list string) (table : string)
    (metadata : dlqTableMetadata) :
  NoDup (name <$> dlq_columns metadata) ->
  (validateEventColumns cfg columns = inr tt
   <-> forall name, name <> "" ->
       name = cfgEventID cfg \/ name = EventPayload cfg
       \/ (0 < MaxEventAge cfg)%Z /\ name = EventTimestamp cfg
       \/ (PubSubEnabled cfg = true /\ SQSEnabled cfg = true) /\ name = EventTarget cfg
       \/ (PubSubEnabled cfg = true /\ DefaultPubSubTopic cfg = ""
           \/ SQSEnabled cfg = true /\ DefaultSQSQueueURL cfg = "") /\ name = EventDestination cfg ->
       name ∈ columns)
  /\ (validateDLQTableMetadata table metadata = inr tt <-> dlq_ok metadata).
Proof. intros Hnd. split; [apply validateEventColumns_exact|by apply validateDLQTableMetadata_iff]. Qed.

Lemma startup_checks_exact_witness :
  let id := DlqColumn "id" "int8" true None "a" "" true in
  let event := DlqColumn "event" "jsonb" true None "" "" true in
  dlq_ok (DlqTable "r" true [id; event])
  /\ validateDLQTableMetadata "dead" (DlqTable "r" true [id; event; DlqColumn "who" "text" true None "" "" true])
     <> inr tt.
Proof.
  split; [|discriminate].
  apply (startup_checks_exact (H := sample_runtime) sample_sqs [] "dead"); [|reflexivity].
  apply (bool_decide_unpack _). vm_compute. exact I.
Defined.
