(* ===== verification/Backlog.v ===== *)
(** * The backlog gauge ([backlog.go])

    After a committed batch the gauge is set from the batch itself when it drained every route,
    and from a bounded count otherwise, at most once per interval: [updateBacklog] and
    [countBacklog], and what they say of the rows of the table when the database answers the count
    from it.  [backlogCountSQL] is in [Routing.v] and [batchDrained] in [Select.v]. *)
From S2P Require Import Prelude GoErrors Config Values Samples Conc Provider Stats App Routes Sql Routing RoutingSpec Select.
Local Open Scope go_scope.

Section backlog.
Context `{GoRuntime} `{Pgx} (cfg : appConfig).

Definition backlogProbeFallbackInterval : Z := 10 * second.

Definition backlogProbeInterval : Z :=
  if bool_decide (0 < StatsInterval cfg)%Z then StatsInterval cfg else backlogProbeFallbackInterval.

Definition countBacklog : prog (error + (Z * bool)) :=
  do! r <- act (QueryBacklog (backlogCountSQL cfg) (BacklogCountLimit cfg));
  Ret (match r with
       | inl e => inl e
       | inr (routable, scanned) => inr (routable, bool_decide (BacklogCountLimit cfg <= scanned)%Z)
       end).

(** Takes and returns [lastBacklogProbe]. *)
Definition updateBacklog (lastBacklogProbe : Z) (result : batchResult) : prog Z :=
  if drained result then
    run! act (SetBacklog (b_keptForRetry (stats result)) false); Ret lastBacklogProbe
  else if bool_decide (BacklogCountLimit cfg <= 0)%Z then
    run! act (SetBacklog (b_keptForRetry (stats result)) true); Ret lastBacklogProbe
  else
    do! now <- act TimeNow;
    if bool_decide (time_Sub now lastBacklogProbe < backlogProbeInterval)%Z then Ret lastBacklogProbe
    else
      do! lastBacklogProbe <- act TimeNow;
      do! r <- countBacklog;
      match r with
      | inl _ => run! act (SlogFailure "Failed to count backlog" "backlog-probe"); Ret lastBacklogProbe
      | inr (count, capped) => run! act (SetBacklog count capped); Ret lastBacklogProbe
      end.

(** ** What the count answers *)

Definition routable (table : list object) : list object :=
  filter (fun row => is_Some (route_of cfg (row_text row))) table.

Lemma backlog_count_spec table limit :
  (0 <= limit)%Z ->
  backlog_count cfg table limit
  = (Z.of_nat (length (routable (take (Z.to_nat limit) table))),
     Z.min limit (Z.of_nat (length table))).
Proof.
  intros Hl. unfold backlog_count, routable. f_equal.
  - do 2 f_equal. apply list_filter_iff. intros row. unfold where_.
    rewrite bool_decide_eq_true. apply routable_meaning.
  - rewrite length_take. lia.
Qed.

Lemma routable_take n table : length (routable (take n table)) <= length (routable table).
Proof.
  unfold routable. rewrite <- (take_drop n table) at 2. rewrite filter_app, length_app. lia.
Qed.

(** What a gauge of [n], a floor or exact, says of the rows of a table: [n] are the routable ones
    among the oldest [BacklogCountLimit], so never more than the backlog; all of it when [n] is
    exact; and it is a floor only when the table has that many rows. *)
Record gauge_ok (table : list object) (n : Z) (floor : bool) : Prop := {
  gauge_counts : n = Z.of_nat (length (routable (take (Z.to_nat (BacklogCountLimit cfg)) table)));
  gauge_below : (n <= Z.of_nat (length (routable table)))%Z;
  gauge_exact : floor = false -> n = Z.of_nat (length (routable table));
  gauge_floor : floor = true -> (BacklogCountLimit cfg <= Z.of_nat (length table))%Z;
}.

(** ** Reading a trace *)

(** What the gauge is set to, in order. *)
Definition gauges (tr : list step) : list (Z * bool) :=
  omap (fun a => match projT1 a with SetBacklog n floor => Some (n, floor) | _ => None end) tr.

(** The counts asked for, with the answers. *)
Definition counts (tr : list step) : list (string * Z * (error + (Z * Z))) :=
  omap (fun a => match projT1 a as c return app_resp c -> option (string * Z * (error + (Z * Z))) with
                 | QueryBacklog query limit => fun r => Some (query, limit, r)
                 | _ => fun _ => None
                 end (projT2 a)) tr.

(** A database that holds the rows of [table], oldest first, answers the count, or fails. *)
Definition counts_table (table : list object) (tr : list step) : Prop :=
  forall limit answer, (backlogCountSQL cfg, limit, inr answer) ∈ counts tr ->
  answer = backlog_count cfg table limit.

Lemma countBacklog_spec table tr r :
  (0 < BacklogCountLimit cfg)%Z -> exec countBacklog tr r -> counts_table table tr ->
  exists answer, tr = [did (QueryBacklog (backlogCountSQL cfg) (BacklogCountLimit cfg)) answer]
    /\ match r with
       | inl e => answer = inl e
       | inr (n, capped) => is_Some (match answer with inl _ => None | inr a => Some a end) /\ gauge_ok table n capped
       end.
Proof.
  intros Hl (t1 & t2 & answer & -> & ->%exec_perform & [-> ->])%exec_bind Ht.
  exists answer. split; [done|]. destruct answer as [e|[count scanned]]; [done|]. split; [done|].
  assert (Ha := Ht _ _ (list_elem_of_here _ _)). rewrite backlog_count_spec in Ha by lia. simplify_eq. split.
  - done.
  - pose proof (routable_take (Z.to_nat (BacklogCountLimit cfg)) table). lia.
  - intros Hc%bool_decide_eq_false. by rewrite take_ge by lia.
  - intros Hc%bool_decide_eq_true. lia.
Qed.

End backlog.

(** ** Properties *)


(** *** Witness

    A database with four routable rows of five, and one with twelve, both counted up to ten rows,
    when the last count was a minute ago. *)
#[export] Instance sample_pgx : Pgx := {| Sanitize := fun names => strings_Join names "." |}.

Definition busy_table : list object := (fun i => sample_row (Z.of_nat i) "") <$> seq 1 12.

Definition counted_answer (table : list object) (past : list step) (c : app_cmd) : app_resp c :=
  match c as c return app_resp c with
  | TimeNow => minute
  | QueryBacklog query limit => inr (backlog_count sample_sqs table limit)
  | QueryEvents query => inl (ErrText "unused")
  | QueryColumns query => inl (ErrText "unused")
  | QueryMetadata query tbl => inl (ErrText "unused")
  | SendTo tgt evs => Sent [] [] None
  | WaitForNotification d => WaitOver
  | CtxErr => false
  | BeginTx | Commit | Rollback | ExecInsert _ _ | ExecDelete _ _ | DbConn | ExecListen _ | ExecUnlisten => None
  | _ => tt
  end.

Definition counted_run (table : list object) :=
  run (counted_answer table) (updateBacklog sample_sqs 0 (BatchResult 4 false no_stats)) [].

