(* ===== verification/Notify.v ===== *)
(** * The notification listener ([notify.go], [waitForEvents])

    The relay keeps one connection subscribed to the notification channel; a wait that fails
    drops it, and the next idle cycle opens another.  The listener is whether there is one.  Waiting
    in time is in [Listener.v]; here a wait is an action, and draining is another. *)
From S2P Require Import Prelude GoErrors Config Values Conc Provider Stats App Sql.
Local Open Scope go_scope.

Section notify.
Context `{Pgx} (cfg : appConfig).

Definition startListener : prog (option error) :=
  do! r <- act DbConn;
  match r with
  | Some e => Ret (Some e)
  | None =>
      do! r <- act (ExecListen ("LISTEN " +:+ ident (NotifyChannel cfg)));
      match r with
      | Some e => run! act CloseConn; Ret (Some e)
      | None => Ret None
      end
  end.

(** [close] of a listener, which may be nil. *)
Definition close (listener : bool) : prog unit :=
  if listener then
    do! r <- act ExecUnlisten;
    run! (if bool_decide (is_Some r) then act DiscardConn else Ret tt);
    act CloseConn
  else Ret tt.

Definition wait (timeout : Z) : prog (option error) :=
  do! r <- act (WaitForNotification timeout);
  match r with
  | WaitOver => Ret None
  | WaitFailed e => Ret (Some e)
  | Notified => run! act DrainNotifications; Ret None
  end.

Definition wait_listening : prog bool :=
  do! r <- wait pollInterval;
  match r with
  | None => Ret true
  | Some _ =>
      do! cancelled <- act CtxErr;
      if cancelled : bool then Ret true else run! close true; Ret false
  end.

(** [waitForEvents]; the debug lines are left out. *)
Definition waitForEvents (listener : bool) : prog bool :=
  if listener then wait_listening
  else
    do! r <- startListener;
    match r with
    | Some _ => run! act CtxErr; run! sleepContext pollInterval; Ret false
    | None => wait_listening
    end.

End notify.

(** ** Connections held

    A successful [db.Conn] takes a connection and [Close] gives it back; the same for a
    transaction, which [Commit] and [Rollback] end whatever they return. *)
Definition conn_weight (a : step) : Z :=
  match projT1 a as c return app_resp c -> Z with
  | DbConn => fun r => match r with None => 1 | Some _ => 0 end
  | CloseConn => fun _ => -1
  | _ => fun _ => 0
  end%Z (projT2 a).
