(* ===== verification/Listener.v ===== *)
(** * Waiting for a notification, in time ([notify.go])

    [wait] and [drainNotifications] against a connection on which notifications arrive at given
    moments.  What the driver promises of [WaitForNotification] is the class [Connection]: it
    returns what has arrived, or else waits for it until its context is done, and takes at most
    [latency] more.  A wait consumes what it returns, so draining is bounded by what arrives:
    the fuel is one more than that. *)
From S2P Require Import Prelude GoErrors Config Values Conc Provider Stats App Sql Context Notify.
Local Open Scope Z_scope.

(** What arrives on a connection and when: a notification ([None]), or the end of the connection. *)
Definition arrival : Type := Z * option error.

Class Connection := {
  conn : Type;
  incoming : conn -> list arrival;
  latency : Z;
  (* the error, the moment of the return, and the connection left *)
  WaitFor : conn -> context -> Z -> option error * Z * conn;
  latency_nonneg : 0 <= latency;
  (* what it promises of a context that will be done *)
  WaitFor_returns : forall c d now r t c', WaitFor c (Some d) now = (r, t, c') -> now <= t <= Z.max now d + latency;
  WaitFor_notified : forall c d now t c', WaitFor c (Some d) now = (None, t, c') ->
    exists a, incoming c = (a, None) :: incoming c' /\ a <= t <= Z.max now a + latency;
  WaitFor_error : forall c d now e t c', WaitFor c (Some d) now = (Some e, t, c') ->
    (exists a, incoming c = (a, Some e) :: incoming c' /\ a <= t)
    \/ incoming c = incoming c' /\ d <= t
       /\ forall a x rest, now < d -> incoming c = (a, x) :: rest -> d <= Z.max now a + latency;
}.

Section listener.
Context `{Connection}.

(** The window of [drainNotifications]. *)
Definition drainCtx (ctx : context) (now : Z) : context := context_WithTimeout ctx now millisecond.

(** The moment it returns, and the connection left. *)
Fixpoint drainNotifications (fuel : nat) (ctx : context) (c : conn) (now : Z) : option (Z * conn) :=
  match fuel with
  | O => None
  | S fuel =>
      let '(err, t, c) := WaitFor c (drainCtx ctx now) now in
      match err with
      | Some _ => Some (t, c)
      | None => drainNotifications fuel ctx c t
      end
  end.

Definition wait (fuel : nat) (ctx : context) (timeout : Z) (c : conn) (now : Z) : option (option error * Z * conn) :=
  let waitCtx := context_WithTimeout ctx now timeout in
  let '(err, t, c) := WaitFor c waitCtx now in
  match err with
  | Some e => Some (if ctx_done waitCtx t then None else Some e, t, c)
  | None =>
      match drainNotifications fuel ctx c t with
      | None => None
      | Some (t, c) => Some (None, t, c)
      end
  end.

(** ** Draining *)

Definition notifications (times : list Z) : list arrival := (fun a => (a, None)) <$> times.

(** What a wait leaves of [rest]: all of it, or all but the failure it met. *)
Definition left_of (rest : list arrival) (c : conn) : Prop :=
  rest = incoming c \/ exists a e, rest = (a, Some e) :: incoming c.

(** The end of the connection does not wait behind a window: nothing old is left. *)
Definition nothing_old (ctx : context) (t : Z) (c : conn) : Prop :=
  ctx_done ctx t = true \/ forall a x rest, incoming c = (a, x) :: rest -> t <= a + 2 * latency.

Definition drain_step : Z := millisecond + latency.

Lemma drain_total fuel ctx c now :
  (length (incoming c) < fuel)%nat -> is_Some (drainNotifications fuel ctx c now).
Proof.
  revert c now. induction fuel as [|fuel IH]; intros c now Hf; [lia|]. cbn [drainNotifications].
  destruct (WaitFor c (drainCtx ctx now) now) as [[[e|] t] c'] eqn:Hw; [by eexists|].
  apply WaitFor_notified in Hw as (a & Ha & _). apply IH. rewrite Ha in Hf. simpl in Hf. lia.
Qed.

Lemma drain_window ctx now : exists d, drainCtx ctx now = Some d /\ d <= now + millisecond.
Proof. unfold drainCtx, context_WithTimeout, earlier. destruct ctx as [d|]; eexists; (split; [done|lia]). Qed.

(** The last call of [drainNotifications], which finds nothing. *)
Lemma drain_end ctx c now e t c' :
  latency < millisecond -> WaitFor c (drainCtx ctx now) now = (Some e, t, c') ->
  left_of (incoming c) c' /\ now <= t <= now + drain_step
  /\ (incoming c = incoming c' -> nothing_old ctx t c').
Proof.
  intros Hlat Hw. destruct (drain_window ctx now) as (d & Hd & Hle). rewrite Hd in Hw.
  pose proof (WaitFor_returns _ _ _ _ _ _ Hw) as Ht.
  assert (Hbound : now <= t <= now + drain_step) by (unfold drain_step, millisecond in *; lia).
  split_and!; [|lia|lia|].
  { apply WaitFor_error in Hw as [(a & Ha & _)|(-> & _)]; [right; eauto|by left]. }
  intros Heq. unfold nothing_old. destruct (ctx_done ctx t) eqn:Hdone; [by left|right].
  intros a x rest Ha. apply WaitFor_error in Hw as [(a' & Ha' & _)|(_ & Hover & Hw)].
  { rewrite Heq in Ha'. apply (f_equal length) in Ha'. simpl in Ha'. lia. }
  assert (d = now + millisecond) as ->.
  { unfold context_WithTimeout, earlier in Hd. destruct ctx as [d'|]; simpl in Hdone; injection Hd as <-; [|done]. apply Z.leb_gt in Hdone. lia. }
  rewrite <- Heq in Ha. unfold drain_step, millisecond in *. specialize (Hw a x rest ltac:(lia) Ha). lia.
Qed.

(** A run of [drainNotifications]: the notifications it consumes, each in at most a window and a
    latency. *)
Lemma drain_spec fuel ctx c now t c' :
  latency < millisecond -> drainNotifications fuel ctx c now = Some (t, c') ->
  exists times rest, incoming c = notifications times ++ rest /\ left_of rest c'
    /\ now <= t <= now + (Z.of_nat (length times) + 1) * drain_step
    /\ (rest = incoming c' -> nothing_old ctx t c').
Proof.
  intros Hlat. revert c now. induction fuel as [|fuel IH]; intros c now Hd; [done|]. cbn [drainNotifications] in Hd.
  destruct (WaitFor c (drainCtx ctx now) now) as [[[e|] t1] c1] eqn:Hw.
  - injection Hd as <- <-. destruct (drain_end _ _ _ _ _ _ Hlat Hw) as (Hl & Ht & Hold).
    exists [], (incoming c). split_and!; [done|done|lia|simpl; lia|done].
  - destruct (IH _ _ Hd) as (times & rest & Hin & Hl & Ht & Hold).
    destruct (drain_window ctx now) as (d & Hdl & Hle). rewrite Hdl in Hw.
    pose proof (WaitFor_returns _ _ _ _ _ _ Hw).
    apply WaitFor_notified in Hw as (a & Ha & _). exists (a :: times), rest.
    split_and!; [by rewrite Ha, Hin|done|lia| |done].
    unfold drain_step, millisecond in *. simpl. lia.
Qed.

(** Notifications that keep coming: each within the window of the one before. *)
Fixpoint dense (last : Z) (times : list Z) : Prop :=
  match times with
  | [] => True
  | a :: times => last <= a /\ a + latency < last + millisecond /\ dense a times
  end.

(** The last of them. *)
Definition latest (last : Z) (times : list Z) : Z := foldl (fun _ a => a) last times.

(** Such a stream is drained to its end: it keeps the relay waiting as long as it lasts. *)
Lemma drain_dense fuel c now last times rest t c' :
  latency < millisecond -> incoming c = notifications times ++ rest -> last <= now -> dense last times ->
  drainNotifications fuel Background c now = Some (t, c') -> latest last times <= t /\ (length (incoming c') <= length rest)%nat.
Proof.
  intros Hlat. revert c now last times rest.
  induction fuel as [|fuel IH]; intros c now last times rest Hin Hnow Hdense Hd; [done|].
  cbn [drainNotifications] in Hd. destruct (WaitFor c (drainCtx Background now) now) as [[[e|] t1] c1] eqn:Hw.
  - injection Hd as <- <-. destruct times as [|a times].
    { simpl in *. pose proof (WaitFor_returns _ _ _ _ _ _ Hw). split; [lia|].
      rewrite <- Hin. apply WaitFor_error in Hw as [(a & -> & _)|(-> & _)]; simpl; lia. }
    exfalso. simpl in Hin, Hdense. apply WaitFor_error in Hw as [(a' & Ha' & _)|(_ & _ & Hw)]; [congruence|].
    unfold drainCtx, Background, context_WithTimeout, earlier, millisecond in *.
    specialize (Hw a None _ ltac:(lia) Hin). lia.
  - pose proof (WaitFor_returns _ _ _ _ _ _ Hw). apply WaitFor_notified in Hw as (a & Ha & Hat).
    destruct times as [|a' times].
    + simpl in Hin. subst rest.
      destruct (IH c1 t1 last [] (incoming c1) eq_refl ltac:(lia) I Hd) as [Hlast Hlen].
      split; [done|]. rewrite Ha. simpl. lia.
    + simpl in Hin, Hdense. rewrite Ha in Hin. injection Hin as -> Hin.
      apply (IH c1 t1 a' times rest); [done|lia|tauto|done].
Qed.

(** ** Waiting *)

(** What a wait from [now] did: it consumed [times] and left [rest], the first call returned at [w]
    and the wait at [t]. *)
Record waited (ctx : context) (timeout : Z) (c : conn) (now : Z) (r : option error) (t : Z) (c' : conn)
    (w : Z) (times : list Z) (rest : list arrival) : Prop := {
  waited_consumes : incoming c = notifications times ++ rest /\ left_of rest c';
  (* not before there is something, and not after the window *)
  waited_window : now <= w <= Z.max now (earlier ctx (now + timeout)) + latency;
  waited_drains : w <= t <= w + Z.of_nat (length times) * drain_step;
  waited_over : times = [] -> r = None -> ctx_done (context_WithTimeout ctx now timeout) t = true;
  waited_failed : forall e, r = Some e ->
    times = [] /\ ctx_done (context_WithTimeout ctx now timeout) t = false
    /\ exists a, rest = (a, Some e) :: incoming c';
  (* what arrives in time wakes it at once, buffered or not *)
  waited_prompt : forall a l, incoming c = (a, None) :: l ->
    Z.max now a + latency < earlier ctx (now + timeout) -> times <> [] /\ w <= Z.max now a + latency;
  (* and nothing older is left for the next wait *)
  waited_coalesces : times <> [] -> rest = incoming c' -> nothing_old ctx t c';
  (* but a dense stream is waited for to its end *)
  waited_dense : forall a l l', incoming c = notifications (a :: l) ++ l' -> ctx = Background ->
    Z.max now a + latency < now + timeout -> dense a l -> latest a l <= t /\ (length (incoming c') <= length l')%nat;
}.

(** The first call. *)
Lemma first_prompt ctx timeout c now a l r t c' :
  WaitFor c (context_WithTimeout ctx now timeout) now = (r, t, c') -> incoming c = (a, None) :: l ->
  Z.max now a + latency < earlier ctx (now + timeout) -> r = None /\ incoming c' = l /\ a <= t <= Z.max now a + latency.
Proof.
  intros Hw Ha Hd. pose proof latency_nonneg. destruct r as [e|].
  - exfalso. apply WaitFor_error in Hw as [(a' & Ha' & _)|(_ & _ & Hw)]; [congruence|].
    specialize (Hw a None l ltac:(lia) Ha). lia.
  - apply WaitFor_notified in Hw as (a' & Ha' & Ht). rewrite Ha in Ha'. injection Ha' as <- ->. done.
Qed.

Lemma wait_notified fuel ctx timeout c now w c1 t c' :
  latency < millisecond -> WaitFor c (context_WithTimeout ctx now timeout) now = (None, w, c1) ->
  drainNotifications fuel ctx c1 w = Some (t, c') ->
  exists times rest, waited ctx timeout c now None t c' w times rest.
Proof.
  intros Hlat Hw Hd. destruct (drain_spec _ _ _ _ _ _ Hlat Hd) as (times & rest & Hin & Hl & Ht & Hold).
  pose proof (WaitFor_returns _ _ _ _ _ _ Hw).
  pose proof (WaitFor_notified _ _ _ _ _ Hw) as (a & Ha & Hat). exists (a :: times), rest. split; try done.
  - by rewrite Ha, Hin.
  - split; [lia|]. simpl length. lia.
  - intros a' l Ha' Hwin. split; [done|]. by destruct (first_prompt _ _ _ _ _ _ _ _ _ Hw Ha' Hwin) as (_ & _ & ? & ?).
  - intros a' l l' Ha' -> Hwin Hdense. rewrite Ha in Ha'. injection Ha' as <- Hin'.
    eapply (drain_dense _ c1 w a); [done|exact Hin'|lia|done|done].
Qed.

Lemma wait_not_notified ctx timeout c now e w c' :
  WaitFor c (context_WithTimeout ctx now timeout) now = (Some e, w, c') ->
  waited ctx timeout c now (if ctx_done (context_WithTimeout ctx now timeout) w then None else Some e) w c' w [] (incoming c).
Proof.
  intros Hw. pose proof (WaitFor_returns _ _ _ _ _ _ Hw).
  pose proof (WaitFor_error _ _ _ _ _ _ Hw) as He.
  assert (Hnone : forall a l, incoming c = (a, None) :: l ->
    Z.max now a + latency < earlier ctx (now + timeout) -> False).
  { intros a l Ha Hwin. by destruct (first_prompt _ _ _ _ _ _ _ _ _ Hw Ha Hwin). }
  split; try done.
  - split; [done|]. destruct He as [(a & Ha & _)|(Ha & _)]; [right; eauto|by left].
  - simpl. lia.
  - intros _. by destruct (ctx_done _ w).
  - intros e' He'. destruct (ctx_done _ w) eqn:Hdone; [done|]. injection He' as <-. split_and!; [done..|].
    destruct He as [(a & Ha & _)|(_ & Hdone' & _)]; [eauto|].
    apply Z.leb_le in Hdone'. unfold ctx_done, context_WithTimeout in Hdone. congruence.
  - intros a l Ha Hwin. by destruct (Hnone _ _ Ha Hwin).
  - intros a l l' Ha -> Hwin. by destruct (Hnone _ _ Ha Hwin).
Qed.

Lemma wait_waited ctx timeout c now :
  latency < millisecond ->
  exists r t c' w times rest, wait (S (length (incoming c))) ctx timeout c now = Some (r, t, c')
    /\ waited ctx timeout c now r t c' w times rest.
Proof.
  intros Hlat. unfold wait. destruct (WaitFor c (context_WithTimeout ctx now timeout) now) as [[[e|] w] c1] eqn:Hw.
  - exists (if ctx_done (context_WithTimeout ctx now timeout) w then None else Some e), w, c1, w, [], (incoming c). split; [done|]. by apply wait_not_notified.
  - pose proof (WaitFor_notified _ _ _ _ _ Hw) as (a & Ha & _).
    destruct (drain_total (S (length (incoming c))) ctx c1 w) as [[t c'] Hd]; [rewrite Ha; simpl; lia|].
    rewrite Hd. destruct (wait_notified _ _ _ _ _ _ _ _ _ Hlat Hw Hd) as (times & rest & Hwt).
    by exists None, t, c', w, times, rest.
Qed.

(** The outcome of the wait as the loop sees it ([Notify.v]), which does not look at the clock. *)
Definition answer (ctx : context) (timeout : Z) (c : conn) (now : Z) : notification :=
  let waitCtx := context_WithTimeout ctx now timeout in
  let '(err, t, _) := WaitFor c waitCtx now in
  match err with
  | None => Notified
  | Some e => if ctx_done waitCtx t then WaitOver else WaitFailed e
  end.

Definition untimed (timeout : Z) (a : notification) : list step :=
  did (WaitForNotification timeout) a
  :: match a with Notified => [did DrainNotifications tt] | _ => [] end.

Lemma wait_untimed fuel ctx timeout c now r t c' :
  wait fuel ctx timeout c now = Some (r, t, c') ->
  exec (Notify.wait timeout) (untimed timeout (answer ctx timeout c now)) r.
Proof.
  unfold wait, answer, Notify.wait. intros Hw. apply exec_bind.
  assert (Hact : forall k x, exec (act k) [did k x] x) by (intros k x; by apply (exec_perform (R := app_resp) k)).
  destruct (WaitFor c (context_WithTimeout ctx now timeout) now) as [[[e|] w] c1].
  - set (over := ctx_done (context_WithTimeout ctx now timeout) w) in *. clearbody over. injection Hw as <- _ _.
    exists [did (WaitForNotification timeout) (if over then WaitOver else WaitFailed e)], [], (if over then WaitOver else WaitFailed e).
    split; [by destruct over|]. split; [apply Hact|]. destruct over; by split.
  - destruct (drainNotifications fuel ctx c1 w) as [[? ?]|]; [|done]. injection Hw as <- _ _.
    exists [did (WaitForNotification timeout) Notified], [did DrainNotifications tt], Notified.
    split; [done|]. split; [apply Hact|]. apply exec_bind.
    exists [did DrainNotifications tt], [], tt. split; [done|]. split; [apply (Hact DrainNotifications)|by split].
Qed.

End listener.

(** ** Property *)

(** C25. Waiting for a notification always returns, and says when and why.  It returns nil when
    notifications arrive, when its window or the context is over, and an error only when the
    connection ends within the window.  A notification that has arrived, buffered during a batch or
    not, wakes it within the latency of the driver; it then takes the notifications that keep
    arriving, at most a millisecond and a latency for each, and leaves nothing old for the next
    wait, so that a burst is one wake-up; without a notification it does not return before the window
    is over.  A stream of notifications less than a millisecond apart is waited for to its end,
    however long it lasts.  The outcome is the one the loop's program gets. *)
Theorem wait_wakes `{Connection} (ctx : context) (timeout : Z) (c : conn) (now : Z) :
  latency < millisecond ->
  exists r t c' w times rest, wait (S (length (incoming c))) ctx timeout c now = Some (r, t, c')
    /\ waited ctx timeout c now r t c' w times rest
    /\ exec (Notify.wait timeout) (untimed timeout (answer ctx timeout c now)) r.
Proof.
  intros Hlat. destruct (wait_waited ctx timeout c now Hlat) as (r & t & c' & w & times & rest & Hw & Hok).
  exists r, t, c', w, times, rest. split_and!; [done..|]. by eapply wait_untimed.
Qed.

(** ** A connection

    One that has no latency, and a burst on it: three notifications while a batch was running, one
    that comes half a millisecond after the wait began, and one for the next wait. *)
Definition context_error : error := ErrText "context deadline exceeded".

Definition wire_wait (c : list arrival) (ctx : context) (now : Z) : option error * Z * list arrival :=
  let over d := (Some context_error, Z.max now d, c) in
  match ctx, c with
  | Some d, (a, x) :: rest => if a <=? d then (x, Z.max now a, rest) else over d
  | Some d, [] => over d
  | None, (a, x) :: rest => (x, Z.max now a, rest)
  | None, [] => over now
  end.

#[export] Instance wire : Connection.
Proof.
  refine {| conn := list arrival; incoming := id; latency := 0; WaitFor := wire_wait |}; [done|..].
  - intros [|[a x] rest] d now r t c'; simpl; [|destruct (Z.leb_spec a d)]; intros [= <- <- <-]; lia.
  - intros [|[a x] rest] d now t c'; simpl; [done|]. destruct (Z.leb_spec a d); intros [= -> <- <-].
    exists a. split; [done|lia].
  - intros [|[a x] rest] d now e t c'; simpl; [intros [= <- <- <-]; right; split_and!; [done|lia|done]|].
    destruct (Z.leb_spec a d); [intros [= -> <- <-]; left; exists a; split; [done|lia]|].
    intros [= <- <- <-]. right. split_and!; [done|lia|]. intros a' x' rest' _ [= <- <- <-]. lia.
Defined.

Definition burst : @conn wire :=
  [(100, None); (200, None); (300, None); (10 * second + millisecond / 2, None); (20 * second, None)].

Lemma wait_wakes_witness :
  wait 6 Background pollInterval burst (10 * second)
    = Some (None, 10 * second + millisecond / 2 + millisecond, [(20 * second, None)])
  /\ exists r t c' w times rest, wait 6 Background pollInterval burst (10 * second) = Some (r, t, c')
       /\ waited Background pollInterval burst (10 * second) r t c' w times rest
       /\ exec (Notify.wait pollInterval) (untimed pollInterval (answer Background pollInterval burst (10 * second))) r.
Proof. split; [vm_compute; reflexivity|]. by apply (wait_wakes Background pollInterval burst (10 * second)). Defined.
