(* ===== verification/Processor.v ===== *)
(** * The processing loop ([processor.go])

    One batch: select, triage, one goroutine per target that sends its events and collects the
    outcomes, dead letters, deletion, commit or rollback; and the loop around it. *)
From S2P Require Import Prelude GoErrors Config Values Conc Provider Stats App Routes Sql Routing Select Db Dlq Backlog Notify.
Local Open Scope go_scope.

Section processor.
Context `{GoRuntime} `{Pgx} `{MapRange} (cfg : appConfig).

(** The targets that have a sender: [buildProviderSenders] makes one per enabled provider. *)
Definition senders : list string := providerTargets (configuredProviderRoutes cfg).

Definition event_id (evt : event) : value := eventValue evt (cfgEventID cfg).

Definition event_key (evt : event) : string := eventIDKey (event_id evt).

(** ** Triage *)

Record batchTriage := BatchTriage {
  eventsByTarget : gmap string (list event);
  triage_poison : list poisonEvent;
}.

Definition isExpiredEvent (evt : event) (now : Z) : bool :=
  if bool_decide (MaxEventAge cfg <= 0)%Z then false
  else match eventTimestamp (eventValue evt (EventTimestamp cfg)) with
       | None => false
       | Some timestamp => bool_decide (MaxEventAge cfg < time_Sub now timestamp)%Z
       end.

Definition triage_event (now : Z) (triage : batchTriage) (evt : event) : error + batchTriage :=
  let reject error := BatchTriage (eventsByTarget triage) (triage_poison triage ++ [PoisonEvent evt error]) in
  if isExpiredEvent evt now then inr (reject "Event expired by MAX_EVENT_AGE_MS")
  else if bool_decide (target (route evt) = "")
  then err ("selected event " +:+ fmt_Sprint (event_id evt) +:+ " has no resolved route")
  else if bool_decide (target (route evt) ∉ senders)
  then err ("selected event target " +:+ strconv_Quote (target (route evt)) +:+ " has no configured sender")
  else match withParsedOptions evt cfg with
       | inl e => inr (reject (error_text e))
       | inr parsed =>
           let t := target (route evt) in
           inr (BatchTriage (<[t := default [] (eventsByTarget triage !! t) ++ [parsed]]> (eventsByTarget triage))
                  (triage_poison triage))
       end.

Definition triageEvents (events : list event) : prog (error + batchTriage) :=
  do! now <- act TimeNow;
  finally
    (for_loop events (fun triage evt =>
       run! markProgress;
       Ret (match triage_event now triage evt with inl e => inr (inl e) | inr t => inl t end))
     (BatchTriage ∅ []))
    (fun triage => Ret (inr triage)).

(** ** Collecting the outcomes of a sender *)

Record senderCollector := SenderCollector {
  eventsByID : gmap string event;
  seen : gset string;
  collected : senderOutput;
}.

Definition newSenderCollector (events : list event) : senderCollector :=
  SenderCollector (foldl (fun m evt => <[event_key evt := evt]> m) ∅ events) ∅ (SenderOutput [] []).

(** [record] as a step of the collector, under its mutex; [None]: the id is outside the batch. *)
Definition record_outcome (id : value) (reason : string) (poisoned : bool) (c : senderCollector) :
    option senderCollector :=
  match eventsByID c !! eventIDKey id with
  | None => None
  | Some evt =>
      if bool_decide (eventIDKey id ∈ seen c) then Some c
      else
        let out := collected c in
        Some (SenderCollector (eventsByID c) ({[eventIDKey id]} ∪ seen c)
          (if poisoned then SenderOutput (confirmed out) (poison out ++ [PoisonEvent evt reason])
           else SenderOutput (confirmed out ++ [evt]) (poison out)))
  end.

Definition record (id : value) (reason : string) (poisoned : bool) (c : senderCollector) : prog senderCollector :=
  run! markProgress;
  match record_outcome id reason poisoned c with
  | None =>
      run! act (SlogFailure "Sender reported an ID outside the selected batch, ignoring it"
                  ("sender-outside-selection|" +:+ eventIDKey id));
      Ret c
  | Some c' => Ret c'
  end.

Definition senderCollector_confirm (id : value) (c : senderCollector) : prog senderCollector :=
  record id "" false c.

Definition senderCollector_poison (id : value) (reason : string) (c : senderCollector) : prog senderCollector :=
  record id reason true c.

(** The callbacks wired by [collectSenderOutput]. *)
Definition on_callback (c : senderCollector) (cb : callback) : prog senderCollector :=
  match cb with
  | CbConfirm id => senderCollector_confirm id c
  | CbPoison id reason => senderCollector_poison id reason c
  | CbProgress => run! markProgress; Ret c
  | CbLogFailure message signature => run! act (SlogFailure message signature); Ret c
  end.

(** [send] is a call of a sender; its result holds the callbacks it made. *)
Definition collectSenderOutput (events : list event) (send : prog sent) : prog senderResult :=
  do! s <- send;
  do! c <- for_each (callbacks s) on_callback (newSenderCollector events);
  Ret (SenderResult (collected c) (send_err s)).

(** The goroutine of one target. *)
Definition collectProviderOutput (tgt : string) (events : list event) : prog senderResult :=
  collectSenderOutput events (act (SendTo tgt (providerEvents events cfg))).

(** ** One batch *)

Definition oldestEventAge (events : list event) : prog Z :=
  match events with
  | [] => Ret 0%Z
  | evt :: _ =>
      if bool_decide (EventTimestamp cfg = "") then Ret 0%Z
      else match eventTimestamp (eventValue evt (EventTimestamp cfg)) with
           | None => Ret 0%Z
           | Some timestamp => do! now <- act TimeNow; Ret (Z.max 0 (time_Sub now timestamp))
           end
  end.

Definition senderErrors (results : list senderResult) : option error :=
  foldl (fun senderErr r =>
    match result_err r with None => senderErr | Some e => errors_Join [senderErr; Some e] end) None results.

Definition int (n : nat) : Z := Z.of_nat n.

(** The statistics of a batch, less its durations. *)
Definition count_batch (selected age publish : Z) (sent poison : nat) (senderErr : option error) : batchStats :=
  let no_dlq := bool_decide (DLQTable cfg = "") in
  let b_poison := if no_dlq then int poison else 0%Z in
  let b_dlq := if no_dlq then 0%Z else int poison in
  let kept := (selected - int sent - b_poison - b_dlq)%Z in
  BatchStats selected (int sent) b_poison b_dlq (if bool_decide (kept < 0)%Z then 0%Z else kept)
    (int (countJoinedErrors senderErr))
    (if errors_Is senderErr errFatalAfterCommit then 1 else 0)%Z age publish 0.

Definition with_db_duration (s : batchStats) (d : Z) : batchStats :=
  BatchStats (b_selected s) (b_sent s) (b_poison s) (b_dlq s) (b_keptForRetry s) (b_senderErrors s)
    (b_fatalAfterCommitErrors s) (b_oldestEventAge s) (b_publishDuration s) d.

(** A failed statement: the database error, joined to the senders' errors when there are any. *)
Definition db_failure (senderErr : option error) (e : error) : option error :=
  match senderErr with
  | None => fmtDBError e
  | Some _ => errors_Join [senderErr; fmtDBError e]
  end.

(** The statements after the senders are done. *)
Definition writeBatch (result : batchResult) (selectDuration : Z) (poisonEvents : list poisonEvent)
    (deleteIDs : list value) (senderErr : option error) : prog (batchResult * option error) :=
  do! writeStart <- act TimeNow;
  do! r <- insertDeadLetters cfg poisonEvents;
  match r with
  | Some e => Ret (result, db_failure senderErr e)
  | None =>
      run! markProgress;
      do! r <- deleteEvents cfg deleteIDs;
      match r with
      | Some e => Ret (result, db_failure senderErr e)
      | None =>
          run! markProgress;
          do! now <- act TimeNow;
          Ret (BatchResult (selected result) (drained result)
                 (with_db_duration (stats result) (wrap64 (selectDuration + time_Sub now writeStart))),
               senderErr)
      end
  end.

(** The goroutines of a batch, and their results in the order they arrive. *)
Definition sendAll (triage : batchTriage) : prog (list senderResult) :=
  Par ((fun '(tgt, events) => collectProviderOutput tgt events) <$> range (eventsByTarget triage))
    (fun results => Ret results).

(** The poison events of a batch, and the ids it deletes: the triage's, then each sender's. *)
Definition batch_poison (triage : batchTriage) (results : list senderResult) : list poisonEvent :=
  triage_poison triage ++ concat ((fun r => poison (output r)) <$> results).

Definition deleteIDs (triage : batchTriage) (results : list senderResult) : list value :=
  ((fun p => event_id (poison_evt p)) <$> triage_poison triage)
  ++ concat ((fun r => (event_id <$> confirmed (output r))
                       ++ ((fun p => event_id (poison_evt p)) <$> poison (output r))) <$> results).

Definition batch_confirmed (results : list senderResult) : list event :=
  concat ((fun r => confirmed (output r)) <$> results).

Definition sendBatch (events : list event) (age selectDuration : Z) (triage : batchTriage) :
    prog (batchResult * option error) :=
  do! publishStart <- act TimeNow;
  do! results <- sendAll triage;
  do! publishEnd <- act TimeNow;
  let poisonEvents := batch_poison triage results in
  let senderErr := senderErrors results in
  let result := BatchResult (int (length events)) (batchDrained events (CollectBatchTarget cfg))
    (count_batch (int (length events)) age (time_Sub publishEnd publishStart)
       (length (batch_confirmed results)) (length poisonEvents) senderErr) in
  writeBatch result selectDuration poisonEvents (deleteIDs triage results) senderErr.

Definition processEventBatch : prog (batchResult * option error) :=
  run! markProgress;
  do! dbStart <- act TimeNow;
  do! r <- selectEvents cfg;
  match r with
  | inl e => Ret (no_result, fmtDBError e)
  | inr events =>
      do! now <- act TimeNow;
      run! markProgress;
      do! age <- oldestEventAge events;
      do! triage <- triageEvents events;
      match triage with
      | inl e =>
          Ret (BatchResult (int (length events)) (batchDrained events (CollectBatchTarget cfg))
                 (BatchStats (int (length events)) 0 0 0 0 0 0 age 0 0),
               fmtDBError e)
      | inr triage => sendBatch events age (time_Sub now dbStart) triage
      end
  end.

(** The end of a batch whose statements went through. *)
Definition commitBatch (result : batchResult) (batchErr : option error) : prog (batchResult * option error) :=
  do! r <- act Commit;
  match r with
  | Some e =>
      run! logBatchError "Failed to commit batch transaction";
      run! act AddBatchError;
      Ret (result, if errors_Is batchErr errFatalAfterCommit
                   then errors_Join [batchErr; fmtDBError e] else fmtDBError e)
  | None =>
      run! markProgress;
      do! now <- act TimeNow;
      run! act (AddCommittedBatch (stats result) now);
      run! (if bool_decide (is_Some batchErr) && negb (errors_Is batchErr errFatalAfterCommit)
            then act (SlogFailure "Batch committed with sender errors" "batch-sender-errors") else Ret tt);
      Ret (result, batchErr)
  end.

Definition rollbackBatch (result : batchResult) (batchErr : option error) : prog (batchResult * option error) :=
  run! logBatchError "Failed during batch transaction";
  do! r <- act Rollback;
  run! match r with Some _ => logBatchError "Failed to rollback batch transaction" | None => Ret tt end;
  run! act AddBatchError;
  Ret (result, batchErr).

Definition processOneBatch : prog (batchResult * option error) :=
  do! r <- act BeginTx;
  match r with
  | Some e =>
      run! logBatchError "Failed to start batch transaction";
      run! act AddBatchError;
      Ret (no_result, fmtDBError e)
  | None =>
      do! b <- processEventBatch;
      let '(result, batchErr) := b in
      if errors_Is batchErr errDatabaseBatch then rollbackBatch result batchErr
      else commitBatch result batchErr
  end.

(** ** The loop

    Its state: whether there is a listener, and the time of the last backlog probe. *)
Record loop_state := LoopState { listener : bool; lastBacklogProbe : Z }.

Definition initial_state : loop_state := LoopState false zero_time.

(** One turn: the next state, or the value the loop returns. *)
Definition processTurn (st : loop_state) : prog (loop_state + option error) :=
  do! cancelled <- act CtxErr;
  if cancelled : bool then Ret (inr None)
  else
    do! b <- processOneBatch;
    let '(result, batchErr) := b in
    if errors_Is batchErr errFatalAfterCommit then
      run! act (SlogError "Fatal sender error after commit, stopping processor"); Ret (inr batchErr)
    else if errors_Is batchErr errDatabaseBatch then
      run! sleepContext (ErrorCooldown cfg); Ret (inl st)
    else
      do! probe <- updateBacklog cfg (lastBacklogProbe st) result;
      if bool_decide (selected result = 0)%Z then
        do! l <- waitForEvents cfg (listener st); Ret (inl (LoopState l probe))
      else Ret (inl (LoopState (listener st) probe)).

(** [turns] turns of [processEvents]; [None] when it has not returned yet.  The deferred
    function closes the listener. *)
Fixpoint processEvents (turns : nat) (st : loop_state) : prog (option (option error)) :=
  match turns with
  | 0 => Ret None
  | S turns =>
      do! r <- processTurn st;
      match r with
      | inl st' => processEvents turns st'
      | inr e => run! close (listener st); Ret (Some e)
      end
  end.

End processor.
