(* ===== verification/ProcessorSafety.v ===== *)
(** * What a batch does

    The laws of the triage and of the collector, and the rules for the programs of
    [Processor.v]: what a batch stages in its transaction is justified by what the senders and
    the triage decided, whatever the senders, the database and the clock answer. *)
From S2P Require Import Prelude GoErrors Config Values Conc Provider Stats App Routes Sql Routing Select Db Dlq Backlog Notify Processor.
Local Open Scope go_scope.

Create HintDb hushed.

(** ** The transaction a history leaves open *)

Record tx := Tx {
  tx_selected : list event;
  tx_inserted : list string;
  tx_deleted : list value;
  tx_failed : bool;
}.

Definition no_tx : tx := Tx [] [] [] false.

Definition fail_tx (t : tx) : tx := Tx (tx_selected t) (tx_inserted t) (tx_deleted t) true.

Section tx.
Context `{GoRuntime}.

Definition tx_step (t : tx) (a : step) : tx :=
  match projT1 a as c return app_resp c -> tx with
  | BeginTx | Commit | Rollback => fun _ => no_tx
  | QueryEvents _ => fun r =>
      match r with
      | inl _ => fail_tx t
      | inr rows =>
          match scanEvents rows with
          | inl _ => fail_tx t
          | inr events => Tx events (tx_inserted t) (tx_deleted t) (tx_failed t)
          end
      end
  | ExecInsert _ payloads => fun r =>
      match r with
      | Some _ => fail_tx t
      | None => Tx (tx_selected t) (tx_inserted t ++ payloads) (tx_deleted t) (tx_failed t)
      end
  | ExecDelete _ ids => fun r =>
      match r with
      | Some _ => fail_tx t
      | None => Tx (tx_selected t) (tx_inserted t) (tx_deleted t ++ ids) (tx_failed t)
      end
  | _ => fun _ => t
  end (projT2 a).

Definition tx_of (h : list step) : tx := foldl tx_step no_tx h.

(** An action that is not a statement of the batch transaction. *)
Definition quiet (a : step) : Prop :=
  match projT1 a with
  | BeginTx | Commit | Rollback | QueryEvents _ | ExecInsert _ _ | ExecDelete _ _ => False
  | _ => True
  end.

Lemma tx_step_quiet t a : quiet a -> tx_step t a = t.
Proof. destruct a as [[] r]; done. Qed.

Lemma tx_of_snoc h a : tx_of (h ++ [a]) = tx_step (tx_of h) a.
Proof. unfold tx_of. by rewrite foldl_app. Qed.

Lemma tx_of_quiet h t : Forall quiet t -> tx_of (h ++ t) = tx_of h.
Proof.
  unfold tx_of. rewrite foldl_app. generalize (foldl tx_step no_tx h). intros s Hq. revert s.
  induction Hq as [|a t Ha _ IH]; intros s; [done|]. simpl. by rewrite IH, tx_step_quiet.
Qed.

Lemma tx_of_act h a : quiet a -> tx_of (h ++ [a]) = tx_of h.
Proof. intros Ha. by rewrite tx_of_snoc, tx_step_quiet. Qed.

End tx.

(** ** Triage *)

Section triage.
Context `{GoRuntime} (cfg : appConfig).

(** Why the triage rejects an event. *)
Definition unsendable (now : Z) (evt : event) (reason : string) : Prop :=
  isExpiredEvent cfg evt now = true /\ reason = "Event expired by MAX_EVENT_AGE_MS"
  \/ exists e, withParsedOptions evt cfg = inl e /\ reason = error_text e.

(** The events of all groups. *)
Definition total_events (groups : gmap string (list event)) : nat :=
  sum_list_with (fun g => length g.2) (map_to_list groups).

Lemma total_events_append groups tgt evt :
  total_events (<[tgt := default [] (groups !! tgt) ++ [evt]]> groups) = S (total_events groups).
Proof.
  unfold total_events. destruct (groups !! tgt) as [es|] eqn:He; simpl.
  - rewrite <- insert_delete_eq, map_to_list_insert by apply lookup_delete_eq.
    rewrite <- (map_to_list_delete groups tgt es He). simpl. rewrite length_app. simpl. lia.
  - by rewrite map_to_list_insert.
Qed.

(** The triage of [events] at [now]. *)
Record triage_ok (now : Z) (events : list event) (t : batchTriage) : Prop := {
  triage_rejects : forall p, p ∈ triage_poison t ->
    poison_evt p ∈ events /\ unsendable now (poison_evt p) (poison_error p);
  triage_sends : forall tgt es parsed, eventsByTarget t !! tgt = Some es -> parsed ∈ es ->
    exists evt, evt ∈ events /\ withParsedOptions evt cfg = inr parsed /\ target (route evt) = tgt
      /\ tgt ∈ senders cfg;
  triage_all : forall evt, evt ∈ events ->
    (exists p, p ∈ triage_poison t /\ poison_evt p = evt)
    \/ (exists es parsed, eventsByTarget t !! target (route evt) = Some es /\ parsed ∈ es
          /\ withParsedOptions evt cfg = inr parsed);
  triage_count : length (triage_poison t) + total_events (eventsByTarget t) = length events;
}.

Lemma triage_nil now : triage_ok now [] (BatchTriage ∅ []).
Proof.
  split; simpl.
  - by intros p ?%elem_of_nil.
  - intros tgt es parsed He. by rewrite lookup_empty in He.
  - by intros evt ?%elem_of_nil.
  - reflexivity.
Qed.

Lemma triage_event_ok now events t evt t' :
  triage_ok now events t -> triage_event cfg now t evt = inr t' -> triage_ok now (events ++ [evt]) t'.
Proof.
  intros [Hrej Hsend Hall Hcount] Ht.
  assert (Hreject : forall reason, unsendable now evt reason ->
    triage_ok now (events ++ [evt])
      (BatchTriage (eventsByTarget t) (triage_poison t ++ [PoisonEvent evt reason]))).
  { intros reason Hu. split; simpl.
    - intros p [Hp| ->%list_elem_of_singleton]%elem_of_app; [|split; [set_solver|done]].
      destruct (Hrej p Hp). split; [set_solver|done].
    - intros tgt es parsed He Hp. destruct (Hsend tgt es parsed He Hp) as (e & Hin & Hrest).
      exists e. split; [set_solver|done].
    - intros e [He| ->%list_elem_of_singleton]%elem_of_app.
      + destruct (Hall e He) as [(p & Hp & <-)|Hs]; [left; exists p; set_solver|by right].
      + left. exists (PoisonEvent evt reason). split; [set_solver|done].
    - rewrite !length_app. simpl. lia. }
  unfold triage_event in Ht. destruct (isExpiredEvent cfg evt now) eqn:Hexp.
  { injection Ht as <-. apply Hreject. by left. }
  case_bool_decide as Hempty; [done|]. case_bool_decide as Hsnd; [done|].
  destruct (withParsedOptions evt cfg) as [e|parsed] eqn:Hp.
  { injection Ht as <-. apply Hreject. right. eauto. }
  injection Ht as <-. split; simpl.
  - intros p Hin. destruct (Hrej p Hin). split; [set_solver|done].
  - intros tgt es p He Hin. destruct (decide (target (route evt) = tgt)) as [<-|Hne].
    + rewrite lookup_insert_eq in He. injection He as <-.
      apply elem_of_app in Hin as [Hin| ->%list_elem_of_singleton].
      * destruct (eventsByTarget t !! target (route evt)) as [es|] eqn:Hes; simpl in Hin;
          [|by apply elem_of_nil in Hin].
        destruct (Hsend _ es p Hes Hin) as (e & Hin' & Hrest). exists e. split; [set_solver|done].
      * exists evt. split_and!; [set_solver|done..].
    + rewrite lookup_insert_ne in He by done. destruct (Hsend tgt es p He Hin) as (e & Hin' & Hrest).
      exists e. split; [set_solver|done].
  - intros e [He| ->%list_elem_of_singleton]%elem_of_app.
    + destruct (Hall e He) as [Hl|(es & p & Hes & Hin & Hpe)]; [by left|right].
      destruct (decide (target (route e) = target (route evt))) as [Heq|Hne].
      * rewrite Heq in Hes |- *. rewrite lookup_insert_eq. rewrite Hes. simpl.
        eexists _, p. split_and!; [done|set_solver|done].
      * rewrite lookup_insert_ne by done. eauto.
    + right. rewrite lookup_insert_eq. eexists _, parsed. split_and!; [done|set_solver|done].
  - rewrite total_events_append, length_app. simpl. lia.
Qed.

Lemma parsed_event evt parsed :
  withParsedOptions evt cfg = inr parsed ->
  columns parsed = columns evt /\ route parsed = route evt.
Proof.
  unfold withParsedOptions. destruct (eventOptions _ _) as [|opts]; [done|]. by intros [= <-].
Qed.

End triage.

(** ** The collector *)

Section collector.
Context `{GoRuntime} (cfg : appConfig) (events : list event).

Definition apply_callback (c : senderCollector) (cb : callback) : senderCollector :=
  match cb with
  | CbConfirm id => default c (record_outcome id "" false c)
  | CbPoison id reason => default c (record_outcome id reason true c)
  | _ => c
  end.

Definition collect (cbs : list callback) : senderCollector :=
  foldl apply_callback (newSenderCollector cfg events) cbs.

Abbreviation by_id := (eventsByID (newSenderCollector cfg events)).

Lemma by_id_elem key evt : by_id !! key = Some evt -> evt ∈ events /\ event_key cfg evt = key.
Proof.
  unfold newSenderCollector. simpl. revert evt.
  induction events as [|e es IH] using rev_ind; intros evt; [done|].
  rewrite foldl_app. simpl. destruct (decide (event_key cfg e = key)) as [<-|Hne].
  - rewrite lookup_insert_eq. intros [= <-]. split; [set_solver|done].
  - rewrite lookup_insert_ne by done. intros Hk. destruct (IH evt Hk). split; [set_solver|done].
Qed.

Lemma by_id_some evt : evt ∈ events -> is_Some (by_id !! event_key cfg evt).
Proof.
  unfold newSenderCollector. simpl.
  induction events as [|e es IH] using rev_ind; [by intros ?%elem_of_nil|].
  rewrite foldl_app. simpl. intros Hin. destruct (decide (event_key cfg e = event_key cfg evt)) as [->|Hne].
  - rewrite lookup_insert_eq. eauto.
  - rewrite lookup_insert_ne by done. apply IH. apply elem_of_app in Hin as [?|Hin]; [done|].
    by apply list_elem_of_singleton in Hin as ->.
Qed.

Definition outcome_keys (out : senderOutput) : list string :=
  (event_key cfg <$> confirmed out) ++ ((fun p => event_key cfg (poison_evt p)) <$> poison out).

(** What the collector holds after the callbacks [cbs]: every outcome was reported, each event
    has at most one, and no report for an event of the batch is lost. *)
Record collector_ok (cbs : list callback) (c : senderCollector) : Prop := {
  collector_index : eventsByID c = by_id;
  collector_confirmed : forall evt, evt ∈ confirmed (collected c) ->
    exists id, CbConfirm id ∈ cbs /\ by_id !! eventIDKey id = Some evt;
  collector_poison : forall p, p ∈ poison (collected c) ->
    exists id, CbPoison id (poison_error p) ∈ cbs /\ by_id !! eventIDKey id = Some (poison_evt p);
  collector_once : NoDup (outcome_keys (collected c));
  collector_seen : forall key, key ∈ seen c <-> key ∈ outcome_keys (collected c);
  collector_reported : forall id evt, by_id !! eventIDKey id = Some evt ->
    CbConfirm id ∈ cbs \/ (exists reason, CbPoison id reason ∈ cbs) -> eventIDKey id ∈ seen c;
}.

Lemma outcome_keys_confirm out evt :
  outcome_keys (SenderOutput (confirmed out ++ [evt]) (poison out)) ≡ₚ event_key cfg evt :: outcome_keys out.
Proof. unfold outcome_keys. simpl. rewrite fmap_app. simpl. by rewrite <- (assoc_L (++)), Permutation_middle. Qed.

Lemma outcome_keys_poison out p :
  outcome_keys (SenderOutput (confirmed out) (poison out ++ [p])) ≡ₚ event_key cfg (poison_evt p) :: outcome_keys out.
Proof. unfold outcome_keys. simpl. rewrite fmap_app, (assoc_L (++)). simpl. by rewrite Permutation_app_comm. Qed.

Lemma record_outcome_ok cbs c id reason (poisoned : bool) cb :
  cb = (if poisoned then CbPoison id reason else CbConfirm id) ->
  collector_ok cbs c -> collector_ok (cbs ++ [cb]) (default c (record_outcome id reason poisoned c)).
Proof.
  intros Hcb [Hidx Hconf Hpois Honce Hseen Hrep]. unfold record_outcome. rewrite Hidx.
  assert (Hsame : forall s : gset string, (forall evt, by_id !! eventIDKey id = Some evt -> eventIDKey id ∈ s) ->
    (forall k, k ∈ seen c -> k ∈ s) ->
    forall id' evt, by_id !! eventIDKey id' = Some evt ->
    CbConfirm id' ∈ cbs ++ [cb] \/ (exists reason', CbPoison id' reason' ∈ cbs ++ [cb]) -> eventIDKey id' ∈ s).
  { intros s Hs Hsub id' evt Hid' Hr. destruct (decide (eventIDKey id' = eventIDKey id)) as [Heq|Hne].
    - rewrite Heq. apply (Hs evt). by rewrite <- Heq.
    - apply Hsub, (Hrep id' evt Hid').
      assert (Hcb' : cb <> CbConfirm id' /\ forall r, cb <> CbPoison id' r).
      { subst cb. destruct poisoned; split; intros; congruence. }
      destruct Hr as [Hr|[r Hr]]; [left|right; exists r];
        apply elem_of_app in Hr as [?|Hr]; try done; apply list_elem_of_singleton in Hr;
        exfalso; [by apply (proj1 Hcb')|by apply (proj2 Hcb' r)]. }
  destruct (by_id !! eventIDKey id) as [evt|] eqn:Hid.
  2: { split; simpl; [done| | |done|done|by apply Hsame].
       - intros evt He. destruct (Hconf evt He) as (i & Hi & ?). exists i. split; [set_solver|done].
       - intros p Hp. destruct (Hpois p Hp) as (i & Hi & ?). exists i. split; [set_solver|done]. }
  case_bool_decide as Hin.
  { split; simpl; [done| | |done|done|].
    - intros e He. destruct (Hconf e He) as (i & Hi & ?). exists i. split; [set_solver|done].
    - intros p Hp. destruct (Hpois p Hp) as (i & Hi & ?). exists i. split; [set_solver|done].
    - by apply Hsame. }
  destruct (by_id_elem _ _ Hid) as [Hevt Hkey].
  assert (Hnew : eventIDKey id ∉ outcome_keys (collected c)) by by rewrite <- Hseen.
  simpl. destruct poisoned; split; simpl; try done.
  - intros e He. destruct (Hconf e He) as (i & Hi & ?). exists i. split; [set_solver|done].
  - intros p [Hp| ->%list_elem_of_singleton]%elem_of_app.
    + destruct (Hpois p Hp) as (i & Hi & ?). exists i. split; [set_solver|done].
    + exists id. subst cb. split; [set_solver|done].
  - rewrite outcome_keys_poison. simpl. rewrite Hkey. by apply NoDup_cons.
  - intros key. rewrite outcome_keys_poison. simpl. rewrite Hkey, elem_of_cons, <- Hseen. set_solver.
  - apply Hsame; set_solver.
  - intros e [He| ->%list_elem_of_singleton]%elem_of_app.
    + destruct (Hconf e He) as (i & Hi & ?). exists i. split; [set_solver|done].
    + exists id. subst cb. split; [set_solver|done].
  - intros p Hp. destruct (Hpois p Hp) as (i & Hi & ?). exists i. split; [set_solver|done].
  - rewrite outcome_keys_confirm. rewrite Hkey. by apply NoDup_cons.
  - intros key. rewrite outcome_keys_confirm. rewrite Hkey, elem_of_cons, <- Hseen. set_solver.
  - apply Hsame; set_solver.
Qed.

Lemma collect_ok cbs : collector_ok cbs (collect cbs).
Proof.
  unfold collect. induction cbs as [|cb cbs IH] using rev_ind.
  - split; simpl.
    + done.
    + by intros evt ?%elem_of_nil.
    + by intros p ?%elem_of_nil.
    + constructor.
    + intros key. unfold outcome_keys. simpl. by rewrite elem_of_empty, elem_of_nil.
    + intros id evt _ [Hc|[r Hc]]; by apply elem_of_nil in Hc.
  - rewrite foldl_app. simpl. destruct cb as [id|id reason| |m s]; simpl.
    + by apply (record_outcome_ok _ _ id "" false).
    + by apply (record_outcome_ok _ _ id reason true).
    + destruct IH as [H1 H2 H3 H4 H5 H6]. split; [done| | |done|done|].
      * intros e He. destruct (H2 e He) as (i & Hi & ?). exists i. split; [set_solver|done].
      * intros p Hp. destruct (H3 p Hp) as (i & Hi & ?). exists i. split; [set_solver|done].
      * intros id evt Hid Hr. apply (H6 id evt Hid). set_solver.
    + destruct IH as [H1 H2 H3 H4 H5 H6]. split; [done| | |done|done|].
      * intros e He. destruct (H2 e He) as (i & Hi & ?). exists i. split; [set_solver|done].
      * intros p Hp. destruct (H3 p Hp) as (i & Hi & ?). exists i. split; [set_solver|done].
      * intros id evt Hid Hr. apply (H6 id evt Hid). set_solver.
Qed.

End collector.

(** ** Programs without statements *)

Lemma only_act (P : step -> Prop) c : (forall r, P (existT c r)) -> only P (act c).
Proof. apply only_perform. Qed.

(** Descends through binds, cases and returns; [hushed] holds the programs already done. *)
Ltac hush := repeat lazymatch goal with
  | |- only _ (Ret _) => apply only_ret
  | |- only _ (bind _ _) => apply only_bind; [|intros ?]
  | |- only ?P (act ?c) => refine (only_act P c _); done
  | |- only _ (for_each _ _ _) => apply only_for_each; intros ? ?
  | |- only _ (for_loop _ _ _) => apply only_for_loop; intros ? ?
  | |- only _ (if ?b then _ else _) => destruct b
  | |- only _ (match ?x with _ => _ end) => destruct x
  | |- only _ _ => solve [auto with hushed]
  end.

(** ** Programs *)

Section programs.
Context `{GoRuntime} `{Pgx} `{MapRange} (cfg : appConfig) (providers : string -> Provider).

(** What the relay relies on: the senders keep the contract of [Provider.v]. *)
Definition env (a : step) : Prop :=
  match projT1 a as c return app_resp c -> Prop with
  | SendTo tgt evs => fun s => Send (Provider := providers tgt) evs (callbacks s) (acked s) (send_err s)
  | _ => fun _ => True
  end (projT2 a).

(** The queue of the event's target acknowledged its message. *)
Definition delivered (h : list step) (evt : event) : Prop :=
  exists parsed evs s, did (SendTo (target (route evt)) evs) s ∈ h
    /\ withParsedOptions evt cfg = inr parsed /\ providerEvent parsed cfg ∈ acked s.

(** The event was rejected: by the triage, or by its sender. *)
Definition rejected (h : list step) (evt : event) (reason : string) : Prop :=
  (exists now, did TimeNow now ∈ h /\ unsendable cfg now evt reason)
  \/ (exists parsed evs s id, did (SendTo (target (route evt)) evs) s ∈ h
        /\ withParsedOptions evt cfg = inr parsed /\ providerEvent parsed cfg ∈ evs
        /\ CbPoison id reason ∈ callbacks s /\ eventIDKey id = event_key cfg evt).

(** A payload written to the dead-letter table holds the event, its route and the reason. *)
Definition dead_lettered (payloads : list string) (evt : event) (reason : string) : Prop :=
  exists now opts payload,
    json_Marshal (deadLetterPayload cfg now (PoisonEvent (MkEvt (columns evt) (route evt) opts) reason))
      = inr payload
    /\ payload ∈ payloads.

Definition resolved (h : list step) (payloads : list string) (evt : event) : Prop :=
  delivered h evt
  \/ exists reason, rejected h evt reason
       /\ (DLQTable cfg <> "" -> dead_lettered payloads evt reason).

(** The transaction a history leaves open may be committed: no statement of it failed, and every
    id it deletes is the id of a selected event that is resolved. *)
Definition commit_ok (h : list step) : Prop :=
  tx_failed (tx_of h) = false
  /\ forall id, id ∈ tx_deleted (tx_of h) ->
       exists evt, evt ∈ tx_selected (tx_of h) /\ event_key cfg evt = eventIDKey id
         /\ resolved h (tx_inserted (tx_of h)) evt.

Definition justifies (a : step) (h : list step) : Prop :=
  match projT1 a with Commit => commit_ok h | _ => True end.

Lemma justifies_quiet a h : quiet a -> justifies a h.
Proof. by destruct a as [[] r]. Qed.

Abbreviation hushed := (only quiet).
Abbreviation wp := (wp env justifies).

(** *** Monotonicity *)

Lemma delivered_mono h h' evt : h ⊆ h' -> delivered h evt -> delivered h' evt.
Proof. intros Hh (p & evs & s & Hin & Hrest). exists p, evs, s. split; [by apply Hh|done]. Qed.

Lemma rejected_mono h h' evt reason : h ⊆ h' -> rejected h evt reason -> rejected h' evt reason.
Proof.
  intros Hh [(now & Hin & Hu)|(p & evs & s & id & Hin & Hrest)].
  - left. exists now. split; [by apply Hh|done].
  - right. exists p, evs, s, id. split; [by apply Hh|done].
Qed.

Lemma resolved_mono_app h h' payloads evt : h ⊆ h' -> resolved h payloads evt -> resolved h' payloads evt.
Proof.
  intros Hh [Hd|(reason & Hr & Hl)]; [left; by eapply delivered_mono|right].
  exists reason. split; [by eapply rejected_mono|done].
Qed.

(** *** Programs without statements *)

Lemma wp_hushed {A} h (m : prog A) (Q : list step -> A -> Prop) :
  hushed m ->
  (forall tr a, exec m tr a -> Forall env tr -> Forall quiet tr -> Q (h ++ tr) a) -> wp h m Q.
Proof. intros Hm HQ. apply (wp_only quiet); [done|apply justifies_quiet|done]. Qed.

Lemma hushed_logBatchError m : hushed (logBatchError m).
Proof. unfold logBatchError. hush. Qed.

Lemma hushed_markProgress : hushed markProgress.
Proof. unfold markProgress. hush. Qed.

Lemma hushed_sleepContext d : hushed (sleepContext d).
Proof. unfold sleepContext. hush. Qed.

#[local] Hint Resolve hushed_logBatchError hushed_markProgress hushed_sleepContext : hushed.

Lemma hushed_record id reason poisoned c : hushed (record id reason poisoned c).
Proof. unfold record. hush. Qed.

#[local] Hint Resolve hushed_record : hushed.

Lemma hushed_on_callback c cb : hushed (on_callback c cb).
Proof. unfold on_callback, senderCollector_confirm, senderCollector_poison. hush. Qed.

Lemma hushed_oldestEventAge events : hushed (oldestEventAge cfg events).
Proof. unfold oldestEventAge. hush. Qed.

Lemma hushed_updateBacklog last result : hushed (updateBacklog cfg last result).
Proof. unfold updateBacklog, countBacklog. hush. Qed.

Lemma hushed_close l : hushed (close l).
Proof. unfold close. hush. Qed.

#[local] Hint Resolve hushed_on_callback hushed_oldestEventAge hushed_updateBacklog hushed_close : hushed.

Lemma hushed_waitForEvents l : hushed (waitForEvents cfg l).
Proof. unfold waitForEvents, wait_listening, startListener, wait. hush. Qed.

#[local] Hint Resolve hushed_waitForEvents : hushed.

(** *** The senders *)

Lemma exec_on_callback c cb tr c' : exec (on_callback c cb) tr c' -> c' = apply_callback c cb.
Proof.
  assert (Hrec : forall id reason poisoned, exec (record id reason poisoned c) tr c' ->
    c' = default c (record_outcome id reason poisoned c)).
  { intros id reason poisoned (t1 & t2 & [] & -> & _ & He)%exec_bind.
    destruct (record_outcome id reason poisoned c); [by destruct He|].
    apply exec_bind in He as (t3 & t4 & [] & -> & _ & He). by destruct He. }
  destruct cb; simpl; [apply Hrec|apply Hrec| |];
    by intros (r & tr' & _ & _ & ->).
Qed.

Lemma exec_on_callbacks cbs c tr c' :
  exec (for_each cbs on_callback c) tr c' -> c' = foldl apply_callback c cbs.
Proof.
  revert c tr. induction cbs as [|cb cbs IH]; intros c tr; simpl; [by intros [_ ->]|].
  intros (t1 & t2 & c1 & -> & Hc & Hcs)%exec_bind. apply exec_on_callback in Hc as ->. by eapply IH.
Qed.

(** The outcome of a sender, as the batch sees it. *)
Definition sent_ok (h : list step) (tgt : string) (events : list event) (r : senderResult) : Prop :=
  exists s, did (SendTo tgt (providerEvents events cfg)) s ∈ h
    /\ Send (Provider := providers tgt) (providerEvents events cfg) (callbacks s) (acked s) (send_err s)
    /\ output r = collected (collect cfg events (callbacks s)) /\ result_err r = send_err s.

Lemma sent_ok_mono h h' tgt events r : h ⊆ h' -> sent_ok h tgt events r -> sent_ok h' tgt events r.
Proof. intros Hh (s & Hin & Hrest). exists s. split; [by apply Hh|done]. Qed.

Lemma exec_collectProviderOutput tgt events tr r :
  exec (collectProviderOutput cfg tgt events) tr r -> Forall env tr ->
  Forall quiet tr /\ sent_ok tr tgt events r.
Proof.
  intros (t1 & t2 & s & -> & Hs & He)%exec_bind Henv. apply (exec_perform (R := app_resp) (SendTo _ _)) in Hs as ->.
  apply exec_bind in He as (t3 & t4 & c & -> & Hc & He). destruct He as [-> ->].
  assert (Hq : hushed (for_each (callbacks s) on_callback (newSenderCollector cfg events))).
  { apply only_for_each. intros c' cb. apply hushed_on_callback. }
  apply Forall_cons in Henv as [Henv _]. split.
  - apply Forall_cons. split; [done|]. rewrite app_nil_r. by apply (Hq t3 c).
  - apply exec_on_callbacks in Hc as ->. exists s. split_and!; [apply list_elem_of_here|done..].
Qed.

Lemma wp_sendAll h triage (Q : list step -> list senderResult -> Prop) :
  (forall t arrival rs, Forall quiet t -> arrival ≡ₚ rs ->
     Forall2 (fun '(tgt, events) r => sent_ok (h ++ t) tgt events r) (range (eventsByTarget triage)) rs ->
     Q (h ++ t) arrival) ->
  wp h (sendAll cfg triage) Q.
Proof.
  intros HQ. unfold sendAll. set (groups := range (eventsByTarget triage)) in *.
  apply (wp_Par _ _ _ _ _ (fun i tr r => Forall quiet tr
    /\ exists tgt events, groups !! i = Some (tgt, events) /\ sent_ok tr tgt events r)).
  - intros i p Hp tr r He Henv. rewrite list_lookup_fmap in Hp.
    destruct (groups !! i) as [[tgt events]|] eqn:Hi; [|done]. injection Hp as <-.
    destruct (exec_collectProviderOutput tgt events tr r He Henv) as [Hq Hs]. split; [|eauto].
    eapply Forall_impl; [exact Hq|]. intros a Ha h'. by apply justifies_quiet.
  - intros t trs rs arrival Hint Hl1 Hl2 Hbr Harr. rewrite length_fmap in Hl1, Hl2.
    assert (Hbr' : forall i tgt events, groups !! i = Some (tgt, events) ->
      exists ti r, trs !! i = Some ti /\ rs !! i = Some r /\ ti `sublist_of` t
        /\ Forall quiet ti /\ sent_ok ti tgt events r).
    { intros i tgt events Hi. destruct (Hbr i (collectProviderOutput cfg tgt events)) as
        (ti & r & Hti & Hr & Hs & Hq & tgt' & events' & Hi' & Hok).
      { by rewrite list_lookup_fmap, Hi. }
      simplify_eq. eauto 10. }
    apply wp_ret. apply (HQ t arrival rs); [|done|].
    + rewrite (interleave_Permutation _ _ Hint). apply Forall_concat, Forall_lookup. intros i ti Hti.
      destruct (lookup_lt_is_Some_2 groups i) as [[tgt events] Hi]; [rewrite <- Hl1; by eapply lookup_lt_Some|].
      destruct (Hbr' i tgt events Hi) as (ti' & r & Hti' & _ & _ & Hq & _). by simplify_eq.
    + apply Forall2_same_length_lookup. split; [done|]. intros i [tgt events] r Hi Hr.
      destruct (Hbr' i tgt events Hi) as (ti & r' & _ & Hr' & Hs & _ & Hok). simplify_eq.
      eapply sent_ok_mono; [|done]. intros a Ha. apply elem_of_app. right. by eapply elem_of_sublist.
Qed.

(** *** Why outcomes are reported *)

Lemma event_id_parsed evt parsed :
  withParsedOptions evt cfg = inr parsed -> event_id cfg parsed = event_id cfg evt.
Proof. intros Hp. apply parsed_event in Hp as [Hc _]. unfold event_id, eventValue. by rewrite Hc. Qed.

Section outcomes.
Context (now : Z) (events : list event) (triage : batchTriage) (Htriage : triage_ok cfg now events triage).
Context (h : list step) (tgt : string) (es : list event) (r : senderResult).
Context (Hes : eventsByTarget triage !! tgt = Some es) (Hsent : sent_ok h tgt es r).

Lemma sent_confirmed c :
  c ∈ confirmed (output r) ->
  exists evt, evt ∈ events /\ event_key cfg evt = event_key cfg c /\ delivered h evt.
Proof.
  intros Hc. destruct Hsent as (s & Hin & Hsend & Hout & _). rewrite Hout in Hc.
  destruct (collector_confirmed _ _ _ _ (collect_ok cfg es (callbacks s)) c Hc) as (id & Hid & Hkey).
  apply by_id_elem in Hkey as [_ Hkey].
  destruct (Send_confirm_acked _ _ _ _ Hsend id Hid) as (pe & Hpe & Hpid).
  pose proof (Send_acked_selected _ _ _ _ Hsend pe Hpe) as Hsel.
  apply list_elem_of_fmap in Hsel as (parsed & -> & Hparsed).
  destruct (triage_sends _ _ _ _ Htriage tgt es parsed Hes Hparsed) as (evt & Hevt & Hp & Htgt & _).
  exists evt. split_and!; [done| |].
  - rewrite Hkey. unfold event_key. rewrite <- (event_id_parsed evt parsed Hp). by rewrite <- Hpid.
  - exists parsed, (providerEvents es cfg), s. rewrite Htgt. done.
Qed.

Lemma sent_poison p :
  p ∈ poison (output r) ->
  exists evt, evt ∈ events /\ columns (poison_evt p) = columns evt /\ route (poison_evt p) = route evt
    /\ rejected h evt (poison_error p).
Proof.
  intros Hp. destruct Hsent as (s & Hin & Hsend & Hout & _). rewrite Hout in Hp.
  destruct (collector_poison _ _ _ _ (collect_ok cfg es (callbacks s)) p Hp) as (id & Hid & Hkey).
  apply by_id_elem in Hkey as [Hpes Hkey].
  destruct (triage_sends _ _ _ _ Htriage tgt es _ Hes Hpes) as (evt & Hevt & Hparse & Htgt & _).
  destruct (parsed_event cfg evt _ Hparse) as [Hc Hr].
  exists evt. split_and!; [done|done|done|]. right.
  exists (poison_evt p), (providerEvents es cfg), s, id. rewrite Htgt.
  split_and!; [done|done|by apply (list_elem_of_fmap_2 (fun evt => providerEvent evt cfg))|done|].
  rewrite <- Hkey. unfold event_key. by rewrite (event_id_parsed evt (poison_evt p) Hparse).
Qed.

End outcomes.

(** *** The statements of a batch *)

Lemma wp_do c h (Q : list step -> app_resp c -> Prop) :
  (forall r, env (did c r) -> justifies (did c r) h /\ Q (h ++ [did c r]) r) -> wp h (act c) Q.
Proof. apply (wp_perform (R := app_resp)). Qed.

Ltac do_act := lazymatch goal with
  | |- Conc.wp _ _ ?h (act ?c) ?Q => refine (wp_do c h Q _)
  end.

Lemma wp_insertDeadLetters h poisonEvents (Q : list step -> option error -> Prop) :
  (forall t payloads, tx_of (h ++ t) = Tx (tx_selected (tx_of h)) (tx_inserted (tx_of h) ++ payloads)
       (tx_deleted (tx_of h)) (tx_failed (tx_of h)) ->
     (DLQTable cfg <> "" -> forall p, p ∈ poisonEvents ->
        exists now payload, json_Marshal (deadLetterPayload cfg now p) = inr payload /\ payload ∈ payloads) ->
     Q (h ++ t) None) ->
  (forall t e, Q (h ++ t) (Some e)) ->
  wp h (insertDeadLetters cfg poisonEvents) Q.
Proof.
  intros Hok Herr. unfold insertDeadLetters.
  destruct (bool_decide_reflect (DLQTable cfg = "")) as [Hdlq|Hdlq]; cbn [orb].
  { apply wp_ret. rewrite <- (app_nil_r h). apply (Hok [] []); [|done].
    rewrite !app_nil_r. by destruct (tx_of h). }
  case_bool_decide as Hlen.
  { apply wp_ret. rewrite <- (app_nil_r h). apply (Hok [] []).
    - rewrite !app_nil_r. by destruct (tx_of h).
    - apply length_zero_iff_nil in Hlen as ->. by intros _ p ?%elem_of_nil. }
  unfold finally. apply wp_bind. eapply wp_for_loop with
    (I := fun done _ h' payloads => exists t, h' = h ++ t /\ Forall quiet t
       /\ forall p, p ∈ done -> exists now payload,
            json_Marshal (deadLetterPayload cfg now p) = inr payload /\ payload ∈ payloads).
  - exists []. rewrite app_nil_r. split_and!; [done|constructor|by intros p ?%elem_of_nil].
  - intros ps p rest h' payloads _ (t & -> & Hq & Hps). apply wp_bind. do_act.
    intros now _. split; [done|]. apply wp_ret. rewrite <- (assoc_L (++)).
    destruct (json_Marshal (deadLetterPayload cfg now p)) as [e|payload] eqn:Hm.
    + apply wp_ret. apply Herr.
    + exists (t ++ [did TimeNow now]). split_and!; [done| |].
      * apply Forall_app. split; [done|]. by apply Forall_singleton.
      * intros p' [Hp'| ->%list_elem_of_singleton]%elem_of_app.
        -- destruct (Hps p' Hp') as (now' & pl & Hm' & Hin). exists now', pl. split; [done|set_solver].
        -- exists now, payload. split; [done|set_solver].
  - intros h' payloads (t & -> & Hq & Hps). cbv beta iota. apply wp_bind. do_act.
    intros [e|] _; (split; [done|]).
    + apply wp_ret. rewrite <- (assoc_L (++)). apply Herr.
    + apply wp_bind, wp_hushed; [apply hushed_markProgress|]. intros t' [] _ _ Hq'. apply wp_ret.
      rewrite <- !(assoc_L (++)). apply (Hok _ payloads); [|by intros _].
      rewrite !(assoc_L (++)), (tx_of_quiet _ _ Hq'), tx_of_snoc. cbn.
      by rewrite tx_of_quiet.
Qed.

Lemma wp_deleteEvents h ids (Q : list step -> option error -> Prop) :
  (forall t, t = [] \/ (exists q, t = [did (ExecDelete q ids) None]) ->
     tx_of (h ++ t) = Tx (tx_selected (tx_of h)) (tx_inserted (tx_of h)) (tx_deleted (tx_of h) ++ ids)
       (tx_failed (tx_of h)) -> Q (h ++ t) None) ->
  (forall t e, Q (h ++ t) (Some e)) ->
  wp h (deleteEvents cfg ids) Q.
Proof.
  intros Hok Herr. unfold deleteEvents. case_bool_decide as Hlen.
  - apply length_zero_iff_nil in Hlen as ->. apply wp_ret. rewrite <- (app_nil_r h).
    apply (Hok []); [by left|]. rewrite !app_nil_r. by destruct (tx_of h).
  - do_act. intros [e|] _; (split; [done|]); [apply Herr|].
    apply Hok; [right; eauto|]. by rewrite tx_of_snoc.
Qed.

(** What the statements of a batch stage, when they go through. *)
Record staged (h : list step) (now : Z) (events : list event) (triage : batchTriage)
    (results : list senderResult) : Prop := {
  staged_triage : triage_ok cfg now events triage;
  staged_now : did TimeNow now ∈ h;
  staged_sent : exists rs, results ≡ₚ rs
    /\ Forall2 (fun '(tgt, es) r => sent_ok h tgt es r) (range (eventsByTarget triage)) rs;
  staged_selected : tx_selected (tx_of h) = events;
  staged_failed : tx_failed (tx_of h) = false;
  staged_deleted : tx_deleted (tx_of h) = deleteIDs cfg triage results;
  staged_letters : DLQTable cfg <> "" -> forall p, p ∈ batch_poison triage results ->
    exists t payload, json_Marshal (deadLetterPayload cfg t p) = inr payload
      /\ payload ∈ tx_inserted (tx_of h);
}.

Lemma sent_all_mono h h' triage results :
  h ⊆ h' ->
  (exists rs, results ≡ₚ rs
    /\ Forall2 (fun '(tgt, es) r => sent_ok h tgt es r) (range (eventsByTarget triage)) rs) ->
  exists rs, results ≡ₚ rs
    /\ Forall2 (fun '(tgt, es) r => sent_ok h' tgt es r) (range (eventsByTarget triage)) rs.
Proof.
  intros Hh (rs & Hp & Hf). exists rs. split; [done|]. eapply Forall2_impl; [exact Hf|].
  intros [tgt es] r. by apply sent_ok_mono.
Qed.

Lemma app_incl {X} (h t : list X) : h ⊆ h ++ t.
Proof. intros x. rewrite elem_of_app. by left. Qed.

Lemma wp_writeBatch h now events triage results result selectDuration senderErr
    (Q : list step -> batchResult * option error -> Prop) :
  triage_ok cfg now events triage -> did TimeNow now ∈ h ->
  (exists rs, results ≡ₚ rs
    /\ Forall2 (fun '(tgt, es) r => sent_ok h tgt es r) (range (eventsByTarget triage)) rs) ->
  tx_of h = Tx events [] [] false ->
  (forall h' db, staged h' now events triage results ->
     Q h' (BatchResult (selected result) (drained result) (with_db_duration (stats result) db), senderErr)) ->
  (forall h' e, Q h' (result, db_failure senderErr e)) ->
  wp h (writeBatch cfg result selectDuration (batch_poison triage results) (deleteIDs cfg triage results) senderErr) Q.
Proof.
  intros Htri Hnow Hsent Htx Hok Herr. unfold writeBatch. apply wp_bind. do_act.
  intros start _. split; [done|]. apply wp_bind. apply wp_insertDeadLetters; [|intros t e; by apply wp_ret].
  intros t1 payloads Htx1 Hlet. apply wp_bind, wp_hushed; [apply hushed_markProgress|]. intros t2 [] _ _ Hq2.
  apply wp_bind. apply wp_deleteEvents; [|intros t e; by apply wp_ret].
  intros t3 _ Htx3. apply wp_bind, wp_hushed; [apply hushed_markProgress|]. intros t4 [] _ _ Hq4.
  apply wp_bind. do_act. intros now' _. split; [done|]. apply wp_ret. apply Hok.
  assert (Hfinal : tx_of ((((((h ++ [did TimeNow start]) ++ t1) ++ t2) ++ t3) ++ t4) ++ [did TimeNow now'])
    = Tx events payloads (deleteIDs cfg triage results) false).
  { rewrite tx_of_act, (tx_of_quiet _ t4), Htx3, (tx_of_quiet _ t2), Htx1, tx_of_act, Htx by done. done. }
  split; try done; try (by rewrite Hfinal).
  - rewrite <- !(assoc_L (++)). by apply app_incl.
  - eapply sent_all_mono; [|done]. rewrite <- !(assoc_L (++)). apply app_incl.
Qed.

Lemma db_failure_is_db senderErr e : errors_Is (db_failure senderErr e) errDatabaseBatch = true.
Proof.
  unfold db_failure. destruct senderErr as [se|]; [|apply fmtDBError_is_db].
  pose proof (fmtDBError_is_db e) as Hdb. unfold errDatabaseBatch in *. rewrite errors_Is_Join.
  cbn [existsb]. rewrite Hdb. by rewrite orb_true_r.
Qed.

(** What a batch reports when none of its statements failed. *)
Definition reported (h : list step) (r : batchResult * option error) : Prop :=
  exists now events triage results age publish db,
    staged h now events triage results
    /\ r.2 = senderErrors results
    /\ r.1 = BatchResult (int (length events)) (batchDrained events (CollectBatchTarget cfg))
         (with_db_duration (count_batch cfg (int (length events)) age publish
            (length (batch_confirmed results)) (length (batch_poison triage results)) (senderErrors results)) db).

Lemma wp_triageEvents h events (Q : list step -> error + batchTriage -> Prop) :
  (forall t now triage, Forall quiet t -> did TimeNow now ∈ t -> triage_ok cfg now events triage -> Q (h ++ t) (inr triage)) ->
  (forall h' e, Q h' (inl e)) ->
  wp h (triageEvents cfg events) Q.
Proof.
  intros Hok Herr. unfold triageEvents. apply wp_bind. do_act. intros now _. split; [done|].
  unfold finally. apply wp_bind. eapply wp_for_loop with
    (I := fun done _ h' triage => exists t, h' = (h ++ [did TimeNow now]) ++ t /\ Forall quiet t
       /\ triage_ok cfg now done triage).
  - exists []. rewrite app_nil_r. split_and!; [done|constructor|apply triage_nil].
  - intros es evt rest h' triage _ (t & -> & Hq & Ht).
    apply wp_bind, wp_hushed; [apply hushed_markProgress|]. intros t2 [] _ _ Hq2. apply wp_ret.
    destruct (triage_event cfg now triage evt) as [e|triage'] eqn:He.
    + apply wp_ret. apply Herr.
    + exists (t ++ t2). split_and!; [by rewrite (assoc_L (++))|by apply Forall_app|].
      by eapply triage_event_ok.
  - intros h' triage (t & -> & Hq & Ht). apply wp_ret. rewrite <- (assoc_L (++)).
    apply (Hok _ now); [apply Forall_cons; split; [done|done]|apply list_elem_of_here|done].
Qed.

Lemma wp_processEventBatch h :
  tx_of h = no_tx ->
  wp h (processEventBatch cfg) (fun h' r => errors_Is r.2 errDatabaseBatch = false -> reported h' r).
Proof.
  intros Htx. unfold processEventBatch.
  apply wp_bind, wp_hushed; [apply hushed_markProgress|]. intros t1 [] _ _ Hq1.
  apply wp_bind. do_act. intros dbStart _. split; [done|].
  apply wp_bind. unfold selectEvents. apply wp_bind. do_act. intros rows _. split; [done|]. apply wp_ret.
  destruct (match rows with inl e => inl e | inr rows => scanEvents rows end) as [e|events] eqn:Hscan.
  { apply wp_ret. intros Hno. cbn [snd] in Hno. by rewrite fmtDBError_is_db in Hno. }
  destruct rows as [|rows]; [done|].
  assert (Hsel : tx_of (((h ++ t1) ++ [did TimeNow dbStart]) ++ [did (QueryEvents (selectEventsQuery cfg)) (inr rows)])
    = Tx events [] [] false).
  { rewrite tx_of_snoc. cbn [tx_step projT1 projT2 did]. rewrite Hscan, tx_of_act, tx_of_quiet, Htx by done. done. }
  revert Hsel. generalize (((h ++ t1) ++ [did TimeNow dbStart]) ++ [did (QueryEvents (selectEventsQuery cfg)) (inr rows)]).
  clear h t1 Htx Hq1 Hscan rows. intros h Htx.
  apply wp_bind. do_act. intros now _. split; [done|].
  apply wp_bind, wp_hushed; [apply hushed_markProgress|]. intros t2 [] _ _ Hq2.
  apply wp_bind, wp_hushed; [apply hushed_oldestEventAge|]. intros t3 age _ _ Hq3.
  apply wp_bind, wp_triageEvents.
  2: { intros h' e. apply wp_ret. intros Hno. cbn [snd] in Hno. by rewrite fmtDBError_is_db in Hno. }
  intros t4 tnow triage Hq4 Hnow Htriage. unfold sendBatch.
  apply wp_bind. do_act. intros pstart _. split; [done|].
  apply wp_bind, wp_sendAll. intros t5 results rs Hq5 Hperm Hsent.
  apply wp_bind. do_act. intros pend _. split; [done|].
  eapply wp_writeBatch; [exact Htriage| | | | |].
  - rewrite !elem_of_app. tauto.
  - eapply sent_all_mono; [apply app_incl|]. by exists rs.
  - rewrite tx_of_act, (tx_of_quiet _ t5), tx_of_act, (tx_of_quiet _ t4), (tx_of_quiet _ t3),
      (tx_of_quiet _ t2), tx_of_act by done. done.
  - intros h' db Hst _. exists tnow, events, triage, results, age. eexists _, db. split_and!; [done|done|].
    cbn. reflexivity.
  - intros h' e Hno. cbn [snd] in Hno. by rewrite db_failure_is_db in Hno.
Qed.

(** *** Commits are justified *)

Section staged.
Context (h : list step) (now : Z) (events : list event) (triage : batchTriage) (results : list senderResult).
Context (Hst : staged h now events triage results).

Lemma result_sent r :
  r ∈ results -> exists tgt es, eventsByTarget triage !! tgt = Some es /\ sent_ok h tgt es r.
Proof.
  destruct (staged_sent _ _ _ _ _ Hst) as (rs & Hperm & Hf). intros Hr. rewrite Hperm in Hr.
  apply list_elem_of_lookup in Hr as [i Hi]. destruct (Forall2_lookup_r _ _ _ _ _ Hf Hi) as ([tgt es] & Hg & Hok).
  exists tgt, es. split; [|done]. apply elem_of_range. by eapply list_elem_of_lookup_2.
Qed.

(** Each poison event stands for a selected event, which was rejected for the recorded reason. *)
Lemma poison_rejected p :
  p ∈ batch_poison triage results ->
  exists evt, evt ∈ events /\ columns (poison_evt p) = columns evt /\ route (poison_evt p) = route evt
    /\ rejected h evt (poison_error p).
Proof.
  pose proof (staged_triage _ _ _ _ _ Hst) as Htri.
  intros [Hp|Hp]%elem_of_app.
  - destruct (triage_rejects _ _ _ _ Htri p Hp) as [Hin Hu]. exists (poison_evt p). split_and!; [done..|].
    left. exists now. split; [apply (staged_now _ _ _ _ _ Hst)|done].
  - apply elem_of_concat in Hp as (ps & Hps & Hp). apply list_elem_of_fmap in Hps as (r & -> & Hr).
    destruct (result_sent r Hr) as (tgt & es & Hes & Hok). by eapply sent_poison.
Qed.

Lemma poison_resolved p evt :
  p ∈ batch_poison triage results ->
  columns (poison_evt p) = columns evt -> route (poison_evt p) = route evt ->
  rejected h evt (poison_error p) -> resolved h (tx_inserted (tx_of h)) evt.
Proof.
  intros Hp Hc Hr Hrej. right. exists (poison_error p). split; [done|]. intros Hdlq.
  destruct (staged_letters _ _ _ _ _ Hst Hdlq p Hp) as (t & payload & Hm & Hin).
  exists t, (options (poison_evt p)), payload. split; [|done]. rewrite <- Hm, <- Hc, <- Hr.
  by destruct p as [[cols rt opts] reason].
Qed.

Lemma elem_of_deleteIDs id :
  id ∈ deleteIDs cfg triage results
  <-> (exists c, c ∈ batch_confirmed results /\ id = event_id cfg c)
      \/ (exists p, p ∈ batch_poison triage results /\ id = event_id cfg (poison_evt p)).
Proof.
  unfold deleteIDs, batch_confirmed, batch_poison. setoid_rewrite elem_of_app. setoid_rewrite elem_of_concat.
  setoid_rewrite list_elem_of_fmap. split.
  - intros [(p & -> & Hp)|(l & (r & -> & Hr) & Hid)]; [eauto 10|].
    apply elem_of_app in Hid as [Hid|Hid]; apply list_elem_of_fmap in Hid as (x & -> & Hx); eauto 10.
  - intros [(c & (l & (r & -> & Hr) & Hc) & ->)|(p & [Hp|(l & (r & -> & Hr) & Hp)] & ->)].
    + right. eexists. split; [by exists r|]. apply elem_of_app. left. apply list_elem_of_fmap. eauto.
    + left. eauto.
    + right. eexists. split; [by exists r|]. apply elem_of_app. right. apply list_elem_of_fmap. eauto.
Qed.

Lemma staged_commit_ok : commit_ok h.
Proof.
  split; [apply (staged_failed _ _ _ _ _ Hst)|]. intros id.
  rewrite (staged_deleted _ _ _ _ _ Hst), (staged_selected _ _ _ _ _ Hst), elem_of_deleteIDs.
  intros [(c & Hc & ->)|(p & Hp & ->)].
  - apply elem_of_concat in Hc as (cs & Hcs & Hc). apply list_elem_of_fmap in Hcs as (r & -> & Hr).
    destruct (result_sent r Hr) as (tgt & es & Hes & Hok).
    destruct (sent_confirmed now events triage (staged_triage _ _ _ _ _ Hst) h tgt es r Hes Hok c Hc)
      as (evt & Hevt & Hkey & Hd).
    exists evt. split_and!; [done|done|by left].
  - destruct (poison_rejected p Hp) as (evt & Hevt & Hcol & Hroute & Hrej). exists evt. split_and!; [done| |].
    + unfold event_key, event_id, eventValue. by rewrite Hcol.
    + by eapply poison_resolved.
Qed.

(** Conversely, an event the triage rejects is deleted, and so is one its sender reports on. *)
Lemma resolved_deleted evt :
  evt ∈ events ->
  (forall parsed evs s, did (SendTo (target (route evt)) evs) s ∈ h ->
     withParsedOptions evt cfg = inr parsed -> providerEvent parsed cfg ∈ evs ->
     exists id, eventIDKey id = event_key cfg evt
       /\ (CbConfirm id ∈ callbacks s \/ exists reason, CbPoison id reason ∈ callbacks s)) ->
  event_key cfg evt ∈ (eventIDKey <$> tx_deleted (tx_of h)).
Proof.
  intros Hevt Hsent. rewrite (staged_deleted _ _ _ _ _ Hst).
  destruct (triage_all _ _ _ _ (staged_triage _ _ _ _ _ Hst) evt Hevt)
    as [(p & Hp & Heq)|(es & parsed & Hes & Hpes & Hparse)].
  { apply list_elem_of_fmap. exists (event_id cfg (poison_evt p)). subst evt. split; [done|].
    apply elem_of_deleteIDs. right. exists p. split; [|done]. apply elem_of_app. by left. }
  destruct (staged_sent _ _ _ _ _ Hst) as (rs & Hperm & Hf).
  assert (Hg : (target (route evt), es) ∈ range (eventsByTarget triage)) by by apply elem_of_range.
  apply list_elem_of_lookup in Hg as [i Hi]. destruct (Forall2_lookup_l _ _ _ _ _ Hf Hi) as (r & Hr & Hok).
  apply list_elem_of_lookup_2 in Hr. rewrite <- Hperm in Hr. destruct Hok as (s & Hin & _ & Hout & _).
  destruct (Hsent parsed _ s Hin Hparse (list_elem_of_fmap_2 (fun evt => providerEvent evt cfg) _ _ Hpes))
    as (id & Hid & Hcb).
  assert (Hkey : event_key cfg parsed = event_key cfg evt).
  { unfold event_key. by rewrite (event_id_parsed evt parsed Hparse). }
  destruct (by_id_some cfg es parsed Hpes) as [e He].
  pose proof (collect_ok cfg es (callbacks s)) as Hc.
  pose proof (collector_reported _ _ _ _ Hc id e ltac:(by rewrite Hid, <- Hkey) Hcb) as Hseen.
  apply (collector_seen _ _ _ _ Hc) in Hseen. rewrite Hid in Hseen. unfold outcome_keys in Hseen.
  rewrite <- Hout in Hseen. apply list_elem_of_fmap.
  apply elem_of_app in Hseen as [Hk|Hk]; apply list_elem_of_fmap in Hk as (x & Hx & Hin').
  - exists (event_id cfg x). split; [done|]. apply elem_of_deleteIDs. left. exists x. split; [|done].
    apply elem_of_concat. eexists. split; [by apply (list_elem_of_fmap_2 (fun r => confirmed (output r)))|done].
  - exists (event_id cfg (poison_evt x)). split; [done|]. apply elem_of_deleteIDs. right. exists x. split; [|done].
    apply elem_of_app. right. apply elem_of_concat. eexists.
    split; [by apply (list_elem_of_fmap_2 (fun r => poison (output r)))|done].
Qed.

(** Each event has at most one outcome. *)
Lemma result_count tgt es r : sent_ok h tgt es r -> length (confirmed (output r)) + length (poison (output r)) <= length es.
Proof.
  intros (s & _ & _ & Hout & _). pose proof (collect_ok cfg es (callbacks s)) as Hc. rewrite <- (length_fmap (event_key cfg) es).
  transitivity (length (outcome_keys cfg (output r))).
  { unfold outcome_keys. rewrite length_app, !length_fmap. done. }
  rewrite Hout. apply submseteq_length, NoDup_submseteq; [apply (collector_once _ _ _ _ Hc)|].
  intros key Hk. unfold outcome_keys in Hk. apply list_elem_of_fmap.
  apply elem_of_app in Hk as [Hk|Hk]; apply list_elem_of_fmap in Hk as (x & -> & Hx).
  - destruct (collector_confirmed _ _ _ _ Hc x Hx) as (id & _ & Hid). apply by_id_elem in Hid as [? _]. eauto.
  - destruct (collector_poison _ _ _ _ Hc x Hx) as (id & _ & Hid). apply by_id_elem in Hid as [? _]. eauto.
Qed.

Lemma outcomes_count :
  length (batch_confirmed results) + length (batch_poison triage results) <= length events.
Proof.
  rewrite <- (triage_count _ _ _ _ (staged_triage _ _ _ _ _ Hst)).
  destruct (staged_sent _ _ _ _ _ Hst) as (rs & Hperm & Hf). unfold batch_confirmed, batch_poison, total_events.
  rewrite length_app, Hperm, <- (range_Permutation (eventsByTarget triage)). clear Hperm.
  induction Hf as [|[tgt es] r gs rs Hok _ IH]; [simpl; lia|]. rewrite !fmap_cons.
  cbn [concat sum_list_with snd]. pose proof (result_count tgt es r Hok). rewrite !length_app. lia.
Qed.

End staged.

(** A batch ends committed, with what it reported staged just before, or with a database error. *)
Definition batch_end (h : list step) (r : batchResult * option error) : Prop :=
  errors_Is r.2 errDatabaseBatch = true
  \/ exists h1 h2, h = h1 ++ did Commit None :: h2 /\ reported h1 r /\ Forall quiet h2.

Lemma wp_commitBatch h result batchErr :
  commit_ok h -> reported h (result, batchErr) -> wp h (commitBatch result batchErr) batch_end.
Proof.
  intros Hc Hrep. unfold commitBatch. apply wp_bind. do_act. intros [e|] _; (split; [done|]).
  - apply wp_bind, wp_hushed; [apply hushed_logBatchError|]. intros t1 [] _ _ _.
    apply wp_bind. do_act. intros [] _. split; [done|]. apply wp_ret. left. cbn [snd].
    destruct (errors_Is batchErr errFatalAfterCommit); [|apply fmtDBError_is_db].
    pose proof (fmtDBError_is_db e) as Hdb. unfold errDatabaseBatch in *. rewrite errors_Is_Join.
    cbn [existsb]. rewrite Hdb. by rewrite orb_true_r.
  - apply wp_bind, wp_hushed; [apply hushed_markProgress|]. intros t1 [] _ _ Hq1.
    apply wp_bind. do_act. intros now _. split; [done|].
    apply wp_bind. do_act. intros [] _. split; [done|].
    apply wp_bind, wp_hushed; [hush|]. intros t2 [] _ _ Hq2. apply wp_ret. right.
    exists h. eexists. rewrite <- !(assoc_L (++)). split; [done|]. split; [done|].
    apply Forall_app. split; [done|]. apply Forall_cons. split; [done|]. apply Forall_cons. by split.
Qed.

Lemma wp_processOneBatch h : wp h (processOneBatch cfg) batch_end.
Proof.
  unfold processOneBatch. apply wp_bind. do_act. intros [e|] _; (split; [done|]).
  { apply wp_hushed; [hush|]. intros tr r He _ _. left.
    apply exec_bind in He as (t1 & t2 & [] & -> & _ & He).
    apply exec_bind in He as (t3 & t4 & [] & -> & _ & He). destruct He as [-> ->]. apply fmtDBError_is_db. }
  apply wp_bind. eapply wp_mono; [apply wp_processEventBatch; by rewrite tx_of_snoc|].
  intros h' [result batchErr] _ Hrep. cbn [snd] in Hrep. destruct (errors_Is batchErr errDatabaseBatch) eqn:Hdb.
  - unfold rollbackBatch. apply wp_bind, wp_hushed; [apply hushed_logBatchError|]. intros t [] _ _ _.
    apply wp_bind. do_act. intros r _. split; [done|]. apply wp_hushed; [hush|].
    intros tr r' He _ _. left. apply exec_bind in He as (t1 & t2 & [] & -> & _ & He).
    apply exec_bind in He as (t3 & t4 & [] & -> & _ & He). by destruct He as [-> ->].
  - pose proof (Hrep eq_refl) as Hr. apply wp_commitBatch; [|done].
    destruct Hr as (now & events & triage & results & age & publish & db & Hst & _).
    by eapply staged_commit_ok.
Qed.

Lemma wp_processTurn h st (Q : list step -> loop_state + option error -> Prop) :
  (forall h' r, Q h' r) -> wp h (processTurn cfg st) Q.
Proof.
  intros HQ. unfold processTurn. apply wp_bind. do_act. intros [] _; (split; [done|]); [by apply wp_ret|].
  apply wp_bind. eapply wp_mono; [apply wp_processOneBatch|]. intros h' [result batchErr] _ _.
  apply wp_hushed; [|intros; apply HQ]. hush.
Qed.

Lemma wp_processEvents turns h st :
  wp h (processEvents cfg turns st) (fun _ _ => True).
Proof.
  revert h st. induction turns as [|turns IH]; intros h st; [by apply wp_ret|]. cbn [processEvents].
  apply wp_bind, wp_processTurn. intros h' [st'|e]; [apply IH|].
  apply wp_hushed; [|done]. hush.
Qed.

End programs.

#[export] Hint Resolve hushed_logBatchError hushed_markProgress hushed_sleepContext hushed_record
  hushed_on_callback hushed_oldestEventAge hushed_updateBacklog hushed_close hushed_waitForEvents : hushed.
