(* ===== verification/Relay.v ===== *)
(** * The relay and its database

    The tables of the outbox under the relay's statements and the producers' inserts, and what the
    relay as a whole guarantees: no event is lost, whenever it stops.

    The rows of the event table are kept in id order, [ever] holds every row it ever had, and
    [dead] the payloads of the dead-letter table.  A commit that reports an error may have been
    applied or not.  Producers insert rows with new ids between any two actions. *)
From S2P Require Import Prelude GoErrors Config Values Samples Conc Provider Stats App Routes Sql Routing RoutingSpec Select Db Dlq Backlog Notify Processor ProcessorSafety.
Local Open Scope go_scope.

Section relay.
Context `{GoRuntime} `{Pgx} `{MapRange} (cfg : appConfig) (providers : string -> Provider).
Context (header : list string).

Record database := Database { table : list object; dead : list string; ever : list object }.

(** A row has the columns of the table. *)
Definition row_ok (row : object) : Prop := forall k, is_Some (row !! k) <-> k ∈ header.

Definition apply_tx (t : tx) (d : database) : database :=
  Database (filter (fun row => row_key cfg row ∉ (eventIDKey <$> tx_deleted t)) (table d))
    (dead d ++ tx_inserted t) (ever d).

(** What the database answers to an action after the history [h], and what it becomes. *)
Inductive db_step (h : list step) (d : database) : step -> database -> Prop :=
| db_commit r : db_step h d (did Commit r) (apply_tx (tx_of h) d)
| db_commit_lost e : db_step h d (did Commit (Some e)) d
| db_query :
    db_step h d (did (QueryEvents (selectEventsQuery cfg))
      (inr (rows_of header (select_events cfg (table d) (CollectBatchTarget cfg))))) d
| db_query_broken q r :
    match r with inl _ => True | inr rows => exists e, scanEvents rows = inl e end ->
    db_step h d (did (QueryEvents q) r) d
| db_other a :
    match projT1 a with Commit | QueryEvents _ => False | _ => True end -> db_step h d a d.

(** The databases a history of actions can lead to. *)
Inductive leads_to : list step -> database -> Prop :=
| leads_start rows letters :
    NoDup (row_key cfg <$> rows) -> Forall row_ok rows ->
    leads_to [] (Database rows letters rows)
| leads_act h d a d' : leads_to h d -> db_step h d a d' -> leads_to (h ++ [a]) d'
| leads_produce h rows1 rows2 letters past row :
    leads_to h (Database (rows1 ++ rows2) letters past) ->
    row_ok row -> row_key cfg row ∉ (row_key cfg <$> past) ->
    leads_to h (Database (rows1 ++ row :: rows2) letters (past ++ [row])).

(** The row was delivered to the queue of its route, or rejected; then, with a dead-letter table,
    it was dead-lettered. *)
Definition accounted (h : list step) (d : database) (row : object) : Prop :=
  exists rt, route_of cfg (row_text row) = Some rt
    /\ resolved cfg h (dead d) (MkEvt row rt no_options).

Record relay_inv (h : list step) (d : database) : Prop := {
  inv_keys : NoDup (row_key cfg <$> ever d);
  inv_table_keys : NoDup (row_key cfg <$> table d);
  inv_table : table d ⊆ ever d;
  inv_rows : Forall row_ok (table d);
  inv_selected : forall evt, evt ∈ tx_selected (tx_of h) ->
    columns evt ∈ ever d /\ route_of cfg (row_text (columns evt)) = Some (route evt)
      /\ options evt = no_options;
  inv_kept : forall row, row ∈ ever d -> row ∈ table d \/ accounted h d row;
}.

Lemma dead_lettered_mono ps ps' evt reason :
  ps ⊆ ps' -> dead_lettered cfg ps evt reason -> dead_lettered cfg ps' evt reason.
Proof. intros Hps (now & opts & payload & Hm & Hin). exists now, opts, payload. auto. Qed.

Lemma resolved_letters h ps ps' evt : ps ⊆ ps' -> resolved cfg h ps evt -> resolved cfg h ps' evt.
Proof.
  intros Hps [Hd|(reason & Hr & Hl)]; [by left|right]. exists reason. split; [done|].
  intros Hdlq. eapply dead_lettered_mono; eauto.
Qed.

Lemma accounted_mono h h' d d' row :
  h ⊆ h' -> dead d ⊆ dead d' -> accounted h d row -> accounted h' d' row.
Proof.
  intros Hh Hd (rt & Hrt & Hres). exists rt. split; [done|].
  eapply resolved_mono_app; [done|]. by eapply resolved_letters.
Qed.

Lemma route_of_nonempty row rt :
  route_of cfg (row_text row) = Some rt -> target rt <> "" /\ destination rt <> "".
Proof.
  unfold route_of. destruct (provider_of cfg (row_text row)) as [r|] eqn:Hr; [|done].
  case_bool_decide; [done|]. destruct (_ || _); [|done]. intros [= <-]. simpl. split; [|done].
  apply provider_configured in Hr. rewrite configuredProviderRoutes_eq in Hr.
  destruct (PubSubEnabled cfg), (SQSEnabled cfg); simpl in Hr; rewrite ?elem_of_cons, ?elem_of_nil in Hr;
    naive_solver.
Qed.

Lemma selected_scan d :
  NoDup (row_key cfg <$> table d) -> Forall row_ok (table d) ->
  scanEvents (rows_of header (select_events cfg (table d) (CollectBatchTarget cfg)))
  = inr (select_events cfg (table d) (CollectBatchTarget cfg)).
Proof.
  intros Hkeys Hrows. apply scanEvents_rows_of, Forall_forall. intros e He.
  destruct (batch_events cfg _ _ Hkeys e He) as (Hin & Hrt & Hopt).
  destruct (route_of_nonempty _ _ Hrt). split; [done|done| |done].
  rewrite Forall_forall in Hrows. by apply Hrows.
Qed.

Lemma inv_other h d a :
  relay_inv h d -> (forall evt, evt ∈ tx_selected (tx_of (h ++ [a])) -> evt ∈ tx_selected (tx_of h)) ->
  relay_inv (h ++ [a]) d.
Proof.
  intros [] Hsel. split; try done; auto.
  intros row Hrow. destruct (inv_kept0 row Hrow) as [|Ha]; [by left|right].
  eapply accounted_mono; [apply app_incl|done|done].
Qed.

Lemma inv_commit h d r :
  relay_inv h d -> commit_ok cfg h -> relay_inv (h ++ [did Commit r]) (apply_tx (tx_of h) d).
Proof.
  intros [Hk Htk Ht Hrows Hsel Hkept] [_ Hok]. split; simpl.
  - done.
  - by apply NoDup_fmap_filter.
  - intros row [_ Hrow]%list_elem_of_filter. by apply Ht.
  - apply Forall_forall. intros row [_ Hrow]%list_elem_of_filter. rewrite Forall_forall in Hrows. by apply Hrows.
  - rewrite tx_of_snoc. by intros evt ?%elem_of_nil.
  - intros row Hrow.
    assert (Hsub : h ⊆ h ++ [did Commit r]) by apply app_incl.
    assert (Hdead : dead d ⊆ dead (apply_tx (tx_of h) d)) by apply app_incl.
    destruct (Hkept row Hrow) as [Hin|Ha]; [|right; by eapply accounted_mono].
    destruct (decide (row_key cfg row ∈ (eventIDKey <$> tx_deleted (tx_of h)))) as [Hd|Hn];
      [right|left; by apply list_elem_of_filter].
    apply list_elem_of_fmap in Hd as (id & Hid & Hdel). destruct (Hok id Hdel) as (evt & Hevt & Hkey & Hres).
    destruct (Hsel evt Hevt) as (Hever & Hrt & Hopt).
    assert (columns evt = row) as <-.
    { apply (NoDup_fmap_inj (row_key cfg) (ever d)); [done..|].
      change (row_key cfg (columns evt)) with (event_key cfg evt). congruence. }
    exists (route evt). split; [done|]. eapply resolved_mono_app; [done|].
    eapply (resolved_letters _ (tx_inserted (tx_of h))).
    { intros p Hp. apply elem_of_app. by right. }
    destruct evt as [cols rt opts]. simpl in *. by subst opts.
Qed.

Lemma inv_act h d a d' :
  relay_inv h d -> db_step h d a d' -> justifies cfg a h -> relay_inv (h ++ [a]) d'.
Proof.
  intros Hinv Hstep Hj. destruct Hstep as [r|e| |q r Hr|a Ha].
  - by apply inv_commit.
  - apply inv_other; [done|]. rewrite tx_of_snoc. by intros evt ?%elem_of_nil.
  - pose proof (selected_scan d (inv_table_keys _ _ Hinv) (inv_rows _ _ Hinv)) as Hscan.
    destruct Hinv as [Hk Htk Ht Hrows Hsel Hkept]. split; try done.
    + rewrite tx_of_snoc. cbn [tx_step projT1 projT2 did]. rewrite Hscan. cbn [tx_selected].
      intros evt Hevt. destruct (batch_events cfg _ _ Htk evt Hevt) as (Hin & Hrt & Hopt). auto.
    + intros row Hrow. destruct (Hkept row Hrow) as [|Ha]; [by left|right].
      eapply accounted_mono; [apply app_incl|done|done].
  - apply inv_other; [done|]. rewrite tx_of_snoc. cbn [tx_step projT1 projT2 did].
    destruct r as [e|rows]; [done|]. destruct Hr as [e Hr]. by rewrite Hr.
  - apply inv_other; [done|]. rewrite tx_of_snoc. intros evt. destruct a as [[] r]; simpl; try done;
      try (by intros ?%elem_of_nil); by destruct r.
Qed.

Lemma inv_produce h rows1 rows2 letters past row :
  relay_inv h (Database (rows1 ++ rows2) letters past) -> row_ok row ->
  row_key cfg row ∉ (row_key cfg <$> past) ->
  relay_inv h (Database (rows1 ++ row :: rows2) letters (past ++ [row])).
Proof.
  intros [Hk Htk Ht Hrows Hsel Hkept] Hok Hfresh. simpl in *. split; simpl.
  - rewrite fmap_app, NoDup_app. split_and!; [done| |apply NoDup_singleton].
    intros k Hin ->%list_elem_of_singleton. done.
  - rewrite fmap_app, fmap_cons. rewrite <- Permutation_middle, NoDup_cons, <- fmap_app. split; [|done].
    contradict Hfresh. apply list_elem_of_fmap in Hfresh as (row' & -> & Hin).
    apply list_elem_of_fmap_2. by apply Ht.
  - intros r Hr. apply elem_of_app. apply elem_of_app in Hr as [Hr|Hr]; [left; apply Ht; set_solver|].
    apply elem_of_cons in Hr as [->|Hr]; [right; apply list_elem_of_here|left; apply Ht; set_solver].
  - rewrite Forall_app, Forall_cons in *. tauto.
  - intros evt Hevt. destruct (Hsel evt Hevt) as (Hin & Hrest). split; [set_solver|done].
  - intros r [Hr| ->%list_elem_of_singleton]%elem_of_app; [|left; set_solver].
    destruct (Hkept r Hr) as [Hin|Ha]; [left; set_solver|by right].
Qed.

Lemma leads_to_inv h d :
  leads_to h d -> justified (justifies cfg) [] h -> relay_inv h d.
Proof.
  induction 1 as [rows letters Hnd Hrows|h d a d' _ IH Hstep|h rows1 rows2 letters past row _ IH Hok Hfresh];
    intros Hj.
  - split; simpl; try done; [by intros evt ?%elem_of_nil|by left].
  - apply justified_app in Hj as [Hj Ha]. eapply inv_act; [by apply IH|done|].
    pose proof (Ha [] a [] eq_refl) as Hja. by rewrite app_nil_r in Hja.
  - apply inv_produce; auto.
Qed.

(** Every prefix of an execution of the loop is justified. *)
Lemma processEvents_justified turns st tr r h :
  exec (processEvents cfg turns st) tr r -> Forall (env providers) tr -> h `prefix_of` tr ->
  justified (justifies cfg) [] h.
Proof.
  intros He Henv [t ->].
  destruct (wp_processEvents cfg providers turns [] st _ _ He Henv) as [Hj _].
  by apply justified_app in Hj as [Hj _].
Qed.

End relay.

(** ** Properties *)

(** C1. No event is lost, at whatever point the relay stops and whatever the senders, the database
    and the clock answer: a row that was ever in the event table is still there, or the queue of
    its route acknowledged its message, or it was rejected by the triage or its sender and, with a
    dead-letter table configured, the table holds it with its route and the reason. *)
Theorem at_least_once `{GoRuntime} `{Pgx} `{MapRange} (cfg : appConfig) (providers : string -> Provider)
    (header : list string) (turns : nat) (st : loop_state) (tr h : list step)
    (r : option (option error)) (d : database) :
  exec (processEvents cfg turns st) tr r -> Forall (env providers) tr -> h `prefix_of` tr ->
  leads_to cfg header h d ->
  forall row, row ∈ ever d -> row ∈ table d \/ accounted cfg h d row.
Proof.
  intros He Henv Hpre Hd. apply (inv_kept cfg header). apply leads_to_inv; [done|].
  by eapply processEvents_justified.
Qed.

(** C4. The relay only commits a transaction in which no statement failed and in which every
    deleted id is that of a selected event that was delivered or rejected. *)
Theorem commits_are_justified `{GoRuntime} `{Pgx} `{MapRange} (cfg : appConfig)
    (providers : string -> Provider) (turns : nat) (st : loop_state) (tr h rest : list step)
    (r : option (option error)) (c : option error) :
  exec (processEvents cfg turns st) tr r -> Forall (env providers) tr ->
  tr = h ++ did Commit c :: rest -> commit_ok cfg h.
Proof.
  intros He Henv ->.
  pose proof (processEvents_justified cfg providers _ _ _ _ _ He Henv ltac:(done)) as Hj.
  exact (Hj h (did Commit c) rest eq_refl).
Qed.

(** C8. What is finished is deleted: when a batch ends without a database error, it was committed,
    and its transaction deletes every selected event that the triage rejected and every one that
    its sender confirmed or rejected. *)
Theorem batch_deletes_what_is_finished `{GoRuntime} `{Pgx} `{MapRange} (cfg : appConfig)
    (providers : string -> Provider) (tr : list step) (result : batchResult) (e : option error) :
  exec (processOneBatch cfg) tr (result, e) -> Forall (env providers) tr ->
  errors_Is e errDatabaseBatch = false ->
  exists h rest, tr = h ++ did Commit None :: rest
    /\ selected result = Z.of_nat (length (tx_selected (tx_of h)))
    /\ forall evt, evt ∈ tx_selected (tx_of h) ->
      (forall parsed evs s, did (SendTo (target (route evt)) evs) s ∈ h ->
         withParsedOptions evt cfg = inr parsed -> providerEvent parsed cfg ∈ evs ->
         exists id, eventIDKey id = event_key cfg evt
           /\ (CbConfirm id ∈ callbacks s \/ exists reason, CbPoison id reason ∈ callbacks s)) ->
      event_key cfg evt ∈ (eventIDKey <$> tx_deleted (tx_of h)).
Proof.
  intros He Henv Hno. destruct (wp_processOneBatch cfg providers [] _ _ He Henv) as [_ [Hdb|Hend]];
    [cbn [snd] in Hdb; congruence|].
  destruct Hend as (h1 & h2 & Htr & (now & events & triage & results & age & publish & db & Hst & _ & Hres) & _).
  exists h1, h2. cbn [fst] in Hres. rewrite (staged_selected _ _ _ _ _ _ _ Hst).
  split_and!; [done|by subst result|]. intros evt Hevt. by eapply resolved_deleted.
Qed.

(** C21. The counters of a committed batch add up: the selected events are those sent, those
    rejected (counted as poison, or as dead letters with a dead-letter table) and those kept for
    retry, none of them negative. *)
Theorem batch_counts_add_up `{GoRuntime} `{Pgx} `{MapRange} (cfg : appConfig)
    (providers : string -> Provider) (tr : list step) (result : batchResult) (e : option error) :
  exec (processOneBatch cfg) tr (result, e) -> Forall (env providers) tr ->
  errors_Is e errDatabaseBatch = false ->
  let s := stats result in
  (b_selected s = b_sent s + b_poison s + b_dlq s + b_keptForRetry s
   /\ 0 <= b_sent s /\ 0 <= b_poison s /\ 0 <= b_dlq s /\ 0 <= b_keptForRetry s)%Z
  /\ b_senderErrors s = Z.of_nat (countJoinedErrors e)
  /\ b_fatalAfterCommitErrors s = (if errors_Is e errFatalAfterCommit then 1 else 0)%Z.
Proof.
  intros He Henv Hno. destruct (wp_processOneBatch cfg providers [] _ _ He Henv) as [_ [Hdb|Hend]];
    [cbn [snd] in Hdb; congruence|].
  destruct Hend as (h1 & h2 & _ & (now & events & triage & results & age & publish & db & Hst & Herr & Hres) & _).
  cbn [fst snd] in Hres, Herr. subst result e. cbn.
  pose proof (outcomes_count _ _ _ _ _ _ _ Hst) as Hcount. split; [|done].
  unfold int. case_bool_decide; repeat case_bool_decide; lia.
Qed.

(** ** A run

    One turn of the relay of [sample_sqs] over [sample_table], with a sender that confirms every
    event and a database on which every statement succeeds. *)

Definition confirming : Provider.
Proof.
  refine {| Send := fun evs cbs acked err =>
              cbs = (CbConfirm <$> (ID <$> evs)) /\ acked = evs /\ err = None |}.
  - by intros evs cbs acked err (_ & -> & _) evt Hevt.
  - intros evs cbs acked err (-> & -> & _) id Hid. apply list_elem_of_fmap in Hid as (id' & [= ->] & Hid).
    apply list_elem_of_fmap in Hid as (evt & -> & Hevt). eauto.
  - intros evs cbs acked err (-> & _ & _) id reason Hid.
    by apply list_elem_of_fmap in Hid as (id' & [=] & _).
Defined.

Definition sample_header : list string := ["id"; "payload"; "destination"].

Definition sample_answer (past : list step) (c : app_cmd) : app_resp c :=
  match c as c return app_resp c with
  | CtxErr => false
  | TimeNow => 0%Z
  | QueryEvents q => inr (rows_of sample_header (select_events sample_sqs sample_table 4))
  | SendTo tgt evs => Sent (CbConfirm <$> (ID <$> evs)) evs None
  | QueryColumns q => inl (ErrText "unused")
  | QueryMetadata q t => inl (ErrText "unused")
  | QueryBacklog q limit => inr (5%Z, 5%Z)
  | WaitForNotification d => WaitOver
  | BeginTx | Commit | Rollback | ExecInsert _ _ | ExecDelete _ _ | DbConn | ExecListen _ | ExecUnlisten => None
  | _ => tt
  end.

Lemma sample_answers (tr : list step) :
  Forall (answered sample_answer) tr -> Forall (env (fun _ => confirming)) tr.
Proof. intros Ha. eapply Forall_impl; [exact Ha|]. intros a (past & c & ->). by destruct c. Qed.

(** The database after a trace whose statements succeed, and what the trace has to satisfy. *)
Fixpoint follow (cfg : appConfig) (h : list step) (d : database) (tr : list step) : database :=
  match tr with
  | [] => d
  | a :: tr =>
      follow cfg (h ++ [a]) (match projT1 a with Commit => apply_tx cfg (tx_of h) d | _ => d end) tr
  end.

Fixpoint followed (cfg : appConfig) (header : list string) (h : list step) (d : database) (tr : list step) : Prop :=
  match tr with
  | [] => True
  | a :: tr =>
      match projT1 a with
      | QueryEvents _ => a = did (QueryEvents (selectEventsQuery cfg))
          (inr (rows_of header (select_events cfg (table d) (CollectBatchTarget cfg))))
      | _ => True
      end
      /\ followed cfg header (h ++ [a]) (match projT1 a with Commit => apply_tx cfg (tx_of h) d | _ => d end) tr
  end.

Lemma followed_leads_to cfg header h d tr :
  leads_to cfg header h d -> followed cfg header h d tr ->
  leads_to cfg header (h ++ tr) (follow cfg h d tr).
Proof.
  revert h d. induction tr as [|a tr IH]; intros h d Hd Hf; [by rewrite app_nil_r|]. destruct Hf as [Ha Hf].
  replace (h ++ a :: tr) with ((h ++ [a]) ++ tr) by by rewrite <- (assoc_L (++)).
  simpl. apply IH; [|done]. eapply leads_act; [exact Hd|]. clear IH Hf Hd.
  destruct a as [[] r]; simpl in Ha; try (by apply db_other).
  - apply db_commit.
  - rewrite Ha. apply db_query.
Qed.

(** In a trace answered by [sample_answer], every query that precedes the commits is answered from
    the table. *)
Fixpoint queries_first (committed : bool) (tr : list step) : bool :=
  match tr with
  | [] => true
  | a :: tr =>
      match projT1 a with
      | QueryEvents q => negb committed && bool_decide (q = selectEventsQuery sample_sqs) && queries_first committed tr
      | Commit => queries_first true tr
      | _ => queries_first committed tr
      end
  end.

Lemma followed_answered committed h d tr :
  Forall (answered sample_answer) tr -> (committed = false -> table d = sample_table) ->
  queries_first committed tr = true -> followed sample_sqs sample_header h d tr.
Proof.
  intros Ha. revert committed h d. induction Ha as [|a tr (past & c & ->) _ IH]; intros committed h d Hd Hq; [done|].
  cbn [followed queries_first projT1] in *.
  destruct c; try (split; [exact I|by eapply IH]).
  - split; [exact I|]. by apply (IH true).
  - rewrite !andb_true_iff, negb_true_iff, bool_decide_eq_true in Hq. destruct Hq as [[Hc ->] Hq].
    specialize (Hd Hc). split; [by rewrite Hd|]. by eapply IH.
Qed.

Lemma run_sample_answered (m : prog (option (option error))) : Forall (answered sample_answer) (run sample_answer m []).1.
Proof. apply run_answered. constructor. Qed.

Definition sample_run : list step := (run sample_answer (processEvents sample_sqs 1 initial_state) []).1.

Definition sample_database : database := Database sample_table [] sample_table.

Lemma sample_row_ok id destination : row_ok sample_header (sample_row id destination).
Proof.
  intros k. unfold sample_row, sample_header. rewrite !lookup_insert_is_Some, lookup_empty.
  rewrite !elem_of_cons, elem_of_nil. split; [|by destruct (decide (k = "id")), (decide (k = "payload")); naive_solver].
  intros [->|(_ & [->|(_ & [->|(_ & [? [=]])])])]; auto.
Qed.

Lemma sample_rows_ok : Forall (row_ok sample_header) sample_table.
Proof. repeat (apply Forall_cons; split; [apply sample_row_ok|]). apply Forall_nil_2. Qed.

Lemma sample_leads_to :
  leads_to sample_sqs sample_header sample_run (follow sample_sqs [] sample_database sample_run).
Proof.
  refine (followed_leads_to sample_sqs sample_header [] sample_database sample_run _ _).
  - apply leads_start; [exact sample_keys|exact sample_rows_ok].
  - apply (followed_answered false); [apply run_sample_answered|done|]. vm_compute. reflexivity.
Qed.

Lemma follow_ever cfg h d tr : ever (follow cfg h d tr) = ever d.
Proof.
  revert h d. induction tr as [|[c r] tr IH]; intros h db; simpl; [done|]. rewrite IH. by destruct c.
Qed.

Lemma sample_remaining :
  (fun row => map_get row "id") <$> table (follow sample_sqs [] sample_database sample_run)
  = [VInt KInt64 3; VInt KInt64 5].
Proof. vm_compute. reflexivity. Qed.

Lemma at_least_once_witness :
  let d := follow sample_sqs [] sample_database sample_run in
  (fun row => map_get row "id") <$> table d = [VInt KInt64 3; VInt KInt64 5]
  /\ accounted sample_sqs sample_run d (sample_row 1 "").
Proof.
  split; [exact sample_remaining|].
  destruct (at_least_once sample_sqs (fun _ => confirming) sample_header 1 initial_state sample_run sample_run
    (run sample_answer (processEvents sample_sqs 1 initial_state) []).2
    (follow sample_sqs [] sample_database sample_run)) with (row := sample_row 1 "") as [Hin|Ha]; [| | | | | |exact Ha].
  - apply run_exec_nil.
  - apply sample_answers, run_sample_answered.
  - exists []. symmetry. apply app_nil_r.
  - apply sample_leads_to.
  - rewrite follow_ever. apply list_elem_of_here.
  - exfalso. apply (list_elem_of_fmap_2 (fun row => map_get row "id")) in Hin.
    rewrite sample_remaining in Hin. repeat (apply elem_of_cons in Hin as [[=]|Hin]).
    by apply elem_of_nil in Hin.
Defined.

Definition sample_batch : list step * (batchResult * option error) :=
  run sample_answer (processOneBatch sample_sqs) [].

Lemma sample_batch_exec : exec (processOneBatch sample_sqs) sample_batch.1 (sample_batch.2.1, sample_batch.2.2).
Proof. rewrite <- surjective_pairing. apply run_exec_nil. Qed.

Lemma sample_batch_env : Forall (env (fun _ => confirming)) sample_batch.1.
Proof. apply sample_answers, run_answered. constructor. Qed.

Lemma commits_are_justified_witness :
  exists h rest, sample_run = h ++ did Commit None :: rest /\ commit_ok sample_sqs h.
Proof.
  assert (Hc : exists h rest, sample_run = h ++ did Commit None :: rest).
  { exists (take 22 sample_run), (drop 23 sample_run). symmetry. apply take_drop_middle. vm_compute. reflexivity. }
  destruct Hc as (h & rest & Htr). exists h, rest. split; [done|].
  eapply (commits_are_justified sample_sqs (fun _ => confirming) 1 initial_state sample_run h rest);
    [apply run_exec_nil|apply sample_answers, run_sample_answered|exact Htr].
Defined.

Lemma batch_deletes_what_is_finished_witness :
  exists h rest, sample_batch.1 = h ++ did Commit None :: rest
    /\ selected sample_batch.2.1 = Z.of_nat (length (tx_selected (tx_of h))).
Proof.
  destruct (batch_deletes_what_is_finished sample_sqs (fun _ => confirming) sample_batch.1
    sample_batch.2.1 sample_batch.2.2) as (h & rest & Htr & Hsel & _);
    [apply sample_batch_exec|apply sample_batch_env|vm_compute; reflexivity|eauto].
Defined.

Lemma batch_counts_add_up_witness :
  b_sent (stats sample_batch.2.1) = 3%Z
  /\ (b_selected (stats sample_batch.2.1) = b_sent (stats sample_batch.2.1) + b_poison (stats sample_batch.2.1)
        + b_dlq (stats sample_batch.2.1) + b_keptForRetry (stats sample_batch.2.1))%Z.
Proof.
  split; [vm_compute; reflexivity|].
  apply (batch_counts_add_up sample_sqs (fun _ => confirming) sample_batch.1 sample_batch.2.1 sample_batch.2.2);
    [apply sample_batch_exec|apply sample_batch_env|vm_compute; reflexivity].
Defined.
