(* ===== verification/Sends.v ===== *)
(** * Which events a relay sends

    Every event a relay passes to a sender is one that the transaction it has open selected, with
    its options read and under the target of its route. *)
From S2P Require Import Prelude GoErrors Config Values Conc Provider Stats App Routes Sql Routing Select Db Dlq Backlog Notify Processor ProcessorSafety.
Local Open Scope go_scope.

Section sends.
Context `{GoRuntime} `{Pgx} `{MapRange} (cfg : appConfig) (providers : string -> Provider).

Definition from_selection (a : step) (h : list step) : Prop :=
  match projT1 a with
  | SendTo tgt evs => forall pe, pe ∈ evs -> exists evt parsed,
      evt ∈ tx_selected (tx_of h) /\ withParsedOptions evt cfg = inr parsed
      /\ pe = providerEvent parsed cfg /\ target (route evt) = tgt
  | _ => True
  end.

(** An action that sends nothing; one that is no statement either. *)
Definition unsending (a : step) : Prop := match projT1 a with SendTo _ _ => False | _ => True end.

Definition silent (a : step) : Prop :=
  match projT1 a with
  | SendTo _ _ | BeginTx | Commit | Rollback | QueryEvents _ | ExecInsert _ _ | ExecDelete _ _ => False
  | _ => True
  end.

Lemma silent_quiet a : silent a -> quiet a.
Proof. by destruct a as [[] r]. Qed.

Lemma silent_unsending a : silent a -> unsending a.
Proof. by destruct a as [[] r]. Qed.

Lemma unsending_from_selection a h : unsending a -> from_selection a h.
Proof. by destruct a as [[] r]. Qed.

Abbreviation wp := (wp (env providers) from_selection).

Lemma wp_step c h (Q : list step -> app_resp c -> Prop) :
  (forall r, from_selection (did c r) h /\ Q (h ++ [did c r]) r) -> wp h (act c) Q.
Proof. intros HQ. apply (wp_perform (R := app_resp)). intros r _. apply HQ. Qed.

Lemma wp_unsending {A} h (m : prog A) (Q : list step -> A -> Prop) :
  only unsending m -> (forall h' a, Q h' a) -> wp h m Q.
Proof. intros Hm HQ. apply (wp_only unsending); [done|apply unsending_from_selection|auto]. Qed.

Lemma wp_silent {A} h (m : prog A) (Q : list step -> A -> Prop) :
  only silent m -> (forall t a, exec m t a -> tx_of (h ++ t) = tx_of h -> Q (h ++ t) a) -> wp h m Q.
Proof.
  intros Hm HQ. apply (wp_only silent); [done| |].
  - intros a h' Ha. by apply unsending_from_selection, silent_unsending.
  - intros t a He _ Ht. apply HQ; [done|]. apply tx_of_quiet. eapply Forall_impl; [exact Ht|apply silent_quiet].
Qed.

Lemma silent_markProgress : only silent markProgress.
Proof. unfold markProgress. hush. Qed.

Lemma silent_logBatchError m : only silent (logBatchError m).
Proof. unfold logBatchError. hush. Qed.

Lemma silent_oldestEventAge events : only silent (oldestEventAge cfg events).
Proof. unfold oldestEventAge. hush. Qed.

#[local] Hint Resolve silent_markProgress : hushed.

Lemma silent_triageEvents events : only silent (triageEvents cfg events).
Proof. unfold triageEvents, finally. hush. Qed.

Lemma silent_on_callback c cb : only silent (on_callback c cb).
Proof. unfold on_callback, senderCollector_confirm, senderCollector_poison, record. hush. Qed.

(** The groups of a triage are events of the selection. *)
Lemma triaged events tr triage :
  exec (triageEvents cfg events) tr (inr triage) -> exists now, triage_ok cfg now events triage.
Proof.
  unfold triageEvents, finally.
  intros (t1 & t2 & now & -> & _ & (t3 & t4 & r & -> & Hloop & He)%exec_bind)%exec_bind.
  exists now.
  assert (Hgen : forall es done t acc (r : batchTriage + (error + batchTriage)), exec (for_loop es (fun triage evt =>
       run! markProgress; Ret (match triage_event cfg now triage evt with inl e => inr (inl e) | inr t => inl t end)) acc) t r ->
     triage_ok cfg now done acc ->
     match r with inl out => triage_ok cfg now (done ++ es) out | inr (inl _) => True | inr (inr _) => False end).
  { clear. induction es as [|evt es IH]; intros done t acc r; cbn [for_loop].
    - intros [_ ->] Hok. by rewrite app_nil_r.
    - intros (u1 & u2 & x & -> & Hx & He)%exec_bind Hok.
      apply exec_bind in Hx as (u3 & u4 & [] & _ & _ & [_ ->]).
      destruct (triage_event cfg now acc evt) as [e|acc'] eqn:Hev; [by destruct He as [_ ->]|].
      change (evt :: es) with ([evt] ++ es). rewrite (assoc_L (++)).
      eapply IH; [exact He|by eapply triage_event_ok]. }
  specialize (Hgen events [] _ _ _ Hloop (triage_nil cfg now)).
  destruct r as [triage'|[e|?]]; [|by destruct He as [_ ?]|done]. by destruct He as [_ [= ->]].
Qed.

Lemma wp_sendAll_from h now triage (Q : list step -> list senderResult -> Prop) :
  triage_ok cfg now (tx_selected (tx_of h)) triage -> (forall h' r, Q h' r) -> wp h (sendAll cfg triage) Q.
Proof.
  intros Hok HQ tr r He _. split; [|apply HQ].
  assert (Hsent : Forall (fun a => quiet a /\ from_selection a h) tr).
  { revert tr r He. change (only (fun a => quiet a /\ from_selection a h) (sendAll cfg triage)).
    apply only_Par; [|intros rs; apply only_ret].
    intros p Hp. apply list_elem_of_fmap in Hp as ([tgt es] & -> & Hin). apply elem_of_range in Hin.
    unfold collectProviderOutput, collectSenderOutput. apply only_bind.
    - refine (only_perform _ (SendTo _ _) _). intros s. split; [done|]. intros pe Hpe.
      unfold providerEvents in Hpe. apply list_elem_of_fmap in Hpe as (parsed & -> & Hparsed).
      destruct (triage_sends _ _ _ _ Hok tgt es parsed Hin Hparsed) as (evt & Hevt & Hwp & Htgt & _). by exists evt, parsed.
    - intros s. apply only_bind; [|intros c; apply only_ret]. apply only_for_each. intros c cb.
      intros t a Ht. eapply Forall_impl; [by eapply silent_on_callback|]. intros x Hx.
      split; [by apply silent_quiet|by apply unsending_from_selection, silent_unsending]. }
  intros t1 x t2 ->. rewrite Forall_app, Forall_cons in Hsent. destruct Hsent as (H1' & [_ Hx] & _).
  assert (Htx : tx_of (h ++ t1) = tx_of h).
  { apply tx_of_quiet. eapply Forall_impl; [exact H1'|]. by intros a [? _]. }
  revert Hx. unfold from_selection. by rewrite Htx.
Qed.

Lemma unsending_writeBatch result d ps ids e : only unsending (writeBatch cfg result d ps ids e).
Proof.
  unfold writeBatch, insertDeadLetters, finally, marshal_step, deleteEvents, markProgress. hush.
Qed.

Lemma wp_processEventBatch_from h (Q : list step -> batchResult * option error -> Prop) :
  (forall h' r, Q h' r) -> wp h (processEventBatch cfg) Q.
Proof.
  intros HQ. unfold processEventBatch.
  apply wp_bind, wp_silent; [apply silent_markProgress|]. intros t1 [] _ _.
  apply wp_bind, wp_silent; [hush|]. intros t2 dbStart _ _.
  apply wp_bind. unfold selectEvents. apply wp_bind. refine (wp_step (QueryEvents _) _ _ _).
  intros rows. split; [done|]. apply wp_ret.
  destruct (match rows with inl e => inl e | inr rows => scanEvents rows end) as [e|events] eqn:Hscan; [by apply wp_ret|].
  destruct rows as [|rows]; [done|].
  assert (Hsel : tx_selected (tx_of (((h ++ t1) ++ t2) ++ [did (QueryEvents (selectEventsQuery cfg)) (inr rows)])) = events).
  { rewrite tx_of_snoc. cbn [tx_step projT1 projT2 did]. by rewrite Hscan. }
  revert Hsel. generalize (((h ++ t1) ++ t2) ++ [did (QueryEvents (selectEventsQuery cfg)) (inr rows)]).
  clear h t1 t2 Hscan rows. intros h Htx.
  apply wp_bind, wp_silent; [hush|]. intros t1 now _ Ht1.
  apply wp_bind, wp_silent; [apply silent_markProgress|]. intros t2 [] _ Ht2.
  apply wp_bind, wp_silent; [apply silent_oldestEventAge|]. intros t3 age _ Ht3.
  apply wp_bind, wp_silent; [apply silent_triageEvents|]. intros t4 [e|triage] Htri Ht4; [by apply wp_ret|].
  apply triaged in Htri as [tnow Htri]. unfold sendBatch.
  apply wp_bind, wp_silent; [hush|]. intros t5 pstart _ Ht5.
  apply wp_bind, (wp_sendAll_from _ tnow).
  { by rewrite Ht5, Ht4, Ht3, Ht2, Ht1, Htx. }
  intros h' results. apply wp_unsending; [|done]. apply only_bind; [hush|]. intros pend. apply unsending_writeBatch.
Qed.

Lemma wp_processOneBatch_from h (Q : list step -> batchResult * option error -> Prop) :
  (forall h' r, Q h' r) -> wp h (processOneBatch cfg) Q.
Proof.
  intros HQ. unfold processOneBatch. apply wp_bind, wp_unsending; [hush|]. intros h1 [e|].
  { apply wp_unsending; [unfold logBatchError; hush|done]. }
  apply wp_bind, wp_processEventBatch_from. intros h2 [result batchErr].
  apply wp_unsending; [|done]. unfold rollbackBatch, commitBatch, logBatchError, markProgress. hush.
Qed.

Lemma unsending_waitForEvents l : only unsending (waitForEvents cfg l).
Proof. unfold waitForEvents, wait_listening, startListener, wait, close, sleepContext. hush. Qed.

Lemma unsending_updateBacklog last result : only unsending (updateBacklog cfg last result).
Proof. unfold updateBacklog, countBacklog. hush. Qed.

Lemma wp_processEvents_from turns h st : wp h (processEvents cfg turns st) (fun _ _ => True).
Proof.
  revert h st. induction turns as [|turns IH]; intros h st; [by apply wp_ret|]. cbn [processEvents].
  apply wp_bind. unfold processTurn. apply wp_bind, wp_unsending; [hush|]. intros h1 [].
  { apply wp_ret, wp_unsending; [|done]. unfold close. hush. }
  apply wp_bind, wp_processOneBatch_from. intros h2 [result batchErr].
  eapply (wp_mono _ _ _ _ (fun _ _ => True)).
  - apply wp_unsending; [|done]. destruct (errors_Is batchErr errFatalAfterCommit); [hush|].
    destruct (errors_Is batchErr errDatabaseBatch); [unfold sleepContext; hush|].
    apply only_bind; [apply unsending_updateBacklog|]. intros probe.
    case_bool_decide; [|hush]. apply only_bind; [apply unsending_waitForEvents|]. intros l. apply only_ret.
  - intros h' [st'|e] _ _; [apply IH|]. apply wp_unsending; [|done]. unfold close. hush.
Qed.

(** Every prefix of an execution of the loop. *)
Lemma processEvents_sends turns st tr r h :
  exec (processEvents cfg turns st) tr r -> Forall (env providers) tr -> h `prefix_of` tr ->
  justified from_selection [] h.
Proof.
  intros He Henv [t ->]. destruct (wp_processEvents_from turns [] st _ _ He Henv) as [Hj _].
  by apply justified_app in Hj as [Hj _].
Qed.

End sends.
