(* ===== verification/Fleet.v ===== *)
(** * Several relays on one table

    Relays of rolling deployments, shards with overlapping destinations or restarted processes
    share the event table.  What keeps them apart is [FOR UPDATE] in the collection query: the
    rows a transaction selected stay locked until it ends, and a query that meets a locked row
    waits, and then skips the row if it was deleted.  This file puts any number of relays, each with
    its own configuration and history, on one database, and shows that they refine an outbox that
    finishes each row once.

    A query answers from the table as it was at some earlier moment, less the rows that are gone.
    A relay that crashes is one that acts no more; its transaction, like one whose connection is
    lost, ends at some moment ([fleet_lost]). *)
From stdpp Require Import functions.
From S2P Require Import Prelude GoErrors Config Values Samples Conc Provider Stats App Routes Sql Routing RoutingSpec Select Db Dlq Backlog Notify Processor ProcessorSafety Relay Sends.
Local Open Scope go_scope.

(** ** The outbox

    The abstract specification: rows wait, and each is finished once, by one of the relays. *)
Record outbox := Outbox { pending : list object; finished : list (nat * object) }.

Inductive outbox_step : outbox -> outbox -> Prop :=
| submit rows1 row rows2 fin :
    row ∉ rows1 ++ rows2 -> row ∉ (snd <$> fin) ->
    outbox_step (Outbox (rows1 ++ rows2) fin) (Outbox (rows1 ++ row :: rows2) fin)
| finish rows1 row rows2 fin i :
    outbox_step (Outbox (rows1 ++ row :: rows2) fin) (Outbox (rows1 ++ rows2) (fin ++ [(i, row)])).

(** Finishing the rows of a table that satisfy [P]. *)
Lemma finish_all (P : object -> Prop) `{forall row, Decision (P row)} i kept rows fin :
  rtc outbox_step (Outbox (kept ++ rows) fin)
    (Outbox (kept ++ filter (fun row => ~ P row) rows) (fin ++ (pair i <$> filter P rows))).
Proof.
  revert kept fin. induction rows as [|row rows IH]; intros kept fin.
  { rewrite !app_nil_r. apply rtc_refl. }
  rewrite !filter_cons. destruct (decide (P row)) as [HP|HP].
  - rewrite decide_False by tauto. eapply rtc_l; [apply finish|]. cbn [fmap list_fmap].
    change (pair i row :: (pair i <$> filter P rows)) with ([(i, row)] ++ (pair i <$> filter P rows)).
    rewrite (assoc_L (++) fin). apply IH.
  - rewrite decide_True by done. rewrite !(cons_middle row), !(assoc_L (++) kept). apply IH.
Qed.

Section fleet.
Context `{GoRuntime} `{Pgx} `{MapRange} (cfgs : nat -> appConfig) (header : list string) (column : string).

(** The id of a row, in the column all relays are configured with. *)
Definition key (row : object) : string := eventIDKey (map_get row column).

(** A relay: what it has done, and whether its transaction is open in the database. *)
Record relay := MkRelay { hist : list step; held : bool }.

(** The event table now and at earlier moments, every row it ever had, and the dead letters of each
    table. *)
Record fleet := Fleet {
  rows : list object;
  past : list (list object);
  produced : list object;
  letters : list (string * string);
  relays : nat -> relay;
}.

Definition start (table : list object) (dead : list (string * string)) : fleet :=
  Fleet table [table] table dead (fun _ => MkRelay [] false).

Definition selected_by (f : fleet) (i : nat) : list event := tx_selected (tx_of (hist (relays f i))).

(** The rows that the open transaction of a relay keeps locked. *)
Definition locked (f : fleet) (i : nat) : list string :=
  if held (relays f i) then (fun evt => key (columns evt)) <$> selected_by f i else [].

(** The relay [i] performs [a]; then its transaction is open or not. *)
Definition acts (f : fleet) (i : nat) (a : step) (open : bool) : fleet :=
  Fleet (rows f) (past f) (produced f) (letters f)
    (<[i := MkRelay (hist (relays f i) ++ [a]) open]> (relays f)).

(** What the transaction of [i] leaves of the table when it is committed. *)
Definition remaining (f : fleet) (i : nat) : list object :=
  filter (fun row => ~ key row ∈ (eventIDKey <$> tx_deleted (tx_of (hist (relays f i))))) (rows f).

Definition commits (f : fleet) (i : nat) (r : option error) : fleet :=
  Fleet (remaining f i) (past f ++ [remaining f i]) (produced f)
    (letters f ++ (pair (DLQTable (cfgs i)) <$> tx_inserted (tx_of (hist (relays f i)))))
    (<[i := MkRelay (hist (relays f i) ++ [did Commit r]) false]> (relays f)).

(** What a query of [i] on the table [snap] finds, once it holds the locks. *)
Definition answer (f : fleet) (i : nat) (snap : list object) : list event :=
  filter (fun evt => key (columns evt) ∈ (key <$> rows f)) (select_events (cfgs i) snap (CollectBatchTarget (cfgs i))).

Definition statement (a : step) : Prop :=
  match projT1 a with ExecInsert _ _ | ExecDelete _ _ => True | _ => False end.

Definition succeeded (a : step) : Prop :=
  match projT1 a as c return app_resp c -> Prop with
  | ExecInsert _ _ | ExecDelete _ _ => fun r => r = None
  | _ => fun _ => False
  end (projT2 a).

Inductive fleet_step (f : fleet) : fleet -> Prop :=
| fleet_begin i r : fleet_step f (acts f i (did BeginTx r) (bool_decide (r = None)))
| fleet_query i snap :
    held (relays f i) = true -> snap ∈ past f ->
    (forall j evt, j <> i -> evt ∈ answer f i snap -> key (columns evt) ∉ locked f j) ->
    fleet_step f (acts f i (did (QueryEvents (selectEventsQuery (cfgs i))) (inr (rows_of header (answer f i snap)))) true)
| fleet_query_broken i q r :
    match r with inl _ => True | inr rows => exists e, scanEvents rows = inl e end ->
    fleet_step f (acts f i (did (QueryEvents q) r) (held (relays f i)))
| fleet_statement i a :
    statement a -> (succeeded a -> held (relays f i) = true) -> fleet_step f (acts f i a (held (relays f i)))
| fleet_commit i r : held (relays f i) = true -> fleet_step f (commits f i r)
| fleet_commit_failed i e : fleet_step f (acts f i (did Commit (Some e)) false)
| fleet_rollback i r : fleet_step f (acts f i (did Rollback r) false)
| fleet_other i a : quiet a -> fleet_step f (acts f i a (held (relays f i)))
| fleet_lost i :
    fleet_step f (Fleet (rows f) (past f) (produced f) (letters f) (<[i := MkRelay (hist (relays f i)) false]> (relays f)))
| fleet_produce rows1 row rows2 :
    rows f = rows1 ++ rows2 -> row_ok header row -> key row ∉ (key <$> produced f) ->
    fleet_step f (Fleet (rows1 ++ row :: rows2) (past f ++ [rows1 ++ row :: rows2]) (produced f ++ [row]) (letters f) (relays f)).

(** The dead letters a relay's table holds. *)
Definition letters_of (f : fleet) (i : nat) : list string :=
  snd <$> filter (fun l => l.1 = DLQTable (cfgs i)) (letters f).

(** The relay [i] had the row delivered to the queue of its route, or rejected it and, with a
    dead-letter table, dead-lettered it. *)
Definition accounts_for (f : fleet) (i : nat) (row : object) : Prop :=
  exists rt, route_of (cfgs i) (row_text row) = Some rt
    /\ resolved (cfgs i) (hist (relays f i)) (letters_of f i) (MkEvt row rt no_options).

(** A table the database can have had. *)
Definition table_ok (ever t : list object) : Prop := NoDup (key <$> t) /\ Forall (row_ok header) t /\ t ⊆ ever.

Definition own (f : fleet) (i : nat) (evt : event) : Prop :=
  columns evt ∈ produced f /\ route_of (cfgs i) (row_text (columns evt)) = Some (route evt) /\ options evt = no_options.

Record fleet_inv (f : fleet) (o : outbox) : Prop := {
  fi_keys : NoDup (key <$> produced f);
  fi_pending : pending o = rows f;
  fi_split : produced f ≡ₚ rows f ++ (snd <$> finished o);
  fi_past : Forall (table_ok (produced f)) (past f);
  fi_rows : Forall (row_ok header) (rows f);
  fi_own : forall i evt, evt ∈ selected_by f i -> own f i evt;
  fi_held : forall i evt, held (relays f i) = true -> evt ∈ selected_by f i -> columns evt ∈ rows f;
  fi_apart : forall i j k, i <> j -> k ∈ locked f i -> k ∉ locked f j;
  fi_finished : forall i row, (i, row) ∈ finished o -> accounts_for f i row;
}.

Definition all_justified (f : fleet) : Prop := forall i, justified (justifies (cfgs i)) [] (hist (relays f i)).

(** ** Accounting only grows *)

Lemma accounts_mono f f' i row :
  hist (relays f i) ⊆ hist (relays f' i) -> letters f ⊆ letters f' -> accounts_for f i row -> accounts_for f' i row.
Proof.
  intros Hh Hl (rt & Hrt & Hres). exists rt. split; [done|]. eapply resolved_mono_app; [exact Hh|].
  eapply resolved_letters; [|exact Hres]. unfold letters_of. intros p Hp.
  apply list_elem_of_fmap in Hp as (l & -> & Hl'). apply list_elem_of_fmap_2.
  apply list_elem_of_filter in Hl' as [Hd Hl']. apply list_elem_of_filter. auto.
Qed.

(** ** The rows of the table *)

Lemma inv_table f o : fleet_inv f o -> NoDup (key <$> rows f) /\ rows f ⊆ produced f.
Proof.
  intros Hi. pose proof (fi_keys _ _ Hi) as Hk. rewrite (fi_split _ _ Hi), fmap_app in Hk.
  apply NoDup_app in Hk as [Hk _]. split; [done|]. intros row Hrow. rewrite (fi_split _ _ Hi). set_solver.
Qed.

Lemma same_row f o row row' :
  fleet_inv f o -> row ∈ produced f -> row' ∈ produced f -> key row = key row' -> row = row'.
Proof. intros Hi H1' H2' Hk. by apply (NoDup_fmap_inj key (produced f)); [apply (fi_keys _ _ Hi)|..]. Qed.

(** ** One relay acts *)

Section acts.
Context (f : fleet) (o : outbox) (i : nat).

(** What the transaction of [i] selects after the action, while the transaction is open. *)
Definition new_locks (a : step) (open : bool) : list string :=
  if open then (fun evt => key (columns evt)) <$> tx_selected (tx_of (hist (relays f i) ++ [a])) else [].

Lemma locked_acts a open j :
  locked (acts f i a open) j = if decide (j = i) then new_locks a open else locked f j.
Proof.
  unfold locked, selected_by, acts, new_locks. cbn [relays]. case_decide as Hj.
  - subst j. by rewrite fn_lookup_insert.
  - by rewrite fn_lookup_insert_ne by done.
Qed.

Lemma inv_acts a open :
  fleet_inv f o ->
  (forall evt, evt ∈ tx_selected (tx_of (hist (relays f i) ++ [a])) ->
     own f i evt /\ (open = true -> columns evt ∈ rows f)) ->
  (forall j k, j <> i -> k ∈ new_locks a open -> k ∉ locked f j) ->
  fleet_inv (acts f i a open) o.
Proof.
  intros [] Hsel Hlock. split; try done.
  - intros j evt. unfold selected_by, own, acts. cbn [relays]. destruct (decide (j = i)) as [->|Hj].
    + rewrite fn_lookup_insert. apply Hsel.
    + rewrite fn_lookup_insert_ne by done. apply fi_own0.
  - intros j evt. unfold selected_by, acts. cbn [relays rows]. destruct (decide (j = i)) as [->|Hj].
    + rewrite fn_lookup_insert. simpl. intros Ho Hin. by apply Hsel.
    + rewrite fn_lookup_insert_ne by done. apply fi_held0.
  - intros j j' k Hne. rewrite !locked_acts. repeat case_decide; subst; try done; [by apply Hlock| |by apply fi_apart0].
    intros Hk Hk'. by apply (Hlock j k).
  - intros j row Hin. eapply accounts_mono; [| |by apply fi_finished0]; [|done].
    unfold acts. cbn [relays]. destruct (decide (j = i)) as [->|Hj].
    + rewrite fn_lookup_insert. apply app_incl.
    + by rewrite fn_lookup_insert_ne.
Qed.

(** An action that selects nothing new, and does not open a transaction. *)
Lemma inv_idle a open :
  fleet_inv f o -> (forall evt, evt ∈ tx_selected (tx_of (hist (relays f i) ++ [a])) -> evt ∈ selected_by f i) ->
  (open = true -> held (relays f i) = true) -> fleet_inv (acts f i a open) o.
Proof.
  intros Hinv Hsel Hopen. apply inv_acts; [done| |].
  - intros evt Hin. apply Hsel in Hin. split; [by apply (fi_own _ _ Hinv)|].
    intros Ho. apply (fi_held _ _ Hinv i); auto.
  - intros j k Hj Hk. apply (fi_apart _ _ Hinv i j); [done|]. unfold new_locks in Hk. destruct open; [|by apply elem_of_nil in Hk].
    unfold locked. rewrite Hopen by done. apply list_elem_of_fmap in Hk as (evt & -> & Hin).
    apply (list_elem_of_fmap_2 (fun evt => key (columns evt))). by apply Hsel.
Qed.

(** An action that leaves no transaction. *)
Lemma inv_closed a open :
  fleet_inv f o -> (forall h, tx_selected (tx_of (h ++ [a])) = []) -> fleet_inv (acts f i a open) o.
Proof.
  intros Hinv Hsel. apply inv_acts; [done|..].
  - intros evt. by rewrite Hsel, elem_of_nil.
  - intros j k _. unfold new_locks. rewrite Hsel. destruct open; by rewrite elem_of_nil.
Qed.

End acts.

(** ** The steps *)

Lemma inv_statement f o i a :
  fleet_inv f o -> statement a -> fleet_inv (acts f i a (held (relays f i))) o.
Proof.
  intros Hinv Ha. apply inv_idle; [done| |done]. intros evt. rewrite tx_of_snoc.
  destruct a as [[] r]; try done; by destruct r.
Qed.

Lemma inv_query_broken f o i q r :
  match r with inl _ => True | inr rows => exists e, scanEvents rows = inl e end ->
  fleet_inv f o -> fleet_inv (acts f i (did (QueryEvents q) r) (held (relays f i))) o.
Proof.
  intros Hr Hinv. apply inv_idle; [done| |done]. intros evt. rewrite tx_of_snoc. cbn [tx_step projT1 projT2 did].
  destruct r as [e|rs]; [done|]. destruct Hr as [e Hr]. by rewrite Hr.
Qed.

Lemma inv_quiet f o i a : quiet a -> fleet_inv f o -> fleet_inv (acts f i a (held (relays f i))) o.
Proof. intros Ha Hinv. apply inv_idle; [done| |done]. intros evt. by rewrite tx_of_act. Qed.

Lemma inv_lost f o i :
  fleet_inv f o ->
  fleet_inv (Fleet (rows f) (past f) (produced f) (letters f) (<[i := MkRelay (hist (relays f i)) false]> (relays f))) o.
Proof.
  intros []. split; try done; cbn [relays rows produced].
  - intros j evt. unfold selected_by, own. cbn [relays]. destruct (decide (j = i)) as [->|Hj].
    + rewrite fn_lookup_insert. apply fi_own0.
    + rewrite fn_lookup_insert_ne by done. apply fi_own0.
  - intros j evt. unfold selected_by. cbn [relays]. destruct (decide (j = i)) as [->|Hj].
    + by rewrite fn_lookup_insert.
    + rewrite fn_lookup_insert_ne by done. apply fi_held0.
  - intros j j' k Hne. unfold locked, selected_by. cbn [relays].
    destruct (decide (j = i)) as [->|Hj]; [rewrite fn_lookup_insert; by intros ?%elem_of_nil|].
    rewrite (fn_lookup_insert_ne _ i j) by done. intros Hk.
    destruct (decide (j' = i)) as [->|Hj']; [rewrite fn_lookup_insert; by apply not_elem_of_nil|].
    rewrite (fn_lookup_insert_ne _ i j') by done. by apply (fi_apart0 j j' k Hne).
  - intros j row Hin. eapply accounts_mono; [| |by apply fi_finished0]; [|done]. cbn [relays].
    destruct (decide (j = i)) as [->|Hj]; [by rewrite fn_lookup_insert|by rewrite fn_lookup_insert_ne].
Qed.

Context (Hcolumn : forall i, cfgEventID (cfgs i) = column).

Lemma key_row i row : row_key (cfgs i) row = key row.
Proof. unfold row_key, key. by rewrite Hcolumn. Qed.

Lemma key_rows i (t : list object) : row_key (cfgs i) <$> t = key <$> t.
Proof. apply list_fmap_ext. intros _ row _. apply key_row. Qed.

(** What a query finds can be read. *)
Lemma answer_events f i snap :
  table_ok (produced f) snap -> forall evt, evt ∈ answer f i snap ->
  own f i evt /\ key (columns evt) ∈ (key <$> rows f).
Proof.
  intros (Hk & _ & Hsub) evt [Hin He]%list_elem_of_filter.
  rewrite <- (key_rows i) in Hk. destruct (batch_events (cfgs i) _ _ Hk evt He) as (Hc & Hr & Ho).
  split; [|done]. split_and!; [by apply Hsub|done|done].
Qed.

Lemma answer_scan f i snap :
  table_ok (produced f) snap -> scanEvents (rows_of header (answer f i snap)) = inr (answer f i snap).
Proof.
  intros Hsnap. apply scanEvents_rows_of, Forall_forall. intros evt Hevt.
  destruct (answer_events f i snap Hsnap evt Hevt) as [(_ & Hr & Ho) _]. destruct Hsnap as (Hk & Hrows & _).
  apply list_elem_of_filter in Hevt as [_ Hevt]. rewrite <- (key_rows i) in Hk.
  destruct (batch_events (cfgs i) _ _ Hk evt Hevt) as (Hc & _). destruct (route_of_nonempty _ _ _ Hr).
  split; [done|done| |done]. rewrite Forall_forall in Hrows. by apply Hrows.
Qed.

Lemma inv_query f o i snap :
  fleet_inv f o -> snap ∈ past f ->
  (forall j evt, j <> i -> evt ∈ answer f i snap -> key (columns evt) ∉ locked f j) ->
  fleet_inv (acts f i (did (QueryEvents (selectEventsQuery (cfgs i))) (inr (rows_of header (answer f i snap)))) true) o.
Proof.
  intros Hinv Hsnap Hlock. pose proof (fi_past _ _ Hinv) as Hpast. rewrite Forall_forall in Hpast.
  specialize (Hpast _ Hsnap).
  assert (Htx : tx_selected (tx_of (hist (relays f i) ++ [did (QueryEvents (selectEventsQuery (cfgs i))) (inr (rows_of header (answer f i snap)))]))
    = answer f i snap).
  { rewrite tx_of_snoc. cbn [tx_step projT1 projT2 did]. by rewrite answer_scan. }
  apply inv_acts; [done|..].
  - rewrite Htx. intros evt Hevt. destruct (answer_events f i snap Hpast evt Hevt) as [Hown Hin]. split; [done|]. intros _.
    apply list_elem_of_fmap in Hin as (row & Hk & Hin).
    rewrite (same_row f o (columns evt) row); [done|done|by destruct Hown| |done]. by apply (inv_table f o Hinv).
  - unfold new_locks. rewrite Htx. intros j k Hj Hk. apply list_elem_of_fmap in Hk as (evt & -> & Hevt). by apply Hlock.
Qed.

(** *** A commit *)

Definition completed (f : fleet) (i : nat) : list object :=
  filter (fun row => key row ∈ (eventIDKey <$> tx_deleted (tx_of (hist (relays f i))))) (rows f).

Lemma rows_split f i : rows f ≡ₚ remaining f i ++ completed f i.
Proof. unfold remaining, completed. by rewrite Permutation_app_comm, filter_app_complement. Qed.

(** What a justified commit deletes is resolved, and locked by its relay. *)
Lemma deleted_event f o i row :
  fleet_inv f o -> commit_ok (cfgs i) (hist (relays f i)) -> row ∈ produced f ->
  key row ∈ (eventIDKey <$> tx_deleted (tx_of (hist (relays f i)))) ->
  exists evt, evt ∈ selected_by f i /\ columns evt = row /\ own f i evt
    /\ resolved (cfgs i) (hist (relays f i)) (tx_inserted (tx_of (hist (relays f i)))) evt.
Proof.
  intros Hinv [_ Hok] Hrow Hdel. apply list_elem_of_fmap in Hdel as (id & Hid & Hdel).
  destruct (Hok id Hdel) as (evt & Hevt & Hk & Hres). pose proof (fi_own _ _ Hinv i evt Hevt) as Hown.
  exists evt. split_and!; [done| |done|done]. destruct Hown as [Hp _].
  apply (same_row f o); [done..|]. rewrite Hid, <- Hk. change (event_key (cfgs i) evt) with (row_key (cfgs i) (columns evt)).
  by rewrite key_row.
Qed.

Lemma locked_commits f i r j : locked (commits f i r) j = if decide (j = i) then [] else locked f j.
Proof.
  unfold locked, selected_by, commits. cbn [relays]. case_decide as Hj.
  - subst j. by rewrite fn_lookup_insert.
  - by rewrite fn_lookup_insert_ne by done.
Qed.

Lemma completed_accounts f o i r row :
  fleet_inv f o -> commit_ok (cfgs i) (hist (relays f i)) -> row ∈ completed f i -> accounts_for (commits f i r) i row.
Proof.
  intros Hinv Hok [Hdel Hrow]%list_elem_of_filter. apply (inv_table f o Hinv) in Hrow.
  destruct (deleted_event f o i row Hinv Hok Hrow Hdel) as (evt & _ & <- & (_ & Hr & Ho) & Hres).
  exists (route evt). split; [done|]. destruct evt as [cols rt opts]. simpl in *. subst opts.
  unfold commits. cbn [relays]. rewrite fn_lookup_insert. eapply resolved_mono_app; [apply app_incl|].
  eapply resolved_letters; [|exact Hres]. unfold letters_of. cbn [letters]. intros p Hp.
  apply (list_elem_of_fmap_2' snd _ (DLQTable (cfgs i), p)); [|done]. apply list_elem_of_filter. split; [done|].
  apply elem_of_app. right. by apply list_elem_of_fmap_2.
Qed.

Lemma commits_hist f i r j : hist (relays f j) ⊆ hist (relays (commits f i r) j).
Proof.
  unfold commits. cbn [relays]. destruct (decide (j = i)) as [->|Hj].
  - rewrite fn_lookup_insert. apply app_incl.
  - by rewrite fn_lookup_insert_ne.
Qed.

Lemma commits_selected f i r j evt :
  evt ∈ selected_by (commits f i r) j -> j <> i /\ evt ∈ selected_by f j.
Proof.
  unfold selected_by, commits. cbn [relays]. destruct (decide (j = i)) as [->|Hj].
  - rewrite fn_lookup_insert. cbn [hist]. rewrite tx_of_snoc. by intros ?%elem_of_nil.
  - by rewrite fn_lookup_insert_ne.
Qed.

(** Another relay's locked rows survive. *)
Lemma locked_remains f o i j evt :
  fleet_inv f o -> commit_ok (cfgs i) (hist (relays f i)) -> held (relays f i) = true ->
  j <> i -> held (relays f j) = true -> evt ∈ selected_by f j -> columns evt ∈ remaining f i.
Proof.
  intros Hinv Hok Hi Hj Hheld Hevt. pose proof (fi_held _ _ Hinv j evt Hheld Hevt) as Hrow.
  apply list_elem_of_filter. split; [|done]. intros Hdel. pose proof (proj2 (inv_table f o Hinv) _ Hrow) as Hp.
  destruct (deleted_event f o i _ Hinv Hok Hp Hdel) as (evt' & Hevt' & Heq & _).
  apply (fi_apart _ _ Hinv i j (key (columns evt))); [done|..]; unfold locked.
  - rewrite Hi, <- Heq. by apply (list_elem_of_fmap_2 (fun evt => key (columns evt))).
  - rewrite Hheld. by apply (list_elem_of_fmap_2 (fun evt => key (columns evt))).
Qed.

Lemma fmap_snd_pair (i : nat) (l : list object) : snd <$> (pair i <$> l) = l.
Proof. rewrite <- list_fmap_compose. apply list_fmap_id. Qed.

Lemma inv_commits f o i r :
  fleet_inv f o -> held (relays f i) = true -> commit_ok (cfgs i) (hist (relays f i)) ->
  fleet_inv (commits f i r) (Outbox (remaining f i) (finished o ++ (pair i <$> completed f i))).
Proof.
  intros Hinv Hheld Hok. pose proof (inv_table f o Hinv) as [Hnd Hsub].
  assert (Hrem : remaining f i ⊆ rows f) by (intros row [_ Hr]%list_elem_of_filter; done).
  assert (Hrows : Forall (row_ok header) (remaining f i)).
  { apply Forall_forall. intros row Hr. apply Hrem in Hr. pose proof (fi_rows _ _ Hinv) as Hf. rewrite Forall_forall in Hf. by apply Hf. }
  split; cbn [commits produced past rows pending finished]; try done.
  - apply (fi_keys _ _ Hinv).
  - rewrite fmap_app, fmap_snd_pair, (fi_split _ _ Hinv), (rows_split f i). rewrite <- (assoc_L (++)). f_equiv. apply Permutation_app_comm.
  - apply Forall_app. split; [apply (fi_past _ _ Hinv)|]. apply Forall_singleton. split_and!; [|done|set_solver].
    by apply NoDup_fmap_filter.
  - intros j evt [Hj Hevt]%commits_selected. by apply (fi_own _ _ Hinv j).
  - intros j evt Hh Hevt. apply commits_selected in Hevt as [Hj Hevt].
    unfold commits in Hh. cbn [relays] in Hh. rewrite fn_lookup_insert_ne in Hh by done.
    by apply (locked_remains f o i j).
  - intros j j' k Hne. rewrite !locked_commits. repeat case_decide; subst; try done; [by intros ?%elem_of_nil|by intros _ ?%elem_of_nil|].
    by apply (fi_apart _ _ Hinv).
  - intros j row [Hin|Hin]%elem_of_app.
    + eapply accounts_mono; [apply commits_hist|apply app_incl|]. by apply (fi_finished _ _ Hinv).
    + apply list_elem_of_fmap in Hin as (row' & [= -> ->] & Hin). by apply (completed_accounts f o).
Qed.

Lemma inv_produces f o rows1 row rows2 :
  fleet_inv f o -> rows f = rows1 ++ rows2 -> row_ok header row -> key row ∉ (key <$> produced f) ->
  fleet_inv (Fleet (rows1 ++ row :: rows2) (past f ++ [rows1 ++ row :: rows2]) (produced f ++ [row]) (letters f) (relays f))
    (Outbox (rows1 ++ row :: rows2) (finished o)).
Proof.
  intros Hinv Heq Hok Hfresh. pose proof (inv_table f o Hinv) as [Hnd Hsub].
  pose proof (fi_rows _ _ Hinv) as Hrows. rewrite Heq in Hnd, Hsub, Hrows.
  assert (Hnew : rows1 ++ row :: rows2 ⊆ produced f ++ [row]) by set_solver.
  assert (Hall : Forall (row_ok header) (rows1 ++ row :: rows2)) by (rewrite Forall_app, Forall_cons in *; tauto).
  split; cbn [produced past rows pending finished letters relays]; try done.
  - rewrite fmap_app, NoDup_app. split_and!; [apply (fi_keys _ _ Hinv)| |apply NoDup_singleton].
    intros k Hin ->%list_elem_of_singleton. done.
  - rewrite (fi_split _ _ Hinv), Heq. rewrite <- !(assoc_L (++)). f_equiv. simpl. by rewrite <- Permutation_cons_append, Permutation_middle.
  - apply Forall_app. split.
    + eapply Forall_impl; [apply (fi_past _ _ Hinv)|]. intros t' (? & ? & Ht'). split_and!; [done..|set_solver].
    + apply Forall_singleton. split_and!; [|done|done].
      rewrite fmap_app, fmap_cons, <- Permutation_middle, NoDup_cons, <- fmap_app. split; [|done].
      contradict Hfresh. apply list_elem_of_fmap in Hfresh as (row' & -> & Hin). apply list_elem_of_fmap_2. by apply Hsub.
  - intros i evt Hevt. destruct (fi_own _ _ Hinv i evt Hevt) as (Hp & Hrest). split; [set_solver|done].
  - intros i evt Hh Hevt. pose proof (fi_held _ _ Hinv i evt Hh Hevt) as Hin. rewrite Heq in Hin. set_solver.
  - apply (fi_apart _ _ Hinv).
  - intros i r' Hin. eapply accounts_mono; [| |by apply (fi_finished _ _ Hinv)]; done.
Qed.

(** ** Runs *)

Lemma step_hist f f' i : fleet_step f f' -> hist (relays f i) `prefix_of` hist (relays f' i).
Proof.
  assert (Hput : forall j h b, hist (relays f j) `prefix_of` h ->
    hist (relays f i) `prefix_of` hist (<[j := MkRelay h b]> (relays f) i)).
  { intros j h b Hh. destruct (decide (i = j)) as [->|Hj]; [by rewrite fn_lookup_insert|by rewrite fn_lookup_insert_ne]. }
  destruct 1; cbn [acts commits relays]; try done; apply Hput; by try apply prefix_app_r.
Qed.

Lemma justified_back f f' : fleet_step f f' -> all_justified f' -> all_justified f.
Proof.
  intros Hs Hj i. specialize (Hj i). destruct (step_hist _ _ i Hs) as [t Ht]. rewrite Ht in Hj.
  by apply justified_app in Hj as [Hj _].
Qed.

(** The simulation: a step of the fleet is some steps of the outbox. *)
Lemma simulates f f' o :
  fleet_step f f' -> fleet_inv f o -> all_justified f' -> exists o', rtc outbox_step o o' /\ fleet_inv f' o'.
Proof.
  intros Hs Hinv Hj.
  destruct Hs as [i r|i snap Hheld Hsnap Hlock|i q r Hr|i a Ha Hsucc|i r Hheld|i e|i r|i a Ha|i|rows1 row rows2 Heq Hok Hfresh].
  - exists o. split; [done|]. apply inv_closed; [done|]. intros h. by rewrite tx_of_snoc.
  - exists o. split; [done|]. by apply inv_query.
  - exists o. split; [done|]. by apply inv_query_broken.
  - exists o. split; [done|]. by apply inv_statement.
  - exists (Outbox (remaining f i) (finished o ++ (pair i <$> completed f i))). split.
    + destruct o as [pend fin]. pose proof (fi_pending _ _ Hinv) as Hp. simpl in Hp. subst pend. simpl.
      apply (finish_all (fun row => key row ∈ (eventIDKey <$> tx_deleted (tx_of (hist (relays f i))))) i []).
    + apply inv_commits; [done|done|]. specialize (Hj i). unfold commits in Hj. cbn [relays] in Hj.
      rewrite fn_lookup_insert in Hj. cbn [hist] in Hj. apply justified_app in Hj as [_ Hj].
      specialize (Hj [] _ [] eq_refl). by rewrite app_nil_r in Hj.
  - exists o. split; [done|]. apply inv_closed; [done|]. intros h. by rewrite tx_of_snoc.
  - exists o. split; [done|]. apply inv_closed; [done|]. intros h. by rewrite tx_of_snoc.
  - exists o. split; [done|]. by apply inv_quiet.
  - exists o. split; [done|]. by apply inv_lost.
  - exists (Outbox (rows1 ++ row :: rows2) (finished o)). split; [|by apply inv_produces].
    destruct o as [pend fin]. pose proof (fi_pending _ _ Hinv) as Hp. simpl in Hp. subst pend.
    rewrite Heq. apply rtc_once, submit.
    + rewrite <- Heq. contradict Hfresh. apply list_elem_of_fmap_2. by apply (inv_table f _ Hinv).
    + contradict Hfresh. apply list_elem_of_fmap_2. rewrite (fi_split _ _ Hinv). apply elem_of_app. by right.
Qed.

Lemma fleet_simulation table dead f :
  NoDup (key <$> table) -> Forall (row_ok header) table ->
  rtc fleet_step (start table dead) f -> all_justified f ->
  exists o, rtc outbox_step (Outbox table []) o /\ fleet_inv f o.
Proof.
  intros Hk Hrows Hrun. revert f Hrun. refine (rtc_ind_r _ _ _ _).
  - intros _. exists (Outbox table []). split; [done|]. split; cbn; try done.
    + by rewrite app_nil_r.
    + apply Forall_singleton. by split_and!.
    + by intros i evt ?%elem_of_nil.
    + by intros i j k _ ?%elem_of_nil.
    + by intros i row ?%elem_of_nil.
  - intros f f' _ Hs IH Hj. destruct IH as (o & Ho & Hinv); [by eapply justified_back|].
    destruct (simulates f f' o Hs Hinv Hj) as (o' & Ho' & Hinv'). exists o'. split; [by etrans|done].
Qed.

(** The relays of the fleet run the processing loop, with senders that keep their contract. *)
Definition running (providers : nat -> string -> Provider) (f : fleet) : Prop :=
  forall i, exists turns st tr r,
    exec (processEvents (cfgs i) turns st) tr r /\ Forall (env (providers i)) tr /\ hist (relays f i) `prefix_of` tr.

Lemma running_justified providers f : running providers f -> all_justified f.
Proof. intros Hr i. destruct (Hr i) as (turns & st & tr & r & He & Henv & Hp). by eapply processEvents_justified. Qed.

Lemma running_sends providers f i :
  running providers f -> justified (from_selection (cfgs i)) [] (hist (relays f i)).
Proof. intros Hr. destruct (Hr i) as (turns & st & tr & r & He & Henv & Hp). by eapply processEvents_sends. Qed.

End fleet.

(** ** Properties *)

(** C9. Any number of relays on one table, starting, crashing, losing connections and committing in
    any order while producers insert, refine the outbox: what is pending is the event table, and
    every row ever produced is pending or was finished, once, by one relay, which had it
    delivered to the queue of its route, or rejected it and, with a dead-letter table,
    dead-lettered it. *)
Theorem fleet_refines_outbox `{GoRuntime} `{Pgx} `{MapRange} (cfgs : nat -> appConfig)
    (providers : nat -> string -> Provider) (header : list string) (column : string)
    (table : list object) (dead : list (string * string)) (f : fleet) :
  (forall i, cfgEventID (cfgs i) = column) -> NoDup (key column <$> table) -> Forall (row_ok header) table ->
  rtc (fleet_step cfgs header column) (start table dead) f -> running cfgs providers f ->
  exists o, rtc outbox_step (Outbox table []) o
    /\ pending o = rows f
    /\ NoDup (produced f) /\ produced f ≡ₚ pending o ++ (snd <$> finished o)
    /\ forall i row, (i, row) ∈ finished o -> accounts_for cfgs f i row.
Proof.
  intros Hcol Hk Hrows Hrun Hrunning.
  destruct (fleet_simulation cfgs header column Hcol table dead f Hk Hrows Hrun) as (o & Ho & Hinv).
  { by eapply running_justified. }
  exists o. split_and!; [done|by eapply fi_pending| | |by apply (fi_finished _ _ _ _ _ Hinv)].
  - eapply NoDup_fmap_1. by eapply fi_keys.
  - rewrite (fi_pending _ _ _ _ _ Hinv). by eapply fi_split.
Qed.

(** C13. Relays keep out of each other's way: while the transactions of two relays are open, no row
    is locked by both; what one of them passes to a sender is a row it has locked, that is still
    in the table and that the others have not locked. *)
Theorem sends_are_exclusive `{GoRuntime} `{Pgx} `{MapRange} (cfgs : nat -> appConfig)
    (providers : nat -> string -> Provider) (header : list string) (column : string)
    (table : list object) (dead : list (string * string)) (f : fleet) :
  (forall i, cfgEventID (cfgs i) = column) -> NoDup (key column <$> table) -> Forall (row_ok header) table ->
  rtc (fleet_step cfgs header column) (start table dead) f -> running cfgs providers f ->
  (forall i j k, i <> j -> k ∈ locked column f i -> k ∉ locked column f j)
  /\ forall i h tgt evs s, hist (relays f i) = h ++ [did (SendTo tgt evs) s] -> held (relays f i) = true ->
       forall pe, pe ∈ evs -> exists evt parsed,
         withParsedOptions evt (cfgs i) = inr parsed /\ pe = providerEvent parsed (cfgs i)
         /\ target (route evt) = tgt /\ columns evt ∈ rows f
         /\ key column (columns evt) ∈ locked column f i
         /\ forall j, j <> i -> key column (columns evt) ∉ locked column f j.
Proof.
  intros Hcol Hk Hrows Hrun Hrunning.
  destruct (fleet_simulation cfgs header column Hcol table dead f Hk Hrows Hrun) as (o & Ho & Hinv).
  { by eapply running_justified. }
  split; [apply (fi_apart _ _ _ _ _ Hinv)|]. intros i h tgt evs s Hh Hheld pe Hpe.
  pose proof (running_sends cfgs providers f i Hrunning) as Hj. rewrite Hh in Hj.
  destruct (Hj h _ [] eq_refl pe Hpe) as (evt & parsed & Hevt & Hparsed & Heq & Htgt).
  assert (Hsel : evt ∈ selected_by f i) by (unfold selected_by; by rewrite Hh, tx_of_act).
  assert (Hlocked : key column (columns evt) ∈ locked column f i).
  { unfold locked. rewrite Hheld. by apply (list_elem_of_fmap_2 (fun evt => key column (columns evt))). }
  exists evt, parsed. split_and!; try done.
  - by apply (fi_held _ _ _ _ _ Hinv i).
  - intros j Hne. by apply (fi_apart _ _ _ _ _ Hinv i j).
Qed.

(** ** Two relays

    Both have the configuration of [sample_sqs].  The second begins its transaction while the first
    is sending; its query was made on the same table, and is answered after the first commits: of
    the three rows it would have selected none is left. *)

Definition twins : nat -> appConfig := fun _ => sample_sqs.

(** The steps that depend on nothing but the open transaction. *)
Definition performs (f : fleet) (i : nat) (a : step) : fleet :=
  match a with
  | existT BeginTx r => acts f i (did BeginTx r) (bool_decide (r = None))
  | existT Commit r => commits twins "id" f i r
  | existT Rollback r => acts f i (did Rollback r) false
  | existT c r => acts f i (existT c r) (held (relays f i))
  end.

Fixpoint replay (f : fleet) (i : nat) (tr : list step) : fleet :=
  match tr with [] => f | a :: tr => replay (performs f i a) i tr end.

Fixpoint replayable (f : fleet) (i : nat) (tr : list step) : bool :=
  match tr with
  | [] => true
  | a :: tr =>
      match projT1 a with
      | QueryEvents _ => false
      | Commit | ExecInsert _ _ | ExecDelete _ _ => held (relays f i)
      | _ => true
      end && replayable (performs f i a) i tr
  end.

Lemma replay_steps f i tr :
  replayable f i tr = true -> rtc (fleet_step twins sample_header "id") f (replay f i tr).
Proof.
  revert f. induction tr as [|a tr IH]; intros f Hr; [done|]. cbn [replayable replay] in *.
  apply andb_true_iff in Hr as [Ha Hr]. eapply rtc_l; [|by apply IH]. clear IH Hr.
  destruct a as [[] r]; cbn [projT1 performs] in *; try done; try (by apply fleet_other); try (by apply fleet_statement).
  - apply fleet_begin.
  - by apply fleet_commit.
  - apply fleet_rollback.
Qed.

Definition queries (f : fleet) (i : nat) (snap : list object) : fleet :=
  acts f i (did (QueryEvents (selectEventsQuery sample_sqs))
    (inr (rows_of sample_header (answer twins "id" f i snap)))) true.

Lemma query_step f i snap :
  held (relays f i) = true -> snap ∈ past f -> (forall j evt, j <> i -> evt ∈ answer twins "id" f i snap ->
    key "id" (columns evt) ∉ locked "id" f j) ->
  fleet_step twins sample_header "id" f (queries f i snap).
Proof. apply (fleet_query twins sample_header "id" f i snap). Qed.

Lemma query_alone f i snap :
  held (relays f i) = true -> snap ∈ past f -> (forall j, j <> i -> locked "id" f j = []) ->
  fleet_step twins sample_header "id" f (queries f i snap).
Proof.
  intros Hh Hp Hl. apply query_step; [done|done|]. intros j evt Hj _. rewrite Hl by done. apply not_elem_of_nil.
Qed.

Lemma replay_past f i tr t : t ∈ past f -> t ∈ past (replay f i tr).
Proof.
  revert f. induction tr as [|[c r] tr IH]; intros f Ht; [done|]. apply IH.
  destruct c; try exact Ht. apply elem_of_app. by left.
Qed.

(** The first relay's turn is [sample_run]; the second's query finds nothing. *)
Definition found_answer (events : list event) (past : list step) (c : app_cmd) : app_resp c :=
  match c as c return app_resp c -> app_resp c with
  | QueryEvents _ => fun _ => inr (rows_of sample_header events)
  | _ => fun r => r
  end (sample_answer past c).

(** One turn of a relay whose query finds these events. *)
Definition run_on (events : list event) : list step :=
  (run (found_answer events) (processEvents sample_sqs 1 initial_state) []).1.

Definition late_run : list step := run_on [].

Definition both_begun : fleet :=
  replay (replay (start sample_table []) 0 (take 4 sample_run)) 1 (take 4 late_run).

Definition sending : fleet := replay (queries both_begun 0 sample_table) 0 (drop 5 (take 13 sample_run)).

Definition committed : fleet := replay sending 0 (drop 13 (take 23 sample_run)).

Definition both_done : fleet := queries committed 1 sample_table.

Lemma past_begun : sample_table ∈ past both_begun.
Proof. apply (replay_past _ 1), (replay_past (start sample_table []) 0), list_elem_of_here. Qed.

Ltac evaluate := vm_compute; reflexivity.

Lemma sending_reached : rtc (fleet_step twins sample_header "id") (start sample_table []) sending.
Proof.
  etrans; [apply (replay_steps _ 0 (take 4 sample_run)); evaluate|].
  etrans; [apply (replay_steps _ 1 (take 4 late_run)); evaluate|].
  eapply rtc_l; [|apply (replay_steps (queries both_begun 0 sample_table)); evaluate].
  apply (query_alone both_begun 0); [evaluate|apply past_begun|].
  intros [|[|j]] Hj; [by destruct (Hj eq_refl)|evaluate..].
Qed.

Lemma both_done_reached : rtc (fleet_step twins sample_header "id") (start sample_table []) both_done.
Proof.
  etrans; [exact sending_reached|]. etrans; [apply (replay_steps sending 0 (drop 13 (take 23 sample_run))); evaluate|].
  apply rtc_once, (query_alone committed 1); [evaluate| |].
  - apply (replay_past sending 0), (replay_past (queries both_begun 0 sample_table) 0), past_begun.
  - intros [|[|j]] Hj; [evaluate|by destruct (Hj eq_refl)|evaluate].
Qed.

Definition all_confirming : nat -> string -> Provider := fun _ _ => confirming.

(** The histories are prefixes of executions of the loop. *)
Lemma twins_running (f : fleet) (events0 events1 : list event) :
  hist (relays f 0) `prefix_of` run_on events0 -> hist (relays f 1) `prefix_of` run_on events1 ->
  (forall j, hist (relays f (S (S j))) = []) -> running twins all_confirming f.
Proof.
  intros H0 H1 Hj.
  assert (Hone : forall i events, hist (relays f i) `prefix_of` run_on events -> exists turns st tr r,
    exec (processEvents sample_sqs turns st) tr r /\ Forall (env (all_confirming i)) tr /\ hist (relays f i) `prefix_of` tr).
  { intros i events Hp. exists 1, initial_state. eexists _, _. split; [apply run_exec_nil|]. split; [|exact Hp].
    apply (Forall_impl (answered (found_answer events))); [apply run_answered; constructor|]. intros a (past & c & ->). by destruct c. }
  intros [|[|j]]; [by eapply Hone..|].
  exists 0, initial_state, [], None. rewrite Hj. by split_and!.
Qed.

Lemma both_done_running : running twins all_confirming both_done.
Proof.
  apply (twins_running _ (select_events sample_sqs sample_table 4) []).
  - exists (drop 23 sample_run). evaluate.
  - exists (drop 5 late_run). evaluate.
  - intros j. evaluate.
Qed.

Lemma sending_running : running twins all_confirming sending.
Proof.
  apply (twins_running _ (select_events sample_sqs sample_table 4) []).
  - exists (drop 13 sample_run). evaluate.
  - exists (drop 4 late_run). evaluate.
  - intros j. evaluate.
Qed.

Lemma twins_keys : NoDup (key "id" <$> sample_table).
Proof. exact sample_keys. Qed.

Lemma fleet_refines_outbox_witness :
  (fun row => map_get row "id") <$> rows both_done = [VInt KInt64 3; VInt KInt64 5]
  /\ selected_by both_done 1 = []
  /\ exists o, rtc outbox_step (Outbox sample_table []) o /\ pending o = rows both_done /\ length (finished o) = 3.
Proof.
  split; [evaluate|]. split; [evaluate|].
  destruct (fleet_refines_outbox twins all_confirming sample_header "id" sample_table [] both_done)
    as (o & Ho & Hp & _ & Hperm & _);
    [done|exact twins_keys|exact sample_rows_ok|exact both_done_reached|exact both_done_running|].
  exists o. split_and!; [done|done|]. apply Permutation_length in Hperm. rewrite Hp, length_app, length_fmap in Hperm.
  assert (length (produced both_done) = 5) as H5 by evaluate.
  assert (length (rows both_done) = 2) as H2 by evaluate. lia.
Defined.

Definition last_send (tr : list step) : list Event :=
  match last tr with Some (existT (SendTo _ evs) _) => evs | _ => [] end.

Lemma sends_are_exclusive_witness :
  length (last_send (hist (relays sending 0))) = 3
  /\ forall pe, pe ∈ last_send (hist (relays sending 0)) ->
       exists evt, key "id" (columns evt) ∈ locked "id" sending 0 /\ key "id" (columns evt) ∉ locked "id" sending 1.
Proof.
  split; [evaluate|].
  destruct (sends_are_exclusive twins all_confirming sample_header "id" sample_table [] sending) as [_ Hsend];
    [done|exact twins_keys|exact sample_rows_ok|exact sending_reached|exact sending_running|].
  assert (Hlast : exists h tgt s, hist (relays sending 0) = h ++ [did (SendTo tgt (last_send (hist (relays sending 0)))) s]).
  { exists (take 12 sample_run). eexists _, _. evaluate. }
  destruct Hlast as (h & tgt & s & Hlast). intros pe Hpe.
  destruct (Hsend 0 h tgt _ s Hlast) with (pe := pe) as (evt & parsed & _ & _ & _ & _ & Hl & Hn); [evaluate|done|].
  exists evt. split; [done|]. by apply Hn.
Defined.

(** *** What row locks do not exclude

    A producer commits four rows with lower ids while the first relay sends the row it found: the
    second relay selects those four, which nobody has locked, and both send to the same queue at
    the same time. *)
Definition inserts (f : fleet) (n : nat) (row : object) : fleet :=
  Fleet (take n (rows f) ++ row :: drop n (rows f)) (past f ++ [take n (rows f) ++ row :: drop n (rows f)])
    (produced f ++ [row]) (letters f) (relays f).

Lemma insert_step f n id :
  bool_decide (key "id" (sample_row id "") ∉ (key "id" <$> produced f)) = true ->
  fleet_step twins sample_header "id" f (inserts f n (sample_row id "")).
Proof.
  intros Hfresh%bool_decide_eq_true. apply fleet_produce; [by rewrite take_drop|apply sample_row_ok|done].
Qed.

Definition first_selected : fleet :=
  queries (replay (start [sample_row 5 ""] []) 0 (take 4 sample_run)) 0 [sample_row 5 ""].

Definition late_1 : fleet := inserts first_selected 0 (sample_row 1 "").
Definition late_2 : fleet := inserts late_1 1 (sample_row 2 "").
Definition late_3 : fleet := inserts late_2 2 (sample_row 3 "").
Definition late_commit : fleet := inserts late_3 3 (sample_row 4 "").

Definition both_selected : fleet := queries (replay late_commit 1 (take 4 sample_run)) 1 (rows late_commit).

Lemma both_selected_reached : rtc (fleet_step twins sample_header "id") (start [sample_row 5 ""] []) both_selected.
Proof.
  etrans; [apply (replay_steps _ 0 (take 4 sample_run)); evaluate|].
  eapply rtc_l.
  { apply (query_alone (replay (start [sample_row 5 ""] []) 0 (take 4 sample_run)) 0 [sample_row 5 ""]); [evaluate| |].
    - apply (replay_past (start [sample_row 5 ""] []) 0), list_elem_of_here.
    - intros [|j] Hj; [by destruct (Hj eq_refl)|evaluate]. }
  change (queries _ _ _) with first_selected.
  eapply rtc_l; [apply (insert_step first_selected 0 1); evaluate|].
  eapply rtc_l; [apply (insert_step late_1 1 2); evaluate|].
  eapply rtc_l; [apply (insert_step late_2 2 3); evaluate|].
  eapply rtc_l; [apply (insert_step late_3 3 4); evaluate|].
  change (inserts late_3 3 _) with late_commit.
  etrans; [apply (replay_steps late_commit 1 (take 4 sample_run)); evaluate|].
  apply rtc_once, query_step; [evaluate| |].
  - apply replay_past. apply elem_of_app. right. apply list_elem_of_here.
  - intros j evt Hj Hevt. apply (list_elem_of_fmap_2 (fun evt => key "id" (columns evt))) in Hevt.
    set (k := key "id" (columns evt)) in *. clearbody k.
    assert (Hkeys : (fun evt => key "id" (columns evt)) <$> answer twins "id" (replay late_commit 1 (take 4 sample_run)) 1 (rows late_commit)
      = ["int64:1"; "int64:2"; "int64:3"; "int64:4"]) by evaluate.
    rewrite Hkeys in Hevt. clear Hkeys.
    assert (Hl : locked "id" (replay late_commit 1 (take 4 sample_run)) j = match j with 0 => ["int64:5"] | _ => [] end).
    { destruct j as [|[|j]]; [evaluate|by destruct (Hj eq_refl)|evaluate]. }
    rewrite Hl. clear Hl. destruct j; [|apply not_elem_of_nil]. intros ->%list_elem_of_singleton.
    repeat (apply elem_of_cons in Hevt as [[=]|Hevt]). by apply elem_of_nil in Hevt.
Qed.

(** Row locks keep relays off the same rows, not off the same queue: two relays can be sending to
    one route at the same time. *)
Lemma row_locks_leave_routes_shared :
  exists f evt evt', rtc (fleet_step twins sample_header "id") (start [sample_row 5 ""] []) f
    /\ running twins all_confirming f
    /\ held (relays f 0) = true /\ held (relays f 1) = true
    /\ evt ∈ selected_by f 0 /\ evt' ∈ selected_by f 1 /\ route evt = route evt'.
Proof.
  exists both_selected.
  assert (Hs : exists e e' es, selected_by both_selected 0 = [e] /\ selected_by both_selected 1 = e' :: es /\ route e = route e').
  { eexists _, _, _. split; [evaluate|]. split; evaluate. }
  destruct Hs as (e & e' & es & H0 & H1 & Hr). exists e, e'. rewrite H0, H1.
  split_and!; [exact both_selected_reached| |evaluate|evaluate|apply list_elem_of_here..|exact Hr].
  apply (twins_running _ (selected_by both_selected 0) (selected_by both_selected 1)).
  - exists (drop 5 (run_on (selected_by both_selected 0))). evaluate.
  - exists (drop 5 (run_on (selected_by both_selected 1))). evaluate.
  - intros j. evaluate.
Qed.
