(* ===== verification/Loop.v ===== *)
(** * How the loop ends, and the connections it holds

    [processEvents] returns for a cancelled context or a fatal sender error, and then its batch is
    already committed unless the database failed too.  At most one listener connection is held at
    any time, each is closed once, and none is held when the loop returns. *)
From S2P Require Import Prelude GoErrors Config Values Samples Conc Provider Stats App Routes Sql Routing RoutingSpec Select Db Dlq Backlog Notify Processor ProcessorSafety Relay.
Local Open Scope go_scope.

Section stops.
Context `{GoRuntime} `{Pgx} `{MapRange} (cfg : appConfig) (providers : string -> Provider).

(** Why the loop returns [e]: a cancelled context, or a fatal error of the last batch. *)
Definition stopped (h : list step) (e : option error) : Prop :=
  match e with
  | None => did CtxErr true ∈ h
  | Some e =>
      errors_Is (Some e) errFatalAfterCommit = true
      /\ (errors_Is (Some e) errDatabaseBatch = true
          \/ exists h1 h2, h = h1 ++ did Commit None :: h2 /\ Forall quiet h2)
  end.

Lemma stopped_app h t e : stopped h e -> Forall quiet t -> stopped (h ++ t) e.
Proof.
  destruct e as [e|]; simpl.
  - intros [Hf [Hd|(h1 & h2 & -> & Hq)]] Ht; (split; [done|]); [by left|right].
    exists h1, (h2 ++ t). rewrite <- (assoc_L (++)). split; [done|]. by apply Forall_app.
  - intros Hin _. apply elem_of_app. by left.
Qed.

Lemma wp_turn_stops h st :
  wp (env providers) (justifies cfg) h (processTurn cfg st)
    (fun h' r => match r with inl _ => True | inr e => stopped h' e end).
Proof.
  unfold processTurn. apply wp_bind.
  refine (wp_do cfg providers CtxErr h _ _). intros [] _; (split; [done|]).
  { apply wp_ret. simpl. apply elem_of_app. right. apply list_elem_of_here. }
  apply wp_bind. eapply wp_mono; [apply wp_processOneBatch|]. intros h' [result batchErr] _ Hend.
  destruct (errors_Is batchErr errFatalAfterCommit) eqn:Hfatal.
  - apply (wp_hushed cfg providers); [hush|]. intros tr r He _ Hq.
    apply exec_bind in He as (t1 & t2 & [] & -> & Ht1 & [-> ->]). apply stopped_app; [|done].
    destruct batchErr as [e|]; [|done]. split; [done|].
    destruct Hend as [Hdb|(h1 & h2 & -> & _ & Hq')]; [by left|right]. eauto.
  - destruct (errors_Is batchErr errDatabaseBatch).
    + apply (wp_hushed cfg providers); [hush|]. intros tr r He _ _.
      apply exec_bind in He as (t1 & t2 & [] & -> & _ & [-> ->]). done.
    + apply (wp_hushed cfg providers); [hush|]. intros tr r He _ _.
      apply exec_bind in He as (t1 & t2 & probe & -> & _ & He). case_bool_decide.
      * apply exec_bind in He as (t3 & t4 & l & -> & _ & [-> ->]). done.
      * destruct He as [-> ->]. done.
Qed.

Lemma wp_loop_stops turns h st :
  wp (env providers) (justifies cfg) h (processEvents cfg turns st)
    (fun h' r => match r with None => True | Some e => stopped h' e end).
Proof.
  revert h st. induction turns as [|turns IH]; intros h st; [by apply wp_ret|]. cbn [processEvents].
  apply wp_bind. eapply wp_mono; [apply wp_turn_stops|]. intros h' [st'|e] _ Hst; [apply IH|].
  apply (wp_hushed cfg providers); [hush|]. intros tr r He _ Hq.
  apply exec_bind in He as (t1 & t2 & [] & -> & _ & [-> ->]). by apply stopped_app.
Qed.

End stops.

(** ** Connections *)

Section connections.
Context `{GoRuntime} `{Pgx} `{MapRange} (cfg : appConfig).

Definition keeps_conn (a : step) : Prop := conn_weight a = 0%Z.

(** An action that takes or returns a connection leaves at most one held, and none twice returned. *)
Definition one_conn (a : step) (h : list step) : Prop :=
  keeps_conn a \/ (0 <= weight conn_weight (h ++ [a]) <= 1)%Z.

Definition held (listener : bool) : Z := if listener then 1 else 0.

Abbreviation wp := (wp (fun _ => True) one_conn).

Lemma weight_kept h t : Forall keeps_conn t -> weight conn_weight (h ++ t) = weight conn_weight h.
Proof.
  intros Ht. rewrite weight_app. enough (weight conn_weight t = 0%Z) by lia.
  induction Ht as [|a t Ha _ IH]; [done|]. simpl. rewrite IH. unfold keeps_conn in Ha. lia.
Qed.

Lemma weight_open h : weight conn_weight (h ++ [did DbConn None]) = (weight conn_weight h + 1)%Z.
Proof. rewrite weight_app. reflexivity. Qed.

Lemma weight_close h : weight conn_weight (h ++ [did CloseConn tt]) = (weight conn_weight h - 1)%Z.
Proof. rewrite weight_app. reflexivity. Qed.

Lemma weight_failed h e : weight conn_weight (h ++ [did DbConn (Some e)]) = (weight conn_weight h + 0)%Z.
Proof. rewrite weight_app. reflexivity. Qed.

Lemma wp_keeps {A} h (m : prog A) (Q : list step -> A -> Prop) :
  only keeps_conn m -> (forall h' a, weight conn_weight h' = weight conn_weight h -> Q h' a) -> wp h m Q.
Proof.
  intros Hm HQ. apply (wp_only keeps_conn); [done|by left|]. intros tr a _ _ Ht. apply HQ. by apply weight_kept.
Qed.

Lemma wp_conn c h (Q : list step -> app_resp c -> Prop) :
  (forall r, (0 <= weight conn_weight (h ++ [did c r]) <= 1)%Z /\ Q (h ++ [did c r]) r) -> wp h (act c) Q.
Proof. intros Hr. apply (wp_perform (R := app_resp)). intros r _. split; [right|]; apply Hr. Qed.

Lemma keeps_logBatchError m : only keeps_conn (logBatchError m).
Proof. unfold logBatchError. hush. Qed.

Lemma keeps_markProgress : only keeps_conn markProgress.
Proof. unfold markProgress. hush. Qed.

Lemma keeps_sleepContext d : only keeps_conn (sleepContext d).
Proof. unfold sleepContext. hush. Qed.

#[local] Hint Resolve keeps_logBatchError keeps_markProgress keeps_sleepContext : hushed.

Lemma keeps_collectProviderOutput tgt events : only keeps_conn (collectProviderOutput cfg tgt events).
Proof. unfold collectProviderOutput, collectSenderOutput, on_callback, senderCollector_confirm, senderCollector_poison, record. hush. Qed.

Lemma keeps_sendAll triage : only keeps_conn (sendAll cfg triage).
Proof.
  apply only_Par; [|intros rs; apply only_ret]. intros p Hp.
  apply list_elem_of_fmap in Hp as ([tgt events] & -> & _). apply keeps_collectProviderOutput.
Qed.

Lemma keeps_writeBatch result d ps ids e : only keeps_conn (writeBatch cfg result d ps ids e).
Proof. unfold writeBatch, insertDeadLetters, finally, marshal_step, deleteEvents. hush. Qed.

Lemma keeps_triageEvents events : only keeps_conn (triageEvents cfg events).
Proof. unfold triageEvents, finally. hush. Qed.

#[local] Hint Resolve keeps_sendAll keeps_writeBatch keeps_triageEvents : hushed.

Lemma keeps_processEventBatch : only keeps_conn (processEventBatch cfg).
Proof. unfold processEventBatch, selectEvents, oldestEventAge, sendBatch. hush. Qed.

#[local] Hint Resolve keeps_processEventBatch : hushed.

Lemma keeps_processOneBatch : only keeps_conn (processOneBatch cfg).
Proof. unfold processOneBatch, rollbackBatch, commitBatch. hush. Qed.

Lemma keeps_updateBacklog last result : only keeps_conn (updateBacklog cfg last result).
Proof. unfold updateBacklog, countBacklog. hush. Qed.

Lemma wp_close h l (Q : list step -> unit -> Prop) :
  weight conn_weight h = held l -> (forall h', weight conn_weight h' = 0%Z -> Q h' tt) -> wp h (close l) Q.
Proof.
  intros Hw HQ. destruct l; [|by apply wp_ret, HQ]. unfold close.
  apply wp_bind, wp_keeps; [hush|]. intros h1 r Hw1.
  apply wp_bind, wp_keeps; [hush|]. intros h2 [] Hw2.
  refine (wp_conn CloseConn h2 Q _). intros []. rewrite weight_close. simpl in Hw. split; [lia|].
  apply HQ. rewrite weight_close. lia.
Qed.

Lemma wp_wait_listening h (Q : list step -> bool -> Prop) :
  weight conn_weight h = 1%Z -> (forall h' l, weight conn_weight h' = held l -> Q h' l) -> wp h wait_listening Q.
Proof.
  intros Hw HQ. unfold wait_listening, wait. apply wp_bind, wp_keeps; [hush|]. intros h1 [e|] Hw1.
  - apply wp_bind, wp_keeps; [hush|]. intros h2 [] Hw2; [apply wp_ret, HQ; simpl; lia|].
    apply wp_bind, (wp_close _ true); [simpl; lia|]. intros h3 Hw3. apply wp_ret, HQ. done.
  - apply wp_ret, HQ. simpl. lia.
Qed.

Lemma wp_waitForEvents h l (Q : list step -> bool -> Prop) :
  weight conn_weight h = held l -> (forall h' l', weight conn_weight h' = held l' -> Q h' l') ->
  wp h (waitForEvents cfg l) Q.
Proof.
  intros Hw HQ. unfold waitForEvents. destruct l; [by apply wp_wait_listening|]. simpl in Hw.
  assert (Hfail : forall h', weight conn_weight h' = 0%Z ->
    wp h' (run! act CtxErr; run! sleepContext pollInterval; Ret false) Q).
  { intros h' Hw'. apply wp_bind, wp_keeps; [hush|]. intros h1 c Hw1.
    apply wp_bind, wp_keeps; [hush|]. intros h2 [] Hw2. apply wp_ret, HQ. simpl. lia. }
  unfold startListener. apply wp_bind, wp_bind. refine (wp_conn DbConn h _ _).
  intros [e|].
  { rewrite weight_failed. split; [lia|]. apply wp_ret, Hfail. rewrite weight_failed. lia. }
  assert (Hw1 : weight conn_weight (h ++ [did DbConn None]) = 1%Z) by (rewrite weight_open; lia).
  split; [lia|].
  apply wp_bind, wp_keeps; [hush|]. intros h2 [e|] Hw2.
  - apply wp_bind. refine (wp_conn CloseConn h2 _ _). intros [].
    rewrite weight_close. split; [lia|]. apply wp_ret, Hfail. rewrite weight_close. lia.
  - apply wp_ret, wp_wait_listening; [lia|done].
Qed.

Lemma wp_turn_conn h st :
  weight conn_weight h = held (listener st) ->
  wp h (processTurn cfg st)
    (fun h' r => weight conn_weight h' = held match r with inl st' => listener st' | inr _ => listener st end).
Proof.
  intros Hw. unfold processTurn. apply wp_bind, wp_keeps; [hush|]. intros h1 [] Hw1; [apply wp_ret; lia|].
  apply wp_bind, wp_keeps; [apply keeps_processOneBatch|]. intros h2 [result batchErr] Hw2.
  destruct (errors_Is batchErr errFatalAfterCommit); [|destruct (errors_Is batchErr errDatabaseBatch)].
  - apply wp_bind, wp_keeps; [hush|]. intros h3 [] Hw3. apply wp_ret. lia.
  - apply wp_bind, wp_keeps; [hush|]. intros h3 [] Hw3. apply wp_ret. lia.
  - apply wp_bind, wp_keeps; [apply keeps_updateBacklog|]. intros h3 probe Hw3. case_bool_decide.
    + apply wp_bind, wp_waitForEvents; [lia|]. intros h4 l Hw4. by apply wp_ret.
    + apply wp_ret. simpl. lia.
Qed.

Lemma wp_loop_conn turns h st :
  weight conn_weight h = held (listener st) ->
  wp h (processEvents cfg turns st) (fun h' r => is_Some r -> weight conn_weight h' = 0%Z).
Proof.
  revert h st. induction turns as [|turns IH]; intros h st Hw; [apply wp_ret; by intros [? ?]|].
  cbn [processEvents]. apply wp_bind. eapply wp_mono; [by apply wp_turn_conn|].
  intros h' [st'|e] _ Hw'; [by apply IH|].
  apply wp_bind, wp_close; [exact Hw'|]. intros h2 Hw2. by apply wp_ret.
Qed.

(** Prefixes of what [one_conn] justifies hold at most one connection. *)
Lemma one_conn_prefix tr : justified one_conn [] tr -> (0 <= weight conn_weight tr <= 1)%Z.
Proof.
  induction tr as [|a tr IH] using rev_ind; intros Hj; [simpl; lia|].
  apply justified_app in Hj as [Hj Ha]. specialize (IH Hj).
  destruct (Ha [] a [] eq_refl) as [Hk|Hb]; [|by rewrite app_nil_r in Hb].
  rewrite weight_app. simpl. unfold keeps_conn in Hk. lia.
Qed.

End connections.

(** C22. The loop only returns when its context is cancelled, without an error, or when a sender
    reported a fatal error, which it returns; the completed work of that batch was committed just
    before, unless the database failed in it. *)
Theorem processEvents_stops `{GoRuntime} `{Pgx} `{MapRange} (cfg : appConfig) (providers : string -> Provider)
    (turns : nat) (st : loop_state) (tr : list step) (e : option error) :
  exec (processEvents cfg turns st) tr (Some e) -> Forall (env providers) tr -> stopped tr e.
Proof. intros He Henv. by destruct (wp_loop_stops cfg providers turns [] st _ _ He Henv) as [_ Hs]. Qed.

(** C35. At any moment the loop holds at most one listener connection, it never returns one it does
    not hold, and it holds none when it returns. *)
Theorem listener_connection_bounded `{GoRuntime} `{Pgx} `{MapRange} (cfg : appConfig) (turns : nat)
    (probe : Z) (tr : list step) (r : option (option error)) :
  exec (processEvents cfg turns (LoopState false probe)) tr r ->
  (forall h, h `prefix_of` tr -> (0 <= weight conn_weight h <= 1)%Z)
  /\ (is_Some r -> weight conn_weight tr = 0%Z).
Proof.
  intros He.
  destruct (wp_loop_conn cfg turns [] (LoopState false probe) eq_refl _ _ He) as [Hj Hr];
    [by apply Forall_true|].
  split; [|done]. intros h [t ->]. apply one_conn_prefix. by apply justified_app in Hj as [Hj _].
Qed.

(** A relay whose context is cancelled in its second turn, and one whose sender fails fatally. *)
Definition cancelled_answer (past : list step) (c : app_cmd) : app_resp c :=
  match c as c return app_resp c -> app_resp c with
  | CtxErr => fun _ => bool_decide (20 < length past)
  | _ => fun r => r
  end (sample_answer past c).

Definition fatal_answer (past : list step) (c : app_cmd) : app_resp c :=
  match c as c return app_resp c -> app_resp c with
  | SendTo _ _ => fun _ => Sent [] [] (Some ErrFatalAfterCommit)
  | _ => fun r => r
  end (sample_answer past c).

Definition silent : Provider.
Proof.
  refine {| Send := fun evs cbs acked err => cbs = [] /\ acked = [] |}.
  - by intros evs cbs acked err (_ & ->) evt ?%elem_of_nil.
  - by intros evs cbs acked err (-> & _) id ?%elem_of_nil.
  - by intros evs cbs acked err (-> & _) id reason ?%elem_of_nil.
Defined.

Definition fatal_run := run fatal_answer (processEvents sample_sqs 3 initial_state) [].

Lemma processEvents_stops_witness :
  errors_Is (default None fatal_run.2) errFatalAfterCommit = true
  /\ stopped fatal_run.1 (default None fatal_run.2).
Proof.
  split; [vm_compute; reflexivity|].
  apply (processEvents_stops sample_sqs (fun _ => silent) 3 initial_state).
  - assert (Hr : fatal_run.2 = Some (default None fatal_run.2)) by (vm_compute; reflexivity).
    rewrite <- Hr. apply run_exec_nil.
  - apply (Forall_impl (answered fatal_answer)); [apply run_answered; constructor|].
    intros a (past & c & ->). by destruct c.
Defined.

Definition cancelled_run := run cancelled_answer (processEvents sample_sqs 2 initial_state) [].

Lemma listener_connection_bounded_witness :
  cancelled_run.2 = Some None /\ weight conn_weight cancelled_run.1 = 0%Z.
Proof.
  assert (Hr : cancelled_run.2 = Some None) by (vm_compute; reflexivity). split; [exact Hr|].
  destruct (listener_connection_bounded sample_sqs 2 zero_time cancelled_run.1 cancelled_run.2) as [_ Hw];
    [apply run_exec_nil|]. apply Hw. rewrite Hr. eauto.
Defined.
