(* ===== verification/Process.v ===== *)
(** * The actions of the process ([logging.go], [db.go], [providers.go])

    The commands around the processing loop: configuration output, logging, the database handle,
    the SDK clients, the HTTP server and the watchdog.  A program of the relay ([App.v]) runs
    inside a program of the process ([within]).  This file also holds what start-up shares
    between the two verbs: logging, the database handle with its TLS settings, and the sender
    configurations. *)
From S2P Require Import Prelude GoErrors Config Values Strconv Conc Provider Stats App SqsSender SqsOptions SqsClient PubSub PubSubClient Routes.
Local Open Scope go_scope.

(** ** Logging ([logging.go]) *)

Inductive log_level := LevelDebug | LevelInfo | LevelWarn | LevelError.

Definition parseLogLevel (level : string) : log_level :=
  let lower := strings_ToLower level in
  if bool_decide (lower = "debug") then LevelDebug
  else if bool_decide (lower = "warn" \/ lower = "warning") then LevelWarn
  else if bool_decide (lower = "error") then LevelError
  else LevelInfo.

(** ** The database handle ([db.go]) *)

Record tlsConfig := TlsConfig {
  ServerName : string;
  InsecureSkipVerify : bool;
  RootCAs : option string;                       (* the certificates of this file *)
}.

(** What [openDB] sets on the driver's configuration, and its connection limits. *)
Record dbConfig := DbConfig {
  db_Host : string;
  db_Port : Z;
  db_User : string;
  db_Password : string;
  db_Database : string;
  db_ConnectTimeout : Z;
  db_TLS : option tlsConfig;
  MaxOpenConns : Z;
  MaxIdleConns : Z;
}.

(** ** Actions *)

Inductive proc_cmd :=
| App (c : app_cmd)
| Stdout (text : string)
| Stderr (text : string)
| SetLogger (level : log_level) (json : bool)
| LogError (message : string)
| ParseConfig
| ReadFile (path : string)
| AppendCertsFromPEM (pem : string)
| OpenDB (conf : dbConfig)
| CloseDB
| ExecDDL (query : string)
| RandText
| StartWatchdog (interval : Z)
| StopWatchdog
| NewPubSubClient (project : string) (endpoint : option string)
| OpenPublisher (conf : pubsub_config)
| ClosePublisher
| ClosePubSubClient
| NewSQSClient (conf : sqs_config)
| Listen (addr : string)
| ShutdownServer
| StartStatsLogger (interval : Z)
| LogStats
| WithCancel
| CancelContext.

Definition proc_resp (c : proc_cmd) : Type :=
  match c with
  | App c => app_resp c
  | ParseConfig => option error
  | ReadFile _ => error + string
  | AppendCertsFromPEM _ => bool
  | ExecDDL _ => option error
  | RandText => string
  | NewPubSubClient _ _ | ClosePublisher | ClosePubSubClient => option error
  | NewSQSClient _ => option error
  | Listen _ => option error
  | _ => unit
  end.

Definition proc (A : Type) : Type := io proc_resp senderResult A.

Definition pact (c : proc_cmd) : proc (proc_resp c) := perform c.

Abbreviation pstep := (action proc_resp).

Definition pdid (c : proc_cmd) (r : proc_resp c) : pstep := existT c r.

(** A program of the relay as part of the process. *)
Fixpoint within {A} (m : prog A) : proc A :=
  match m with
  | Ret a => Ret a
  | Act c k => Act (R := proc_resp) (App c) (fun r => within (k r))
  | Par ps k => Par (map within ps) (fun rs => within (k rs))
  end.

Definition in_process (a : step) : pstep := existT (P := proc_resp) (App (projT1 a)) (projT2 a).

(** ** Start-up shared by the verbs *)

Definition setupLogging (level format : string) : proc unit :=
  pact (SetLogger (parseLogLevel level) (strings_EqualFold format "json")).

Section startup.
Context `{GoRuntime}.

Definition buildTLSConfig (cfg : appConfig) : proc (error + tlsConfig) :=
  let tls roots := TlsConfig (PGHost cfg) (negb (PGSSLRejectUnauthorized cfg)) roots in
  if bool_decide (PGSSLRootCert cfg = "") then Ret (inr (tls None))
  else
    do! read <- pact (ReadFile (PGSSLRootCert cfg));
    match read with
    | inl e => Ret (inl (ErrWrap ("read PG SSL root cert: " +:+ error_text e) e))
    | inr pem =>
        do! found <- pact (AppendCertsFromPEM pem);
        if found : bool then Ret (inr (tls (Some pem)))
        else Ret (err ("no certificates found in PG SSL root cert " +:+ strconv_Quote (PGSSLRootCert cfg)))
    end.

Definition db_config (cfg : appConfig) (tls : option tlsConfig) : dbConfig :=
  DbConfig (PGHost cfg) (PGPort cfg) (PGUser cfg) (PGPassword cfg) (PGDatabase cfg) (PGConnectTimeout cfg) tls 2 2.

Definition openDB (cfg : appConfig) : proc (option error) :=
  do! parsed <- pact ParseConfig;
  match parsed with
  | Some e => Ret (Some e)
  | None =>
      if PGSSL cfg then
        do! tls <- buildTLSConfig cfg;
        match tls with
        | inl e => Ret (Some e)
        | inr tls => run! pact (OpenDB (db_config cfg (Some tls))); Ret None
        end
      else run! pact (OpenDB (db_config cfg None)); Ret None
  end.

End startup.

(** ** Sender configurations ([providers.go]) *)

Definition pubsubConfig (cfg : appConfig) : pubsub_config :=
  PubSubConfig (PubSubProjectID cfg) (PubSubAPIEndpoint cfg) (PublishTimeout cfg) (PublishResultGrace cfg).

Definition sqsConfig (cfg : appConfig) : sqs_config :=
  SqsConfig (SQSSendConcurrency cfg) (PublishTimeout cfg) (SQSAPIEndpoint cfg) (AWSRegion cfg) (AWSRoleARN cfg)
    (AWSRoleSessionName cfg) (AWSRoleDuration cfg) (AWSCredentialRefreshWindow cfg) (AWSWebIdentityProvider cfg)
    (AWSWebIdentityAudience cfg).

(** ** Executions of a program inside the process *)

(** Descends through a program of the process; [finish] deals with its actions. *)
Ltac through finish :=
  unfold setupLogging, pact;
  repeat first
    [ apply only_ret | match goal with |- only _ (perform ?c) => refine (only_perform _ c _) end; intros; finish
    | apply only_bind; [|intros ?]
    | progress case_match | progress cbv beta iota zeta ].

Lemma interleave_map_inv {X Y} (f : X -> Y) (ls : list (list X)) (t : list Y) :
  interleave (map (map f) ls) t -> exists t', t = map f t' /\ interleave ls t'.
Proof.
  remember (map (map f) ls) as ls' eqn:Hls. intros Hi. revert ls Hls.
  induction Hi as [n|ls1 x l ls2 t _ IH]; intros ls Hls.
  - exists []. split; [done|]. assert (ls = replicate n []) as ->; [|constructor].
    revert ls Hls. induction n as [|n IH]; intros [|[|y k] ls] Hls; simplify_eq/=; [done|].
    f_equal. by apply IH.
  - symmetry in Hls. apply map_eq_app in Hls as (a & b & -> & <- & Hb).
    apply map_eq_cons in Hb as ([|y k] & c & -> & Hk & <-); simplify_eq/=.
    destruct (IH (a ++ k :: c)) as (t' & -> & Hi'); [by rewrite map_app|].
    exists (y :: t'). split; [done|]. by constructor.
Qed.

Definition within_sound {A} (m : prog A) : Prop :=
  forall tr a, exec (within m) tr a -> exists tr', tr = map in_process tr' /\ exec m tr' a.

Fixpoint exec_within {A} (m : prog A) {struct m} : within_sound m.
Proof.
  destruct m as [a|c k|ps k]; intros tr b He.
  - exists []. destruct He as [-> ->]. done.
  - destruct He as (r & tr' & -> & He). destruct (exec_within A (k r) _ _ He) as (t & -> & Ht).
    exists (existT c r :: t). split; [done|]. by exists r, t.
  - cbn [within] in He. apply exec_Par in He as (trs & rs & arr & t & tr' & Hb & Hi & Hp & -> & He).
    assert (exists trs', trs = map (map in_process) trs' /\ exec_branches ps trs' rs) as (trs' & -> & Hb').
    { clear Hi Hp He. revert trs rs Hb. generalize ps. fix IH 1. intros [|p ps'] [|t0 trs] [|r rs] Hb; try done.
      - exists []. done.
      - destruct Hb as [H1 H2]. destruct (exec_within _ p _ _ H1) as (t1 & -> & Ht1).
        destruct (IH ps' _ _ H2) as (trs1 & -> & Hb1). exists (t1 :: trs1). split; [done|]. by split. }
    apply interleave_map_inv in Hi as (t' & -> & Hi).
    destruct (exec_within A (k arr) _ _ He) as (t2 & -> & Ht2).
    exists (t' ++ t2). split; [by rewrite map_app|]. apply exec_Par.
    exists trs', rs, arr, t', t2. done.
Defined.
