(* ===== verification/Init.v ===== *)
(** * Provisioning ([init.go])

    The SQL the init command generates, its printed form, and [runInit]: printing the script or
    applying it in one transaction that is validated before it commits.  The random tag of the
    role statement's dollar quotes is drawn by an action. *)
From S2P Require Import Prelude GoErrors Config Values Strconv Conc Provider Stats App Routes Flags LoadConfig Sql Db Dlq Backlog Samples Relay Process.
Local Open Scope go_scope.

Record initStatement := InitStatement { comment : string; sql : string }.

(** [connCfg] of [applyInit]: the configuration with another user and password. *)
Definition with_identity (user password : string) (cfg : appConfig) : appConfig :=
  AppConfig
    (EventTable cfg) (cfgEventID cfg) (EventTimestamp cfg) (EventPayload cfg) (EventTarget cfg)
    (EventDestination cfg) (EventOptions cfg) (CollectBatchTarget cfg) (BacklogCountLimit cfg)
    (SQSSendConcurrency cfg) (DLQTable cfg) (NotifyChannel cfg) (LogLevel cfg) (LogFormat cfg)
    (WatchdogInterval cfg) (HealthPort cfg) (HealthStaleAfter cfg) (PubSubEnabled cfg)
    (SQSEnabled cfg) (DefaultPubSubTopic cfg) (DefaultSQSQueueURL cfg) (PubSubDestinations cfg)
    (SQSDestinations cfg) (PubSubProjectID cfg) (PubSubAPIEndpoint cfg) (SQSAPIEndpoint cfg)
    (ErrorCooldown cfg) (PublishTimeout cfg) (PublishResultGrace cfg) (MaxEventAge cfg)
    (StatsInterval cfg) (PGHost cfg) (PGPort cfg) user password (PGDatabase cfg) (PGSchema cfg)
    (PGSSL cfg) (PGSSLRejectUnauthorized cfg) (PGSSLRootCert cfg) (PGConnectTimeout cfg)
    (PGQueryTimeout cfg) (PGInitUser cfg) (PGInitPassword cfg) (PGProducerRoles cfg)
    (AWSRegion cfg) (AWSRoleARN cfg) (AWSRoleSessionName cfg) (AWSRoleDuration cfg)
    (AWSCredentialRefreshWindow cfg) (AWSWebIdentityProvider cfg) (AWSWebIdentityAudience cfg).


(** The same configuration with other passwords. *)
Definition with_passwords (run init : string) (cfg : appConfig) : appConfig :=
  AppConfig
    (EventTable cfg) (cfgEventID cfg) (EventTimestamp cfg) (EventPayload cfg) (EventTarget cfg)
    (EventDestination cfg) (EventOptions cfg) (CollectBatchTarget cfg) (BacklogCountLimit cfg)
    (SQSSendConcurrency cfg) (DLQTable cfg) (NotifyChannel cfg) (LogLevel cfg) (LogFormat cfg)
    (WatchdogInterval cfg) (HealthPort cfg) (HealthStaleAfter cfg) (PubSubEnabled cfg)
    (SQSEnabled cfg) (DefaultPubSubTopic cfg) (DefaultSQSQueueURL cfg) (PubSubDestinations cfg)
    (SQSDestinations cfg) (PubSubProjectID cfg) (PubSubAPIEndpoint cfg) (SQSAPIEndpoint cfg)
    (ErrorCooldown cfg) (PublishTimeout cfg) (PublishResultGrace cfg) (MaxEventAge cfg)
    (StatsInterval cfg) (PGHost cfg) (PGPort cfg) (PGUser cfg) run (PGDatabase cfg) (PGSchema cfg)
    (PGSSL cfg) (PGSSLRejectUnauthorized cfg) (PGSSLRootCert cfg) (PGConnectTimeout cfg)
    (PGQueryTimeout cfg) (PGInitUser cfg) init (PGProducerRoles cfg) (AWSRegion cfg)
    (AWSRoleARN cfg) (AWSRoleSessionName cfg) (AWSRoleDuration cfg)
    (AWSCredentialRefreshWindow cfg) (AWSWebIdentityProvider cfg) (AWSWebIdentityAudience cfg).


Section init.
Context `{GoRuntime} `{Pgx} `{MapRange}.

(** ** The statements *)

Definition lines_ (ls : list string) : string := strings_Join ls nl.

Definition statement (sql : string) : initStatement := InitStatement "" sql.

Definition createSchemaSQL (cfg : appConfig) : string := "CREATE SCHEMA IF NOT EXISTS " +:+ ident (PGSchema cfg) +:+ ";".

(** The columns of the event table with their types. *)
Definition event_table_columns (cfg : appConfig) : list (string * string) :=
  let column name type := if bool_decide (name <> "") then [(name, type)] else [] in
  [(cfgEventID cfg, "bigint GENERATED BY DEFAULT AS IDENTITY PRIMARY KEY"); (EventPayload cfg, "text NOT NULL")]
  ++ column (EventTarget cfg) "text"
  ++ column (EventDestination cfg) "text"
  ++ column (EventTimestamp cfg) "timestamptz"
  ++ column (EventOptions cfg) "jsonb".

Definition createEventTableSQL (cfg : appConfig) : string :=
  let columns := (fun nt => ident nt.1 +:+ " " +:+ nt.2) <$> event_table_columns cfg in
  "CREATE TABLE IF NOT EXISTS " +:+ qualifiedIdent (PGSchema cfg) (EventTable cfg) +:+ " (" +:+ nl +:+ "    "
  +:+ strings_Join columns ("," +:+ nl +:+ "    ") +:+ nl +:+ ");".

Definition eventTableStorageSQL (cfg : appConfig) : string :=
  "ALTER TABLE " +:+ qualifiedIdent (PGSchema cfg) (EventTable cfg) +:+ " SET (" +:+ nl
  +:+ lines_ ["    autovacuum_vacuum_threshold = 1000,";
              "    autovacuum_vacuum_scale_factor = 0.01,";
              "    autovacuum_analyze_threshold = 1000,";
              "    autovacuum_analyze_scale_factor = 0.02";
              ");"].

Definition createDLQTableSQL (cfg : appConfig) : string :=
  "CREATE TABLE IF NOT EXISTS " +:+ qualifiedIdent (PGSchema cfg) (DLQTable cfg) +:+ " (" +:+ nl
  +:+ "    " +:+ ident "id" +:+ " bigint GENERATED BY DEFAULT AS IDENTITY PRIMARY KEY," +:+ nl
  +:+ "    " +:+ ident "event" +:+ " jsonb NOT NULL" +:+ nl +:+ ");".

Definition notifyFunctionStatement (cfg : appConfig) : initStatement :=
  statement ("CREATE OR REPLACE FUNCTION " +:+ qualifiedIdent (PGSchema cfg) "outboxer_notify"
    +:+ "() RETURNS trigger AS $$" +:+ nl
    +:+ lines_ ["BEGIN"; "  PERFORM pg_notify(TG_ARGV[0], '');"; "  RETURN NULL;"; "END;"; "$$ LANGUAGE plpgsql;"]).

Definition notifyTriggerStatements (cfg : appConfig) : list initStatement :=
  let table := qualifiedIdent (PGSchema cfg) (EventTable cfg) in
  let function := qualifiedIdent (PGSchema cfg) "outboxer_notify" in
  [ statement ("DROP TRIGGER IF EXISTS outboxer_notify ON " +:+ table +:+ ";");
    statement ("CREATE TRIGGER outboxer_notify" +:+ nl +:+ "AFTER INSERT ON " +:+ table +:+ nl
      +:+ "FOR EACH STATEMENT" +:+ nl +:+ "EXECUTE FUNCTION " +:+ function +:+ "("
      +:+ sqlStringLiteral (NotifyChannel cfg) +:+ ");") ].

(** [rand] is the text of [rand.Text()]. *)
Definition runRoleStatement (cfg : appConfig) (redactSecrets : bool) (rand : string) : initStatement :=
  let password :=
    if redactSecrets then "NULL"
    else if bool_decide (PGPassword cfg <> "") then sqlStringLiteral (PGPassword cfg) else "NULL" in
  let comment :=
    if redactSecrets then "-- Configure authentication for the run role separately before starting Outboxer." else "" in
  let tag := "$outboxer_" +:+ rand +:+ "$" in
  InitStatement comment
    ("DO " +:+ tag +:+ " BEGIN" +:+ nl
     +:+ "  IF NOT EXISTS (SELECT FROM pg_roles WHERE rolname = " +:+ sqlStringLiteral (PGUser cfg) +:+ ") THEN" +:+ nl
     +:+ "    CREATE ROLE " +:+ ident (PGUser cfg) +:+ " LOGIN PASSWORD " +:+ password +:+ ";" +:+ nl
     +:+ "  END IF;" +:+ nl
     +:+ "END " +:+ tag +:+ ";").

Definition runRoleGrantStatements (cfg : appConfig) : list initStatement :=
  let run := ident (PGUser cfg) in
  let table := qualifiedIdent (PGSchema cfg) (EventTable cfg) in
  [ statement ("GRANT USAGE ON SCHEMA " +:+ ident (PGSchema cfg) +:+ " TO " +:+ run +:+ ";");
    statement ("GRANT SELECT, DELETE ON " +:+ table +:+ " TO " +:+ run +:+ ";");
    statement ("GRANT UPDATE (" +:+ ident (cfgEventID cfg) +:+ ") ON " +:+ table +:+ " TO " +:+ run +:+ ";") ]
  ++ (if bool_decide (DLQTable cfg <> "")
      then [statement ("GRANT INSERT ON " +:+ qualifiedIdent (PGSchema cfg) (DLQTable cfg) +:+ " TO " +:+ run +:+ ";")]
      else []).

Definition producerGrantStatements (cfg : appConfig) : list initStatement :=
  let table := qualifiedIdent (PGSchema cfg) (EventTable cfg) in
  foldl (fun stmts role =>
    let quotedRole := ident role in
    stmts ++ [statement ("GRANT USAGE ON SCHEMA " +:+ ident (PGSchema cfg) +:+ " TO " +:+ quotedRole +:+ ";");
              statement ("GRANT SELECT, INSERT ON " +:+ table +:+ " TO " +:+ quotedRole +:+ ";")])
    [] (PGProducerRoles cfg).

Definition manageRoles (cfg : appConfig) : bool := bool_decide (PGInitUser cfg <> "").

Definition storage_comment : string :=
  "-- The outbox churns every row (insert + delete), so autovacuum must run far more eagerly than the defaults.".

Definition buildInitStatements (cfg : appConfig) (redactSecrets : bool) (rand : string) : list initStatement :=
  (if manageRoles cfg then [runRoleStatement cfg redactSecrets rand] else [])
  ++ [statement (createSchemaSQL cfg); statement (createEventTableSQL cfg);
      InitStatement storage_comment (eventTableStorageSQL cfg)]
  ++ (if bool_decide (DLQTable cfg <> "") then [statement (createDLQTableSQL cfg)] else [])
  ++ [notifyFunctionStatement cfg]
  ++ notifyTriggerStatements cfg
  ++ (if manageRoles cfg then runRoleGrantStatements cfg ++ producerGrantStatements cfg else []).

(** The loop of [renderInitScript]; [first] is [i == 0]. *)
Fixpoint render_statements (first : bool) (stmts : list initStatement) : string :=
  match stmts with
  | [] => ""
  | s :: stmts =>
      (if first then "" else nl +:+ nl)
      +:+ (if bool_decide (comment s <> "") then comment s +:+ nl else "")
      +:+ sql s +:+ render_statements false stmts
  end.

Definition renderInitScript (stmts : list initStatement) : string := render_statements true stmts +:+ nl.

(** ** Applying *)

Definition wrap (text : string) (e : error) : error := ErrWrap (text +:+ ": " +:+ error_text e) e.

(** The random text is drawn only for the role statement. *)
Definition draw_tag (cfg : appConfig) : proc string := if manageRoles cfg then pact RandText else Ret "".

Definition execInitStatement (query : string) : proc (option error) := pact (ExecDDL query).

(** The body of the loop over the statements. *)
Definition apply_statement (_ : unit) (stmt : initStatement) : proc (unit + option error) :=
  do! r <- execInitStatement (sql stmt);
  Ret (match r with Some e => inr (Some (wrap "apply provisioning statement" e)) | None => inl tt end).

Definition provisioned_query (cfg : appConfig) : string :=
  "SELECT * FROM " +:+ qualifiedIdent (PGSchema cfg) (EventTable cfg) +:+ " LIMIT 0".

Definition validateProvisionedSchema (cfg : appConfig) : proc (error + unit) :=
  do! r <- pact (App (QueryColumns (provisioned_query cfg)));
  match r with
  | inl e => Ret (inl e)
  | inr columns =>
      match validateEventColumns cfg columns with
      | inl e => Ret (inl e)
      | inr _ =>
          if bool_decide (DLQTable cfg = "") then Ret (inr tt)
          else
            do! m <- within (loadDLQTableMetadata cfg);
            Ret (match m with inl e => inl e | inr m => validateDLQTableMetadata (DLQTable cfg) m end)
      end
  end.

(** From the first statement to the commit. *)
Definition apply_in_transaction (cfg : appConfig) : proc (option error) :=
  do! rand <- draw_tag cfg;
  do! r <- for_loop (buildInitStatements cfg false rand) apply_statement tt;
  match r with
  | inr e => Ret e
  | inl _ =>
      do! v <- validateProvisionedSchema cfg;
      match v with
      | inl e => Ret (Some (wrap "post-apply validation" e))
      | inr _ =>
          do! c <- pact (App Commit);
          Ret (match c with Some e => Some (wrap "commit" e) | None => None end)
      end
  end.

(** The deferred [Rollback] (which does nothing after a commit) and [Close] run last. *)
Definition applyInit (cfg : appConfig) : proc (option error) :=
  let connCfg :=
    if bool_decide (PGInitUser cfg <> "") then with_identity (PGInitUser cfg) (PGInitPassword cfg) cfg else cfg in
  do! opened <- openDB connCfg;
  match opened with
  | Some e => Ret (Some (wrap "open database" e))
  | None =>
      do! begun <- pact (App BeginTx);
      match begun with
      | Some e => run! pact CloseDB; Ret (Some (wrap "begin transaction" e))
      | None =>
          do! result <- apply_in_transaction cfg;
          run! pact (App Rollback);
          run! pact CloseDB;
          Ret result
      end
  end.

Definition invalid_configuration (e : error) : error := wrap "invalid configuration" e.

(** What a failed load prints and returns: asking for help is not an error. *)
Definition load_failed (f : failure) : proc (option error) :=
  run! pact (Stderr (printed f));
  Ret (if errors_Is (Some (failed_with f)) ErrHelp then None else Some (invalid_configuration (failed_with f))).

Definition runInit (env : environment) (args : list string) : proc (option error) :=
  match loadInitConfig env args with
  | inl f => load_failed f
  | inr (cfg, apply) =>
      run! setupLogging (LogLevel cfg) (LogFormat cfg);
      match validate cfg configValidationInit with
      | inl e => Ret (Some (invalid_configuration e))
      | inr _ =>
          if negb apply then
            do! rand <- draw_tag cfg;
            run! pact (Stdout (renderInitScript (buildInitStatements cfg true rand)));
            Ret None
          else applyInit cfg
      end
  end.

End init.

(** ** Executions *)

(** Neither a statement, nor a begin, nor a commit. *)
Definition harmless (a : pstep) : Prop :=
  match projT1 a with ExecDDL _ | App BeginTx | App Commit => False | _ => True end.

Ltac tame := unfold draw_tag; through ltac:(exact I).

(** A transaction that was begun. *)
Definition begins (a : pstep) : bool :=
  match a with
  | existT (App BeginTx) None => true
  | _ => false
  end.

(** What was executed and validated before a commit. *)
Definition executed (stmts : list initStatement) : list pstep := (fun s => pdid (ExecDDL (sql s)) None) <$> stmts.

Record schema_validated `{Pgx} (cfg : appConfig) (tr : list pstep) : Prop := {
  validated_columns : exists columns,
    pdid (App (QueryColumns (provisioned_query cfg))) (inr columns) ∈ tr
    /\ validateEventColumns cfg columns = inr tt;
  validated_dlq : DLQTable cfg <> "" -> exists t metadata,
    exec (loadDLQTableMetadata cfg) t (inr metadata) /\ map in_process t `sublist_of` tr
    /\ validateDLQTableMetadata (DLQTable cfg) metadata = inr tt;
}.

(** Neither a statement nor a commit. *)
Definition writes_nothing (a : pstep) : Prop := match projT1 a with ExecDDL _ | App Commit => False | _ => True end.

(** Every statement of the configuration, in order, then the checks, then the commit; the deferred
    calls are last. *)
Definition all_applied `{GoRuntime} `{Pgx} `{MapRange} (cfg : appConfig) (tr : list pstep) (c : option error) : Prop :=
  exists rand t1 t2 e,
    tr = t1 ++ executed (buildInitStatements cfg false rand) ++ t2
           ++ [pdid (App Commit) c; pdid (App Rollback) e; pdid CloseDB tt]
    /\ Forall writes_nothing t1 /\ Forall harmless t2 /\ schema_validated cfg t2.

Section executions.
Context `{GoRuntime} `{Pgx} `{MapRange}.

Lemma only_openDB cfg : only harmless (openDB cfg).
Proof. unfold openDB, buildTLSConfig. tame. Qed.

Lemma only_draw_tag cfg : only harmless (draw_tag cfg).
Proof. tame. Qed.

Lemma exec_statements stmts tr r :
  exec (for_loop stmts apply_statement tt) tr r ->
  (r = inl tt /\ tr = executed stmts)
  \/ (exists e, r = inr (Some e)) /\ Forall (fun a => projT1 a <> App Commit /\ projT1 a <> App BeginTx) tr.
Proof.
  revert tr. induction stmts as [|s stmts IH]; intros tr; cbn [for_loop].
  - intros [-> ->]. by left.
  - intros (t1 & t2 & x & -> & He & Hs)%exec_bind. unfold apply_statement in He.
    apply exec_bind in He as (t3 & t4 & d & -> & Hp & [-> ->]).
    apply (exec_perform (R := proc_resp) (ExecDDL _)) in Hp as ->. destruct d as [e|].
    + destruct Hs as [-> ->]. right. split; [by eexists|]. by repeat constructor.
    + apply IH in Hs as [[-> ->]|[[e ->] Hall]]; [by left|right]. split; [by eexists|].
      simpl. by constructor.
Qed.

Lemma only_loadDLQ cfg : only harmless (within (loadDLQTableMetadata cfg)).
Proof. by intros tr a (r & tr' & -> & -> & _); repeat constructor. Qed.

Lemma exec_validate cfg tr v :
  exec (validateProvisionedSchema cfg) tr v -> Forall harmless tr /\ (v = inr tt -> schema_validated cfg tr).
Proof.
  unfold validateProvisionedSchema.
  intros (t1 & t2 & cols & -> & ->%exec_perform & He)%exec_bind.
  destruct cols as [e|columns]; [destruct He as [-> ->]; split; [by repeat constructor|done]|].
  destruct (validateEventColumns cfg columns) as [e|[]] eqn:Hv;
    [destruct He as [-> ->]; split; [by repeat constructor|done]|].
  case_bool_decide as Hd.
  - destruct He as [-> ->]. split; [by repeat constructor|]. intros _. split; [|done].
    exists columns. split; [set_solver|done].
  - apply exec_bind in He as (t3 & t4 & m & -> & Hm & [-> ->]). split.
    + rewrite app_nil_r. simpl. constructor; [done|]. by eapply only_loadDLQ.
    + intros Hok. split.
      * exists columns. split; [set_solver|done].
      * intros _. apply exec_within in Hm as (t & -> & Ht). destruct m as [e|m]; [done|].
        exists t, m. split_and!; [done| |done]. rewrite app_nil_r. by apply sublist_cons.
Qed.

Lemma exec_apply cfg tr r :
  exec (apply_in_transaction cfg) tr r ->
  (r <> None /\ Forall (fun a => projT1 a <> App Commit /\ projT1 a <> App BeginTx) tr)
  \/ exists rand t1 t2 c,
       tr = t1 ++ executed (buildInitStatements cfg false rand) ++ t2 ++ [pdid (App Commit) c]
       /\ Forall harmless t1 /\ Forall harmless t2 /\ schema_validated cfg t2
       /\ (r = None <-> c = None).
Proof.
  assert (Hh : forall l, Forall harmless l -> Forall (fun a : pstep => projT1 a <> App Commit /\ projT1 a <> App BeginTx) l).
  { intros l Hl. eapply Forall_impl; [exact Hl|]. intros [c x] Hc. unfold harmless in Hc. simpl in *. split; by intros ->. }
  unfold apply_in_transaction. intros (t1 & t2 & rand & -> & Ht1%only_draw_tag & He)%exec_bind.
  apply exec_bind in He as (t3 & t4 & x & -> & Hs & He).
  apply exec_statements in Hs as [[-> ->]|[[e ->] Hall]].
  2: { destruct He as [-> ->]. left. split; [done|]. rewrite app_nil_r. apply Forall_app. auto. }
  apply exec_bind in He as (t5 & t6 & v & -> & [Hv Hok]%exec_validate & He). destruct v as [e|[]].
  - destruct He as [-> ->]. left. split; [done|]. rewrite app_nil_r, !Forall_app. split_and!; [auto| |auto].
    unfold executed. apply Forall_fmap, Forall_true. done.
  - apply exec_bind in He as (t7 & t8 & c & -> & ->%exec_perform & [-> ->]).
    right. exists rand, t1, t5, c. split_and!; try done; [by auto|]. by destruct c.
Qed.

(** ** Printing *)

(** A printed script does not depend on the passwords. *)
Lemma print_redacts cfg p q rand :
  buildInitStatements (with_passwords p q cfg) true rand = buildInitStatements cfg true rand.
Proof. reflexivity. Qed.

(** ** The tables *)

(** The columns of the statement are the columns the relay asks for. *)
Lemma event_table_accepted cfg : validateEventColumns cfg (event_table_columns cfg).*1 = inr tt.
Proof.
  apply validateEventColumns_iff. intros name Hn Hne. unfold required_columns in Hn.
  assert (name ∈ [cfgEventID cfg; EventPayload cfg; EventTimestamp cfg; EventTarget cfg; EventDestination cfg]) as Hin.
  { revert Hn. cbv zeta.
    destruct (bool_decide (0 < MaxEventAge cfg)%Z), (1 <? length (configuredProviderRoutes cfg))%nat, (existsb _ _);
      rewrite ?elem_of_app, ?elem_of_cons, ?elem_of_nil; tauto. }
  unfold event_table_columns. rewrite !elem_of_cons, elem_of_nil in Hin. cbv zeta.
  rewrite !fmap_app, !elem_of_app.
  destruct Hin as [->|[->|[->|[->|[->|[]]]]]]; rewrite ?(bool_decide_eq_true_2 _ Hne);
    simpl; rewrite ?elem_of_cons, ?list_elem_of_singleton; tauto.
Qed.

Lemma exec_load_failed f tr r : exec (load_failed f) tr r -> tr = [pdid (Stderr (printed f)) tt].
Proof. by intros (t1 & t2 & [] & -> & ->%exec_perform & [-> _])%exec_bind. Qed.

(** ** [applyInit] *)

Lemma exec_applyInit cfg tr r :
  exec (applyInit cfg) tr r ->
  (Forall (fun a => projT1 a <> App Commit) tr /\ r <> None
   /\ (pdid (App BeginTx) None ∈ tr -> exists e t, tr = t ++ [pdid (App Rollback) e; pdid CloseDB tt]))
  \/ exists c, all_applied cfg tr c /\ (r = None <-> c = None).
Proof.
  assert (Hc : forall l, Forall harmless l -> Forall (fun a : pstep => projT1 a <> App Commit) l).
  { intros l Hl. eapply Forall_impl; [exact Hl|]. intros [c x] Hc. unfold harmless in Hc. simpl in *. by intros ->. }
  assert (Hd : forall l, Forall harmless l -> Forall writes_nothing l).
  { intros l Hl. eapply Forall_impl; [exact Hl|]. intros [c x]. unfold harmless, writes_nothing. simpl.
    by destruct c as [[]| | | | | | | | | | | | | | | | | | | | | | | |]. }
  unfold applyInit. intros (t1 & t2 & opened & -> & Ho%only_openDB & He)%exec_bind.
  destruct opened as [e|].
  { destruct He as [-> ->]. left. rewrite app_nil_r. split_and!; [auto|done|].
    intros Hin. rewrite Forall_forall in Ho. by destruct (Ho _ Hin). }
  apply exec_bind in He as (t3 & t4 & begun & -> & ->%exec_perform & He). destruct begun as [e|].
  { apply exec_bind in He as (t5 & t6 & [] & -> & ->%exec_perform & [-> ->]). left. split_and!; [|done|].
    - rewrite Forall_app. split; [auto|]. by repeat constructor.
    - rewrite elem_of_app. intros [Hin|Hin]; [rewrite Forall_forall in Ho; by destruct (Ho _ Hin)|].
      exfalso. simpl in Hin. rewrite !elem_of_cons, elem_of_nil in Hin. destruct Hin as [Hin|[Hin|[]]]; [|done].
      by apply (f_equal begins) in Hin. }
  apply exec_bind in He as (t5 & t6 & result & -> & Ha & He).
  apply exec_bind in He as (t7 & t8 & e & -> & ->%exec_perform & He).
  apply exec_bind in He as (t9 & t10 & [] & -> & ->%exec_perform & [-> ->]).
  apply exec_apply in Ha as [[Hr Hall]|(rand & u1 & u2 & c & -> & Hu1 & Hu2 & Hv & Hr)].
  - left. split_and!; [|done|].
    + rewrite !Forall_app, !Forall_cons. split_and!; try (done || by apply Forall_nil); [by auto|].
      eapply Forall_impl; [exact Hall|]. by intros ? [? _].
    + intros _. exists e, (t1 ++ [existT (App BeginTx) None] ++ t5). by rewrite <- !(assoc_L (++)).
  - right. exists c. split; [|done]. exists rand, (t1 ++ [existT (App BeginTx) None] ++ u1), u2, e. split_and!; try done.
    + rewrite <- !(assoc_L (++)). done.
    + rewrite !Forall_app. split_and!; [auto| |auto]. by repeat constructor.
Qed.

End executions.

(** The result of a commit. *)
Definition commit_result (a : pstep) : option (option error) :=
  match a with existT (App Commit) c => Some c | _ => None end.

Lemma not_committed c (l : list pstep) : Forall (fun a => projT1 a <> App Commit) l -> pdid (App Commit) c ∉ l.
Proof. rewrite Forall_forall. intros Hall Hin. by apply (Hall _ Hin). Qed.

Lemma exec_runInit `{GoRuntime} `{Pgx} `{MapRange} env args tr r :
  exec (runInit env args) tr r ->
  match loadInitConfig env args with
  | inl f => tr = [pdid (Stderr (printed f)) tt]
  | inr (cfg, apply) =>
      exists t, tr = pdid (SetLogger (parseLogLevel (LogLevel cfg)) (strings_EqualFold (LogFormat cfg) "json")) tt :: t
        /\ (t = [] /\ r <> None
            \/ validate cfg configValidationInit = inr tt
               /\ (if apply then exec (applyInit cfg) t r
                   else r = None /\ exists rand t', t = t' ++ [pdid (Stdout (renderInitScript (buildInitStatements cfg true rand))) tt]
                          /\ (t' = [] \/ t' = [pdid RandText rand])))
  end.
Proof.
  unfold runInit. destruct (loadInitConfig env args) as [f|[cfg apply]]; [by apply exec_load_failed|].
  intros (t1 & t2 & [] & -> & Hlog & He)%exec_bind.
  apply (exec_perform (R := proc_resp) (SetLogger _ _) t1 tt) in Hlog as ->.
  exists t2. split; [done|]. destruct (validate cfg configValidationInit) as [e|[]].
  { destruct He as [-> ->]. by left. }
  right. split; [done|]. destruct apply; cbn [negb] in He; [exact He|].
  apply exec_bind in He as (t3 & t4 & rand & -> & Hr & He).
  apply exec_bind in He as (t5 & t6 & [] & -> & ->%exec_perform & [-> ->]). split; [done|].
  exists rand, t3. split; [done|]. unfold draw_tag in Hr. destruct (manageRoles cfg).
  - right. by apply (exec_perform (R := proc_resp) RandText) in Hr.
  - left. by destruct Hr as [-> _].
Qed.

(** *** The four cases of the property *)

Definition sets_logger (cfg : appConfig) : pstep :=
  pdid (SetLogger (parseLogLevel (LogLevel cfg)) (strings_EqualFold (LogFormat cfg) "json")) tt.

Definition only_prints (a : pstep) : Prop :=
  match projT1 a with SetLogger _ _ | RandText | Stdout _ => True | _ => False end.

Definition stdout_text (a : pstep) : option string := match projT1 a with Stdout text => Some text | _ => None end.

Lemma only_commit `{GoRuntime} `{Pgx} `{MapRange} cfg tr c c' :
  all_applied cfg tr c' -> pdid (App Commit) c ∈ tr -> c' = c.
Proof.
  intros (rand & t1 & t2 & e & -> & Ht1 & Ht2 & _). rewrite !elem_of_app, !Forall_forall in *.
  intros [Hin|[Hin|[Hin|Hin]]].
  - by destruct (Ht1 _ Hin).
  - apply list_elem_of_fmap in Hin as (s & Hin & _). by apply (f_equal commit_result) in Hin.
  - by destruct (Ht2 _ Hin).
  - rewrite !elem_of_cons, elem_of_nil in Hin. destruct Hin as [Hin|[Hin|[Hin|[]]]];
      apply (f_equal commit_result) in Hin; simplify_eq/=; done.
Qed.

Lemma all_applied_cons `{GoRuntime} `{Pgx} `{MapRange} cfg a tr c :
  writes_nothing a -> all_applied cfg tr c -> all_applied cfg (a :: tr) c.
Proof.
  intros Ha (rand & t1 & t2 & e & -> & Ht1 & Ht2 & Hs). exists rand, (a :: t1), t2, e.
  split_and!; try done. by constructor.
Qed.

Lemma print_only cfg rand t' :
  t' = [] \/ t' = [pdid RandText rand] -> forall text, Forall only_prints (sets_logger cfg :: t' ++ [pdid (Stdout text) tt]).
Proof. intros [-> | ->] text; by repeat constructor. Qed.

Lemma only_prints_quiet tr :
  Forall only_prints tr ->
  (forall c, pdid (App Commit) c ∉ tr) /\ pdid (App BeginTx) None ∉ tr.
Proof.
  rewrite Forall_forall. intros Hall. split; [intros c|]; intros Hin; by destruct (Hall _ Hin).
Qed.

(** What a loaded configuration does: it stops at an invalid configuration, prints, or applies. *)
Lemma runInit_cases `{GoRuntime} `{Pgx} `{MapRange} env args tr r :
  exec (runInit env args) tr r ->
  (exists text, tr = [pdid (Stderr text) tt] /\ forall cfg apply, loadInitConfig env args <> inr (cfg, apply))
  \/ exists cfg apply, loadInitConfig env args = inr (cfg, apply)
       /\ ((r <> None /\ tr = [sets_logger cfg])
           \/ (storage_ok cfg /\ apply = true /\ exists t, tr = sets_logger cfg :: t /\ exec (applyInit cfg) t r)
           \/ (apply = false /\ exists rand t', (t' = [] \/ t' = [pdid RandText rand])
                /\ tr = sets_logger cfg
                     :: t' ++ [pdid (Stdout (renderInitScript (buildInitStatements cfg true rand))) tt])).
Proof.
  intros He%exec_runInit. destruct (loadInitConfig env args) as [f|[cfg apply]].
  { left. eexists. split; [exact He|]. by intros ??. }
  right. exists cfg, apply. split; [done|]. destruct He as (t & -> & [[-> Hr]|[Hv He]]); [by left|right].
  destruct apply; [left|right; split; [done|]].
  - split_and!; [by apply validate_exact|done|]. by exists t.
  - destruct He as (_ & rand & t' & -> & Ht'). by exists rand, t'.
Qed.

(** ** Property *)

(** C27. Provisioning is all or nothing.  [runInit] commits only with [--apply] and a valid
    configuration, only after every generated statement succeeded, in order and none other, and
    after the relay's own checks accepted the tables the transaction sees; it returns nil then
    exactly when the commit succeeded, and a transaction it began is rolled back, if it is still
    open, and the connection closed as its last two actions.  Without [--apply] it connects to
    nothing and what it prints is the same for all passwords.  The columns of the event table it creates are the columns the relay asks for. *)
Theorem init_all_or_nothing `{GoRuntime} `{Pgx} `{MapRange} (env : environment) (args : list string)
    (tr : list pstep) (r : option error) :
  exec (runInit env args) tr r ->
  (forall c, pdid (App Commit) c ∈ tr ->
     exists cfg, loadInitConfig env args = inr (cfg, true) /\ storage_ok cfg
       /\ all_applied cfg tr c /\ (r = None <-> c = None))
  /\ (pdid (App BeginTx) None ∈ tr -> exists e t, tr = t ++ [pdid (App Rollback) e; pdid CloseDB tt])
  /\ (forall cfg, loadInitConfig env args = inr (cfg, true) -> r = None -> pdid (App Commit) None ∈ tr)
  /\ (forall cfg, loadInitConfig env args = inr (cfg, false) ->
       Forall only_prints tr
       /\ forall text p q, text ∈ omap stdout_text tr ->
            exists rand, text = renderInitScript (buildInitStatements (with_passwords p q cfg) true rand))
  /\ (forall cfg, validateEventColumns cfg (event_table_columns cfg).*1 = inr tt).
Proof.
  intros He. split_and!; [| | | |apply event_table_accepted].
  all: destruct (runInit_cases _ _ _ _ He) as [(text & -> & Hno)|(cfg' & apply & Hload & Hcases)].
  - intros c Hin%list_elem_of_singleton. by apply (f_equal commit_result) in Hin.
  - intros c Hin. exists cfg'. destruct Hcases as [[_ ->]|[(Hok & -> & t & -> & Ha)|(_ & rand & t' & Ht' & ->)]].
    + apply list_elem_of_singleton in Hin. by apply (f_equal commit_result) in Hin.
    + apply elem_of_cons in Hin as [Hin|Hin]; [by apply (f_equal commit_result) in Hin|].
      apply exec_applyInit in Ha as [(Hno & _)|(c' & Ha & Hr)]; [by apply (not_committed c) in Hno|].
      rewrite <- (only_commit _ _ _ _ Ha Hin). split_and!; [done|done|by apply all_applied_cons|done].
    + by apply (only_prints_quiet _ (print_only _ _ _ Ht' _)) in Hin.
  - intros Hin%list_elem_of_singleton. by apply (f_equal begins) in Hin.
  - intros Hin. destruct Hcases as [[_ ->]|[(Hok & -> & t & -> & Ha)|(_ & rand & t' & Ht' & ->)]].
    + apply list_elem_of_singleton in Hin. by apply (f_equal begins) in Hin.
    + apply elem_of_cons in Hin as [Hin|Hin]; [by apply (f_equal begins) in Hin|].
      apply exec_applyInit in Ha as [(_ & _ & Hend)|(c' & (rand & t1 & t2 & e & -> & _) & _)].
      * destruct (Hend Hin) as (e & t' & ->). by exists e, (sets_logger cfg' :: t').
      * exists e, (sets_logger cfg' :: t1 ++ executed (buildInitStatements cfg' false rand) ++ t2 ++ [pdid (App Commit) c']).
        simpl. by rewrite <- !(assoc_L (++)).
    + by apply (only_prints_quiet _ (print_only _ _ _ Ht' _)) in Hin.
  - intros cfg Hl. by destruct (Hno _ _ Hl).
  - intros cfg Hl Hr. destruct Hcases as [[Hr' _]|[(_ & _ & t & -> & Ha)|(-> & _)]]; [done| |by rewrite Hl in Hload].
    apply exec_applyInit in Ha as [(_ & Hr' & _)|(c & (rand & t1 & t2 & e & -> & _) & Hc)]; [done|].
    apply Hc in Hr as ->. rewrite elem_of_cons, !elem_of_app. right. right. right. right. left.
  - intros cfg Hl. by destruct (Hno _ _ Hl).
  - intros cfg Hl. rewrite Hl in Hload. injection Hload as -> <-.
    destruct Hcases as [[_ ->]|[(_ & Hf & _)|(_ & rand & t' & Ht' & ->)]]; [|done|].
    + split; [by repeat constructor|]. intros text p q Hin. by apply elem_of_nil in Hin.
    + split; [by apply (print_only _ rand)|]. intros text p q Hin. exists rand. rewrite print_redacts.
      destruct Ht' as [-> | ->]; by apply list_elem_of_singleton in Hin.
Qed.

Definition apply_args : list string := ["--apply"; "--dlq-table=dead"].

(** A database that accepts everything, with the tables of the default configuration. *)
Definition init_answer (past : list pstep) (c : proc_cmd) : proc_resp c :=
  match c with
  | App (QueryColumns _) => inr (event_table_columns defaultConfig).*1
  | App (QueryMetadata _ _) =>
      inr ([inr ("r", true, DlqColumn "id" "int8" true None "d" "" true);
            inr ("r", true, DlqColumn "event" "jsonb" true None "" "" true)], None)
  | App c => sample_answer [] c
  | ReadFile _ => inr ""
  | AppendCertsFromPEM _ => true
  | RandText => "RANDOM"
  | StartWatchdog _ | StopWatchdog | SetLogger _ _ | LogError _ | OpenDB _ | CloseDB | OpenPublisher _ | Stdout _
  | Stderr _ | ShutdownServer | StartStatsLogger _ | LogStats | WithCancel
  | CancelContext => tt
  | ParseConfig | ExecDDL _ | NewPubSubClient _ _ | ClosePublisher | ClosePubSubClient | NewSQSClient _ | Listen _ =>
      None
  end.

Definition apply_run := run init_answer (runInit ∅ apply_args) [].

Definition print_run := run init_answer (runInit ∅ ["--pg-init-user=admin"]) [].

Definition applied_config : appConfig :=
  match loadInitConfig ∅ apply_args with inr (cfg, _) => cfg | inl _ => defaultConfig end.

Lemma loaded_inj {E} (c c' : appConfig) (apply : bool) : inr (c, apply) = inr (A := E) (c', apply) -> c = c'.
Proof. by intros [= ->]. Qed.

Lemma init_all_or_nothing_witness :
  (apply_run.2 = None /\ all_applied applied_config apply_run.1 None)
  /\ (length print_run.1 = 3 /\ Forall only_prints print_run.1).
Proof.
  pose proof (init_all_or_nothing ∅ apply_args _ _ (run_exec_nil init_answer _)) as (Hc & _ & Hok & _).
  assert (Hload : loadInitConfig ∅ apply_args = inr (applied_config, true)) by (vm_compute; reflexivity).
  assert (Hr : apply_run.2 = None) by (vm_compute; reflexivity). split; split; [exact Hr| |vm_compute; reflexivity|].
  - destruct (Hc None (Hok _ Hload Hr)) as (cfg & Hl & _ & Ha & _). rewrite Hload in Hl.
    by rewrite (loaded_inj _ _ _ Hl).
  - eapply (init_all_or_nothing ∅ ["--pg-init-user=admin"] _ _ (run_exec_nil init_answer _)).
    instantiate (1 := match loadInitConfig ∅ ["--pg-init-user=admin"] with inr (cfg, _) => cfg | inl _ => defaultConfig end).
    vm_compute. reflexivity.
Defined.
