(* ===== verification/Run.v ===== *)
(** * The process ([run.go], [providers.go], [http.go], [cmd/outboxer/main.go])

    [Run] with its two verbs, start-up and shutdown of the relay, and the exit status.  A deferred
    call is [defer]: it runs when the rest of the function has returned, so deferred calls run last
    in, first out.  [turns] bounds the turns of the processing loop ([Processor.v]); a program that
    is still in its loop returns [None] and has run no deferred call.

    What runs beside the loop is not in the trace: the goroutines of the health server and of the
    statistics are in [Shutdown.v], and the watchdog's ([Watchdog.v]) may end the process at any
    moment.  A cancelled context is an answer of [CtxErr]. *)
From S2P Require Import Prelude GoErrors Config Values Samples Strconv Conc Provider Stats App Routes Flags DotEnv LoadConfig Sql Health SqsSender SqsOptions SqsClient PubSub PubSubClient Db Dlq Backlog Notify Processor ProcessorSafety Relay Process Init.
Local Open Scope go_scope.

Definition defer {A} (cleanup : proc unit) (m : proc (option A)) : proc (option A) :=
  do! r <- m;
  match r with
  | Some v => run! cleanup; Ret (Some v)
  | None => Ret None
  end.

(** ** Providers ([providers.go]) *)

(** What [NewSender] is given. *)
Inductive sender := PubSubSender (conf : pubsub_config) | SQSSender (conf : sqs_config).

Definition no_cleanup : proc unit := Ret tt.

(** [slog.Error] of a failed close. *)
Definition log_close (what : string) (e : option error) : proc unit :=
  match e with
  | None => Ret tt
  | Some e => pact (LogError ("Failed to close " +:+ what +:+ ": " +:+ error_text e))
  end.

Definition close_pubsub : proc unit :=
  do! e <- pact ClosePublisher;
  run! log_close "Pub/Sub publisher" e;
  do! e <- pact ClosePubSubClient;
  log_close "Pub/Sub client" e.

Definition buildPubSubSender (cfg : appConfig) : proc (error + sender * proc unit) :=
  let providerConfig := pubsubConfig cfg in
  let '(project, endpoint) := PubSubClient.NewClient providerConfig in
  do! client <- pact (NewPubSubClient project endpoint);
  match client with
  | Some e => Ret (inl e)
  | None => run! pact (OpenPublisher providerConfig); Ret (inr (PubSubSender providerConfig, close_pubsub))
  end.

Definition buildSQSSender (cfg : appConfig) : proc (error + sender * proc unit) :=
  let providerConfig := sqsConfig cfg in
  do! client <- pact (NewSQSClient providerConfig);
  Ret (match client with Some e => inl e | None => inr (SQSSender providerConfig, no_cleanup) end).

(** The [build] field of a [providerSpec] of the registry ([Routes.v]). *)
Definition build (spec : providerSpec) (cfg : appConfig) : proc (error + sender * proc unit) :=
  if bool_decide (spec_target spec = eventTargetPubSub) then buildPubSubSender cfg else buildSQSSender cfg.

(** [cleanup]: from the last one. *)
Definition run_cleanups (cleanups : list (proc unit)) : proc unit :=
  for_each (rev cleanups) (fun _ cleanup => cleanup) tt.

Definition senders_built : Type := gmap string sender * list (proc unit).

(** The body of the loop over the registry. *)
Definition build_next (cfg : appConfig) (built : senders_built) (spec : providerSpec) :
    proc (senders_built + (error + senders_built)) :=
  if negb (spec_enabled spec cfg) then Ret (inl built)
  else
    do! r <- build spec cfg;
    match r with
    | inl e =>
        run! run_cleanups built.2;
        Ret (inr (inl (wrap ("create " +:+ spec_target spec +:+ " provider") e)))
    | inr (sender, closeProvider) =>
        Ret (inl (<[spec_target spec := sender]> built.1, built.2 ++ [closeProvider]))
    end.

(** The senders and the closure that closes them. *)
Definition buildProviderSenders (cfg : appConfig) : proc (error + senders_built) :=
  do! r <- for_loop providerSpecs (build_next cfg) (∅, []);
  Ret (match r with inl built => inr built | inr result => result end).

(** ** The relay ([run.go]) *)

Section run.
Context `{GoRuntime} `{Pgx} `{MapRange}.

(** The goroutine that serves is not part of the program. *)
Definition serveHTTPRequests (cfg : appConfig) : proc (option error) := pact (Listen (server_addr cfg)).

Definition startStatsLogger (cfg : appConfig) : proc unit :=
  if (StatsInterval cfg <=? 0)%Z then Ret tt else pact (StartStatsLogger (StatsInterval cfg)).

(** The function's value once it has returned. *)
Definition returns (e : option error) : proc (option (option error)) := Ret (Some e).

(** From the statistics logger to the end of [runRelay]. *)
Definition process (turns : nat) (cfg : appConfig) : proc (option (option error)) :=
  run! startStatsLogger cfg;
  do! processed <- within (processEvents cfg turns initial_state);
  match processed with
  | None => Ret None
  | Some processErr =>
      run! (if (0 <? StatsInterval cfg)%Z then pact LogStats else Ret tt);
      returns (match processErr with Some e => Some (wrap "process events" e) | None => None end)
  end.

(** From the checks of the database on. *)
Definition check_and_process (turns : nat) (cfg : appConfig) : proc (option (option error)) :=
  do! checked <- within (checkDBWorks cfg);
  match checked with
  | inl e => returns (Some (wrap "database check failed" e))
  | inr _ =>
      do! checked <- within (checkDLQWorks cfg);
      match checked with
      | inl e => returns (Some (wrap "DLQ check failed" e))
      | inr _ =>
          if (0 <? HealthPort cfg)%Z then
            do! server <- serveHTTPRequests cfg;
            match server with
            | Some e => returns (Some (wrap "start health server" e))
            | None => defer (pact ShutdownServer) (process turns cfg)
            end
          else process turns cfg
      end
  end.

(** From the senders on. *)
Definition with_senders (turns : nat) (cfg : appConfig) : proc (option (option error)) :=
  do! built <- buildProviderSenders cfg;
  match built with
  | inl e => returns (Some e)
  | inr built => defer (run_cleanups built.2) (check_and_process turns cfg)
  end.

(** From the context on: a valid configuration. *)
Definition supervised (turns : nat) (cfg : appConfig) : proc (option (option error)) :=
  run! pact WithCancel;
  defer (pact CancelContext) (
    run! pact (StartWatchdog (WatchdogInterval cfg));
    defer (pact StopWatchdog) (
      do! opened <- openDB cfg;
      match opened with
      | Some e => returns (Some (wrap "open database" e))
      | None => defer (pact CloseDB) (with_senders turns cfg)
      end)).

Definition runRelay (turns : nat) (env : environment) (args : list string) : proc (option (option error)) :=
  match loadConfig env args with
  | inl f => do! e <- load_failed f; returns e
  | inr cfg =>
      run! setupLogging (LogLevel cfg) (LogFormat cfg);
      match validate cfg configValidationRelay with
      | inl e => returns (Some (invalid_configuration e))
      | inr _ => supervised turns cfg
      end
  end.

Inductive verb := VerbInit (args : list string) | VerbUnknown (name : string) | VerbRelay.

(** The dispatch of [Run] on its first argument. *)
Definition verb_of (args : list string) : verb :=
  match args with
  | arg :: rest =>
      if strings_HasPrefix arg "-" then VerbRelay
      else if bool_decide (arg = "init") then VerbInit rest else VerbUnknown arg
  | [] => VerbRelay
  end.

(** The bytes of a file that could be read. *)
Definition contents (file : error + string) : option string := match file with inl _ => None | inr text => Some text end.

Definition Run (turns : nat) (env : environment) (args : list string) : proc (option (option error)) :=
  do! file <- pact (ReadFile ".env");
  let env := loadDotEnv (contents file) env in
  match verb_of args with
  | VerbInit rest => do! e <- runInit env rest; returns e
  | VerbUnknown name => returns (Some (ErrText ("unknown command " +:+ strconv_Quote name)))
  | VerbRelay => runRelay turns env args
  end.

(** [main]: the exit status. *)
Definition main (turns : nat) (env : environment) (args : list string) : proc (option Z) :=
  do! r <- Run turns env args;
  match r with
  | None => Ret None
  | Some None => Ret (Some 0%Z)
  | Some (Some e) => run! pact (LogError ("Fatal error: " +:+ error_text e)); Ret (Some 1%Z)
  end.

End run.

(** ** Resources *)

Inductive resource := RContext | RWatchdog | RDatabase | RPubSubClient | RPublisher | RServer.

#[export] Instance resource_eq_dec : EqDecision resource.
Proof. solve_decision. Defined.

(** What an action opens, what it closes, and whether it is a statement or a send. *)
Definition opens (a : pstep) : option resource :=
  match a with
  | existT WithCancel _ => Some RContext
  | existT (StartWatchdog _) _ => Some RWatchdog
  | existT (OpenDB _) _ => Some RDatabase
  | existT (NewPubSubClient _ _) None => Some RPubSubClient
  | existT (OpenPublisher _) _ => Some RPublisher
  | existT (Listen _) None => Some RServer
  | _ => None
  end.

Definition closes (a : pstep) : option resource :=
  match projT1 a with
  | CancelContext => Some RContext
  | StopWatchdog => Some RWatchdog
  | CloseDB => Some RDatabase
  | ClosePubSubClient => Some RPubSubClient
  | ClosePublisher => Some RPublisher
  | ShutdownServer => Some RServer
  | _ => None
  end.

Definition works (a : pstep) : bool :=
  match projT1 a with App _ | ExecDDL _ | StartStatsLogger _ | LogStats => true | _ => false end.

(** The open resources, the last one first, and whether shutdown has begun. *)
Definition holding : Type := list resource * bool.

(** Nothing is opened and no work is done once something has been closed; work needs the database;
    and only the last resource that is still open may be closed. *)
Definition account (s : holding) (a : pstep) : option holding :=
  match opens a, closes a with
  | Some r, _ => if s.2 : bool then None else Some (r :: s.1, false)
  | None, Some r =>
      match s.1 with
      | r' :: rest => if bool_decide (r' = r) then Some (rest, true) else None
      | [] => None
      end
  | None, None => if works a && (s.2 || negb (bool_decide (RDatabase ∈ s.1))) then None else Some s
  end.

Fixpoint account_all (s : holding) (tr : list pstep) : option holding :=
  match tr with
  | [] => Some s
  | a :: tr => match account s a with Some s => account_all s tr | None => None end
  end.

Lemma account_app s t1 t2 :
  account_all s (t1 ++ t2) = match account_all s t1 with Some s' => account_all s' t2 | None => None end.
Proof. revert s. induction t1 as [|a t1 IH]; intros s; simpl; [done|]. by destruct (account s a). Qed.

(** Every execution of [m] from [s] is accounted for, and ends with [Q]. *)
Definition accounted {A} (s : holding) (m : proc A) (Q : A -> holding -> Prop) : Prop :=
  forall tr a, exec m tr a -> exists s', account_all s tr = Some s' /\ Q a s'.

Lemma acc_ret {A} s (a : A) (Q : A -> holding -> Prop) : Q a s -> accounted s (Ret a) Q.
Proof. intros HQ tr b [-> ->]. by exists s. Qed.

Lemma acc_bind {A B} s (m : proc A) (f : A -> proc B) Q :
  accounted s m (fun a s' => accounted s' (f a) Q) -> accounted s (bind m f) Q.
Proof.
  intros Hm tr b (t1 & t2 & a & -> & H1 & H2)%exec_bind. destruct (Hm _ _ H1) as (s1 & Hs1 & Hf).
  destruct (Hf _ _ H2) as (s2 & Hs2 & HQ). exists s2. by rewrite account_app, Hs1.
Qed.

Lemma acc_act s c (Q : proc_resp c -> holding -> Prop) :
  (forall r, exists s', account s (pdid c r) = Some s' /\ Q r s') -> accounted s (pact c) Q.
Proof.
  intros Hc tr r ->%exec_perform. destruct (Hc r) as (s' & Hs & HQ). exists s'.
  split; [|exact HQ]. change (account_all s [pdid c r] = Some s'). cbn [account_all]. by rewrite Hs.
Qed.

Lemma acc_mono {A} s (m : proc A) (Q Q' : A -> holding -> Prop) :
  accounted s m Q -> (forall a s', Q a s' -> Q' a s') -> accounted s m Q'.
Proof. intros Hm HQ tr a He. destruct (Hm _ _ He) as (s' & Hs & Ha). eauto. Qed.

(** What neither opens nor closes leaves everything as it is. *)
Definition keeps (s : holding) (a : pstep) : Prop := account s a = Some s.

Lemma acc_only {A} s (m : proc A) (Q : A -> holding -> Prop) :
  only (keeps s) m -> (forall a, Q a s) -> accounted s m Q.
Proof.
  intros Hm HQ tr a He. exists s. split; [|apply HQ]. pose proof (Hm _ _ He) as Ht. clear He.
  induction Ht as [|x tr Hx _ IH]; [done|]. simpl. by rewrite Hx.
Qed.

(** A relay program only does work. *)
Lemma acc_within {A} rs (m : prog A) (Q : A -> holding -> Prop) :
  RDatabase ∈ rs -> (forall a, Q a (rs, false)) -> accounted (rs, false) (within m) Q.
Proof.
  intros Hin HQ. apply acc_only; [|done]. intros tr a (t & -> & _)%exec_within.
  apply Forall_fmap, Forall_true. intros [c r]. unfold keeps, account; simpl.
  by rewrite bool_decide_eq_true_2.
Qed.

(** What a function that has returned leaves open; one that is still running is not asked. *)
Definition leaves (rs : list resource) {A} (r : option A) (s : holding) : Prop := is_Some r -> s.1 = rs.

Lemma acc_returns rs b e : accounted (rs, b) (returns e) (leaves rs).
Proof. by apply acc_ret. Qed.

Lemma acc_defer {A} s rs rs' cleanup (m : proc (option A)) :
  accounted s m (leaves rs') ->
  (forall b, accounted (rs', b) cleanup (fun _ s' => s'.1 = rs)) ->
  accounted s (defer cleanup m) (leaves rs).
Proof.
  intros Hm Hc. apply acc_bind. eapply acc_mono; [exact Hm|]. intros [v|] [rs1 b] Hs.
  - pose proof (Hs (mk_is_Some _ _ eq_refl)) as Heq. simpl in Heq. subst rs1. apply acc_bind. eapply acc_mono; [apply Hc|].
    intros [] s' Hs'. apply acc_ret. by intros _.
  - apply acc_ret. by intros [? ?].
Qed.

(** Programs that neither open, close nor work. *)
Ltac idle := unfold draw_tag; through ltac:(reflexivity).

Section resources.
Context `{GoRuntime} `{Pgx} `{MapRange}.

Lemma acc_openDB cfg rs :
  accounted (rs, false) (openDB cfg)
    (fun r s => s = (match r with None => [RDatabase] | Some _ => [] end ++ rs, false)).
Proof.
  assert (Hopen : forall tls, accounted (rs, false) (run! pact (OpenDB (db_config cfg tls)); Ret (None : option error))
    (fun r s => s = (match r with None => [RDatabase] | Some _ => [] end ++ rs, false))).
  { intros tls. apply acc_bind, acc_act. intros r. eexists. split; [reflexivity|]. by apply acc_ret. }
  unfold openDB. apply acc_bind, acc_act. intros parsed. eexists. split; [reflexivity|].
  destruct parsed as [e|]; [by apply acc_ret|]. destruct (PGSSL cfg); [|apply Hopen].
  apply acc_bind, acc_only; [unfold buildTLSConfig; idle|]. intros [e|tls]; [by apply acc_ret|apply Hopen].
Qed.

Lemma acc_close_pubsub rs b :
  accounted (RPublisher :: RPubSubClient :: rs, b) close_pubsub (fun _ s => s.1 = rs).
Proof.
  unfold close_pubsub. apply acc_bind, acc_act. intros e. eexists. split; [reflexivity|].
  apply acc_bind, acc_only; [unfold log_close; idle|]. intros [].
  apply acc_bind, acc_act. intros e'. eexists. split; [reflexivity|].
  apply acc_only; [unfold log_close; idle|done].
Qed.

(** What the cleanups of a list of senders close. *)
Definition closing_all (rs : list resource) (cleanups : list (proc unit)) (opened : list resource) : Prop :=
  forall b, accounted (opened, b) (run_cleanups cleanups) (fun _ s => s.1 = rs).

Lemma closing_snoc rs cleanups opened opened' cleanup :
  closing_all rs cleanups opened ->
  (forall b, accounted (opened', b) cleanup (fun _ s => s.1 = opened)) ->
  closing_all rs (cleanups ++ [cleanup]) opened'.
Proof.
  intros Hall Hc b. unfold run_cleanups. rewrite rev_app_distr. simpl. apply acc_bind.
  eapply acc_mono; [apply Hc|]. intros [] [rs1 b1] Hs. simpl in Hs. subst. apply Hall.
Qed.

Lemma acc_build spec cfg rs :
  accounted (rs, false) (build spec cfg)
    (fun r s => match r with
                | inl _ => s = (rs, false)
                | inr (_, cleanup) => exists opened, s = (opened, false) /\ rs ⊆ opened
                    /\ forall b, accounted (opened, b) cleanup (fun _ s => s.1 = rs)
                end).
Proof.
  unfold build. case_bool_decide.
  - unfold buildPubSubSender, PubSubClient.NewClient. apply acc_bind, acc_act. intros [e|].
    + eexists. split; [reflexivity|]. by apply acc_ret.
    + eexists. split; [reflexivity|]. apply acc_bind, acc_act. intros []. eexists. split; [reflexivity|].
      apply acc_ret. eexists. split_and!; [done|set_solver|]. intros b. apply acc_close_pubsub.
  - unfold buildSQSSender. apply acc_bind, acc_act. intros e. eexists. split; [reflexivity|].
    apply acc_ret. destruct e as [e|]; [done|]. eexists. split_and!; [done|done|]. intros b. by apply acc_ret.
Qed.

Lemma acc_build_loop cfg specs rs built opened :
  closing_all rs built.2 opened ->
  accounted (opened, false) (for_loop specs (build_next cfg) built)
    (fun r s => match r with
                | inl built' => s.2 = false /\ opened ⊆ s.1 /\ closing_all rs built'.2 s.1
                | inr (inl _) => s.1 = rs
                | inr (inr _) => False
                end).
Proof.
  revert built opened. induction specs as [|spec specs IH]; intros built opened Hall; cbn [for_loop].
  { by apply acc_ret. }
  apply acc_bind. unfold build_next at 1. destruct (spec_enabled spec cfg); cbn [negb].
  - apply acc_bind. eapply acc_mono; [apply acc_build|]. intros [e|[snd cleanup]] s.
    + intros ->. apply acc_bind. eapply acc_mono; [apply Hall|]. intros [] s' Hs. apply acc_ret. by apply acc_ret.
    + intros (opened' & -> & Hsub & Hc). apply acc_ret. eapply acc_mono; [apply IH|].
      * simpl. by eapply closing_snoc.
      * intros [built'|[e|?]] s' Hs; [|done|done]. destruct Hs as (? & ? & ?). split_and!; [done|by etrans|done].
  - apply acc_ret. by apply IH.
Qed.

Lemma acc_with_senders turns cfg rs :
  RDatabase ∈ rs -> (forall opened, rs ⊆ opened -> accounted (opened, false) (check_and_process turns cfg) (leaves opened)) ->
  accounted (rs, false) (with_senders turns cfg) (leaves rs).
Proof.
  intros Hdb Hbody. unfold with_senders, buildProviderSenders. apply acc_bind, acc_bind.
  eapply acc_mono; [apply (acc_build_loop cfg providerSpecs rs)|].
  { intros b. by apply acc_ret. }
  intros [built|[e|?]] [opened b]; [intros (Hb & Hsub & Hall)|intros Hs|done]; simpl in *.
  - subst b. apply acc_ret. eapply acc_defer; [by apply Hbody|done].
  - subst. apply acc_ret, acc_returns.
Qed.

Lemma account_work rs a :
  RDatabase ∈ rs -> opens a = None -> closes a = None -> account (rs, false) a = Some (rs, false).
Proof.
  intros Hdb Ho Hc. unfold account. rewrite Ho, Hc. simpl. rewrite bool_decide_eq_true_2 by done. by rewrite andb_false_r.
Qed.

(** Work while the database is open and shutdown has not begun. *)
Lemma acc_work rs c (Q : proc_resp c -> holding -> Prop) :
  RDatabase ∈ rs -> (forall r, opens (pdid c r) = None /\ closes (pdid c r) = None) ->
  (forall r, Q r (rs, false)) -> accounted (rs, false) (pact c) Q.
Proof.
  intros Hdb Hc HQ. apply acc_act. intros r. exists (rs, false). split; [|done].
  by apply account_work; [|apply Hc..].
Qed.

Lemma acc_process turns cfg rs :
  RDatabase ∈ rs -> accounted (rs, false) (process turns cfg) (leaves rs).
Proof.
  intros Hdb. unfold process, startStatsLogger. apply acc_bind.
  assert (Hloop : accounted (rs, false)
    (do! processed <- within (processEvents cfg turns initial_state);
     match processed with
     | None => Ret None
     | Some processErr =>
         run! (if (0 <? StatsInterval cfg)%Z then pact LogStats else Ret tt);
         returns (match processErr with Some e => Some (wrap "process events" e) | None => None end)
     end) (leaves rs)).
  { apply acc_bind, acc_within; [done|]. intros [e|]; [|by apply acc_ret; intros [? ?]].
    apply acc_bind. destruct (0 <? StatsInterval cfg)%Z.
    - apply (acc_work rs LogStats); [done|done|]. intros r. apply acc_returns.
    - apply acc_ret, acc_returns. }
  destruct (StatsInterval cfg <=? 0)%Z; [by apply acc_ret|].
  by apply (acc_work rs (StartStatsLogger _)).
Qed.

Lemma acc_check turns cfg rs :
  RDatabase ∈ rs -> accounted (rs, false) (check_and_process turns cfg) (leaves rs).
Proof.
  intros Hdb. unfold check_and_process.
  apply acc_bind, acc_within; [done|]. intros [e|_]; [apply acc_returns|].
  apply acc_bind, acc_within; [done|]. intros [e|_]; [apply acc_returns|].
  destruct (0 <? HealthPort cfg)%Z; [|by apply acc_process].
  apply acc_bind, (acc_act _ (Listen _)). intros [e|]; eexists; (split; [reflexivity|]); [apply acc_returns|].
  apply (acc_defer _ rs (RServer :: rs)); [apply acc_process; set_solver|].
  intros b. apply (acc_act _ ShutdownServer). intros r. eexists. by split.
Qed.

Lemma acc_load_failed f b : accounted ([], b) (load_failed f) (fun _ s => s.1 = []).
Proof. apply acc_only; [unfold load_failed; idle|done]. Qed.

Lemma acc_runRelay turns env args : accounted ([], false) (runRelay turns env args) (leaves []).
Proof.
  unfold runRelay. destruct (loadConfig env args) as [f|cfg].
  { apply acc_bind. eapply acc_mono; [apply acc_load_failed|]. intros e [rs b] Hs. simpl in Hs. subst.
    apply acc_returns. }
  apply acc_bind, acc_only; [idle|]. intros [].
  destruct (validate cfg configValidationRelay); [apply acc_returns|].
  unfold supervised. apply acc_bind, acc_act. intros []. eexists. split; [reflexivity|].
  apply (acc_defer _ [] [RContext]); [|intros b; apply (acc_act _ CancelContext); intros r; eexists; by split].
  apply acc_bind, acc_act. intros []. eexists. split; [reflexivity|].
  apply (acc_defer _ [RContext] [RWatchdog; RContext]); [|intros b; apply (acc_act _ StopWatchdog); intros r; eexists; by split].
  apply acc_bind. eapply acc_mono; [apply acc_openDB|]. intros [e|] s ->; [apply acc_returns|].
  apply (acc_defer _ [RWatchdog; RContext] [RDatabase; RWatchdog; RContext]).
  - apply acc_with_senders; [set_solver|]. intros opened Hsub. apply acc_check. set_solver.
  - intros b. apply (acc_act _ CloseDB). intros r. eexists. by split.
Qed.

(** ** Provisioning *)

Lemma keeps_statement rs c :
  RDatabase ∈ rs -> (forall r, opens (pdid c r) = None /\ closes (pdid c r) = None) -> only (keeps (rs, false)) (pact c).
Proof.
  intros Hdb Hc. refine (only_perform _ c _). intros r.
  exact (account_work rs (pdid c r) Hdb (proj1 (Hc r)) (proj2 (Hc r))).
Qed.

Lemma keeps_within {A} rs (m : prog A) : RDatabase ∈ rs -> only (keeps (rs, false)) (within m).
Proof.
  intros Hdb tr a (t & -> & _)%exec_within. apply Forall_fmap, Forall_true. intros [c r].
  unfold keeps, account; simpl. by rewrite bool_decide_eq_true_2.
Qed.

Lemma keeps_apply cfg rs : RDatabase ∈ rs -> only (keeps (rs, false)) (apply_in_transaction cfg).
Proof.
  intros Hdb. unfold apply_in_transaction. apply only_bind; [idle|]. intros rand.
  apply only_bind.
  - apply only_for_loop. intros [] stmt. unfold apply_statement, execInitStatement. apply only_bind; [by apply (keeps_statement _ (ExecDDL _))|].
    intros r. apply only_ret.
  - intros [_|r]; [|apply only_ret]. apply only_bind.
    + unfold validateProvisionedSchema. apply only_bind; [by apply keeps_statement|]. intros [e|columns]; [apply only_ret|].
      destruct (validateEventColumns cfg columns); [apply only_ret|]. case_bool_decide; [apply only_ret|].
      apply only_bind; [by apply keeps_within|]. intros m. apply only_ret.
    + intros [e|_]; [apply only_ret|]. apply only_bind; [by apply keeps_statement|]. intros c. apply only_ret.
Qed.

Lemma acc_applyInit cfg : accounted ([], false) (applyInit cfg) (fun _ s => s.1 = []).
Proof.
  unfold applyInit. apply acc_bind. eapply acc_mono; [apply acc_openDB|]. intros [e|] s ->; [by apply acc_ret|].
  apply acc_bind, (acc_work [RDatabase] (App BeginTx)); [set_solver|done|]. intros [e|].
  - apply acc_bind, acc_act. intros []. eexists. split; [reflexivity|]. by apply acc_ret.
  - apply acc_bind, acc_only; [apply keeps_apply; set_solver|]. intros result.
    apply acc_bind, (acc_work [RDatabase] (App Rollback)); [set_solver|done|]. intros r.
    apply acc_bind, acc_act. intros []. eexists. split; [reflexivity|]. by apply acc_ret.
Qed.

Lemma acc_runInit env args : accounted ([], false) (runInit env args) (fun _ s => s.1 = []).
Proof.
  unfold runInit. destruct (loadInitConfig env args) as [f|[cfg apply]]; [apply acc_load_failed|].
  apply acc_bind, acc_only; [idle|]. intros [].
  destruct (validate cfg configValidationInit); [by apply acc_ret|]. destruct apply; cbn [negb]; [apply acc_applyInit|].
  apply acc_only; [idle|done].
Qed.

Lemma acc_main turns env args : accounted ([], false) (main turns env args) (leaves []).
Proof.
  unfold main. apply acc_bind. apply (acc_mono _ _ (leaves [])).
  - unfold Run. apply acc_bind, acc_act. intros file. eexists. split; [reflexivity|]. cbv zeta.
    destruct (verb_of args) as [rest|name|].
    + apply acc_bind. eapply acc_mono; [apply acc_runInit|]. intros e [rs b] Hs. simpl in Hs. subst. apply acc_returns.
    + apply acc_returns.
    + apply acc_runRelay.
  - intros [[e|]|] [rs b] Hs; [|by apply acc_ret; intros _; apply Hs|by apply acc_ret; intros [? ?]].
    pose proof (Hs (mk_is_Some _ _ eq_refl)) as Heq. simpl in Heq. subst rs.
    apply acc_bind, acc_act. intros []. eexists. split; [reflexivity|]. by apply acc_ret.
Qed.

End resources.

(** ** Start-up, the loop, shutdown *)

(** Actions before the loop: everything but statements of a transaction and sends. *)
Definition before_loop (a : pstep) : Prop :=
  match projT1 a with App (QueryColumns _) | App (QueryMetadata _ _) => True | App _ | ExecDDL _ => False | _ => True end.

(** Actions after the loop. *)
Definition after_loop (a : pstep) : Prop := match projT1 a with App _ | ExecDDL _ => False | _ => True end.

Definition provider_opened (cfg : appConfig) (spec : providerSpec) (h : list pstep) : Prop :=
  if bool_decide (spec_target spec = eventTargetPubSub)
  then pdid (NewPubSubClient (PubSubClient.NewClient (pubsubConfig cfg)).1 (PubSubClient.NewClient (pubsubConfig cfg)).2) None ∈ h
  else pdid (NewSQSClient (sqsConfig cfg)) None ∈ h.

(** What start-up has checked when the loop begins. *)
Record started `{GoRuntime} `{Pgx} (cfg : appConfig) (h : list pstep) : Prop := {
  started_providers : forall spec, spec ∈ providerSpecs -> spec_enabled spec cfg = true -> provider_opened cfg spec h;
  started_columns : exists query columns,
    pdid (App (QueryColumns query)) (inr columns) ∈ h /\ validateEventColumns cfg columns = inr tt;
  started_dlq : DLQTable cfg <> "" -> exists t metadata,
    exec (loadDLQTableMetadata cfg) t (inr metadata) /\ map in_process t `sublist_of` h
    /\ validateDLQTableMetadata (DLQTable cfg) metadata = inr tt;
}.

(** What [runRelay] returns for the result of the loop, and the exit status. *)
Definition relay_result (e : option error) : option error :=
  match e with Some e => Some (wrap "process events" e) | None => None end.

Definition exit_status (e : option error) : Z := match e with Some _ => 1 | None => 0 end.

Section phases.
Context `{GoRuntime} `{Pgx} `{MapRange} (turns : nat) (cfg : appConfig).

(** The loop was run, on an execution of [processEvents]. *)
Definition ran (h tr : list pstep) (r : option (option error)) : Prop :=
  exists t1 t t2 r', tr = t1 ++ map in_process t ++ t2
    /\ Forall before_loop t1 /\ started cfg (h ++ t1)
    /\ exec (processEvents cfg turns initial_state) t r'
    /\ Forall after_loop t2 /\ r = relay_result <$> r'.

(** After [h], a program fails before the loop or runs it. *)
Definition phases (h : list pstep) (m : proc (option (option error))) : Prop :=
  forall tr r, exec m tr r -> (Forall before_loop tr /\ exists e, r = Some (Some e)) \/ ran h tr r.

Lemma started_mono h h' : h `sublist_of` h' -> started cfg h -> started cfg h'.
Proof.
  intros Hh [Hp (q & cols & Hc & Hv) Hd]. assert (Hsub : h ⊆ h') by (intros x Hx; by eapply elem_of_sublist). split.
  - intros spec Hin Hen. specialize (Hp spec Hin Hen). unfold provider_opened in *.
    case_bool_decide; by apply Hsub.
  - exists q, cols. split; [by apply Hsub|done].
  - intros Hne. destruct (Hd Hne) as (t & m & He & Ht & Hm). exists t, m. split_and!; [done|by etrans|done].
Qed.

Lemma after_before tr : Forall after_loop tr -> Forall before_loop tr.
Proof. intros Ht. eapply Forall_impl; [exact Ht|]. intros [[[]| | | | | | | | | | | | | | | | | | | | | | | |] ?]; done. Qed.

Lemma ph_fails h e : phases h (returns (Some e)).
Proof. intros tr r [-> ->]. left. split; [done|by eexists]. Qed.

Lemma ph_bind {A} h (m : proc A) (f : A -> proc (option (option error))) :
  only before_loop m -> (forall t a, exec m t a -> phases (h ++ t) (f a)) -> phases h (bind m f).
Proof.
  intros Hm Hf tr r (t1 & t2 & a & -> & E1 & E2)%exec_bind. pose proof (Hm _ _ E1) as Ht1.
  destruct (Hf _ _ E1 _ _ E2) as [[Ht2 He]|(u1 & t & u2 & r' & -> & Hu1 & Hs & He & Hu2 & ->)]; [left|right].
  - split; [by apply Forall_app|done].
  - exists (t1 ++ u1), t, u2, r'. rewrite (assoc_L (++) h). split_and!; try done; [by rewrite <- (assoc_L (++))|].
    by apply Forall_app.
Qed.

Lemma ph_defer h cleanup m : only after_loop cleanup -> phases h m -> phases h (defer cleanup m).
Proof.
  intros Hc Hm tr r (t1 & t2 & a & -> & E1 & E2)%exec_bind.
  assert (Ht2 : Forall after_loop t2 /\ r = a).
  { destruct a as [v|]; [|by destruct E2 as [-> ->]]. apply exec_bind in E2 as (t3 & t4 & [] & -> & E3 & [-> ->]).
    rewrite app_nil_r. split; [by eapply Hc|done]. }
  destruct Ht2 as [Ht2 ->].
  destruct (Hm _ _ E1) as [[Ht1 He]|(u1 & t & u2 & r' & -> & Hu1 & Hs & He & Hu2 & ->)]; [left|right].
  - split; [by apply Forall_app; auto using after_before|done].
  - exists u1, t, (u2 ++ t2), r'. split_and!; try done; [by rewrite <- !(assoc_L (++))|by apply Forall_app].
Qed.

(** *** The pieces *)

Lemma after_close_pubsub : only after_loop close_pubsub.
Proof. unfold close_pubsub, log_close. tame. Qed.

Lemma after_each cleanups :
  Forall (only after_loop) cleanups -> only after_loop (for_each cleanups (fun _ (cleanup : proc unit) => cleanup) tt).
Proof.
  intros Hr. induction Hr as [|c cs Hc _ IH]; cbn [for_each]; [apply only_ret|].
  apply only_bind; [exact Hc|]. by intros [].
Qed.

Lemma after_cleanups cleanups : Forall (only after_loop) cleanups -> only after_loop (run_cleanups cleanups).
Proof. intros Hc. by apply after_each, List.Forall_rev. Qed.

Lemma exec_build spec tr r :
  exec (build spec cfg) tr r ->
  Forall after_loop tr
  /\ forall snd cleanup, r = inr (snd, cleanup) -> provider_opened cfg spec tr /\ only after_loop cleanup.
Proof.
  unfold build, provider_opened. case_bool_decide.
  - unfold buildPubSubSender. destruct (PubSubClient.NewClient (pubsubConfig cfg)) as [project endpoint] eqn:Hn.
    intros (t1 & t2 & c & -> & ->%exec_perform & He)%exec_bind. destruct c as [e|].
    + destruct He as [-> ->]. split; [by repeat constructor|done].
    + apply exec_bind in He as (t3 & t4 & [] & -> & ->%exec_perform & [-> ->]).
      split; [by repeat constructor|]. intros snd cleanup [= <- <-]. split; [set_solver|apply after_close_pubsub].
  - intros (t1 & t2 & c & -> & ->%exec_perform & [-> ->])%exec_bind. split; [by repeat constructor|].
    destruct c as [e|]; [done|]. intros snd cleanup [= <- <-]. split; [set_solver|apply only_ret].
Qed.

Lemma provider_opened_mono spec t t' : t ⊆ t' -> provider_opened cfg spec t -> provider_opened cfg spec t'.
Proof. unfold provider_opened. intros Ht. case_bool_decide; apply Ht. Qed.

Lemma exec_build_loop specs built tr r :
  Forall (only after_loop) built.2 ->
  exec (for_loop specs (build_next cfg) built) tr r ->
  Forall after_loop tr /\ (forall built', r <> inr (inr built'))
  /\ forall built', r = inl built' ->
       Forall (only after_loop) built'.2
       /\ (forall spec, spec ∈ specs -> spec_enabled spec cfg = true -> provider_opened cfg spec tr)
       /\ (forall tgt, is_Some (built'.1 !! tgt)
             <-> is_Some (built.1 !! tgt) \/ exists spec, spec ∈ specs /\ spec_enabled spec cfg = true /\ spec_target spec = tgt).
Proof.
  revert built tr. induction specs as [|spec specs IH]; intros built tr Hb; cbn [for_loop].
  { intros [-> ->]. split_and!; [done|done|]. intros built' [= <-]. split_and!; [done|set_solver|].
    intros tgt. split; [by left|]. intros [?|(? & Hin & _)]; [done|by apply elem_of_nil in Hin]. }
  intros (t1 & t2 & x & -> & Hx & He)%exec_bind. unfold build_next in Hx.
  destruct (spec_enabled spec cfg) eqn:Hen; cbn [negb] in Hx.
  2: { destruct Hx as [-> ->]. apply IH in He as (Ht & Hno & He); [|done]. split_and!; [done|done|]. intros built' ->.
       destruct (He _ eq_refl) as (Hc & Ho & Hd). split_and!; [done| |].
       - intros sp [->|Hin]%elem_of_cons Hsp; [congruence|by apply Ho].
       - intros tgt. rewrite Hd. split; intros [?|(sp & Hin & ? & ?)]; [by left| |by left|].
         + right. exists sp. split; [by right|done].
         + apply elem_of_cons in Hin as [->|Hin]; [congruence|]. right. by exists sp. }
  apply exec_bind in Hx as (t3 & t4 & b & -> & [Ht3 Hopen]%exec_build & Hx). destruct b as [e|[snd cleanup]].
  - apply exec_bind in Hx as (t5 & t6 & [] & -> & Hc & [-> ->]). destruct He as [-> ->]. split; [|done].
    apply after_cleanups in Hc; [|done]. rewrite !Forall_app. by split_and!.
  - destruct Hx as [-> ->]. destruct (Hopen _ _ eq_refl) as [Hop Hcl]. apply IH in He as (Ht & Hno & He).
    2: { apply Forall_app. split; [done|by apply Forall_singleton]. }
    split_and!; [rewrite !Forall_app; by split_and!|done|]. intros built' ->.
    destruct (He _ eq_refl) as (Hc & Ho & Hd). split_and!; [done| |].
    + intros sp [->|Hin]%elem_of_cons Hsp; (eapply provider_opened_mono; [|by auto]); set_solver.
    + intros tgt. rewrite Hd. simpl. rewrite lookup_insert_is_Some.
      destruct (decide (spec_target spec = tgt)) as [<-|Hne]; split.
      * intros _. right. exists spec. split; [by left|done].
      * intros _. left. by left.
      * intros [[?|[_ ?]]|(sp & Hin & ? & ?)]; [done|by left|]. right. exists sp. split; [by right|done].
      * intros [?|(sp & Hin & ? & ?)]; [left; by right|]. apply elem_of_cons in Hin as [->|Hin]; [done|].
        right. by exists sp.
Qed.

(** *** [runRelay] *)

Lemma ph_process h : started cfg h -> phases h (process turns cfg).
Proof.
  intros Hs. unfold process. apply ph_bind.
  { unfold startStatsLogger. tame. }
  intros t0 [] E0 tr r (t1 & t2 & processed & -> & E1 & E2)%exec_bind. right.
  apply exec_within in E1 as (t & -> & E1).
  assert (Ht2 : Forall after_loop t2 /\ r = relay_result <$> processed).
  { destruct processed as [e|]; [|by destruct E2 as [-> ->]].
    apply exec_bind in E2 as (t3 & t4 & [] & -> & E3 & [-> ->]). rewrite app_nil_r. split; [|by destruct e].
    revert E3. destruct (0 <? StatsInterval cfg)%Z; [|by intros [-> _]].
    intros (x & t' & -> & -> & _). by repeat constructor. }
  destruct Ht2 as [Ht2 ->]. exists [], t, t2, processed. split_and!; try done. rewrite app_nil_r.
  by apply started_mono with h; [apply sublist_inserts_r|].
Qed.

Lemma before_dlq : only before_loop (within (checkDLQWorks cfg)).
Proof.
  unfold checkDLQWorks. case_bool_decide; [apply only_ret|].
  intros tr a (r & tr' & -> & -> & _). by repeat constructor.
Qed.

Lemma ph_check h :
  (forall spec, spec ∈ providerSpecs -> spec_enabled spec cfg = true -> provider_opened cfg spec h) ->
  phases h (check_and_process turns cfg).
Proof.
  intros Hprov. unfold check_and_process. apply ph_bind.
  { intros tr a (r & tr' & -> & -> & _). by repeat constructor. }
  intros t1 [e|[]] E1; [apply ph_fails|]. apply ph_bind; [apply before_dlq|].
  intros t2 [e|[]] E2; [apply ph_fails|].
  assert (Hs : started cfg ((h ++ t1) ++ t2)).
  { split.
    - intros spec Hin Hen. eapply provider_opened_mono; [|by apply Hprov]. set_solver.
    - destruct E1 as ([e|columns] & tr' & -> & [-> Hr]); [done|]. eexists _, columns.
      split; [|by rewrite Hr]. rewrite !elem_of_app. left. right. apply list_elem_of_here.
    - intros Hne. unfold checkDLQWorks in E2. rewrite bool_decide_eq_false_2 in E2 by done.
      apply exec_within in E2 as (t & -> & E2). apply exec_bind in E2 as (t3 & t4 & [e|m] & -> & E3 & [-> Hr]); [done|].
      exists t3, m. split_and!; [done| |done]. rewrite app_nil_r. by apply sublist_inserts_l. }
  destruct (0 <? HealthPort cfg)%Z; [|by apply ph_process].
  apply ph_bind; [unfold serveHTTPRequests; tame|]. intros t3 [e|] E3; [apply ph_fails|].
  apply ph_defer; [tame|]. apply ph_process. eapply started_mono; [|exact Hs]. by apply sublist_inserts_r.
Qed.

Lemma exec_senders tr r :
  exec (buildProviderSenders cfg) tr r ->
  Forall after_loop tr
  /\ forall built, r = inr built ->
       Forall (only after_loop) built.2
       /\ (forall spec, spec ∈ providerSpecs -> spec_enabled spec cfg = true -> provider_opened cfg spec tr)
       /\ (forall tgt, is_Some (built.1 !! tgt) <-> tgt ∈ providerTargets (configuredProviderRoutes cfg)).
Proof.
  unfold buildProviderSenders.
  intros (t1 & t2 & x & -> & (Ht & Hno & Hx)%exec_build_loop & [-> ->])%exec_bind; [|by constructor].
  rewrite app_nil_r. split; [done|]. intros built Hb.
  destruct x as [b|[e|b]]; [injection Hb as ->|done|by destruct (Hno b)].
  destruct (Hx _ eq_refl) as (Hc & Ho & Hd). split_and!; [done|done|]. intros tgt. rewrite Hd.
  cbn [fst]. rewrite (lookup_empty (M := gmap string)). unfold providerTargets, configuredProviderRoutes, providerSpecs. simpl.
  setoid_rewrite elem_of_cons. setoid_rewrite list_elem_of_singleton.
  destruct (PubSubEnabled cfg) eqn:Hp, (SQSEnabled cfg) eqn:Hs; simpl; rewrite ?elem_of_cons, ?elem_of_nil; split.
  all: try (intros [[? [=]]|(sp & [-> | ->] & Hen & <-)]; simpl in *; try congruence; tauto).
  all: intros Hin; right; naive_solver.
Qed.

Lemma ph_with_senders h : phases h (with_senders turns cfg).
Proof.
  unfold with_senders. apply ph_bind.
  { intros tr r [Ht _]%exec_senders. by apply after_before. }
  intros t [e|built] E1; [apply ph_fails|]. apply exec_senders in E1 as [_ E1].
  destruct (E1 _ eq_refl) as (Hc & Ho & _). apply ph_defer; [by apply after_cleanups|]. apply ph_check.
  intros spec Hin Hen. eapply provider_opened_mono; [|by apply Ho]. set_solver.
Qed.

Lemma ph_supervised h : phases h (supervised turns cfg).
Proof.
  unfold supervised. apply ph_bind; [tame|]. intros u1 [] _. apply ph_defer; [tame|].
  apply ph_bind; [tame|]. intros u2 [] _. apply ph_defer; [tame|].
  apply ph_bind; [unfold openDB, buildTLSConfig; tame|]. intros u3 [e|] _; [apply ph_fails|].
  apply ph_defer; [tame|]. apply ph_with_senders.
Qed.

End phases.

Lemma account_prefix s t h : h `prefix_of` t -> is_Some (account_all s t) -> is_Some (account_all s h).
Proof. intros [u ->]. rewrite account_app. destruct (account_all s h); [by eexists|done]. Qed.

Lemma exec_runRelay `{GoRuntime} `{Pgx} `{MapRange} turns env args tr r :
  exec (runRelay turns env args) tr r ->
  (Forall before_loop tr /\ is_Some r)
  \/ exists cfg, loadConfig env args = inr cfg /\ storage_ok cfg /\ runtime_ok cfg /\ ran turns cfg [] tr r.
Proof.
  unfold runRelay. destruct (loadConfig env args) as [f|cfg].
  { intros (t1 & t2 & e & -> & He%exec_load_failed & [-> ->])%exec_bind. subst t1. left. by repeat constructor. }
  intros (t1 & t2 & [] & -> & Hlog & He)%exec_bind. apply (exec_perform (R := proc_resp) (SetLogger _ _) t1 tt) in Hlog as ->.
  destruct (validate cfg configValidationRelay) as [e|[]] eqn:Hv.
  { destruct He as [-> ->]. left. by repeat constructor. }
  apply validate_exact in Hv as [Hst Hrt].
  destruct (ph_supervised turns cfg [] _ _ He) as [[Ht [e ->]]|(u1 & u & u2 & r' & -> & Hu1 & Hs & Hex & Hu2 & ->)]; [left|right].
  - split; [|by eexists]. by constructor.
  - exists cfg. split_and!; [done..|]. exists (sets_logger cfg :: u1), u, u2, r'. split_and!; try done.
    + by constructor.
    + eapply started_mono; [|exact Hs]. by apply sublist_cons.
Qed.

(** The third part of the life of a process: a relay. *)
Lemma exec_main_relay `{GoRuntime} `{Pgx} `{MapRange} (turns : nat) (env : environment) (args : list string)
    (tr : list pstep) (r : option Z) :
  verb_of args = VerbRelay -> exec (main turns env args) tr r ->
  (Forall before_loop tr /\ is_Some r)
  \/ exists file cfg t1 t t2 r',
       tr = pdid (ReadFile ".env") file :: t1 ++ map in_process t ++ t2
       /\ loadConfig (loadDotEnv (contents file) env) args = inr cfg /\ storage_ok cfg /\ runtime_ok cfg
       /\ Forall before_loop t1 /\ started cfg t1
       /\ exec (processEvents cfg turns initial_state) t r'
       /\ Forall after_loop t2 /\ r = exit_status <$> r'.
Proof.
  intros Hverb He. unfold main in He. apply exec_bind in He as (t0 & t3 & x & -> & Hrun & Hmain).
  assert (Ht3 : Forall after_loop t3 /\ r = exit_status <$> x).
  { destruct x as [[e|]|]; [|by destruct Hmain as [-> ->]..].
    apply exec_bind in Hmain as (u1 & u2 & [] & -> & ->%exec_perform & [-> ->]). by repeat constructor. }
  destruct Ht3 as [Ht3 ->]. apply exec_bind in Hrun as (u1 & u2 & file & -> & ->%exec_perform & Hrun).
  rewrite Hverb in Hrun. apply exec_runRelay in Hrun as [[Hu2 Hx]|(cfg & Hload & Hst & Hrt & t1 & t & t2 & r' & -> & Ht1 & Hs & Hex & Ht2 & ->)];
    [left|right].
  - split; [|by apply fmap_is_Some]. simpl. constructor; [done|]. apply Forall_app. split; [done|by apply after_before].
  - exists file, cfg, t1, t, (t2 ++ t3), r'. split_and!; try done.
    + simpl. by rewrite <- !(assoc_L (++)).
    + by apply Forall_app.
    + by destruct r' as [[e|]|].
Qed.

(** C11. The life of the process.  In every execution of [main], at every moment and on every path,
    failures included, what was opened is closed last in, first out; nothing is opened, queried,
    written or sent once something was closed, and nothing is queried or written before the
    database is open; and when [main] returns, everything is closed.  A relay process either
    returns from its start-up, without having begun a transaction or sent an event, or loaded a valid
    configuration, opened every enabled provider, accepted the tables, and then performed
    exactly an execution of the processing loop, followed by nothing but shutdown; its exit status
    is 1 for an error of the loop and 0 otherwise.  The senders it built are those of the
    configured routes. *)
Theorem process_lifecycle `{GoRuntime} `{Pgx} `{MapRange} (turns : nat) (env : environment) (args : list string)
    (tr : list pstep) (r : option Z) :
  exec (main turns env args) tr r ->
  (forall h, h `prefix_of` tr -> is_Some (account_all ([], false) h))
  /\ (is_Some r -> exists begun, account_all ([], false) tr = Some ([], begun))
  /\ (verb_of args = VerbRelay ->
       Forall before_loop tr
       \/ exists file cfg t1 t t2 r',
            tr = pdid (ReadFile ".env") file :: t1 ++ map in_process t ++ t2
            /\ loadConfig (loadDotEnv (contents file) env) args = inr cfg /\ storage_ok cfg /\ runtime_ok cfg
            /\ Forall before_loop t1 /\ started cfg t1
            /\ exec (processEvents cfg turns initial_state) t r'
            /\ Forall after_loop t2 /\ r = exit_status <$> r')
  /\ (forall cfg t built, exec (buildProviderSenders cfg) t (inr built) ->
       forall tgt, is_Some (built.1 !! tgt) <-> tgt ∈ providerTargets (configuredProviderRoutes cfg)).
Proof.
  intros He. destruct (acc_main turns env args _ _ He) as ([rs b] & Hacc & Hrs). split_and!.
  - intros h Hh. by eapply account_prefix; [|eexists].
  - intros Hr. apply Hrs in Hr. simpl in Hr. subst rs. by exists b.
  - intros Hverb. destruct (exec_main_relay _ _ _ _ _ Hverb He) as [[? _]|?]; [by left|by right].
  - intros cfg t built [_ Hb]%exec_senders. by destruct (Hb _ eq_refl) as (_ & _ & ?).
Qed.

(** A relay with both providers and a health server, whose context is cancelled in its second turn;
    the file enables SQS. *)
Definition relay_answer (past : list pstep) (c : proc_cmd) : proc_resp c :=
  match c as c return proc_resp c -> proc_resp c with
  | App c =>
      match c as c return app_resp c -> app_resp c with
      | CtxErr => fun _ => bool_decide (30 < length past)
      | QueryEvents _ => fun _ => 
          inr (MkRows (inr ["resolved_target"; "resolved_destination"; "id"; "payload"])
                 [inr [VString "sqs"; VString "https://sqs/q"; VInt KInt64 1; VString "hello"]] None)
      | _ => fun r => r
      end
  | ReadFile _ => fun _ => inr "SQS_ENABLED=true"
  | _ => fun r => r
  end (init_answer [] c).

Definition relay_args : list string :=
  ["--pubsub-enabled"; "--default-sqs-queue-url=https://sqs/q"; "--health-port=8080"].

Definition relay_run := run relay_answer (main 3 ∅ relay_args) [].

Lemma no_transaction_before tr : Forall before_loop tr -> existsb begins tr = false.
Proof.
  intros Ht. induction Ht as [|[c r] tr Ha _ IH]; [done|]. cbn [existsb]. rewrite IH, orb_false_r.
  by destruct c as [[]| | | | | | | | | | | | | | | | | | | | | | | |].
Qed.

Lemma process_lifecycle_witness :
  relay_run.2 = Some 0%Z
  /\ account_all ([], false) relay_run.1 = Some ([], true)
  /\ exists cfg t r', exec (processEvents cfg 3 initial_state) t r' /\ map in_process t `sublist_of` relay_run.1
       /\ storage_ok cfg /\ runtime_ok cfg.
Proof.
  split; [vm_compute; reflexivity|]. split; [vm_compute; reflexivity|].
  destruct (process_lifecycle 3 ∅ relay_args _ _ (run_exec_nil relay_answer _)) as (_ & _ & Hphases & _).
  destruct (Hphases eq_refl) as [Hno|(file & cfg & t1 & t & t2 & r' & Htr & _ & Hst & Hrt & _ & _ & Hex & _)].
  - apply no_transaction_before in Hno.
    assert (existsb begins relay_run.1 = true) as Hyes by (vm_compute; reflexivity). change (existsb begins relay_run.1 = false) in Hno. by rewrite Hno in Hyes.
  - exists cfg, t, r'. split; [exact Hex|]. split; [|by split]. change (relay_run.1) with (run relay_answer (main 3 ∅ relay_args) []).1.
    rewrite Htr. apply sublist_cons, sublist_inserts_l, sublist_inserts_r. reflexivity.
Defined.
