(* ===== verification/Shutdown.v ===== *)
(** * Shutdown: what runs beside the loop ([http.go], [stats.go], [run.go])

    The goroutine that serves the health endpoint and the one that logs the statistics, beside the
    program of [Run.v]; all share the context, which a signal, a failing server or the end of the
    relay cancels.  Their actions interleave freely.  Once the context is cancelled the relay begins
    at most one more transaction, and it returns. *)
From S2P Require Import Prelude GoErrors Config Values Samples Strconv Conc Provider Stats App Routes Flags DotEnv LoadConfig Sql Health Db Dlq Backlog Notify Processor ProcessorSafety Relay Loop Process Init Run.
Local Open Scope go_scope.

(** ** The goroutines *)

(** What [server.Serve] returns: nil, [http.ErrServerClosed] or another error. *)
Inductive served := ServedNil | ServerClosed | ServeFailed (err : error).

(** The [select] of the statistics goroutine. *)
Inductive selected_case := CtxDone | Ticked.

Inductive side_cmd :=
| Serve
| SideError (message : string)
| Cancel
| Select
| SideCtxErr
| LogInterval.

Definition side_resp (c : side_cmd) : Type :=
  match c with Serve => served | Select => selected_case | SideCtxErr => bool | _ => unit end.

Definition side (A : Type) : Type := io side_resp unit A.

Abbreviation sstep := (action side_resp).

Definition sact (c : side_cmd) : side (side_resp c) := perform c.

Definition sdid (c : side_cmd) (r : side_resp c) : sstep := existT c r.

(** The goroutine of [serveHTTPRequests]. *)
Definition serve_goroutine : side unit :=
  do! err <- sact Serve;
  match err with
  | ServeFailed e => run! sact (SideError ("HTTP server failed: " +:+ error_text e)); sact Cancel
  | ServedNil | ServerClosed => Ret tt
  end.

(** [logStats] ([Stats.v]) as the goroutine calls it. *)
Definition logStats_action : side unit :=
  do! cancelled <- sact SideCtxErr;
  if cancelled : bool then Ret tt else sact LogInterval.

(** The goroutine of [startStatsLogger], for so many rounds of its loop. *)
Fixpoint stats_goroutine (rounds : nat) : side (option unit) :=
  match rounds with
  | 0 => Ret None
  | S rounds =>
      do! c <- sact Select;
      match c with
      | CtxDone => Ret (Some tt)
      | Ticked => run! logStats_action; stats_goroutine rounds
      end
  end.

(** ** Their interleavings with the relay *)

Inductive label := Main (a : pstep) | Server (a : sstep) | Ticker (a : sstep) | Signal.

Definition of_main (l : label) : option pstep := match l with Main a => Some a | _ => None end.
Definition of_server (l : label) : option sstep := match l with Server a => Some a | _ => None end.
Definition of_ticker (l : label) : option sstep := match l with Ticker a => Some a | _ => None end.

(** What cancels the context. *)
Definition cancels (l : label) : bool :=
  match l with
  | Signal => true
  | Server a => match projT1 a with Cancel => true | _ => false end
  | Main a => match projT1 a with CancelContext => true | _ => false end
  | Ticker _ => false
  end.

(** What the context answers; a [select] may prefer a tick. *)
Definition obeys (cancelled : bool) (l : label) : Prop :=
  match l with
  | Main (existT (App CtxErr) b) => b = cancelled
  | Ticker (existT SideCtxErr b) => b = cancelled
  | Ticker (existT Select CtxDone) => cancelled = true
  | _ => True
  end.

Fixpoint consistent (cancelled : bool) (run : list label) : Prop :=
  match run with
  | [] => True
  | l :: run => obeys cancelled l /\ consistent (cancelled || cancels l) run
  end.

(** A goroutine runs once it has been started. *)
Definition launched (h : list label) (l : label) : Prop :=
  match l with
  | Server _ => exists addr, Main (pdid (Listen addr) None) ∈ h
  | Ticker _ => exists interval, Main (pdid (StartStatsLogger interval) tt) ∈ h
  | _ => True
  end.

(** ** Counting *)

Fixpoint count_if {X} (P : X -> bool) (l : list X) : nat :=
  match l with [] => 0 | x :: l => (if P x then 1 else 0) + count_if P l end.

Lemma count_if_app {X} (P : X -> bool) l k : count_if P (l ++ k) = count_if P l + count_if P k.
Proof. induction l as [|x l IH]; simpl; [done|]. lia. Qed.

Lemma count_if_none {X} (P : X -> bool) l : Forall (fun x => P x = false) l -> count_if P l = 0.
Proof. induction 1 as [|x l Hx _ IH]; [done|]. simpl. by rewrite IH, Hx. Qed.

(** When every [P] comes just after [y], there is at most one after the last [y]: the first. *)
Lemma count_if_preceded {X} (P : X -> bool) (y : X) (u v : list X) :
  (forall a x c, u ++ v = a ++ x :: c -> P x = true -> last a = Some y) -> y ∉ v -> count_if P v <= 1.
Proof.
  intros Hpre Hy. destruct v as [|x v]; simpl; [lia|].
  enough (count_if P v = 0) as -> by (destruct (P x); lia). apply count_if_none, Forall_forall. intros z Hz.
  apply list_elem_of_split in Hz as (v1 & v2 & ->). destruct (P z) eqn:HP; [|done]. exfalso. apply Hy.
  specialize (Hpre (u ++ x :: v1) z v2). rewrite <- (assoc_L (++)) in Hpre. specialize (Hpre eq_refl HP).
  rewrite last_app_cons in Hpre. apply last_Some_elem_of in Hpre. set_solver.
Qed.

Section shutdown.
Context `{GoRuntime} `{Pgx} `{MapRange}.

(** A moment [run] in the life of a process whose relay performs [tr] and returns [r], and whose
    goroutines perform [ts] and [tt]. *)
Record process_run (turns rounds : nat) (env : environment) (args : list string) (run : list label)
    (tr : list pstep) (r : option Z) (ts tk : list sstep) : Prop := {
  pr_main : exec (main turns env args) tr r /\ omap of_main run `prefix_of` tr;
  pr_server : exec serve_goroutine ts tt /\ omap of_server run `prefix_of` ts;
  pr_ticker : (exists x, exec (stats_goroutine rounds) tk x) /\ omap of_ticker run `prefix_of` tk;
  pr_context : consistent false run;
  pr_launched : forall h l rest, run = h ++ l :: rest -> launched h l;
}.

(** ** Transactions *)

Definition is_begin (a : step) : bool := match projT1 a with BeginTx => true | _ => false end.

Definition transactions (tr : list step) : nat := count_if is_begin tr.

(** A transaction is begun just after the context answered that it is not cancelled. *)
Definition asked (a : step) (h : list step) : Prop :=
  is_begin a = true -> last h = Some (did CtxErr false).

Definition unbegun (a : step) : Prop := is_begin a = false.

Lemma transactions_app t u : transactions (t ++ u) = transactions t + transactions u.
Proof. apply count_if_app. Qed.

Lemma quiet_unbegun {A} (m : prog A) : only quiet m -> only unbegun m.
Proof.
  intros Hm tr a He. eapply Forall_impl; [by eapply Hm|]. intros [c r]. by destruct c.
Qed.

Section loop.
Context (cfg : appConfig).

Lemma unbegun_sendAll triage : only unbegun (sendAll cfg triage).
Proof.
  apply only_Par; [|intros rs; apply only_ret]. intros p Hp.
  apply list_elem_of_fmap in Hp as ([tgt events] & -> & _).
  unfold collectProviderOutput, collectSenderOutput. apply only_bind; [hush|]. intros s.
  apply only_bind; [|intros c; apply only_ret]. apply only_for_each. intros c cb.
  apply quiet_unbegun, hushed_on_callback.
Qed.

Lemma unbegun_writeBatch result d ps ids e : only unbegun (writeBatch cfg result d ps ids e).
Proof. unfold writeBatch, insertDeadLetters, finally, marshal_step, deleteEvents, markProgress. hush. Qed.

Lemma unbegun_triageEvents events : only unbegun (triageEvents cfg events).
Proof. unfold triageEvents, finally, markProgress. hush. Qed.

#[local] Hint Resolve unbegun_sendAll unbegun_writeBatch unbegun_triageEvents : hushed.

Lemma unbegun_processEventBatch : only unbegun (processEventBatch cfg).
Proof. unfold processEventBatch, selectEvents, oldestEventAge, sendBatch, markProgress. hush. Qed.

Lemma unbegun_end result e :
  only unbegun (if errors_Is e errDatabaseBatch then rollbackBatch result e else commitBatch result e).
Proof. unfold rollbackBatch, commitBatch, logBatchError, markProgress. hush. Qed.

Abbreviation wp := (wp (fun _ => True) asked).

Lemma wp_unbegun {A} h (m : prog A) (Q : list step -> A -> Prop) :
  only unbegun m -> (forall t a, transactions t = 0 -> Q (h ++ t) a) -> wp h m Q.
Proof.
  intros Hm HQ. apply (wp_only unbegun); [done| |].
  - intros a h' Ha Hb. unfold unbegun in Ha. congruence.
  - intros t a _ _ Ht. by apply HQ, count_if_none.
Qed.

(** A batch that starts just after the context was asked begins one transaction. *)
Lemma wp_batch_begins h :
  last h = Some (did CtxErr false) ->
  wp h (processOneBatch cfg) (fun h' _ => exists t, h' = h ++ t /\ transactions t = 1).
Proof.
  intros Hlast. unfold processOneBatch. apply wp_bind. apply (wp_perform (R := app_resp)). intros r _. split; [by intros _|].
  assert (Hrest : forall (m : prog (batchResult * option error)), only unbegun m ->
    wp (h ++ [did BeginTx r]) m (fun h' _ => exists t, h' = h ++ t /\ transactions t = 1)).
  { intros m Hm. apply wp_unbegun; [done|]. intros t a Ht. exists (did BeginTx r :: t).
    split; [by rewrite <- (assoc_L (++))|]. change (1 + transactions t = 1). by rewrite Ht. }
  destruct r as [e|]; apply Hrest.
  - unfold logBatchError. hush.
  - apply only_bind; [apply unbegun_processEventBatch|]. intros [result batchErr]. apply unbegun_end.
Qed.

Lemma wp_turn_begins h st :
  wp h (processTurn cfg st) (fun h' r => exists t, h' = h ++ t
    /\ match r with inl _ => transactions t = 1 | inr _ => transactions t <= 1 end).
Proof.
  unfold processTurn. apply wp_bind. apply (wp_perform (R := app_resp)). intros cancelled _. split; [intros Hb; discriminate Hb|].
  destruct cancelled.
  { apply wp_ret. exists [did CtxErr true]. split; [done|cbn; lia]. }
  apply wp_bind. eapply wp_mono; [apply wp_batch_begins, last_snoc|].
  intros h' [result batchErr] _ (t1 & -> & Ht1).
  assert (Hrest : forall (m : prog (loop_state + option error)) u, transactions u = 1 -> only unbegun m ->
    wp ((h ++ [did CtxErr false]) ++ u) m (fun h' r => exists t, h' = h ++ t
      /\ match r with inl _ => transactions t = 1 | inr _ => transactions t <= 1 end)).
  { intros m u Hu Hm. apply wp_unbegun; [done|]. intros t a Ht. exists (did CtxErr false :: u ++ t).
    split; [by rewrite <- !(assoc_L (++))|]. change (transactions (did CtxErr false :: u ++ t)) with (transactions (u ++ t)).
    rewrite transactions_app, Ht, Hu. destruct a; lia. }
  apply Hrest; [done|]. destruct (errors_Is batchErr errFatalAfterCommit); [hush|].
  destruct (errors_Is batchErr errDatabaseBatch); [unfold sleepContext; hush|].
  apply only_bind; [apply quiet_unbegun, hushed_updateBacklog|]. intros probe.
  case_bool_decide; [|hush]. apply only_bind; [apply quiet_unbegun, hushed_waitForEvents|]. intros l. apply only_ret.
Qed.

(** A loop that has not returned began a transaction in every turn. *)
Lemma wp_loop_begins turns h st :
  wp h (processEvents cfg turns st) (fun h' r => exists t, h' = h ++ t /\ (r = None -> transactions t = turns)).
Proof.
  revert h st. induction turns as [|turns IH]; intros h st.
  { apply wp_ret. exists []. by rewrite app_nil_r. }
  cbn [processEvents]. apply wp_bind. eapply wp_mono; [apply wp_turn_begins|].
  intros h' [st'|e] _ (t & -> & Ht).
  - eapply wp_mono; [apply IH|]. intros h' r _ (t' & -> & Ht'). exists (t ++ t').
    split; [by rewrite (assoc_L (++))|]. intros Hr. rewrite transactions_app, Ht, (Ht' Hr). done.
  - apply wp_bind, wp_unbegun; [apply quiet_unbegun, hushed_close|]. intros u [] _. apply wp_ret.
    exists (t ++ u). by split; [rewrite (assoc_L (++))|].
Qed.

Lemma loop_begins turns st tr r :
  exec (processEvents cfg turns st) tr r ->
  justified asked [] tr /\ (r = None -> transactions tr = turns).
Proof.
  intros He. destruct (wp_loop_begins turns [] st _ _ He) as (Hj & t & Heq & Ht); [by apply Forall_true|].
  simpl in Heq. by subst t.
Qed.

End loop.

(** ** The process *)

Definition is_pbegin (a : pstep) : bool := match projT1 a with App BeginTx => true | _ => false end.

(** The transactions of the process. *)
Definition begun (tr : list pstep) : nat := count_if is_pbegin tr.

Definition pasked (a : pstep) (h : list pstep) : Prop :=
  is_pbegin a = true -> last h = Some (pdid (App CtxErr) false).

Lemma before_unbegun tr : Forall before_loop tr -> Forall (fun a => is_pbegin a = false) tr.
Proof.
  intros Ht. eapply Forall_impl; [exact Ht|].
  intros [[[]| | | | | | | | | | | | | | | | | | | | | | | |] ?]; done.
Qed.

Lemma unbegun_pasked h tr : Forall (fun a => is_pbegin a = false) tr -> justified pasked h tr.
Proof.
  intros Ht t1 x t2 ->. apply Forall_app in Ht as [_ Ht]. apply Forall_cons in Ht as [Hx _].
  intros Hb. congruence.
Qed.

Lemma in_process_pasked h t : justified asked [] t -> justified pasked h (map in_process t).
Proof.
  intros Hj t1 x t2 Heq. apply map_eq_app in Heq as (u1 & u2 & -> & <- & Hu).
  apply map_eq_cons in Hu as (a & u3 & -> & <- & <-). intros Hb.
  assert (Hlast : last u1 = Some (did CtxErr false)) by (apply (Hj u1 a u3); [done|]; by destruct a as [[] ?]).
  rewrite last_app. change (map in_process u1) with (in_process <$> u1). by rewrite fmap_last, Hlast.
Qed.

Lemma begun_in_process t : begun (map in_process t) = transactions t.
Proof.
  unfold begun, transactions. induction t as [|a t IH]; simpl; [done|]. rewrite IH. by destruct a as [[] ?].
Qed.

Lemma main_begins turns env args tr r :
  verb_of args = VerbRelay -> exec (main turns env args) tr r ->
  justified pasked [] tr /\ (r = None -> begun tr = turns).
Proof.
  intros Hverb He. destruct (exec_main_relay _ _ _ _ _ Hverb He)
    as [[Ht Hr]|(file & cfg & t1 & t & t2 & r' & -> & _ & _ & _ & Ht1 & _ & Hex & Ht2 & ->)].
  { split; [by apply unbegun_pasked, before_unbegun|]. intros ->. by destruct Hr. }
  apply before_unbegun in Ht1. apply after_before, before_unbegun in Ht2.
  destruct (loop_begins _ _ _ _ _ Hex) as [Hj Hn].
  change (pdid (ReadFile ".env") file :: t1 ++ map in_process t ++ t2)
    with ([pdid (ReadFile ".env") file] ++ t1 ++ map in_process t ++ t2). split.
  - rewrite !justified_app. split_and!; [|by apply unbegun_pasked|by apply in_process_pasked|by apply unbegun_pasked].
    apply unbegun_pasked. by repeat constructor.
  - intros Hr. unfold begun. rewrite !count_if_app, (count_if_none _ t1), (count_if_none _ t2) by done.
    change (count_if is_pbegin (map in_process t)) with (begun (map in_process t)).
    rewrite begun_in_process, Hn by (by destruct r'). simpl. lia.
Qed.

(** ** The statistics goroutine *)

Definition is_log (a : sstep) : bool := match projT1 a with LogInterval => true | _ => false end.

Definition logs_asked (a : sstep) (h : list sstep) : Prop :=
  is_log a = true -> last h = Some (sdid SideCtxErr false).

Lemma stats_asked rounds h : wp (fun _ => True) logs_asked h (stats_goroutine rounds) (fun _ _ => True).
Proof.
  revert h. induction rounds as [|rounds IH]; intros h; [by apply wp_ret|]. cbn [stats_goroutine].
  assert (Hother : forall c h' r, (forall x, is_log (sdid c x) = false) -> logs_asked (sdid c r) h').
  { intros c h' r Hc Hl. by rewrite Hc in Hl. }
  apply wp_bind, (wp_perform (R := side_resp)). intros c _. split; [by apply Hother|].
  destruct c; [by apply wp_ret|]. apply wp_bind, wp_bind, (wp_perform (R := side_resp)). intros cancelled _.
  split; [by apply Hother|]. destruct cancelled; [by apply wp_ret, IH|].
  refine (wp_perform (R := side_resp) _ _ _ LogInterval _ _). intros [] _. split; [intros _; apply last_snoc|apply IH].
Qed.

(** ** The shared context *)

Lemma consistent_cancelled run : consistent true run -> Forall (obeys true) run.
Proof. induction run as [|l run IH]; [done|]. intros [Hl Hrun]. constructor; [done|by apply IH]. Qed.

Lemma consistent_after c h l rest :
  consistent c (h ++ l :: rest) -> cancels l = true -> Forall (obeys true) rest.
Proof.
  revert c. induction h as [|l' h IH]; intros c [_ Hrun] Hl.
  - rewrite Hl, orb_true_r in Hrun. by apply consistent_cancelled.
  - by eapply IH.
Qed.

(** Of what comes after a cancellation, at most the first may rely on an answer from before. *)
Lemma at_most_one_after {X} (proj : label -> option X) (P : X -> bool) (y : X)
    (J : X -> list X -> Prop) (run h rest : list label) (l : label) (tr : list X) :
  (forall x u, J x u -> P x = true -> last u = Some y) -> justified J [] tr -> omap proj run `prefix_of` tr ->
  run = h ++ l :: rest -> (forall l', obeys true l' -> proj l' <> Some y) -> Forall (obeys true) rest ->
  count_if P (omap proj rest) <= 1.
Proof.
  intros HJ Hj [w ->] -> Hy Hrest.
  apply (count_if_preceded P y (omap proj (h ++ [l])) (omap proj rest)).
  - intros a x c Heq HP. apply (HJ x a); [|done]. apply (Hj a x (c ++ w)).
    change (l :: rest) with ([l] ++ rest). rewrite (assoc_L (++)), omap_app, Heq.
    by rewrite <- (assoc_L (++)).
  - rewrite list_elem_of_omap. intros (l' & Hl' & Heq). rewrite Forall_forall in Hrest. by apply (Hy l'); [apply Hrest|].
Qed.

(** *** The server *)

Definition failure_of (a : sstep) : option error :=
  match a with existT Serve (ServeFailed e) => Some e | _ => None end.

Lemma exec_serve ts e :
  exec serve_goroutine ts tt -> sdid Serve (ServeFailed e) ∈ ts ->
  ts = [sdid Serve (ServeFailed e); sdid (SideError ("HTTP server failed: " +:+ error_text e)) tt; sdid Cancel tt].
Proof.
  intros (t1 & t2 & x & -> & ->%exec_perform & He)%exec_bind Hin.
  assert (Hx : forall e', x = ServeFailed e' ->
    t2 = [sdid (SideError ("HTTP server failed: " +:+ error_text e')) tt; sdid Cancel tt]).
  { intros e' ->. apply exec_bind in He as (t3 & t4 & [] & -> & Hlog & Hc).
    apply (exec_perform (R := side_resp) (SideError _) t3 tt) in Hlog as ->.
    by apply (exec_perform (R := side_resp) Cancel t4 tt) in Hc as ->. }
  assert (Hf : exists a, a ∈ existT Serve x :: t2 /\ failure_of a = Some e) by (by eexists).
  destruct Hf as (a & [->|Ha]%elem_of_cons & Hf).
  - destruct x as [| |e']; simplify_eq/=. by rewrite (Hx e).
  - destruct x as [| |e']; [by destruct He as [-> _]; apply elem_of_nil in Ha..|]. rewrite (Hx e') in Ha by done.
    apply elem_of_cons in Ha as [->|Ha]; [done|]. by apply list_elem_of_singleton in Ha as ->.
Qed.

Lemma of_server_in (run : list label) a : a ∈ omap of_server run -> Server a ∈ run.
Proof. rewrite list_elem_of_omap. intros ([| a'| |] & Hin & [=]). by subst. Qed.

End shutdown.

(** ** Property *)

(** C16. Shutdown.  Once the context is cancelled, by a signal, by the health server failing or by the
    relay itself, and however the goroutines interleave, the relay begins at most one more
    transaction and the statistics goroutine logs at most one more interval, in both cases when the
    context was asked before; and the process returns: it cannot still be running after as many
    turns as it had begun transactions, and two more.  A health server that fails is logged and
    cancels the context. *)
Theorem cancellation_ends_the_relay `{GoRuntime} `{Pgx} `{MapRange} (turns rounds : nat) (env : environment)
    (args : list string) (run h rest : list label) (l : label) (tr : list pstep) (r : option Z) (ts tk : list sstep) :
  process_run turns rounds env args run tr r ts tk -> verb_of args = VerbRelay ->
  run = h ++ l :: rest -> cancels l = true ->
  begun (omap of_main rest) <= 1
  /\ count_if is_log (omap of_ticker rest) <= 1
  /\ (omap of_main run = tr -> begun (omap of_main h) + 2 <= turns -> is_Some r)
  /\ (forall e, Server (sdid Serve (ServeFailed e)) ∈ run -> omap of_server run = ts ->
       Server (sdid (SideError ("HTTP server failed: " +:+ error_text e)) tt) ∈ run
       /\ Server (sdid Cancel tt) ∈ run).
Proof.
  intros [[Hmain Hpm] [Hserve Hps] [[x Hticker] Hpt] Hctx _] Hverb Hrun Hl.
  destruct (main_begins _ _ _ _ _ Hverb Hmain) as [Hj Hn].
  assert (Hrest : Forall (obeys true) rest) by (rewrite Hrun in Hctx; by eapply consistent_after).
  assert (Hone : begun (omap of_main rest) <= 1).
  { eapply (at_most_one_after of_main is_pbegin (pdid (App CtxErr) false) pasked); [|done..| |done]; [done|].
    intros [a| | |] Hob [=]. by subst a. }
  split_and!; [done| | |].
  - destruct (stats_asked rounds [] _ _ Hticker) as [Hjt _]; [by apply Forall_true|].
    eapply (at_most_one_after of_ticker is_log (sdid SideCtxErr false) logs_asked); [|done..| |done]; [done|].
    intros [| |a|] Hob [=]. by subst a.
  - intros Hall Hturns. destruct r as [r|]; [by eexists|]. specialize (Hn eq_refl).
    rewrite <- Hall, Hrun, omap_app in Hn. unfold begun in *.
    change (l :: rest) with ([l] ++ rest) in Hn. rewrite omap_app, !count_if_app in Hn.
    assert (count_if is_pbegin (omap of_main [l]) = 0).
    { destruct l as [[[]]| | |]; done. }
    lia.
  - intros e Hin Hts. rewrite <- Hts in Hserve. apply exec_serve with (e := e) in Hserve.
    + split; apply of_server_in; rewrite Hserve; set_solver.
    + apply list_elem_of_omap. by exists (Server (sdid Serve (ServeFailed e))).
Qed.

(** ** A failing server

    The relay of [relay_run]; its server fails while the first batch is being sent, which the
    ticker, having just asked the context, does not notice yet. *)
Definition bind_lost : error := ErrText "accept tcp: use of closed network connection".

Definition failing_server : list sstep :=
  [sdid Serve (ServeFailed bind_lost); sdid (SideError ("HTTP server failed: " +:+ error_text bind_lost)) tt;
   sdid Cancel tt].

Definition one_tick : list sstep := [sdid Select Ticked; sdid SideCtxErr false; sdid LogInterval tt].

Definition before_failure : list label :=
  (Main <$> take 20 relay_run.1) ++ (Ticker <$> take 2 one_tick) ++ (Server <$> take 2 failing_server).

Definition after_failure : list label := (Ticker <$> drop 2 one_tick) ++ (Main <$> drop 20 relay_run.1).

Definition failing_run : list label := before_failure ++ Server (sdid Cancel tt) :: after_failure.

(** Checks a run without looking at it. *)
Fixpoint consistentb (cancelled : bool) (run : list label) : bool :=
  match run with
  | [] => true
  | l :: run =>
      match l with
      | Main (existT (App CtxErr) b) => eqb b cancelled
      | Ticker (existT SideCtxErr b) => eqb b cancelled
      | Ticker (existT Select CtxDone) => cancelled
      | _ => true
      end && consistentb (cancelled || cancels l) run
  end.

Lemma consistentb_ok cancelled run : consistentb cancelled run = true -> consistent cancelled run.
Proof.
  revert cancelled. induction run as [|l run IH]; intros cancelled; [done|]. cbn [consistentb consistent].
  rewrite andb_true_iff. intros [Hl Hr]. split; [|by apply IH]. clear IH Hr.
  destruct l as [[c r]| |[c r]|]; simpl in *; [|done| |done].
  - destruct c as [[]| | | | | | | | | | | | | | | | | | | | | | | |]; try done. by apply eqb_prop.
  - destruct c; try done; [by destruct r|by apply eqb_prop].
Qed.

(** Every goroutine of the run has been started. *)
Fixpoint launchedb (server ticker : bool) (run : list label) : bool :=
  match run with
  | [] => true
  | l :: run =>
      match l with Server _ => server | Ticker _ => ticker | _ => true end
      && launchedb (server || match l with Main (existT (Listen _) None) => true | _ => false end)
           (ticker || match l with Main (existT (StartStatsLogger _) _) => true | _ => false end) run
  end.

Lemma launchedb_ok (past run : list label) server ticker :
  (server = true -> exists addr, Main (pdid (Listen addr) None) ∈ past) ->
  (ticker = true -> exists interval, Main (pdid (StartStatsLogger interval) tt) ∈ past) ->
  launchedb server ticker run = true ->
  forall h l rest, run = h ++ l :: rest -> launched (past ++ h) l.
Proof.
  revert past server ticker. induction run as [|l0 run IH]; intros past server ticker Hs Ht Hb h l rest Heq.
  { by destruct h. }
  cbn [launchedb] in Hb. apply andb_true_iff in Hb as [Hl Hb].
  destruct h as [|l1 h]; injection Heq as -> Heq.
  - rewrite app_nil_r. destruct l; simpl; auto.
  - replace (past ++ l1 :: h) with ((past ++ [l1]) ++ h) by by rewrite <- (assoc_L (++)).
    eapply (IH (past ++ [l1]) _ _); [| |exact Hb|exact Heq].
    + intros [[addr Ha]%Hs|Ha]%orb_true_iff; [exists addr; set_solver|].
      destruct l1 as [[c r]| | |]; try done. destruct c; try done. destruct r; [done|]. eexists. apply elem_of_app. right. apply list_elem_of_here.
    + intros [[i Hi]%Ht|Hi]%orb_true_iff; [exists i; set_solver|].
      destruct l1 as [[c r]| | |]; try done. destruct c; try done. destruct r. eexists. apply elem_of_app. right. apply list_elem_of_here.
Qed.

Lemma failing_mains : omap of_main failing_run = relay_run.1.
Proof. vm_compute. reflexivity. Qed.

Lemma failing_process_run :
  process_run 3 1 ∅ relay_args failing_run relay_run.1 relay_run.2 failing_server one_tick.
Proof.
  split.
  - split; [apply run_exec_nil|]. by rewrite failing_mains.
  - assert (omap of_server failing_run = failing_server) as -> by (vm_compute; reflexivity).
    split; [|done]. exists (ServeFailed bind_lost), (drop 1 failing_server). split; [done|].
    eexists tt, (drop 2 failing_server). split; [done|]. by eexists tt, [].
  - assert (omap of_ticker failing_run = one_tick) as -> by (vm_compute; reflexivity).
    split; [|done]. exists None, Ticked, (drop 1 one_tick). split; [done|].
    exists false, (drop 2 one_tick). split; [done|]. by exists tt, [].
  - apply consistentb_ok. vm_compute. reflexivity.
  - apply (launchedb_ok [] failing_run false false); [done|done|]. vm_compute. reflexivity.
Qed.

Lemma cancellation_ends_the_relay_witness :
  begun (omap of_main before_failure) = 1
  /\ begun (omap of_main after_failure) <= 1
  /\ is_Some relay_run.2.
Proof.
  destruct (cancellation_ends_the_relay 3 1 ∅ relay_args failing_run before_failure after_failure
    (Server (sdid Cancel tt)) relay_run.1 relay_run.2 failing_server one_tick failing_process_run)
    as (Hone & _ & Hret & _); [reflexivity|reflexivity|reflexivity|].
  assert (Hb : begun (omap of_main before_failure) = 1) by (vm_compute; reflexivity).
  split_and!; [exact Hb|exact Hone|]. apply Hret; [apply failing_mains|]. rewrite Hb. lia.
Defined.
